(* ===== verification/_CoqProject ===== *)
-Q . S2P
Prelude.v
Effects.v
Float32.v
Params.v
State.v
Dram.v
Fill.v
Scaling.v
Norm.v
NormSpec.v
Config.v
Move.v
MoveSpec.v
Compute.v
ComputeSpec.v
LoopWs.v
LoopConv.v
Counters.v
Cisc.v
Dispatch.v
Invariant.v
Isa.v
IsaSpec.v
Issue.v
CountersSpec.v
DriverSpec.v
LoopWsSpec.v
MatmulCpu.v
MatmulCpuSpec.v
Matmul.v
MatmulSpec.v
Resadd.v
ResaddSpec.v
MatmulWsSpec.v
ConvCpu.v
ConvCpuSpec.v
Conv.v
ConvDw.v
ConvSpec.v
Systolic.v
SystolicSpec.v
StridedSpec.v
Tensor.v
Buffer.v
ConvHelper.v
ConvHelperSpec.v
Regions.v
ConvAttributes.v
Im2col.v
Im2colSpec.v
Positions.v
Im2colNdSpec.v
QLinearConv.v
ConvCallSpec.v
QLinearConvSpec.v
ConvPathSpec.v
NhwcSpec.v
NchwImageSpec.v
NchwSpec.v
LayoutSpec.v
QLinearMatMul.v
QLinearMatMulSpec.v
Graph.v
NhwcTransformer.v
GraphSpec.v
LayoutGraph.v
FilterSpec.v
LayoutSteps.v
LayoutInvariant.v
LayoutConvert.v
TransformerState.v
TransformerOps.v
TransformerEdges.v
TransformerCalls.v
TransformerStep.v
TransformerNodes.v
TransformerReplace.v
TransformerPass.v
TaggedModel.v
TransformerSpec.v
