(* ===== verification/Prelude.v ===== *)
(** * A verification of the Gemmini simulator and of its ONNX Runtime back end

    Gemmini is a systolic-array accelerator.  Four parts of the repository hold the
    program logic that this library models:

    - the functional simulator [software/libgemmini] ([gemmini.cc], [gemmini.h],
      [gemmini_params.h]), an extension of the Spike simulator that executes the
      accelerator's custom instructions against a scratchpad, an accumulator, an
      array of processing elements and Spike's main memory;
    - the systolic back end of ONNX Runtime
      ([software/onnxruntime-riscv/onnxruntime/core/mlas/lib/systolic]:
      [systolic_include.h], [systolic.cpp], [counter.h]), the driver: macros that
      encode instructions, tiling loops for matrix multiplication, residual addition
      and convolution, CPU references for each, and the entry points that the
      execution provider calls;
    - the systolic execution provider ([onnxruntime/core/providers/systolic], with what
      it uses of [core/framework], [core/util] and [core/providers]): the kernels
      for quantized convolution in NHWC and NCHW order and for the quantized matrix
      product, with validation, shape inference, im2col, max pooling and broadcasting;
    - the layout transformation
      ([onnxruntime/core/optimizer/systolic_nhwc_transformer.cc], on the graph of
      [core/graph]), which rewrites a graph so that the NHWC kernels are used.

    Each is modelled from its own source, and they are composed as the program composes
    them: an instruction macro of the driver packs its operands into two 64-bit registers
    and runs [custom3] of the simulator on them, and the kernels call the entry points of
    the driver.  The theorems about the driver and the kernels are therefore theorems
    about the whole stack, down to the bytes of main memory.  The transformation is
    verified against laws of the operators ([TensorLaws]); that the NHWC and the NCHW
    kernel store the same convolution is [LayoutSpec].

    ** Files

    Foundations.
    - [Prelude]: integers of a width ([wrap_u], [wrap_s], [in_u], [in_s], and
      [word_eq], the equality modulo [2^w] that rewriting uses), bit fields, ceiling
      division, finite sums.
    - [Effects]: the state-and-fault monad [M], loops, the total-correctness logic
      [wp], the invariant logic [maintains], record updates.
    - [Float32]: [float] and [double] as the Standard Library's executable
      [spec_float] with rounding to nearest even.

    The simulator.
    - [Params], [State]: configuration, [gemmini_state_t] as groups of registers,
      [reset], and the interface to Spike's memory ([Mmu], with its laws [MmuLaws]
      and the instance [flat_mem]) and to [rand()] ([Rand]).
    - [Dram]: [read_from_dram], [write_to_dram].  [Fill]: the rules for loops that
      fill a vector or store an array.
    - [Scaling], [Norm]: [sys_shift], [mvin_scale], [acc_scale], activations, I-BERT
      GELU and exp, [apply_norm], [apply_pre_activation_acc].
    - [Config]: [preload], [config], [loop_ws_config_*], [loop_conv_ws_config_*].
    - [Move], [Compute], [LoopWs], [LoopConv], [Counters], [Cisc]: the operations of
      the same names.  [Dispatch]: [custom3].
    - [MoveSpec], [ComputeSpec], [LoopWsSpec], [NormSpec], [CountersSpec]: their
      specifications.  [Invariant]: the type invariant of the whole state.

    The driver.
    - [Isa]: the [gemmini_*] macros.  [IsaSpec], [Issue], [DriverSpec]: which
      operation of the simulator each macro runs, on which operands, and the rules to
      run a macro on a machine.
    - [MatmulCpu], [Matmul]: [matmul_cpu], [sp_tiled_matmul_*], [tiled_matmul*].
      [MatmulCpuSpec], [MatmulSpec], [MatmulWsSpec]: their correctness.
    - [Resadd], [ResaddSpec]: residual addition, global average.
    - [ConvCpu], [Conv], [ConvDw]: the convolutions.  [ConvCpuSpec]: the reference
      convolves; [ConvSpec]: the tile searches.
    - [Systolic], [SystolicSpec], [StridedSpec]: the entry points of [systolic.cpp].

    The execution provider.
    - [Tensor]: tensors, shapes and statuses.  [Buffer], [Regions]: rules for programs
      that fill byte buffers, and for memory that is written in some regions and read
      in others.  [Positions]: mixed-radix counting.
    - [ConvHelper], [ConvHelperSpec]: [conv_pool_helper.h].  [ConvAttributes]: the
      attributes and shape inference.  [Im2col], [Im2colSpec], [Im2colNdSpec]:
      [math::Im2col].
    - [QLinearConv]: the two convolution kernels.  [ConvCallSpec], [QLinearConvSpec],
      [ConvPathSpec], [NhwcSpec]: the NHWC kernel; [NchwImageSpec], [NchwSpec]: the
      NCHW kernel; [LayoutSpec]: they agree.
    - [QLinearMatMul], [QLinearMatMulSpec]: [MatMulComputeHelper] and the kernel.

    The layout transformation.
    - [Graph], [GraphSpec]: nodes, arguments, edges, initializers and names.
    - [NhwcTransformer]: the functions of [systolic_nhwc_transformer.cc], one
      definition each.
    - [LayoutGraph]: the meaning of a graph, the laws of the operators and the
      invariant of the transformation, on a view without edges.  [LayoutSteps]: each
      step loses no behaviour; [LayoutInvariant]: each step keeps the invariant;
      [LayoutConvert]: a whole conversion; [FilterSpec]: the weights.
    - [TransformerState], [TransformerOps], [TransformerEdges], [TransformerCalls]: the
      view of a state, the invariant of what the view leaves out, and rules for the
      operations.  [TransformerStep], [TransformerNodes], [TransformerReplace]: each
      kind of node.  [TransformerPass], [TransformerSpec]: the pass and its end, and
      the theorems.
    - [TaggedModel]: an interpretation that has the laws and tells the layouts apart,
      and sample graphs.

    ** What the theorems show

    - Safety: every state the simulator can reach, through instructions that end or
      fault, is well typed ([Invariant]).
    - The moves and the array do what their operands say and nothing else
      ([MoveSpec], [ComputeSpec]; a result goes to the accumulator, to the scratchpad
      or nowhere); the loop instruction multiplies matrices and is refused when its
      row counts, as 32-bit integers, exceed half of a memory ([LoopWsSpec]); normalisation is the one of a whole row however the row is cut
      into blocks ([NormSpec]); a snapshot of the counters stays what it was and unknown
      instructions trap ([CountersSpec]).
    - The driver's encodings are the simulator's decodings ([IsaSpec], [DriverSpec]),
      with the exceptions listed as findings of the project; a preload and a compute
      issued through the macros multiply the blocks they were given
      ([preload_compute_macros]).
    - The tile searches end, and their tiles fit the memories and partition the
      matrices ([MatmulSpec], [ResaddSpec], [ConvSpec]); that of a pooled convolution of
      which no pooled position fits ends with a tile of no batches, on which the driver
      loops for ever ([conv_pool_too_large]).
    - Refinement of the abstract operation: the CPU references compute the
      mathematical product and convolution ([MatmulCpuSpec], [ConvCpuSpec]), and the
      accelerated multiplication and addition, run instruction by instruction, store
      the same bytes ([MatmulWsSpec], [ResaddSpec]); so do the entry points
      [SystolicMultiply] and [SystolicAdd] ([SystolicSpec]).
    - The kernels compute what they are for: both convolution kernels store the
      quantized grouped convolution of every image and touch nothing but their output
      and scratch buffers ([NhwcSpec], [NchwSpec]), the same one ([LayoutSpec]).  This
      is for convolutions without fused pooling, with explicit or automatic padding.  In
      CPU mode every path of the kernels is covered; in weight-stationary mode every path
      but the convolution routine of the accelerator, which [TryConvOnSystolic] calls for
      square ungrouped convolutions ([systolic_able]): the registers of its loop
      instruction disagree with the driver's arguments ([loop_conv_macro]).  The
      matrix product broadcasts and multiplies, and refuses inner dimensions that differ
      ([QLinearMatMulSpec]); im2col, in its
      optimised forms, lays out the patches ([Im2colSpec], [Im2colNdSpec],
      [ConvHelperSpec]).
    - The layout transformation, on every well-formed graph ([graph_wf] of
      [TransformerStep]), returns, keeps single assignment and the interface of the
      graph, and every solution of the final graph gives one of the original with the
      same inputs and outputs ([TransformerSpec]).  [graph_wf] leaves out, outside the
      pre-training pass, poolings that are not plain and poolings of poolings, which
      the code gets wrong: [pool_fusion_cases] says what it does with them.

    ** Conventions

    Integers are [Z]; each operation that wraps in C++ carries its [u8] ... [u64] or
    [s8] ... [s64].  Signed overflow, undefined in C++, is modelled as the wrap-around
    that the simulator's build produces.  Other undefined behaviour (a float outside
    the range of the integer it is converted to, an uninitialised operand, an array
    index out of range) is the fault [Undefined]; [vector::at] out of range,
    assertions, [exit(1)], illegal instructions and memory traps have faults of their
    own.  A loop whose counter cannot reach its bound, because it would wrap or its
    step is 0, faults with [LoopWraps]; [c_for] is the C loop itself, with a number of
    iterations as fuel, and [c_for_steps] and [c_for_stuck] relate the two.
    Addresses of the driver are integers; a C pointer is an address of main memory.
    An [int64_t] of the provider that counts elements is a [Z]; [SafeInt] and
    [ORT_ENFORCE] throw the fault [EnforceFailed].  In a graph a [NodeArg*] is the name
    of the argument and a [Node&] the index of the node; the order in which an
    [unordered_map] is traversed is a parameter ([HashOrder]).

    Fuel appears in the tile searches ([tile_fuel], and the bounds of [resadd_tiles]
    and of the convolution searches): each pass changes one factor by one towards a
    bound, so the sum of the distances suffices, which is proved with the search.
    The generators of names get one pass more than there are names in use, and their
    theorem shows that this is enough.  [for_range] and [for_step] run over explicit
    lists and need none.

    ** Not modelled

    The [ELEM_T_IS_FLOAT] build ([SystolicGemm] and the float kernels of the provider
    included), kernels that the sources keep inside comments, [dprintf], logging and
    console messages, the registration of the extension with Spike and of the kernels
    with the provider, and [gemmini_flush] beyond its instruction.  Of the provider: the
    element-wise [QLinearAdd] and [QLinearRelu] kernels, attention, and [Col2im] of the
    transposed convolution.  Of the transformation: graphs inside nodes ([Recurse]),
    and the topological order, which is an argument.  Outside these parts: the rest of
    ONNX Runtime, the bare-metal tests with their own copy of the macros, the Chisel
    generator, runners and scripts. *)

From stdpp Require Export base tactics numbers list list_numbers option gmap.
From Stdlib Require Export ZArith Lia.

#[export] Set Default Goal Selector "!".
#[global] Open Scope Z_scope.

(** ** Arithmetic automation *)

(** [zlia] is [lia] with divisions and remainders turned into equations. *)
Ltac zlia := Z.to_euclidean_division_equations; lia.

(** ** Machine integers

    A C++ integer of width [w] is a [Z]; every place where the source
    converts or lets an operation wrap is an explicit call of one of these. *)

Definition wrap_u (w x : Z) : Z := x mod 2 ^ w.
Definition wrap_s (w x : Z) : Z := (x + 2 ^ (w - 1)) mod 2 ^ w - 2 ^ (w - 1).

#[global] Arguments wrap_u : simpl never.
#[global] Arguments wrap_s : simpl never.

Abbreviation u8 := (wrap_u 8).
Abbreviation u16 := (wrap_u 16).
Abbreviation u32 := (wrap_u 32).
Abbreviation u64 := (wrap_u 64).
Abbreviation s8 := (wrap_s 8).
Abbreviation s16 := (wrap_s 16).
Abbreviation s32 := (wrap_s 32).
Abbreviation s64 := (wrap_s 64).

Definition in_u (w x : Z) : Prop := 0 <= x < 2 ^ w.
Definition in_s (w x : Z) : Prop := - 2 ^ (w - 1) <= x < 2 ^ (w - 1).

Lemma wrap_u_range w x : 0 <= w -> in_u w (wrap_u w x).
Proof. intros. apply Z.mod_pos_bound. lia. Qed.

Lemma wrap_u_id w x : in_u w x -> wrap_u w x = x.
Proof. apply Z.mod_small. Qed.

Lemma pow_half w : 0 < w -> 2 ^ w = 2 * 2 ^ (w - 1).
Proof. intros. rewrite <- Z.pow_succ_r by lia. f_equal. lia. Qed.

Lemma wrap_s_range w x : 0 < w -> in_s w (wrap_s w x).
Proof.
  intros Hw. unfold in_s, wrap_s. pose proof (pow_half w Hw).
  pose proof (Z.mod_pos_bound (x + 2 ^ (w - 1)) (2 ^ w)). lia.
Qed.

Lemma wrap_s_id w x : 0 < w -> in_s w x -> wrap_s w x = x.
Proof.
  intros Hw Hx. unfold in_s, wrap_s in *. pose proof (pow_half w Hw).
  rewrite Z.mod_small; lia.
Qed.

(** Two integers denote the same machine word when they agree modulo [2^w]. *)
Definition word_eq (w x y : Z) : Prop := x mod 2 ^ w = y mod 2 ^ w.

#[export] Instance word_eq_equiv w : Equivalence (word_eq w).
Proof. unfold word_eq. split; [intros x; done | intros x y H; congruence | intros x y z; congruence]. Qed.

#[export] Instance word_eq_add w : Proper (word_eq w ==> word_eq w ==> word_eq w) Z.add.
Proof. unfold word_eq. intros x x' Hx y y' Hy. by rewrite Zplus_mod, Hx, Hy, <- Zplus_mod. Qed.

#[export] Instance word_eq_sub w : Proper (word_eq w ==> word_eq w ==> word_eq w) Z.sub.
Proof. unfold word_eq. intros x x' Hx y y' Hy. by rewrite Zminus_mod, Hx, Hy, <- Zminus_mod. Qed.

#[export] Instance word_eq_mul w : Proper (word_eq w ==> word_eq w ==> word_eq w) Z.mul.
Proof. unfold word_eq. intros x x' Hx y y' Hy. by rewrite Zmult_mod, Hx, Hy, <- Zmult_mod. Qed.

Lemma wrap_u_word_eq w x : word_eq w (wrap_u w x) x.
Proof. apply Zmod_mod. Qed.

Lemma wrap_s_word_eq w x : 0 < w -> word_eq w (wrap_s w x) x.
Proof.
  intros Hw. unfold word_eq, wrap_s. rewrite Zminus_mod_idemp_l. f_equal. lia.
Qed.

#[export] Instance wrap_u_proper w : Proper (word_eq w ==> eq) (wrap_u w).
Proof. unfold word_eq, wrap_u. by intros x y H. Qed.

#[export] Instance wrap_s_proper w : Proper (word_eq w ==> eq) (wrap_s w).
Proof.
  unfold word_eq, wrap_s. intros x y H. do 1 f_equal.
  by rewrite Zplus_mod, H, <- Zplus_mod.
Qed.

Lemma wrap_s_add_l w x y : 0 < w -> wrap_s w (wrap_s w x + y) = wrap_s w (x + y).
Proof. intros. by rewrite (wrap_s_word_eq w x). Qed.

Lemma wrap_s_add_r w x y : 0 < w -> wrap_s w (x + wrap_s w y) = wrap_s w (x + y).
Proof. intros. by rewrite (wrap_s_word_eq w y). Qed.

Lemma wrap_s_mul_l w x y : 0 < w -> wrap_s w (wrap_s w x * y) = wrap_s w (x * y).
Proof. intros. by rewrite (wrap_s_word_eq w x). Qed.

Lemma wrap_s_mul_r w x y : 0 < w -> wrap_s w (x * wrap_s w y) = wrap_s w (x * y).
Proof. intros. by rewrite (wrap_s_word_eq w y). Qed.

Lemma wrap_s_wrap_s w x : 0 < w -> wrap_s w (wrap_s w x) = wrap_s w x.
Proof. intros. apply wrap_s_id; [done|]. by apply wrap_s_range. Qed.

Lemma wrap_s_wrap_u w x : 0 < w -> wrap_s w (wrap_u w x) = wrap_s w x.
Proof. intros. by rewrite (wrap_u_word_eq w x). Qed.

Lemma wrap_u_wrap_s w x : 0 < w -> wrap_u w (wrap_s w x) = wrap_u w x.
Proof. intros. by rewrite (wrap_s_word_eq w x). Qed.

Lemma wrap_u_add_l w x y : wrap_u w (wrap_u w x + y) = wrap_u w (x + y).
Proof. by rewrite (wrap_u_word_eq w x). Qed.

Lemma wrap_u_add_r w x y : wrap_u w (x + wrap_u w y) = wrap_u w (x + y).
Proof. by rewrite (wrap_u_word_eq w y). Qed.

(** [autorewrite with wraps] removes the wraps below an outer wrap. *)
Create Rewrite HintDb wraps.
#[export] Hint Rewrite wrap_s_add_l wrap_s_add_r wrap_s_mul_l wrap_s_mul_r wrap_s_wrap_s
  wrap_s_wrap_u wrap_u_wrap_s using lia : wraps.
#[export] Hint Rewrite wrap_u_add_l wrap_u_add_r : wraps.

(** ** Bit fields

    The instruction set packs operands into 64-bit registers with shifts and
    ors; [lor_shiftl_add] turns a packing of disjoint fields into a sum, and
    [land_ones_mod] and [shiftr_div] turn extraction into division. *)

Notation "x '&ᵇ' y" := (Z.land x y) (at level 39, left associativity) : Z_scope.
Notation "x '|ᵇ' y" := (Z.lor x y) (at level 41, left associativity) : Z_scope.

Lemma shiftr_div x n : 0 <= n -> x ≫ n = x / 2 ^ n.
Proof. apply Z.shiftr_div_pow2. Qed.

Lemma land_ones_mod x n : 0 <= n -> x &ᵇ (2 ^ n - 1) = x mod 2 ^ n.
Proof. intros. rewrite <- Z.land_ones by done. f_equal. rewrite Z.ones_equiv. lia. Qed.

Lemma lor_shiftl_add x y n : 0 <= n -> 0 <= y < 2 ^ n -> (x ≪ n) |ᵇ y = x * 2 ^ n + y.
Proof.
  intros Hn Hy. rewrite Z.shiftl_mul_pow2 by done.
  assert (Z.land (x * 2 ^ n) y = 0) as Hd.
  { apply Z.bits_inj'. intros i Hi. rewrite Z.land_spec, Z.bits_0.
    destruct (decide (i < n)).
    - rewrite Z.mul_pow2_bits_low by lia. done.
    - rewrite <- (Z.mod_small y (2 ^ n)), Z.mod_pow2_bits_high by lia.
      apply andb_false_r. }
  pose proof (Z.add_lor_land (x * 2 ^ n) y). lia.
Qed.

Lemma lor_add_shiftl x y n : 0 <= n -> 0 <= y < 2 ^ n -> y |ᵇ (x ≪ n) = x * 2 ^ n + y.
Proof. intros. rewrite Z.lor_comm. by apply lor_shiftl_add. Qed.

(** Masks of the source as [2^n - 1]. *)
Lemma land_mask x n m : 0 <= n -> m = 2 ^ n - 1 -> x &ᵇ m = x mod 2 ^ n.
Proof. intros ? ->. by apply land_ones_mod. Qed.

Lemma land_1 x : x &ᵇ 1 = x mod 2. Proof. by rewrite (land_mask x 1). Qed.
Lemma land_3 x : x &ᵇ 3 = x mod 4. Proof. by rewrite (land_mask x 2). Qed.
Lemma land_7 x : x &ᵇ 7 = x mod 8. Proof. by rewrite (land_mask x 3). Qed.
Lemma land_FF x : x &ᵇ 0xFF = x mod 256. Proof. by rewrite (land_mask x 8). Qed.
Lemma land_FFFF x : x &ᵇ 0xFFFF = x mod 65536. Proof. by rewrite (land_mask x 16). Qed.
Lemma land_26 x : x &ᵇ 0x3FFFFFF = x mod 2 ^ 26. Proof. by rewrite (land_mask x 26). Qed.
Lemma land_29 x : x &ᵇ 0x1FFFFFFF = x mod 2 ^ 29. Proof. by rewrite (land_mask x 29). Qed.
Lemma land_32 x : x &ᵇ 0xFFFFFFFF = x mod 2 ^ 32. Proof. by rewrite (land_mask x 32). Qed.

Create Rewrite HintDb bits.
#[export] Hint Rewrite land_1 land_3 land_7 land_FF land_FFFF land_26 land_29 land_32 : bits.
#[export] Hint Rewrite shiftr_div using lia : bits.

(** [bitfield] closes goals about fields of packed registers. *)
Ltac bitfield := autorewrite with bits in *; try zlia.

(** ** Bounded integers and ceilings *)

Definition cdiv (a b : Z) : Z := a / b + (if a mod b =? 0 then 0 else 1).

Lemma cdiv_spec a b : 0 < b -> (cdiv a b - 1) * b < a <= cdiv a b * b.
Proof. intros. unfold cdiv. case_match; zlia. Qed.

Lemma cdiv_le a b n : 0 < b -> a <= n * b -> cdiv a b <= n.
Proof. intros Hb Ha. pose proof (cdiv_spec a b Hb). nia. Qed.

Lemma cdiv_ge a b n : 0 < b -> n * b < a -> n < cdiv a b.
Proof. intros Hb Ha. pose proof (cdiv_spec a b Hb). nia. Qed.

(** C++ [b ? 1 : 0]. *)
Definition b2z (b : bool) : Z := if b then 1 else 0.

(** ** Sums over an initial segment of the naturals *)

Fixpoint sum_nat (f : Z -> Z) (n : nat) : Z :=
  match n with
  | O => 0
  | S n' => sum_nat f n' + f (Z.of_nat n')
  end.

(** [Zsum f n] is [f 0 + ... + f (n-1)]. *)
Definition Zsum (f : Z -> Z) (n : Z) : Z := sum_nat f (Z.to_nat n).

Lemma Zsum_0 f n : n <= 0 -> Zsum f n = 0.
Proof. intros. unfold Zsum. by replace (Z.to_nat n) with O by lia. Qed.

Lemma Zsum_S f n : 0 <= n -> Zsum f (n + 1) = Zsum f n + f n.
Proof.
  intros. unfold Zsum. replace (Z.to_nat (n + 1)) with (S (Z.to_nat n)) by lia.
  simpl. by rewrite Z2Nat.id by lia.
Qed.

Lemma Zsum_ext f g n : (forall i, 0 <= i < n -> f i = g i) -> Zsum f n = Zsum g n.
Proof.
  unfold Zsum. intros H. assert (forall i, 0 <= i < Z.of_nat (Z.to_nat n) -> f i = g i) as H'.
  { intros. apply H. lia. }
  clear H. induction (Z.to_nat n) as [|k IH]; [done|]. simpl.
  rewrite IH by (intros; apply H'; lia). rewrite H' by lia. done.
Qed.

Lemma Zsum_nonneg_ind (P : Z -> Prop) n :
  P 0 -> (forall i, 0 <= i < n -> P i -> P (i + 1)) -> 0 <= n -> P n.
Proof.
  intros H0 HS Hn. assert (forall k, (Z.of_nat k <= n) -> P (Z.of_nat k)) as H.
  { induction k as [|k IH]; intros; [done|].
    replace (Z.of_nat (S k)) with (Z.of_nat k + 1) by lia. apply HS; [lia|]. apply IH; lia. }
  specialize (H (Z.to_nat n)). rewrite Z2Nat.id in H by lia. apply H. lia.
Qed.

Lemma Zsum_add f g n : Zsum (fun i => f i + g i) n = Zsum f n + Zsum g n.
Proof.
  unfold Zsum. induction (Z.to_nat n) as [|k IH]; [done|]. simpl. lia.
Qed.

Lemma Zsum_app f n m : 0 <= n -> 0 <= m -> Zsum f (n + m) = Zsum f n + Zsum (fun i => f (n + i)) m.
Proof.
  intros Hn Hm. apply (Zsum_nonneg_ind (fun m => Zsum f (n + m) = Zsum f n + Zsum (fun i => f (n + i)) m));
    [| |done].
  - rewrite Z.add_0_r, (Zsum_0 _ 0) by lia. lia.
  - intros i Hi IH. rewrite Z.add_assoc, !Zsum_S by lia. lia.
Qed.

Lemma Zsum_zero f n : (forall i, 0 <= i < n -> f i = 0) -> Zsum f n = 0.
Proof.
  intros H. rewrite (Zsum_ext f (fun _ => 0)) by done.
  unfold Zsum. induction (Z.to_nat n); simpl; lia.
Qed.

(** A sum over [b] blocks of [d] elements each. *)
Lemma Zsum_blocks f b d : 0 <= b -> 0 <= d ->
  Zsum f (b * d) = Zsum (fun i => Zsum (fun k => f (i * d + k)) d) b.
Proof.
  intros Hb Hd. apply (Zsum_nonneg_ind (fun b => Zsum f (b * d) = Zsum (fun i => Zsum (fun k => f (i * d + k)) d) b));
    [done| |done].
  intros i Hi IH. rewrite Z.mul_add_distr_r, Z.mul_1_l, Zsum_app by nia.
  rewrite Zsum_S by lia. lia.
Qed.

(** ** Properties by evaluation *)

Lemma by_evaluation {A} (P : A -> Prop) (f : A -> bool) l :
  (forall a, f a = true -> P a) -> forallb f l = true -> forall a, a ∈ l -> P a.
Proof. intros HP Hf a Ha. apply HP. rewrite forallb_forall in Hf. apply Hf. by apply list_elem_of_In. Qed.

Definition defined {A} (o : option A) : bool := match o with Some _ => true | None => false end.

Lemma defined_is_Some {A} (o : option A) : defined o = true -> is_Some o.
Proof. destruct o; [by eexists|done]. Qed.
