(* ===== verification/Effects.v ===== *)
(** * Effects: the state-and-fault monad of the models

    Code of the simulator and of the driver runs against a machine state and
    may stop: a [std::vector::at] out of range, a failed [assert], [exit(1)],
    an illegal instruction, a trap of the memory system, or an operation the
    language leaves undefined.  [M S A] threads a state of type [S] and keeps
    the state reached when a fault is raised.

    The file also holds the program logic used by every later file:
    [wp] (total correctness: the run is fault-free and its result satisfies a
    postcondition) and [maintains] (an invariant holds in the final state of
    every run, faulting or not), with the rules for the loop forms. *)

From S2P Require Import Prelude.

(** ** Faults and outcomes *)

Inductive fault :=
  | OutOfRange          (** [std::out_of_range] thrown by [vector::at] *)
  | AssertFailed        (** [assert(...)] aborts *)
  | ExitFailure         (** the code prints a message and calls [exit(1)] *)
  | IllegalInstruction  (** [illegal_instruction( *p)] *)
  | EnforceFailed       (** [ORT_ENFORCE], [ORT_THROW] or [SafeInt] throws *)
  | MemTrap (addr : Z)  (** the memory system refuses an access *)
  | Undefined           (** behaviour the language does not define *)
  | LoopWraps.          (** a narrow loop counter passes its maximum *)

#[export] Instance fault_eq_dec : EqDecision fault.
Proof. solve_decision. Defined.

Inductive outcome (A : Type) :=
  | Ok (a : A)
  | Fault (f : fault).
Arguments Ok {A} a.
Arguments Fault {A} f.

Definition M (S A : Type) : Type := S -> outcome A * S.

#[export] Instance M_ret S : MRet (M S) := fun A a s => (Ok a, s).
#[export] Instance M_bind S : MBind (M S) := fun A B k m s =>
  match m s with
  | (Ok a, s') => k a s'
  | (Fault f, s') => (Fault f, s')
  end.

Definition fail {S A} (f : fault) : M S A := fun s => (Fault f, s).
Definition gets {S A} (f : S -> A) : M S A := fun s => (Ok (f s), s).
Definition modify {S} (f : S -> S) : M S unit := fun s => (Ok tt, f s).
Definition check {S} (b : bool) (f : fault) : M S unit := if b then mret tt else fail f.
(** [if (b) m] *)
Definition when {S} (b : bool) (m : M S unit) : M S unit := if b then m else mret tt.
Definition of_option {S A} (f : fault) (o : option A) : M S A :=
  match o with Some a => mret a | None => fail f end.

(** ** Loops *)

Fixpoint for_list {S X} (f : X -> M S unit) (l : list X) : M S unit :=
  match l with
  | [] => mret tt
  | x :: l' => f x ;; for_list f l'
  end.

(** [for (i = lo; i < hi; i++) f(i)] *)
Definition for_range {S} (lo hi : Z) (f : Z -> M S unit) : M S unit :=
  for_list f (seqZ lo (hi - lo)).

(** The values of [i] in [for (i = lo; i < hi; i += step)], for [0 < step]. *)
Definition steps (lo hi step : Z) : list Z :=
  (fun k => lo + k * step) <$> seqZ 0 (cdiv (hi - lo) step).

Definition for_step {S} (lo hi step : Z) (f : Z -> M S unit) : M S unit :=
  for_list f (steps lo hi step).

(** The same loop with a counter that stays below [2^w].  [LoopWraps] stands for a
    run that does not end by itself: with a step that does not advance, or a last
    increment that passes [2^w - 1] (the counter wraps below the bound again, or
    overflows).  [c_for_steps] and [c_for_stuck] below compare this closed form with
    the loop run step by step. *)
Definition for_step_u {S} (w lo hi step : Z) (f : Z -> M S unit) : M S unit :=
  if hi <=? lo then mret tt
  else if step <=? 0 then fail LoopWraps
  else for_step lo hi step f ;;
       check (lo + cdiv (hi - lo) step * step <? 2 ^ w) LoopWraps.

(** A loop that carries a local accumulator. *)
Fixpoint fold_list {S X A} (f : A -> X -> M S A) (a : A) (l : list X) : M S A :=
  match l with
  | [] => mret a
  | x :: l' => a' ← f a x; fold_list f a' l'
  end.

Definition fold_range {S A} (lo hi : Z) (f : A -> Z -> M S A) (a : A) : M S A :=
  fold_list f a (seqZ lo (hi - lo)).

(** [for (i = lo; i < hi; i++) f(i)] where [f] may run [continue]: identical
    to [for_range], the skipped body being [mret tt]. *)

(** ** Total correctness *)

Definition wp {S A} (m : M S A) (Q : A -> S -> Prop) (s : S) : Prop :=
  match m s with
  | (Ok a, s') => Q a s'
  | (Fault _, _) => False
  end.

Section wp_rules.
Context {S : Type}.
Implicit Types s : S.

Lemma wp_runs {A} (m : M S A) Q s :
  wp m Q s <-> exists a s', m s = (Ok a, s') /\ Q a s'.
Proof.
  unfold wp. destruct (m s) as [[a|f] s']; split; [eauto | | done | ].
  - by intros (? & ? & [= <- <-] & ?).
  - by intros (? & ? & ? & ?).
Qed.

Lemma wp_mono {A} (m : M S A) (Q Q' : A -> S -> Prop) s :
  wp m Q s -> (forall a s', Q a s' -> Q' a s') -> wp m Q' s.
Proof. unfold wp. destruct (m s) as [[a|f] s']; auto. Qed.

Lemma wp_ret {A} (a : A) Q s : Q a s -> wp (mret a) Q s.
Proof. done. Qed.

Lemma wp_bind {A B} (m : M S A) (k : A -> M S B) Q s :
  wp m (fun a => wp (k a) Q) s -> wp (m ≫= k) Q s.
Proof. unfold wp, mbind, M_bind. by destruct (m s) as [[a|f] s']. Qed.

Lemma wp_bind_inv {A B} (m : M S A) (k : A -> M S B) Q s :
  wp (m ≫= k) Q s -> wp m (fun a => wp (k a) Q) s.
Proof. unfold wp, mbind, M_bind. by destruct (m s) as [[a|f] s']. Qed.

Lemma wp_gets {A} (f : S -> A) Q s : Q (f s) s -> wp (gets f) Q s.
Proof. done. Qed.

Lemma wp_modify (f : S -> S) Q s : Q tt (f s) -> wp (modify f) Q s.
Proof. done. Qed.

Lemma wp_check b f Q s : b = true -> Q tt s -> wp (check b f) Q s.
Proof. by intros ->. Qed.

Lemma wp_when b m Q s :
  (b = true -> wp m Q s) -> (b = false -> Q tt s) -> wp (when b m) Q s.
Proof. destruct b; intros H1 H2; [by apply H1|by apply wp_ret, H2]. Qed.

Lemma wp_of_option {A} f (o : option A) a Q s : o = Some a -> Q a s -> wp (of_option f o) Q s.
Proof. by intros ->. Qed.

Lemma wp_for_list {X} (I : nat -> S -> Prop) (f : X -> M S unit) l Q s :
  I O s ->
  (forall k x s', l !! k = Some x -> I k s' -> wp (f x) (fun _ => I (Datatypes.S k)) s') ->
  (forall s', I (length l) s' -> Q tt s') ->
  wp (for_list f l) Q s.
Proof.
  revert I s. induction l as [|x l IH]; intros I s H0 HS HQ; simpl; [by apply wp_ret, HQ|].
  apply wp_bind. eapply wp_mono; [by apply (HS O x)|]. intros [] s' Hs'.
  apply (IH (fun k => I (Datatypes.S k))); [done| |done].
  intros k y s'' Hk Hi. by apply (HS (Datatypes.S k) y).
Qed.

Lemma wp_for_range (I : Z -> S -> Prop) lo hi (f : Z -> M S unit) Q s :
  I lo s ->
  (forall i s', lo <= i < hi -> I i s' -> wp (f i) (fun _ => I (i + 1)) s') ->
  (forall s', I (Z.max lo hi) s' -> Q tt s') ->
  wp (for_range lo hi f) Q s.
Proof.
  intros H0 HS HQ. apply (wp_for_list (fun k => I (lo + Z.of_nat k))).
  - by rewrite Z.add_0_r.
  - intros k x s' [-> Hk]%lookup_seqZ Hi.
    replace (lo + Z.of_nat (Datatypes.S k)) with (lo + Z.of_nat k + 1) by lia.
    apply HS; [lia|done].
  - intros s' Hs'. apply HQ. rewrite length_seqZ in Hs'.
    by replace (Z.max lo hi) with (lo + Z.of_nat (Z.to_nat (hi - lo))) by lia.
Qed.

Lemma wp_for_step (I : Z -> S -> Prop) lo hi step (f : Z -> M S unit) Q s :
  0 < step ->
  I 0 s ->
  (forall k s', 0 <= k -> lo + k * step < hi -> I k s' ->
     wp (f (lo + k * step)) (fun _ => I (k + 1)) s') ->
  (forall s', I (Z.max 0 (cdiv (hi - lo) step)) s' -> Q tt s') ->
  wp (for_step lo hi step f) Q s.
Proof.
  intros Hstep H0 HS HQ. unfold for_step, steps.
  apply (wp_for_list (fun k => I (Z.of_nat k))); [done| |].
  - intros k x s' (i & -> & [-> Hk]%lookup_seqZ)%list_lookup_fmap_Some Hi.
    replace (Z.of_nat (Datatypes.S k)) with (0 + Z.of_nat k + 1) by lia.
    apply HS; [lia| |done].
    pose proof (cdiv_spec (hi - lo) step Hstep). nia.
  - intros s' Hs'. apply HQ. rewrite length_fmap, length_seqZ in Hs'.
    by replace (Z.max 0 (cdiv (hi - lo) step)) with (Z.of_nat (Z.to_nat (cdiv (hi - lo) step))) by lia.
Qed.

Lemma wp_fold_list {X A} (I : nat -> A -> S -> Prop) (f : A -> X -> M S A) l a Q s :
  I O a s ->
  (forall k x a' s', l !! k = Some x -> I k a' s' -> wp (f a' x) (I (Datatypes.S k)) s') ->
  (forall a' s', I (length l) a' s' -> Q a' s') ->
  wp (fold_list f a l) Q s.
Proof.
  revert I a s. induction l as [|x l IH]; intros I a s H0 HS HQ; simpl; [by apply wp_ret, HQ|].
  apply wp_bind. eapply wp_mono; [by apply (HS O x)|]. intros a' s' Hs'.
  apply (IH (fun k => I (Datatypes.S k))); [done| |done].
  intros k y a'' s'' Hk Hi. by apply (HS (Datatypes.S k) y).
Qed.

Lemma wp_fold_range {A} (I : Z -> A -> S -> Prop) lo hi (f : A -> Z -> M S A) a Q s :
  I lo a s ->
  (forall i a' s', lo <= i < hi -> I i a' s' -> wp (f a' i) (I (i + 1)) s') ->
  (forall a' s', I (Z.max lo hi) a' s' -> Q a' s') ->
  wp (fold_range lo hi f a) Q s.
Proof.
  intros H0 HS HQ. apply (wp_fold_list (fun k => I (lo + Z.of_nat k))).
  - by rewrite Z.add_0_r.
  - intros k x a' s' [-> Hk]%lookup_seqZ Hi.
    replace (lo + Z.of_nat (Datatypes.S k)) with (lo + Z.of_nat k + 1) by lia.
    apply HS; [lia|done].
  - intros a' s' Hs'. apply HQ. rewrite length_seqZ in Hs'.
    by replace (Z.max lo hi) with (lo + Z.of_nat (Z.to_nat (hi - lo))) by lia.
Qed.
End wp_rules.

(** ** Invariants of every run *)

Definition maintains {S A} (I : S -> Prop) (m : M S A) (P : A -> Prop) : Prop :=
  forall s, I s -> I (m s).2 /\ forall a, (m s).1 = Ok a -> P a.

Section maintains_rules.
Context {S : Type} (I : S -> Prop).

Lemma maintains_ret {A} (a : A) (P : A -> Prop) : P a -> maintains I (mret a) P.
Proof. intros Ha s Hs. split; [done|]. by intros ? [= <-]. Qed.

Lemma maintains_fail {A} f (P : A -> Prop) : maintains I (fail f) P.
Proof. intros s Hs. by split. Qed.

Lemma maintains_weaken {A} (m : M S A) (P P' : A -> Prop) :
  maintains I m P -> (forall a, P a -> P' a) -> maintains I m P'.
Proof. intros Hm HP s Hs. destruct (Hm s Hs) as [? HP']. split; [done|]. auto. Qed.

Lemma maintains_bind {A B} (m : M S A) (k : A -> M S B) P Q :
  maintains I m P -> (forall a, P a -> maintains I (k a) Q) -> maintains I (m ≫= k) Q.
Proof.
  intros Hm Hk s Hs. unfold mbind, M_bind. destruct (Hm s Hs) as [Hs' HP].
  destruct (m s) as [[a|f] s']; simpl in *; [|by split].
  apply (Hk a); auto.
Qed.

Lemma maintains_gets {A} (f : S -> A) (P : A -> Prop) :
  (forall s, I s -> P (f s)) -> maintains I (gets f) P.
Proof. intros HP s Hs. split; [done|]. intros a [= <-]. auto. Qed.

Lemma maintains_modify (f : S -> S) (P : unit -> Prop) :
  P tt -> (forall s, I s -> I (f s)) -> maintains I (modify f) P.
Proof. intros HP Hf s Hs. split; [by apply Hf|]. by intros [] _. Qed.

Lemma maintains_check b f (P : unit -> Prop) : P tt -> maintains I (check b f) P.
Proof. intros. destruct b; [by apply maintains_ret|apply maintains_fail]. Qed.

Lemma maintains_when b m (P : unit -> Prop) :
  P tt -> maintains I m P -> maintains I (when b m) P.
Proof. intros. destruct b; [done|by apply maintains_ret]. Qed.

Lemma maintains_of_option {A} f (o : option A) (P : A -> Prop) :
  (forall a, o = Some a -> P a) -> maintains I (of_option f o) P.
Proof. destruct o; intros; [by apply maintains_ret; auto|apply maintains_fail]. Qed.

Lemma maintains_for_list {X} (f : X -> M S unit) l (P : unit -> Prop) :
  P tt -> (forall x, x ∈ l -> maintains I (f x) (fun _ => True)) -> maintains I (for_list f l) P.
Proof.
  intros HP. induction l as [|x l IH]; intros Hf; simpl; [by apply maintains_ret|].
  eapply maintains_bind; [apply Hf; left|]. intros [] _. apply IH. intros. apply Hf. by right.
Qed.

Lemma maintains_for_range lo hi (f : Z -> M S unit) (P : unit -> Prop) :
  P tt -> (forall i, lo <= i < hi -> maintains I (f i) (fun _ => True)) ->
  maintains I (for_range lo hi f) P.
Proof.
  intros HP Hf. apply maintains_for_list; [done|]. intros x Hx%elem_of_seqZ. apply Hf. lia.
Qed.

Lemma maintains_for_step lo hi step (f : Z -> M S unit) (P : unit -> Prop) :
  P tt -> (forall i, maintains I (f i) (fun _ => True)) ->
  maintains I (for_step lo hi step f) P.
Proof. intros HP Hf. by apply maintains_for_list. Qed.

Lemma maintains_for_step_u w lo hi step (f : Z -> M S unit) (P : unit -> Prop) :
  P tt -> (forall i, maintains I (f i) (fun _ => True)) ->
  maintains I (for_step_u w lo hi step f) P.
Proof.
  intros HP Hf. unfold for_step_u. case_match; [by apply maintains_ret|]. case_match; [apply maintains_fail|].
  eapply maintains_bind; [by apply (maintains_for_step _ _ _ _ (fun _ => True))|].
  intros [] _. by apply maintains_check.
Qed.

Lemma maintains_fold_list {X A} (f : A -> X -> M S A) a l (P : A -> Prop) :
  P a -> (forall a' x, x ∈ l -> P a' -> maintains I (f a' x) P) -> maintains I (fold_list f a l) P.
Proof.
  revert a. induction l as [|x l IH]; intros a Ha Hf; simpl; [by apply maintains_ret|].
  eapply maintains_bind; [apply Hf; [left|done]|]. intros a' Ha'. apply IH; [done|].
  intros. apply Hf; [by right|done].
Qed.

Lemma maintains_fold_range {A} lo hi (f : A -> Z -> M S A) a (P : A -> Prop) :
  P a -> (forall a' i, lo <= i < hi -> P a' -> maintains I (f a' i) P) ->
  maintains I (fold_range lo hi f a) P.
Proof.
  intros Ha Hf. apply maintains_fold_list; [done|]. intros a' x Hx%elem_of_seqZ. apply Hf. lia.
Qed.

Lemma maintains_run {A} (m : M S A) P s : maintains I m P -> I s -> I (m s).2.
Proof. intros Hm Hs. by apply Hm. Qed.
End maintains_rules.

(** ** Record update

    [r <| f := v |>] is [r] with field [f] replaced.  The setter of a field is
    derived from the eta-expansion of its record. *)

Class Eta (R : Type) := eta : R -> R.
Class SetField {R T : Type} (p : R -> T) := set_field : T -> R -> R.

Ltac derive_setter :=
  match goal with
  | |- @SetField ?R ?T ?p =>
    let v := fresh "v" in let r := fresh "r" in
    intros v r;
    let e := eval hnf in (@eta R _ r) in
    match e with
    | context C [p r] => let t := context C [v] in exact t
    end
  end.
#[export] Hint Extern 1 (SetField _) => derive_setter : typeclass_instances.

Notation "r <| f := v |>" := (set_field (p := f) v r)
  (at level 1, left associativity, f at level 99) : Z_scope.

(** A [for] loop whose body advances its own counter: [body i] returns the
    next value.  Running out of [fuel] stands for a counter that wraps. *)
Fixpoint while_counter {S} (fuel : nat) (cond : Z -> bool) (body : Z -> M S Z) (i : Z) : M S unit :=
  if cond i then
    match fuel with
    | O => fail LoopWraps
    | Datatypes.S fuel' => i' ← body i; while_counter fuel' cond body i'
    end
  else mret tt.

(** The same with a local accumulator. *)
Fixpoint while_fold {S A} (fuel : nat) (cond : Z -> bool) (body : A -> Z -> M S (A * Z)) (a : A) (i : Z)
  : M S A :=
  if cond i then
    match fuel with
    | O => fail LoopWraps
    | Datatypes.S fuel' => p ← body a i; while_fold fuel' cond body (fst p) (snd p)
    end
  else mret a.

Definition fold_step_u {S A} (w lo hi step : Z) (f : A -> Z -> M S A) (a : A) : M S A :=
  if hi <=? lo then mret a
  else if step <=? 0 then fail LoopWraps
  else r ← fold_list f a (steps lo hi step);
       check (lo + cdiv (hi - lo) step * step <? 2 ^ w) LoopWraps ;;
       mret r.

(** [for (i = lo; i < hi; i += step) f(i)] run step by step, for at most [fuel]
    iterations. *)
Definition c_for {S} (fuel : nat) (hi step : Z) (f : Z -> M S unit) (lo : Z) : M S unit :=
  while_counter fuel (fun i => i <? hi) (fun i => f i ;; mret (i + step)) lo.

Lemma cdiv_next lo hi step : 0 < step -> cdiv (hi - lo) step = cdiv (hi - (lo + step)) step + 1.
Proof. intros Hs. pose proof (cdiv_spec (hi - lo) step Hs). pose proof (cdiv_spec (hi - (lo + step)) step Hs). nia. Qed.

Lemma steps_cons lo hi step : 0 < step -> lo < hi -> steps lo hi step = lo :: steps (lo + step) hi step.
Proof.
  intros Hs Hlt. unfold steps. rewrite cdiv_next by done. set (n := cdiv (hi - (lo + step)) step).
  assert (0 <= n) by (unfold n; pose proof (cdiv_spec (hi - (lo + step)) step Hs); nia). clearbody n.
  rewrite (seqZ_cons 0) by lia. cbn [fmap list_fmap]. f_equal; [lia|]. replace (Z.pred (n + 1)) with n by lia.
  replace (Z.succ 0) with (0 + 1) by done. rewrite (Z.add_comm 0 1), <- (fmap_add_seqZ 1 0), <- list_fmap_compose.
  apply list_fmap_ext. intros i x _. simpl. lia.
Qed.

Lemma steps_nil lo hi step : 0 < step -> hi <= lo -> steps lo hi step = [].
Proof. intros Hs Hge. unfold steps. rewrite seqZ_nil; [done|]. pose proof (cdiv_spec (hi - lo) step Hs). nia. Qed.

(** A loop that advances does what its closed form does. *)
Lemma c_for_steps {S} fuel lo hi step (f : Z -> M S unit) s : 0 < step -> cdiv (hi - lo) step <= Z.of_nat fuel ->
  c_for fuel hi step f lo s = for_step lo hi step f s.
Proof.
  intros Hs. unfold c_for, for_step. revert lo s. induction fuel as [|fuel IH]; intros lo s Hf; cbn [while_counter];
    (destruct (Z.ltb_spec lo hi) as [Hlt|Hge]; [|by rewrite steps_nil]).
  - pose proof (cdiv_spec (hi - lo) step Hs). nia.
  - rewrite steps_cons by done. cbn [for_list]. unfold mbind, M_bind. destruct (f lo s) as [[[]|e] s']; [|done].
    apply IH. rewrite (cdiv_next lo) in Hf by done. lia.
Qed.

(** A loop that does not advance has not returned after any number of iterations. *)
Lemma c_for_stuck {S} fuel lo hi (f : Z -> M S unit) s : lo < hi -> (c_for fuel hi 0 f lo s).1 <> Ok tt.
Proof.
  intros Hlt. unfold c_for. revert s. induction fuel as [|fuel IH]; intros s; cbn [while_counter];
    rewrite (proj2 (Z.ltb_lt lo hi) Hlt); [done|].
  unfold mbind, M_bind. destruct (f lo s) as [[[]|e] s']; [|done]. cbn. rewrite Z.add_0_r. apply IH.
Qed.

Section counter_loops.
Context {S : Type} (I : S -> Prop).

Lemma maintains_while_counter fuel cond (body : Z -> M S Z) i (P : unit -> Prop) :
  P tt -> (forall i, maintains I (body i) (fun _ => True)) ->
  maintains I (while_counter fuel cond body i) P.
Proof.
  intros HP Hb. revert i. induction fuel as [|fuel IH]; intros i; simpl;
    (destruct (cond i); [|by apply maintains_ret]); [apply maintains_fail|].
  eapply maintains_bind; [apply Hb|]. intros i' _. apply IH.
Qed.

Lemma maintains_while_fold {A} fuel cond (body : A -> Z -> M S (A * Z)) a i (P : A -> Prop) :
  P a -> (forall a i, P a -> maintains I (body a i) (fun p => P (fst p))) ->
  maintains I (while_fold fuel cond body a i) P.
Proof.
  intros HP Hb. revert a i HP. induction fuel as [|fuel IH]; intros a i HP; simpl;
    (destruct (cond i); [|by apply maintains_ret]); [apply maintains_fail|].
  eapply maintains_bind; [by apply Hb|]. intros p Hp. by apply IH.
Qed.

Lemma maintains_fold_step_u {A} w lo hi step (f : A -> Z -> M S A) a (P : A -> Prop) :
  P a -> (forall a i, P a -> maintains I (f a i) P) ->
  maintains I (fold_step_u w lo hi step f a) P.
Proof.
  intros HP Hf. unfold fold_step_u. case_match; [by apply maintains_ret|]. case_match; [apply maintains_fail|].
  eapply maintains_bind; [by apply maintains_fold_list; auto|]. intros r Hr.
  eapply maintains_bind; [by apply (maintains_check I _ _ (fun _ => True))|].
  intros _ _. by apply maintains_ret.
Qed.
End counter_loops.
