(* ===== verification/Float32.v ===== *)
(** * Float32: IEEE binary32 and binary64 as the sources use them

    [scale_t] and [acc_scale_t] are [float]; [apply_norm] also uses [double].
    Both are the Standard Library's executable [spec_float] at the two
    precisions, rounding to nearest even (the default mode), without NaN
    payloads.  Conversions of a floating value to an integer type that cannot
    hold it are undefined in C++: they return [None]. *)

From Stdlib Require Export SpecFloat.
From S2P Require Import Prelude.

Definition float32 : Type := spec_float.
Definition float64 : Type := spec_float.

(** ** binary32 *)

Definition f32_of_Z (x : Z) : float32 := binary_normalize 24 128 x 0 false.
Definition f32_mul : float32 -> float32 -> float32 := SFmul 24 128.
Definition f32_add : float32 -> float32 -> float32 := SFadd 24 128.
Definition f32_sub : float32 -> float32 -> float32 := SFsub 24 128.
Definition f32_div : float32 -> float32 -> float32 := SFdiv 24 128.
Definition f32_opp : float32 -> float32 := SFopp.
Definition f32_ltb : float32 -> float32 -> bool := SFltb.
Definition f32_gtb (x y : float32) : bool := SFltb y x.
Definition f32_zero : float32 := S754_zero false.
Definition f32_one : float32 := f32_of_Z 1.
Definition f32_half : float32 := f32_div (f32_of_Z 1) (f32_of_Z 2).

(** ** binary64 *)

Definition f64_of_Z (x : Z) : float64 := binary_normalize 53 1024 x 0 false.
Definition f64_sqrt : float64 -> float64 := SFsqrt 53 1024.
Definition f64_div : float64 -> float64 -> float64 := SFdiv 53 1024.

(** Conversion of a [double] to [float]. *)
Definition f32_of_f64 (x : float64) : float32 :=
  match x with
  | S754_finite s m e => binary_normalize 24 128 (if s then Zneg m else Zpos m) e s
  | _ => x
  end.

(** Truncation toward zero, as a mathematical integer. *)
Definition f_trunc (x : spec_float) : option Z :=
  match x with
  | S754_zero _ => Some 0
  | S754_finite s m e =>
      let a := if 0 <=? e then Z.pos m ≪ e else Z.pos m ≫ (- e) in
      Some (if s then - a else a)
  | _ => None
  end.

(** Conversion to a signed integer type of width [w]. *)
Definition f_to_int (w : Z) (x : spec_float) : option Z :=
  t ← f_trunc x;
  if (- 2 ^ (w - 1) <=? t) && (t <? 2 ^ (w - 1)) then Some t else None.

(** ** Reinterpretation of a 32-bit pattern (the unions of the sources) *)

Definition f32_of_bits (b : Z) : float32 :=
  let s := Z.testbit b 31 in
  let e := (b ≫ 23) &ᵇ 0xFF in
  let m := b &ᵇ 0x7FFFFF in
  if e =? 0 then
    match m with Zpos p => S754_finite s p (-149) | _ => S754_zero s end
  else if e =? 255 then
    (if m =? 0 then S754_infinity s else S754_nan)
  else match m + 2 ^ 23 with Zpos p => S754_finite s p (e - 150) | _ => S754_nan end.

Definition bits_of_f32 (x : float32) : Z :=
  match x with
  | S754_zero s => b2z s ≪ 31
  | S754_infinity s => (b2z s ≪ 31) |ᵇ (255 ≪ 23)
  | S754_nan => (255 ≪ 23) |ᵇ (1 ≪ 22)
  | S754_finite s m e =>
      if Zpos m <? 2 ^ 23 then (b2z s ≪ 31) |ᵇ Zpos m
      else (b2z s ≪ 31) |ᵇ ((e + 150) ≪ 23) |ᵇ (Zpos m - 2 ^ 23)
  end.

(** ** The rounding macros of gemmini_params.h *)

(** [ROUND_NEAR_EVEN(x)] for a [float] argument; the two conversions to
    [long long] are undefined outside its range. *)
Definition ROUND_NEAR_EVEN (x : float32) : option float32 :=
  i ← f_to_int 64 x;
  next ← f_to_int 64 (if f32_ltb x f32_zero then f32_sub x f32_one else f32_add x f32_one);
  let rem := f32_sub x (f32_of_Z i) in
  let rem := if f32_ltb rem f32_zero then f32_opp rem else rem in
  Some (f32_of_Z
    (if f32_ltb rem f32_half then i
     else if f32_gtb rem f32_half then next
     else if Z.rem i 2 =? 0 then i else next)).

Definition INT8_MAX : Z := 127.
Definition INT8_MIN : Z := -128.

(** [ACC_SCALE(x, scale)] for an [int32_t] value. *)
Definition ACC_SCALE (x : Z) (scale : float32) : option Z :=
  y ← ROUND_NEAR_EVEN (f32_mul (f32_of_Z x) scale);
  if f32_gtb y (f32_of_Z INT8_MAX) then Some INT8_MAX
  else if f32_ltb y (f32_of_Z INT8_MIN) then Some INT8_MIN
  else f_to_int 32 y.

(** [MVIN_SCALE(x, scale)] for an [int8_t] value. *)
Definition MVIN_SCALE (x : Z) (scale : float32) : option Z :=
  y ← ROUND_NEAR_EVEN (f32_mul (f32_of_Z x) scale);
  if f32_gtb y (f32_of_Z INT8_MAX) then Some INT8_MAX
  else if f32_ltb y (f32_of_Z INT8_MIN) then Some INT8_MIN
  else f_to_int 8 y.

Definition MVIN_SCALE_IDENTITY : float32 := f32_one.
Definition ACC_SCALE_IDENTITY : float32 := f32_one.

#[global] Arguments f_to_int : simpl never.
#[global] Arguments f32_of_Z : simpl never.
#[global] Arguments f32_mul : simpl never.
#[global] Arguments f32_div : simpl never.
#[global] Arguments f64_of_Z : simpl never.
#[global] Arguments f64_sqrt : simpl never.
#[global] Arguments ACC_SCALE : simpl never.
#[global] Arguments MVIN_SCALE : simpl never.
