(* ===== verification/Params.v ===== *)
(** * Params: the accelerator configuration

    The constants of [gemmini_params.h] and of the head of [gemmini.h]
    (software/libgemmini).  [elem_t] is [int8_t], [acc_t] is [int32_t],
    [scale_t] and [acc_scale_t] are [float]; [HAS_MVIN_SCALE] and
    [HAS_FIRST_LAYER_OPTIMIZATIONS] are defined, [HAS_MVIN_ACC_SCALE] and
    [ELEM_T_IS_FLOAT] are not. *)

From S2P Require Import Prelude.

Definition DIM : Z := 16.
Definition ADDR_LEN : Z := 32.
Definition BANK_NUM : Z := 4.
Definition BANK_ROWS : Z := 4096.
Definition ACC_ROWS : Z := 1024.
Definition MAX_BYTES : Z := 64.
Definition MAX_BLOCK_LEN : Z := MAX_BYTES / (DIM * 1).
Definition MAX_BLOCK_LEN_ACC : Z := MAX_BYTES / (DIM * 4).

Definition sizeof_elem_t : Z := 1.
Definition sizeof_acc_t : Z := 4.
Definition elem_t_max : Z := 127.
Definition elem_t_min : Z := -128.

Definition sp_matrices : Z := (BANK_NUM * BANK_ROWS) / DIM.
Definition accum_rows : Z := ACC_ROWS.
Definition addr_len : Z := ADDR_LEN.
Definition LOAD_STATES : Z := 3.
Definition NORM_STAT_IDS : Z := 4.
Definition NUM_COUNTERS : Z := 8.
Definition NUM_EXTERNAL_COUNTERS : Z := 6.

(** The all-ones address that stands for "no operand". *)
Definition GARBAGE_ADDR : Z := 0xFFFFFFFF.

(** [ROUNDING_RIGHT_SHIFT(x, shift)] for [x] an [acc_t] and [shift] an
    [unsigned int]; the left shift of the last case is by [-shift = 0]. *)
Definition ROUNDING_RIGHT_SHIFT (x shift : Z) : Z :=
  if 0 <? shift then
    (x ≫ shift) +
    ((if shift =? 0 then 0 else (x ≫ (shift - 1)) &ᵇ 1) &ᵇ
     ((if negb ((if shift <=? 1 then 0 else x &ᵇ ((1 ≪ (shift - 1)) - 1)) =? 0) then 1 else 0)
      |ᵇ ((x ≫ shift) &ᵇ 1)))
  else x ≪ (- shift).

Ltac unfold_params :=
  unfold sp_matrices, accum_rows, addr_len, MAX_BLOCK_LEN, MAX_BLOCK_LEN_ACC, BANK_NUM, BANK_ROWS,
    ACC_ROWS, MAX_BYTES, ADDR_LEN, LOAD_STATES, NORM_STAT_IDS, NUM_COUNTERS, NUM_EXTERNAL_COUNTERS,
    sizeof_elem_t, sizeof_acc_t, elem_t_max, elem_t_min, GARBAGE_ADDR, DIM in *.
