(* ===== verification/State.v ===== *)
(** * State: the simulator's state and its memories

    [gemmini_state_t] of gemmini.h, with its fields grouped in records by the
    instruction that writes them, the two-dimensional vectors with
    bounds-checked access, the interface to Spike's memory system, and the
    machine the instructions run on. *)

From S2P Require Import Prelude Effects Float32 Params.

(** ** Two-dimensional vectors

    [std::vector<std::vector<T>>] of fixed shape: [vec_at] is [v.at(r).at(c)]
    and throws outside the shape; cells never written hold 0. *)

Record vec2 := Vec2 { v_rows : Z; v_cols : Z; v_cells : gmap (Z * Z) Z }.

Definition vec2_zeros (rows cols : Z) : vec2 := Vec2 rows cols ∅.
Definition in_shape (v : vec2) (r c : Z) : bool :=
  (0 <=? r) && (r <? v_rows v) && (0 <=? c) && (c <? v_cols v).
Definition vget (v : vec2) (r c : Z) : Z := default 0 (v_cells v !! (r, c)).
Definition vset (v : vec2) (r c x : Z) : vec2 :=
  Vec2 (v_rows v) (v_cols v) (<[(r, c) := x]> (v_cells v)).

Definition vec_at {S} (v : vec2) (r c : Z) : M S Z :=
  check (in_shape v r c) OutOfRange ;; mret (vget v r c).
Definition vec_put {S} (v : vec2) (r c x : Z) : M S vec2 :=
  check (in_shape v r c) OutOfRange ;; mret (vset v r c x).

Lemma vget_vset v r c x r' c' :
  vget (vset v r c x) r' c' = if decide (r = r' /\ c = c') then x else vget v r' c'.
Proof.
  unfold vget, vset. simpl. case_decide as H.
  - destruct H as [-> ->]. by rewrite lookup_insert_eq.
  - rewrite lookup_insert_ne; [done|]. intros [=]. auto.
Qed.

Lemma vget_vset_eq v r c x : vget (vset v r c x) r c = x.
Proof. rewrite vget_vset. by rewrite decide_True. Qed.

Lemma vget_vset_ne v r c x r' c' :
  r <> r' \/ c <> c' -> vget (vset v r c x) r' c' = vget v r' c'.
Proof. intros Hne. rewrite vget_vset, decide_False; [done|]. intros [-> ->]. by destruct Hne. Qed.

Lemma vget_zeros rows cols r c : vget (vec2_zeros rows cols) r c = 0.
Proof. unfold vget, vec2_zeros. simpl. by rewrite lookup_empty. Qed.

Lemma in_shape_spec v r c :
  in_shape v r c = true <-> 0 <= r < v_rows v /\ 0 <= c < v_cols v.
Proof. unfold in_shape. lia. Qed.

(** ** Arrays of the C struct: an index outside is undefined *)

Definition arr_get {S A} (l : list A) (i : Z) : M S A :=
  if 0 <=? i then of_option Undefined (l !! Z.to_nat i) else fail Undefined.
Definition arr_set {S A} (l : list A) (i : Z) (x : A) : M S (list A) :=
  check ((0 <=? i) && (i <? Z.of_nat (length l))) Undefined ;; mret (<[Z.to_nat i := x]> l).

(** ** Enumerations *)

Inductive Dataflow := OS | WS.
Inductive Activation := NONE | RELU | LAYERNORM | IGELU | SOFTMAX.
Inductive NormCmd := RESET | SUM | MEAN | VARIANCE | INV_STDDEV | MAX | SUM_EXP | INV_SUM_EXP.

#[export] Instance Dataflow_eq_dec : EqDecision Dataflow.
Proof. solve_decision. Defined.
#[export] Instance Activation_eq_dec : EqDecision Activation.
Proof. solve_decision. Defined.
#[export] Instance NormCmd_eq_dec : EqDecision NormCmd.
Proof. solve_decision. Defined.

Definition act_to_Z (a : Activation) : Z :=
  match a with NONE => 0 | RELU => 1 | LAYERNORM => 2 | IGELU => 3 | SOFTMAX => 4 end.
Definition act_of_Z (z : Z) : option Activation :=
  if z =? 0 then Some NONE else if z =? 1 then Some RELU else if z =? 2 then Some LAYERNORM
  else if z =? 3 then Some IGELU else if z =? 4 then Some SOFTMAX else None.

(** [static_cast<NormCmd>] of a 3-bit value. *)
Definition norm_cmd_of_Z (z : Z) : NormCmd :=
  if z =? 0 then RESET else if z =? 1 then SUM else if z =? 2 then MEAN
  else if z =? 3 then VARIANCE else if z =? 4 then INV_STDDEV else if z =? 5 then MAX
  else if z =? 6 then SUM_EXP else INV_SUM_EXP.

Lemma act_of_to a : act_of_Z (act_to_Z a) = Some a.
Proof. by destruct a. Qed.

(** ** The register groups of [gemmini_state_t] *)

(** Written by [preload]. *)
Record preload_regs := {
  output_sp_addr : Z; preload_sp_addr : Z;
  preload_cols : Z; preload_rows : Z;
  output_cols : Z; output_rows : Z }.

(** Written by [config] with [rs1[1:0] = 0]. *)
Record ex_regs := {
  mode : Dataflow; sys_act : Activation; sys_shift_reg : Z;
  sys_acc_shift : float32; c_stride : Z; a_stride : Z;
  a_transpose : bool; b_transpose : bool }.

(** Written by [config] with [rs1[1:0] = 1]: one entry per load state. *)
Record ld_regs := {
  load_strides : list Z; load_block_strides : list Z;
  load_shrunks : list bool; load_scales : list float32;
  pixels_per_rows : list Z }.

(** Written by [config] with [rs1[1:0] = 2] ([acc_act] also by config_norm). *)
Record st_regs := {
  store_stride : Z; acc_act : Activation; acc_shift : float32;
  pool_stride : Z; pool_size : Z; pool_out_dim : Z;
  pool_porows : Z; pool_pocols : Z; pool_orows : Z; pool_ocols : Z;
  pool_lpad : Z; pool_upad : Z }.

(** Written by [config] with [rs1[1:0] = 3] and by [apply_norm]. *)
Record norm_regs := {
  igelu_qb : Z; igelu_qc : Z; qln2 : Z; qln2_inv : Z;
  norm_stat_id : Z;
  norm_sum : list Z; norm_running_max : list Z; norm_max : list Z;
  norm_count : list Z; norm_mean : list Z;
  norm_inv_stddev : list float32; norm_inv_sum_exp : list float32;
  norm_reset : list bool }.

(** Written by the [loop_ws_config_*] instructions. *)
Record loop_ws_regs := {
  loop_ws_I : Z; loop_ws_J : Z; loop_ws_K : Z;
  loop_ws_pad_I : Z; loop_ws_pad_J : Z; loop_ws_pad_K : Z;
  loop_ws_A : Z; loop_ws_B : Z; loop_ws_D : Z; loop_ws_C : Z;
  loop_ws_A_stride : Z; loop_ws_B_stride : Z; loop_ws_D_stride : Z; loop_ws_C_stride : Z }.

(** Written by the [loop_conv_ws_config_*] instructions. *)
Record loop_conv_regs := {
  lc_batch_size : Z; lc_in_row_dim : Z; lc_in_col_dim : Z; lc_in_channels : Z; lc_out_channels : Z;
  lc_in_stride : Z; lc_weight_stride : Z; lc_out_stride : Z;
  lc_out_row_dim : Z; lc_pool_out_row_dim : Z; lc_out_col_dim : Z; lc_pool_out_col_dim : Z;
  lc_stride : Z; lc_padding : Z;
  lc_kernel_dim : Z; lc_pool_size : Z; lc_pool_stride : Z; lc_pool_padding : Z;
  lc_batches : Z; lc_porows : Z; lc_pocols : Z; lc_pochs : Z;
  lc_krows : Z; lc_kcols : Z; lc_kchs : Z; lc_lpad : Z;
  lc_rpad : Z; lc_upad : Z; lc_dpad : Z; lc_plpad : Z;
  lc_prad : Z; lc_pupad : Z; lc_pdpad : Z; lc_orows : Z;
  lc_ocols : Z; lc_kernel_dilation : Z;
  lc_input : Z; lc_weights : Z; lc_output : Z; lc_bias : Z;
  (** the two [static] locals of [loop_conv_ws] *)
  lc_D_sp_addr_row : Z; lc_C_sp_addr_row : Z }.

(** Performance counters. *)
Record counter_regs := {
  counter_val : list Z; counter_snapshot_val : list Z; counter_config : list Z;
  counter_external : list Z; counter_external_flag : list bool;
  snapshot_enable : bool; op_in_progress : bool }.

(** The registers of the (disabled) CISC instructions. *)
Record cisc_regs := {
  a_addr : Z; b_addr : Z; c_addr : Z; d_addr : Z;
  cisc_m : Z; cisc_n : Z; cisc_k : Z; repeating_bias : bool }.

Record gemmini_state := {
  pre : preload_regs; ex : ex_regs; ld : ld_regs; st : st_regs; nrm : norm_regs;
  lws : loop_ws_regs; lcv : loop_conv_regs; cnt : counter_regs; csc : cisc_regs;
  enable : bool; resetted : bool;
  spad : vec2; pe_state : vec2; accumulator : vec2 }.

(** Eta-expansions, from which [<| _ := _ |>] derives its setters. *)

#[export] Instance eta_preload_regs : Eta preload_regs := fun r =>
  Build_preload_regs (output_sp_addr r) (preload_sp_addr r) (preload_cols r) (preload_rows
    r) (output_cols r) (output_rows r).
#[export] Instance eta_ex_regs : Eta ex_regs := fun r =>
  Build_ex_regs (mode r) (sys_act r) (sys_shift_reg r) (sys_acc_shift r) (c_stride r)
    (a_stride r) (a_transpose r) (b_transpose r).
#[export] Instance eta_ld_regs : Eta ld_regs := fun r =>
  Build_ld_regs (load_strides r) (load_block_strides r) (load_shrunks r) (load_scales r)
    (pixels_per_rows r).
#[export] Instance eta_st_regs : Eta st_regs := fun r =>
  Build_st_regs (store_stride r) (acc_act r) (acc_shift r) (pool_stride r) (pool_size r)
    (pool_out_dim r) (pool_porows r) (pool_pocols r) (pool_orows r) (pool_ocols r)
    (pool_lpad r) (pool_upad r).
#[export] Instance eta_norm_regs : Eta norm_regs := fun r =>
  Build_norm_regs (igelu_qb r) (igelu_qc r) (qln2 r) (qln2_inv r) (norm_stat_id r) (norm_sum
    r) (norm_running_max r) (norm_max r) (norm_count r) (norm_mean r) (norm_inv_stddev r)
    (norm_inv_sum_exp r) (norm_reset r).
#[export] Instance eta_loop_ws_regs : Eta loop_ws_regs := fun r =>
  Build_loop_ws_regs (loop_ws_I r) (loop_ws_J r) (loop_ws_K r) (loop_ws_pad_I r)
    (loop_ws_pad_J r) (loop_ws_pad_K r) (loop_ws_A r) (loop_ws_B r) (loop_ws_D r) (loop_ws_C
    r) (loop_ws_A_stride r) (loop_ws_B_stride r) (loop_ws_D_stride r) (loop_ws_C_stride r).
#[export] Instance eta_loop_conv_regs : Eta loop_conv_regs := fun r =>
  Build_loop_conv_regs (lc_batch_size r) (lc_in_row_dim r) (lc_in_col_dim r) (lc_in_channels
    r) (lc_out_channels r) (lc_in_stride r) (lc_weight_stride r) (lc_out_stride r)
    (lc_out_row_dim r) (lc_pool_out_row_dim r) (lc_out_col_dim r) (lc_pool_out_col_dim r)
    (lc_stride r) (lc_padding r) (lc_kernel_dim r) (lc_pool_size r) (lc_pool_stride r)
    (lc_pool_padding r) (lc_batches r) (lc_porows r) (lc_pocols r) (lc_pochs r) (lc_krows r)
    (lc_kcols r) (lc_kchs r) (lc_lpad r) (lc_rpad r) (lc_upad r) (lc_dpad r) (lc_plpad r)
    (lc_prad r) (lc_pupad r) (lc_pdpad r) (lc_orows r) (lc_ocols r) (lc_kernel_dilation r)
    (lc_input r) (lc_weights r) (lc_output r) (lc_bias r) (lc_D_sp_addr_row r)
    (lc_C_sp_addr_row r).
#[export] Instance eta_counter_regs : Eta counter_regs := fun r =>
  Build_counter_regs (counter_val r) (counter_snapshot_val r) (counter_config r)
    (counter_external r) (counter_external_flag r) (snapshot_enable r) (op_in_progress r).
#[export] Instance eta_cisc_regs : Eta cisc_regs := fun r =>
  Build_cisc_regs (a_addr r) (b_addr r) (c_addr r) (d_addr r) (cisc_m r) (cisc_n r) (cisc_k
    r) (repeating_bias r).
#[export] Instance eta_gemmini_state : Eta gemmini_state := fun r =>
  Build_gemmini_state (pre r) (ex r) (ld r) (st r) (nrm r) (lws r) (lcv r) (cnt r) (csc r)
    (enable r) (resetted r) (spad r) (pe_state r) (accumulator r).

(** ** Spike's memory system

    [processor_t::get_mmu()->load<uint8_t>] and [->store<uint8_t>] belong to
    Spike, which is not part of this repository: they are a parameter, with
    the laws of a byte-addressed memory as a separate class.  An access that
    traps returns [None]. *)

Class Mmu (mem : Type) := {
  load_uint8 : mem -> Z -> option Z;
  store_uint8 : mem -> Z -> Z -> option mem }.

Definition writable {mem} `{Mmu mem} (m : mem) (a : Z) : Prop :=
  forall v, 0 <= v < 256 -> is_Some (store_uint8 m a v).
Definition readable {mem} `{Mmu mem} (m : mem) (a : Z) : Prop := is_Some (load_uint8 m a).

Class MmuLaws (mem : Type) `{Mmu mem} := {
  load_byte_range m a v : load_uint8 m a = Some v -> 0 <= v < 256;
  load_store_eq m a v m' :
    0 <= v < 256 -> store_uint8 m a v = Some m' -> load_uint8 m' a = Some v;
  load_store_ne m a v m' b :
    store_uint8 m a v = Some m' -> a <> b -> load_uint8 m' b = load_uint8 m b;
  store_writable m a v m' b :
    store_uint8 m a v = Some m' -> writable m b -> writable m' b }.

(** A flat memory, with which the witnesses instantiate the parameter: a
    finite map from addresses to bytes, trapping on unmapped addresses. *)
Record flat_mem := FlatMem { flat_bytes : gmap Z Z }.

#[export] Instance flat_mmu : Mmu flat_mem := {|
  load_uint8 m a := (fun v => v mod 256) <$> flat_bytes m !! a;
  store_uint8 m a v :=
    match flat_bytes m !! a with
    | Some _ => Some (FlatMem (<[a := v]> (flat_bytes m)))
    | None => None
    end |}.

Lemma flat_writable (m : flat_mem) a : writable m a <-> is_Some (flat_bytes m !! a).
Proof.
  unfold writable. simpl. split.
  - intros H. destruct (H 0 ltac:(lia)) as [m' Hm']. destruct (flat_bytes m !! a); [eauto|done].
  - intros [x Hx] v _. rewrite Hx. eauto.
Qed.

#[export] Instance flat_mmu_laws : MmuLaws flat_mem.
Proof.
  split; simpl.
  - intros m a v. destruct (flat_bytes m !! a); simpl; [intros [= <-]|done].
    apply Z.mod_pos_bound. lia.
  - intros m a v m' Hv Hs. destruct (flat_bytes m !! a); [|done]. simplify_eq. simpl.
    rewrite lookup_insert_eq. simpl. by rewrite Z.mod_small.
  - intros m a v m' b Hs Hne. destruct (flat_bytes m !! a); [|done]. simplify_eq. simpl.
    by rewrite lookup_insert_ne.
  - intros m a v m' b Hs. rewrite !flat_writable. destruct (flat_bytes m !! a) eqn:Ha; [|done].
    simplify_eq. simpl. intros [x Hx]. destruct (decide (a = b)) as [->|].
    + rewrite lookup_insert_eq. eauto.
    + rewrite lookup_insert_ne by done. eauto.
Qed.

(** [m] with [bytes] mapped from address [base] on. *)
Definition flat_fill (base : Z) (bytes : list Z) (m : flat_mem) : flat_mem :=
  FlatMem (list_to_map (zip (seqZ base (Z.of_nat (length bytes))) bytes) ∪ flat_bytes m).
Definition flat_empty : flat_mem := FlatMem ∅.

(** ** [rand()] of the C library: the sequence of its results *)

Class Rand := rand_seq : nat -> Z.

(** ** The machine *)

Record machine (mem : Type) := Machine {
  gs : gemmini_state;
  dram : mem;
  rand_pos : nat }.
Arguments Machine {mem} gs dram rand_pos.
Arguments gs {mem} m.
Arguments dram {mem} m.
Arguments rand_pos {mem} m.

#[export] Instance eta_machine mem : Eta (machine mem) := fun r => Machine (gs r) (dram r) (rand_pos r).

(** Update of the simulator state inside the machine. *)
Definition upd_gs {mem} (f : gemmini_state -> gemmini_state) : M (machine mem) unit :=
  modify (fun m => Machine (f (gs m)) (dram m) (rand_pos m)).
Definition get_gs {mem} {A} (f : gemmini_state -> A) : M (machine mem) A := gets (fun m => f (gs m)).

(** ** Reset *)

(** [gemmini_state_t::reset()]; the two [printf]s are not modelled. *)
Definition state_reset (s : gemmini_state) : gemmini_state :=
  s <| enable := true |>
    <| spad := vec2_zeros (sp_matrices * DIM) DIM |>
    <| pe_state := vec2_zeros DIM DIM |>
    <| accumulator := vec2_zeros accum_rows DIM |>
    <| csc := Build_cisc_regs 0 0 0 0 0 0 0 false |>
    <| nrm := (nrm s) <| norm_reset := replicate (Z.to_nat NORM_STAT_IDS) true |> |>
    <| cnt := (cnt s) <| snapshot_enable := false |> <| op_in_progress := false |> |>
    <| resetted := true |>.

(** [gemmini_t::reset()] *)
Definition reset {mem} : M (machine mem) unit := upd_gs state_reset.

(** A state with every register zero, for concrete runs: the members the
    constructor leaves indeterminate are set to 0. *)
Definition state_zero : gemmini_state :=
  {| pre := Build_preload_regs 0 0 0 0 0 0;
     ex := Build_ex_regs OS NONE 0 f32_zero 0 0 false false;
     ld := Build_ld_regs [0; 0; 0] [0; 0; 0] [false; false; false] [f32_one; f32_one; f32_one] [1; 1; 1];
     st := Build_st_regs 0 NONE f32_one 0 0 0 0 0 0 0 0 0;
     nrm := Build_norm_regs 0 0 0 0 0 [0;0;0;0] [0;0;0;0] [0;0;0;0] [0;0;0;0] [0;0;0;0]
              (replicate 4 f32_zero) (replicate 4 f32_zero) (replicate 4 false);
     lws := Build_loop_ws_regs 0 0 0 0 0 0 0 0 0 0 0 0 0 0;
     lcv := Build_loop_conv_regs 0 0 0 0 0 0 0 0 0 0 0 0 0 0 0 0 0 0 0 0 0 0 0 0 0 0 0 0 0 0 0 0 0 0 0 0
              0 0 0 0 0 0;
     cnt := Build_counter_regs (replicate 8 0) (replicate 8 0) (replicate 8 0) (replicate 6 0)
              (replicate 8 false) false false;
     csc := Build_cisc_regs 0 0 0 0 0 0 0 false;
     enable := false; resetted := false;
     spad := Vec2 0 0 ∅; pe_state := Vec2 0 0 ∅; accumulator := Vec2 0 0 ∅ |}.

(** ** Bounds-checked access to the three memories of the accelerator *)

Section memories.
Context {mem : Type}.

Definition spad_at (r c : Z) : M (machine mem) Z := v ← get_gs spad; vec_at v r c.
Definition spad_put (r c x : Z) : M (machine mem) unit :=
  v ← get_gs spad; v' ← vec_put v r c x; upd_gs (fun s => s <| spad := v' |>).
Definition acc_at (r c : Z) : M (machine mem) Z := v ← get_gs accumulator; vec_at v r c.
Definition acc_put (r c x : Z) : M (machine mem) unit :=
  v ← get_gs accumulator; v' ← vec_put v r c x; upd_gs (fun s => s <| accumulator := v' |>).
Definition pe_at (r c : Z) : M (machine mem) Z := v ← get_gs pe_state; vec_at v r c.
Definition pe_put (r c x : Z) : M (machine mem) unit :=
  v ← get_gs pe_state; v' ← vec_put v r c x; upd_gs (fun s => s <| pe_state := v' |>).
End memories.
