(* ===== verification/Dram.v ===== *)
(** * Dram: byte-wise access to main memory

    [gemmini_t::read_from_dram<T>] and [write_to_dram<T>] (gemmini.cc) over the
    memory interface of [State].  [T] is a signed integer of [size] bytes:
    [elem_t] for 1, [acc_t] for 4. *)

From S2P Require Import Prelude Effects Float32 Params State.

Section dram.
Context {mem : Type} `{Mmu mem}.

(** [p->get_mmu()->load<uint8_t>(addr)] *)
Definition mmu_load (addr : Z) : M (machine mem) Z := fun s =>
  match load_uint8 (dram s) (u64 addr) with
  | Some v => (Ok v, s)
  | None => (Fault (MemTrap (u64 addr)), s)
  end.

(** [p->get_mmu()->store<uint8_t>(addr, v)] *)
Definition mmu_store (addr v : Z) : M (machine mem) unit := fun s =>
  match store_uint8 (dram s) (u64 addr) v with
  | Some m' => (Ok tt, Machine (gs s) m' (rand_pos s))
  | None => (Fault (MemTrap (u64 addr)), s)
  end.

Definition read_from_dram (size addr : Z) : M (machine mem) Z :=
  fold_range 0 size (fun value byte_idx =>
    b ← mmu_load (addr + byte_idx);
    mret (wrap_s (8 * size) (value |ᵇ s32 (b ≪ (byte_idx * 8))))) 0.

Definition write_to_dram (size addr data : Z) : M (machine mem) unit :=
  for_range 0 size (fun byte_idx =>
    mmu_store (addr + byte_idx) ((data ≫ (byte_idx * 8)) &ᵇ 0xFF)).

(** ** What memory holds *)

Definition byte_at (m : mem) (addr : Z) : Z := default 0 (load_uint8 m (u64 addr)).

(** The signed little-endian integer of [size] bytes at [addr]. *)
Definition mem_int (size : Z) (m : mem) (addr : Z) : Z :=
  wrap_s (8 * size) (Zsum (fun i => byte_at m (addr + i) * 2 ^ (8 * i)) size).

Definition mem_readable (size : Z) (m : mem) (addr : Z) : Prop :=
  forall i, 0 <= i < size -> readable m (u64 (addr + i)).
Definition mem_writable (size : Z) (m : mem) (addr : Z) : Prop :=
  forall i, 0 <= i < size -> writable m (u64 (addr + i)).

(** [m'] is [m] except for bytes whose address satisfies [P]. *)
Definition mem_differ (P : Z -> Prop) (m m' : mem) : Prop :=
  (forall b, ~ P b -> load_uint8 m' b = load_uint8 m b) /\
  (forall b, readable m b -> readable m' b) /\
  (forall b, writable m b -> writable m' b).

(** The bytes of an object of [size] bytes at [addr]. *)
Definition span (size addr b : Z) : Prop := exists i, 0 <= i < size /\ b = u64 (addr + i).
End dram.

Section dram_facts.
Context {mem : Type} `{MmuLaws mem}.
Implicit Types m : mem.

Lemma mem_differ_refl P m : mem_differ P m m.
Proof. by split. Qed.

Lemma mem_differ_trans P m1 m2 m3 : mem_differ P m1 m2 -> mem_differ P m2 m3 -> mem_differ P m1 m3.
Proof.
  intros (H1 & H2 & H3) (H4 & H5 & H6). split_and!; [|auto|auto].
  intros b Hb. by rewrite H4, H1.
Qed.

Lemma mem_differ_weaken (P Q : Z -> Prop) m1 m2 :
  mem_differ P m1 m2 -> (forall b, P b -> Q b) -> mem_differ Q m1 m2.
Proof. intros (H1 & H2 & H3) HPQ. split_and!; [|done|done]. intros b Hb. apply H1. auto. Qed.

Lemma byte_at_range m a : 0 <= byte_at m a < 256.
Proof.
  unfold byte_at. destruct (load_uint8 m (u64 a)) eqn:E; simpl; [|lia].
  by eapply load_byte_range.
Qed.

Lemma byte_at_differ P m m' a : mem_differ P m m' -> ~ P (u64 a) -> byte_at m' a = byte_at m a.
Proof. intros (H1 & _ & _) HP. unfold byte_at. by rewrite H1. Qed.

Lemma mem_int_differ P size m m' a :
  mem_differ P m m' -> (forall i, 0 <= i < size -> ~ P (u64 (a + i))) ->
  mem_int size m' a = mem_int size m a.
Proof.
  intros Hd HP. unfold mem_int. f_equal. apply Zsum_ext. intros i Hi.
  rewrite (byte_at_differ _ _ _ _ Hd); auto.
Qed.

Lemma mem_readable_differ P size m m' a :
  mem_differ P m m' -> mem_readable size m a -> mem_readable size m' a.
Proof. intros (_ & H2 & _) Hr i Hi. auto. Qed.

Lemma mem_writable_differ P size m m' a :
  mem_differ P m m' -> mem_writable size m a -> mem_writable size m' a.
Proof. intros (_ & _ & H2) Hr i Hi. auto. Qed.

Lemma wp_mmu_load a Q (s : machine mem) :
  readable (dram s) (u64 a) -> Q (byte_at (dram s) a) s -> wp (mmu_load a) Q s.
Proof.
  intros [v Hv]. unfold wp, mmu_load, byte_at. by rewrite Hv.
Qed.

Lemma wp_mmu_store a v Q (s : machine mem) :
  writable (dram s) (u64 a) -> 0 <= v < 256 ->
  (forall m', mem_differ (fun b => b = u64 a) (dram s) m' -> byte_at m' a = v ->
     Q tt (Machine (gs s) m' (rand_pos s))) ->
  wp (mmu_store a v) Q s.
Proof.
  intros Hw Hv HQ. unfold wp, mmu_store. destruct (Hw v Hv) as [m' Hm']. rewrite Hm'.
  apply HQ.
  - assert (load_uint8 m' (u64 a) = Some v) as Hl by (by eapply load_store_eq).
    split_and!.
    + intros b Hb. eapply load_store_ne; [done|]. congruence.
    + intros b [x Hx]. destruct (decide (u64 a = b)) as [<-|Hne]; [by exists v|].
      exists x. by erewrite load_store_ne.
    + intros b. by eapply store_writable.
  - unfold byte_at. by erewrite load_store_eq.
Qed.

(** The loop of [read_from_dram] adds byte [k] to the value of the first [k]. *)
Lemma le_step w k x b :
  0 <= k -> 8 * k < w -> w <= 32 -> 0 <= x < 2 ^ (8 * k) -> 0 <= b < 256 ->
  wrap_s w (wrap_s w x |ᵇ s32 (b ≪ (k * 8))) = wrap_s w (x + b * 2 ^ (8 * k)).
Proof.
  intros Hk Hkw Hw Hx Hb.
  assert (2 ^ (8 * k) <= 2 ^ (w - 1)) by (apply Z.pow_le_mono_r; lia).
  rewrite (wrap_s_id w x) by (unfold in_s; lia).
  rewrite Z.shiftl_mul_pow2, (Z.mul_comm k 8) by lia.
  assert (exists c, s32 (b * 2 ^ (8 * k)) = c * 2 ^ (8 * k)) as [c Hc].
  { unfold wrap_s. set (z := b * 2 ^ (8 * k)).
    exists (b - (z + 2 ^ (32 - 1)) / 2 ^ 32 * 2 ^ (32 - 8 * k)).
    rewrite Z.mul_sub_distr_r, <- Z.mul_assoc, <- Z.pow_add_r by lia.
    replace (32 - 8 * k + 8 * k) with 32 by lia. rewrite Zmod_eq by lia. lia. }
  rewrite Hc, Z.lor_comm, <- Z.shiftl_mul_pow2, lor_shiftl_add, <- Hc by lia.
  assert (word_eq w (s32 (b * 2 ^ (8 * k))) (b * 2 ^ (8 * k))) as Hm.
  { unfold word_eq, wrap_s. assert ((2 ^ w | 2 ^ 32)) as [q Hq].
    { exists (2 ^ (32 - w)). rewrite <- Z.pow_add_r by lia. f_equal. lia. }
    set (z := b * 2 ^ (8 * k)). rewrite (Zmod_eq (z + 2 ^ (32 - 1)) (2 ^ 32)) by lia.
    replace (z + 2 ^ (32 - 1) - (z + 2 ^ (32 - 1)) / 2 ^ 32 * 2 ^ 32 - 2 ^ (32 - 1))
      with (z + (- ((z + 2 ^ (32 - 1)) / 2 ^ 32 * q)) * 2 ^ w) by (rewrite Hq; ring).
    apply Z_mod_plus_full. }
  rewrite Hm. f_equal. lia.
Qed.

Lemma le_sum_range m a k : 0 <= k ->
  0 <= Zsum (fun i => byte_at m (a + i) * 2 ^ (8 * i)) k < 2 ^ (8 * k).
Proof.
  intros Hk. apply (Zsum_nonneg_ind (fun k => 0 <= Zsum (fun i => byte_at m (a + i) * 2 ^ (8 * i)) k < 2 ^ (8 * k)));
    [rewrite Zsum_0 by lia; simpl; lia| |done].
  intros i Hi IH. rewrite Zsum_S by lia. pose proof (byte_at_range m (a + i)).
  replace (8 * (i + 1)) with (8 * i + 8) by lia. rewrite Z.pow_add_r by lia. nia.
Qed.

Lemma wp_read_from_dram size a Q (s : machine mem) :
  1 <= size <= 4 -> mem_readable size (dram s) a ->
  Q (mem_int size (dram s) a) s -> wp (read_from_dram size a) Q s.
Proof.
  intros Hsz Hr HQ. unfold read_from_dram.
  apply (wp_fold_range (fun k v s' => s' = s /\
    v = wrap_s (8 * size) (Zsum (fun i => byte_at (dram s) (a + i) * 2 ^ (8 * i)) k))).
  - split; [done|]. rewrite Zsum_0 by lia. unfold wrap_s. rewrite Z.mod_small; [lia|].
    rewrite (pow_half (8 * size)) by lia. lia.
  - intros k v s' Hk [-> ->]. apply wp_bind, wp_mmu_load; [by apply Hr|].
    apply wp_ret. split; [done|].
    rewrite le_step, Zsum_S; try lia; [apply le_sum_range; lia|apply byte_at_range].
  - intros v s' [-> ->]. by rewrite Z.max_r by lia.
Qed.

Lemma wp_write_to_dram size a v Q (s : machine mem) :
  0 <= size < 2 ^ 64 -> mem_writable size (dram s) a ->
  (forall m', mem_differ (span size a) (dram s) m' ->
     (forall i, 0 <= i < size -> byte_at m' (a + i) = (v / 2 ^ (8 * i)) mod 256) ->
     Q tt (Machine (gs s) m' (rand_pos s))) ->
  wp (write_to_dram size a v) Q s.
Proof.
  intros Hsz Hw HQ. unfold write_to_dram.
  apply (wp_for_range (fun k s' => gs s' = gs s /\ rand_pos s' = rand_pos s /\
    mem_differ (span size a) (dram s) (dram s') /\
    (forall i, 0 <= i < k -> byte_at (dram s') (a + i) = (v / 2 ^ (8 * i)) mod 256))).
  - split_and!; [done|done|apply mem_differ_refl|lia].
  - intros k s' Hk (Hg & Hp & Hd & Hb).
    rewrite land_FF, shiftr_div, (Z.mul_comm k 8) by lia.
    apply wp_mmu_store.
    + apply (mem_writable_differ _ _ _ _ _ Hd Hw). lia.
    + apply Z.mod_pos_bound. lia.
    + intros m' Hd' Hv. simpl. split_and!; [done|done| |].
      * eapply mem_differ_trans; [done|]. eapply mem_differ_weaken; [done|].
        intros b ->. exists k. split; [lia|done].
      * intros i Hi. destruct (decide (i = k)) as [->|Hne]; [done|].
        rewrite (byte_at_differ _ _ _ _ Hd'); [apply Hb; lia|].
        intros Heq. apply Hne. unfold wrap_u in Heq. zlia.
  - intros [g m' r] (Hg & Hp & Hd & Hb). simpl in *. subst. apply HQ; [done|].
    by rewrite Z.max_r in Hb by lia.
Qed.

(** Splitting a value into bytes and summing them back. *)
Lemma bytes_sum v n : 0 <= n -> Zsum (fun i => (v / 2 ^ (8 * i)) mod 256 * 2 ^ (8 * i)) n = v mod 2 ^ (8 * n).
Proof.
  intros Hn. apply (Zsum_nonneg_ind (fun n => Zsum (fun i => (v / 2 ^ (8 * i)) mod 256 * 2 ^ (8 * i)) n = v mod 2 ^ (8 * n)));
    [rewrite Zsum_0 by lia; by rewrite Z.mod_1_r| |done].
  intros i Hi IH. rewrite Zsum_S, IH by lia.
  replace (8 * (i + 1)) with (8 * i + 8) by lia. rewrite Z.pow_add_r by lia.
  rewrite Z.rem_mul_r by lia. change (2 ^ 8) with 256. lia.
Qed.

Lemma mem_int_written size m a v :
  1 <= size ->
  (forall i, 0 <= i < size -> byte_at m (a + i) = (v / 2 ^ (8 * i)) mod 256) ->
  mem_int size m a = wrap_s (8 * size) v.
Proof.
  intros Hsz Hb. unfold mem_int.
  rewrite (Zsum_ext _ (fun i => (v / 2 ^ (8 * i)) mod 256 * 2 ^ (8 * i)))
    by (intros i Hi; by rewrite Hb).
  rewrite bytes_sum by lia. change (v mod 2 ^ (8 * size)) with (wrap_u (8 * size) v).
  rewrite wrap_s_wrap_u; [done|lia].
Qed.
End dram_facts.
