(* ===== verification/Fill.v ===== *)
(** * Fill: loops that write memories cell by cell

    The instructions of the accelerator are nested loops whose body writes one
    cell of the scratchpad, the accumulator or the PE array, or one element of
    main memory.  This file turns such a loop into a fold over the list of
    index pairs ([fill]) and says what the folded memory holds. *)

From S2P Require Import Prelude Effects Float32 Params State Dram.

(** ** Index pairs and nested loops *)

Definition pairs (rows cols : Z) : list (Z * Z) :=
  concat ((fun i => (fun j => (i, j)) <$> seqZ 0 cols) <$> seqZ 0 rows).

Lemma elem_of_pairs rows cols p : p ∈ pairs rows cols <-> 0 <= fst p < rows /\ 0 <= snd p < cols.
Proof.
  unfold pairs. rewrite list_elem_of_In, in_concat. setoid_rewrite <- list_elem_of_In.
  setoid_rewrite list_elem_of_fmap. split.
  - intros (l & (i & -> & Hi%elem_of_seqZ) & (j & -> & Hj%elem_of_seqZ)%list_elem_of_fmap). simpl. lia.
  - intros [Hi Hj]. eexists. split.
    + exists (fst p). split; [done|]. apply elem_of_seqZ. lia.
    + apply list_elem_of_fmap. exists (snd p). split; [by destruct p|]. apply elem_of_seqZ. lia.
Qed.

Lemma NoDup_pairs rows cols : NoDup (pairs rows cols).
Proof.
  unfold pairs. generalize (NoDup_seqZ 0 rows). induction (seqZ 0 rows) as [|i l IH]; csimpl.
  - intros _. apply NoDup_nil_2.
  - intros [Hi Hl]%NoDup_cons. apply NoDup_app. split_and!.
    + apply NoDup_fmap_2; [by intros ? ? [=]|apply NoDup_seqZ].
    + intros x (j & -> & _)%list_elem_of_fmap Hx. apply list_elem_of_In, in_concat in Hx as (l' & Hl' & Hx).
      apply list_elem_of_In in Hl', Hx. apply list_elem_of_fmap in Hl' as (i' & -> & Hi').
      apply list_elem_of_fmap in Hx as (j' & [= <- <-] & _). done.
    + auto.
Qed.

Lemma for_list_app {S X} (f : X -> M S unit) l1 l2 s :
  for_list f (l1 ++ l2) s = (for_list f l1 ;; for_list f l2) s.
Proof.
  revert s. induction l1 as [|x l1 IH]; intros s; simpl; [done|].
  unfold mbind, M_bind. destruct (f x s) as [[[]|e] s']; [|done]. by rewrite IH.
Qed.

Lemma for_list_fmap {S X Y} (g : Y -> X) (f : X -> M S unit) l s :
  for_list f (g <$> l) s = for_list (fun y => f (g y)) l s.
Proof.
  revert s. induction l as [|x l IH]; intros s; simpl; [done|].
  unfold mbind, M_bind. destruct (f (g x) s) as [[[]|e] s']; [|done]. by rewrite IH.
Qed.

Lemma for_pairs {S} rows cols (f : Z -> Z -> M S unit) s :
  for_range 0 rows (fun i => for_range 0 cols (f i)) s = for_list (fun p => f (fst p) (snd p)) (pairs rows cols) s.
Proof.
  unfold for_range, pairs. rewrite !Z.sub_0_r. revert s.
  induction (seqZ 0 rows) as [|i l IH]; intros s; [done|]. csimpl.
  rewrite for_list_app. unfold mbind, M_bind. rewrite for_list_fmap. simpl.
  destruct (for_list (f i) (seqZ 0 cols) s) as [[[]|e] s']; [|done]. apply IH.
Qed.

Lemma wp_for_pairs {S} rows cols (f : Z -> Z -> M S unit) Q s :
  wp (for_list (fun p => f (fst p) (snd p)) (pairs rows cols)) Q s ->
  wp (for_range 0 rows (fun i => for_range 0 cols (f i))) Q s.
Proof. unfold wp. by rewrite for_pairs. Qed.

(** ** Filling a vector *)

Section fill.
Context {X : Type} (cell : X -> Z * Z) (val : X -> Z -> Z).

(** Write [val x old] to [cell x] for each [x] in turn. *)
Definition fill (l : list X) (v : vec2) : vec2 :=
  foldl (fun v x => vset v (fst (cell x)) (snd (cell x)) (val x (vget v (fst (cell x)) (snd (cell x))))) v l.

Lemma fill_rows l v : v_rows (fill l v) = v_rows v.
Proof. revert v. induction l as [|x l IH]; intros v; simpl; [done|]. by rewrite IH. Qed.

Lemma fill_cols l v : v_cols (fill l v) = v_cols v.
Proof. revert v. induction l as [|x l IH]; intros v; simpl; [done|]. by rewrite IH. Qed.

Lemma fill_app l1 l2 v : fill (l1 ++ l2) v = fill l2 (fill l1 v).
Proof. apply foldl_app. Qed.

Lemma vget_fill_out l v r c : (forall x, x ∈ l -> cell x <> (r, c)) -> vget (fill l v) r c = vget v r c.
Proof.
  revert v. induction l as [|x l IH]; intros v Hl; simpl; [done|].
  rewrite IH by (intros; apply Hl; by right). apply vget_vset_ne.
  specialize (Hl x (list_elem_of_here _ _)). destruct (cell x) as [a b]. simpl.
  destruct (decide (a = r)); [right|by left]. congruence.
Qed.

Lemma vget_fill_in l v x :
  NoDup l -> (forall y, y ∈ l -> cell y = cell x -> y = x) -> x ∈ l ->
  vget (fill l v) (fst (cell x)) (snd (cell x)) = val x (vget v (fst (cell x)) (snd (cell x))).
Proof.
  intros Hnd Hinj Hx. apply list_elem_of_split in Hx as (l1 & l2 & ->).
  apply NoDup_app in Hnd as (_ & Hd & [Hx2 _]%NoDup_cons).
  rewrite fill_app. simpl. rewrite vget_fill_out.
  - rewrite vget_vset_eq. f_equal. apply vget_fill_out. intros y Hy He.
    assert (y = x) as ->.
    { apply Hinj; [apply elem_of_app; by left|]. rewrite He. by destruct (cell x). }
    apply (Hd x Hy). left.
  - intros y Hy He. assert (y = x) as ->; [|done].
    apply Hinj; [apply elem_of_app; right; by right|]. rewrite He. by destruct (cell x).
Qed.
End fill.

Lemma fill_ext {X} (cell : X -> Z * Z) (val val' : X -> Z -> Z) l v :
  (forall x z, x ∈ l -> val x z = val' x z) -> fill cell val l v = fill cell val' l v.
Proof.
  revert v. induction l as [|x l IH]; intros v Hv; simpl; [done|].
  rewrite Hv by left. apply IH. intros. apply Hv. by right.
Qed.

(** ** The vectors of the machine *)

Record vlens := VLens {
  lens_get : gemmini_state -> vec2;
  lens_set : vec2 -> gemmini_state -> gemmini_state;
  lens_get_set v s : lens_get (lens_set v s) = v;
  lens_set_get s : lens_set (lens_get s) s = s;
  lens_set_set v v' s : lens_set v (lens_set v' s) = lens_set v s }.

Definition spad_lens : vlens.
Proof. by refine (VLens spad (fun v s => s <| spad := v |>) _ _ _); intros; destruct s. Defined.
Definition acc_lens : vlens.
Proof. by refine (VLens accumulator (fun v s => s <| accumulator := v |>) _ _ _); intros; destruct s. Defined.
Definition pe_lens : vlens.
Proof. by refine (VLens pe_state (fun v s => s <| pe_state := v |>) _ _ _); intros; destruct s. Defined.

Section lens_loops.
Context {mem : Type} (L : vlens).
Implicit Types m : machine mem.

Definition set_vec (v : vec2) (m : machine mem) : machine mem := Machine (lens_set L v (gs m)) (dram m) (rand_pos m).
Definition get_vec (m : machine mem) : vec2 := lens_get L (gs m).

Lemma set_vec_get m : set_vec (get_vec m) m = m.
Proof. unfold set_vec, get_vec. rewrite lens_set_get. by destruct m. Qed.
Lemma get_set_vec v m : get_vec (set_vec v m) = v.
Proof. apply lens_get_set. Qed.
Lemma set_set_vec v v' m : set_vec v (set_vec v' m) = set_vec v m.
Proof. unfold set_vec. simpl. by rewrite lens_set_set. Qed.

(** A loop whose body writes one cell of the vector, computing the value from
    the cell's old contents and from what the loop does not change. *)
Lemma wp_fill {X} (f : X -> M (machine mem) unit) (cell : X -> Z * Z) (val : X -> Z -> Z) l m Q :
  (forall x v, x ∈ l -> v_rows v = v_rows (get_vec m) -> v_cols v = v_cols (get_vec m) ->
     wp (f x) (fun _ m' => m' = set_vec (vset v (fst (cell x)) (snd (cell x))
       (val x (vget v (fst (cell x)) (snd (cell x))))) m) (set_vec v m)) ->
  Q tt (set_vec (fill cell val l (get_vec m)) m) ->
  wp (for_list f l) Q m.
Proof.
  intros Hf HQ.
  apply (wp_for_list (fun k m' => m' = set_vec (fill cell val (take k l) (get_vec m)) m)).
  - simpl. by rewrite set_vec_get.
  - intros k x m' Hx ->. eapply wp_mono.
    + apply Hf; [by eapply list_elem_of_lookup_2|by rewrite fill_rows|by rewrite fill_cols].
    + intros _ m' ->. by rewrite (take_S_r _ _ x Hx), fill_app.
  - intros m' ->. by rewrite firstn_all.
Qed.
End lens_loops.

(** Reading and writing through the bounds-checked accessors. *)
Section accessors.
Context {mem : Type}.
Implicit Types m : machine mem.

Lemma wp_vec_at {S} v r c Q (s : S) : in_shape v r c = true -> Q (vget v r c) s -> wp (vec_at v r c) Q s.
Proof. intros Hs HQ. unfold vec_at. apply wp_bind, wp_check; [done|]. by apply wp_ret. Qed.

Lemma wp_vec_put {S} v r c x Q (s : S) : in_shape v r c = true -> Q (vset v r c x) s -> wp (vec_put v r c x) Q s.
Proof. intros Hs HQ. unfold vec_put. apply wp_bind, wp_check; [done|]. by apply wp_ret. Qed.

Lemma wp_when_check {S} b c f Q (s : S) : (b = true -> c = true) -> Q tt s -> wp (when b (check c f)) Q s.
Proof. intros Hc HQ. destruct b; [|by apply wp_ret]. apply wp_check; auto. Qed.

Lemma wp_get_gs {A} (f : gemmini_state -> A) Q m : Q (f (gs m)) m -> wp (get_gs f) Q m.
Proof. done. Qed.

Lemma wp_upd_gs f Q m : Q tt (Machine (f (gs m)) (dram m) (rand_pos m)) -> wp (upd_gs f) Q m.
Proof. done. Qed.

Lemma wp_spad_at r c Q m : in_shape (spad (gs m)) r c = true -> Q (vget (spad (gs m)) r c) m -> wp (spad_at r c) Q m.
Proof. intros. apply wp_bind, wp_get_gs. by apply wp_vec_at. Qed.
Lemma wp_acc_at r c Q m :
  in_shape (accumulator (gs m)) r c = true -> Q (vget (accumulator (gs m)) r c) m -> wp (acc_at r c) Q m.
Proof. intros. apply wp_bind, wp_get_gs. by apply wp_vec_at. Qed.
Lemma wp_pe_at r c Q m :
  in_shape (pe_state (gs m)) r c = true -> Q (vget (pe_state (gs m)) r c) m -> wp (pe_at r c) Q m.
Proof. intros. apply wp_bind, wp_get_gs. by apply wp_vec_at. Qed.

Lemma wp_spad_put r c x Q m :
  in_shape (spad (gs m)) r c = true -> Q tt (set_vec spad_lens (vset (spad (gs m)) r c x) m) -> wp (spad_put r c x) Q m.
Proof. intros. apply wp_bind, wp_get_gs, wp_bind, wp_vec_put; [done|]. by apply wp_upd_gs. Qed.
Lemma wp_acc_put r c x Q m :
  in_shape (accumulator (gs m)) r c = true -> Q tt (set_vec acc_lens (vset (accumulator (gs m)) r c x) m) ->
  wp (acc_put r c x) Q m.
Proof. intros. apply wp_bind, wp_get_gs, wp_bind, wp_vec_put; [done|]. by apply wp_upd_gs. Qed.
Lemma wp_pe_put r c x Q m :
  in_shape (pe_state (gs m)) r c = true -> Q tt (set_vec pe_lens (vset (pe_state (gs m)) r c x) m) ->
  wp (pe_put r c x) Q m.
Proof. intros. apply wp_bind, wp_get_gs, wp_bind, wp_vec_put; [done|]. by apply wp_upd_gs. Qed.

Lemma wp_arr_get {S A} (l : list A) i x Q (s : S) : 0 <= i -> l !! Z.to_nat i = Some x -> Q x s -> wp (arr_get l i) Q s.
Proof. intros Hi Hx HQ. unfold arr_get. rewrite (proj2 (Z.leb_le 0 i) Hi), Hx. by apply wp_ret. Qed.
End accessors.

(** ** Loops that write main memory *)

Section stores.
Context {mem : Type} `{MmuLaws mem} {X : Type} (size : Z) (addr : X -> Z) (val : X -> Z).
Implicit Types m : machine mem.

(** The bytes written by the elements of [l]. *)
Definition stored (l : list X) (b : Z) : Prop := exists x, x ∈ l /\ span size (addr x) b.

(** What memory holds after [l] was stored into [d]. *)
Definition store_post (l : list X) (d d' : mem) : Prop :=
  mem_differ (stored l) d d' /\ forall x, x ∈ l -> mem_int size d' (addr x) = wrap_s (8 * size) (val x).

(** A loop whose body stores one element: [inv] is what it keeps of the rest
    of the machine. *)
Lemma wp_store (f : X -> M (machine mem) unit) (inv : gemmini_state -> nat -> Prop) l m Q :
  1 <= size < 2 ^ 64 -> NoDup l ->
  (forall x y b, x ∈ l -> y ∈ l -> span size (addr x) b -> span size (addr y) b -> x = y) ->
  (forall x, x ∈ l -> mem_writable size (dram m) (addr x)) ->
  inv (gs m) (rand_pos m) ->
  (forall x m', x ∈ l -> inv (gs m') (rand_pos m') -> mem_differ (stored l) (dram m) (dram m') ->
     mem_writable size (dram m') (addr x) ->
     wp (f x) (fun _ m'' => inv (gs m'') (rand_pos m'') /\
       mem_differ (span size (addr x)) (dram m') (dram m'') /\
       mem_int size (dram m'') (addr x) = wrap_s (8 * size) (val x)) m') ->
  (forall m', inv (gs m') (rand_pos m') -> store_post l (dram m) (dram m') -> Q tt m') ->
  wp (for_list f l) Q m.
Proof.
  intros Hsz Hnd Hdis Hw Hi Hf HQ.
  apply (wp_for_list (fun k m' => inv (gs m') (rand_pos m') /\ mem_differ (stored l) (dram m) (dram m') /\
    forall x, x ∈ take k l -> mem_int size (dram m') (addr x) = wrap_s (8 * size) (val x))).
  - split_and!; [done|apply mem_differ_refl|]. intros x Hx. simpl in Hx. inversion Hx.
  - intros k x m' Hx (Hi' & Hd & Hv). pose proof (list_elem_of_lookup_2 _ _ _ Hx) as Hxl.
    eapply wp_mono.
    + apply Hf; [done..|]. eapply mem_writable_differ; [done|]. by apply Hw.
    + intros _ m'' (Hi'' & Hd' & Hx'). split_and!; [done| |].
      * eapply mem_differ_trans; [done|]. eapply mem_differ_weaken; [done|]. intros b Hb. by exists x.
      * rewrite (take_S_r _ _ x Hx). intros y [Hy|Hy]%elem_of_app.
        -- rewrite (mem_int_differ _ _ _ _ _ Hd'); [by apply Hv|].
           intros i Hib Hs. apply list_elem_of_lookup in Hy as (j & Hj).
           apply lookup_take_Some in Hj as [Hj Hjk].
           assert (y = x) as ->.
           { apply (Hdis y x (u64 (addr y + i))); [by eapply list_elem_of_lookup_2|done| |done]. by exists i. }
           pose proof (NoDup_lookup _ _ _ _ Hnd Hj Hx). lia.
        -- apply list_elem_of_singleton in Hy as ->. done.
  - intros m' (Hi' & Hd & Hv). rewrite firstn_all in Hv. by apply HQ.
Qed.
End stores.

Section store_app.
Context {mem : Type} `{MmuLaws mem} {X : Type} (size : Z) (addr : X -> Z) (val : X -> Z).

Lemma store_post_nil (d : mem) : store_post size addr val [] d d.
Proof. split; [apply mem_differ_refl|]. intros x Hx. inversion Hx. Qed.

(** Two batches of stores to disjoint places. *)
Lemma store_post_app l1 l2 (d d1 d2 : mem) :
  (forall x y b, x ∈ l1 -> y ∈ l2 -> span size (addr x) b -> span size (addr y) b -> False) ->
  store_post size addr val l1 d d1 -> store_post size addr val l2 d1 d2 ->
  store_post size addr val (l1 ++ l2) d d2.
Proof.
  intros Hdis [Hd1 Hv1] [Hd2 Hv2]. split.
  - eapply mem_differ_trans; (eapply mem_differ_weaken; [done|]); intros b (x & Hx & Hb); exists x;
      (split; [|done]); apply elem_of_app; auto.
  - intros x [Hx|Hx]%elem_of_app; [|by apply Hv2].
    rewrite (mem_int_differ _ _ _ _ _ Hd2); [by apply Hv1|].
    intros i Hi (y & Hy & Hb). eapply Hdis; [exact Hx|exact Hy| |exact Hb]. by exists i.
Qed.

Lemma store_post_ext val' l (d d' : mem) :
  (forall x, x ∈ l -> val x = val' x) -> store_post size addr val l d d' -> store_post size addr val' l d d'.
Proof. intros Hv [Hd Hs]. split; [done|]. intros x Hx. rewrite <- Hv by done. auto. Qed.

(** Only the set of stored elements matters. *)
Lemma store_post_elems l l' (d d' : mem) :
  (forall x, x ∈ l <-> x ∈ l') -> store_post size addr val l d d' -> store_post size addr val l' d d'.
Proof.
  intros Hl [Hd Hv]. split.
  - eapply mem_differ_weaken; [exact Hd|]. intros b (x & Hx & Hb). exists x. split; [by apply Hl|done].
  - intros x Hx. by apply Hv, Hl.
Qed.
End store_app.

Lemma pairs_0 cols : pairs 0 cols = [].
Proof. done. Qed.

Lemma pairs_S rows cols : 0 <= rows ->
  pairs (rows + 1) cols = pairs rows cols ++ ((fun j => (rows, j)) <$> seqZ 0 cols).
Proof.
  intros Hr. unfold pairs. rewrite seqZ_app by lia. rewrite fmap_app, concat_app. simpl.
  by rewrite app_nil_r.
Qed.

(** Elements of a row-major block in main memory do not overlap. *)
Definition elems_disjoint (size rows cols : Z) (addr : Z * Z -> Z) : Prop :=
  forall p q b, p ∈ pairs rows cols -> q ∈ pairs rows cols ->
    span size (addr p) b -> span size (addr q) b -> p = q.

Lemma row_major_disjoint size rows cols addr stride :
  1 <= size -> cols * size <= stride -> rows * stride <= 2 ^ 64 ->
  elems_disjoint size rows cols (fun p => addr + fst p * stride + snd p * size).
Proof.
  intros Hsz Hst Htot [i j] [i' j'] b [Hi Hj]%elem_of_pairs [Hi' Hj']%elem_of_pairs (k & Hk & Hb) (k' & Hk' & Hb').
  simpl in *. rewrite Hb in Hb'. unfold wrap_u in Hb'.
  assert (forall j k, 0 <= j < cols -> 0 <= k < size -> 0 <= j * size + k < stride) as Hrow.
  { intros j0 k0 Hj0 Hk0. assert (j0 * size <= (cols - 1) * size) by (apply Z.mul_le_mono_nonneg_r; lia). nia. }
  assert (forall i j k, 0 <= i < rows -> 0 <= j < cols -> 0 <= k < size ->
    0 <= i * stride + (j * size + k) < 2 ^ 64) as Htot'.
  { intros i0 j0 k0 Hi0 Hj0 Hk0. pose proof (Hrow j0 k0 Hj0 Hk0).
    assert (i0 * stride <= (rows - 1) * stride) by (apply Z.mul_le_mono_nonneg_r; lia). nia. }
  pose proof (Htot' i j k Hi Hj Hk). pose proof (Htot' i' j' k' Hi' Hj' Hk').
  pose proof (Hrow j k Hj Hk). pose proof (Hrow j' k' Hj' Hk').
  assert (i * stride + (j * size + k) = i' * stride + (j' * size + k')) as Heq by zlia.
  assert (i = i') as -> by nia. assert (j = j') as -> by nia. done.
Qed.

Lemma store_post_fmap {mem} `{MmuLaws mem} {X Y} size (addr val : X -> Z) (g : Y -> X) l (d d' : mem) :
  store_post size (fun y => addr (g y)) (fun y => val (g y)) l d d' -> store_post size addr val (g <$> l) d d'.
Proof.
  intros [Hd Hv]. split.
  - eapply mem_differ_weaken; [done|]. intros b (y & Hy & Hb). exists (g y). split; [|done].
    by apply list_elem_of_fmap_2.
  - intros x (y & -> & Hy)%list_elem_of_fmap. by apply Hv.
Qed.

(** ** Loops over lists of chunks *)

(** A loop in a loop is a loop over the concatenation. *)
Lemma for_list_nest {S X Y} (f : X -> Y -> M S unit) (g : X -> list Y) l s :
  for_list (fun x => for_list (f x) (g x)) l s =
  for_list (fun p => f (fst p) (snd p)) (concat ((fun x => (fun y => (x, y)) <$> g x) <$> l)) s.
Proof.
  revert s. induction l as [|x l IH]; intros s; [done|]. csimpl.
  rewrite for_list_app. unfold mbind, M_bind. rewrite for_list_fmap. simpl.
  destruct (for_list (f x) (g x) s) as [[[]|e] s']; [|done]. apply IH.
Qed.

Lemma wp_for_list_nest {S X Y} (f : X -> Y -> M S unit) (g : X -> list Y) l Q s :
  wp (for_list (fun p => f (fst p) (snd p)) (concat ((fun x => (fun y => (x, y)) <$> g x) <$> l))) Q s ->
  wp (for_list (fun x => for_list (f x) (g x)) l) Q s.
Proof. unfold wp. by rewrite for_list_nest. Qed.

Lemma elem_of_concat_fmap {X Y} (g : X -> list Y) l y : y ∈ concat (g <$> l) <-> exists x, x ∈ l /\ y ∈ g x.
Proof.
  rewrite list_elem_of_In, in_concat. setoid_rewrite <- list_elem_of_In. split.
  - intros (ys & (x & -> & Hx)%list_elem_of_fmap & Hy). eauto.
  - intros (x & Hx & Hy). exists (g x). split; [|done]. by apply list_elem_of_fmap_2.
Qed.

Section chunks.
Context {mem : Type} `{MmuLaws mem} {X Y : Type} (size : Z) (addr val : X -> Z) (chunk : Y -> list X).
Implicit Types m : machine mem.

(** A loop whose body stores one chunk of elements. *)
Lemma wp_store_chunks (f : Y -> M (machine mem) unit) (inv : gemmini_state -> nat -> Prop) l m Q :
  (forall k k' y y' x x' b, l !! k = Some y -> l !! k' = Some y' -> x ∈ chunk y -> x' ∈ chunk y' ->
     span size (addr x) b -> span size (addr x') b -> k = k') ->
  (forall y x, y ∈ l -> x ∈ chunk y -> mem_writable size (dram m) (addr x)) ->
  inv (gs m) (rand_pos m) ->
  (forall y m', y ∈ l -> inv (gs m') (rand_pos m') ->
     mem_differ (stored size addr (concat (chunk <$> l))) (dram m) (dram m') ->
     (forall x, x ∈ chunk y -> mem_writable size (dram m') (addr x)) ->
     wp (f y) (fun _ m'' => inv (gs m'') (rand_pos m'') /\ store_post size addr val (chunk y) (dram m') (dram m'')) m') ->
  (forall m', inv (gs m') (rand_pos m') -> store_post size addr val (concat (chunk <$> l)) (dram m) (dram m') -> Q tt m') ->
  wp (for_list f l) Q m.
Proof.
  intros Hdis Hw Hi Hf HQ.
  apply (wp_for_list (fun k m' => inv (gs m') (rand_pos m') /\
    store_post size addr val (concat (chunk <$> take k l)) (dram m) (dram m'))).
  - split; [done|apply store_post_nil].
  - intros k y m' Hy [Hi' Hs]. pose proof (list_elem_of_lookup_2 _ _ _ Hy) as Hyl.
    assert (mem_differ (stored size addr (concat (chunk <$> l))) (dram m) (dram m')) as Hd.
    { eapply mem_differ_weaken; [apply Hs|]. intros b (x & Hx & Hb). exists x. split; [|done].
      apply elem_of_concat_fmap in Hx as (y' & Hy' & Hx). apply elem_of_concat_fmap. exists y'. split; [|done].
      eapply subseteq_take, Hy'. }
    eapply wp_mono.
    + apply Hf; [done..|]. intros x Hx. eapply mem_writable_differ; [done|]. by eapply Hw.
    + intros _ m'' [Hi'' Hs']. split; [done|]. rewrite (take_S_r _ _ y Hy), fmap_app, concat_app. simpl. rewrite app_nil_r.
      eapply store_post_app; [|done..].
      intros x x' b Hx Hx' Hb Hb'. apply elem_of_concat_fmap in Hx as (y' & Hy' & Hx).
      apply list_elem_of_lookup in Hy' as (k' & [Hk' Hlt]%lookup_take_Some).
      pose proof (Hdis _ _ _ _ _ _ _ Hk' Hy Hx Hx' Hb Hb'). lia.
  - intros m' [Hi' Hs]. rewrite firstn_all in Hs. by apply HQ.
Qed.
End chunks.

(** ** Loops that fill a local vector *)

Lemma fold_list_app {S X A} (f : A -> X -> M S A) l1 l2 a s :
  fold_list f a (l1 ++ l2) s = (a' ← fold_list f a l1; fold_list f a' l2) s.
Proof.
  revert a s. induction l1 as [|x l1 IH]; intros a s; simpl; [done|].
  unfold mbind, M_bind. destruct (f a x s) as [[a'|e] s']; [|done]. by rewrite IH.
Qed.

Lemma fold_list_fmap {S X Y A} (g : Y -> X) (f : A -> X -> M S A) l a s :
  fold_list f a (g <$> l) s = fold_list (fun a y => f a (g y)) a l s.
Proof.
  revert a s. induction l as [|x l IH]; intros a s; simpl; [done|].
  unfold mbind, M_bind. destruct (f a (g x) s) as [[a'|e] s']; [|done]. by rewrite IH.
Qed.

Lemma fold_pairs {S A} rows cols (f : A -> Z -> Z -> M S A) a s :
  fold_range 0 rows (fun a i => fold_range 0 cols (fun a j => f a i j) a) a s =
  fold_list (fun a p => f a (fst p) (snd p)) a (pairs rows cols) s.
Proof.
  unfold fold_range, pairs. rewrite !Z.sub_0_r. revert a s.
  induction (seqZ 0 rows) as [|i l IH]; intros a s; [done|]. csimpl.
  rewrite fold_list_app. unfold mbind, M_bind. rewrite fold_list_fmap. simpl.
  destruct (fold_list (fun a j => f a i j) a (seqZ 0 cols) s) as [[a'|e] s']; [|done]. apply IH.
Qed.

Lemma wp_fold_pairs {S A} rows cols (f : A -> Z -> Z -> M S A) a Q s :
  wp (fold_list (fun a p => f a (fst p) (snd p)) a (pairs rows cols)) Q s ->
  wp (fold_range 0 rows (fun a i => fold_range 0 cols (fun a j => f a i j) a) a) Q s.
Proof. unfold wp. by rewrite fold_pairs. Qed.

Lemma wp_fold_fill {S X} (f : vec2 -> X -> M S vec2) (cell : X -> Z * Z) (val : X -> Z -> Z) l v Q s :
  (forall x v', x ∈ l -> v_rows v' = v_rows v -> v_cols v' = v_cols v ->
     wp (f v' x) (fun v'' s' => v'' = vset v' (fst (cell x)) (snd (cell x))
       (val x (vget v' (fst (cell x)) (snd (cell x)))) /\ s' = s) s) ->
  Q (fill cell val l v) s -> wp (fold_list f v l) Q s.
Proof.
  intros Hf HQ. apply (wp_fold_list (fun k v' s' => v' = fill cell val (take k l) v /\ s' = s)).
  - done.
  - intros k x v' s' Hx [-> ->]. eapply wp_mono.
    + apply Hf; [by eapply list_elem_of_lookup_2|by rewrite fill_rows|by rewrite fill_cols].
    + intros v'' s' [-> ->]. by rewrite (take_S_r _ _ x Hx), fill_app.
  - intros v' s' [-> ->]. by rewrite firstn_all.
Qed.

(** ** The counters of stepped loops *)

Lemma elem_of_steps lo hi step i : 0 < step ->
  i ∈ steps lo hi step <-> exists k, 0 <= k /\ i = lo + k * step /\ i < hi.
Proof.
  intros Hs. unfold steps. rewrite list_elem_of_fmap. setoid_rewrite elem_of_seqZ.
  pose proof (cdiv_spec (hi - lo) step Hs). split; intros (k & E); exists k.
  - destruct E as (-> & Hk). split_and!; [lia|done|nia].
  - destruct E as (Hk & -> & Hlt). split; [done|]. split; [lia|]. nia.
Qed.

Lemma NoDup_steps lo hi step : 0 < step -> NoDup (steps lo hi step).
Proof. intros Hs. apply NoDup_fmap_2; [intros ? ? ?; nia|apply NoDup_seqZ]. Qed.

(** The counters of two nested stepped loops. *)
Definition grid (lo hi step lo' hi' step' : Z) : list (Z * Z) :=
  concat ((fun i => (fun j => (i, j)) <$> steps lo' hi' step') <$> steps lo hi step).

Lemma elem_of_grid lo hi step lo' hi' step' p :
  p ∈ grid lo hi step lo' hi' step' <-> fst p ∈ steps lo hi step /\ snd p ∈ steps lo' hi' step'.
Proof.
  unfold grid. rewrite elem_of_concat_fmap. split.
  - intros (i & Hi & (j & -> & Hj)%list_elem_of_fmap). done.
  - intros [Hi Hj]. exists (fst p). split; [done|]. apply list_elem_of_fmap. exists (snd p). by destruct p.
Qed.

Lemma NoDup_grid lo hi step lo' hi' step' : 0 < step -> 0 < step' -> NoDup (grid lo hi step lo' hi' step').
Proof.
  intros Hs Hs'. unfold grid. generalize (NoDup_steps lo hi step Hs).
  induction (steps lo hi step) as [|i l IH]; csimpl; [intros _; apply NoDup_nil_2|].
  intros [Hi Hl]%NoDup_cons. apply NoDup_app. split_and!.
  - apply NoDup_fmap_2; [by intros ? ? [=]|by apply NoDup_steps].
  - intros p (j & -> & _)%list_elem_of_fmap (i' & Hi' & (j' & [= <- <-] & _)%list_elem_of_fmap)%elem_of_concat_fmap. done.
  - auto.
Qed.

Lemma wp_for_grid {S} lo hi step lo' hi' step' (f : Z -> Z -> M S unit) Q s :
  wp (for_list (fun p => f (fst p) (snd p)) (grid lo hi step lo' hi' step')) Q s ->
  wp (for_step lo hi step (fun i => for_step lo' hi' step' (f i))) Q s.
Proof. unfold for_step, grid. apply wp_for_list_nest. Qed.

(** ** A matrix cut into parts

    Two nested stepped loops over an [I] by [J] matrix visit parts of at most
    [sI] by [sJ] elements; the parts partition the matrix. *)

Section parts.
Context (I J sI sJ : Z).

Definition parts : list (Z * Z) := grid 0 I sI 0 J sJ.
(** The length of a part that starts at [i] of [n]. *)
Definition part_len (n s i : Z) : Z := if i + s <=? n then s else n - i.
Definition part_elems (g : Z * Z) : list (Z * Z) :=
  (fun p => (fst g + fst p, snd g + snd p)) <$> pairs (part_len I sI (fst g)) (part_len J sJ (snd g)).

Context (HsI : 0 < sI) (HsJ : 0 < sJ).

Lemma elem_of_parts g : g ∈ parts <-> 0 <= fst g < I /\ fst g mod sI = 0 /\ 0 <= snd g < J /\ snd g mod sJ = 0.
Proof.
  unfold parts. rewrite elem_of_grid, !elem_of_steps by lia. split.
  - intros [(k & Hk & -> & Hlt) (k' & Hk' & -> & Hlt')]. rewrite !Z.add_0_l, !Z.mod_mul by lia. nia.
  - intros (? & Hi & ? & Hj). split; [exists (fst g / sI)|exists (snd g / sJ)].
    + pose proof (Z.div_mod (fst g) sI ltac:(lia)). pose proof (Z.div_pos (fst g) sI ltac:(lia) HsI). lia.
    + pose proof (Z.div_mod (snd g) sJ ltac:(lia)). pose proof (Z.div_pos (snd g) sJ ltac:(lia) HsJ). lia.
Qed.

Lemma elem_of_part_elems g e : g ∈ parts -> e ∈ part_elems g <->
  fst g <= fst e < Z.min I (fst g + sI) /\ snd g <= snd e < Z.min J (snd g + sJ).
Proof.
  intros (? & ? & ? & ?)%elem_of_parts. unfold part_elems, part_len. split.
  - intros (p & -> & [Hp1 Hp2]%elem_of_pairs)%list_elem_of_fmap. cbn [fst snd]. repeat case_match; lia.
  - intros [He1 He2]. apply list_elem_of_fmap. exists (fst e - fst g, snd e - snd g). split.
    + destruct e. cbn [fst snd]. f_equal; lia.
    + apply elem_of_pairs. cbn [fst snd]. repeat case_match; lia.
Qed.

Lemma part_elem g p : p ∈ pairs (part_len I sI (fst g)) (part_len J sJ (snd g)) -> (fst g + fst p, snd g + snd p) ∈ part_elems g.
Proof. intros Hp. apply list_elem_of_fmap. by exists p. Qed.

Lemma part_elems_in g e : g ∈ parts -> e ∈ part_elems g -> e ∈ pairs I J.
Proof.
  intros Hg He. apply elem_of_part_elems in He; [|done]. apply elem_of_parts in Hg as (? & ? & ? & ?). apply elem_of_pairs. lia.
Qed.

(** Two multiples of [s] that are less than [s] apart are equal. *)
Lemma multiple_unique s a b x : 0 < s -> a mod s = 0 -> b mod s = 0 -> a <= x < a + s -> b <= x < b + s -> a = b.
Proof.
  intros Hs Ha Hb Hx Hx'. pose proof (Z.div_mod a s ltac:(lia)). pose proof (Z.div_mod b s ltac:(lia)).
  assert (a / s = b / s) as Hq by nia. congruence.
Qed.

Lemma part_unique g g' e : g ∈ parts -> g' ∈ parts -> e ∈ part_elems g -> e ∈ part_elems g' -> g = g'.
Proof.
  intros Hg Hg' He He'. apply elem_of_part_elems in He, He'; [|done..].
  apply elem_of_parts in Hg as (? & ? & ? & ?), Hg' as (? & ? & ? & ?). destruct g, g'. cbn [fst snd] in *. f_equal.
  - eapply (multiple_unique sI _ _ (fst e)); lia.
  - eapply (multiple_unique sJ _ _ (snd e)); lia.
Qed.

Lemma part_cover e : e ∈ pairs I J -> exists g, g ∈ parts /\ e ∈ part_elems g.
Proof.
  intros [He1 He2]%elem_of_pairs.
  assert (forall a b, 0 <= a -> 0 < b -> 0 <= a / b * b <= a /\ a < a / b * b + b) as Hfl.
  { intros a b Ha Hb. pose proof (Z.div_mod a b ltac:(lia)). pose proof (Z.mod_pos_bound a b Hb).
    pose proof (Z.div_pos a b Ha Hb). nia. }
  pose proof (Hfl (fst e) sI ltac:(lia) HsI). pose proof (Hfl (snd e) sJ ltac:(lia) HsJ).
  assert ((fst e / sI * sI, snd e / sJ * sJ) ∈ parts) as Hg.
  { apply elem_of_parts. cbn [fst snd]. rewrite !Z.mod_mul by lia. lia. }
  eexists. split; [exact Hg|]. apply elem_of_part_elems; [done|]. cbn [fst snd]. lia.
Qed.

Lemma NoDup_parts : NoDup parts.
Proof. by apply NoDup_grid. Qed.

(** The part at an earlier position of the list has none of this part's elements. *)
Lemma part_earlier k g e g' : parts !! k = Some g -> g' ∈ take k parts -> e ∈ part_elems g -> e ∉ part_elems g'.
Proof.
  intros Hk (k' & [Hk' Hlt]%lookup_take_Some)%list_elem_of_lookup He He'.
  assert (g' = g) as -> by (eapply part_unique; [by eapply list_elem_of_lookup_2..|done|done]).
  pose proof (NoDup_lookup _ _ _ _ NoDup_parts Hk' Hk). lia.
Qed.

(** A loop over the parts that stores the elements of each. *)
Section part_stores.
Context {mem : Type} `{MmuLaws mem} (size : Z) (addr val : Z * Z -> Z).

Lemma wp_store_parts (f : Z * Z -> M (machine mem) unit) (inv : gemmini_state -> nat -> Prop) m Q :
  elems_disjoint size I J addr ->
  (forall e, e ∈ pairs I J -> mem_writable size (dram m) (addr e)) ->
  inv (gs m) (rand_pos m) ->
  (forall g m', g ∈ parts -> inv (gs m') (rand_pos m') ->
     mem_differ (stored size addr (pairs I J)) (dram m) (dram m') ->
     (forall e, e ∈ part_elems g -> mem_writable size (dram m') (addr e)) ->
     wp (f g) (fun _ m'' => inv (gs m'') (rand_pos m'') /\ store_post size addr val (part_elems g) (dram m') (dram m'')) m') ->
  (forall m', inv (gs m') (rand_pos m') -> store_post size addr val (pairs I J) (dram m) (dram m') -> Q tt m') ->
  wp (for_list f parts) Q m.
Proof.
  intros Hdis Hw Hi Hf HQ.
  assert (forall e, e ∈ concat (part_elems <$> parts) <-> e ∈ pairs I J) as Hall.
  { intros e. rewrite elem_of_concat_fmap. split; [|apply part_cover]. intros (g & Hg & He). by eapply part_elems_in. }
  apply (wp_store_chunks size addr val part_elems _ inv); [| |done| |].
  - intros k k' g g' e e' b Hg Hg' He He' Hb Hb'.
    pose proof (list_elem_of_lookup_2 _ _ _ Hg) as Hgl. pose proof (list_elem_of_lookup_2 _ _ _ Hg') as Hgl'.
    assert (e = e') as <- by (exact (Hdis e e' b (part_elems_in g e Hgl He) (part_elems_in g' e' Hgl' He') Hb Hb')).
    assert (g = g') as <- by (exact (part_unique g g' e Hgl Hgl' He He')).
    exact (NoDup_lookup _ _ _ _ NoDup_parts Hg Hg').
  - intros g e Hg He. by apply Hw, (part_elems_in g).
  - intros g m' Hg Hi' Hd Hwg. apply Hf; [done..| |done].
    eapply mem_differ_weaken; [exact Hd|]. intros b (e & He & Hb). exists e. by rewrite <- Hall.
  - intros m' Hi' [Hd Hv]. apply HQ; [done|]. split.
    + eapply mem_differ_weaken; [exact Hd|]. intros b (e & He & Hb). exists e. by rewrite <- Hall.
    + intros e He. apply Hv. by apply Hall.
Qed.
End part_stores.
End parts.

(** ** Equal loops *)

Lemma for_list_ext {S X} (f g : X -> M S unit) l s : (forall y s', f y s' = g y s') -> for_list f l s = for_list g l s.
Proof.
  intros He. revert s. induction l as [|y l IH]; intros s; simpl; [done|].
  unfold mbind, M_bind. rewrite He. destruct (g y s) as [[[]|e] s']; [|done]. apply IH.
Qed.

(** A counter that never reaches [2^w] does not wrap. *)
Lemma for_step_u_plain {S} w lo hi step (f g : Z -> M S unit) s : 0 < step -> lo < hi -> hi + step <= 2 ^ w ->
  (forall i s', f i s' = g i s') -> for_step_u w lo hi step f s = for_step lo hi step g s.
Proof.
  intros Hs Hlt Hw He. unfold for_step_u. rewrite (proj2 (Z.leb_gt hi lo)), (proj2 (Z.leb_gt step 0)) by lia.
  unfold mbind, M_bind, for_step. rewrite (for_list_ext f g) by done.
  destruct (for_list g (steps lo hi step) s) as [[[]|e] s']; [|done].
  unfold check. pose proof (cdiv_spec (hi - lo) step Hs). by assert ((lo + cdiv (hi - lo) step * step <? 2 ^ w) = true) as -> by lia.
Qed.
