(* ===== verification/Scaling.v ===== *)
(** * Scaling: shifts, scales and activations of gemmini.cc

    The arithmetic helpers at the end of gemmini.cc: saturation, the rounding
    shift of the systolic array, the float scales of the load and store
    pipelines, and the integer approximations of GELU and exp. *)

From S2P Require Import Prelude Effects Float32 Params State.

(** [x > elem_t_max ? elem_t_max : (x < elem_t_min ? elem_t_min : x)] *)
Definition saturate (x : Z) : Z :=
  if elem_t_max <? x then elem_t_max else if x <? elem_t_min then elem_t_min else x.

Definition apply_activation (value : Z) (act : Activation) : Z :=
  if bool_decide (act = RELU) then (if 0 <? value then value else 0) else value.

Definition apply_activation_sys (s : gemmini_state) (value : Z) : Z :=
  apply_activation value (sys_act (ex s)).
Definition apply_activation_acc (s : gemmini_state) (value : Z) : Z :=
  apply_activation value (acc_act (st s)).

Definition mvin_scale (value : Z) (scale : float32) : option Z :=
  scaled ← MVIN_SCALE value scale; Some (s8 (saturate scaled)).

Definition acc_scale (value : Z) (scale : float32) : option Z :=
  scaled ← ACC_SCALE value scale; Some (s8 (saturate scaled)).

Definition sys_shift (value shift : Z) : Z :=
  s8 (saturate (s32 (ROUNDING_RIGHT_SHIFT value shift))).

(** [abs] of the C library on [int]. *)
Definition abs_int (q : Z) : Z := s32 (Z.abs q).

Definition apply_igelu (q qb qc : Z) : Z :=
  let q_sign := if q <? 0 then -1 else 1 in
  let q_clipped := if s32 (- qb) <? abs_int q then s32 (- qb) else abs_int q in
  let q_poly := s32 (s32 (s32 (q_clipped + qb) * s32 (q_clipped + qb)) + qc) in
  let q_erf := s32 (q_sign * q_poly) in
  s32 (q * s32 (q_erf + qc)).

(** The final shift is undefined for a shift amount outside [0, 32). *)
Definition apply_iexp (q qb qc qln2 qln2_inv : Z) : option Z :=
  let z := s32 (s32 (- q) * qln2_inv) ≫ 16 in
  let qp := s32 (q + s32 (z * qln2)) in
  let q_exp := s32 (s32 (s32 (qp + qb) * s32 (qp + qb)) + qc) in
  if (0 <=? z) && (z <? 32) then Some (q_exp ≫ z) else None.

Definition non_terminating_norm_cmd (cmd : NormCmd) : NormCmd :=
  match cmd with
  | RESET => RESET
  | MEAN => SUM
  | INV_STDDEV => VARIANCE
  | INV_SUM_EXP => SUM_EXP
  | _ => cmd
  end.

#[global] Arguments apply_igelu : simpl never.
#[global] Arguments apply_iexp : simpl never.
#[global] Arguments acc_scale : simpl never.
#[global] Arguments mvin_scale : simpl never.
#[global] Arguments sys_shift : simpl never.

(** ** Ranges *)

Lemma saturate_range x : elem_t_min <= saturate x <= elem_t_max.
Proof. unfold saturate. unfold_params. repeat case_match; lia. Qed.

Lemma saturate_id x : elem_t_min <= x <= elem_t_max -> saturate x = x.
Proof. unfold saturate. unfold_params. repeat case_match; lia. Qed.

Lemma s8_saturate x : s8 (saturate x) = saturate x.
Proof. apply wrap_s_id; [lia|]. pose proof (saturate_range x). unfold_params. unfold in_s. lia. Qed.

Lemma sys_shift_range value shift : in_s 8 (sys_shift value shift).
Proof. apply wrap_s_range. lia. Qed.

Lemma acc_scale_range value scale v : acc_scale value scale = Some v -> in_s 8 v.
Proof.
  unfold acc_scale. destruct (ACC_SCALE value scale); simpl; [|done]. intros [= <-].
  by apply wrap_s_range.
Qed.

Lemma mvin_scale_range value scale v : mvin_scale value scale = Some v -> in_s 8 v.
Proof.
  unfold mvin_scale. destruct (MVIN_SCALE value scale); simpl; [|done]. intros [= <-].
  by apply wrap_s_range.
Qed.

Lemma apply_activation_range value act : in_s 8 value -> in_s 8 (apply_activation value act).
Proof. unfold apply_activation, in_s. repeat case_match; lia. Qed.

Lemma apply_igelu_range q qb qc : in_s 32 (apply_igelu q qb qc).
Proof. apply wrap_s_range. lia. Qed.

Lemma apply_iexp_range q qb qc l li v : apply_iexp q qb qc l li = Some v -> in_s 32 v.
Proof.
  unfold apply_iexp. case_match eqn:Hz; [|done]. intros [= <-].
  set (z := s32 (s32 (- q) * li) ≫ 16) in *.
  set (e := s32 (s32 _ + qc)). assert (in_s 32 e) as He by (by apply wrap_s_range).
  rewrite shiftr_div by lia. unfold in_s in *.
  assert (1 <= 2 ^ z) by (pose proof (Z.pow_pos_nonneg 2 z); lia).
  split; [|zlia]. apply Z.div_le_lower_bound; nia.
Qed.

(** ** The rounding shift *)

Lemma bit_and_or (r a b : Z) : (r = 0 \/ r = 1) -> (a = 0 \/ a = 1) -> (b = 0 \/ b = 1) ->
  r &ᵇ (a |ᵇ b) = if (r =? 1) && ((a =? 1) || (b =? 1)) then 1 else 0.
Proof. intros [->| ->] [->| ->] [->| ->]; reflexivity. Qed.

Lemma rounding_right_shift_pos x s : 0 < s ->
  ROUNDING_RIGHT_SHIFT x s =
    x / 2 ^ s + (if ((x / 2 ^ (s - 1)) mod 2 =? 1) &&
                    (negb (x mod 2 ^ (s - 1) =? 0) || ((x / 2 ^ s) mod 2 =? 1)) then 1 else 0).
Proof.
  intros Hs. unfold ROUNDING_RIGHT_SHIFT. rewrite (proj2 (Z.ltb_lt 0 s)) by done.
  rewrite (proj2 (Z.eqb_neq s 0)) by lia.
  assert ((if s <=? 1 then 0 else x &ᵇ ((1 ≪ (s - 1)) - 1)) = x mod 2 ^ (s - 1)) as ->.
  { case_match.
    - replace s with 1 by lia. by rewrite Z.mod_1_r.
    - rewrite Z.shiftl_1_l. apply land_ones_mod. lia. }
  rewrite !shiftr_div, !land_1 by lia.
  rewrite bit_and_or; [| zlia | case_match; lia | zlia].
  f_equal. destruct ((x / 2 ^ (s - 1)) mod 2 =? 1), (x mod 2 ^ (s - 1) =? 0); reflexivity.
Qed.

(** Rounding half to even of [(2p + b) h + r] by [2h]. *)
Lemma round_half_even_core p b r h :
  0 < h -> 0 <= r < h -> 0 <= b < 2 ->
  let y := p + (if (b =? 1) && (negb (r =? 0) || (p mod 2 =? 1)) then 1 else 0) in
  let d := h * (2 * p + b) + r - y * (2 * h) in
  2 * Z.abs d <= 2 * h /\ (2 * Z.abs d = 2 * h -> Z.even y = true).
Proof.
  intros Hh Hr Hb y d. subst y d. rewrite Z.even_add.
  assert (p mod 2 = if Z.even p then 0 else 1) as ->.
  { rewrite Zmod_even. by destruct (Z.even p). }
  destruct (Z.even p), (Z.eqb_spec b 1), (Z.eqb_spec r 0); simpl;
    split; nia || (intros; exfalso; nia) || done.
Qed.

(** [ROUNDING_RIGHT_SHIFT] is division by [2^s] rounded to nearest, ties to even. *)
Lemma rounding_right_shift_nearest x s : 0 <= s ->
  let y := ROUNDING_RIGHT_SHIFT x s in
  2 * Z.abs (x - y * 2 ^ s) <= 2 ^ s /\ (2 * Z.abs (x - y * 2 ^ s) = 2 ^ s -> Z.even y = true).
Proof.
  intros Hs. destruct (decide (s = 0)) as [->|Hne].
  { unfold ROUNDING_RIGHT_SHIFT. simpl. rewrite Z.mul_1_r, Z.sub_diag. simpl. lia. }
  cbv zeta. rewrite rounding_right_shift_pos by lia.
  rewrite (pow_half s) by lia. set (h := 2 ^ (s - 1)).
  assert (0 < h) by (apply Z.pow_pos_nonneg; lia).
  assert (x / (2 * h) = x / h / 2) as -> by (rewrite Z.div_div by lia; f_equal; lia).
  pose proof (round_half_even_core (x / h / 2) ((x / h) mod 2) (x mod h) h) as Hcore.
  cbv zeta in Hcore.
  rewrite <- (Z.div_mod (x / h) 2), <- (Z.div_mod x h) in Hcore by lia.
  apply Hcore; [done|apply Z.mod_pos_bound; lia|apply Z.mod_pos_bound; lia].
Qed.

(** ** The integer GELU *)

(** Beyond the clipping point the polynomial is exactly the constant term:
    the approximation is [2*q*qc] on the right and [0] on the left. *)
Lemma igelu_saturates_right q qb qc :
  in_s 32 q -> in_s 32 qb -> in_s 32 qc -> - 2 ^ 31 < qb <= 0 -> - qb <= q ->
  apply_igelu q qb qc = s32 (q * (2 * qc)).
Proof.
  intros Hq Hqb Hqc Hb Hle. unfold apply_igelu, abs_int.
  unfold in_s in *. rewrite (proj2 (Z.ltb_ge q 0)) by lia. cbv zeta.
  rewrite (wrap_s_id 32 (- qb)), Z.abs_eq, (wrap_s_id 32 q) by (unfold in_s; lia).
  assert ((if - qb <? q then - qb else q) = - qb) as -> by (case_match; lia).
  replace (- qb + qb) with 0 by lia. simpl (s32 0 * s32 0).
  rewrite Z.mul_1_l. autorewrite with wraps. change (0 * 0 + qc) with qc.
  rewrite (wrap_s_id 32 qc) by done. f_equal. lia.
Qed.

Lemma igelu_saturates_left q qb qc :
  in_s 32 q -> in_s 32 qb -> in_s 32 qc -> - 2 ^ 31 < qb < 0 -> - 2 ^ 31 < q <= qb ->
  apply_igelu q qb qc = 0.
Proof.
  intros Hq Hqb Hqc Hb Hle. unfold apply_igelu, abs_int.
  unfold in_s in *. rewrite (proj2 (Z.ltb_lt q 0)) by lia. cbv zeta.
  rewrite (wrap_s_id 32 (- qb)), Z.abs_neq, (wrap_s_id 32 (- q)) by (unfold in_s; lia).
  assert ((if - qb <? - q then - qb else - q) = - qb) as -> by (case_match; lia).
  replace (- qb + qb) with 0 by lia. simpl (s32 0 * s32 0). change (s32 0) with 0.
  rewrite Z.add_0_l. 
  assert (s32 (s32 (-1 * s32 qc) + qc) = 0) as ->.
  { autorewrite with wraps. by replace (-1 * qc + qc) with 0 by lia. }
  by rewrite Z.mul_0_r.
Qed.

(** ** Scaling by one *)

Lemma mvin_scale_identity x : in_s 8 x -> mvin_scale x MVIN_SCALE_IDENTITY = Some x.
Proof.
  intros Hx.
  assert (forallb (fun x => bool_decide (mvin_scale x MVIN_SCALE_IDENTITY = Some x)) (seqZ (-128) 256) = true)
    as Hall by (vm_compute; reflexivity).
  rewrite forallb_forall in Hall. specialize (Hall x).
  apply bool_decide_eq_true in Hall; [done|].
  apply list_elem_of_In, elem_of_seqZ. unfold in_s in Hx. simpl in Hx. lia.
Qed.
