(* ===== verification/Norm.v ===== *)
(** * Norm: normalisation statistics

    [gemmini_t::apply_norm] and [apply_pre_activation_acc] of gemmini.cc.  The
    statistics live in arrays indexed by [norm_stat_id]; [norm_stat] is the
    row of references that [apply_norm] takes from them, and [norm_update] the
    body of [apply_norm] on that row. *)

From S2P Require Import Prelude Effects Float32 Params State Scaling.

Record norm_stat := {
  ns_sum : Z; ns_running_max : Z; ns_max : Z; ns_count : Z; ns_mean : Z;
  ns_inv_stddev : float32; ns_inv_sum_exp : float32; ns_reset : bool }.

#[export] Instance eta_norm_stat : Eta norm_stat := fun r =>
  Build_norm_stat (ns_sum r) (ns_running_max r) (ns_max r) (ns_count r) (ns_mean r)
    (ns_inv_stddev r) (ns_inv_sum_exp r) (ns_reset r).

Definition INT32_MIN : Z := -2147483648.

(** C++ integer division, undefined for a zero divisor. *)
Definition int_div (a b : Z) : option Z := if b =? 0 then None else Some (s32 (Z.quot a b)).

(** The loops over [x[0..len)]. *)
Definition norm_sum_loop (x : list Z) (sum : Z) : Z :=
  foldl (fun sum xi => s32 (sum + xi)) sum x.
Definition norm_var_loop (mean : Z) (x : list Z) (sum : Z) : Z :=
  foldl (fun sum xi => s32 (sum + s32 (s32 (xi - mean) * s32 (xi - mean)))) sum x.
Definition norm_max_loop (x : list Z) (m : Z) : Z :=
  foldl (fun m xi => if m <? xi then xi else m) m x.
Fixpoint norm_exp_loop (n : norm_regs) (mx : Z) (x : list Z) (sum : Z) : option Z :=
  match x with
  | [] => Some sum
  | xi :: x' =>
      e ← apply_iexp (s32 (xi - mx)) (igelu_qb n) (igelu_qc n) (qln2 n) (qln2_inv n);
      norm_exp_loop n mx x' (s32 (sum + e))
  end.

(** The statements of [apply_norm] after the references are taken. *)
Definition norm_clear (r : norm_stat) : norm_stat :=
  if ns_reset r then r <| ns_sum := 0 |> <| ns_count := 0 |> <| ns_running_max := INT32_MIN |> else r.

Definition norm_accumulate (n : norm_regs) (x : list Z) (cmd : NormCmd) (r : norm_stat) : option norm_stat :=
  let len := Z.of_nat (length x) in
  match cmd with
  | SUM | MEAN =>
      Some (r <| ns_sum := norm_sum_loop x (ns_sum r) |> <| ns_count := s32 (ns_count r + len) |>)
  | VARIANCE | INV_STDDEV =>
      Some (r <| ns_sum := norm_var_loop (ns_mean r) x (ns_sum r) |> <| ns_count := s32 (ns_count r + len) |>)
  | MAX => Some (r <| ns_running_max := norm_max_loop x (ns_running_max r) |>)
  | SUM_EXP | INV_SUM_EXP =>
      sum ← norm_exp_loop n (ns_running_max r) x (ns_sum r);
      Some (r <| ns_max := ns_running_max r |> <| ns_sum := sum |>)
  | RESET => Some r
  end.

Definition norm_finish (cmd : NormCmd) (r : norm_stat) : option norm_stat :=
  match cmd with
  | MEAN => mean ← int_div (ns_sum r) (ns_count r); Some (r <| ns_mean := mean |>)
  | INV_STDDEV =>
      variance ← int_div (ns_sum r) (ns_count r);
      sd ← f_to_int 32 (f64_sqrt (f64_of_Z variance));
      let norm_stddev := if variance =? 0 then 1 else sd in
      Some (r <| ns_inv_stddev := f32_div f32_one (f32_of_Z norm_stddev) |>)
  | INV_SUM_EXP =>
      Some (r <| ns_running_max := INT32_MIN |>
              <| ns_inv_sum_exp := f32_div (f32_of_Z 127) (f32_of_Z (ns_sum r)) |>)
  | _ => Some r
  end.

Definition norm_ends (cmd : NormCmd) : bool :=
  bool_decide (cmd = RESET) || bool_decide (cmd = MEAN) || bool_decide (cmd = INV_STDDEV).

Definition norm_update (n : norm_regs) (x : list Z) (cmd : NormCmd) (r : norm_stat) : option norm_stat :=
  let r := norm_clear r in
  let r := r <| ns_reset := norm_ends cmd |> in
  r ← norm_accumulate n x cmd r;
  norm_finish cmd r.

(** The row of the statistics arrays at [norm_stat_id]. *)
Definition get_stat (n : norm_regs) : option norm_stat :=
  let i := Z.to_nat (norm_stat_id n) in
  a ← norm_sum n !! i; b ← norm_running_max n !! i; c ← norm_max n !! i; d ← norm_count n !! i;
  e ← norm_mean n !! i; f ← norm_inv_stddev n !! i; g ← norm_inv_sum_exp n !! i; h ← norm_reset n !! i;
  Some (Build_norm_stat a b c d e f g h).

Definition set_stat (n : norm_regs) (r : norm_stat) : norm_regs :=
  let i := Z.to_nat (norm_stat_id n) in
  {| igelu_qb := igelu_qb n; igelu_qc := igelu_qc n; qln2 := qln2 n; qln2_inv := qln2_inv n;
     norm_stat_id := norm_stat_id n;
     norm_sum := <[i := ns_sum r]> (norm_sum n);
     norm_running_max := <[i := ns_running_max r]> (norm_running_max n);
     norm_max := <[i := ns_max r]> (norm_max n);
     norm_count := <[i := ns_count r]> (norm_count n);
     norm_mean := <[i := ns_mean r]> (norm_mean n);
     norm_inv_stddev := <[i := ns_inv_stddev r]> (norm_inv_stddev n);
     norm_inv_sum_exp := <[i := ns_inv_sum_exp r]> (norm_inv_sum_exp n);
     norm_reset := <[i := ns_reset r]> (norm_reset n) |}.

Section norm.
Context {mem : Type}.

(** [gemmini_t::apply_norm]: whether the row is written to main memory. *)
Definition apply_norm (x : list Z) (cmd : NormCmd) : M (machine mem) bool :=
  n ← get_gs nrm;
  r ← of_option Undefined (get_stat n);
  r' ← of_option Undefined (norm_update n x cmd r);
  upd_gs (fun s => s <| nrm := set_stat n r' |>) ;;
  mret (bool_decide (cmd = RESET)).

(** [gemmini_t::apply_pre_activation_acc] *)
Definition apply_pre_activation_acc (value : Z) : M (machine mem) Z :=
  s ← get_gs id;
  let n := nrm s in
  match acc_act (st s) with
  | IGELU => mret (apply_igelu value (igelu_qb n) (igelu_qc n))
  | LAYERNORM =>
      r ← of_option Undefined (get_stat n);
      of_option Undefined
        (f_to_int 32 (f32_mul (f32_of_Z (s32 (value - ns_mean r))) (ns_inv_stddev r)))
  | SOFTMAX =>
      r ← of_option Undefined (get_stat n);
      e ← of_option Undefined
        (apply_iexp (s32 (value - ns_max r)) (igelu_qb n) (igelu_qc n) (qln2 n) (qln2_inv n));
      of_option Undefined (acc_scale e (ns_inv_sum_exp r))
  | _ => mret value
  end.
End norm.
