(* ===== verification/NormSpec.v ===== *)
(** * NormSpec: what the arithmetic of the store pipeline computes

    The rounding shift of the array, the integer GELU and exp, and the statistics
    of layer normalisation and softmax, which [mvout] and [loop_ws] accumulate
    block by block: the blocks into which a row is cut do not matter. *)

From S2P Require Import Prelude Effects Float32 Params State Scaling Norm.

(** ** Passes over a row *)


Definition list_sum (l : list Z) : Z := foldr Z.add 0 l.

Lemma list_sum_app l1 l2 : list_sum (l1 ++ l2) = list_sum l1 + list_sum l2.
Proof. unfold list_sum. induction l1; simpl; lia. Qed.

Lemma norm_sum_loop_sum x sum : norm_sum_loop x (s32 sum) = s32 (sum + list_sum x).
Proof.
  unfold norm_sum_loop. revert sum. induction x as [|xi x IH]; intros sum; simpl.
  - f_equal. lia.
  - rewrite wrap_s_add_l, IH by lia. f_equal. lia.
Qed.

Lemma norm_var_loop_sum mean x sum :
  norm_var_loop mean x (s32 sum) = s32 (sum + list_sum ((fun xi => (xi - mean) * (xi - mean)) <$> x)).
Proof.
  unfold norm_var_loop. revert sum. induction x as [|xi x IH]; intros sum; csimpl.
  - f_equal. lia.
  - rewrite wrap_s_mul_l, wrap_s_mul_r, wrap_s_add_l, wrap_s_add_r, IH by lia. f_equal. simpl. lia.
Qed.

Lemma norm_max_loop_spec x m : norm_max_loop x m = foldr Z.max m x.
Proof.
  unfold norm_max_loop. revert m. induction x as [|xi x IH]; intros m; simpl; [done|].
  rewrite IH. clear IH. induction x as [|y x IH]; simpl; [case_match; lia|]. rewrite IH. lia.
Qed.

(** A sequence of norm commands on one row of statistics. *)
Fixpoint norm_run (n : norm_regs) (cmds : list (list Z * NormCmd)) (r : norm_stat) : option norm_stat :=
  match cmds with
  | [] => Some r
  | (x, cmd) :: cmds' => r' ← norm_update n x cmd r; norm_run n cmds' r'
  end.

(** All blocks but the last with the non-terminating form of [cmd]: what
    [mvout] and [loop_ws] issue for one row. *)
Definition norm_blocks (cmd : NormCmd) (blocks : list (list Z)) (last : list Z) : list (list Z * NormCmd) :=
  ((fun b => (b, non_terminating_norm_cmd cmd)) <$> blocks) ++ [(last, cmd)].

(** The loop state after some accumulating commands, from a cleared row. *)
Lemma norm_run_sum_blocks n blocks r sum count cmds :
  ns_reset r = false -> ns_sum r = s32 sum -> ns_count r = s32 count ->
  norm_run n (((fun b => (b, SUM)) <$> blocks) ++ cmds) r =
  norm_run n cmds (r <| ns_sum := s32 (sum + list_sum (concat blocks)) |>
                     <| ns_count := s32 (count + Z.of_nat (length (concat blocks))) |>).
Proof.
  revert r sum count. induction blocks as [|b blocks IH]; intros r sum count Hr Hs Hc; simpl.
  - f_equal. rewrite !Z.add_0_r, <- Hs, <- Hc. by destruct r.
  - unfold norm_update, norm_clear. rewrite Hr. simpl.
    rewrite Hs, Hc, norm_sum_loop_sum, wrap_s_add_l by lia.
    rewrite (IH _ (sum + list_sum b) (count + Z.of_nat (length b))); simpl; [|done..].
    f_equal. destruct r; simpl in *. unfold set_field. simpl. f_equal; f_equal.
    + rewrite list_sum_app. lia.
    + rewrite length_app. lia.
    + by rewrite Hr.
Qed.

Lemma norm_run_var_blocks n blocks r sum count cmds :
  ns_reset r = false -> ns_sum r = s32 sum -> ns_count r = s32 count ->
  norm_run n (((fun b => (b, VARIANCE)) <$> blocks) ++ cmds) r =
  norm_run n cmds (r <| ns_sum := s32 (sum + list_sum ((fun x => (x - ns_mean r) * (x - ns_mean r)) <$> concat blocks)) |>
                     <| ns_count := s32 (count + Z.of_nat (length (concat blocks))) |>).
Proof.
  revert r sum count. induction blocks as [|b blocks IH]; intros r sum count Hr Hs Hc; simpl.
  - f_equal. rewrite !Z.add_0_r, <- Hs, <- Hc. by destruct r.
  - unfold norm_update, norm_clear. rewrite Hr. simpl.
    rewrite Hs, Hc, norm_var_loop_sum, wrap_s_add_l by lia.
    rewrite (IH _ (sum + list_sum ((fun x => (x - ns_mean r) * (x - ns_mean r)) <$> b))
      (count + Z.of_nat (length b))); simpl; [|done..].
    f_equal. destruct r; simpl in *. unfold set_field. simpl. f_equal; f_equal.
    + rewrite fmap_app, list_sum_app. lia.
    + rewrite length_app. lia.
    + by rewrite Hr.
Qed.

Lemma norm_run_max_blocks n blocks r cmds :
  ns_reset r = false ->
  norm_run n (((fun b => (b, MAX)) <$> blocks) ++ cmds) r =
  norm_run n cmds (r <| ns_running_max := foldr Z.max (ns_running_max r) (concat blocks) |>).
Proof.
  revert r. induction blocks as [|b blocks IH]; intros r Hr; simpl.
  - f_equal. by destruct r.
  - unfold norm_update, norm_clear. rewrite Hr. simpl. rewrite norm_max_loop_spec.
    rewrite IH; simpl; [|done]. f_equal. destruct r; simpl in *. unfold set_field. simpl. f_equal.
    + rewrite foldr_app. clear. induction b as [|y b IH]; simpl.
      * by induction (concat blocks) as [|z l IH]; simpl; rewrite ?IH.
      * rewrite <- IH. clear. induction (concat blocks) as [|z l IH]; simpl; [done|]. rewrite IH. lia.
    + by rewrite Hr.
Qed.

(** The two statistics passes of a layer normalisation. *)
Definition mean_of (l : list Z) : Z := Z.quot (list_sum l) (Z.of_nat (length l)).
Lemma quot_in_s32 a b : in_s 32 a -> 0 < b -> s32 (Z.quot a b) = Z.quot a b.
Proof.
  intros Ha Hb. apply wrap_s_id; [lia|]. unfold in_s in *. simpl in *.
  destruct (decide (0 <= a)).
  - rewrite Z.quot_div_nonneg by lia. split; [pose proof (Z.div_pos a b); lia|].
    pose proof (Z.div_le_upper_bound a b a). nia.
  - rewrite <- (Z.opp_involutive a), Z.quot_opp_l, Z.quot_div_nonneg by lia.
    pose proof (Z.div_pos (- a) b). pose proof (Z.div_le_upper_bound (- a) b (- a)). nia.
Qed.

(** A cleared row of statistics. *)
Definition norm_cleared (r : norm_stat) : norm_stat :=
  r <| ns_sum := 0 |> <| ns_count := 0 |> <| ns_running_max := INT32_MIN |> <| ns_reset := false |>.

(** The first command after a terminating one starts from a cleared row. *)
Lemma norm_run_clear n x cmd cmds r : ns_reset r = true ->
  norm_run n ((x, cmd) :: cmds) r = norm_run n ((x, cmd) :: cmds) (norm_cleared r).
Proof. intros Hr. cbn [norm_run]. unfold norm_update, norm_clear. by rewrite Hr. Qed.

Lemma norm_blocks_clear n cmd blocks last r : ns_reset r = true ->
  norm_run n (norm_blocks cmd blocks last) r = norm_run n (norm_blocks cmd blocks last) (norm_cleared r).
Proof. intros Hr. destruct blocks; by apply norm_run_clear. Qed.

Lemma norm_run_app n c1 c2 r : norm_run n (c1 ++ c2) r = r' ← norm_run n c1 r; norm_run n c2 r'.
Proof.
  revert r. induction c1 as [|[x cmd] c1 IH]; intros r; simpl; [done|].
  destruct (norm_update n x cmd r); simpl; [apply IH|done].
Qed.

(** ** Layer normalisation *)

Section layernorm.
Context (n : norm_regs) (blocks : list (list Z)) (last : list Z).
Notation l := (concat blocks ++ last).
Context (Hlast : last <> []) (Hlen : Z.of_nat (length l) < 2 ^ 31).

Lemma row_length : 0 < Z.of_nat (length l) /\ s32 (Z.of_nat (length l)) = Z.of_nat (length l).
Proof.
  assert (0 < Z.of_nat (length l)) by (rewrite length_app; destruct last; [done|]; simpl; lia).
  split; [done|]. apply wrap_s_id; [lia|]. unfold in_s. lia.
Qed.

Lemma norm_run_mean r : ns_reset r = true -> in_s 32 (list_sum l) ->
  exists r', norm_run n (norm_blocks MEAN blocks last) r = Some r' /\ ns_mean r' = mean_of l /\ ns_reset r' = true.
Proof.
  intros Hr Hs. destruct row_length as [Hpos Hlen']. rewrite norm_blocks_clear by done. unfold norm_blocks.
  cbn [non_terminating_norm_cmd]. rewrite (norm_run_sum_blocks _ _ _ 0 0) by done. rewrite !Z.add_0_l.
  cbn [norm_run]. unfold norm_update, norm_clear. simpl.
  rewrite norm_sum_loop_sum, wrap_s_add_l by lia. rewrite <- list_sum_app, <- Nat2Z.inj_add, <- length_app.
  rewrite (wrap_s_id 32 (list_sum l)), Hlen' by done.
  unfold int_div. rewrite (proj2 (Z.eqb_neq _ 0)) by lia. simpl.
  eexists. split; [done|]. simpl. split; [|done]. by rewrite quot_in_s32.
Qed.

(** The squared deviations from [mean], summed. *)
Definition deviations (mean : Z) (x : list Z) : Z := list_sum ((fun xi => (xi - mean) * (xi - mean)) <$> x).

Lemma norm_run_inv_stddev r sd :
  let var := Z.quot (deviations (ns_mean r) l) (Z.of_nat (length l)) in
  ns_reset r = true -> in_s 32 (deviations (ns_mean r) l) -> f_to_int 32 (f64_sqrt (f64_of_Z var)) = Some sd ->
  exists r', norm_run n (norm_blocks INV_STDDEV blocks last) r = Some r' /\ ns_mean r' = ns_mean r /\
    ns_inv_stddev r' = f32_div f32_one (f32_of_Z (if var =? 0 then 1 else sd)) /\ ns_reset r' = true.
Proof.
  intros var Hr Hs Hsd. destruct row_length as [Hpos Hlen']. rewrite norm_blocks_clear by done. unfold norm_blocks.
  cbn [non_terminating_norm_cmd]. rewrite (norm_run_var_blocks _ _ _ 0 0) by done. rewrite !Z.add_0_l.
  cbn [norm_run]. unfold norm_update, norm_clear. simpl.
  rewrite norm_var_loop_sum, wrap_s_add_l by lia. rewrite <- list_sum_app, <- fmap_app, <- Nat2Z.inj_add, <- length_app.
  fold (deviations (ns_mean r) l). rewrite (wrap_s_id 32 (deviations _ _)), Hlen' by done.
  unfold int_div. rewrite (proj2 (Z.eqb_neq (Z.of_nat (length l)) 0)) by lia. simpl. rewrite quot_in_s32 by done. fold var.
  rewrite Hsd. simpl. eexists. split; [done|]. done.
Qed.

(** C33: the statistics of a layer normalisation.  The two passes that [loop_ws]
    issues over a row (mean, then inverse standard deviation), each block by block
    with a terminating command on the last block, leave the mean of the whole row
    and the inverse of its standard deviation (1 for a constant row), whatever the
    blocks, as long as the sums fit 32 bits. *)
Theorem layernorm_row r sd :
  let dev := deviations (mean_of l) l in
  let var := Z.quot dev (Z.of_nat (length l)) in
  ns_reset r = true -> in_s 32 (list_sum l) -> in_s 32 dev -> f_to_int 32 (f64_sqrt (f64_of_Z var)) = Some sd ->
  exists r', norm_run n (norm_blocks MEAN blocks last ++ norm_blocks INV_STDDEV blocks last) r = Some r' /\
    ns_mean r' = Z.quot (list_sum l) (Z.of_nat (length l)) /\
    ns_inv_stddev r' = f32_div f32_one (f32_of_Z (if var =? 0 then 1 else sd)) /\ ns_reset r' = true.
Proof.
  intros dev var Hr Hs Hd Hsd. destruct (norm_run_mean r Hr Hs) as (r1 & E1 & M1 & R1).
  destruct (norm_run_inv_stddev r1 sd) as (r2 & E2 & M2 & S2 & R2); rewrite ?M1; [done..|].
  exists r2. rewrite norm_run_app, E1. simpl. rewrite M1 in S2. split_and!; [done|by rewrite M2, M1|done|done].
Qed.
End layernorm.

(** The row 1 2 | 3 6 has mean 3 and variance 3, in the statistics that follow a reset. *)
Definition demo_regs : norm_regs :=
  Build_norm_regs 24 40 8 8192 0 [0;0;0;0] [0;0;0;0] [0;0;0;0] [0;0;0;0] [0;0;0;0]
    (replicate 4 f32_zero) (replicate 4 f32_zero) (replicate 4 true).
Definition demo_stat : norm_stat := Build_norm_stat 7 9 0 5 0 f32_zero f32_zero true.

Lemma layernorm_row_witness :
  exists r', norm_run demo_regs (norm_blocks MEAN [[1; 2]] [3; 6] ++ norm_blocks INV_STDDEV [[1; 2]] [3; 6]) demo_stat = Some r' /\
    ns_mean r' = 3 /\ ns_inv_stddev r' = f32_div f32_one (f32_of_Z 1) /\ ns_reset r' = true.
Proof.
  apply (layernorm_row demo_regs [[1; 2]] [3; 6] ltac:(done) ltac:(simpl; lia) demo_stat 1);
    [reflexivity|unfold in_s; vm_compute; done|unfold in_s; vm_compute; done|vm_compute; reflexivity].
Defined.

(** ** Softmax *)

Section softmax.
Context (n : norm_regs) (blocks : list (list Z)) (last : list Z).
Notation l := (concat blocks ++ last).

(** The exponentials of the row, relative to its maximum. *)
Definition row_max (x : list Z) : Z := foldr Z.max INT32_MIN x.
Definition exp_of (mx xi e : Z) : Prop :=
  apply_iexp (s32 (xi - mx)) (igelu_qb n) (igelu_qc n) (qln2 n) (qln2_inv n) = Some e.

Lemma norm_exp_loop_sum mx x es sum : Forall2 (exp_of mx) x es ->
  norm_exp_loop n mx x (s32 sum) = Some (s32 (sum + list_sum es)).
Proof.
  intros Hes. revert sum. induction Hes as [|xi e x es He _ IH]; intros sum; cbn [norm_exp_loop].
  - unfold list_sum. cbn [foldr]. by rewrite Z.add_0_r.
  - unfold exp_of in He. rewrite He. cbn [mbind option_bind]. rewrite wrap_s_add_l, IH by lia.
    do 2 f_equal. unfold list_sum. cbn [foldr]. lia.
Qed.

Lemma foldr_max_app m x y : foldr Z.max m (x ++ y) = foldr Z.max (foldr Z.max m x) y.
Proof.
  rewrite foldr_app. induction x as [|a x IH]; simpl.
  - done.
  - rewrite IH. clear IH. induction y as [|b y IH]; simpl; [done|]. rewrite <- IH. lia.
Qed.

Lemma norm_run_max r : ns_reset r = true ->
  exists r', norm_run n (norm_blocks MAX blocks last) r = Some r' /\
    ns_running_max r' = row_max l /\ ns_sum r' = 0 /\ ns_reset r' = false.
Proof.
  intros Hr. rewrite norm_blocks_clear by done. unfold norm_blocks. cbn [non_terminating_norm_cmd].
  rewrite norm_run_max_blocks by done. cbn [norm_run]. unfold norm_update, norm_clear. simpl. rewrite norm_max_loop_spec.
  eexists. split; [done|]. simpl. split_and!; [|done..]. unfold row_max. by rewrite foldr_max_app.
Qed.

(** Some SUM_EXP commands in a row. *)
Lemma norm_run_exps mx bs es sum r :
  ns_reset r = false -> ns_running_max r = mx -> ns_sum r = s32 sum -> Forall2 (exp_of mx) (concat bs) es ->
  exists r', norm_run n ((fun b => (b, SUM_EXP)) <$> bs) r = Some r' /\
    ns_reset r' = false /\ ns_running_max r' = mx /\ ns_sum r' = s32 (sum + list_sum es).
Proof.
  revert es sum r. induction bs as [|b bs IH]; intros es sum r Hr Hm Hs Hes; csimpl.
  - inversion Hes. exists r. simpl. by rewrite Z.add_0_r.
  - apply Forall2_app_inv_l in Hes as (es1 & es2 & H1 & H2 & ->). unfold norm_update, norm_clear. rewrite Hr. simpl.
    rewrite Hm, Hs, (norm_exp_loop_sum mx b es1) by done. simpl.
    destruct (IH es2 (sum + list_sum es1) (r <| ns_reset := false |> <| ns_max := mx |> <| ns_sum := s32 (sum + list_sum es1) |>))
      as (r' & E & R & M & S); [done..|]. exists r'. split_and!; [exact E|done|done|]. rewrite S, list_sum_app. f_equal. lia.
Qed.

(** C34: the statistics of a softmax.  The two passes over a row (maximum, then
    inverse sum of exponentials), block by block, leave the maximum of the whole row
    and [127 / sum] for the sum of the integer exponentials of the distances to it,
    whatever the blocks. *)
Theorem softmax_row r es : ns_reset r = true -> Forall2 (exp_of (row_max l)) l es ->
  exists r', norm_run n (norm_blocks MAX blocks last ++ norm_blocks INV_SUM_EXP blocks last) r = Some r' /\
    ns_max r' = row_max l /\ ns_inv_sum_exp r' = f32_div (f32_of_Z 127) (f32_of_Z (s32 (list_sum es))).
Proof.
  intros Hr Hes. destruct (norm_run_max r Hr) as (r1 & E1 & M1 & S1 & R1). rewrite norm_run_app, E1. cbn [mbind option_bind].
  apply Forall2_app_inv_l in Hes as (es1 & es2 & H1 & H2 & ->).
  destruct (norm_run_exps (row_max l) blocks es1 0 r1) as (r2 & E2 & R2 & M2 & S2); [done..|].
  unfold norm_blocks. cbn [non_terminating_norm_cmd]. rewrite norm_run_app, E2. cbn [mbind option_bind norm_run].
  unfold norm_update, norm_clear. rewrite R2. simpl. rewrite M2, S2, (norm_exp_loop_sum (row_max l) last es2) by done. simpl.
  eexists. split; [done|]. simpl. split; [done|]. by rewrite list_sum_app.
Qed.
End softmax.

Lemma softmax_row_witness :
  exists r', norm_run demo_regs (norm_blocks MAX [[1; 2]] [3; 6] ++ norm_blocks INV_SUM_EXP [[1; 2]] [3; 6]) demo_stat = Some r' /\
    ns_max r' = 6 /\ ns_inv_sum_exp r' = f32_div (f32_of_Z 127) (f32_of_Z 1938).
Proof.
  apply (softmax_row demo_regs [[1; 2]] [3; 6] demo_stat [401; 440; 481; 616]); [reflexivity|].
  repeat constructor; vm_compute; reflexivity.
Defined.

(** ** The rounding shift and the integer exponential *)

(** The shift of the systolic array.  [sys_shift] divides a 32-bit sum by
    [2^shift], rounds to the nearest integer with ties to the even one, and saturates
    to 8 bits. *)
Theorem sys_shift_rounds value shift : in_s 32 value -> 0 <= shift < 32 ->
  exists y, sys_shift value shift = Z.max elem_t_min (Z.min elem_t_max y) /\
    2 * Z.abs (value - y * 2 ^ shift) <= 2 ^ shift /\
    (2 * Z.abs (value - y * 2 ^ shift) = 2 ^ shift -> Z.even y = true).
Proof.
  intros Hv Hs. destruct (rounding_right_shift_nearest value shift (proj1 Hs)) as [Hn He].
  exists (ROUNDING_RIGHT_SHIFT value shift). split; [|done]. set (y := ROUNDING_RIGHT_SHIFT value shift) in *.
  unfold sys_shift. fold y. rewrite s8_saturate, wrap_s_id; [unfold saturate; unfold_params; repeat case_match; lia|lia|].
  unfold in_s in *. destruct (decide (shift = 0)) as [E|Hne]; [rewrite E in *; lia|].
  assert (2 <= 2 ^ shift) by (change 2 with (2 ^ 1) at 1; apply Z.pow_le_mono_r; lia). nia.
Qed.

(** 56 / 16 is halfway between 3 and 4, and 40 / 16 between 2 and 3. *)
Lemma sys_shift_rounds_witness : sys_shift 56 4 = 4 /\ sys_shift 40 4 = 2 /\
  exists y, sys_shift 56 4 = Z.max elem_t_min (Z.min elem_t_max y) /\
    2 * Z.abs (56 - y * 16) <= 16 /\ (2 * Z.abs (56 - y * 16) = 16 -> Z.even y = true).
Proof. split; [reflexivity|]. split; [reflexivity|]. apply (sys_shift_rounds 56 4); [unfold in_s|]; lia. Defined.

(** the integer exponential.  For [q <= 0] and a table entry
    [qln2_inv = 65536 / qln2], as I-BERT prescribes, [apply_iexp] writes [q] as
    [qp - z * ln 2] with [qp] less than two units of [ln 2] below 0, evaluates its
    polynomial at [qp] and shifts the result by [z]. *)
Theorem iexp_range_reduction q qb qc qln2 :
  let qln2_inv := 65536 / qln2 in
  let z := (- q * qln2_inv) / 65536 in
  let qp := q + z * qln2 in
  0 < qln2 -> -65536 < q <= 0 -> - q * qln2_inv < 2 ^ 31 -> z < 32 ->
  apply_iexp q qb qc qln2 qln2_inv = Some (s32 (s32 ((qp + qb) * (qp + qb)) + qc) ≫ z) /\ - 2 * qln2 < qp <= 0.
Proof.
  intros inv z qp Hl Hq Hov Hz.
  assert (0 <= inv /\ inv * qln2 <= 65536 < inv * qln2 + qln2) as [Hi0 Hi] by (unfold inv; pose proof (Z.div_mod 65536 qln2); pose proof (Z.mod_pos_bound 65536 qln2); pose proof (Z.div_pos 65536 qln2); nia).
  assert (0 <= - q * inv) by nia.
  assert (0 <= z /\ z * 65536 <= - q * inv < z * 65536 + 65536) as [Hz0 Hz1] by (unfold z; zlia).
  assert (z * qln2 <= - q) as Hle by nia.
  assert (- q < z * qln2 + 2 * qln2) as Hgt by nia.
  split; [|unfold qp; lia]. unfold apply_iexp.
  rewrite (wrap_s_id 32 (- q)) by (unfold in_s; lia). rewrite (wrap_s_id 32 (- q * inv)) by (unfold in_s; lia).
  rewrite (shiftr_div (- q * inv) 16) by lia. change (2 ^ 16) with 65536. fold z.
  rewrite (wrap_s_id 32 (z * qln2)) by (unfold in_s; lia). fold qp.
  rewrite (wrap_s_id 32 qp) by (unfold in_s, qp; lia).
  assert ((0 <=? z) && (z <? 32) = true) as -> by lia. autorewrite with wraps. done.
Qed.

Lemma iexp_range_reduction_witness : apply_iexp (-20) 24 40 8 8192 = Some ((20 * 20 + 40) ≫ 2) /\ - 2 * 8 < -4 <= 0.
Proof. apply (iexp_range_reduction (-20) 24 40 8); vm_compute; done. Defined.
