(* ===== verification/Config.v ===== *)
(** * Config: the configuration instructions

    [preload], [config], [loop_ws_config_*] and [loop_conv_ws_config_*] of
    gemmini.cc: each decodes fields of its two operand registers into the
    register groups of [State].  [dprintf] lines only log. *)

From S2P Require Import Prelude Effects Float32 Params State.

Section config.
Context {mem : Type}.

(** [gemmini_t::preload] *)
Definition preload (bd_addr c_addr : Z) : M (machine mem) unit :=
  upd_gs (fun s => s <| pre := {|
    preload_sp_addr := bd_addr &ᵇ 0xFFFFFFFF;
    output_sp_addr := c_addr &ᵇ 0xFFFFFFFF;
    preload_cols := (bd_addr ≫ addr_len) &ᵇ 0xFFFF;
    preload_rows := (bd_addr ≫ (addr_len + 16)) &ᵇ 0xFFFF;
    output_cols := (c_addr ≫ addr_len) &ᵇ 0xFFFF;
    output_rows := (c_addr ≫ (addr_len + 16)) &ᵇ 0xFFFF |} |>).

(** The two-bit activation field of config_ex and config_mvout: 0 keeps a
    softmax selected by config_norm. *)
Definition decode_act (current : Activation) (field : Z) : M (machine mem) Activation :=
  if field =? 0 then mret (if negb (act_to_Z current =? 4) then NONE else SOFTMAX)
  else if field =? 1 then mret RELU
  else if field =? 2 then mret LAYERNORM
  else if field =? 3 then mret IGELU
  else fail AssertFailed.

(** [rs1[1:0] == 0]: the execute pipeline *)
Definition config_ex (rs1 rs2 : Z) : M (machine mem) unit :=
  let new_mode := if (rs1 ≫ 2) &ᵇ 1 =? 0 then OS else WS in
  current ← get_gs (fun s => acc_act (st s));
  new_act ← decode_act current ((rs1 ≫ 3) &ᵇ 3);
  let new_sys_shift := rs2 &ᵇ 0xFFFFFFFF in
  let new_sys_acc_shift := (rs1 ≫ 32) &ᵇ 0xFFFFFFFF in
  let new_c_stride := (rs2 ≫ 48) &ᵇ 0xFFFF in
  let new_a_stride := (rs1 ≫ 16) &ᵇ 0xFFFF in
  let new_a_transpose := negb ((rs1 ≫ 8) &ᵇ 1 =? 0) in
  let new_b_transpose := negb ((rs1 ≫ 9) &ᵇ 1 =? 0) in
  let set_only_strides := negb ((rs1 ≫ 7) &ᵇ 1 =? 0) in
  check ((0 <=? new_sys_shift) && (new_sys_shift <? sizeof_acc_t * 8)) AssertFailed ;;
  when (negb set_only_strides)
    (upd_gs (fun s => s <| ex := (ex s)
       <| mode := new_mode |> <| sys_act := new_act |> <| sys_shift_reg := new_sys_shift |>
       <| sys_acc_shift := f32_of_Z new_sys_acc_shift |>
       <| a_transpose := new_a_transpose |> <| b_transpose := new_b_transpose |> |>)) ;;
  upd_gs (fun s => s <| ex := (ex s) <| c_stride := new_c_stride |> <| a_stride := new_a_stride |> |>) ;;
  check (negb (bool_decide (new_mode = OS) && negb new_a_transpose && new_b_transpose) &&
         negb (bool_decide (new_mode = WS) && new_a_transpose && new_b_transpose)) AssertFailed.

(** [rs1[1:0] == 1]: one of the load pipelines *)
Definition config_mvin (rs1 rs2 : Z) : M (machine mem) unit :=
  let state_id := (rs1 ≫ 3) &ᵇ 3 in
  l ← get_gs ld;
  strides ← arr_set (load_strides l) state_id rs2;
  block_strides ← arr_set (load_block_strides l) state_id ((rs1 ≫ 16) &ᵇ 0xFFFF);
  scales ← arr_set (load_scales l) state_id (f32_of_bits (u32 (rs1 ≫ 32)));
  shrunks ← arr_set (load_shrunks l) state_id (negb ((rs1 ≫ 2) &ᵇ 1 =? 0));
  let pixels := (rs1 ≫ 8) &ᵇ 0xFF in
  pixels_rows ← arr_set (pixels_per_rows l) state_id (if pixels =? 0 then 1 else pixels);
  upd_gs (fun s => s <| ld := {|
    load_strides := strides; load_block_strides := block_strides; load_shrunks := shrunks;
    load_scales := scales; pixels_per_rows := pixels_rows |} |>).

(** [rs1[1:0] == 2]: the store pipeline *)
Definition config_mvout (rs1 rs2 : Z) : M (machine mem) unit :=
  current ← get_gs (fun s => acc_act (st s));
  upd_gs (fun s => s <| st := (st s) <| store_stride := rs2 &ᵇ 0xFFFFFFFF |> |>) ;;
  new_act ← decode_act current ((rs1 ≫ 2) &ᵇ 3);
  let new_acc_shift := (rs2 ≫ 32) &ᵇ 0xFFFFFFFF in
  upd_gs (fun s => s <| st := {|
    store_stride := store_stride (st s);
    acc_act := new_act;
    acc_shift := f32_of_bits new_acc_shift;
    pool_stride := (rs1 ≫ 4) &ᵇ 3;
    pool_size := (rs1 ≫ 6) &ᵇ 3;
    pool_upad := (rs1 ≫ 8) &ᵇ 3;
    pool_lpad := (rs1 ≫ 10) &ᵇ 3;
    pool_out_dim := (rs1 ≫ 24) &ᵇ 0xFF;
    pool_porows := (rs1 ≫ 32) &ᵇ 0xFF;
    pool_pocols := (rs1 ≫ 40) &ᵇ 0xFF;
    pool_orows := (rs1 ≫ 48) &ᵇ 0xFF;
    pool_ocols := (rs1 ≫ 56) &ᵇ 0xFF |} |>).

(** [rs1[1:0] == 3]: the norm pipeline; the [acc_t] fields receive the
    32-bit pattern as a signed value. *)
Definition config_norm (rs1 rs2 : Z) : M (machine mem) unit :=
  upd_gs (fun s => s <| nrm := (nrm s) <| norm_stat_id := (rs1 ≫ 8) &ᵇ 0xFF |> |>) ;;
  when ((rs1 ≫ 17) &ᵇ 1 =? 0) (
    upd_gs (fun s => s <| nrm := (nrm s)
      <| igelu_qb := s32 (rs2 &ᵇ 0xFFFFFFFF) |>
      <| igelu_qc := s32 ((rs2 ≫ 32) &ᵇ 0xFFFFFFFF) |> |>) ;;
    let act_msb := (rs1 ≫ 16) &ᵇ 1 in
    current ← get_gs (fun s => acc_act (st s));
    new_act ← of_option AssertFailed (act_of_Z ((act_msb ≪ 2) |ᵇ act_to_Z current));
    upd_gs (fun s => s <| st := (st s) <| acc_act := new_act |> |>) ;;
    if negb ((rs1 ≫ 18) &ᵇ 1 =? 0)
    then upd_gs (fun s => s <| nrm := (nrm s) <| qln2_inv := s32 ((rs1 ≫ 32) &ᵇ 0xFFFFFFFF) |> |>)
    else upd_gs (fun s => s <| nrm := (nrm s) <| qln2 := s32 ((rs1 ≫ 32) &ᵇ 0xFFFFFFFF) |> |>)).

(** [gemmini_t::config] *)
Definition config (rs1 rs2 : Z) : M (machine mem) unit :=
  if rs1 &ᵇ 3 =? 0 then config_ex rs1 rs2
  else if rs1 &ᵇ 3 =? 1 then config_mvin rs1 rs2
  else if rs1 &ᵇ 3 =? 2 then config_mvout rs1 rs2
  else when (rs1 &ᵇ 3 =? 3) (config_norm rs1 rs2).

(** ** Loop configuration *)

Definition loop_ws_config_bounds (rs1 rs2 : Z) : M (machine mem) unit :=
  upd_gs (fun s => s <| lws := (lws s)
    <| loop_ws_I := rs2 &ᵇ 0xFFFF |>
    <| loop_ws_J := (rs2 ≫ 16) &ᵇ 0xFFFF |>
    <| loop_ws_K := (rs2 ≫ 32) &ᵇ 0xFFFF |>
    <| loop_ws_pad_I := rs1 &ᵇ 0xFFFF |>
    <| loop_ws_pad_J := (rs1 ≫ 16) &ᵇ 0xFFFF |>
    <| loop_ws_pad_K := (rs1 ≫ 32) &ᵇ 0xFFFF |> |>).

Definition loop_ws_config_addrs_AB (rs1 rs2 : Z) : M (machine mem) unit :=
  upd_gs (fun s => s <| lws := (lws s) <| loop_ws_A := rs1 |> <| loop_ws_B := rs2 |> |>).

Definition loop_ws_config_addrs_DC (rs1 rs2 : Z) : M (machine mem) unit :=
  upd_gs (fun s => s <| lws := (lws s) <| loop_ws_D := rs1 |> <| loop_ws_C := rs2 |> |>).

Definition loop_ws_config_strides_AB (rs1 rs2 : Z) : M (machine mem) unit :=
  upd_gs (fun s => s <| lws := (lws s) <| loop_ws_A_stride := rs1 |> <| loop_ws_B_stride := rs2 |> |>).

Definition loop_ws_config_strides_DC (rs1 rs2 : Z) : M (machine mem) unit :=
  upd_gs (fun s => s <| lws := (lws s) <| loop_ws_D_stride := rs1 |> <| loop_ws_C_stride := rs2 |> |>).

Definition loop_conv_ws_config_1 (rs1 rs2 : Z) : M (machine mem) unit :=
  upd_gs (fun s => s <| lcv := (lcv s)
    <| lc_batch_size := rs1 &ᵇ 0xFFFF |>
    <| lc_in_row_dim := (rs1 ≫ 16) &ᵇ 0xFFFF |>
    <| lc_in_channels := (rs1 ≫ 32) &ᵇ 0xFFFF |>
    <| lc_out_channels := (rs1 ≫ 48) &ᵇ 0xFFFF |>
    <| lc_out_row_dim := rs2 &ᵇ 0xFFFF |>
    <| lc_pool_out_row_dim := (rs2 ≫ 16) &ᵇ 0xFFFF |>
    <| lc_out_col_dim := (rs2 ≫ 32) &ᵇ 0xFFFF |>
    <| lc_stride := (rs2 ≫ 48) &ᵇ 0xFF |>
    <| lc_padding := (rs2 ≫ 56) &ᵇ 0xFF |> |>).

Definition loop_conv_ws_config_2 (rs1 rs2 : Z) : M (machine mem) unit :=
  upd_gs (fun s => s <| lcv := (lcv s)
    <| lc_kernel_dim := (rs1 ≫ 48) &ᵇ 0xFFFF |>
    <| lc_pool_out_col_dim := (rs1 ≫ 32) &ᵇ 0xFFFF |>
    <| lc_pool_size := (rs1 ≫ 16) &ᵇ 0xFFFF |>
    <| lc_pool_stride := (rs1 ≫ 8) &ᵇ 0xFF |>
    <| lc_pool_padding := rs1 &ᵇ 0xFF |>
    <| lc_batches := (rs2 ≫ 48) &ᵇ 0xFFFF |>
    <| lc_porows := (rs2 ≫ 32) &ᵇ 0xFFFF |>
    <| lc_pocols := (rs2 ≫ 16) &ᵇ 0xFFFF |>
    <| lc_pochs := rs2 &ᵇ 0xFFFF |> |>).

Definition loop_conv_ws_config_3 (rs1 rs2 : Z) : M (machine mem) unit :=
  upd_gs (fun s => s <| lcv := (lcv s)
    <| lc_krows := (rs1 ≫ 48) &ᵇ 0xFFFF |>
    <| lc_kcols := (rs1 ≫ 32) &ᵇ 0xFFFF |>
    <| lc_kchs := (rs1 ≫ 16) &ᵇ 0xFFFF |>
    <| lc_lpad := rs1 &ᵇ 0xFFFF |>
    <| lc_rpad := (rs2 ≫ 48) &ᵇ 0xFFFF |>
    <| lc_upad := (rs2 ≫ 32) &ᵇ 0xFFFF |>
    <| lc_dpad := (rs2 ≫ 24) &ᵇ 0xFF |>
    <| lc_plpad := (rs2 ≫ 16) &ᵇ 0xFF |>
    <| lc_in_col_dim := rs2 &ᵇ 0xFFFF |> |>).

Definition loop_conv_ws_config_4 (rs1 rs2 : Z) : M (machine mem) unit :=
  upd_gs (fun s => s <| lcv := (lcv s)
    <| lc_orows := (rs1 ≫ 48) &ᵇ 0xFFFF |>
    <| lc_prad := (rs1 ≫ 32) &ᵇ 0xFFFF |>
    <| lc_pupad := (rs1 ≫ 21) &ᵇ 0xFF |>
    <| lc_pdpad := (rs1 ≫ 10) &ᵇ 0xFF |>
    <| lc_kernel_dilation := rs1 &ᵇ 0xFF |>
    <| lc_in_stride := (rs2 ≫ 48) &ᵇ 0xFFFF |>
    <| lc_weight_stride := (rs2 ≫ 32) &ᵇ 0xFFFF |>
    <| lc_out_stride := (rs2 ≫ 16) &ᵇ 0xFFFF |>
    <| lc_ocols := rs2 &ᵇ 0xFFFF |> |>).

Definition loop_conv_ws_config_5 (rs1 rs2 : Z) : M (machine mem) unit :=
  upd_gs (fun s => s <| lcv := (lcv s) <| lc_weights := rs1 |> <| lc_output := rs2 |> |>).

Definition loop_conv_ws_config_6 (rs1 rs2 : Z) : M (machine mem) unit :=
  upd_gs (fun s => s <| lcv := (lcv s) <| lc_bias := rs1 |> <| lc_input := rs2 |> |>).
End config.
