(* ===== verification/Move.v ===== *)
(** * Move: DRAM to and from the scratchpad and the accumulator

    [gemmini_t::mvin] and [gemmini_t::mvout] of gemmini.cc. *)

From S2P Require Import Prelude Effects Float32 Params State Dram Scaling Norm.

(** Fields of the scratchpad operand of a move. *)
Definition is_acc_addr (sp_addr : Z) : bool := negb ((sp_addr ≫ 31) &ᵇ 1 =? 0).
Definition is_accumulate (sp_addr : Z) : bool := negb ((sp_addr ≫ 30) &ᵇ 1 =? 0).
Definition is_full (sp_addr : Z) : bool := negb ((sp_addr ≫ 29) &ᵇ 1 =? 0).
Definition sp_cols (sp_addr : Z) : Z := (sp_addr ≫ addr_len) &ᵇ 0xFFFF.
Definition sp_rows (sp_addr : Z) : Z := (sp_addr ≫ (addr_len + 16)) &ᵇ 0xFFFF.

(** [(rows << 48) | (cols << 32) | addr]: the operand format of a block. *)
Definition pack_block (rows cols addr : Z) : Z := u64 ((rows ≪ 48) |ᵇ (cols ≪ 32) |ᵇ addr).

Section move.
Context {mem : Type} `{Mmu mem}.

(** The element [mvin] loads for one destination cell. *)
Definition mvin_acc_value (is_zeros load_shrunk : bool) (load_scale : float32) (dram_byte_addr : Z)
  : M (machine mem) Z :=
  if is_zeros then mret 0
  else if negb load_shrunk then read_from_dram sizeof_acc_t dram_byte_addr
  else v ← read_from_dram sizeof_elem_t dram_byte_addr; of_option Undefined (mvin_scale v load_scale).

Definition mvin_spad_value (is_zeros : bool) (load_scale : float32) (dram_byte_addr : Z)
  : M (machine mem) Z :=
  if is_zeros then mret 0
  else v ← read_from_dram sizeof_elem_t dram_byte_addr; of_option Undefined (mvin_scale v load_scale).

(** [gemmini_t::mvin]: the innermost loop stops at [pixels_per_row] or when
    [pixel] passes [spad_row]. *)
Definition mvin (dram_addr sp_addr state_id : Z) : M (machine mem) unit :=
  let acc := is_acc_addr sp_addr in
  let accumulate := is_accumulate sp_addr in
  let base_row_addr := sp_addr &ᵇ 0x1FFFFFFF in
  let cols := sp_cols sp_addr in
  let rows := sp_rows sp_addr in
  let is_zeros := dram_addr =? 0 in
  l ← get_gs ld;
  load_stride ← arr_get (load_strides l) state_id;
  load_block_stride ← arr_get (load_block_strides l) state_id;
  load_shrunk ← arr_get (load_shrunks l) state_id;
  load_scale ← arr_get (load_scales l) state_id;
  pixels_per_row ← arr_get (pixels_per_rows l) state_id;
  for_range 0 rows (fun row =>
    let dram_row_addr := u64 (dram_addr + row * load_stride) in
    for_range 0 cols (fun col =>
      let block := col / DIM in
      let spad_col := col mod DIM in
      let spad_row := base_row_addr + row + block * load_block_stride in
      for_range 0 (Z.min pixels_per_row (spad_row + 1)) (fun pixel =>
        if acc then
          let dram_byte_addr :=
            u64 (dram_row_addr + col * (if (load_shrunk : bool) then sizeof_elem_t else sizeof_acc_t)) in
          value ← mvin_acc_value is_zeros load_shrunk load_scale dram_byte_addr;
          if accumulate then
            old ← acc_at (spad_row - pixel) (spad_col + pixel * cols);
            acc_put (spad_row - pixel) (spad_col + pixel * cols) (s32 (old + value))
          else acc_put (spad_row - pixel) (spad_col + pixel * cols) value
        else
          let dram_byte_addr := u64 (dram_row_addr + col * sizeof_elem_t) in
          value ← mvin_spad_value is_zeros load_scale dram_byte_addr;
          spad_put (spad_row - pixel) (spad_col + pixel * cols) value))).

(** The first loop over the columns of one row of [mvout]: the norm unit sees
    every block of the accumulator row. *)
Definition mvout_norm_row (norm_cmd : NormCmd) (base_row_addr cols i : Z) : M (machine mem) bool :=
  let block_stride := DIM in
  fold_list (fun should_write j =>
    let block := j / DIM in
    let spad_row := base_row_addr + block * block_stride + i in
    let len := if DIM <? cols - j then DIM else cols - j in
    let is_last := cols <=? j + DIM in
    let n_cmd := if is_last then norm_cmd else non_terminating_norm_cmd norm_cmd in
    acc ← get_gs accumulator;
    _ ← vec_at acc spad_row 0;
    apply_norm (vget acc spad_row <$> seqZ 0 len) n_cmd) true (steps 0 cols DIM).

(** The element [mvout] stores from the accumulator: pre-activation, scale,
    activation; the full-width store skips the last two. *)
Definition mvout_acc_elem (full : bool) (dram_row_addr j spad_row spad_col : Z) : M (machine mem) unit :=
  acc_value ← acc_at spad_row spad_col;
  acc_value ← apply_pre_activation_acc acc_value;
  s ← get_gs id;
  shifted ← of_option Undefined (acc_scale acc_value (acc_shift (st s)));
  let activated := apply_activation_acc s shifted in
  let sizeof_output := if full then sizeof_acc_t else sizeof_elem_t in
  let dram_byte_addr := u64 (dram_row_addr + j * sizeof_output) in
  if full then write_to_dram sizeof_acc_t dram_byte_addr acc_value
  else write_to_dram sizeof_elem_t dram_byte_addr activated.

(** [mvout] without pooling. *)
Definition mvout_plain (dram_addr sp_addr : Z) : M (machine mem) unit :=
  let acc := is_acc_addr sp_addr in
  let full := is_full sp_addr in
  let norm_cmd := norm_cmd_of_Z ((sp_addr ≫ 26) &ᵇ 7) in
  let base_row_addr := sp_addr &ᵇ 0x3FFFFFF in
  let cols := sp_cols sp_addr in
  let rows := sp_rows sp_addr in
  let block_stride := DIM in
  for_range 0 rows (fun i =>
    stride ← get_gs (fun s => store_stride (st s));
    let dram_row_addr := u64 (dram_addr + i * stride) in
    should_write ← mvout_norm_row norm_cmd base_row_addr cols i;
    when should_write
      (for_range 0 cols (fun j =>
         let block := j / DIM in
         let spad_col := j mod DIM in
         let spad_row := base_row_addr + block * block_stride + i in
         if acc then mvout_acc_elem full dram_row_addr j spad_row spad_col
         else
           let dram_byte_addr := u64 (dram_row_addr + j * sizeof_elem_t) in
           value ← spad_at spad_row spad_col;
           write_to_dram sizeof_elem_t dram_byte_addr value))).

(** One element of a pooling window; positions outside the image count as 0. *)
Definition pool_elem (acc : bool) (base_row_addr orow ocol poch : Z) : M (machine mem) Z :=
  s ← get_gs id;
  let orows := pool_orows (st s) in
  let ocols := pool_ocols (st s) in
  let row_addr := s32 (base_row_addr + orow * ocols + ocol) in
  if (orow <? 0) || (ocol <? 0) || (orows <=? orow) || (ocols <=? ocol) then mret 0
  else if acc then
    acc_value ← acc_at (u64 row_addr) poch;
    shifted ← of_option Undefined (acc_scale acc_value (acc_shift (st s)));
    mret (apply_activation_acc s shifted)
  else spad_at (u64 row_addr) poch.

(** [mvout] with max pooling; [sp_addr]'s row count is not used. *)
Definition mvout_pool (dram_addr sp_addr : Z) : M (machine mem) unit :=
  let acc := is_acc_addr sp_addr in
  let base_row_addr := sp_addr &ᵇ 0x3FFFFFF in
  let channels := sp_cols sp_addr in
  s ← get_gs id;
  let t := st s in
  for_range 0 (pool_porows t) (fun porow =>
    for_range 0 (pool_pocols t) (fun pocol =>
      for_range 0 channels (fun poch =>
        value ← fold_range 0 (pool_size t) (fun value wrow =>
          fold_range 0 (pool_size t) (fun value wcol =>
            let orow := porow * pool_stride t + wrow - pool_upad t in
            let ocol := pocol * pool_stride t + wcol - pool_lpad t in
            elem ← pool_elem acc base_row_addr orow ocol poch;
            mret (if value <? elem then elem else value)) value) elem_t_min;
        let dram_byte_addr :=
          u64 (dram_addr + (porow * pool_out_dim t + pocol) * store_stride t + poch * sizeof_elem_t) in
        write_to_dram sizeof_elem_t dram_byte_addr value))).

(** [gemmini_t::mvout] *)
Definition mvout (dram_addr sp_addr : Z) : M (machine mem) unit :=
  pool ← get_gs (fun s => pool_stride (st s));
  if pool =? 0 then mvout_plain dram_addr sp_addr else mvout_pool dram_addr sp_addr.
End move.
