(* ===== verification/MoveSpec.v ===== *)
(** * MoveSpec: what the move instructions do

    The functional specifications of [mvin] and [mvout]: which cells are
    written with which values, and that nothing else changes. *)

From S2P Require Import Prelude Effects Float32 Params State Dram Fill Scaling Norm Config Move.

(** ** Operands *)

Record block_ok (rows cols addr : Z) : Prop := {
  bk_rows : 0 <= rows < 2 ^ 16; bk_cols : 0 <= cols < 2 ^ 16; bk_addr : 0 <= addr < 2 ^ 32 }.

Lemma pack_block_sum rows cols addr : block_ok rows cols addr ->
  pack_block rows cols addr = rows * 2 ^ 48 + cols * 2 ^ 32 + addr.
Proof.
  intros [Hr Hc Ha]. unfold pack_block. rewrite <- Z.lor_assoc, (lor_shiftl_add cols) by lia.
  rewrite lor_shiftl_add by lia. rewrite wrap_u_id; [lia|]. unfold in_u. lia.
Qed.

(** The fields of a packed operand. *)
Section fields.
Context (rows cols addr : Z) (Hok : block_ok rows cols addr).

Lemma pack_rows : sp_rows (pack_block rows cols addr) = rows.
Proof. unfold sp_rows, addr_len, ADDR_LEN. rewrite pack_block_sum by done. destruct Hok. bitfield. Qed.
Lemma pack_cols : sp_cols (pack_block rows cols addr) = cols.
Proof. unfold sp_cols, addr_len, ADDR_LEN. rewrite pack_block_sum by done. destruct Hok. bitfield. Qed.
Lemma pack_low32 : pack_block rows cols addr &ᵇ 0xFFFFFFFF = addr.
Proof. rewrite pack_block_sum by done. destruct Hok. bitfield. Qed.
Lemma pack_low29 : pack_block rows cols addr &ᵇ 0x1FFFFFFF = addr &ᵇ 0x1FFFFFFF.
Proof. rewrite pack_block_sum by done. destruct Hok. bitfield. Qed.
Lemma pack_low26 : pack_block rows cols addr &ᵇ 0x3FFFFFF = addr &ᵇ 0x3FFFFFF.
Proof. rewrite pack_block_sum by done. destruct Hok. bitfield. Qed.
Lemma pack_acc : is_acc_addr (pack_block rows cols addr) = is_acc_addr addr.
Proof. unfold is_acc_addr. rewrite pack_block_sum by done. destruct Hok. do 2 f_equal. bitfield. Qed.
Lemma pack_accumulate : is_accumulate (pack_block rows cols addr) = is_accumulate addr.
Proof. unfold is_accumulate. rewrite pack_block_sum by done. destruct Hok. do 2 f_equal. bitfield. Qed.
Lemma pack_full : is_full (pack_block rows cols addr) = is_full addr.
Proof. unfold is_full. rewrite pack_block_sum by done. destruct Hok. do 2 f_equal. bitfield. Qed.
Lemma pack_norm_cmd : (pack_block rows cols addr ≫ 26) &ᵇ 7 = (addr ≫ 26) &ᵇ 7.
Proof. rewrite pack_block_sum by done. destruct Hok. bitfield. Qed.
End fields.

(** ** Addresses *)

Section addresses.
Context {mem : Type} `{Mmu mem}.

Lemma byte_at_u64 (d : mem) a i : byte_at d (u64 a + i) = byte_at d (a + i).
Proof. unfold byte_at. by rewrite wrap_u_add_l. Qed.

Lemma mem_int_u64 size (d : mem) a : mem_int size d (u64 a) = mem_int size d a.
Proof. unfold mem_int. f_equal. apply Zsum_ext. intros i _. by rewrite byte_at_u64. Qed.

Lemma mem_readable_u64 size (d : mem) a : mem_readable size d (u64 a) <-> mem_readable size d a.
Proof. unfold mem_readable. by setoid_rewrite wrap_u_add_l. Qed.

Lemma mem_writable_u64 size (d : mem) a : mem_writable size d (u64 a) <-> mem_writable size d a.
Proof. unfold mem_writable. by setoid_rewrite wrap_u_add_l. Qed.

Lemma span_u64 size a b : span size (u64 a) b <-> span size a b.
Proof. unfold span. by setoid_rewrite wrap_u_add_l. Qed.
End addresses.

(** Main-memory address of element [p] of a block, and its cell. *)
Definition dram_elem (addr stride size : Z) (p : Z * Z) : Z := addr + fst p * stride + snd p * size.
Definition block_cell (base block_stride : Z) (p : Z * Z) : Z * Z :=
  (base + fst p + snd p / DIM * block_stride, snd p mod DIM).

(** Different elements go to different cells when the blocks do not overlap. *)
Lemma block_cell_inj base bs rows cols p q :
  p ∈ pairs rows cols -> q ∈ pairs rows cols -> cols <= DIM \/ rows <= bs ->
  block_cell base bs p = block_cell base bs q -> p = q.
Proof.
  rewrite !elem_of_pairs. destruct p as [i j], q as [i' j']. unfold block_cell, DIM. simpl.
  intros [Hi Hj] [Hi' Hj'] Hs [= Hr Hc].
  assert (j / 16 = j' / 16) as Hb.
  { destruct Hs as [Hs|Hs]; [zlia|].
    assert (0 <= j / 16 /\ 0 <= j' / 16) by zlia.
    destruct (Z.lt_trichotomy (j / 16) (j' / 16)) as [?|[?|?]]; nia. }
  assert (j = j') as -> by zlia. f_equal. lia.
Qed.

(** The load configuration an instruction uses, for one pixel per row. *)
Record ld_entry (l : ld_regs) (id stride block_stride : Z) (shrunk : bool) (scale : float32) : Prop := {
  le_id : 0 <= id;
  le_stride : load_strides l !! Z.to_nat id = Some stride;
  le_block_stride : load_block_strides l !! Z.to_nat id = Some block_stride;
  le_shrunk : load_shrunks l !! Z.to_nat id = Some shrunk;
  le_scale : load_scales l !! Z.to_nat id = Some scale;
  le_pixels : pixels_per_rows l !! Z.to_nat id = Some 1 }.

(** The float scale is defined on every element value. *)
Definition scale_total (scale : float32) : Prop := forall x, in_s 8 x -> is_Some (mvin_scale x scale).

Lemma scale_total_identity : scale_total MVIN_SCALE_IDENTITY.
Proof. intros x Hx. rewrite mvin_scale_identity by done. by eexists. Qed.

Section mvin_spec.
Context {mem : Type} `{MmuLaws mem}.
Implicit Types (d : mem) (m : machine mem).

(** The value [mvin] brings in for element [p] of a block at [addr]. *)
Definition scaled_elem (d : mem) (addr stride : Z) (scale : float32) (p : Z * Z) : Z :=
  if addr =? 0 then 0 else default 0 (mvin_scale (mem_int 1 d (dram_elem addr stride 1 p)) scale).
Definition acc_elem (d : mem) (addr stride : Z) (shrunk : bool) (scale : float32) (p : Z * Z) : Z :=
  if shrunk then scaled_elem d addr stride scale p
  else if addr =? 0 then 0 else mem_int 4 d (dram_elem addr stride 4 p).

Definition block_readable (size rows cols : Z) (d : mem) (addr stride : Z) : Prop :=
  addr <> 0 -> forall p, p ∈ pairs rows cols -> mem_readable size d (dram_elem addr stride size p).

Definition block_in (v : vec2) (rows cols base block_stride : Z) : Prop :=
  forall p, p ∈ pairs rows cols -> in_shape v (fst (block_cell base block_stride p)) (snd (block_cell base block_stride p)) = true.

Lemma mem_int_range size d a : 1 <= size -> in_s (8 * size) (mem_int size d a).
Proof. intros. apply wrap_s_range. lia. Qed.

Lemma wp_mvin_spad_value addr stride scale p Q m :
  scale_total scale -> (addr <> 0 -> mem_readable 1 (dram m) (dram_elem addr stride 1 p)) ->
  Q (scaled_elem (dram m) addr stride scale p) m ->
  wp (mvin_spad_value (addr =? 0) scale (u64 (u64 (addr + fst p * stride) + snd p * 1))) Q m.
Proof.
  intros Hs Hr HQ. unfold mvin_spad_value, scaled_elem in *. destruct (Z.eqb_spec addr 0); [by apply wp_ret|].
  rewrite wrap_u_add_l. fold (dram_elem addr stride 1 p).
  apply wp_bind, wp_read_from_dram; [by unfold sizeof_elem_t|by apply mem_readable_u64, Hr|].
  rewrite mem_int_u64. destruct (Hs (mem_int 1 (dram m) (dram_elem addr stride 1 p))) as [v Hv].
  { by apply (mem_int_range 1). }
  eapply wp_of_option; [done|]. by rewrite Hv in HQ.
Qed.

Lemma wp_mvin_acc_value addr stride (shrunk : bool) scale p Q m :
  scale_total scale ->
  (addr <> 0 -> mem_readable (if shrunk then 1 else 4) (dram m) (dram_elem addr stride (if shrunk then 1 else 4) p)) ->
  Q (acc_elem (dram m) addr stride shrunk scale p) m ->
  wp (mvin_acc_value (addr =? 0) shrunk scale
       (u64 (u64 (addr + fst p * stride) + snd p * (if shrunk then sizeof_elem_t else sizeof_acc_t)))) Q m.
Proof.
  intros Hs Hr HQ. unfold acc_elem in HQ. destruct shrunk.
  - by apply (wp_mvin_spad_value addr stride scale p).
  - unfold mvin_acc_value. destruct (Z.eqb_spec addr 0); [by apply wp_ret|]. simpl.
    rewrite wrap_u_add_l. fold (dram_elem addr stride 4 p).
    apply wp_read_from_dram; [by unfold sizeof_acc_t|by apply mem_readable_u64, Hr|]. by rewrite mem_int_u64.
Qed.

(** One pixel per row: the innermost loop runs once. *)
Lemma for_one_pixel {S} spad_row (f : Z -> M S unit) Q s : 0 <= spad_row ->
  wp (f 0) Q s -> wp (for_range 0 (Z.min 1 (spad_row + 1)) f) Q s.
Proof.
  intros Hr Hf. rewrite Z.min_l by lia. unfold for_range. simpl. apply wp_bind.
  eapply wp_mono; [done|]. intros [] s' HQ. by apply wp_ret.
Qed.

Lemma div_DIM_nonneg a : 0 <= a -> 0 <= a / DIM.
Proof. unfold DIM. zlia. Qed.

(** [mvin] to the scratchpad, as a fill. *)
Lemma wp_mvin_spad addr id rows cols sp_addr stride bs shrunk scale Q m :
  block_ok rows cols sp_addr -> is_acc_addr sp_addr = false ->
  ld_entry (ld (gs m)) id stride bs shrunk scale -> 0 <= bs -> scale_total scale ->
  block_readable 1 rows cols (dram m) addr stride ->
  block_in (spad (gs m)) rows cols (sp_addr &ᵇ 0x1FFFFFFF) bs ->
  Q tt (set_vec spad_lens
    (fill (block_cell (sp_addr &ᵇ 0x1FFFFFFF) bs) (fun p _ => scaled_elem (dram m) addr stride scale p)
      (pairs rows cols) (spad (gs m))) m) ->
  wp (mvin addr (pack_block rows cols sp_addr) id) Q m.
Proof.
  intros Hok Hacc [] Hbs Hsc Hread Hin HQ. unfold mvin.
  rewrite pack_rows, pack_cols, pack_low29, pack_acc, Hacc by done. cbv zeta.
  apply wp_bind, wp_get_gs. do 5 (apply wp_bind; eapply wp_arr_get; [done..|]).
  apply wp_for_pairs. eapply (wp_fill spad_lens); [|exact HQ].
  intros p v Hp Hvr Hvc. pose proof (Hin p Hp) as Hinp.
  assert (0 <= sp_addr &ᵇ 0x1FFFFFFF) by (rewrite land_29; apply Z.mod_pos_bound; lia).
  apply elem_of_pairs in Hp as Hp'. pose proof (div_DIM_nonneg (snd p)).
  apply for_one_pixel; [nia|]. unfold sizeof_elem_t. apply wp_bind.
  apply (wp_mvin_spad_value addr stride scale p); [done| |].
  - intros Ha. by apply Hread.
  - rewrite !Z.sub_0_r, !Z.mul_0_l, !Z.add_0_r. apply wp_spad_put; simpl.
    + revert Hinp. unfold in_shape. by rewrite Hvr, Hvc.
    + by rewrite set_set_vec.
Qed.

(** [mvin] to the accumulator, overwriting or accumulating. *)
Lemma wp_mvin_acc addr id rows cols sp_addr stride bs shrunk scale Q m :
  block_ok rows cols sp_addr -> is_acc_addr sp_addr = true ->
  ld_entry (ld (gs m)) id stride bs shrunk scale -> 0 <= bs -> scale_total scale ->
  block_readable (if shrunk then 1 else 4) rows cols (dram m) addr stride ->
  block_in (accumulator (gs m)) rows cols (sp_addr &ᵇ 0x1FFFFFFF) bs ->
  Q tt (set_vec acc_lens
    (fill (block_cell (sp_addr &ᵇ 0x1FFFFFFF) bs)
      (fun p old => if is_accumulate sp_addr then s32 (old + acc_elem (dram m) addr stride shrunk scale p)
                    else acc_elem (dram m) addr stride shrunk scale p)
      (pairs rows cols) (accumulator (gs m))) m) ->
  wp (mvin addr (pack_block rows cols sp_addr) id) Q m.
Proof.
  intros Hok Hacc [] Hbs Hsc Hread Hin HQ. unfold mvin.
  rewrite pack_rows, pack_cols, pack_low29, pack_acc, pack_accumulate, Hacc by done. cbv zeta.
  apply wp_bind, wp_get_gs. do 5 (apply wp_bind; eapply wp_arr_get; [done..|]).
  apply wp_for_pairs. eapply (wp_fill acc_lens); [|exact HQ].
  intros p v Hp Hvr Hvc. pose proof (Hin p Hp) as Hinp.
  assert (0 <= sp_addr &ᵇ 0x1FFFFFFF) by (rewrite land_29; apply Z.mod_pos_bound; lia).
  apply elem_of_pairs in Hp as Hp'. pose proof (div_DIM_nonneg (snd p)).
  apply for_one_pixel; [nia|]. apply wp_bind.
  apply (wp_mvin_acc_value addr stride shrunk scale p); [done| |].
  - intros Ha. by apply Hread.
  - rewrite !Z.sub_0_r, !Z.mul_0_l, !Z.add_0_r.
    assert (in_shape v (fst (block_cell (sp_addr &ᵇ 0x1FFFFFFF) bs p)) (snd (block_cell (sp_addr &ᵇ 0x1FFFFFFF) bs p)) = true).
    { revert Hinp. unfold in_shape. by rewrite Hvr, Hvc. }
    destruct (is_accumulate sp_addr).
    + apply wp_bind, wp_acc_at; [done|]. apply wp_acc_put; [done|]. by rewrite set_set_vec.
    + apply wp_acc_put; [done|]. by rewrite set_set_vec.
Qed.
End mvin_spec.

(** ** Move-out *)

(** [apply_pre_activation_acc] as a function of the registers it reads. *)
Definition pre_activation (act : Activation) (n : norm_regs) (value : Z) : option Z :=
  match act with
  | IGELU => Some (apply_igelu value (igelu_qb n) (igelu_qc n))
  | LAYERNORM =>
      r ← get_stat n; f_to_int 32 (f32_mul (f32_of_Z (s32 (value - ns_mean r))) (ns_inv_stddev r))
  | SOFTMAX =>
      r ← get_stat n;
      e ← apply_iexp (s32 (value - ns_max r)) (igelu_qb n) (igelu_qc n) (qln2 n) (qln2_inv n);
      acc_scale e (ns_inv_sum_exp r)
  | _ => Some value
  end.

(** What [mvout] stores for an accumulator value. *)
Definition store_value (t : st_regs) (n : norm_regs) (full : bool) (value : Z) : option Z :=
  x ← pre_activation (acc_act t) n value;
  y ← acc_scale x (acc_shift t);
  Some (if full then x else apply_activation y (acc_act t)).

(** The two agree on everything a store reads. *)
Definition norm_same (n n' : norm_regs) : Prop :=
  igelu_qb n' = igelu_qb n /\ igelu_qc n' = igelu_qc n /\ qln2 n' = qln2 n /\ qln2_inv n' = qln2_inv n /\
  norm_stat_id n' = norm_stat_id n /\
  exists r r', get_stat n = Some r /\ get_stat n' = Some r' /\ ns_mean r' = ns_mean r /\ ns_max r' = ns_max r /\
    ns_inv_stddev r' = ns_inv_stddev r /\ ns_inv_sum_exp r' = ns_inv_sum_exp r.

Lemma norm_same_refl n : is_Some (get_stat n) -> norm_same n n.
Proof. intros [r Hr]. unfold norm_same. split_and!; [done..|]. by exists r, r. Qed.

Lemma norm_same_trans n1 n2 n3 : norm_same n1 n2 -> norm_same n2 n3 -> norm_same n1 n3.
Proof.
  intros (? & ? & ? & ? & ? & r1 & r2 & Hr1 & Hr2 & ? & ? & ? & ?)
         (? & ? & ? & ? & ? & r2' & r3 & Hr2' & Hr3 & ? & ? & ? & ?).
  rewrite Hr2 in Hr2'. simplify_eq. unfold norm_same. split_and!; [congruence..|].
  exists r1, r3. split_and!; congruence.
Qed.

Lemma get_set_stat n r r' : get_stat n = Some r -> get_stat (set_stat n r') = Some r'.
Proof.
  unfold get_stat. cbv zeta. intros Hr. repeat (apply bind_Some in Hr as (? & ?%lookup_lt_Some & Hr)).
  unfold set_stat. cbn -[insert lookup].
  rewrite !list_lookup_insert_eq by done. simpl. by destruct r'.
Qed.

(** A RESET command touches no statistic that a store reads. *)
Lemma norm_reset_same n x r : get_stat n = Some r ->
  exists r', norm_update n x RESET r = Some r' /\ norm_same n (set_stat n r').
Proof.
  intros Hr. exists ((norm_clear r) <| ns_reset := true |>). split; [reflexivity|].
  set (r' := (norm_clear r) <| ns_reset := true |>).
  unfold norm_same. split_and!; [done..|]. exists r, r'.
  split_and!; [done|by eapply get_set_stat|..]; unfold r', norm_clear; by destruct (ns_reset r).
Qed.

Lemma pre_activation_same act n n' v : norm_same n n' -> pre_activation act n' v = pre_activation act n v.
Proof.
  intros (Hb & Hc & Hl & Hi & _ & r & r' & Hr & Hr' & Hm & Hx & Hs & He). unfold pre_activation.
  rewrite Hr, Hr', Hb, Hc, Hl, Hi. unfold mbind, option_bind. by rewrite Hm, Hx, Hs, He.
Qed.

Lemma store_value_same t n n' full v : norm_same n n' -> store_value t n' full v = store_value t n full v.
Proof. intros Hn. unfold store_value. by rewrite (pre_activation_same _ _ _ _ Hn). Qed.

Section mvout_spec.
Context {mem : Type} `{MmuLaws mem}.
Implicit Types (d : mem) (m : machine mem).

Lemma wp_apply_pre_activation v x Q m :
  pre_activation (acc_act (st (gs m))) (nrm (gs m)) v = Some x -> Q x m -> wp (apply_pre_activation_acc v) Q m.
Proof.
  intros Hx HQ. unfold apply_pre_activation_acc. apply wp_bind, wp_get_gs. unfold id.
  destruct (acc_act (st (gs m))); cbn [pre_activation] in Hx.
  - simplify_eq. by apply wp_ret.
  - simplify_eq. by apply wp_ret.
  - apply bind_Some in Hx as (r & Hr & Hx). apply wp_bind. eapply wp_of_option; [done|]. by eapply wp_of_option.
  - simplify_eq. by apply wp_ret.
  - apply bind_Some in Hx as (r & Hr & Hx). apply bind_Some in Hx as (e & He & Hx).
    apply wp_bind. eapply wp_of_option; [done|]. apply wp_bind. eapply wp_of_option; [done|]. by eapply wp_of_option.
Qed.

(** The machine with other normalisation statistics. *)
Definition with_norm (n : norm_regs) (g : gemmini_state) : gemmini_state := g <| nrm := n |>.

(** The states of a store loop: only statistics that stores do not read move. *)
Definition store_inv (g : gemmini_state) (r : nat) (g' : gemmini_state) (r' : nat) : Prop :=
  r' = r /\ exists n', norm_same (nrm g) n' /\ g' = with_norm n' g.

Lemma wp_apply_norm x cmd r r' Q m :
  get_stat (nrm (gs m)) = Some r -> norm_update (nrm (gs m)) x cmd r = Some r' ->
  Q (bool_decide (cmd = RESET)) (Machine (with_norm (set_stat (nrm (gs m)) r') (gs m)) (dram m) (rand_pos m)) ->
  wp (apply_norm x cmd) Q m.
Proof.
  intros Hr Hu HQ. unfold apply_norm. apply wp_bind, wp_get_gs. apply wp_bind.
  apply (wp_of_option _ _ r); [exact Hr|]. apply wp_bind. apply (wp_of_option _ _ r'); [exact Hu|].
  by apply wp_bind, wp_upd_gs, wp_ret.
Qed.

Lemma wp_reset_norm_row base cols i Q m :
  is_Some (get_stat (nrm (gs m))) ->
  (forall j, 0 <= j < cols -> in_shape (accumulator (gs m)) (base + j / DIM * DIM + i) 0 = true) ->
  (forall n', norm_same (nrm (gs m)) n' -> Q true (Machine (with_norm n' (gs m)) (dram m) (rand_pos m))) ->
  wp (mvout_norm_row RESET base cols i) Q m.
Proof.
  intros Hst Hin HQ. unfold mvout_norm_row. cbv zeta.
  apply (wp_fold_list (fun _ b m' => b = true /\ exists n', norm_same (nrm (gs m)) n' /\
    m' = Machine (with_norm n' (gs m)) (dram m) (rand_pos m))).
  - split; [done|]. exists (nrm (gs m)). split; [by apply norm_same_refl|]. by destruct m as [[] ? ?].
  - intros k j b m' Hk [-> (n' & Hn & ->)]. simpl.
    assert (0 <= j < cols) as Hj.
    { unfold steps in Hk. apply list_lookup_fmap_Some in Hk as (k' & -> & [Hk' Hlt]%lookup_seqZ).
      pose proof (cdiv_spec (cols - 0) DIM ltac:(by unfold DIM)). unfold DIM in *. lia. }
    apply wp_bind, wp_get_gs, wp_bind, wp_vec_at; [by apply Hin|].
    assert (forall c : bool, (if c then RESET else RESET) = RESET) as -> by (by intros []).
    pose proof Hn as (_ & _ & _ & _ & _ & _ & r & _ & Hr & _).
    destruct (norm_reset_same n' (vget (accumulator (gs m)) (base + j / DIM * DIM + i) <$>
      seqZ 0 (if DIM <? cols - j then DIM else cols - j)) r Hr) as (r' & Hu & Hs).
    eapply (wp_apply_norm _ _ r r'); [exact Hr|exact Hu|]. split; [done|].
    exists (set_stat n' r'). split; [by eapply norm_same_trans|]. done.
  - intros b m' [-> (n' & Hn & ->)]. by apply HQ.
Qed.

(** [write_to_dram] in the form the store loops need. *)
Lemma wp_write_elem size a v Q m :
  1 <= size < 2 ^ 64 -> mem_writable size (dram m) a ->
  (forall d', mem_differ (span size a) (dram m) d' -> mem_int size d' a = wrap_s (8 * size) v ->
     Q tt (Machine (gs m) d' (rand_pos m))) ->
  wp (write_to_dram size (u64 a) v) Q m.
Proof.
  intros Hs Hw HQ. apply wp_write_to_dram; [lia|by apply mem_writable_u64|]. intros d' Hd Hb. apply HQ.
  - eapply mem_differ_weaken; [done|]. intros b. apply span_u64.
  - apply mem_int_written; [lia|]. intros i Hi. rewrite <- byte_at_u64. by apply Hb.
Qed.

(** What one element of a move-out stores: [None] when the code's behaviour is
    undefined. *)
Definition out_value (s : gemmini_state) (sp_addr : Z) (p : Z * Z) : option Z :=
  let cell := block_cell (sp_addr &ᵇ 0x3FFFFFF) DIM p in
  if is_acc_addr sp_addr
  then store_value (st s) (nrm s) (is_full sp_addr) (vget (accumulator s) (fst cell) (snd cell))
  else Some (vget (spad s) (fst cell) (snd cell)).

(** The size of a stored element. *)
Definition out_size (sp_addr : Z) : Z := if is_acc_addr sp_addr && is_full sp_addr then 4 else 1.

Lemma out_value_same s n' sp p : norm_same (nrm s) n' -> out_value (with_norm n' s) sp p = out_value s sp p.
Proof. intros Hn. unfold out_value. case_match; [|done]. by apply store_value_same. Qed.

(** One element of a move-out. *)
Lemma wp_mvout_elem addr stride sp_addr i j v Q m :
  let base := sp_addr &ᵇ 0x3FFFFFF in
  let elem := dram_elem addr stride (out_size sp_addr) (i, j) in
  let dram_row_addr := u64 (addr + i * stride) in
  out_value (gs m) sp_addr (i, j) = Some v ->
  in_shape (accumulator (gs m)) (base + i + j / DIM * DIM) (j mod DIM) = true ->
  (is_acc_addr sp_addr = false -> in_shape (spad (gs m)) (base + i + j / DIM * DIM) (j mod DIM) = true) ->
  mem_writable (out_size sp_addr) (dram m) elem ->
  (forall d', mem_differ (span (out_size sp_addr) elem) (dram m) d' ->
     mem_int (out_size sp_addr) d' elem = wrap_s (8 * out_size sp_addr) v ->
     Q tt (Machine (gs m) d' (rand_pos m))) ->
  wp (if is_acc_addr sp_addr
      then mvout_acc_elem (is_full sp_addr) dram_row_addr j (base + j / DIM * DIM + i) (j mod DIM)
      else value ← spad_at (base + j / DIM * DIM + i) (j mod DIM);
           write_to_dram sizeof_elem_t (u64 (dram_row_addr + j * sizeof_elem_t)) value) Q m.
Proof.
  intros base elem row Hv Hacc Hspad Hw HQ. unfold out_value, out_size in *. fold base in Hv.
  cbn [block_cell fst snd] in Hv.
  replace (base + j / DIM * DIM + i) with (base + i + j / DIM * DIM) by lia.
  unfold row, sizeof_elem_t. destruct (is_acc_addr sp_addr).
  - unfold mvout_acc_elem. apply wp_bind, wp_acc_at; [done|].
    unfold store_value in Hv. apply bind_Some in Hv as (x & Hx & Hv). apply bind_Some in Hv as (y & Hy & Hv).
    apply (inj Some) in Hv. subst v.
    apply wp_bind. eapply wp_apply_pre_activation; [exact Hx|].
    apply wp_bind, wp_get_gs, wp_bind. apply (wp_of_option _ _ y); [exact Hy|].
    cbv zeta. rewrite wrap_u_add_l. cbn [andb] in *. unfold sizeof_acc_t.
    destruct (is_full sp_addr); by apply wp_write_elem.
  - apply wp_bind, wp_spad_at; [by apply Hspad|]. rewrite wrap_u_add_l. cbn [andb] in *. apply (inj Some) in Hv. subst v.
    by apply wp_write_elem.
Qed.

(** [mvout] without pooling and without a normalisation command. *)
Lemma wp_mvout addr rows cols sp_addr Q m :
  let base := sp_addr &ᵇ 0x3FFFFFF in
  let elem := dram_elem addr (store_stride (st (gs m))) (out_size sp_addr) in
  block_ok rows cols sp_addr -> pool_stride (st (gs m)) = 0 -> (sp_addr ≫ 26) &ᵇ 7 = 0 ->
  is_Some (get_stat (nrm (gs m))) ->
  block_in (accumulator (gs m)) rows cols base DIM ->
  (is_acc_addr sp_addr = false -> block_in (spad (gs m)) rows cols base DIM) ->
  (forall p, p ∈ pairs rows cols -> is_Some (out_value (gs m) sp_addr p)) ->
  elems_disjoint (out_size sp_addr) rows cols elem ->
  (forall p, p ∈ pairs rows cols -> mem_writable (out_size sp_addr) (dram m) (elem p)) ->
  (forall m', store_inv (gs m) (rand_pos m) (gs m') (rand_pos m') ->
     store_post (out_size sp_addr) elem (fun p => default 0 (out_value (gs m) sp_addr p)) (pairs rows cols)
       (dram m) (dram m') -> Q tt m') ->
  wp (mvout addr (pack_block rows cols sp_addr)) Q m.
Proof.
  intros base elem Hok Hpool Hcmd Hst Hacc Hspad Hval Hdis Hw HQ.
  set (val := fun p => default 0 (out_value (gs m) sp_addr p)) in *.
  unfold mvout. apply wp_bind, wp_get_gs. rewrite Hpool. simpl. unfold mvout_plain.
  rewrite pack_rows, pack_cols, pack_low26, pack_acc, pack_full, pack_norm_cmd, Hcmd by done. cbv zeta.
  change (norm_cmd_of_Z 0) with RESET. fold base.
  apply (wp_for_range (fun i m' => store_inv (gs m) (rand_pos m) (gs m') (rand_pos m') /\
    store_post (out_size sp_addr) elem val (pairs i cols) (dram m) (dram m'))).
  - split; [|apply store_post_nil]. split; [done|]. exists (nrm (gs m)). split; [by apply norm_same_refl|].
    by destruct m as [[] ? ?].
  - intros i [g d r] Hi [Hinv Hpost]. simpl in Hinv, Hpost. destruct Hinv as [-> (n' & Hn & ->)].
    apply wp_bind, wp_get_gs. change (store_stride (st (gs (Machine (with_norm n' (gs m)) d (rand_pos m)))))
      with (store_stride (st (gs m))).
    apply wp_bind. apply wp_reset_norm_row.
    { destruct Hn as (_ & _ & _ & _ & _ & _ & r' & _ & Hr' & _). by eexists. }
    { intros j Hj. specialize (Hacc (i, j)). rewrite elem_of_pairs in Hacc. specialize (Hacc ltac:(simpl; lia)).
      clear - Hacc Hj. apply in_shape_spec in Hacc. apply in_shape_spec.
      change (accumulator (gs (Machine (with_norm n' (gs m)) d (rand_pos m)))) with (accumulator (gs m)).
      cbn [fst snd block_cell] in Hacc. unfold DIM in *. zlia. }
    intros n'' Hn''. cbn [gs dram rand_pos] in *. apply wp_when; [intros _|done].
    unfold for_range. rewrite Z.sub_0_r.
    assert (forall j, j ∈ seqZ 0 cols -> (i, j) ∈ pairs rows cols) as Hpair.
    { intros j Hj%elem_of_seqZ. apply elem_of_pairs. simpl. lia. }
    apply (wp_store (out_size sp_addr) (fun j => elem (i, j)) (fun j => val (i, j)) _
             (store_inv (gs m) (rand_pos m))).
    + unfold out_size. case_match; lia.
    + apply NoDup_seqZ.
    + intros j j' b Hj Hj' Hb Hb'. pose proof (Hdis (i, j) (i, j') b (Hpair _ Hj) (Hpair _ Hj') Hb Hb'). congruence.
    + intros j Hj. eapply mem_writable_differ; [apply Hpost|]. by apply Hw, Hpair.
    + split; [done|]. exists n''. split; [by eapply norm_same_trans|done].
    + intros j [g' d' r'] Hj Hinv' Hd' Hw'. cbn [gs dram rand_pos] in Hinv', Hd', Hw' |- *.
      destruct Hinv' as [-> (n3 & Hn3 & ->)].
      destruct (Hval (i, j) (Hpair _ Hj)) as [v Hv].
      assert (val (i, j) = v) as -> by (unfold val; by rewrite Hv).
      rewrite <- (out_value_same _ n3) in Hv by done.
      assert (block_cell base DIM (i, j) = (base + i + j / DIM * DIM, j mod DIM)) as Hcell by done.
      cbv beta. apply (wp_mvout_elem addr (store_stride (st (gs m))) sp_addr i j v); [exact Hv|..].
      * by apply (Hacc (i, j) (Hpair _ Hj)).
      * intros Ha. by apply (Hspad Ha (i, j) (Hpair _ Hj)).
      * done.
      * intros d2 Hd2 Hv2. split_and!; [|exact Hd2|exact Hv2]. split; [done|]. by exists n3.
    + intros m' Hinv' Hpost'. split; [done|]. rewrite pairs_S by lia.
      eapply store_post_app; [|exact Hpost|by apply store_post_fmap].
      intros p q b Hp (j & -> & Hj)%list_elem_of_fmap Hb Hb'.
      apply elem_of_pairs in Hp as Hp'. pose proof (Hdis p (i, j) b) as Heq. rewrite !elem_of_pairs in Heq.
      apply elem_of_seqZ in Hj. specialize (Heq ltac:(simpl; lia) ltac:(simpl; lia) Hb Hb'). subst p. cbn [fst snd] in Hp'. lia.
  - intros m' [Hinv Hpost]. rewrite Z.max_r in Hpost by (destruct Hok; lia). by apply HQ.
Qed.
End mvout_spec.

(** ** The move instructions *)

Section move_claims.
Context {mem : Type} `{MmuLaws mem}.
Implicit Types (d : mem) (m : machine mem).

(** The vector of [L] holds [val p] in [cell p] for every element of the block
    and is otherwise as before; nothing but this vector has changed. *)
Definition block_loaded (L : vlens) (rows cols : Z) (cell : Z * Z -> Z * Z) (val : Z * Z -> Z) (m m' : machine mem) : Prop :=
  (forall p, p ∈ pairs rows cols -> vget (get_vec L m') (fst (cell p)) (snd (cell p)) = val p) /\
  (forall r c, (forall p, p ∈ pairs rows cols -> cell p <> (r, c)) ->
     vget (get_vec L m') r c = vget (get_vec L m) r c) /\
  m' = set_vec L (get_vec L m') m.

Lemma block_loaded_fill L rows cols base bs (val : Z * Z -> Z -> Z) m :
  cols <= DIM \/ rows <= bs ->
  block_loaded L rows cols (block_cell base bs)
    (fun p => val p (vget (get_vec L m) (fst (block_cell base bs p)) (snd (block_cell base bs p)))) m
    (set_vec L (fill (block_cell base bs) val (pairs rows cols) (get_vec L m)) m).
Proof.
  intros Hs. unfold block_loaded. rewrite get_set_vec. split_and!.
  - intros p Hp. apply vget_fill_in; [apply NoDup_pairs| |done]. intros q Hq. by eapply block_cell_inj.
  - intros r c Hrc. by apply vget_fill_out.
  - done.
Qed.

(** C20: [mvin] to the scratchpad.  For a block of [rows] x [cols] elements (several
    [DIM]-wide blocks side by side when [cols] exceeds [DIM], each
    [block_stride] rows further on), with the load state's stride and scale and
    one pixel per row, a run on readable memory and an in-range block ends
    without fault; cell [base + row + (col/DIM)*block_stride, col mod DIM] holds the
    scaled and saturated element at [dram_addr + row*stride + col] (0 when
    [dram_addr] is 0), every other cell and the rest of the machine are unchanged. *)
Theorem mvin_loads_scratchpad addr id rows cols sp_addr stride bs shrunk scale m :
  block_ok rows cols sp_addr -> is_acc_addr sp_addr = false ->
  ld_entry (ld (gs m)) id stride bs shrunk scale -> 0 <= bs -> scale_total scale ->
  cols <= DIM \/ rows <= bs ->
  block_readable 1 rows cols (dram m) addr stride ->
  block_in (spad (gs m)) rows cols (sp_addr &ᵇ 0x1FFFFFFF) bs ->
  wp (mvin addr (pack_block rows cols sp_addr) id)
    (fun _ => block_loaded spad_lens rows cols (block_cell (sp_addr &ᵇ 0x1FFFFFFF) bs)
       (scaled_elem (dram m) addr stride scale) m) m.
Proof.
  intros. eapply wp_mvin_spad; [eassumption..|]. by eapply (block_loaded_fill spad_lens _ _ _ _ (fun p _ => _)).
Qed.

(** [mvin] to the accumulator.  As for the scratchpad, with 32-bit elements
    unless the load state shrinks them; when the accumulate bit of the operand
    is set the element is added (modulo [2^32]) to what the cell held. *)
Theorem mvin_loads_accumulator addr id rows cols sp_addr stride bs shrunk scale m :
  let base := sp_addr &ᵇ 0x1FFFFFFF in
  block_ok rows cols sp_addr -> is_acc_addr sp_addr = true ->
  ld_entry (ld (gs m)) id stride bs shrunk scale -> 0 <= bs -> scale_total scale ->
  cols <= DIM \/ rows <= bs ->
  block_readable (if shrunk then 1 else 4) rows cols (dram m) addr stride ->
  block_in (accumulator (gs m)) rows cols base bs ->
  wp (mvin addr (pack_block rows cols sp_addr) id)
    (fun _ => block_loaded acc_lens rows cols (block_cell base bs)
       (fun p => let old := vget (accumulator (gs m)) (fst (block_cell base bs p)) (snd (block_cell base bs p)) in
                 let new := acc_elem (dram m) addr stride shrunk scale p in
                 if is_accumulate sp_addr then s32 (old + new) else new) m) m.
Proof.
  intros. eapply wp_mvin_acc; [eassumption..|].
  by eapply (block_loaded_fill acc_lens _ _ _ _
    (fun p old => if is_accumulate sp_addr then s32 (old + acc_elem (dram m) addr stride shrunk scale p)
                  else acc_elem (dram m) addr stride shrunk scale p)).
Qed.

(** C21: [mvout] without pooling and with norm command RESET.  A run whose rows
    are in range and whose destination is writable and not self-overlapping ends
    without fault; main memory then holds at [dram_addr + row*store_stride +
    col*size] the scratchpad element, or the accumulator element after
    pre-activation, scaling and activation (before scaling, 32 bits wide, for a
    full-width store); no other byte changes, and of the accelerator state only
    normalisation statistics that no store reads. *)
Theorem mvout_stores_block addr rows cols sp_addr m :
  let base := sp_addr &ᵇ 0x3FFFFFF in
  let size := out_size sp_addr in
  let elem := dram_elem addr (store_stride (st (gs m))) size in
  block_ok rows cols sp_addr -> pool_stride (st (gs m)) = 0 -> (sp_addr ≫ 26) &ᵇ 7 = 0 ->
  is_Some (get_stat (nrm (gs m))) ->
  block_in (accumulator (gs m)) rows cols base DIM ->
  (is_acc_addr sp_addr = false -> block_in (spad (gs m)) rows cols base DIM) ->
  (forall p, p ∈ pairs rows cols -> is_Some (out_value (gs m) sp_addr p)) ->
  cols * size <= store_stride (st (gs m)) -> rows * store_stride (st (gs m)) <= 2 ^ 64 ->
  (forall p, p ∈ pairs rows cols -> mem_writable size (dram m) (elem p)) ->
  wp (mvout addr (pack_block rows cols sp_addr))
    (fun _ m' =>
       (forall p, p ∈ pairs rows cols ->
          mem_int size (dram m') (elem p) = wrap_s (8 * size) (default 0 (out_value (gs m) sp_addr p))) /\
       mem_differ (stored size elem (pairs rows cols)) (dram m) (dram m') /\
       store_inv (gs m) (rand_pos m) (gs m') (rand_pos m')) m.
Proof.
  intros base size elem Hok Hp Hc Hs Ha Hsp Hv Hst Htot Hw. eapply wp_mvout; try done.
  - apply row_major_disjoint; [|done|done]. unfold out_size. case_match; lia.
  - by intros m' Hinv [Hd Hm].
Qed.

(** C30: an [mvout] from a scratchpad row at or above the number of accumulator rows
    faults with [std::out_of_range] before it stores anything: the norm pass
    reads the accumulator row of the same number whatever the source is. *)
Theorem mvout_high_scratchpad_row_faults addr rows cols sp_addr m :
  block_ok rows cols sp_addr -> pool_stride (st (gs m)) = 0 -> 1 <= rows -> 1 <= cols ->
  is_acc_addr sp_addr = false -> v_rows (accumulator (gs m)) <= sp_addr &ᵇ 0x3FFFFFF ->
  mvout addr (pack_block rows cols sp_addr) m = (Fault OutOfRange, m).
Proof.
  intros Hok Hp Hr Hc Hsp Hbase. unfold mvout, get_gs, gets, mbind, M_bind. rewrite Hp. cbn [Z.eqb].
  unfold mvout_plain. rewrite pack_rows, pack_cols, pack_low26 by done. cbv zeta.
  unfold for_range. replace (rows - 0) with rows by lia. rewrite (seqZ_cons 0 rows) by lia. cbn [for_list].
  unfold get_gs, gets, mbind, M_bind, mvout_norm_row. cbv zeta.
  assert (steps 0 cols DIM = 0 :: ((fun k => 0 + k * DIM) <$> seqZ 1 (cdiv cols DIM - 1))) as ->.
  { unfold steps. rewrite Z.sub_0_r, seqZ_cons; [done|]. apply cdiv_ge; unfold DIM; lia. }
  cbn [fold_list]. unfold vec_at, check, get_gs, gets, mbind, M_bind.
  change (0 / DIM * DIM) with 0. rewrite !Z.add_0_r.
  assert (in_shape (accumulator (gs m)) (sp_addr &ᵇ 0x3FFFFFF) 0 = false) as ->; [|done].
  apply not_true_is_false. rewrite in_shape_spec. lia.
Qed.

(** C22: round trip through the scratchpad.  Moving a block in with unit scale and
    out again copies it: every element of the destination equals the signed
    byte at the same position of the source, and no other byte of main memory
    changes. *)
Theorem move_round_trip src dst id rows cols row stride shrunk m :
  let sstride := store_stride (st (gs m)) in
  block_ok rows cols row -> row < 2 ^ 26 -> src <> 0 ->
  ld_entry (ld (gs m)) id stride DIM shrunk MVIN_SCALE_IDENTITY -> cols <= DIM \/ rows <= DIM ->
  pool_stride (st (gs m)) = 0 -> is_Some (get_stat (nrm (gs m))) ->
  block_in (spad (gs m)) rows cols row DIM -> block_in (accumulator (gs m)) rows cols row DIM ->
  block_readable 1 rows cols (dram m) src stride ->
  cols <= sstride -> rows * sstride <= 2 ^ 64 ->
  (forall p, p ∈ pairs rows cols -> mem_writable 1 (dram m) (dram_elem dst sstride 1 p)) ->
  wp (mvin src (pack_block rows cols row) id ;; mvout dst (pack_block rows cols row))
    (fun _ m' =>
       (forall p, p ∈ pairs rows cols ->
          mem_int 1 (dram m') (dram_elem dst sstride 1 p) = mem_int 1 (dram m) (dram_elem src stride 1 p)) /\
       mem_differ (stored 1 (dram_elem dst sstride 1) (pairs rows cols)) (dram m) (dram m')) m.
Proof.
  intros sstride Hok Hlow Hsrc Hld Hshape Hpool Hstat Hspad Hacc Hread Hst Htot Hw.
  assert (is_acc_addr row = false) as Hna by (unfold is_acc_addr; destruct Hok; bitfield).
  assert (row &ᵇ 0x1FFFFFFF = row) as H29 by (destruct Hok; bitfield).
  assert (row &ᵇ 0x3FFFFFF = row) as H26 by (destruct Hok; bitfield).
  assert (out_size row = 1) as Hsize by (unfold out_size; by rewrite Hna).
  apply wp_bind. eapply wp_mvin_spad; rewrite ?H29; [done|done|done|by unfold DIM|apply scale_total_identity|done|done|].
  set (v := fill _ _ _ _). set (m1 := set_vec spad_lens v m).
  assert (forall p, p ∈ pairs rows cols -> out_value (gs m1) row p = Some (mem_int 1 (dram m) (dram_elem src stride 1 p)))
    as Hval.
  { intros p Hp. unfold out_value. rewrite Hna, H26. f_equal. change (spad (gs m1)) with v. unfold v.
    rewrite vget_fill_in; [|apply NoDup_pairs|intros q Hq; by eapply block_cell_inj|done].
    unfold scaled_elem. rewrite (proj2 (Z.eqb_neq src 0) Hsrc).
    by rewrite mvin_scale_identity by (by apply (mem_int_range 1)). }
  apply wp_mvout; rewrite ?Hsize, ?H26; try done.
  - unfold is_acc_addr in Hna. destruct Hok. bitfield.
  - intros _ p Hp. specialize (Hspad p Hp). revert Hspad. unfold in_shape. change (spad (gs m1)) with v.
    unfold v. by rewrite fill_rows, fill_cols.
  - intros p Hp. rewrite Hval by done. by eexists.
  - apply row_major_disjoint; [lia| |done]. by rewrite Z.mul_1_r.
  - intros m' _ [Hd Hm]. split; [|done]. intros p Hp. rewrite Hm, Hval by done. simpl default.
    apply wrap_s_id; [lia|]. by apply (mem_int_range 1).
Qed.
End move_claims.

(** ** Concrete machines for the witnesses *)

Lemma flat_fill_mapped base bytes m a :
  base <= a < base + Z.of_nat (length bytes) -> is_Some (flat_bytes (flat_fill base bytes m) !! a).
Proof.
  intros Ha. unfold flat_fill. simpl.
  destruct (lookup_lt_is_Some_2 bytes (Z.to_nat (a - base))) as [v Hv]; [lia|].
  exists v. apply lookup_union_Some_l, elem_of_list_to_map_1.
  - rewrite fst_zip by (rewrite length_seqZ; lia). apply NoDup_seqZ.
  - apply elem_of_lookup_zip_with. exists (Z.to_nat (a - base)), a, v. split_and!; [done| |done].
    apply lookup_seqZ. lia.
Qed.

Lemma flat_mem_readable base bytes m size a :
  0 <= base -> base + Z.of_nat (length bytes) <= 2 ^ 64 ->
  base <= a -> a + size <= base + Z.of_nat (length bytes) ->
  mem_readable size (flat_fill base bytes m) a.
Proof.
  intros H0 H1 H2 H3 i Hi. unfold readable. rewrite wrap_u_id by (unfold in_u; lia).
  destruct (flat_fill_mapped base bytes m (a + i)) as [v Hv]; [lia|].
  exists (v mod 256). unfold load_uint8, flat_mmu. by rewrite Hv.
Qed.

Lemma flat_mem_writable base bytes m size a :
  0 <= base -> base + Z.of_nat (length bytes) <= 2 ^ 64 ->
  base <= a -> a + size <= base + Z.of_nat (length bytes) ->
  mem_writable size (flat_fill base bytes m) a.
Proof.
  intros H0 H1 H2 H3 i Hi. rewrite wrap_u_id by (unfold in_u; lia). apply flat_writable, flat_fill_mapped. lia.
Qed.

(** A machine after reset, with 256 bytes of memory at 0x1000, rows of 16
    bytes, unit scales. *)
Definition demo_state : gemmini_state :=
  (state_reset state_zero)
    <| ld := Build_ld_regs [16; 16; 64] [16; 16; 16] [false; false; false] [f32_one; f32_one; f32_one] [1; 1; 1] |>
    <| st := Build_st_regs 16 NONE f32_one 0 0 0 0 0 0 0 0 0 |>.
Definition demo_mem : flat_mem := flat_fill 0x1000 (seqZ 0 256) flat_empty.
Definition demo : machine flat_mem := Machine demo_state demo_mem 0.

Lemma demo_entry id : 0 <= id <= 1 -> ld_entry (ld (gs demo)) id 16 16 false MVIN_SCALE_IDENTITY.
Proof.
  intros Hid. assert (id = 0 \/ id = 1) as [-> | ->] by lia; by split.
Qed.

Lemma demo_entry_acc : ld_entry (ld (gs demo)) 2 64 16 false MVIN_SCALE_IDENTITY.
Proof. by split. Qed.

Lemma demo_shapes :
  v_rows (spad (gs demo)) = 16384 /\ v_cols (spad (gs demo)) = 16 /\
  v_rows (accumulator (gs demo)) = 1024 /\ v_cols (accumulator (gs demo)) = 16.
Proof. by vm_compute. Qed.

(** A small block lies inside a memory of [demo]. *)
Ltac demo_in :=
  intros p Hp%elem_of_pairs; destruct p as [i j]; destruct demo_shapes as (E1 & E2 & E3 & E4);
  apply in_shape_spec; rewrite ?E1, ?E2, ?E3, ?E4; unfold block_cell, DIM; cbn [fst snd] in *;
  repeat match goal with |- context [?a &ᵇ ?b] =>
    let v := eval vm_compute in (a &ᵇ b) in change (a &ᵇ b) with v end; zlia.

Ltac pairs_solve := intros p Hp%elem_of_pairs; destruct p as [i j]; cbn [fst snd] in *.

Lemma mvin_loads_scratchpad_witness :
  wp (mvin 0x1010 (pack_block 2 3 5) 0)
    (fun _ => block_loaded spad_lens 2 3 (block_cell 5 16)
       (scaled_elem (dram demo) 0x1010 16 MVIN_SCALE_IDENTITY) demo) demo.
Proof.
  apply (mvin_loads_scratchpad 0x1010 0 2 3 5 16 16 false MVIN_SCALE_IDENTITY demo).
  - split; lia.
  - reflexivity.
  - apply demo_entry. lia.
  - lia.
  - apply scale_total_identity.
  - left. unfold DIM. lia.
  - intros _. pairs_solve. unfold dram_elem. cbn [fst snd]. apply flat_mem_readable; simpl; lia.
  - demo_in.
Defined.

Lemma mvin_loads_accumulator_witness :
  let base := 0xC0000005 &ᵇ 0x1FFFFFFF in
  wp (mvin 0x1000 (pack_block 2 3 0xC0000005) 2)
    (fun _ => block_loaded acc_lens 2 3 (block_cell base 16)
       (fun p => let old := vget (accumulator (gs demo)) (fst (block_cell base 16 p)) (snd (block_cell base 16 p)) in
                 let new := acc_elem (dram demo) 0x1000 64 false MVIN_SCALE_IDENTITY p in
                 if is_accumulate 0xC0000005 then s32 (old + new) else new) demo) demo.
Proof.
  apply (mvin_loads_accumulator 0x1000 2 2 3 0xC0000005 64 16 false MVIN_SCALE_IDENTITY demo).
  - split; lia.
  - reflexivity.
  - apply demo_entry_acc.
  - lia.
  - apply scale_total_identity.
  - left. unfold DIM. lia.
  - intros _. pairs_solve. unfold dram_elem. cbn [fst snd]. apply flat_mem_readable; simpl; lia.
  - demo_in.
Defined.

Lemma mvout_stores_block_witness :
  wp (mvout 0x1000 (pack_block 2 3 7))
    (fun _ m' =>
       (forall p, p ∈ pairs 2 3 ->
          mem_int 1 (dram m') (dram_elem 0x1000 16 1 p) = wrap_s 8 (default 0 (out_value (gs demo) 7 p))) /\
       mem_differ (stored 1 (dram_elem 0x1000 16 1) (pairs 2 3)) (dram demo) (dram m') /\
       store_inv (gs demo) (rand_pos demo) (gs m') (rand_pos m')) demo.
Proof.
  apply (mvout_stores_block 0x1000 2 3 7 demo); try reflexivity.
  - split; lia.
  - eexists. reflexivity.
  - demo_in.
  - intros _. demo_in.
  - intros p _. eexists. reflexivity.
  - vm_compute. discriminate.
  - vm_compute. discriminate.
  - change (store_stride (st (gs demo))) with 16. change (out_size 7) with 1.
    pairs_solve. unfold dram_elem. cbn [fst snd]. apply flat_mem_writable; simpl; lia.
Defined.

Lemma mvout_high_scratchpad_row_faults_witness :
  mvout 0x1000 (pack_block 2 3 1024) demo = (Fault OutOfRange, demo).
Proof.
  apply (mvout_high_scratchpad_row_faults 0x1000 2 3 1024 demo); try reflexivity; try lia.
  split; lia.
Defined.

Lemma move_round_trip_witness :
  wp (mvin 0x1000 (pack_block 2 3 7) 0 ;; mvout 0x1080 (pack_block 2 3 7))
    (fun _ m' =>
       (forall p, p ∈ pairs 2 3 ->
          mem_int 1 (dram m') (dram_elem 0x1080 16 1 p) = mem_int 1 (dram demo) (dram_elem 0x1000 16 1 p)) /\
       mem_differ (stored 1 (dram_elem 0x1080 16 1) (pairs 2 3)) (dram demo) (dram m')) demo.
Proof.
  apply (move_round_trip 0x1000 0x1080 0 2 3 7 16 false demo); try reflexivity; try lia.
  - split; lia.
  - apply demo_entry. lia.
  - left. unfold DIM. lia.
  - eexists. reflexivity.
  - demo_in.
  - demo_in.
  - intros _. pairs_solve. unfold dram_elem. cbn [fst snd]. apply flat_mem_readable; simpl; lia.
  - change (store_stride (st (gs demo))) with 16. lia.
  - change (store_stride (st (gs demo))) with 16. lia.
  - change (store_stride (st (gs demo))) with 16.
    pairs_solve. unfold dram_elem. cbn [fst snd]. apply flat_mem_writable; simpl; lia.
Defined.
