(* ===== verification/Compute.v ===== *)
(** * Compute: the systolic array

    [gemmini_t::compute] of gemmini.cc: preload of the processing elements,
    the bias, the multiply-accumulate loops for both dataflows and the
    write-back to the accumulator or the scratchpad. *)

From S2P Require Import Prelude Effects Float32 Params State Scaling Move.

(** [~addr == 0] for a 32-bit address. *)
Definition is_garbage (addr : Z) : bool := addr =? GARBAGE_ADDR.

Section compute.
Context {mem : Type}.

(** The loops under [if (preload)]. *)
Definition compute_preload : M (machine mem) unit :=
  s ← get_gs id;
  let p := pre s in
  for_range 0 DIM (fun i =>
    for_range 0 DIM (fun j =>
      when (negb (is_garbage (preload_sp_addr p)))
        (check ((preload_sp_addr p ≫ 30) &ᵇ 3 =? 0) AssertFailed) ;;
      let preload_transpose := bool_decide (mode (ex s) = WS) && b_transpose (ex s) in
      let r := if preload_transpose then j else i in
      let c := if preload_transpose then i else j in
      if (i <? preload_rows p) && (j <? preload_cols p) then
        preload_value ← (if is_garbage (preload_sp_addr p) then mret 0
                         else spad_at (preload_sp_addr p + r) c);
        pe_put i j preload_value
      else pe_put i j 0)).

(** The results array, seeded with the bias matrix. *)
Definition compute_bias (bd_addr_real bd_rows bd_cols : Z) : M (machine mem) vec2 :=
  fold_range 0 DIM (fun results i =>
    fold_range 0 DIM (fun results j =>
      if (i <? bd_rows) && (j <? bd_cols) then
        v ← (if is_garbage bd_addr_real then mret 0 else spad_at (bd_addr_real + i) j);
        vec_put results i j v
      else vec_put results i j 0) results) (vec2_zeros DIM DIM).

(** The operands of one multiply-accumulate.  [a] is left uninitialised by
    the source when the A operand is the garbage address. *)
Definition compute_a (a_addr_real a_rows a_cols i k : Z) : M (machine mem) Z :=
  s ← get_gs id;
  if is_garbage a_addr_real then fail Undefined
  else
    let r := a_stride (ex s) * (if a_transpose (ex s) then k else i) in
    let c := if a_transpose (ex s) then i else k in
    if (i <? a_rows) && (k <? a_cols) then spad_at (a_addr_real + r) c else mret 0.

Definition compute_b (bd_addr_real bd_rows bd_cols j k : Z) : M (machine mem) Z :=
  s ← get_gs id;
  if is_garbage bd_addr_real then mret 0
  else
    let r := if b_transpose (ex s) then j else k in
    let c := if b_transpose (ex s) then k else j in
    if (k <? bd_rows) && (j <? bd_cols) then spad_at (bd_addr_real + r) c else mret 0.

(** The multiply-accumulate loops: weight-stationary accumulates into the
    results array, output-stationary into the processing elements. *)
Definition compute_mac (a_addr_real a_rows a_cols bd_addr_real bd_rows bd_cols : Z) (results : vec2)
  : M (machine mem) vec2 :=
  fold_range 0 DIM (fun results i =>
    fold_range 0 DIM (fun results j =>
      fold_range 0 DIM (fun results k =>
        a ← compute_a a_addr_real a_rows a_cols i k;
        m ← get_gs (fun s => mode (ex s));
        if bool_decide (m = WS) then
          w ← pe_at k j;
          old ← vec_at results i j;
          vec_put results i j (s32 (old + s32 (a * w)))
        else
          b ← compute_b bd_addr_real bd_rows bd_cols j k;
          old ← pe_at i j;
          pe_put i j (s32 (old + s32 (a * b))) ;;
          mret results) results) results) results.

(** The write-back loops. *)
Definition compute_write (results : vec2) : M (machine mem) unit :=
  s ← get_gs id;
  let p := pre s in
  let x := ex s in
  when (negb (is_garbage (output_sp_addr p)))
    (let acc := is_acc_addr (output_sp_addr p) in
     let acc_accum := is_accumulate (output_sp_addr p) in
     let base_sp_addr := output_sp_addr p &ᵇ 0x1FFFFFFF in
     for_range 0 (output_rows p) (fun i =>
       for_range 0 (output_cols p) (fun j =>
         value ← (if bool_decide (mode x = OS) then pe_at i j else vec_at results i j);
         if acc then
           if acc_accum then
             old ← acc_at (base_sp_addr + c_stride x * i) j;
             acc_put (base_sp_addr + c_stride x * i) j (s32 (old + value))
           else acc_put (base_sp_addr + c_stride x * i) j value
         else
           let shifted := if bool_decide (mode x = OS) then sys_shift value (sys_shift_reg x)
                          else sys_shift value 0 in
           let activated := apply_activation_sys s shifted in
           spad_put (base_sp_addr + c_stride x * i) j activated))).

(** [gemmini_t::compute] *)
Definition compute (a_addr bd_addr : Z) (preload : bool) : M (machine mem) unit :=
  let a_addr_real := a_addr &ᵇ 0xFFFFFFFF in
  let bd_addr_real := bd_addr &ᵇ 0xFFFFFFFF in
  let a_cols := sp_cols a_addr in
  let a_rows := sp_rows a_addr in
  let bd_cols := sp_cols bd_addr in
  let bd_rows := sp_rows bd_addr in
  when preload compute_preload ;;
  results ← compute_bias bd_addr_real bd_rows bd_cols;
  results ← compute_mac a_addr_real a_rows a_cols bd_addr_real bd_rows bd_cols results;
  compute_write results.
End compute.
