(* ===== verification/ComputeSpec.v ===== *)
(** * ComputeSpec: the systolic array multiplies matrices

    The functional specification of [gemmini_t::compute] for both dataflows. *)

From S2P Require Import Prelude Effects Float32 Params State Dram Fill Scaling Norm Config Move MoveSpec Compute.

(** ** The operands *)

(** Cell [(r, c)] of the scratchpad matrix at [addr], the position [(i, j)] being
    inside the [rows] x [cols] operand; 0 outside it and for the garbage address. *)
Definition operand (s : gemmini_state) (addr rows cols i j r c : Z) : Z :=
  if (i <? rows) && (j <? cols) then (if is_garbage addr then 0 else vget (spad s) (addr + r) c) else 0.

(** The weights (or initial outputs) a preload puts into the array. *)
Definition preload_elem (s : gemmini_state) (i j : Z) : Z :=
  let p := pre s in
  let t := bool_decide (mode (ex s) = WS) && b_transpose (ex s) in
  operand s (preload_sp_addr p) (preload_rows p) (preload_cols p) i j (if t then j else i) (if t then i else j).

Definition bias_elem (s : gemmini_state) (bd_addr : Z) (i j : Z) : Z :=
  operand s (bd_addr &ᵇ 0xFFFFFFFF) (sp_rows bd_addr) (sp_cols bd_addr) i j i j.

Definition A_elem (s : gemmini_state) (a_addr : Z) (i k : Z) : Z :=
  let t := a_transpose (ex s) in
  operand s (a_addr &ᵇ 0xFFFFFFFF) (sp_rows a_addr) (sp_cols a_addr) i k
    (a_stride (ex s) * (if t then k else i)) (if t then i else k).

Definition B_elem (s : gemmini_state) (bd_addr : Z) (k j : Z) : Z :=
  let t := b_transpose (ex s) in
  operand s (bd_addr &ᵇ 0xFFFFFFFF) (sp_rows bd_addr) (sp_cols bd_addr) k j (if t then j else k) (if t then k else j).

(** Every access that the operand makes is inside the scratchpad. *)
Definition operand_in (s : gemmini_state) (addr rows cols : Z) (r c : Z -> Z -> Z) : Prop :=
  is_garbage addr = false -> forall i j, 0 <= i < DIM -> 0 <= j < DIM -> i < rows -> j < cols ->
    in_shape (spad s) (addr + r i j) (c i j) = true.

Definition preload_in (s : gemmini_state) : Prop :=
  let p := pre s in
  let t := bool_decide (mode (ex s) = WS) && b_transpose (ex s) in
  (is_garbage (preload_sp_addr p) = false -> (preload_sp_addr p ≫ 30) &ᵇ 3 = 0) /\
  operand_in s (preload_sp_addr p) (preload_rows p) (preload_cols p)
    (fun i j => if t then j else i) (fun i j => if t then i else j).
Definition bias_in (s : gemmini_state) (bd_addr : Z) : Prop :=
  operand_in s (bd_addr &ᵇ 0xFFFFFFFF) (sp_rows bd_addr) (sp_cols bd_addr) (fun i _ => i) (fun _ j => j).
Definition A_in (s : gemmini_state) (a_addr : Z) : Prop :=
  let t := a_transpose (ex s) in
  is_garbage (a_addr &ᵇ 0xFFFFFFFF) = false /\
  operand_in s (a_addr &ᵇ 0xFFFFFFFF) (sp_rows a_addr) (sp_cols a_addr)
    (fun i k => a_stride (ex s) * (if t then k else i)) (fun i k => if t then i else k).
Definition B_in (s : gemmini_state) (bd_addr : Z) : Prop :=
  let t := b_transpose (ex s) in
  operand_in s (bd_addr &ᵇ 0xFFFFFFFF) (sp_rows bd_addr) (sp_cols bd_addr)
    (fun k j => if t then j else k) (fun k j => if t then k else j).

(** A [DIM] x [DIM] vector. *)
Definition square (v : vec2) : Prop := v_rows v = DIM /\ v_cols v = DIM.

Lemma square_in v i j : square v -> 0 <= i < DIM -> 0 <= j < DIM -> in_shape v i j = true.
Proof. intros [Hr Hc] Hi Hj. apply in_shape_spec. lia. Qed.

Lemma square_vset v i j x : square v -> square (vset v i j x).
Proof. done. Qed.

Section compute_spec.
Context {mem : Type}.
Implicit Types m : machine mem.

(** ** Preload *)

Lemma wp_operand addr rows cols r c i j Q m :
  operand_in (gs m) addr rows cols r c -> 0 <= i < DIM -> 0 <= j < DIM ->
  i < rows -> j < cols ->
  Q (operand (gs m) addr rows cols i j (r i j) (c i j)) m ->
  wp (if is_garbage addr then mret 0 else spad_at (addr + r i j) (c i j)) Q m.
Proof.
  intros Hin Hi Hj Hr Hc HQ. unfold operand in HQ.
  rewrite (proj2 (Z.ltb_lt i rows) Hr), (proj2 (Z.ltb_lt j cols) Hc) in HQ. cbn [andb] in HQ.
  destruct (is_garbage addr) eqn:Hg; [by apply wp_ret|]. apply wp_spad_at; [by apply Hin|done].
Qed.

Lemma wp_compute_preload Q m :
  preload_in (gs m) -> square (pe_state (gs m)) ->
  Q tt (set_vec pe_lens (fill (fun p => p) (fun p _ => preload_elem (gs m) (fst p) (snd p)) (pairs DIM DIM) (pe_state (gs m))) m) ->
  wp compute_preload Q m.
Proof.
  intros [Hassert Hin] Hsq HQ. unfold compute_preload. apply wp_bind, wp_get_gs. unfold id.
  apply wp_for_pairs. eapply (wp_fill pe_lens); [|exact HQ].
  intros [i j] v [Hi Hj]%elem_of_pairs Hvr Hvc. cbn [fst snd] in *.
  assert (square v) as Hv by (destruct Hsq; split; [by rewrite Hvr|by rewrite Hvc]).
  apply wp_bind, wp_when_check; [intros Hg%negb_true_iff; by apply Z.eqb_eq, Hassert|]. cbv zeta.
  destruct ((i <? _) && (j <? _)) eqn:Hb.
  - apply andb_true_iff in Hb as [Hbi%Z.ltb_lt Hbj%Z.ltb_lt]. apply wp_bind.
    apply (wp_operand (preload_sp_addr (pre (gs m))) (preload_rows (pre (gs m))) (preload_cols (pre (gs m)))
      (fun i j => if bool_decide (mode (ex (gs m)) = WS) && b_transpose (ex (gs m)) then j else i)
      (fun i j => if bool_decide (mode (ex (gs m)) = WS) && b_transpose (ex (gs m)) then i else j) i j); [done..|].
    apply wp_pe_put; [by apply square_in|]. by rewrite set_set_vec.
  - apply wp_pe_put; [by apply square_in|]. rewrite set_set_vec. unfold preload_elem, operand. cbn [fst snd].
    by rewrite Hb.
Qed.

(** ** Bias *)

(** [v] holds [f] on the first [i] rows and, of row [i], the first [j] cells. *)
Definition partial (f : Z -> Z -> Z) (i j : Z) (v : vec2) : Prop :=
  square v /\ forall i' j', 0 <= i' < DIM -> 0 <= j' < DIM -> i' < i \/ i' = i /\ j' < j -> vget v i' j' = f i' j'.

Lemma partial_vset f i j v : 0 <= i < DIM -> 0 <= j < DIM -> partial f i j v -> partial f i (j + 1) (vset v i j (f i j)).
Proof.
  intros Hi Hj [Hsq Hv]. split; [done|]. intros i' j' Hi' Hj' Hlt. rewrite vget_vset.
  case_decide as He; [destruct He; by subst|]. apply Hv; [done..|]. lia.
Qed.

Lemma partial_next f i v : partial f i DIM v -> partial f (i + 1) 0 v.
Proof. intros [Hsq Hv]. split; [done|]. intros i' j' Hi' Hj' Hlt. apply Hv; lia. Qed.

Lemma wp_compute_bias bd_addr Q m :
  bias_in (gs m) bd_addr ->
  (forall v, square v -> (forall i j, 0 <= i < DIM -> 0 <= j < DIM -> vget v i j = bias_elem (gs m) bd_addr i j) -> Q v m) ->
  wp (compute_bias (bd_addr &ᵇ 0xFFFFFFFF) (sp_rows bd_addr) (sp_cols bd_addr)) Q m.
Proof.
  intros Hin HQ. unfold compute_bias.
  apply (wp_fold_range (fun i v m' => m' = m /\ partial (bias_elem (gs m) bd_addr) i 0 v)).
  - split; [done|]. split; [done|]. intros. lia.
  - intros i v m' Hi [-> Hv].
    apply (wp_fold_range (fun j v m' => m' = m /\ partial (bias_elem (gs m) bd_addr) i j v)); [done| |].
    + clear v Hv. intros j v m' Hj [-> Hv].
      assert (in_shape v i j = true) by (by apply square_in; [apply Hv|..]).
      destruct ((i <? _) && (j <? _)) eqn:Hb.
      * apply andb_true_iff in Hb as [Hbi%Z.ltb_lt Hbj%Z.ltb_lt]. apply wp_bind.
        apply (wp_operand (bd_addr &ᵇ 0xFFFFFFFF) (sp_rows bd_addr) (sp_cols bd_addr) (fun i _ => i) (fun _ j => j) i j);
          [done..|].
        apply wp_vec_put; [done|]. split; [done|]. by apply (partial_vset (bias_elem (gs m) bd_addr)).
      * apply wp_vec_put; [done|]. split; [done|].
        assert (bias_elem (gs m) bd_addr i j = 0) as <- by (unfold bias_elem, operand; by rewrite Hb).
        by apply partial_vset.
    + intros v' m' [-> Hv']. rewrite Z.max_r in Hv' by (unfold DIM; lia). split; [done|]. by apply partial_next.
  - intros v m' [-> [Hsq Hv]]. apply HQ; [done|]. intros i j Hi Hj. apply Hv; [done..|].
    rewrite Z.max_r by (unfold DIM; lia). lia.
Qed.

(** ** Multiply-accumulate *)

Lemma wp_compute_a a_addr i k Q m :
  A_in (gs m) a_addr -> 0 <= i < DIM -> 0 <= k < DIM -> Q (A_elem (gs m) a_addr i k) m ->
  wp (compute_a (a_addr &ᵇ 0xFFFFFFFF) (sp_rows a_addr) (sp_cols a_addr) i k) Q m.
Proof.
  intros [Hg Hin] Hi Hk HQ. unfold compute_a. apply wp_bind, wp_get_gs. unfold id. rewrite Hg. cbv zeta.
  unfold A_elem, operand in HQ. rewrite Hg in HQ. specialize (Hin Hg i k Hi Hk). cbv beta in Hin.
  destruct ((i <? _) && (k <? _)) eqn:Hb; [|by apply wp_ret].
  apply andb_true_iff in Hb as [Hbi%Z.ltb_lt Hbk%Z.ltb_lt]. apply wp_spad_at; auto.
Qed.

Lemma wp_compute_b bd_addr j k Q m :
  B_in (gs m) bd_addr -> 0 <= k < DIM -> 0 <= j < DIM -> Q (B_elem (gs m) bd_addr k j) m ->
  wp (compute_b (bd_addr &ᵇ 0xFFFFFFFF) (sp_rows bd_addr) (sp_cols bd_addr) j k) Q m.
Proof.
  intros Hin Hk Hj HQ. unfold compute_b. apply wp_bind, wp_get_gs. unfold id. cbv zeta.
  unfold B_elem, operand in HQ. destruct (is_garbage _) eqn:Hg.
  - apply wp_ret. by destruct (_ && _) in HQ.
  - specialize (Hin Hg k j Hk Hj). cbv beta in Hin.
    destruct ((k <? _) && (j <? _)) eqn:Hb; [|by apply wp_ret].
    apply andb_true_iff in Hb as [Hbk%Z.ltb_lt Hbj%Z.ltb_lt]. apply wp_spad_at; auto.
Qed.

(** The dot product a processing element accumulates, modulo [2^32]. *)
Definition dot (a b : Z -> Z) (init n : Z) : Z := s32 (init + Zsum (fun k => a k * b k) n).

Lemma dot_step a b init k : 0 <= k -> s32 (dot a b init k + s32 (a k * b k)) = dot a b init (k + 1).
Proof.
  intros Hk. unfold dot. rewrite wrap_s_add_r, wrap_s_add_l, Zsum_S by lia. f_equal. lia.
Qed.

Lemma dot_0 a b init : in_s 32 init -> dot a b init 0 = init.
Proof. intros Hi. unfold dot. rewrite Zsum_0 by lia. rewrite Z.add_0_r. by apply wrap_s_id. Qed.

(** What the array holds while element [(i, j)] is at step [k]. *)
Definition mac_state (f init : Z -> Z -> Z) (i j : Z) (x : Z) (v : vec2) : Prop :=
  square v /\ forall i' j', 0 <= i' < DIM -> 0 <= j' < DIM ->
    vget v i' j' = if decide (i' < i \/ i' = i /\ j' < j) then f i' j'
                   else if decide (i' = i /\ j' = j) then x else init i' j'.

Lemma mac_state_get f init i j x v : 0 <= i < DIM -> 0 <= j < DIM -> mac_state f init i j x v -> vget v i j = x.
Proof. intros Hi Hj [_ Hv]. rewrite Hv by done. rewrite decide_False by lia. by rewrite decide_True. Qed.

Lemma mac_state_put f init i j x y v : mac_state f init i j x v -> mac_state f init i j y (vset v i j y).
Proof.
  intros [Hsq Hv]. split; [done|]. intros i' j' Hi' Hj'. rewrite vget_vset. case_decide as He.
  - destruct He as [-> ->]. rewrite decide_False by lia. by rewrite decide_True.
  - rewrite Hv by done. case_decide; [done|]. rewrite !decide_False by lia. done.
Qed.

Lemma mac_state_start f init v : square v -> (forall i j, 0 <= i < DIM -> 0 <= j < DIM -> vget v i j = init i j) ->
  mac_state f init 0 0 (init 0 0) v.
Proof.
  intros Hsq Hv. split; [done|]. intros i j Hi Hj. rewrite Hv by done. rewrite decide_False by lia.
  case_decide as He; [|done]. by destruct He as [-> ->].
Qed.

Lemma mac_state_next_j f init i j v :
  mac_state f init i j (f i j) v -> mac_state f init i (j + 1) (init i (j + 1)) v.
Proof.
  intros [Hsq Hv]. split; [done|]. intros i' j' Hi' Hj'. rewrite Hv by done.
  repeat case_decide; try lia; try done.
  - f_equal; lia.
  - destruct_and?. by subst.
Qed.

Lemma mac_state_next_i f init i v :
  mac_state f init i DIM (init i DIM) v -> mac_state f init (i + 1) 0 (init (i + 1) 0) v.
Proof.
  intros [Hsq Hv]. split; [done|]. intros i' j' Hi' Hj'. rewrite Hv by done.
  repeat case_decide; try lia; try done. destruct_and?. by subst.
Qed.

(** Weight stationary: the results accumulate [A * W]. *)
Lemma wp_mac_ws a_addr bd_addr init res Q m :
  mode (ex (gs m)) = WS -> A_in (gs m) a_addr -> square (pe_state (gs m)) ->
  square res -> (forall i j, 0 <= i < DIM -> 0 <= j < DIM -> vget res i j = init i j) ->
  (forall i j, in_s 32 (init i j)) ->
  (forall v, square v ->
     (forall i j, 0 <= i < DIM -> 0 <= j < DIM ->
        vget v i j = dot (A_elem (gs m) a_addr i) (fun k => vget (pe_state (gs m)) k j) (init i j) DIM) -> Q v m) ->
  wp (compute_mac (a_addr &ᵇ 0xFFFFFFFF) (sp_rows a_addr) (sp_cols a_addr)
        (bd_addr &ᵇ 0xFFFFFFFF) (sp_rows bd_addr) (sp_cols bd_addr) res) Q m.
Proof.
  intros Hmode HA Hpe Hres Hinit Hrange HQ. unfold compute_mac.
  set (f := fun i j => dot (A_elem (gs m) a_addr i) (fun k => vget (pe_state (gs m)) k j) (init i j) DIM).
  apply (wp_fold_range (fun i v m' => m' = m /\ mac_state f init i 0 (init i 0) v)).
  - split; [done|]. by apply mac_state_start.
  - intros i v m' Hi [-> Hv].
    apply (wp_fold_range (fun j v m' => m' = m /\ mac_state f init i j (init i j) v)); [done| |].
    + clear v Hv. intros j v m' Hj [-> Hv].
      apply (wp_fold_range (fun k v m' => m' = m /\
        mac_state f init i j (dot (A_elem (gs m) a_addr i) (fun k => vget (pe_state (gs m)) k j) (init i j) k) v)).
      * split; [done|]. by rewrite dot_0.
      * clear v Hv. intros k v m' Hk [-> Hv]. apply wp_bind, wp_compute_a; [done..|].
        apply wp_bind, wp_get_gs. rewrite Hmode. rewrite bool_decide_true by done.
        apply wp_bind, wp_pe_at; [by apply square_in|].
        apply wp_bind, wp_vec_at; [by apply square_in; [apply Hv|..]|].
        apply wp_vec_put; [by apply square_in; [apply Hv|..]|]. split; [done|].
        rewrite (mac_state_get _ _ _ _ _ _ Hi Hj Hv).
        pose proof (dot_step (A_elem (gs m) a_addr i) (fun k => vget (pe_state (gs m)) k j) (init i j) k) as Hd.
        cbv beta in Hd. rewrite Hd by lia. by eapply mac_state_put.
      * intros v' m' [-> Hv']. split; [done|]. apply mac_state_next_j.
        by rewrite Z.max_r in Hv' by (unfold DIM; lia).
    + intros v' m' [-> Hv']. rewrite Z.max_r in Hv' by (unfold DIM; lia). split; [done|]. by apply mac_state_next_i.
  - intros v m' [-> [Hsq Hv]]. apply HQ; [done|]. intros i j Hi Hj. rewrite Hv by done.
    rewrite Z.max_r by (unfold DIM; lia). rewrite decide_True by lia. done.
Qed.

(** Output stationary: the processing elements accumulate [A * B]. *)
Lemma wp_mac_os a_addr bd_addr res Q m :
  mode (ex (gs m)) = OS -> A_in (gs m) a_addr -> B_in (gs m) bd_addr -> square (pe_state (gs m)) ->
  (forall i j, in_s 32 (vget (pe_state (gs m)) i j)) ->
  (forall v, square v ->
     (forall i j, 0 <= i < DIM -> 0 <= j < DIM ->
        vget v i j = dot (A_elem (gs m) a_addr i) (fun k => B_elem (gs m) bd_addr k j) (vget (pe_state (gs m)) i j) DIM) ->
     Q res (set_vec pe_lens v m)) ->
  wp (compute_mac (a_addr &ᵇ 0xFFFFFFFF) (sp_rows a_addr) (sp_cols a_addr)
        (bd_addr &ᵇ 0xFFFFFFFF) (sp_rows bd_addr) (sp_cols bd_addr) res) Q m.
Proof.
  intros Hmode HA HB Hpe Hrange HQ. unfold compute_mac.
  set (init := fun i j => vget (pe_state (gs m)) i j).
  set (f := fun i j => dot (A_elem (gs m) a_addr i) (fun k => B_elem (gs m) bd_addr k j) (init i j) DIM).
  apply (wp_fold_range (fun i r m' => r = res /\ exists v, m' = set_vec pe_lens v m /\ mac_state f init i 0 (init i 0) v)).
  - split; [done|]. exists (get_vec pe_lens m). split; [by rewrite set_vec_get|]. by apply mac_state_start.
  - intros i r m' Hi [-> (v & -> & Hv)].
    apply (wp_fold_range (fun j r m' => r = res /\ exists v, m' = set_vec pe_lens v m /\ mac_state f init i j (init i j) v));
      [by eauto| |].
    + clear v Hv. intros j r m' Hj [-> (v & -> & Hv)].
      apply (wp_fold_range (fun k r m' => r = res /\ exists v, m' = set_vec pe_lens v m /\
        mac_state f init i j (dot (A_elem (gs m) a_addr i) (fun k => B_elem (gs m) bd_addr k j) (init i j) k) v)).
      * split; [done|]. exists v. split; [done|]. by rewrite dot_0.
      * clear v Hv. intros k r m' Hk [-> (v & -> & Hv)]. apply wp_bind, wp_compute_a; [done..|].
        apply wp_bind, wp_get_gs. change (mode (ex (gs (set_vec pe_lens v m)))) with (mode (ex (gs m))).
        rewrite Hmode. rewrite bool_decide_false by done.
        apply wp_bind, wp_compute_b; [done..|].
        apply wp_bind, wp_pe_at; [by apply square_in; [apply Hv|..]|].
        apply wp_bind, wp_pe_put; [by apply square_in; [apply Hv|..]|]. apply wp_ret. split; [done|].
        eexists. split; [by rewrite set_set_vec|].
        change (pe_state (gs (set_vec pe_lens v m))) with v. rewrite (mac_state_get _ _ _ _ _ _ Hi Hj Hv).
        change (A_elem (gs (set_vec pe_lens v m)) a_addr i k) with (A_elem (gs m) a_addr i k).
        change (B_elem (gs (set_vec pe_lens v m)) bd_addr k j) with (B_elem (gs m) bd_addr k j).
        pose proof (dot_step (A_elem (gs m) a_addr i) (fun k => B_elem (gs m) bd_addr k j) (init i j) k) as Hd.
        cbv beta in Hd. rewrite Hd by lia. by eapply mac_state_put.
      * intros r m' [-> (v' & -> & Hv')]. split; [done|]. exists v'. split; [done|]. apply mac_state_next_j.
        by rewrite Z.max_r in Hv' by (unfold DIM; lia).
    + intros r m' [-> (v' & -> & Hv')]. rewrite Z.max_r in Hv' by (unfold DIM; lia).
      split; [done|]. exists v'. split; [done|]. by apply mac_state_next_i.
  - intros r m' [-> (v & -> & [Hsq Hv])]. apply HQ; [done|]. intros i j Hi Hj. rewrite Hv by done.
    rewrite Z.max_r by (unfold DIM; lia). rewrite decide_True by lia. done.
Qed.

(** ** Write-back *)

(** The destination cell of a result. *)
Definition out_cell (s : gemmini_state) (p : Z * Z) : Z * Z :=
  ((output_sp_addr (pre s) &ᵇ 0x1FFFFFFF) + c_stride (ex s) * fst p, snd p).

(** The result the write-back loop reads, by dataflow. *)
Definition result (s : gemmini_state) (res : vec2) (p : Z * Z) : Z :=
  if bool_decide (mode (ex s) = OS) then vget (pe_state s) (fst p) (snd p) else vget res (fst p) (snd p).

(** What the scratchpad receives for a result. *)
Definition spad_result (s : gemmini_state) (x : Z) : Z :=
  apply_activation (sys_shift x (if bool_decide (mode (ex s) = OS) then sys_shift_reg (ex s) else 0)) (sys_act (ex s)).

Definition out_in (v : vec2) (s : gemmini_state) : Prop :=
  output_rows (pre s) <= DIM /\ output_cols (pre s) <= DIM /\
  forall p, p ∈ pairs (output_rows (pre s)) (output_cols (pre s)) ->
    in_shape v (fst (out_cell s p)) (snd (out_cell s p)) = true.

Lemma wp_result res i j Q m :
  square res -> square (pe_state (gs m)) -> 0 <= i < DIM -> 0 <= j < DIM ->
  Q (result (gs m) res (i, j)) m ->
  wp (if bool_decide (mode (ex (gs m)) = OS) then pe_at i j else vec_at res i j) Q m.
Proof.
  intros Hres Hpe Hi Hj HQ. unfold result in HQ. cbn [fst snd] in HQ. destruct (bool_decide _).
  - apply wp_pe_at; [by apply square_in|done].
  - apply wp_vec_at; [by apply square_in|done].
Qed.

Lemma wp_write_acc res Q m :
  let s := gs m in
  is_garbage (output_sp_addr (pre s)) = false -> is_acc_addr (output_sp_addr (pre s)) = true ->
  square res -> square (pe_state s) -> out_in (accumulator s) s ->
  Q tt (set_vec acc_lens (fill (out_cell s)
    (fun p old => if is_accumulate (output_sp_addr (pre s)) then s32 (old + result s res p) else result s res p)
    (pairs (output_rows (pre s)) (output_cols (pre s))) (accumulator s)) m) ->
  wp (compute_write res) Q m.
Proof.
  intros s Hg Hacc Hres Hpe (Hor & Hoc & Hin) HQ. unfold compute_write. apply wp_bind, wp_get_gs. unfold id. fold s.
  rewrite Hg, Hacc. cbv zeta. cbn [negb when]. apply wp_for_pairs. eapply (wp_fill acc_lens); [|exact HQ].
  intros [i j] v Hp Hvr Hvc. specialize (Hin _ Hp). apply elem_of_pairs in Hp as [Hi Hj]. cbn [fst snd] in *.
  apply wp_bind. apply (wp_result res i j _ (set_vec acc_lens v m)); [done|done|lia|lia|].
  assert (in_shape v (fst (out_cell s (i, j))) (snd (out_cell s (i, j))) = true) as Hinv.
  { revert Hin. unfold in_shape. by rewrite Hvr, Hvc. }
  destruct (is_accumulate _).
  - apply wp_bind, wp_acc_at; [done|]. apply wp_acc_put; [done|]. by rewrite set_set_vec.
  - apply wp_acc_put; [done|]. by rewrite set_set_vec.
Qed.

Lemma wp_write_spad res Q m :
  let s := gs m in
  is_garbage (output_sp_addr (pre s)) = false -> is_acc_addr (output_sp_addr (pre s)) = false ->
  square res -> square (pe_state s) -> out_in (spad s) s ->
  Q tt (set_vec spad_lens (fill (out_cell s) (fun p _ => spad_result s (result s res p))
    (pairs (output_rows (pre s)) (output_cols (pre s))) (spad s)) m) ->
  wp (compute_write res) Q m.
Proof.
  intros s Hg Hacc Hres Hpe (Hor & Hoc & Hin) HQ. unfold compute_write. apply wp_bind, wp_get_gs. unfold id. fold s.
  rewrite Hg, Hacc. cbv zeta. cbn [negb when]. apply wp_for_pairs. eapply (wp_fill spad_lens); [|exact HQ].
  intros [i j] v Hp Hvr Hvc. specialize (Hin _ Hp). apply elem_of_pairs in Hp as [Hi Hj]. cbn [fst snd] in *.
  apply wp_bind. apply (wp_result res i j _ (set_vec spad_lens v m)); [done|done|lia|lia|].
  assert (in_shape v (fst (out_cell s (i, j))) (snd (out_cell s (i, j))) = true) as Hinv.
  { revert Hin. unfold in_shape. by rewrite Hvr, Hvc. }
  apply wp_spad_put; [done|].
  rewrite set_set_vec. unfold spad_result, apply_activation_sys. by destruct (bool_decide _).
Qed.

(** ** The instruction *)

(** Cells of the array hold values of their types. *)
Definition cells_typed (s : gemmini_state) : Prop :=
  (forall r c, in_s 8 (vget (spad s) r c)) /\ (forall r c, in_s 32 (vget (pe_state s) r c)).

(** The array during the computation: the preloaded matrix or what it held. *)
Definition stationary (s : gemmini_state) (preload : bool) (i j : Z) : Z :=
  if preload then preload_elem s i j else vget (pe_state s) i j.

Lemma operand_typed s addr rows cols i j r c : cells_typed s -> in_s 8 (operand s addr rows cols i j r c).
Proof.
  intros [Hs _]. unfold operand. repeat case_match; try apply Hs; by unfold in_s.
Qed.

Lemma in_s8_32 x : in_s 8 x -> in_s 32 x.
Proof. unfold in_s. simpl. lia. Qed.

Lemma out_cell_inj s p q : c_stride (ex s) <> 0 -> out_cell s p = out_cell s q -> p = q.
Proof. destruct p, q. unfold out_cell. simpl. intros Hc [= H1 H2]. f_equal; nia. Qed.

(** After the optional preload the array holds [stationary]. *)
Lemma wp_preload_phase preload Q m :
  (preload = true -> preload_in (gs m)) -> square (pe_state (gs m)) ->
  (forall v, square v -> (forall i j, 0 <= i < DIM -> 0 <= j < DIM -> vget v i j = stationary (gs m) preload i j) ->
     (forall i j, cells_typed (gs m) -> in_s 32 (vget v i j)) ->
     Q tt (set_vec pe_lens v m)) ->
  wp (when preload compute_preload) Q m.
Proof.
  intros Hin Hsq HQ. destruct preload; cbn [when].
  - apply wp_compute_preload; [by apply Hin|done|].
    set (v := fill _ _ _ _).
    assert (forall i j, 0 <= i < DIM -> 0 <= j < DIM -> vget v i j = preload_elem (gs m) i j) as Hv.
    { intros i j Hi Hj. unfold v.
      apply (vget_fill_in (fun p => p) (fun p _ => preload_elem (gs m) (fst p) (snd p)) (pairs DIM DIM) _ (i, j));
        [apply NoDup_pairs|done|by apply elem_of_pairs]. }
    apply HQ; [|done|].
    + destruct Hsq. split; unfold v; by rewrite ?fill_rows, ?fill_cols.
    + intros i j Ht. destruct (decide ((i, j) ∈ pairs DIM DIM)) as [Hp|Hp].
      * pose proof Hp as [Hi Hj]%elem_of_pairs. rewrite Hv by done. by apply in_s8_32, operand_typed.
      * unfold v. rewrite vget_fill_out; [by apply Ht|]. intros q Hq ->. done.
  - apply wp_ret. rewrite <- (set_vec_get pe_lens m). apply HQ; [done|done|]. intros i j Ht. apply Ht.
Qed.

(** *** The write-back *)

(** The elements of the output block. *)
Notation out_block s := (pairs (output_rows (pre s)) (output_cols (pre s))).

(** The output block, unless it is discarded, lies in the memory it is written to. *)
Definition out_ready (s : gemmini_state) : Prop := is_garbage (output_sp_addr (pre s)) = false ->
  c_stride (ex s) <> 0 /\ out_in (if is_acc_addr (output_sp_addr (pre s)) then accumulator s else spad s) s.

(** [v'] is [v] with the output block updated by [new]. *)
Definition block_written (s : gemmini_state) (new : Z * Z -> Z -> Z) (v v' : vec2) : Prop :=
  (forall p, p ∈ out_block s ->
     vget v' (fst (out_cell s p)) (snd (out_cell s p)) = new p (vget v (fst (out_cell s p)) (snd (out_cell s p)))) /\
  (forall r c, (forall p, p ∈ out_block s -> out_cell s p <> (r, c)) -> vget v' r c = vget v r c).

(** Where the results go: nowhere for the garbage address; to the accumulator as
    they are, over or onto what is there; to the scratchpad shifted, saturated and
    activated.  Apart from that block and the array nothing changes. *)
Definition written_back (value : Z * Z -> Z) (m m' : machine mem) : Prop :=
  let s := gs m in
  let out := output_sp_addr (pre s) in
  let m1 := set_vec pe_lens (pe_state (gs m')) m in
  if is_garbage out then m' = m1
  else if is_acc_addr out then
    block_written s (fun p old => if is_accumulate out then s32 (old + value p) else value p)
      (accumulator s) (accumulator (gs m')) /\
    m' = set_vec acc_lens (accumulator (gs m')) m1
  else
    block_written s (fun p _ => spad_result s (value p)) (spad s) (spad (gs m')) /\
    m' = set_vec spad_lens (spad (gs m')) m1.

Lemma written_acc value (m m' : machine mem) : written_back value m m' ->
  is_garbage (output_sp_addr (pre (gs m))) = false -> is_acc_addr (output_sp_addr (pre (gs m))) = true ->
  block_written (gs m) (fun p old => if is_accumulate (output_sp_addr (pre (gs m))) then s32 (old + value p) else value p)
    (accumulator (gs m)) (accumulator (gs m')) /\
  m' = set_vec acc_lens (accumulator (gs m')) (set_vec pe_lens (pe_state (gs m')) m).
Proof. unfold written_back. intros Hw Hg Hacc. by rewrite Hg, Hacc in Hw. Qed.

Lemma written_spad value (m m' : machine mem) : written_back value m m' ->
  is_garbage (output_sp_addr (pre (gs m))) = false -> is_acc_addr (output_sp_addr (pre (gs m))) = false ->
  block_written (gs m) (fun p _ => spad_result (gs m) (value p)) (spad (gs m)) (spad (gs m')) /\
  m' = set_vec spad_lens (spad (gs m')) (set_vec pe_lens (pe_state (gs m')) m).
Proof. unfold written_back. intros Hw Hg Hacc. by rewrite Hg, Hacc in Hw. Qed.

Lemma block_written_fill s new new' v : c_stride (ex s) <> 0 ->
  (forall p old, p ∈ out_block s -> new p old = new' p old) -> block_written s new' v (fill (out_cell s) new (out_block s) v).
Proof.
  intros Hcs He. split.
  - intros p Hp. rewrite <- He by done.
    apply (vget_fill_in (out_cell s) new); [apply NoDup_pairs|intros q _; by apply out_cell_inj|done].
  - intros r c Hrc. by apply (vget_fill_out (out_cell s)).
Qed.

(** The write-back loops, the array having been updated to [v]. *)
Lemma wp_compute_write res v value Q m : let m1 := set_vec pe_lens v m in
  out_ready (gs m) -> square res -> square v ->
  (forall i j, 0 <= i < DIM -> 0 <= j < DIM -> result (gs m1) res (i, j) = value (i, j)) ->
  (forall m', pe_state (gs m') = v -> written_back value m m' -> Q tt m') ->
  wp (compute_write res) Q m1.
Proof.
  intros m1 Hout Hres Hv Hval HQ. unfold out_ready, written_back in *. cbv zeta in HQ.
  set (s := gs m) in *. destruct (is_garbage (output_sp_addr (pre s))) eqn:Hg.
  { unfold compute_write. apply wp_bind, wp_get_gs. unfold id. change (pre (gs m1)) with (pre s). rewrite Hg. apply wp_ret. by apply HQ. }
  destruct (Hout eq_refl) as [Hcs Hin].
  assert (forall p, p ∈ out_block s -> result (gs m1) res p = value p) as Hval'.
  { intros [i j] [Hi Hj]%elem_of_pairs. cbn [fst snd] in *. destruct Hin as (? & ? & _). apply Hval; lia. }
  destruct (is_acc_addr (output_sp_addr (pre s))) eqn:Hacc.
  - apply wp_write_acc; [done..|]. apply HQ; [done|]. split; [|done].
    apply (block_written_fill s); [done|]. intros p old Hp. change (output_sp_addr (pre (gs m1))) with (output_sp_addr (pre s)).
    by rewrite Hval'.
  - apply wp_write_spad; [done..|]. apply HQ; [done|]. split; [|done].
    apply (block_written_fill s); [done|]. intros p old Hp. by rewrite Hval'.
Qed.

(** *** Weight stationary *)

(** What a weight-stationary [compute] needs: the A operand is given, every operand
    lies in the scratchpad and the output block in its memory. *)
Record ws_operands (s : gemmini_state) (a_addr bd_addr : Z) (preload : bool) : Prop := {
  wo_mode : mode (ex s) = WS; wo_typed : cells_typed s; wo_square : square (pe_state s);
  wo_preload : preload = true -> preload_in s; wo_A : A_in s a_addr; wo_bias : bias_in s bd_addr; wo_out : out_ready s }.

(** Element [p] of [D + A*W] modulo [2^32]. *)
Definition ws_product (s : gemmini_state) (a_addr bd_addr : Z) (preload : bool) (p : Z * Z) : Z :=
  dot (A_elem s a_addr (fst p)) (fun k => stationary s preload k (snd p)) (bias_elem s bd_addr (fst p) (snd p)) DIM.

Definition ws_result (a_addr bd_addr : Z) (preload : bool) (m m' : machine mem) : Prop :=
  (forall i j, 0 <= i < DIM -> 0 <= j < DIM -> vget (pe_state (gs m')) i j = stationary (gs m) preload i j) /\
  written_back (ws_product (gs m) a_addr bd_addr preload) m m'.

Lemma wp_compute_ws a_addr bd_addr preload Q m :
  ws_operands (gs m) a_addr bd_addr preload -> (forall m', ws_result a_addr bd_addr preload m m' -> Q tt m') ->
  wp (compute a_addr bd_addr preload) Q m.
Proof.
  intros [Hmode Htyped Hsq Hpre HA Hbias Hout] HQ. set (s := gs m) in *. unfold compute. cbv zeta.
  apply wp_bind, wp_preload_phase; [done..|]. intros v Hv Hvs _. set (m1 := set_vec pe_lens v m).
  apply wp_bind. apply (wp_compute_bias bd_addr); [done|]. intros res0 Hres0 Hb.
  apply wp_bind. apply (wp_mac_ws _ _ (bias_elem (gs m1) bd_addr)); [done..| |].
  { intros i j. apply in_s8_32, (operand_typed s); done. }
  intros res Hres Hr. apply (wp_compute_write res v (ws_product s a_addr bd_addr preload)); [done..| |].
  - intros i j Hi Hj. unfold result. change (mode (ex (gs (set_vec pe_lens v m)))) with (mode (ex s)). rewrite Hmode.
    rewrite bool_decide_false by done. cbn [fst snd]. rewrite Hr by lia. unfold ws_product, dot. cbn [fst snd].
    do 2 f_equal. apply Zsum_ext. intros k Hk. f_equal. apply Hvs; lia.
  - intros m' Hpe Hw. apply HQ. split; [by rewrite Hpe|done].
Qed.

(** C18: weight-stationary [compute].  When the A operand is given and all
    operands lie in the scratchpad, the instruction ends without fault and the
    array holds the stationary matrix W (the preloaded one, transposed if so
    configured, or what it held before).  With [D + A*W] modulo [2^32] as the
    result, where elements outside an operand's declared rows and columns count
    as 0, each accumulator cell of an output block in the accumulator receives
    the result or has it added, each scratchpad cell of an output block in the
    scratchpad receives it saturated to 8 bits and activated, and the garbage
    address discards it; no other cell and nothing else of the machine changes. *)
Theorem compute_weight_stationary a_addr bd_addr preload m : ws_operands (gs m) a_addr bd_addr preload ->
  wp (compute a_addr bd_addr preload) (fun _ => ws_result a_addr bd_addr preload m) m.
Proof. intros Hop. by apply wp_compute_ws. Qed.

(** *** Output stationary *)

Record os_operands (s : gemmini_state) (a_addr bd_addr : Z) (preload : bool) : Prop := {
  oo_mode : mode (ex s) = OS; oo_typed : cells_typed s; oo_square : square (pe_state s);
  oo_preload : preload = true -> preload_in s; oo_A : A_in s a_addr; oo_B : B_in s bd_addr; oo_bias : bias_in s bd_addr;
  oo_out : out_ready s }.

(** Element [p] of [C + A*B] modulo [2^32], C being what the array holds. *)
Definition os_product (s : gemmini_state) (a_addr bd_addr : Z) (preload : bool) (p : Z * Z) : Z :=
  dot (A_elem s a_addr (fst p)) (fun k => B_elem s bd_addr k (snd p)) (stationary s preload (fst p) (snd p)) DIM.

Definition os_result (a_addr bd_addr : Z) (preload : bool) (m m' : machine mem) : Prop :=
  (forall i j, 0 <= i < DIM -> 0 <= j < DIM -> vget (pe_state (gs m')) i j = os_product (gs m) a_addr bd_addr preload (i, j)) /\
  written_back (os_product (gs m) a_addr bd_addr preload) m m'.

Lemma wp_compute_os a_addr bd_addr preload Q m :
  os_operands (gs m) a_addr bd_addr preload -> (forall m', os_result a_addr bd_addr preload m m' -> Q tt m') ->
  wp (compute a_addr bd_addr preload) Q m.
Proof.
  intros [Hmode Htyped Hsq Hpre HA HB Hbias Hout] HQ. set (s := gs m) in *. unfold compute. cbv zeta.
  apply wp_bind, wp_preload_phase; [done..|]. intros v Hv Hvs Hvt. set (m1 := set_vec pe_lens v m).
  apply wp_bind. apply (wp_compute_bias bd_addr); [done|]. intros res0 Hres0 Hb.
  apply wp_bind. apply wp_mac_os; [done..| |].
  { intros i j. by apply Hvt. }
  intros w Hw Hwv. replace (set_vec pe_lens w m1) with (set_vec pe_lens w m) by (symmetry; apply set_set_vec).
  assert (forall i j, 0 <= i < DIM -> 0 <= j < DIM -> vget w i j = os_product s a_addr bd_addr preload (i, j)) as Hprod.
  { intros i j Hi Hj. rewrite Hwv by done. unfold os_product. cbn [fst snd]. by rewrite <- Hvs. }
  apply (wp_compute_write res0 w (os_product s a_addr bd_addr preload)); [done..| |].
  - intros i j Hi Hj. unfold result. change (mode (ex (gs (set_vec pe_lens w m)))) with (mode (ex s)). rewrite Hmode.
    rewrite bool_decide_true by done. by apply Hprod.
  - intros m' Hpe Hwb. apply HQ. split; [by rewrite Hpe|done].
Qed.

(** C19: output-stationary [compute].  When the A operand is given and all operands
    lie in the scratchpad, the processing elements end with what they held (or
    were preloaded with) plus [A*B] modulo [2^32].  Each cell of an output block
    in the scratchpad receives that value shifted right with rounding, saturated to
    8 bits and activated; each cell of an output block in the accumulator receives
    the value unshifted, or has it added; the garbage address discards it.  No
    other cell and nothing else of the machine changes. *)
Theorem compute_output_stationary a_addr bd_addr preload m : os_operands (gs m) a_addr bd_addr preload ->
  wp (compute a_addr bd_addr preload) (fun _ => os_result a_addr bd_addr preload m) m.
Proof. intros Hop. by apply wp_compute_os. Qed.
End compute_spec.

(** ** Concrete machines for the witnesses *)

(** A = 3 at row 0, B (or W) = 5 at row 16, everything else 0. *)
Definition mac_demo (x : ex_regs) (out : Z) : machine flat_mem :=
  Machine (demo_state
    <| ex := x |>
    <| pre := Build_preload_regs out 16 4 4 4 4 |>
    <| spad := vset (vset (vec2_zeros 16384 16) 0 0 3) 16 0 5 |>) demo_mem 0.

Definition ws_regs : ex_regs := Build_ex_regs WS NONE 0 f32_one 1 1 false false.
Definition os_regs : ex_regs := Build_ex_regs OS RELU 1 f32_one 1 1 false false.

Lemma mac_demo_typed x out : cells_typed (gs (mac_demo x out)).
Proof.
  split; intros r c; unfold mac_demo; cbn [gs].
  - change (spad _) with (vset (vset (vec2_zeros 16384 16) 0 0 3) 16 0 5). rewrite !vget_vset, vget_zeros.
    repeat case_decide; by unfold in_s.
  - change (pe_state _) with (vec2_zeros 16 16). rewrite vget_zeros. by unfold in_s.
Qed.

(** Accesses of a small operand stay in the scratchpad. *)
Lemma demo_operand_in x out addr rows cols r c :
  0 <= addr < 1000 -> (forall i j, 0 <= i < 16 -> 0 <= j < 16 -> 0 <= r i j < 1000 /\ 0 <= c i j < 16) ->
  operand_in (gs (mac_demo x out)) addr rows cols r c.
Proof.
  intros Ha Hrc _ i j Hi Hj _ _. destruct (Hrc i j Hi Hj). apply in_shape_spec.
  change (v_rows (spad (gs (mac_demo x out)))) with 16384. change (v_cols (spad (gs (mac_demo x out)))) with 16. lia.
Qed.

Ltac demo_operand :=
  apply demo_operand_in; [vm_compute; split; [discriminate|reflexivity]|];
  intros i j Hi Hj;
  repeat match goal with |- context [mac_demo ?x ?o] =>
    first [ progress change (a_stride (ex (gs (mac_demo x o)))) with 1
          | progress change (a_transpose (ex (gs (mac_demo x o)))) with false
          | progress change (b_transpose (ex (gs (mac_demo x o)))) with false ] end;
  rewrite ?andb_false_r; lia.

(** An output block of 4 x 4 at a low row lies in either memory. *)
Lemma demo_out_ready x out : c_stride x = 1 -> 0 <= out &ᵇ 0x1FFFFFFF < 1000 -> out_ready (gs (mac_demo x out)).
Proof.
  intros Hx Ho _. split; [change (c_stride (ex (gs (mac_demo x out)))) with (c_stride x); lia|].
  split; [vm_compute; discriminate|]. split; [vm_compute; discriminate|].
  intros [i j] [Hi Hj]%elem_of_pairs. apply in_shape_spec. unfold out_cell. cbn [fst snd] in *.
  change (output_sp_addr _) with out. change (c_stride _) with (c_stride x). rewrite Hx.
  change (output_rows _) with 4 in Hi. change (output_cols _) with 4 in Hj.
  destruct (is_acc_addr _); [change (v_rows _) with 1024; change (v_cols _) with 16; lia|].
  change (v_rows _) with 16384. change (v_cols _) with 16. lia.
Qed.

Lemma ws_demo out : 0 <= out &ᵇ 0x1FFFFFFF < 1000 ->
  ws_operands (gs (mac_demo ws_regs out)) (pack_block 4 4 0) (pack_block 4 4 GARBAGE_ADDR) true.
Proof.
  intros Ho. split; [done|apply mac_demo_typed|done|..|by apply demo_out_ready].
  - intros _. split; [reflexivity|]. demo_operand.
  - split; [reflexivity|]. demo_operand.
  - intros Hg. vm_compute in Hg. discriminate.
Qed.

Lemma os_demo out : 0 <= out &ᵇ 0x1FFFFFFF < 1000 ->
  os_operands (gs (mac_demo os_regs out)) (pack_block 4 4 0) (pack_block 4 4 16) false.
Proof.
  intros Ho. split; [done|apply mac_demo_typed|done|done|..|by apply demo_out_ready].
  - split; [reflexivity|]. demo_operand.
  - demo_operand.
  - demo_operand.
Qed.

(** The first element of the block after the write-back. *)
Lemma demo_written x out new v v' : c_stride x = 1 -> block_written (gs (mac_demo x out)) new v v' ->
  vget v' (out &ᵇ 0x1FFFFFFF) 0 = new (0, 0) (vget v (out &ᵇ 0x1FFFFFFF) 0).
Proof.
  intros Hx [Hcells _].
  assert (out_cell (gs (mac_demo x out)) (0, 0) = (out &ᵇ 0x1FFFFFFF, 0)) as E.
  { unfold out_cell. cbn [fst snd]. rewrite Z.mul_0_r, Z.add_0_r. done. }
  specialize (Hcells (0, 0)). rewrite E in Hcells. apply Hcells, elem_of_pairs. by vm_compute.
Qed.

Lemma demo_acc x out value m' : written_back value (mac_demo x out) m' -> c_stride x = 1 -> is_garbage out = false -> is_acc_addr out = true ->
  is_accumulate out = false -> vget (accumulator (gs m')) (out &ᵇ 0x1FFFFFFF) 0 = value (0, 0).
Proof.
  intros Hw Hx Hg Hacc Hf. destruct (written_acc _ _ _ Hw Hg Hacc) as [Hb _]. apply demo_written in Hb; [|done].
  rewrite Hb. change (output_sp_addr _) with out. by rewrite Hf.
Qed.

Lemma demo_spad x out value m' : written_back value (mac_demo x out) m' -> c_stride x = 1 -> is_garbage out = false -> is_acc_addr out = false ->
  vget (spad (gs m')) (out &ᵇ 0x1FFFFFFF) 0 = spad_result (gs (mac_demo x out)) (value (0, 0)).
Proof. intros Hw Hx Hg Hacc. destruct (written_spad _ _ _ Hw Hg Hacc) as [Hb _]. by apply demo_written in Hb. Qed.

(** The same product written to the accumulator and to the scratchpad. *)
Lemma compute_weight_stationary_witness :
  wp (compute (pack_block 4 4 0) (pack_block 4 4 GARBAGE_ADDR) true)
    (fun _ m' => vget (accumulator (gs m')) (0x80000002 &ᵇ 0x1FFFFFFF) 0 = 15) (mac_demo ws_regs 0x80000002) /\
  wp (compute (pack_block 4 4 0) (pack_block 4 4 GARBAGE_ADDR) true)
    (fun _ m' => vget (spad (gs m')) (32 &ᵇ 0x1FFFFFFF) 0 = 15) (mac_demo ws_regs 32).
Proof.
  split.
  - eapply wp_mono; [apply (compute_weight_stationary _ _ true (mac_demo ws_regs 0x80000002)), ws_demo; by vm_compute|].
    intros [] m' [_ Hw]. rewrite (demo_acc _ _ _ _ Hw) by (vm_compute; reflexivity). vm_compute. reflexivity.
  - eapply wp_mono; [apply (compute_weight_stationary _ _ true (mac_demo ws_regs 32)), ws_demo; by vm_compute|].
    intros [] m' [_ Hw]. rewrite (demo_spad _ _ _ _ Hw) by (vm_compute; reflexivity). vm_compute. reflexivity.
Defined.

(** The scratchpad receives 15 shifted by 1 and rounded to even, the accumulator 15. *)
Lemma compute_output_stationary_witness :
  wp (compute (pack_block 4 4 0) (pack_block 4 4 16) false)
    (fun _ m' => vget (spad (gs m')) (32 &ᵇ 0x1FFFFFFF) 0 = 8) (mac_demo os_regs 32) /\
  wp (compute (pack_block 4 4 0) (pack_block 4 4 16) false)
    (fun _ m' => vget (accumulator (gs m')) (0x80000002 &ᵇ 0x1FFFFFFF) 0 = 15) (mac_demo os_regs 0x80000002).
Proof.
  split.
  - eapply wp_mono; [apply (compute_output_stationary _ _ false (mac_demo os_regs 32)), os_demo; by vm_compute|].
    intros [] m' [_ Hw]. rewrite (demo_spad _ _ _ _ Hw) by (vm_compute; reflexivity). vm_compute. reflexivity.
  - eapply wp_mono; [apply (compute_output_stationary _ _ false (mac_demo os_regs 0x80000002)), os_demo; by vm_compute|].
    intros [] m' [_ Hw]. rewrite (demo_acc _ _ _ _ Hw) by (vm_compute; reflexivity). vm_compute. reflexivity.
Defined.
