(* ===== verification/LoopWs.v ===== *)
(** * LoopWs: the weight-stationary matmul loop instruction

    [gemmini_t::loop_ws] of gemmini.cc, a hardware loop that issues [mvin],
    [preload], [compute], [mvout] and [config] steps. *)

From S2P Require Import Prelude Effects Float32 Params State Dram Scaling Norm Config Move Compute.

Section loop_ws.
Context {mem : Type} `{Mmu mem}.

(** Fields of the two operands. *)
Record loop_ws_args := {
  la_ex_accumulate : bool; la_full_C : bool; la_low_D : bool; la_act : Z;
  la_a_transpose : bool; la_b_transpose : bool;
  la_a_spad_id : Z; la_b_spad_id : Z; la_is_resadd : bool }.

Definition loop_ws_decode (rs1 rs2 : Z) : loop_ws_args := {|
  la_ex_accumulate := negb (rs1 &ᵇ 1 =? 0);
  la_full_C := negb ((rs1 ≫ 1) &ᵇ 1 =? 0);
  la_low_D := negb ((rs1 ≫ 2) &ᵇ 1 =? 0);
  la_act := (rs1 ≫ 8) &ᵇ 7;
  la_a_transpose := negb (rs2 &ᵇ 1 =? 0);
  la_b_transpose := negb ((rs2 ≫ 1) &ᵇ 1 =? 0);
  la_a_spad_id := (rs1 ≫ 18) &ᵇ 3;
  la_b_spad_id := (rs1 ≫ 16) &ᵇ 3;
  la_is_resadd := negb ((rs2 ≫ 2) &ᵇ 1 =? 0) |}.

(** The capacity test; the products are computed in [int]. *)
Definition loop_ws_fits (w : loop_ws_regs) : bool :=
  let total_spad_rows :=
    s32 (s32 (s32 (loop_ws_I w * loop_ws_K w) + s32 (loop_ws_K w * loop_ws_J w)) * DIM) in
  let total_acc_rows := s32 (s32 (loop_ws_I w * loop_ws_J w) * DIM) in
  negb ((BANK_NUM * BANK_ROWS / 2 <? total_spad_rows) || (ACC_ROWS / 2 <? total_acc_rows)).

(** Start addresses of the four operands. *)
Definition A_start (a : loop_ws_args) : Z :=
  if la_a_spad_id a =? 2 then (BANK_NUM * BANK_ROWS) / 2 else 0.
Definition B_start (a : loop_ws_args) (w : loop_ws_regs) : Z :=
  u32 ((if la_b_spad_id a =? 2 then BANK_NUM * BANK_ROWS else BANK_NUM * BANK_ROWS / 2)
       - loop_ws_K w * loop_ws_J w * DIM).
Definition D_start : Z := 1 ≪ (ADDR_LEN - 1).
Definition C_start (full_C : bool) : Z :=
  (3 ≪ (ADDR_LEN - 2)) |ᵇ (b2z full_C ≪ (ADDR_LEN - 3)).

(** [DIM - (i == I-1 ? pad : 0)], a [uint64_t]. *)
Definition block_len (i n pad : Z) : Z := u64 (DIM - (if i =? n - 1 then pad else 0)).

(** The residual-addition loops. *)
Definition loop_ws_resadd (a : loop_ws_args) (w : loop_ws_regs) : M (machine mem) unit :=
  let A_sp_addr_start := 1 ≪ (ADDR_LEN - 1) in
  let B_sp_addr_start := 3 ≪ (ADDR_LEN - 2) in
  for_range 0 (loop_ws_I w) (fun i =>
    for_range 0 (loop_ws_J w) (fun j =>
      let offset := (i * loop_ws_J w + j) * DIM in
      let A_sp_addr := u32 (A_sp_addr_start + offset) in
      let B_sp_addr := u32 (B_sp_addr_start + offset) in
      let C_sp_addr := u32 (C_start (la_full_C a) + offset) in
      let cols := block_len j (loop_ws_J w) (loop_ws_pad_J w) in
      let rows := block_len i (loop_ws_I w) (loop_ws_pad_I w) in
      mvin (u64 (loop_ws_A w + (i * loop_ws_A_stride w + j) * DIM * sizeof_elem_t))
        (pack_block rows cols A_sp_addr) 0 ;;
      mvin (u64 (loop_ws_B w + (i * loop_ws_B_stride w + j) * DIM * sizeof_elem_t))
        (pack_block rows cols B_sp_addr) 1 ;;
      when (negb (loop_ws_C w =? 0))
        (let sizeof_C := if la_full_C a then sizeof_acc_t else sizeof_elem_t in
         mvout (u64 (loop_ws_C w + (i * loop_ws_C_stride w + j) * DIM * sizeof_C))
           (pack_block rows cols C_sp_addr)))).

(** Move-in of D. *)
Definition loop_ws_mvin_D (a : loop_ws_args) (w : loop_ws_regs) : M (machine mem) unit :=
  when (negb (loop_ws_D w =? 0))
    (for_range 0 (loop_ws_I w) (fun i =>
      for_range 0 (loop_ws_J w) (fun j =>
        let sizeof_D := if la_low_D a then sizeof_elem_t else sizeof_acc_t in
        let dram_addr := u64 (loop_ws_D w + (i * loop_ws_D_stride w + j) * DIM * sizeof_D) in
        let sp_addr := u32 (D_start + (i * loop_ws_J w + j) * DIM) in
        let cols := block_len j (loop_ws_J w) (loop_ws_pad_J w) in
        let rows := block_len i (loop_ws_I w) (loop_ws_pad_I w) in
        mvin dram_addr (pack_block rows cols sp_addr) 2))).

(** Scratchpad addresses of one step. *)
Definition A_addr (a : loop_ws_args) (w : loop_ws_regs) (i k : Z) : Z :=
  u32 (A_start a + (if la_a_transpose a then k * loop_ws_I w + i else i * loop_ws_K w + k) * DIM).
Definition B_addr (a : loop_ws_args) (w : loop_ws_regs) (j k : Z) : Z :=
  u32 (B_start a w + (if la_b_transpose a then j * loop_ws_K w + k else k * loop_ws_J w + j) * DIM).
Definition C_addr (a : loop_ws_args) (w : loop_ws_regs) (i j : Z) : Z :=
  u32 (C_start (la_full_C a) + (i * loop_ws_J w + j) * DIM).

(** Move-in of one block of A, and of B. *)
Definition loop_ws_mvin_A (a : loop_ws_args) (w : loop_ws_regs) (i k : Z) : M (machine mem) unit :=
  let dram_addr :=
    u64 (loop_ws_A w + (if la_a_transpose a then k * loop_ws_A_stride w + i
                        else i * loop_ws_A_stride w + k) * DIM * sizeof_elem_t) in
  let len_I := block_len i (loop_ws_I w) (loop_ws_pad_I w) in
  let len_K := block_len k (loop_ws_K w) (loop_ws_pad_K w) in
  let cols := if la_a_transpose a then len_I else len_K in
  let rows := if la_a_transpose a then len_K else len_I in
  mvin dram_addr (pack_block rows cols (A_addr a w i k)) 0.

Definition loop_ws_mvin_B (a : loop_ws_args) (w : loop_ws_regs) (j k : Z) : M (machine mem) unit :=
  let dram_addr :=
    u64 (loop_ws_B w + (if la_b_transpose a then j * loop_ws_B_stride w + k
                        else k * loop_ws_B_stride w + j) * DIM * sizeof_elem_t) in
  let len_J := block_len j (loop_ws_J w) (loop_ws_pad_J w) in
  let len_K := block_len k (loop_ws_K w) (loop_ws_pad_K w) in
  let cols := if la_b_transpose a then len_K else len_J in
  let rows := if la_b_transpose a then len_J else len_K in
  mvin dram_addr (pack_block rows cols (B_addr a w j k)) 1.

(** One block product: preload and compute. *)
Definition loop_ws_compute (a : loop_ws_args) (w : loop_ws_regs) (i j k : Z) : M (machine mem) unit :=
  let pre_sp_addr := if i =? 0 then B_addr a w j k else GARBAGE_ADDR in
  let out_sp_addr :=
    if negb (la_ex_accumulate a) && (k =? 0)
    then C_addr a w i j &ᵇ u32 (Z.lnot (1 ≪ (ADDR_LEN - 2))) else C_addr a w i j in
  let len_I := block_len i (loop_ws_I w) (loop_ws_pad_I w) in
  let len_J := block_len j (loop_ws_J w) (loop_ws_pad_J w) in
  let len_K := block_len k (loop_ws_K w) (loop_ws_pad_K w) in
  preload (pack_block len_K len_J pre_sp_addr) (pack_block len_I len_J out_sp_addr) ;;
  compute (pack_block len_I len_K (A_addr a w i k)) (pack_block DIM DIM GARBAGE_ADDR) (i =? 0).

(** Move-out of a block of C. *)
Definition loop_ws_mvout (a : loop_ws_args) (w : loop_ws_regs) (i j : Z) : M (machine mem) unit :=
  let sizeof_C := if la_full_C a then sizeof_acc_t else sizeof_elem_t in
  mvout (u64 (loop_ws_C w + (i * loop_ws_C_stride w + j) * DIM * sizeof_C))
    (pack_block (block_len i (loop_ws_I w) (loop_ws_pad_I w))
                (block_len j (loop_ws_J w) (loop_ws_pad_J w)) (C_addr a w i j)).

(** The norm commands of the two passes and the store, per block: the second
    component is used for the last block of a row. *)
Definition norm_cmds (act : Z) : list (Z * Z) :=
  if act =? 2 then [(1, 2); (3, 4); (0, 0)] else [(5, 5); (6, 7); (0, 0)].

(** Move-out of a block row of C through the norm unit. *)
Definition loop_ws_mvout_norm (a : loop_ws_args) (w : loop_ws_regs) (i : Z) : M (machine mem) unit :=
  let sizeof_C := if la_full_C a then sizeof_acc_t else sizeof_elem_t in
  let rows := block_len i (loop_ws_I w) (loop_ws_pad_I w) in
  for_step 0 rows NORM_STAT_IDS (fun row =>
    let stat_ids := if NORM_STAT_IDS <? rows - row then NORM_STAT_IDS else rows - row in
    for_list (fun cmd =>
      for_range 0 stat_ids (fun stat_id =>
        config ((1 ≪ 17) |ᵇ (stat_id ≪ 8) |ᵇ 3) 0 ;;
        let r := row + stat_id in
        for_range 0 (loop_ws_J w) (fun jj =>
          let last := jj + 1 =? loop_ws_J w in
          let norm_C_sp_addr :=
            u32 (C_start (la_full_C a) + (i * loop_ws_J w + jj) * DIM + r)
            |ᵇ ((if last then snd cmd else fst cmd) ≪ 26) in
          let C_dram_addr :=
            u64 (loop_ws_C w + (i * loop_ws_C_stride w + jj) * DIM * sizeof_C
                 + r * loop_ws_C_stride w * sizeof_C) in
          let cols := u64 (DIM - (if last then loop_ws_pad_J w else 0)) in
          mvout C_dram_addr (pack_block 1 cols norm_C_sp_addr)))) (norm_cmds (la_act a))).

(** The body of the main loop nest. *)
Definition loop_ws_step (a : loop_ws_args) (w : loop_ws_regs) (k j i : Z) : M (machine mem) unit :=
  when ((j =? 0) && negb (loop_ws_A w =? 0)) (loop_ws_mvin_A a w i k) ;;
  when ((i =? 0) && negb (loop_ws_B w =? 0)) (loop_ws_mvin_B a w j k) ;;
  when (negb (la_is_resadd a)) (loop_ws_compute a w i j k) ;;
  when (negb (loop_ws_C w =? 0) && (k =? loop_ws_K w - 1))
    (if negb (la_act a =? act_to_Z LAYERNORM) && negb (la_act a =? act_to_Z SOFTMAX)
     then loop_ws_mvout a w i j
     else when (j =? loop_ws_J w - 1) (loop_ws_mvout_norm a w i)).

(** [gemmini_t::loop_ws] *)
Definition loop_ws (rs1 rs2 : Z) : M (machine mem) unit :=
  let a := loop_ws_decode rs1 rs2 in
  w ← get_gs lws;
  check (loop_ws_fits w) ExitFailure ;;
  if la_is_resadd a then loop_ws_resadd a w
  else
    loop_ws_mvin_D a w ;;
    for_range 0 (loop_ws_K w) (fun k =>
      for_range 0 (loop_ws_J w) (fun j =>
        for_range 0 (loop_ws_I w) (fun i => loop_ws_step a w k j i))).
End loop_ws.
