(* ===== verification/LoopConv.v ===== *)
(** * LoopConv: the weight-stationary convolution loop instruction

    [gemmini_t::loop_conv_ws] of gemmini.cc: its five phases (bias, input and
    weight move-in, the block products, move-out) one definition each. *)

From S2P Require Import Prelude Effects Float32 Params State Dram Scaling Norm Config Move Compute LoopWs.

(** Flags decoded from the two operands.  [activation] is a [bool] in the
    source although its field has two bits. *)
Record conv_args := {
  ca_no_bias : bool; ca_wrot180 : bool; ca_trans_output_1203 : bool; ca_trans_weight_1203 : bool;
  ca_trans_weight_0132 : bool; ca_trans_input_3120 : bool; ca_dw : bool; ca_max_pixels_per_row : Z;
  ca_no_pool : bool; ca_downsample : bool; ca_input_dilated : bool; ca_activation : bool;
  ca_a_spad_id : Z; ca_b_spad_id : Z }.

Definition loop_conv_decode (rs1 rs2 : Z) : conv_args := {|
  ca_no_bias := negb (rs1 &ᵇ 1 =? 0);
  ca_wrot180 := negb ((rs1 ≫ 1) &ᵇ 1 =? 0);
  ca_trans_output_1203 := negb ((rs1 ≫ 2) &ᵇ 1 =? 0);
  ca_trans_weight_1203 := negb ((rs1 ≫ 3) &ᵇ 1 =? 0);
  ca_trans_weight_0132 := negb ((rs1 ≫ 4) &ᵇ 1 =? 0);
  ca_trans_input_3120 := negb ((rs1 ≫ 5) &ᵇ 1 =? 0);
  ca_dw := negb ((rs1 ≫ 6) &ᵇ 1 =? 0);
  ca_max_pixels_per_row :=
    (let p := (rs1 ≫ 8) &ᵇ 0xFF in if p =? 0 then 1 else p);
  ca_no_pool := negb (rs2 &ᵇ 1 =? 0);
  ca_downsample := negb ((rs2 ≫ 1) &ᵇ 1 =? 0);
  ca_input_dilated := negb ((rs2 ≫ 2) &ᵇ 1 =? 0);
  ca_activation := negb ((rs2 ≫ 3) &ᵇ 3 =? 0);
  ca_a_spad_id := (rs1 ≫ 18) &ᵇ 3;
  ca_b_spad_id := (rs1 ≫ 16) &ᵇ 3 |}.

(** The macros [UNDILATED], [DS] and [US]. *)
Definition UNDILATED (a : conv_args) (x : Z) : Z :=
  (x + b2z (ca_input_dilated a)) ≫ b2z (ca_input_dilated a).
Definition DS (a : conv_args) (x : Z) : Z := x ≫ b2z (ca_downsample a).
Definition US (a : conv_args) (x : Z) : Z := x ≪ b2z (ca_downsample a).

(** [int16_t] image dimensions; [irows] and [icols] include padding. *)
Record conv_dims := {
  cd_irows_unpadded : Z; cd_icols_unpadded : Z; cd_irows : Z; cd_icols : Z; cd_ichs : Z;
  cd_A_start : Z; cd_B_start : Z; cd_D_start : Z; cd_C_start : Z }.

Definition conv_image_dim (a : conv_args) (c : loop_conv_regs) (out_n k_n pad1 pad2 : Z) : Z * Z :=
  let dilated_k := s16 (k_n + (lc_kernel_dilation c - 1) * (k_n - 1)) in
  let i_without_dilation := s16 (out_n * lc_stride c + dilated_k - 1) in
  let i_unpadded_without_dilation := s16 (i_without_dilation - pad1 - pad2) in
  let i_unpadded := s16 (if ca_input_dilated a then Z.quot (i_unpadded_without_dilation + 1) 2
                         else i_unpadded_without_dilation) in
  let i := s16 (if ca_input_dilated a then i_unpadded + UNDILATED a pad1 + UNDILATED a pad2
                else i_without_dilation) in
  (i_unpadded, i).

Definition conv_B_rows (a : conv_args) (c : loop_conv_regs) : Z :=
  let ochs := lc_pochs c in
  let out_channels_per_bank := cdiv ochs DIM in
  let in_channels_per_bank := cdiv (lc_kchs c) DIM in
  s32 (if ca_trans_weight_0132 a then in_channels_per_bank * lc_kcols c * lc_krows c * ochs
       else out_channels_per_bank * lc_kcols c * lc_krows c * lc_kchs c).

Definition loop_conv_dims (a : conv_args) (c : loop_conv_regs) : conv_dims :=
  let rows := conv_image_dim a c (lc_orows c) (lc_krows c) (lc_upad c) (lc_dpad c) in
  let cols := conv_image_dim a c (lc_ocols c) (lc_kcols c) (lc_lpad c) (lc_rpad c) in
  {| cd_irows_unpadded := fst rows; cd_icols_unpadded := fst cols;
     cd_irows := snd rows; cd_icols := snd cols; cd_ichs := s16 (lc_kchs c);
     cd_A_start := if ca_a_spad_id a =? 2 then (BANK_NUM * BANK_ROWS) / 2 else 0;
     cd_B_start := u32 ((if ca_b_spad_id a =? 2 then BANK_NUM * BANK_ROWS
                         else BANK_NUM * BANK_ROWS / 2) - conv_B_rows a c);
     cd_D_start := u32 ((1 ≪ (ADDR_LEN - 1)) + lc_D_sp_addr_row c);
     cd_C_start := u32 ((3 ≪ (ADDR_LEN - 2)) + lc_C_sp_addr_row c) |}.

(** The operand of a [config_mvin] issued by the loop, with scale 1. *)
Definition conv_ld_config (block_stride pixels id : Z) : Z :=
  u64 ((bits_of_f32 MVIN_SCALE_IDENTITY ≪ 32) |ᵇ (u64 block_stride ≪ 16) |ᵇ (pixels ≪ 8) |ᵇ (id ≪ 3) |ᵇ 1).

Definition clip (n d : Z) : Z := if d <? n then d else n.

Section loop_conv.
Context {mem : Type} `{Mmu mem}.

(** The double-buffering rows kept in [static] locals. *)
Definition conv_rotate (c : loop_conv_regs) : M (machine mem) unit :=
  when (negb (lc_bias c =? 0))
    (upd_gs (fun s => s <| lcv := (lcv s)
       <| lc_D_sp_addr_row := (lc_D_sp_addr_row c + ACC_ROWS / 2) mod ACC_ROWS |> |>)) ;;
  when (negb (lc_output c =? 0))
    (upd_gs (fun s => s <| lcv := (lcv s)
       <| lc_C_sp_addr_row := (lc_C_sp_addr_row c + ACC_ROWS / 2) mod ACC_ROWS |> |>)).

Definition conv_mvin_bias (a : conv_args) (c : loop_conv_regs) (d : conv_dims) : M (machine mem) unit :=
  let ochs := lc_pochs c in
  let orows := lc_orows c in
  let ocols := lc_ocols c in
  let batches := lc_batches c in
  when (negb (lc_bias c =? 0))
    (let max_ochs_per_mvin :=
       if ochs <? MAX_BLOCK_LEN_ACC * DIM then ochs else MAX_BLOCK_LEN_ACC * DIM in
     config (conv_ld_config (s32 (batches * orows * ocols)) 1 2) 0 ;;
     for_range 0 batches (fun b =>
       for_range 0 orows (fun orow =>
         for_step 0 ocols DIM (fun ocol =>
           let I := clip (ocols - ocol) DIM in
           for_step 0 ochs max_ochs_per_mvin (fun och =>
             let J := clip (ochs - och) max_ochs_per_mvin in
             let D_sp_addr :=
               u32 (cd_D_start d + (och / DIM) * batches * orows * ocols + b * orows * ocols
                    + orow * ocols + ocol) in
             mvin (if ca_no_bias a then 0 else u64 (lc_bias c + och * sizeof_acc_t))
               (pack_block I J D_sp_addr) 2))))).

Definition conv_mvin_input (a : conv_args) (c : loop_conv_regs) (d : conv_dims) : M (machine mem) unit :=
  let batches := lc_batches c in
  let ichs := cd_ichs d in
  let irows := cd_irows d in
  let icols := cd_icols d in
  let trans := ca_trans_input_3120 a in
  when (negb (lc_input c =? 0))
    (let max_chs_per_mvin :=
       if trans then (if batches <? MAX_BLOCK_LEN * DIM then s16 batches else MAX_BLOCK_LEN * DIM)
       else (if ichs <? MAX_BLOCK_LEN * DIM then ichs else MAX_BLOCK_LEN * DIM) in
     let dram_stride := if trans then lc_batch_size c * sizeof_elem_t
                        else lc_in_stride c * sizeof_elem_t in
     let spad_stride := s32 ((if trans then ichs else batches) * DS a irows * DS a icols) in
     config (conv_ld_config spad_stride (ca_max_pixels_per_row a) 0) (u32 (US a dram_stride)) ;;
     let b_it := if trans then max_chs_per_mvin else 1 in
     let ich_it := if trans then 1 else max_chs_per_mvin in
     for_step_u 15 0 batches b_it (fun b =>
       for_step_u 15 (s16 (- UNDILATED a (lc_upad c)))
           (cd_irows_unpadded d + UNDILATED a (lc_dpad c)) (US a 1) (fun irow =>
         let irow_padded := s16 (irow + UNDILATED a (lc_upad c)) in
         let icol_end := cd_icols_unpadded d + UNDILATED a (lc_rpad c) in
         let icol_start := s16 (- UNDILATED a (lc_lpad c)) in
         while_counter (Z.to_nat (icol_end - icol_start)) (fun icol => icol <? icol_end) (fun icol =>
           let I := s16 (
             if icol <? 0 then clip (- icol) DIM
             else if cd_icols_unpadded d <=? icol then clip (icol_end - icol) DIM
             else clip (cd_icols_unpadded d - icol) (US a DIM)) in
           let icol_padded := s16 (icol + UNDILATED a (lc_lpad c)) in
           for_step_u 15 0 ichs ich_it (fun ich =>
             let K := s16 (if trans then clip (batches - b) max_chs_per_mvin
                           else clip (ichs - ich) max_chs_per_mvin) in
             let A_sp_addr :=
               u32 (cd_A_start d +
                    (if trans then (Z.quot b DIM) * spad_stride + ich * DS a irows * DS a icols
                     else (Z.quot ich DIM) * spad_stride + b * DS a irows * DS a icols)
                    + DS a irow_padded * DS a icols + DS a icol_padded) in
             let is_zeros := (irow <? 0) || (cd_irows_unpadded d <=? irow) || (icol <? 0)
                             || (cd_icols_unpadded d <=? icol) in
             let image x := x * lc_in_row_dim c * lc_in_col_dim c + irow * lc_in_col_dim c + icol in
             let in_addr :=
               if is_zeros then 0
               else if trans then u64 (lc_input c + s32 (image ich * lc_batch_size c + b) * sizeof_elem_t)
               else u64 (lc_input c + s32 (image b * lc_in_stride c + ich) * sizeof_elem_t) in
             mvin in_addr (pack_block (u64 (DS a I)) (u64 K) A_sp_addr) 0) ;;
           mret (s16 (icol + I))) icol_start))).

Definition conv_mvin_weights (a : conv_args) (c : loop_conv_regs) (d : conv_dims) : M (machine mem) unit :=
  let ochs := lc_pochs c in
  let krows := lc_krows c in
  let kcols := lc_kcols c in
  let kchs := lc_kchs c in
  let trans := ca_trans_weight_0132 a in
  when (negb (lc_weights c =? 0))
    (let max_chs_per_mvin :=
       if trans then (if kchs <? MAX_BLOCK_LEN * DIM then kchs else MAX_BLOCK_LEN * DIM)
       else (if ochs <? MAX_BLOCK_LEN * DIM then ochs else MAX_BLOCK_LEN * DIM) in
     let dram_stride :=
       if ca_dw a then sizeof_elem_t
       else if ca_trans_weight_1203 a then
         u64 (s32 (lc_kernel_dim c * lc_kernel_dim c * lc_out_channels c) * sizeof_elem_t)
       else if trans then lc_in_channels c * sizeof_elem_t
       else lc_weight_stride c * sizeof_elem_t in
     let spad_block_stride := s32 (if trans then krows * kcols * ochs else krows * kcols * kchs) in
     config (conv_ld_config spad_block_stride 1 1) dram_stride ;;
     let och_it := if trans then DIM else max_chs_per_mvin in
     let kch_it := if trans then max_chs_per_mvin else DIM in
     for_step_u 16 0 ochs och_it (fun och =>
       for_range 0 krows (fun krow =>
         for_range 0 kcols (fun kcol =>
           for_step_u 16 0 kchs kch_it (fun kch =>
             let K := if trans then clip (ochs - och) DIM else clip (kchs - kch) DIM in
             let J := if trans then clip (kchs - kch) max_chs_per_mvin
                      else clip (ochs - och) max_chs_per_mvin in
             let B_sp_addr :=
               u32 (cd_B_start d +
                    (if trans then (kch / DIM) * krows * kcols * ochs + krow * kcols * ochs
                                   + kcol * ochs + och
                     else (och / DIM) * krows * kcols * kchs + krow * kcols * kchs
                          + kcol * kchs + kch)) in
             let w :=
               if ca_dw a then
                 u64 ((lc_weights c + krow * lc_kernel_dim c + kcol) * sizeof_elem_t)
               else if ca_trans_weight_1203 a then
                 u64 (lc_weights c + s32 ((kch * lc_kernel_dim c * lc_kernel_dim c
                   + krow * lc_kernel_dim c + kcol) * lc_out_channels c + och) * sizeof_elem_t)
               else if trans then
                 u64 (lc_weights c + s32 ((krow * lc_kernel_dim c * lc_out_channels c
                   + kcol * lc_out_channels c + och) * lc_in_channels c + kch) * sizeof_elem_t)
               else
                 u64 (lc_weights c + s32 ((krow * lc_kernel_dim c * lc_in_channels c
                   + kcol * lc_in_channels c + kch) * lc_weight_stride c + och) * sizeof_elem_t) in
             mvin w (pack_block K J B_sp_addr) 1))))).

(** One block product of the compute phase. *)
Definition conv_compute_step (a : conv_args) (c : loop_conv_regs) (d : conv_dims)
    (och krow kcol kch b orow ocol : Z) (new_weights : bool) : M (machine mem) unit :=
  let ochs := lc_pochs c in
  let orows := lc_orows c in
  let ocols := lc_ocols c in
  let batches := lc_batches c in
  let krows := lc_krows c in
  let kcols := lc_kcols c in
  let kchs := lc_kchs c in
  let irows := cd_irows d in
  let icols := cd_icols d in
  let irow := u16 (UNDILATED a (orow * lc_stride c + krow * lc_kernel_dilation c)) in
  let icol := u16 (UNDILATED a (ocol * lc_stride c + kcol * lc_kernel_dilation c)) in
  let C_sp_addr :=
    u32 (cd_C_start d + (och / DIM) * batches * orows * ocols + b * orows * ocols + orow * ocols + ocol) in
  let pixels := u8 (clip (kcols - kcol) (ca_max_pixels_per_row a)) in
  let I := u16 (if ca_trans_input_3120 a then clip (batches - b) DIM
                else UNDILATED a (clip (ocols - ocol) (DIM ≪ b2z (ca_input_dilated a)))) in
  let J := u16 (clip (ochs - och) DIM) in
  let K := u16 (pixels * clip (kchs - kch) DIM) in
  let A_sp_addr :=
    u32 (cd_A_start d +
         (if ca_trans_input_3120 a
          then (b / DIM) * kchs * DS a irows * DS a icols + kch * DS a irows * DS a icols
          else (kch / DIM) * batches * DS a irows * DS a icols + b * DS a irows * DS a icols)
         + DS a irow * DS a icols + DS a icol) in
  let krow_ := if ca_wrot180 a then krows - krow - 1 else krow in
  let kcol_ := if ca_wrot180 a then kcols - kcol - 1 else kcol in
  let B_sp_addr :=
    u32 (cd_B_start d +
         (if ca_trans_weight_0132 a
          then (kch / DIM) * krows * kcols * ochs + krow_ * kcols * ochs + kcol_ * ochs + och
          else (och / DIM) * krows * kcols * kchs + krow_ * kcols * kchs + kcol_ * kchs + kch)) in
  let pre_sp_addr := if new_weights then B_sp_addr else GARBAGE_ADDR in
  preload (pack_block K J pre_sp_addr) (pack_block I J C_sp_addr) ;;
  compute (pack_block I K A_sp_addr) (pack_block I J GARBAGE_ADDR) new_weights.

(** The compute phase; [new_weights] is the local flag of the source. *)
Definition conv_compute (a : conv_args) (c : loop_conv_regs) (d : conv_dims) : M (machine mem) unit :=
  let b_it := if ca_trans_input_3120 a then DIM else 1 in
  let ocol_it := if ca_trans_input_3120 a then 1 else DIM ≪ b2z (ca_input_dilated a) in
  when (ca_trans_input_3120 a)
    (let a_stride := u16 (cd_irows d * cd_icols d) in
     let c_stride := u16 (lc_orows c * lc_ocols c) in
     config ((a_stride ≪ 16) |ᵇ (1 ≪ 7)) (c_stride ≪ 48)) ;;
  for_step_u 16 0 (lc_pochs c) DIM (fun och =>
    for_range 0 (lc_krows c) (fun krow =>
      for_step_u 16 0 (lc_kcols c) (ca_max_pixels_per_row a) (fun kcol =>
        for_step_u 16 0 (lc_kchs c) DIM (fun kch =>
          _ ← fold_step_u 16 0 (lc_batches c) b_it (fun new_weights b =>
            fold_range 0 (lc_orows c) (fun new_weights orow =>
              if ca_input_dilated a &&
                 negb (Z.rem (krow * lc_kernel_dilation c + orow - lc_upad c) 2 =? 0)
              then mret new_weights
              else
                while_fold (Z.to_nat (lc_ocols c)) (fun ocol => ocol <? lc_ocols c) (fun new_weights ocol =>
                  if ca_input_dilated a &&
                     negb (Z.rem (kcol * lc_kernel_dilation c + ocol - lc_lpad c) 2 =? 0)
                  then mret (new_weights, u16 (ocol + 1))
                  else
                    conv_compute_step a c d och krow kcol kch b orow ocol new_weights ;;
                    mret (false, u16 (ocol + ocol_it))) new_weights 0) new_weights) true;
          mret tt)))).

(** Move-out without pooling. *)
Definition conv_mvout_plain (a : conv_args) (c : loop_conv_regs) (d : conv_dims) : M (machine mem) unit :=
  let ochs := lc_pochs c in
  let orows := lc_orows c in
  let ocols := lc_ocols c in
  let batches := lc_batches c in
  for_range 0 batches (fun b =>
    for_range 0 orows (fun orow =>
      for_step_u 16 0 ocols DIM (fun ocol =>
        let I := clip (ocols - ocol) DIM in
        for_step_u 16 0 ochs DIM (fun och =>
          let J := clip (ochs - och) DIM in
          let C_sp_addr :=
            u32 (cd_C_start d + (och / DIM) * batches * orows * ocols + b * orows * ocols
                 + orow * ocols + ocol) in
          let out :=
            if ca_trans_output_1203 a then
              u64 (lc_output c + s32 ((orow * lc_out_col_dim c * lc_batch_size c
                + ocol * lc_batch_size c + b) * lc_out_channels c + och) * sizeof_elem_t)
            else
              u64 (lc_output c + s32 ((b * lc_out_row_dim c * lc_out_col_dim c
                + orow * lc_out_col_dim c + ocol) * lc_out_stride c + och) * sizeof_elem_t) in
          mvout out (pack_block I J C_sp_addr))))).

(** Move-out through the pooling unit, which is configured before and
    switched off after. *)
Definition conv_mvout_pool (a : conv_args) (c : loop_conv_regs) (d : conv_dims) : M (machine mem) unit :=
  acc_scale ← get_gs (fun s => acc_shift (st s));
  let act_bits := (b2z (ca_activation a) ≪ 2) |ᵇ 2 in
  let st_rs2 := u64 ((bits_of_f32 acc_scale ≪ 32) |ᵇ (lc_out_stride c * sizeof_elem_t)) in
  config
    (u64 ((lc_ocols c ≪ 56) |ᵇ (lc_orows c ≪ 48) |ᵇ (lc_pocols c ≪ 40) |ᵇ (lc_porows c ≪ 32)
      |ᵇ (lc_pool_out_col_dim c ≪ 24) |ᵇ (lc_plpad c ≪ 10) |ᵇ (lc_pupad c ≪ 8)
      |ᵇ (lc_pool_size c ≪ 6) |ᵇ (lc_pool_stride c ≪ 4) |ᵇ act_bits)) st_rs2 ;;
  for_range 0 (lc_batches c) (fun b =>
    for_step 0 (lc_pochs c) DIM (fun poch =>
      let channels := if lc_pochs c <=? poch + DIM then lc_pochs c - poch else DIM in
      let C_sp_addr :=
        u32 (cd_C_start d + (poch / DIM) * lc_batches c * lc_orows c * lc_ocols c
             + b * lc_orows c * lc_ocols c) in
      mvout
        (u64 (lc_output c + s32 ((b * lc_pool_out_row_dim c * lc_pool_out_col_dim c) * lc_out_stride c
                                 + poch) * sizeof_elem_t))
        (u64 ((channels ≪ 32) |ᵇ C_sp_addr)))) ;;
  config act_bits st_rs2.

(** [gemmini_t::loop_conv_ws] *)
Definition loop_conv_ws (rs1 rs2 : Z) : M (machine mem) unit :=
  let a := loop_conv_decode rs1 rs2 in
  c ← get_gs lcv;
  check (negb (ca_input_dilated a) || (lc_stride c =? 1)) AssertFailed ;;
  let d := loop_conv_dims a c in
  conv_rotate c ;;
  conv_mvin_bias a c d ;;
  conv_mvin_input a c d ;;
  conv_mvin_weights a c d ;;
  conv_compute a c d ;;
  when (negb (lc_output c =? 0))
    (if ca_no_pool a then conv_mvout_plain a c d else conv_mvout_pool a c d).
End loop_conv.
