(* ===== verification/Counters.v ===== *)
(** * Counters: the performance counters

    [counter_operation], [counter_increment] and [counter_increment_random] of
    gemmini.cc.  The simulator has no timing: a counter advances by the value
    of [rand()] masked to nine bits at each instruction while an operation is
    in progress. *)

From S2P Require Import Prelude Effects Float32 Params State.

(** [union counter_op_param]: the bit fields, from the least significant. *)
Record counter_op := {
  co_counter_reset : bool; co_snapshot_reset : bool; co_take_snapshot : bool; co_change_config : bool;
  co_counter_index : Z; co_counter_addr : Z; co_external_counter : bool }.

Definition counter_op_decode (arg : Z) : counter_op := {|
  co_counter_reset := Z.testbit arg 0;
  co_snapshot_reset := Z.testbit arg 1;
  co_take_snapshot := Z.testbit arg 2;
  co_change_config := Z.testbit arg 3;
  co_counter_index := (arg ≫ 4) &ᵇ 7;
  co_counter_addr := (arg ≫ 12) &ᵇ 0x3F;
  co_external_counter := Z.testbit arg 31 |}.

(** The value a counter shows outside a snapshot. *)
Definition counter_live {S} (c : counter_regs) (i : Z) : M S Z :=
  external ← arr_get (counter_external_flag c) i;
  if (external : bool) then
    cfg ← arr_get (counter_config c) i; arr_get (counter_external c) cfg
  else arr_get (counter_val c) i.

(** The loop under [take_snapshot]. *)
Definition counter_snapshot {S} (c : counter_regs) : M S counter_regs :=
  fold_range 0 NUM_COUNTERS (fun c i =>
    v ← counter_live c i;
    l ← arr_set (counter_snapshot_val c) i v;
    mret (c <| counter_snapshot_val := l |>)) c.

Definition counter_change_config {S} (d : counter_op) (c : counter_regs) : M S counter_regs :=
  cfg ← arr_set (counter_config c) (co_counter_index d) (co_counter_addr d);
  val ← arr_set (counter_val c) (co_counter_index d) 0;
  ext ← arr_set (counter_external_flag c) (co_counter_index d) (co_external_counter d);
  mret (c <| counter_config := cfg |> <| counter_val := val |> <| counter_external_flag := ext |>).

(** The state changes of [counter_operation], in order. *)
Definition counter_update {S} (d : counter_op) (c : counter_regs) : M S counter_regs :=
  let c := if co_counter_reset d
           then c <| counter_val := replicate (Z.to_nat NUM_COUNTERS) 0 |> <| op_in_progress := false |>
           else c in
  let c := if co_snapshot_reset d then c <| snapshot_enable := false |> else c in
  c ← (if co_take_snapshot d then counter_snapshot (c <| snapshot_enable := true |>) else mret c);
  if co_change_config d then counter_change_config d c else mret c.

Section counters.
Context {mem : Type} `{Rand}.

(** [gemmini_t::counter_operation] *)
Definition counter_operation (rs1 : Z) : M (machine mem) Z :=
  let d := counter_op_decode rs1 in
  c ← get_gs cnt;
  c ← counter_update d c;
  upd_gs (fun s => s <| cnt := c |>) ;;
  if snapshot_enable c then arr_get (counter_snapshot_val c) (co_counter_index d)
  else counter_live c (co_counter_index d).

(** [gemmini_t::counter_increment]: the first counter configured for the
    event, if any, wraps around modulo [2^32]. *)
Fixpoint increment_first (counter_id : Z) (configs vals : list Z) : list Z :=
  match configs, vals with
  | c :: configs', v :: vals' =>
      if c =? counter_id then u32 (v + 1) :: vals' else v :: increment_first counter_id configs' vals'
  | _, _ => vals
  end.

Definition counter_increment (counter_id : Z) : M (machine mem) unit :=
  upd_gs (fun s => s <| cnt := (cnt s)
    <| counter_val := increment_first counter_id (counter_config (cnt s)) (counter_val (cnt s)) |> |>).

(** [rand()] *)
Definition rand : M (machine mem) Z := fun m =>
  (Ok (rand_seq (rand_pos m)), Machine (gs m) (dram m) (S (rand_pos m))).

(** [gemmini_t::counter_increment_random] *)
Definition counter_increment_random : M (machine mem) unit :=
  for_range 0 NUM_COUNTERS (fun i =>
    r ← rand;
    c ← get_gs cnt;
    v ← arr_get (counter_val c) i;
    l ← arr_set (counter_val c) i (u32 (v + (r &ᵇ 0x1ff)));
    upd_gs (fun s => s <| cnt := (cnt s) <| counter_val := l |> |>)) ;;
  for_range 0 NUM_EXTERNAL_COUNTERS (fun i =>
    r ← rand;
    c ← get_gs cnt;
    l ← arr_set (counter_external c) i (r &ᵇ 0xf);
    upd_gs (fun s => s <| cnt := (cnt s) <| counter_external := l |> |>)).
End counters.
