(* ===== verification/Cisc.v ===== *)
(** * Cisc: the memory-to-memory matrix multiplication

    [matrix_zeroes], [read_matrix_from_dram] and [compute_cisc] of gemmini.cc,
    the operation that the (commented out) CISC opcodes would start. *)

From S2P Require Import Prelude Effects Float32 Params State Dram Scaling.

Section cisc.
Context {mem : Type} `{Mmu mem}.

Definition matrix_zeroes (rows cols : Z) : vec2 := vec2_zeros rows cols.

(** [read_matrix_from_dram<T>] with [sizeof_T] the size of [T]: the address
    steps by [sizeof(T)] but each element is read as an [elem_t]. *)
Definition read_matrix_from_dram (sizeof_T addr rows cols : Z) (zeroable repeating_bias : bool)
  : M (machine mem) vec2 :=
  let result := matrix_zeroes rows cols in
  if addr =? 0 then (if zeroable then mret result else fail ExitFailure)
  else
    fold_range 0 rows (fun result i =>
      let ii := if repeating_bias then 0 else i in
      let dram_row_addr := u64 (addr + ii * sizeof_T * cols) in
      fold_range 0 cols (fun result j =>
        let dram_byte_addr := u64 (dram_row_addr + j * sizeof_T) in
        v ← read_from_dram sizeof_elem_t dram_byte_addr;
        vec_put result i j v) result) result.

(** The dot product of one element of C, on top of the bias. *)
Definition cisc_dot (A B : vec2) (k_bound i j bias : Z) : M (machine mem) Z :=
  fold_range 0 k_bound (fun value k =>
    a ← vec_at A i k;
    b ← vec_at B k j;
    mret (s32 (value + s32 (a * b)))) bias.

(** [gemmini_t::compute_cisc] *)
Definition compute_cisc : M (machine mem) unit :=
  s ← get_gs id;
  let r := csc s in
  A ← read_matrix_from_dram sizeof_elem_t (a_addr r) (cisc_m r) (cisc_k r) false false;
  B ← read_matrix_from_dram sizeof_elem_t (b_addr r) (cisc_k r) (cisc_n r) false false;
  D ← read_matrix_from_dram sizeof_acc_t (d_addr r) (cisc_m r) (cisc_n r) true (repeating_bias r);
  C ← fold_range 0 (cisc_m r) (fun C i =>
    fold_range 0 (cisc_n r) (fun C j =>
      bias ← vec_at D i j;
      value ← cisc_dot A B (cisc_k r) i j bias;
      shifted ← of_option Undefined (acc_scale value (acc_shift (st s)));
      let activated := apply_activation_acc s shifted in
      vec_put C i j activated) C) (matrix_zeroes (cisc_m r) (cisc_n r));
  for_range 0 (cisc_m r) (fun i =>
    let dram_row_addr := u64 (c_addr r + i * sizeof_elem_t * cisc_n r) in
    for_range 0 (cisc_n r) (fun j =>
      let dram_byte_addr := u64 (dram_row_addr + j * sizeof_elem_t) in
      v ← vec_at C i j;
      write_to_dram sizeof_elem_t dram_byte_addr v)).
End cisc.
