(* ===== verification/Dispatch.v ===== *)
(** * Dispatch: the instruction decoder of the accelerator

    [gemmini_t::custom3] and [gemmini_custom] of gemmini.cc, with the function
    codes of gemmini.h. *)

From S2P Require Import Prelude Effects Float32 Params State Dram Scaling Norm Config Move Compute LoopWs LoopConv Counters.

(** Function codes. *)
Definition config_funct : Z := 0.
Definition mvin2_funct : Z := 1.
Definition mvin_funct : Z := 2.
Definition mvout_funct : Z := 3.
Definition compute_preloaded_funct : Z := 4.
Definition compute_accumulated_funct : Z := 5.
Definition preload_funct : Z := 6.
Definition flush_funct : Z := 7.
Definition loop_ws_funct : Z := 8.
Definition loop_ws_config_bounds_funct : Z := 9.
Definition loop_ws_config_addrs_AB_funct : Z := 10.
Definition loop_ws_config_addrs_DC_funct : Z := 11.
Definition loop_ws_config_strides_AB_funct : Z := 12.
Definition loop_ws_config_strides_DC_funct : Z := 13.
Definition mvin3_funct : Z := 14.
Definition loop_conv_ws_funct : Z := 15.
Definition loop_conv_ws_config_1_funct : Z := 16.
Definition loop_conv_ws_config_2_funct : Z := 17.
Definition loop_conv_ws_config_3_funct : Z := 18.
Definition loop_conv_ws_config_4_funct : Z := 19.
Definition loop_conv_ws_config_5_funct : Z := 20.
Definition loop_conv_ws_config_6_funct : Z := 21.
Definition counter_op_funct : Z := 126.
Definition fence_funct : Z := 127.

(** The fields of a RoCC instruction the extension looks at. *)
Record rocc_insn := {
  ri_funct : Z; ri_rs1 : Z; ri_rs2 : Z; ri_rd : Z; ri_xs1 : bool; ri_xs2 : bool; ri_xd : bool }.

Section dispatch.
Context {mem : Type} `{Mmu mem} `{Rand}.

(** The chain of comparisons on [insn.funct], except for the counter
    operation, which returns from the middle of it. *)
Definition execute (funct xs1 xs2 : Z) : M (machine mem) unit :=
  if funct =? mvin_funct then mvin xs1 xs2 0
  else if funct =? mvin2_funct then mvin xs1 xs2 1
  else if funct =? mvin3_funct then mvin xs1 xs2 2
  else if funct =? mvout_funct then mvout xs1 xs2
  else if funct =? preload_funct then preload xs1 xs2
  else if funct =? config_funct then config xs1 xs2
  else if funct =? compute_preloaded_funct then compute xs1 xs2 true
  else if funct =? compute_accumulated_funct then compute xs1 xs2 false
  else if funct =? loop_ws_config_bounds_funct then loop_ws_config_bounds xs1 xs2
  else if funct =? loop_ws_config_addrs_AB_funct then loop_ws_config_addrs_AB xs1 xs2
  else if funct =? loop_ws_config_addrs_DC_funct then loop_ws_config_addrs_DC xs1 xs2
  else if funct =? loop_ws_config_strides_AB_funct then loop_ws_config_strides_AB xs1 xs2
  else if funct =? loop_ws_config_strides_DC_funct then loop_ws_config_strides_DC xs1 xs2
  else if funct =? loop_ws_funct then loop_ws xs1 xs2
  else if funct =? loop_conv_ws_config_1_funct then loop_conv_ws_config_1 xs1 xs2
  else if funct =? loop_conv_ws_config_2_funct then loop_conv_ws_config_2 xs1 xs2
  else if funct =? loop_conv_ws_config_3_funct then loop_conv_ws_config_3 xs1 xs2
  else if funct =? loop_conv_ws_config_4_funct then loop_conv_ws_config_4 xs1 xs2
  else if funct =? loop_conv_ws_config_5_funct then loop_conv_ws_config_5 xs1 xs2
  else if funct =? loop_conv_ws_config_6_funct then loop_conv_ws_config_6 xs1 xs2
  else if funct =? loop_conv_ws_funct then loop_conv_ws xs1 xs2
  else if funct =? flush_funct then mret tt
  else if funct =? fence_funct then mret tt
  else fail IllegalInstruction.

(** [gemmini_t::custom3]: reset on first use, advance the counters, execute,
    and remember whether an operation is in progress. *)
Definition custom3 (funct xs1 xs2 : Z) : M (machine mem) Z :=
  r ← get_gs resetted;
  when (negb r) reset ;;
  p ← get_gs (fun s => op_in_progress (cnt s));
  when p counter_increment_random ;;
  if funct =? counter_op_funct then counter_operation xs1
  else
    execute funct xs1 xs2 ;;
    upd_gs (fun s => s <| cnt := (cnt s) <| op_in_progress := negb (funct =? flush_funct) |> |>) ;;
    mret 0.

(** The integer registers of the hart belong to Spike: they are an argument,
    and the result of [gemmini_custom] is the write to [rd], if any. *)
Definition gemmini_custom (XPR : Z -> Z) (insn : rocc_insn) (pc : Z) : M (machine mem) (Z * option (Z * Z)) :=
  let xs1 := if ri_xs1 insn then XPR (ri_rs1 insn) else u64 (-1) in
  let xs2 := if ri_xs2 insn then XPR (ri_rs2 insn) else u64 (-1) in
  xd ← custom3 (ri_funct insn) xs1 xs2;
  mret (u64 (pc + 4), if ri_xd insn then Some (ri_rd insn, xd) else None).
End dispatch.
