(* ===== verification/Invariant.v ===== *)
(** * Invariant: every state the simulator reaches is well typed

    [wf] says that every member of [gemmini_state_t] holds a value of its
    declared type and that arrays and vectors have their declared sizes.  The
    theorem at the end shows that every instruction preserves it, including
    the runs that end in a fault. *)

From S2P Require Import Prelude Effects Float32 Params State Dram Scaling Norm Config Move Compute LoopWs LoopConv Counters Dispatch.

Definition vec_ok (w rows cols : Z) (v : vec2) : Prop :=
  v_rows v = rows /\ v_cols v = cols /\ forall r c, in_s w (vget v r c).

Definition arr_ok {A} (n : Z) (P : A -> Prop) (l : list A) : Prop :=
  Z.of_nat (length l) = n /\ Forall P l.

Record wf_pre (p : preload_regs) : Prop := {
  wf_output_sp_addr : in_u 32 (output_sp_addr p); wf_preload_sp_addr : in_u 32 (preload_sp_addr p);
  wf_preload_cols : in_u 16 (preload_cols p); wf_preload_rows : in_u 16 (preload_rows p);
  wf_output_cols : in_u 16 (output_cols p); wf_output_rows : in_u 16 (output_rows p) }.

Record wf_ex (x : ex_regs) : Prop := {
  wf_sys_shift : 0 <= sys_shift_reg x < sizeof_acc_t * 8;
  wf_c_stride : in_u 16 (c_stride x); wf_a_stride : in_u 16 (a_stride x) }.

Record wf_ld (l : ld_regs) : Prop := {
  wf_load_strides : arr_ok LOAD_STATES (in_u 64) (load_strides l);
  wf_load_block_strides : arr_ok LOAD_STATES (in_u 16) (load_block_strides l);
  wf_load_shrunks : arr_ok LOAD_STATES (fun _ => True) (load_shrunks l);
  wf_load_scales : arr_ok LOAD_STATES (fun _ => True) (load_scales l);
  wf_pixels : arr_ok LOAD_STATES (fun p => 1 <= p < 2 ^ 8) (pixels_per_rows l) }.

Record wf_st (t : st_regs) : Prop := {
  wf_store_stride : in_u 32 (store_stride t);
  wf_pool_stride : in_u 2 (pool_stride t); wf_pool_size : in_u 2 (pool_size t);
  wf_pool_out_dim : in_u 8 (pool_out_dim t);
  wf_pool_porows : in_u 8 (pool_porows t); wf_pool_pocols : in_u 8 (pool_pocols t);
  wf_pool_orows : in_u 8 (pool_orows t); wf_pool_ocols : in_u 8 (pool_ocols t);
  wf_pool_lpad : in_u 2 (pool_lpad t); wf_pool_upad : in_u 2 (pool_upad t) }.

Record wf_nrm (n : norm_regs) : Prop := {
  wf_igelu_qb : in_s 32 (igelu_qb n); wf_igelu_qc : in_s 32 (igelu_qc n);
  wf_qln2 : in_s 32 (qln2 n); wf_qln2_inv : in_s 32 (qln2_inv n);
  wf_norm_stat_id : in_u 8 (norm_stat_id n);
  wf_norm_sum : arr_ok NORM_STAT_IDS (in_s 32) (norm_sum n);
  wf_norm_running_max : arr_ok NORM_STAT_IDS (in_s 32) (norm_running_max n);
  wf_norm_max : arr_ok NORM_STAT_IDS (in_s 32) (norm_max n);
  wf_norm_count : arr_ok NORM_STAT_IDS (in_s 32) (norm_count n);
  wf_norm_mean : arr_ok NORM_STAT_IDS (in_s 32) (norm_mean n);
  wf_norm_inv_stddev : arr_ok NORM_STAT_IDS (fun _ => True) (norm_inv_stddev n);
  wf_norm_inv_sum_exp : arr_ok NORM_STAT_IDS (fun _ => True) (norm_inv_sum_exp n);
  wf_norm_reset : arr_ok NORM_STAT_IDS (fun _ => True) (norm_reset n) }.

Record wf_lws (w : loop_ws_regs) : Prop := {
  wf_ws_I : in_u 16 (loop_ws_I w); wf_ws_J : in_u 16 (loop_ws_J w); wf_ws_K : in_u 16 (loop_ws_K w);
  wf_ws_pad_I : in_u 16 (loop_ws_pad_I w); wf_ws_pad_J : in_u 16 (loop_ws_pad_J w);
  wf_ws_pad_K : in_u 16 (loop_ws_pad_K w);
  wf_ws_A : in_u 64 (loop_ws_A w); wf_ws_B : in_u 64 (loop_ws_B w);
  wf_ws_D : in_u 64 (loop_ws_D w); wf_ws_C : in_u 64 (loop_ws_C w);
  wf_ws_A_stride : in_u 64 (loop_ws_A_stride w); wf_ws_B_stride : in_u 64 (loop_ws_B_stride w);
  wf_ws_D_stride : in_u 64 (loop_ws_D_stride w); wf_ws_C_stride : in_u 64 (loop_ws_C_stride w) }.

(** The [uint16_t] members of the convolution loop. *)
Definition lcv_fields (c : loop_conv_regs) : list Z :=
  [lc_batch_size c; lc_in_row_dim c; lc_in_col_dim c; lc_in_channels c; lc_out_channels c;
   lc_in_stride c; lc_weight_stride c; lc_out_stride c; lc_out_row_dim c; lc_pool_out_row_dim c;
   lc_out_col_dim c; lc_pool_out_col_dim c; lc_stride c; lc_padding c; lc_kernel_dim c; lc_pool_size c;
   lc_pool_stride c; lc_pool_padding c; lc_batches c; lc_porows c; lc_pocols c; lc_pochs c; lc_krows c;
   lc_kcols c; lc_kchs c; lc_lpad c; lc_rpad c; lc_upad c; lc_dpad c; lc_plpad c; lc_prad c; lc_pupad c;
   lc_pdpad c; lc_orows c; lc_ocols c; lc_kernel_dilation c].

Record wf_lcv (c : loop_conv_regs) : Prop := {
  wf_lcv_u16 : Forall (in_u 16) (lcv_fields c);
  wf_lcv_u64 : Forall (in_u 64) [lc_input c; lc_weights c; lc_output c; lc_bias c];
  wf_lcv_rows : Forall (fun r => 0 <= r < ACC_ROWS) [lc_D_sp_addr_row c; lc_C_sp_addr_row c] }.

Record wf_cnt (c : counter_regs) : Prop := {
  wf_counter_val : arr_ok NUM_COUNTERS (in_u 32) (counter_val c);
  wf_counter_snapshot_val : arr_ok NUM_COUNTERS (in_u 32) (counter_snapshot_val c);
  wf_counter_config : arr_ok NUM_COUNTERS (in_u 16) (counter_config c);
  wf_counter_external : arr_ok NUM_EXTERNAL_COUNTERS (in_u 32) (counter_external c);
  wf_counter_external_flag : arr_ok NUM_COUNTERS (fun _ => True) (counter_external_flag c) }.

Record wf (s : gemmini_state) : Prop := {
  wf_s_pre : wf_pre (pre s); wf_s_ex : wf_ex (ex s); wf_s_ld : wf_ld (ld s); wf_s_st : wf_st (st s);
  wf_s_nrm : wf_nrm (nrm s); wf_s_lws : wf_lws (lws s); wf_s_lcv : wf_lcv (lcv s); wf_s_cnt : wf_cnt (cnt s);
  wf_s_spad : vec_ok 8 (if resetted s then sp_matrices * DIM else 0) (if resetted s then DIM else 0) (spad s);
  wf_s_pe : vec_ok 32 (if resetted s then DIM else 0) (if resetted s then DIM else 0) (pe_state s);
  wf_s_acc : vec_ok 32 (if resetted s then accum_rows else 0) (if resetted s then DIM else 0) (accumulator s) }.

Definition mwf {mem} (m : machine mem) : Prop := wf (gs m).

(** Values of the accumulator and scratchpad types. *)
Abbreviation acc_t := (in_s 32).
Abbreviation elem_t := (in_s 8).

Lemma elem_acc x : in_s 8 x -> in_s 32 x.
Proof. unfold in_s. simpl. lia. Qed.

Create HintDb wfs.
#[export] Hint Resolve elem_acc : wfs.

(** ** Vectors and arrays *)

Lemma vec_ok_vset w rows cols v r c x : vec_ok w rows cols v -> in_s w x -> vec_ok w rows cols (vset v r c x).
Proof.
  intros (Hr & Hc & Hv) Hx. split_and!; [done..|]. intros r' c'. rewrite vget_vset. by case_decide.
Qed.

Lemma vec_ok_zeros w rows cols : 0 < w -> vec_ok w rows cols (vec2_zeros rows cols).
Proof.
  intros Hw. split_and!; [done..|]. intros r c. rewrite vget_zeros. unfold in_s.
  pose proof (Z.pow_pos_nonneg 2 (w - 1)). lia.
Qed.

Lemma arr_ok_insert {A} n (P : A -> Prop) l i x : arr_ok n P l -> P x -> arr_ok n P (<[i := x]> l).
Proof. intros [Hl HP] Hx. split; [by rewrite length_insert|]. by apply Forall_insert. Qed.

Lemma arr_ok_lookup {A} n (P : A -> Prop) l i x : arr_ok n P l -> l !! i = Some x -> P x.
Proof. intros [_ HP] Hx. by eapply Forall_lookup. Qed.

Lemma arr_ok_replicate {A} n (P : A -> Prop) x : 0 <= n -> P x -> arr_ok n P (replicate (Z.to_nat n) x).
Proof. intros Hn Hx. split; [rewrite length_replicate; lia|]. by apply Forall_replicate. Qed.

#[export] Hint Resolve vec_ok_vset arr_ok_insert : wfs.

Section array_rules.
Context {S : Type} (I : S -> Prop).

Lemma maintains_arr_get {A} n (P : A -> Prop) l i : arr_ok n P l -> maintains I (arr_get l i) P.
Proof.
  intros Hl. unfold arr_get. case_match; [|apply maintains_fail].
  apply maintains_of_option. intros a Ha. by eapply arr_ok_lookup.
Qed.

Lemma maintains_arr_set {A} n (P : A -> Prop) l i x :
  arr_ok n P l -> P x -> maintains I (arr_set l i x) (arr_ok n P).
Proof.
  intros Hl Hx. unfold arr_set. eapply maintains_bind; [by apply (maintains_check I _ _ (fun _ => True))|].
  intros _ _. apply maintains_ret. auto with wfs.
Qed.

Lemma maintains_vec_at w rows cols v r c : vec_ok w rows cols v -> maintains I (vec_at v r c) (in_s w).
Proof.
  intros (_ & _ & Hv). unfold vec_at. eapply maintains_bind; [by apply (maintains_check I _ _ (fun _ => True))|].
  intros _ _. by apply maintains_ret.
Qed.

Lemma maintains_vec_put w rows cols v r c x :
  vec_ok w rows cols v -> in_s w x -> maintains I (vec_put v r c x) (vec_ok w rows cols).
Proof.
  intros Hv Hx. unfold vec_put. eapply maintains_bind; [by apply (maintains_check I _ _ (fun _ => True))|].
  intros _ _. apply maintains_ret. auto with wfs.
Qed.
End array_rules.

(** ** The machine *)

Lemma in_u_le w w' x : in_u w x -> w <= w' -> in_u w' x.
Proof. unfold in_u. intros Hx Hw. pose proof (Z.pow_le_mono_r 2 w w'). lia. Qed.

Lemma land_range x m w : 0 <= w -> m = 2 ^ w - 1 -> in_u w (x &ᵇ m).
Proof. intros Hw Hm. rewrite (land_mask x w m Hw Hm). apply Z.mod_pos_bound. lia. Qed.

(** [in_u] of a masked field. *)
Ltac field := lazymatch goal with
  | |- in_u _ (_ &ᵇ ?m) =>
      first [ by apply land_range
            | eapply in_u_le; [by apply (land_range _ m 8)|lia] ]
  end.

(** The typing of one register group of a well-typed state in context. *)
Ltac use proj := match goal with Hs : wf ?s |- _ => destruct (proj s Hs) end.

(** The components of [Forall]s over literal lists. *)
Ltac forall_inv := repeat match goal with Hc : Forall _ (_ :: _) |- _ => apply Forall_cons in Hc as [? Hc] end.

Section machine_rules.
Context {mem : Type} `{Mmu mem}.
Implicit Types (m : machine mem).
Local Abbreviation pres := (maintains (@mwf mem)).

Lemma pres_get {A} (f : gemmini_state -> A) (P : A -> Prop) :
  (forall s, wf s -> P (f s)) -> pres (get_gs f) P.
Proof. intros Hf. apply maintains_gets. intros m. apply Hf. Qed.

Lemma pres_upd f (P : unit -> Prop) : P tt -> (forall s, wf s -> wf (f s)) -> pres (upd_gs f) P.
Proof. intros HP Hf. apply maintains_modify; [done|]. intros m. apply Hf. Qed.

(** Updates that touch one register group only. *)
Lemma wf_set_pre s p : wf s -> wf_pre p -> wf (s <| pre := p |>).
Proof. intros [] ?. by split. Qed.
Lemma wf_set_ex s x : wf s -> wf_ex x -> wf (s <| ex := x |>).
Proof. intros [] ?. by split. Qed.
Lemma wf_set_ld s l : wf s -> wf_ld l -> wf (s <| ld := l |>).
Proof. intros [] ?. by split. Qed.
Lemma wf_set_st s t : wf s -> wf_st t -> wf (s <| st := t |>).
Proof. intros [] ?. by split. Qed.
Lemma wf_set_nrm s n : wf s -> wf_nrm n -> wf (s <| nrm := n |>).
Proof. intros [] ?. by split. Qed.
Lemma wf_set_lws s w : wf s -> wf_lws w -> wf (s <| lws := w |>).
Proof. intros [] ?. by split. Qed.
Lemma wf_set_lcv s c : wf s -> wf_lcv c -> wf (s <| lcv := c |>).
Proof. intros [] ?. by split. Qed.
Lemma wf_set_cnt s c : wf s -> wf_cnt c -> wf (s <| cnt := c |>).
Proof. intros [] ?. by split. Qed.

(** The three memories. *)
Lemma pres_spad_at r c : pres (spad_at r c) (in_s 8).
Proof.
  eapply maintains_bind; [apply (pres_get _ (fun v => exists a b, vec_ok 8 a b v)); intros s []; eauto|].
  intros v (a & b & Hv). by eapply maintains_vec_at.
Qed.
Lemma pres_acc_at r c : pres (acc_at r c) (in_s 32).
Proof.
  eapply maintains_bind; [apply (pres_get _ (fun v => exists a b, vec_ok 32 a b v)); intros s []; eauto|].
  intros v (a & b & Hv). by eapply maintains_vec_at.
Qed.
Lemma pres_pe_at r c : pres (pe_at r c) (in_s 32).
Proof.
  eapply maintains_bind; [apply (pres_get _ (fun v => exists a b, vec_ok 32 a b v)); intros s []; eauto|].
  intros v (a & b & Hv). by eapply maintains_vec_at.
Qed.

Lemma pres_spad_put r c x (P : unit -> Prop) : P tt -> in_s 8 x -> pres (spad_put r c x) P.
Proof.
  intros HP Hx m Hm. unfold spad_put, get_gs, gets, vec_put, upd_gs, modify, check, mbind, M_bind. simpl.
  destruct (in_shape _ r c); simpl; (split; [|by intros []]); [|done].
  destruct Hm. split; simpl; auto with wfs.
Qed.
Lemma pres_acc_put r c x (P : unit -> Prop) : P tt -> in_s 32 x -> pres (acc_put r c x) P.
Proof.
  intros HP Hx m Hm. unfold acc_put, get_gs, gets, vec_put, upd_gs, modify, check, mbind, M_bind. simpl.
  destruct (in_shape _ r c); simpl; (split; [|by intros []]); [|done].
  destruct Hm. split; simpl; auto with wfs.
Qed.
Lemma pres_pe_put r c x (P : unit -> Prop) : P tt -> in_s 32 x -> pres (pe_put r c x) P.
Proof.
  intros HP Hx m Hm. unfold pe_put, get_gs, gets, vec_put, upd_gs, modify, check, mbind, M_bind. simpl.
  destruct (in_shape _ r c); simpl; (split; [|by intros []]); [|done].
  destruct Hm. split; simpl; auto with wfs.
Qed.

(** Main memory. *)
Lemma pres_read_from_dram size a : 1 <= size -> pres (read_from_dram size a) (in_s (8 * size)).
Proof.
  intros Hs. apply maintains_fold_range.
  - unfold in_s. pose proof (Z.pow_pos_nonneg 2 (8 * size - 1)). lia.
  - intros v i Hi Hv. eapply (maintains_bind _ _ _ (fun _ => True)).
    + intros m Hm. unfold mmu_load. by case_match.
    + intros b _. apply maintains_ret. apply wrap_s_range. lia.
Qed.

Lemma pres_write_to_dram size a v (P : unit -> Prop) : P tt -> pres (write_to_dram size a v) P.
Proof.
  intros HP. apply maintains_for_range; [done|]. intros i Hi m Hm. unfold mmu_store. by case_match.
Qed.
End machine_rules.

(** ** Automation

    [mnt] decomposes a [maintains] goal along the structure of the program;
    the hints of [mnts] supply what a primitive returns. *)

Create HintDb mnts.
#[export] Hint Resolve pres_spad_at pres_acc_at pres_pe_at maintains_arr_get maintains_vec_at : mnts.
#[export] Hint Resolve wf_load_strides wf_load_block_strides wf_load_shrunks wf_load_scales wf_pixels
  wf_counter_val wf_counter_snapshot_val wf_counter_config wf_counter_external wf_counter_external_flag : mnts.
#[export] Hint Extern 1 (maintains _ (get_gs id) _) => (apply (pres_get id wf); done) : mnts.
#[export] Hint Extern 1 (maintains _ (get_gs ld) _) => (apply (pres_get ld wf_ld); by intros ? []) : mnts.
#[export] Hint Extern 1 (maintains _ (get_gs nrm) _) => (apply (pres_get nrm wf_nrm); by intros ? []) : mnts.
#[export] Hint Extern 1 (maintains _ (get_gs lws) _) => (apply (pres_get lws wf_lws); by intros ? []) : mnts.
#[export] Hint Extern 1 (maintains _ (get_gs lcv) _) => (apply (pres_get lcv wf_lcv); by intros ? []) : mnts.
#[export] Hint Extern 1 (maintains _ (get_gs cnt) _) => (apply (pres_get cnt wf_cnt); by intros ? []) : mnts.
#[export] Hint Extern 9 (maintains _ (get_gs ?f) _) => (apply (pres_get f (fun _ => True)); done) : mnts.
#[export] Hint Extern 1 (maintains _ (read_from_dram _ _) _) =>
  (apply pres_read_from_dram; unfold_params; lia) : mnts.
#[export] Hint Extern 1 (maintains _ (of_option _ (acc_scale ?x ?s)) _) =>
  (apply (maintains_of_option _ _ _ (in_s 8)); apply acc_scale_range) : mnts.
#[export] Hint Extern 1 (maintains _ (of_option _ (mvin_scale ?x ?s)) _) =>
  (apply (maintains_of_option _ _ _ (in_s 8)); apply mvin_scale_range) : mnts.

Ltac mnt_step :=
  lazymatch goal with
  | |- maintains _ (if ?b then _ else _) _ => destruct b eqn:?
  | |- maintains _ (match ?b with _ => _ end) _ => destruct b eqn:?
  | |- maintains _ (let _ := _ in _) _ => cbv zeta
  | |- maintains _ (mret _) _ => apply maintains_ret
  | |- maintains _ (fail _) _ => apply maintains_fail
  | |- maintains _ (check _ _) _ => apply maintains_check; done
  | |- maintains _ (when _ _) _ => apply maintains_when; [done|]
  | |- maintains _ (for_range _ _ _) _ => apply maintains_for_range; [done|intros ? ?]
  | |- maintains _ (for_step _ _ _ _) _ => apply maintains_for_step; [done|intros ?]
  | |- maintains _ (for_step_u _ _ _ _ _) _ => apply maintains_for_step_u; [done|intros ?]
  | |- maintains _ (for_list _ _) _ => apply maintains_for_list; [done|intros ? ?]
  | |- maintains _ (while_counter _ _ _ _) _ => apply maintains_while_counter; [done|intros ?]
  | |- maintains _ (write_to_dram _ _ _) _ => apply pres_write_to_dram; done
  | |- maintains _ (spad_put _ _ _) _ => apply pres_spad_put; [done|]
  | |- maintains _ (acc_put _ _ _) _ => apply pres_acc_put; [done|]
  | |- maintains _ (pe_put _ _ _) _ => apply pres_pe_put; [done|]
  | |- maintains _ (upd_gs _) _ => apply pres_upd; [done|intros ? ?]
  | |- maintains _ (@mbind _ _ _ _ _ ?m) _ =>
      lazymatch type of m with
      | M _ unit => eapply (maintains_bind _ _ _ (fun _ : unit => True)); [|intros ? _]
      | _ => eapply maintains_bind; [solve [eauto 3 with mnts]|intros ? ?; cbv beta in *]
      end
  | |- maintains _ _ _ => solve [eauto 3 with mnts]
  end.
Ltac mnt := repeat mnt_step.

Lemma s8_range x : in_s 8 (s8 x). Proof. by apply wrap_s_range. Qed.
Lemma s32_range x : in_s 32 (s32 x). Proof. by apply wrap_s_range. Qed.
Lemma s8_zero : in_s 8 0. Proof. by unfold in_s. Qed.
Lemma s32_zero : in_s 32 0. Proof. by unfold in_s. Qed.
#[export] Hint Resolve s8_range s32_range s8_zero s32_zero sys_shift_range apply_activation_range
  apply_igelu_range : wfs.

Section operations.
Context {mem : Type} `{Mmu mem} `{Rand}.
Local Abbreviation pres := (maintains (@mwf mem)).

(** *** Moves *)

Lemma pres_mvin_acc_value z sh sc a : pres (mvin_acc_value z sh sc a) (in_s 32).
Proof.
  unfold mvin_acc_value. mnt; eauto with wfs.
  eapply maintains_weaken; [eauto with mnts|eauto with wfs].
Qed.
Lemma pres_mvin_spad_value z sc a : pres (mvin_spad_value z sc a) (in_s 8).
Proof. unfold mvin_spad_value. mnt; eauto with wfs. Qed.
Hint Resolve pres_mvin_acc_value pres_mvin_spad_value : mnts.

Lemma pres_mvin a sp id (P : unit -> Prop) : P tt -> pres (mvin a sp id) P.
Proof.
  intros HP. unfold mvin. mnt; eauto with wfs.
Qed.
(** *** Norm *)

Definition stat_ok (r : norm_stat) : Prop :=
  in_s 32 (ns_sum r) /\ in_s 32 (ns_running_max r) /\ in_s 32 (ns_max r) /\
  in_s 32 (ns_count r) /\ in_s 32 (ns_mean r).

Lemma get_stat_ok n r : wf_nrm n -> get_stat n = Some r -> stat_ok r.
Proof.
  intros [] Hr. unfold get_stat in Hr. cbv zeta in Hr.
  repeat (apply bind_Some in Hr as (? & ? & Hr)). simplify_eq.
  unfold stat_ok. split_and!; simpl; (eapply arr_ok_lookup; [|eassumption]); eassumption.
Qed.

Lemma set_stat_ok n r : wf_nrm n -> stat_ok r -> wf_nrm (set_stat n r).
Proof. intros [] (? & ? & ? & ? & ?). split; simpl; auto with wfs. Qed.

Lemma norm_sum_loop_ok x a : in_s 32 a -> in_s 32 (norm_sum_loop x a).
Proof. unfold norm_sum_loop. revert a. induction x; simpl; auto with wfs. Qed.
Lemma norm_var_loop_ok mean x a : in_s 32 a -> in_s 32 (norm_var_loop mean x a).
Proof. unfold norm_var_loop. revert a. induction x; simpl; auto with wfs. Qed.
Lemma norm_max_loop_ok x m : Forall (in_s 32) x -> in_s 32 m -> in_s 32 (norm_max_loop x m).
Proof.
  unfold norm_max_loop. intros Hx. revert m. induction Hx; simpl; [done|]. intros m Hm. case_match; auto.
Qed.
Lemma norm_exp_loop_ok n mx x a v : in_s 32 a -> norm_exp_loop n mx x a = Some v -> in_s 32 v.
Proof.
  revert a. induction x as [|y x IH]; intros a Ha Hv; cbn [norm_exp_loop] in Hv; [by simplify_eq|].
  apply bind_Some in Hv as (e & He & Hv). eapply IH; [|done]. auto with wfs.
Qed.

Lemma int_div_range a b v : int_div a b = Some v -> in_s 32 v.
Proof. unfold int_div. case_match; [done|]. intros [= <-]. auto with wfs. Qed.

Lemma norm_accumulate_ok n x cmd r r' :
  Forall (in_s 32) x -> stat_ok r -> norm_accumulate n x cmd r = Some r' -> stat_ok r'.
Proof.
  intros Hx (? & ? & ? & ? & ?) Hr. unfold norm_accumulate in Hr.
  destruct cmd; try apply bind_Some in Hr as (e & He & Hr); simplify_eq;
    unfold stat_ok; simpl;
    split_and!; eauto using norm_sum_loop_ok, norm_var_loop_ok, norm_max_loop_ok, norm_exp_loop_ok with wfs.
Qed.

Lemma norm_finish_ok cmd r r' : stat_ok r -> norm_finish cmd r = Some r' -> stat_ok r'.
Proof.
  intros (? & ? & ? & ? & ?) Hr. unfold norm_finish in Hr.
  destruct cmd; try (by simplify_eq).
  - apply bind_Some in Hr as (e & He%int_div_range & Hr). by simplify_eq.
  - apply bind_Some in Hr as (e & He & Hr). apply bind_Some in Hr as (e' & He' & Hr). by simplify_eq.
Qed.

Lemma norm_update_ok n x cmd r r' :
  Forall (in_s 32) x -> stat_ok r -> norm_update n x cmd r = Some r' -> stat_ok r'.
Proof.
  intros Hx Hr Hu. unfold norm_update in Hu. apply bind_Some in Hu as (e & He & Hu).
  eapply norm_finish_ok, Hu. eapply norm_accumulate_ok, He; [done|].
  destruct Hr as (? & ? & ? & ? & ?). unfold norm_clear. by case_match.
Qed.

Lemma pres_apply_norm x cmd : Forall (in_s 32) x -> pres (apply_norm x cmd) (fun _ => True).
Proof.
  intros Hx. unfold apply_norm.
  eapply maintains_bind; [solve [eauto with mnts]|]. intros n Hn.
  eapply maintains_bind; [apply (maintains_of_option _ _ _ stat_ok); intros r; by apply get_stat_ok|].
  intros r Hr.
  eapply maintains_bind.
  { apply (maintains_of_option _ _ _ stat_ok). intros r'. by apply norm_update_ok. }
  intros r' Hr'. mnt; [|done]. by apply wf_set_nrm, set_stat_ok.
Qed.

Lemma pres_pre_activation v : in_s 32 v -> pres (apply_pre_activation_acc v) (in_s 32).
Proof.
  intros Hv. unfold apply_pre_activation_acc. mnt; auto with wfs.
  - eapply maintains_bind; [by apply (maintains_of_option _ _ _ (fun _ => True))|]. intros r _.
    apply maintains_of_option. intros x Hx. unfold f_to_int in Hx. apply bind_Some in Hx as (t & _ & Hx).
    case_match; [|done]. simplify_eq. unfold in_s. lia.
  - eapply maintains_bind; [by apply (maintains_of_option _ _ _ (fun _ => True))|]. intros r _.
    eapply maintains_bind; [by apply (maintains_of_option _ _ _ (fun _ => True))|]. intros e _.
    apply maintains_of_option. intros x Hx%acc_scale_range. auto with wfs.
Qed.
Hint Resolve pres_pre_activation : mnts.

(** *** Move-out *)

Lemma pres_mvout_norm_row cmd base cols i : pres (mvout_norm_row cmd base cols i) (fun _ => True).
Proof.
  unfold mvout_norm_row. apply maintains_fold_list; [done|]. intros b j _ _. cbv zeta.
  eapply maintains_bind.
  { apply (pres_get accumulator (fun v => exists a b, vec_ok 32 a b v)). intros s []. eauto. }
  intros v (a & a' & Hv). eapply maintains_bind; [by eapply maintains_vec_at|]. intros _ _.
  apply pres_apply_norm. apply Forall_fmap, Forall_true. intros c. by apply Hv.
Qed.
Hint Resolve pres_mvout_norm_row : mnts.

Lemma pres_mvout_acc_elem full a j r c (P : unit -> Prop) : P tt -> pres (mvout_acc_elem full a j r c) P.
Proof. intros HP. unfold mvout_acc_elem. mnt. Qed.

Lemma pres_pool_elem acc base r c ch : pres (pool_elem acc base r c ch) (in_s 8).
Proof. unfold pool_elem, apply_activation_acc. mnt; auto with wfs. Qed.

Lemma pres_mvout a sp (P : unit -> Prop) : P tt -> pres (mvout a sp) P.
Proof.
  intros HP. unfold mvout. mnt_step. mnt_step.
  - unfold mvout_plain. mnt. by apply pres_mvout_acc_elem.
  - unfold mvout_pool. cbv zeta. do 4 mnt_step.
    eapply maintains_bind.
    + apply (maintains_fold_range _ _ _ _ _ (fun _ => True)); [done|]. intros ? ? _ _.
      apply (maintains_fold_range _ _ _ _ _ (fun _ => True)); [done|]. intros ? ? _ _. cbv zeta.
      eapply maintains_bind; [apply pres_pool_elem|]. intros ? _. by apply maintains_ret.
    + intros ? _. mnt.
Qed.
(** *** Configuration *)

Lemma pres_preload a b (P : unit -> Prop) : P tt -> pres (preload a b) P.
Proof. intros HP. unfold preload. mnt. apply wf_set_pre; [done|]. split; simpl; field. Qed.

Lemma pres_decode_act cur f : pres (decode_act cur f) (fun _ => True).
Proof. unfold decode_act. mnt; done. Qed.
Hint Resolve pres_decode_act : mnts.

Lemma pres_config_ex a b (P : unit -> Prop) : P tt -> pres (config_ex a b) P.
Proof.
  intros HP. unfold config_ex. do 2 mnt_step. intros m Hm. revert m Hm.
  destruct ((0 <=? b &ᵇ 0xFFFFFFFF) && (b &ᵇ 0xFFFFFFFF <? sizeof_acc_t * 8)) eqn:Hs;
    [|intros m Hm; by split].
  apply (maintains_bind _ _ _ (fun _ => True)); [by apply maintains_check|]. intros _ _.
  mnt; (apply wf_set_ex; [done|]); use wf_s_ex; (split; simpl; [lia || done|done || field..]).
Qed.

Lemma pres_config_mvin a b (P : unit -> Prop) : P tt -> in_u 64 b -> pres (config_mvin a b) P.
Proof.
  intros HP Hb. unfold config_mvin. cbv zeta. mnt_step.
  eapply maintains_bind; [by eapply maintains_arr_set; [apply wf_load_strides|]|]. intros l1 Hl1.
  eapply maintains_bind; [eapply maintains_arr_set; [by apply wf_load_block_strides|field]|]. intros l2 Hl2.
  eapply maintains_bind; [by eapply maintains_arr_set; [apply wf_load_scales|]|]. intros l3 Hl3.
  eapply maintains_bind; [by eapply maintains_arr_set; [apply wf_load_shrunks|]|]. intros l4 Hl4.
  eapply maintains_bind.
  { eapply maintains_arr_set; [by apply wf_pixels|]. cbv beta. rewrite land_FF.
    case_match; [lia|]. zlia. }
  intros l5 Hl5. mnt. apply wf_set_ld; [done|]. by split.
Qed.

Lemma pres_config_mvout a b (P : unit -> Prop) : P tt -> pres (config_mvout a b) P.
Proof.
  intros HP. unfold config_mvout. mnt; (apply wf_set_st; [done|]); use wf_s_st; split; simpl; done || field.
Qed.

Lemma pres_config_norm a b (P : unit -> Prop) : P tt -> pres (config_norm a b) P.
Proof.
  intros HP. unfold config_norm. mnt.
  - apply wf_set_nrm; [done|]. use wf_s_nrm. split; simpl; done || field.
  - apply wf_set_nrm; [done|]. use wf_s_nrm. split; simpl; auto with wfs.
  - eapply (maintains_bind _ _ _ (fun _ => True)); [by apply maintains_of_option|]. intros act _. mnt.
    + apply wf_set_st; [done|]. use wf_s_st. by split.
    + apply wf_set_nrm; [done|]. use wf_s_nrm. split; simpl; auto with wfs.
    + apply wf_set_nrm; [done|]. use wf_s_nrm. split; simpl; auto with wfs.
Qed.

Lemma pres_config a b (P : unit -> Prop) : P tt -> in_u 64 b -> pres (config a b) P.
Proof.
  intros HP Hb. unfold config.
  mnt; auto using pres_config_ex, pres_config_mvin, pres_config_mvout, pres_config_norm.
Qed.

Lemma pres_loop_ws_config_bounds a b (P : unit -> Prop) : P tt -> pres (loop_ws_config_bounds a b) P.
Proof.
  intros HP. unfold loop_ws_config_bounds. mnt. apply wf_set_lws; [done|]. use wf_s_lws.
  split; simpl; done || field.
Qed.

(** The four configuration instructions that store two full registers. *)
Lemma pres_loop_ws_config_pairs a b (P : unit -> Prop) : P tt -> in_u 64 a -> in_u 64 b ->
  pres (loop_ws_config_addrs_AB a b) P /\ pres (loop_ws_config_addrs_DC a b) P /\
  pres (loop_ws_config_strides_AB a b) P /\ pres (loop_ws_config_strides_DC a b) P.
Proof.
  intros HP Ha Hb. split_and!; (apply pres_upd; [done|]); intros s Hs; (apply wf_set_lws; [done|]);
    use wf_s_lws; by split.
Qed.

Lemma pres_loop_conv_config a b (P : unit -> Prop) : P tt -> in_u 64 a -> in_u 64 b ->
  pres (loop_conv_ws_config_1 a b) P /\ pres (loop_conv_ws_config_2 a b) P /\
  pres (loop_conv_ws_config_3 a b) P /\ pres (loop_conv_ws_config_4 a b) P /\
  pres (loop_conv_ws_config_5 a b) P /\ pres (loop_conv_ws_config_6 a b) P.
Proof.
  intros HP Ha Hb. split_and!; (apply pres_upd; [done|]); intros s Hs; (apply wf_set_lcv; [done|]);
    destruct (wf_s_lcv s Hs) as [H16 H64 Hrows]; unfold lcv_fields in H16;
    forall_inv; split; unfold lcv_fields; simpl; repeat apply Forall_cons_2; try apply Forall_nil_2;
    done || field.
Qed.
(** *** Compute *)

Lemma pres_zero_or_spad (b : bool) r c : pres (if b then mret 0 else spad_at r c) (in_s 8).
Proof. mnt; auto with wfs. Qed.
Hint Resolve pres_zero_or_spad : mnts.

Lemma pres_compute_preload (P : unit -> Prop) : P tt -> pres compute_preload P.
Proof. intros HP. unfold compute_preload. mnt; auto with wfs. Qed.

Lemma pres_compute_bias a r c : pres (compute_bias a r c) (vec_ok 32 DIM DIM).
Proof.
  unfold compute_bias. apply maintains_fold_range; [by apply vec_ok_zeros|]. intros v i _ Hv.
  apply maintains_fold_range; [done|]. intros v' j _ Hv'. destruct (_ && _).
  - eapply maintains_bind; [solve [eauto with mnts]|]. intros x Hx. eapply maintains_vec_put; auto with wfs.
  - eapply maintains_vec_put; auto with wfs.
Qed.

Lemma pres_compute_a a r c i k : pres (compute_a a r c i k) (in_s 8).
Proof. unfold compute_a. mnt; auto with wfs. Qed.
Lemma pres_compute_b a r c j k : pres (compute_b a r c j k) (in_s 8).
Proof. unfold compute_b. mnt; auto with wfs. Qed.
Hint Resolve pres_compute_a pres_compute_b : mnts.

Lemma pres_compute_mac a ar ac b br bc v :
  vec_ok 32 DIM DIM v -> pres (compute_mac a ar ac b br bc v) (vec_ok 32 DIM DIM).
Proof.
  intros Hv. unfold compute_mac. apply maintains_fold_range; [done|]. clear v Hv. intros v i _ Hv.
  apply maintains_fold_range; [done|]. clear v Hv. intros v j _ Hv.
  apply maintains_fold_range; [done|]. clear v Hv. intros v k _ Hv.
  do 2 mnt_step. mnt_step.
  - do 2 mnt_step. eapply maintains_vec_put; auto with wfs.
  - mnt; auto with wfs.
Qed.

Lemma pres_value v (b : bool) i j : vec_ok 32 DIM DIM v -> pres (if b then pe_at i j else vec_at v i j) (in_s 32).
Proof. intros Hv. destruct b; eauto with mnts. Qed.
Hint Resolve pres_value : mnts.

Lemma pres_compute_write v (P : unit -> Prop) : P tt -> vec_ok 32 DIM DIM v -> pres (compute_write v) P.
Proof. intros HP Hv. unfold compute_write, apply_activation_sys. mnt; case_match || idtac; auto with wfs. Qed.

Lemma pres_compute a b pl (P : unit -> Prop) : P tt -> pres (compute a b pl) P.
Proof.
  intros HP. unfold compute. mnt; [by apply pres_compute_preload|].
  eapply maintains_bind; [apply pres_compute_bias|]. intros v Hv.
  eapply maintains_bind; [by apply pres_compute_mac|]. intros v' Hv'. by apply pres_compute_write.
Qed.

(** *** Loops *)

Lemma pres_loop_ws a b (P : unit -> Prop) : P tt -> pres (loop_ws a b) P.
Proof.
  intros HP. unfold loop_ws, loop_ws_resadd, loop_ws_mvin_D, loop_ws_step, loop_ws_mvin_A, loop_ws_mvin_B,
    loop_ws_compute, loop_ws_mvout, loop_ws_mvout_norm.
  mnt; auto using pres_mvin, pres_mvout, pres_preload, pres_compute.
  apply pres_config; [done|]. by unfold in_u.
Qed.

Lemma pres_conv_rotate c (P : unit -> Prop) : P tt -> pres (conv_rotate c) P.
Proof.
  intros HP. unfold conv_rotate. mnt; (apply wf_set_lcv; [done|]); use wf_s_lcv;
    (split; [done..|]); forall_inv; simpl; repeat apply Forall_cons_2; try apply Forall_nil_2; try done;
    unfold ACC_ROWS; apply Z.mod_pos_bound; lia.
Qed.

Lemma pres_conv_mvin_bias a c d (P : unit -> Prop) : P tt -> pres (conv_mvin_bias a c d) P.
Proof.
  intros HP. unfold conv_mvin_bias. mnt; [|by apply pres_mvin].
  apply pres_config; [done|]. by unfold in_u.
Qed.

Lemma pres_conv_mvin_input a c d (P : unit -> Prop) : P tt -> pres (conv_mvin_input a c d) P.
Proof.
  intros HP. unfold conv_mvin_input. mnt; auto using pres_mvin.
  apply pres_config; [done|]. eapply in_u_le; [by apply (wrap_u_range 32)|lia].
Qed.

Lemma pres_conv_mvin_weights a c d (P : unit -> Prop) : P tt -> wf_lcv c -> pres (conv_mvin_weights a c d) P.
Proof.
  intros HP Hc. unfold conv_mvin_weights. mnt; auto using pres_mvin.
  apply pres_config; [done|]. destruct Hc as [H16 _ _]. unfold lcv_fields in H16. forall_inv.
  unfold sizeof_elem_t. repeat case_match;
    first [by unfold in_u | by apply wrap_u_range | eapply (in_u_le 16); [by rewrite Z.mul_1_r|lia]].
Qed.

Lemma pres_conv_compute_step a c d och krow kcol kch b orow ocol nw (P : unit -> Prop) :
  P tt -> pres (conv_compute_step a c d och krow kcol kch b orow ocol nw) P.
Proof. intros HP. unfold conv_compute_step. mnt; auto using pres_preload, pres_compute. Qed.

Lemma pres_conv_compute a c d (P : unit -> Prop) : P tt -> pres (conv_compute a c d) P.
Proof.
  intros HP. unfold conv_compute. mnt.
  - apply pres_config; [done|]. unfold in_u. rewrite Z.shiftl_mul_pow2 by lia.
    pose proof (wrap_u_range 16 (lc_orows c * lc_ocols c) ltac:(lia)) as Hr. unfold in_u in Hr. lia.
  - eapply maintains_bind; [|intros; by apply maintains_ret].
    apply (maintains_fold_step_u _ _ _ _ _ _ _ (fun _ => True)); [done|]. intros nw b _.
    apply maintains_fold_range; [done|]. intros nw' orow _ _. mnt; [done|].
    apply maintains_while_fold; [done|]. intros nw'' ocol _. mnt; [done| |done].
    by apply pres_conv_compute_step.
Qed.

Lemma pres_loop_conv_ws a b (P : unit -> Prop) : P tt -> pres (loop_conv_ws a b) P.
Proof.
  intros HP. unfold loop_conv_ws. mnt;
    auto using pres_conv_rotate, pres_conv_mvin_bias, pres_conv_mvin_input, pres_conv_mvin_weights, pres_conv_compute.
  - unfold conv_mvout_plain. mnt. by apply pres_mvout.
  - unfold conv_mvout_pool. mnt; auto using pres_mvout; (apply pres_config; [done|by apply wrap_u_range]).
Qed.
(** *** Counters *)

Lemma arr_get_live (c : counter_regs) i : wf_cnt c -> pres (counter_live c i) (in_u 32).
Proof. intros Hc. unfold counter_live. mnt_step. mnt_step; [mnt_step|]; eauto with mnts. Qed.

Lemma pres_counter_update d c : 0 <= co_counter_addr d < 64 -> wf_cnt c -> pres (counter_update d c) wf_cnt.
Proof.
  intros Hd Hc. unfold counter_update. cbv zeta.
  assert (wf_cnt (if co_counter_reset d
    then c <| counter_val := replicate (Z.to_nat NUM_COUNTERS) 0 |> <| op_in_progress := false |> else c)) as Hc1.
  { case_match; [|done]. destruct Hc. split; try done. by apply arr_ok_replicate. }
  set (c1 := if co_counter_reset d then _ else c) in *. clearbody c1.
  assert (wf_cnt (if co_snapshot_reset d then c1 <| snapshot_enable := false |> else c1)) as Hc2.
  { case_match; [|done]. destruct Hc1. by split. }
  set (c2 := if co_snapshot_reset d then _ else c1) in *. clearbody c2.
  apply (maintains_bind _ _ _ wf_cnt).
  - case_match; [|by apply maintains_ret].
    apply maintains_fold_range; [destruct Hc2; by split|]. intros c' i _ Hc'.
    eapply maintains_bind; [by apply arr_get_live|]. intros v Hv.
    eapply maintains_bind; [by eapply maintains_arr_set; [by apply wf_counter_snapshot_val|]|]. intros l Hl.
    apply maintains_ret. destruct Hc'. by split.
  - intros c3 Hc3. case_match; [|by apply maintains_ret]. unfold counter_change_config.
    eapply maintains_bind; [eapply maintains_arr_set; [by apply wf_counter_config|]; unfold in_u; lia|].
    intros l1 Hl1.
    eapply maintains_bind; [by eapply maintains_arr_set; [by apply wf_counter_val|]|]. intros l2 Hl2.
    eapply maintains_bind; [by eapply maintains_arr_set; [by apply wf_counter_external_flag|]|]. intros l3 Hl3.
    apply maintains_ret. destruct Hc3. by split.
Qed.

Lemma pres_counter_operation a : pres (counter_operation a) (in_u 32).
Proof.
  unfold counter_operation. cbv zeta. mnt_step.
  eapply maintains_bind.
  { apply pres_counter_update; [|done]. simpl. rewrite (land_mask _ 6) by lia. zlia. }
  intros c Hc. mnt; [by apply wf_set_cnt|by apply arr_get_live].
Qed.

Lemma pres_rand : pres rand (fun _ => True).
Proof. by intros m Hm. Qed.
Hint Resolve pres_rand : mnts.

Lemma pres_counter_increment_random (P : unit -> Prop) : P tt -> pres counter_increment_random P.
Proof.
  intros HP. unfold counter_increment_random. mnt_step.
  - mnt_step. do 3 mnt_step.
    eapply maintains_bind; [eapply maintains_arr_set; [by apply wf_counter_val|by apply wrap_u_range]|].
    intros l Hl. mnt. apply wf_set_cnt; [done|]. use wf_s_cnt. by split.
  - mnt_step. do 2 mnt_step.
    eapply maintains_bind; [eapply maintains_arr_set; [by apply wf_counter_external|]|].
    { eapply (in_u_le 4); [by apply land_range|lia]. }
    intros l Hl. mnt. apply wf_set_cnt; [done|]. use wf_s_cnt. by split.
Qed.

(** *** Dispatch *)

Lemma wf_reset s : wf s -> wf (state_reset s).
Proof.
  intros []. split; simpl; try done; try by apply vec_ok_zeros.
  - destruct wf_s_nrm0. split; try done. by apply (arr_ok_replicate NORM_STAT_IDS (fun _ => True) true).
  - destruct wf_s_cnt0. by split.
Qed.

Lemma pres_execute f a b (P : unit -> Prop) : P tt -> in_u 64 a -> in_u 64 b -> pres (execute f a b) P.
Proof.
  intros HP Ha Hb.
  destruct (pres_loop_ws_config_pairs a b P HP Ha Hb) as (? & ? & ? & ?).
  destruct (pres_loop_conv_config a b P HP Ha Hb) as (? & ? & ? & ? & ? & ?).
  unfold execute. repeat (case_match; [by auto using pres_mvin, pres_mvout, pres_preload, pres_config,
    pres_compute, pres_loop_ws_config_bounds, pres_loop_ws, pres_loop_conv_ws, maintains_ret|]).
  apply maintains_fail.
Qed.

Lemma pres_custom3 f a b : in_u 64 a -> in_u 64 b -> pres (custom3 f a b) (in_u 64).
Proof.
  intros Ha Hb. unfold custom3. mnt.
  - apply pres_upd; [done|]. apply wf_reset.
  - by apply pres_counter_increment_random.
  - eapply maintains_weaken; [apply pres_counter_operation|]. intros v Hv. by eapply in_u_le.
  - by apply pres_execute.
  - apply wf_set_cnt; [done|]. use wf_s_cnt. by split.
  - by unfold in_u.
Qed.
End operations.

(** ** Reachable states *)

Section reachability.
Context {mem : Type} `{Mmu mem} `{Rand}.

(** The simulator before its first instruction: any register contents of the
    declared types, the memories not yet allocated. *)
Definition power_on (m : machine mem) : Prop := mwf m /\ resetted (gs m) = false.

(** Executions: instructions with arbitrary 64-bit operands, also after one
    of them has faulted. *)
Inductive reachable (m0 : machine mem) : machine mem -> Prop :=
  | reach_start : reachable m0 m0
  | reach_step m funct xs1 xs2 :
      reachable m0 m -> in_u 64 xs1 -> in_u 64 xs2 ->
      reachable m0 (custom3 funct xs1 xs2 m).2.

(** C1: in every state reachable from power-on by any sequence of accelerator
    instructions with 64-bit operands, whatever they fault on, every member
    of [gemmini_state_t] holds a value of its declared C++ type, the
    scratchpad cells are [int8_t], the accumulator and PE cells are
    [int32_t], and all arrays and vectors have their declared sizes. *)
Theorem reachable_well_typed (m0 m : machine mem) : power_on m0 -> reachable m0 m -> wf (gs m).
Proof.
  intros [Hwf _] Hr. induction Hr as [|m f a b Hr IH Ha Hb]; [done|].
  by apply (maintains_run _ _ _ _ (pres_custom3 f a b Ha Hb)).
Qed.
End reachability.

(** The zero state is well typed. *)
Lemma wf_state_zero : wf state_zero.
Proof.
  split; repeat split; try apply Forall_nil_2;
    repeat first [apply Forall_cons_2 | apply Forall_nil_2 | done | by unfold in_u, in_s ].
Qed.

(** A machine at power-on with an empty memory, and a constant [rand()]. *)
Definition zero_rand : Rand := fun _ => 0.
Definition machine_zero : machine flat_mem := Machine state_zero flat_empty 0.

Lemma power_on_zero : power_on machine_zero.
Proof. split; [apply wf_state_zero|done]. Qed.

Lemma reachable_well_typed_witness :
  wf (gs (custom3 (H0 := zero_rand) config_funct 0x10004 0x1 machine_zero).2).
Proof.
  refine (@reachable_well_typed flat_mem flat_mmu zero_rand machine_zero _ power_on_zero _).
  apply reach_step; [apply reach_start| |]; unfold in_u; lia.
Defined.
