(* ===== verification/Isa.v ===== *)
(** * Isa: the instruction macros of the driver

    The [gemmini_*] macros of systolic_include.h (ONNX Runtime's systolic
    back end), which pack their arguments into the two operand registers of a
    RoCC instruction, and the counter helpers.  An instruction runs on the
    simulated accelerator ([custom3] of [Dispatch]). *)

From S2P Require Import Prelude Effects Float32 Params State Dram Fill Scaling Norm Config Move MoveSpec Compute LoopWs LoopConv Counters Dispatch.

Definition k_CONFIG : Z := 0.
Definition k_MVIN2 : Z := 1.
Definition k_MVIN : Z := 2.
Definition k_MVOUT : Z := 3.
Definition k_COMPUTE_PRELOADED : Z := 4.
Definition k_COMPUTE_ACCUMULATE : Z := 5.
Definition k_PRELOAD : Z := 6.
Definition k_FLUSH : Z := 7.
Definition k_LOOP_WS : Z := 8.
Definition k_LOOP_WS_CONFIG_BOUNDS : Z := 9.
Definition k_LOOP_WS_CONFIG_ADDRS_AB : Z := 10.
Definition k_LOOP_WS_CONFIG_ADDRS_DC : Z := 11.
Definition k_LOOP_WS_CONFIG_STRIDES_AB : Z := 12.
Definition k_LOOP_WS_CONFIG_STRIDES_DC : Z := 13.
Definition k_MVIN3 : Z := 14.
Definition k_LOOP_CONV_WS : Z := 15.
Definition k_LOOP_CONV_WS_CONFIG_1 : Z := 16.
Definition k_LOOP_CONV_WS_CONFIG_2 : Z := 17.
Definition k_LOOP_CONV_WS_CONFIG_3 : Z := 18.
Definition k_LOOP_CONV_WS_CONFIG_4 : Z := 19.
Definition k_LOOP_CONV_WS_CONFIG_5 : Z := 20.
Definition k_LOOP_CONV_WS_CONFIG_6 : Z := 21.
Definition k_COUNTER : Z := 126.

Definition CONFIG_EX : Z := 0.
Definition CONFIG_LD : Z := 1.
Definition CONFIG_ST : Z := 2.
Definition CONFIG_IM2COL : Z := 3.

Definition OUTPUT_STATIONARY : Z := 0.
Definition WEIGHT_STATIONARY : Z := 1.
Definition NO_ACTIVATION : Z := 0.
Definition RELU_act : Z := 1.
Definition RELU6_act : Z := 2.
Definition INCREMENTAL_COUNTERS : Z := 44.

Section isa.
Context {mem : Type} `{Mmu mem} `{Rand}.

(** [ROCC_INSTRUCTION_RS1_RS2]: no result register. *)
Definition ROCC_INSTRUCTION_RS1_RS2 (rs1 rs2 funct : Z) : M (machine mem) unit :=
  _ ← custom3 funct (u64 rs1) (u64 rs2); mret tt.

(** ** Moves *)

Definition gemmini_extended_mvin (dram_addr spad_addr cols rows : Z) : M (machine mem) unit :=
  ROCC_INSTRUCTION_RS1_RS2 dram_addr ((u64 rows ≪ (ADDR_LEN + 16)) |ᵇ (u64 cols ≪ ADDR_LEN) |ᵇ spad_addr) k_MVIN.
Definition gemmini_extended_mvin2 (dram_addr spad_addr cols rows : Z) : M (machine mem) unit :=
  ROCC_INSTRUCTION_RS1_RS2 dram_addr ((u64 rows ≪ (ADDR_LEN + 16)) |ᵇ (u64 cols ≪ ADDR_LEN) |ᵇ spad_addr) k_MVIN2.
Definition gemmini_extended_mvin3 (dram_addr spad_addr cols rows : Z) : M (machine mem) unit :=
  ROCC_INSTRUCTION_RS1_RS2 dram_addr ((u64 rows ≪ (ADDR_LEN + 16)) |ᵇ (u64 cols ≪ ADDR_LEN) |ᵇ spad_addr) k_MVIN3.
Definition gemmini_block_mvin (dram_addr spad_addr len : Z) : M (machine mem) unit :=
  gemmini_extended_mvin dram_addr spad_addr (len * DIM) DIM.
Definition gemmini_mvin (dram_addr spad_addr : Z) : M (machine mem) unit :=
  gemmini_extended_mvin dram_addr spad_addr DIM DIM.
Definition gemmini_extended_mvout (dram_addr spad_addr cols rows : Z) : M (machine mem) unit :=
  ROCC_INSTRUCTION_RS1_RS2 dram_addr ((u64 rows ≪ (ADDR_LEN + 16)) |ᵇ (u64 cols ≪ ADDR_LEN) |ᵇ spad_addr) k_MVOUT.
Definition gemmini_mvout (dram_addr spad_addr : Z) : M (machine mem) unit :=
  gemmini_extended_mvout dram_addr spad_addr DIM DIM.

(** ** Compute and preload *)

Definition gemmini_extended_compute_preloaded (A BD A_cols A_rows BD_cols BD_rows : Z) : M (machine mem) unit :=
  ROCC_INSTRUCTION_RS1_RS2 ((u64 A_rows ≪ (ADDR_LEN + 16)) |ᵇ (u64 A_cols ≪ ADDR_LEN) |ᵇ A)
    ((u64 BD_rows ≪ (ADDR_LEN + 16)) |ᵇ (u64 BD_cols ≪ ADDR_LEN) |ᵇ BD) k_COMPUTE_PRELOADED.
Definition gemmini_extended_compute_accumulated (A BD A_cols A_rows BD_cols BD_rows : Z) : M (machine mem) unit :=
  ROCC_INSTRUCTION_RS1_RS2 ((u64 A_rows ≪ (ADDR_LEN + 16)) |ᵇ (u64 A_cols ≪ ADDR_LEN) |ᵇ A)
    ((u64 BD_rows ≪ (ADDR_LEN + 16)) |ᵇ (u64 BD_cols ≪ ADDR_LEN) |ᵇ BD) k_COMPUTE_ACCUMULATE.
Definition gemmini_compute_preloaded (A BD : Z) : M (machine mem) unit :=
  gemmini_extended_compute_preloaded A BD DIM DIM DIM DIM.
Definition gemmini_compute_accumulated (A BD : Z) : M (machine mem) unit :=
  gemmini_extended_compute_accumulated A BD DIM DIM DIM DIM.
Definition gemmini_extended_preload (BD C BD_cols BD_rows C_cols C_rows : Z) : M (machine mem) unit :=
  ROCC_INSTRUCTION_RS1_RS2 ((u64 BD_rows ≪ (ADDR_LEN + 16)) |ᵇ (u64 BD_cols ≪ ADDR_LEN) |ᵇ BD)
    ((u64 C_rows ≪ (ADDR_LEN + 16)) |ᵇ (u64 C_cols ≪ ADDR_LEN) |ᵇ C) k_PRELOAD.
Definition gemmini_preload (BD C : Z) : M (machine mem) unit := gemmini_extended_preload BD C DIM DIM DIM DIM.
Definition gemmini_preload_zeros (C : Z) : M (machine mem) unit := gemmini_preload GARBAGE_ADDR C.

(** ** Configuration *)

(** Two instructions: the execute configuration and the im2col one. *)
Definition gemmini_extended3_config_ex (dataflow sys_act sys_shift : Z) (sys_acc_scale : float32) (relu6_shift C_stride A_stride : Z)
    (A_transpose B_transpose : bool) (ocol row_turn kdim stride channel row_left kdim2 : Z)
    (weight_double_bank weight_triple_bank set_only_strides : bool) : M (machine mem) unit :=
  ROCC_INSTRUCTION_RS1_RS2
    ((bits_of_f32 sys_acc_scale ≪ 32) |ᵇ (u64 A_stride ≪ 16) |ᵇ (b2z B_transpose ≪ 9) |ᵇ (b2z A_transpose ≪ 8)
      |ᵇ (b2z set_only_strides ≪ 7) |ᵇ (sys_act ≪ 3) |ᵇ (dataflow ≪ 2) |ᵇ CONFIG_EX)
    ((u64 C_stride ≪ 48) |ᵇ (u64 relu6_shift ≪ 32) |ᵇ sys_shift) k_CONFIG ;;
  ROCC_INSTRUCTION_RS1_RS2
    ((b2z weight_triple_bank ≪ 59) |ᵇ (b2z weight_double_bank ≪ 58) |ᵇ (u64 row_left ≪ 54) |ᵇ (u64 row_turn ≪ 42)
      |ᵇ CONFIG_IM2COL)
    ((u64 ocol ≪ 56) |ᵇ (u64 kdim2 ≪ 48) |ᵇ (u64 kdim ≪ 44) |ᵇ (u64 channel ≪ 23) |ᵇ (u64 stride ≪ 20)) k_CONFIG.
(** The im2col arguments of [gemmini_extended2_config_ex] are not passed on. *)
Definition gemmini_extended2_config_ex (dataflow sys_act sys_shift relu6_shift A_stride : Z) (A_transpose B_transpose : bool)
    : M (machine mem) unit :=
  gemmini_extended3_config_ex dataflow sys_act sys_shift ACC_SCALE_IDENTITY relu6_shift 1 A_stride A_transpose B_transpose
    0 0 0 0 0 0 0 false false false.
Definition gemmini_extended_config_ex (dataflow sys_act sys_shift relu6_shift A_stride : Z) (A_transpose B_transpose : bool)
    : M (machine mem) unit :=
  gemmini_extended2_config_ex dataflow sys_act sys_shift relu6_shift A_stride A_transpose B_transpose.
Definition gemmini_config_ex (dataflow sys_act sys_shift relu6_shift : Z) : M (machine mem) unit :=
  gemmini_extended_config_ex dataflow sys_act sys_shift relu6_shift 1 false false.

Definition gemmini_extended5_config_ld (stride : Z) (scale : float32) (shrunk : bool) (block_mvin_stride pixel_repeats id : Z)
    : M (machine mem) unit :=
  ROCC_INSTRUCTION_RS1_RS2
    ((bits_of_f32 scale ≪ 32) |ᵇ (u64 block_mvin_stride ≪ 16) |ᵇ (u64 pixel_repeats ≪ 8) |ᵇ (id ≪ 3)
      |ᵇ (b2z shrunk ≪ 2) |ᵇ CONFIG_LD) stride k_CONFIG.
Definition gemmini_extended4_config_ld (stride : Z) (scale : float32) (shrunk : bool) (block_mvin_stride id : Z) : M (machine mem) unit :=
  gemmini_extended5_config_ld stride scale shrunk block_mvin_stride 1 id.
Definition gemmini_extended3_config_ld (stride : Z) (scale : float32) (shrunk : bool) (id : Z) : M (machine mem) unit :=
  gemmini_extended4_config_ld stride scale shrunk DIM id.
Definition gemmini_extended2_config_ld (stride : Z) (scale : float32) (shrunk : bool) : M (machine mem) unit :=
  gemmini_extended3_config_ld stride scale shrunk 0.
Definition gemmini_extended_config_ld (stride : Z) (scale : float32) : M (machine mem) unit :=
  gemmini_extended2_config_ld stride scale false.
Definition gemmini_config_ld (stride : Z) : M (machine mem) unit :=
  gemmini_extended_config_ld stride MVIN_SCALE_IDENTITY.

(** The argument for the stride is the expression [stride * size] in most uses; the
    cast [(uint32_t)stride] of the macro applies to its first factor, and the
    product with a [size_t] has 64 bits. *)
Definition gemmini_extended2_config_st (stride size acc_act : Z) (acc_scale : float32)
    (pool_stride pool_size pool_out_dim porows pocols orows ocols upad lpad : Z) : M (machine mem) unit :=
  ROCC_INSTRUCTION_RS1_RS2
    ((u64 ocols ≪ 56) |ᵇ (u64 orows ≪ 48) |ᵇ (u64 pocols ≪ 40) |ᵇ (u64 porows ≪ 32) |ᵇ (u64 pool_out_dim ≪ 24)
      |ᵇ (u64 lpad ≪ 10) |ᵇ (u64 upad ≪ 8) |ᵇ (u64 pool_size ≪ 6) |ᵇ (u64 pool_stride ≪ 4) |ᵇ (acc_act ≪ 2) |ᵇ CONFIG_ST)
    ((bits_of_f32 acc_scale ≪ 32) |ᵇ u64 (u32 stride * size)) k_CONFIG.
Definition gemmini_extended_config_st (stride size acc_act : Z) (acc_scale : float32) : M (machine mem) unit :=
  gemmini_extended2_config_st stride size acc_act acc_scale 0 0 0 0 0 0 0 0 0.
Definition gemmini_config_st (stride size : Z) : M (machine mem) unit :=
  gemmini_extended_config_st stride size NO_ACTIVATION ACC_SCALE_IDENTITY.

Definition gemmini_flush (skip : Z) : M (machine mem) unit := ROCC_INSTRUCTION_RS1_RS2 skip 0 k_FLUSH.

(** The RISC-V [fence]: the simulator runs every instruction to completion, so
    there is nothing to wait for. *)
Definition gemmini_fence : M (machine mem) unit := mret tt.

(** ** Counters *)

Definition gemmini_counter_access (config_reg : Z) : M (machine mem) Z :=
  v ← custom3 k_COUNTER config_reg 0; mret (u32 v).
Definition counter_read (index : Z) : M (machine mem) Z :=
  gemmini_counter_access (u32 ((index &ᵇ 0x7) ≪ 4)).
Definition counter_configure (index counter_code : Z) : M (machine mem) unit :=
  let non_incremental := INCREMENTAL_COUNTERS <? counter_code in
  let counter_code := if non_incremental then counter_code - INCREMENTAL_COUNTERS else counter_code in
  let config_reg := u32 (((index &ᵇ 0x7) ≪ 4) |ᵇ 0x8 |ᵇ ((counter_code &ᵇ 0x3f) ≪ 12) |ᵇ (b2z non_incremental ≪ 31)) in
  _ ← gemmini_counter_access config_reg; mret tt.
Definition counter_snapshot_take : M (machine mem) unit := _ ← gemmini_counter_access 0x4; mret tt.
Definition counter_snapshot_reset : M (machine mem) unit := _ ← gemmini_counter_access 0x2; mret tt.
Definition counter_reset : M (machine mem) unit := _ ← gemmini_counter_access 0x1; mret tt.

(** ** Loops *)

Definition gemmini_loop_ws (I J K pad_I pad_J pad_K A B D C A_stride B_stride D_stride C_stride : Z)
    (A_transpose B_transpose full_C low_D ex_accumulate : bool) (weightA : Z) : M (machine mem) unit :=
  ROCC_INSTRUCTION_RS1_RS2 ((u64 pad_K ≪ 32) |ᵇ (u64 pad_J ≪ 16) |ᵇ u64 pad_I)
    ((u64 K ≪ 32) |ᵇ (u64 J ≪ 16) |ᵇ u64 I) k_LOOP_WS_CONFIG_BOUNDS ;;
  ROCC_INSTRUCTION_RS1_RS2 A B k_LOOP_WS_CONFIG_ADDRS_AB ;;
  ROCC_INSTRUCTION_RS1_RS2 D C k_LOOP_WS_CONFIG_ADDRS_DC ;;
  ROCC_INSTRUCTION_RS1_RS2 A_stride B_stride k_LOOP_WS_CONFIG_STRIDES_AB ;;
  ROCC_INSTRUCTION_RS1_RS2 D_stride C_stride k_LOOP_WS_CONFIG_STRIDES_DC ;;
  ROCC_INSTRUCTION_RS1_RS2
    ((u64 weightA ≪ 8) |ᵇ (b2z low_D ≪ 2) |ᵇ (b2z full_C ≪ 1) |ᵇ b2z ex_accumulate)
    ((b2z B_transpose ≪ 1) |ᵇ b2z A_transpose) k_LOOP_WS.

(** The arguments of [gemmini_loop_conv_ws]. *)
Record loop_conv_params := {
  lp_batch_size : Z; lp_in_dim : Z; lp_in_channels : Z; lp_out_channels : Z; lp_out_dim : Z; lp_pool_out_dim : Z;
  lp_stride : Z; lp_padding : Z; lp_kernel_dim : Z; lp_kernel_dilation : Z;
  lp_pool_size : Z; lp_pool_stride : Z; lp_pool_padding : Z;
  lp_batches : Z; lp_porows : Z; lp_pocols : Z; lp_pochs : Z; lp_krows : Z; lp_kcols : Z; lp_kchs : Z;
  lp_lpad : Z; lp_rpad : Z; lp_upad : Z; lp_dpad : Z; lp_plpad : Z; lp_prpad : Z; lp_pupad : Z; lp_pdpad : Z;
  lp_orows : Z; lp_ocols : Z; lp_weights : Z; lp_output : Z; lp_bias : Z; lp_input : Z;
  lp_no_bias : bool; lp_no_pool : bool; lp_downsample : bool; lp_wrot180 : bool; lp_input_dilated : bool;
  lp_activation : Z; lp_trans_output_1203 : bool; lp_trans_weight_1203 : bool; lp_trans_weight_0132 : bool;
  lp_trans_input_3120 : bool; lp_max_pixels_per_row : Z }.

(** Four 16-bit fields of a register. *)
Definition pack4 (x3 x2 x1 x0 : Z) : Z := (u64 x3 ≪ 48) |ᵇ (u64 x2 ≪ 32) |ᵇ (u64 x1 ≪ 16) |ᵇ u64 x0.

Definition gemmini_loop_conv_ws (p : loop_conv_params) : M (machine mem) unit :=
  ROCC_INSTRUCTION_RS1_RS2 (pack4 (lp_out_channels p) (lp_in_channels p) (lp_in_dim p) (lp_batch_size p))
    (pack4 (lp_padding p) (lp_stride p) (lp_pool_out_dim p) (lp_out_dim p)) k_LOOP_CONV_WS_CONFIG_1 ;;
  ROCC_INSTRUCTION_RS1_RS2 (pack4 (lp_kernel_dim p) (lp_pool_size p) (lp_pool_stride p) (lp_pool_padding p))
    (pack4 (lp_batches p) (lp_porows p) (lp_pocols p) (lp_pochs p)) k_LOOP_CONV_WS_CONFIG_2 ;;
  ROCC_INSTRUCTION_RS1_RS2 (pack4 (lp_krows p) (lp_kcols p) (lp_kchs p) (lp_lpad p))
    (pack4 (lp_rpad p) (lp_upad p) (lp_dpad p) (lp_plpad p)) k_LOOP_CONV_WS_CONFIG_3 ;;
  ROCC_INSTRUCTION_RS1_RS2 (pack4 (lp_orows p) (lp_prpad p) (lp_pupad p) (lp_pdpad p))
    ((u64 (lp_kernel_dilation p) ≪ 16) |ᵇ u64 (lp_ocols p)) k_LOOP_CONV_WS_CONFIG_4 ;;
  ROCC_INSTRUCTION_RS1_RS2 (lp_weights p) (lp_output p) k_LOOP_CONV_WS_CONFIG_5 ;;
  ROCC_INSTRUCTION_RS1_RS2 (lp_bias p) (lp_input p) k_LOOP_CONV_WS_CONFIG_6 ;;
  ROCC_INSTRUCTION_RS1_RS2
    ((u64 (lp_max_pixels_per_row p) ≪ 8) |ᵇ (b2z (lp_trans_input_3120 p) ≪ 5) |ᵇ (b2z (lp_trans_weight_0132 p) ≪ 4)
      |ᵇ (b2z (lp_trans_weight_1203 p) ≪ 3) |ᵇ (b2z (lp_trans_output_1203 p) ≪ 2) |ᵇ (b2z (lp_wrot180 p) ≪ 1)
      |ᵇ b2z (lp_no_bias p))
    ((lp_activation p ≪ 3) |ᵇ (b2z (lp_input_dilated p) ≪ 2) |ᵇ (b2z (lp_downsample p) ≪ 1) |ᵇ b2z (lp_no_pool p))
    k_LOOP_CONV_WS.
End isa.
