(* ===== verification/IsaSpec.v ===== *)
(** * IsaSpec: the driver's encodings are what the simulator decodes

    Each macro of the driver packs its arguments into operand registers; the
    simulator unpacks them.  The theorems say which operation of the simulator
    a macro runs, with which operands. *)

From S2P Require Import Prelude Effects Float32 Params State Dram Fill Scaling Norm Config Move MoveSpec Compute LoopWs LoopConv Counters Dispatch Invariant Isa.

Lemma b2z_range b : 0 <= b2z b <= 1.
Proof. destruct b; simpl; lia. Qed.

(** [pack_sum] turns a packing of disjoint fields into a sum, innermost first;
    the ranges of the fields are in the context. *)
Ltac pack_side := unfold in_u in *; repeat match goal with |- context [b2z ?b] =>
  lazymatch goal with H : 0 <= b2z b <= 1 |- _ => fail | _ => pose proof (b2z_range b) end end; lia.
Ltac pack_sum :=
  rewrite <- ?Z.lor_assoc;
  repeat match goal with |- context [(?x ≪ ?n) |ᵇ ?y] =>
    lazymatch y with context [_ |ᵇ _] => fail | _ => rewrite (lor_shiftl_add x y n) by pack_side end end.

Section issue.
Context {mem : Type} `{Mmu mem} `{Rand}.
Implicit Types m : machine mem.

(** What [custom3] does around the operation of an instruction. *)
Definition issue (funct : Z) (body : M (machine mem) unit) : M (machine mem) unit :=
  r ← get_gs resetted;
  when (negb r) reset ;;
  p ← get_gs (fun s => op_in_progress (cnt s));
  when p counter_increment_random ;;
  body ;;
  upd_gs (fun s => s <| cnt := (cnt s) <| op_in_progress := negb (funct =? flush_funct) |> |>).

Lemma issue_ext funct b1 b2 m : (forall m', b1 m' = b2 m') -> issue funct b1 m = issue funct b2 m.
Proof.
  intros He. unfold issue, mbind, M_bind. destruct (get_gs resetted m) as [[r|f] m1]; [|done].
  destruct (when (negb r) reset m1) as [[[]|f] m2]; [|done].
  destruct (get_gs _ m2) as [[p|f] m3]; [|done].
  destruct (when p counter_increment_random m3) as [[[]|f] m4]; [|done]. by rewrite He.
Qed.

Lemma rocc_issue rs1 rs2 funct m : funct <> counter_op_funct ->
  ROCC_INSTRUCTION_RS1_RS2 rs1 rs2 funct m = issue funct (execute funct (u64 rs1) (u64 rs2)) m.
Proof.
  intros Hf. unfold ROCC_INSTRUCTION_RS1_RS2, custom3, issue, mbind, M_bind.
  destruct (get_gs resetted m) as [[r|f] m1]; [|done].
  destruct (when (negb r) reset m1) as [[[]|f] m2]; [|done].
  destruct (get_gs _ m2) as [[p|f] m3]; [|done].
  destruct (when p counter_increment_random m3) as [[[]|f] m4]; [|done].
  rewrite (proj2 (Z.eqb_neq _ _) Hf).
  destruct (execute funct (u64 rs1) (u64 rs2) m4) as [[[]|f] m5]; done.
Qed.

(** A macro with one block operand. *)
Lemma block_word rows cols addr : block_ok rows cols addr ->
  u64 ((u64 rows ≪ (ADDR_LEN + 16)) |ᵇ (u64 cols ≪ ADDR_LEN) |ᵇ addr) = pack_block rows cols addr.
Proof.
  intros [Hr Hc Ha]. unfold pack_block, ADDR_LEN. rewrite !(wrap_u_id 64 rows), !(wrap_u_id 64 cols) by (unfold in_u; lia).
  done.
Qed.

Lemma mvin_issue a sp cols rows m : block_ok rows cols sp ->
  gemmini_extended_mvin a sp cols rows m = issue k_MVIN (mvin (u64 a) (pack_block rows cols sp) 0) m.
Proof. intros Hb. unfold gemmini_extended_mvin. by rewrite rocc_issue, block_word by done. Qed.
Lemma mvin2_issue a sp cols rows m : block_ok rows cols sp ->
  gemmini_extended_mvin2 a sp cols rows m = issue k_MVIN2 (mvin (u64 a) (pack_block rows cols sp) 1) m.
Proof. intros Hb. unfold gemmini_extended_mvin2. by rewrite rocc_issue, block_word by done. Qed.
Lemma mvin3_issue a sp cols rows m : block_ok rows cols sp ->
  gemmini_extended_mvin3 a sp cols rows m = issue k_MVIN3 (mvin (u64 a) (pack_block rows cols sp) 2) m.
Proof. intros Hb. unfold gemmini_extended_mvin3. by rewrite rocc_issue, block_word by done. Qed.
Lemma mvout_issue a sp cols rows m : block_ok rows cols sp ->
  gemmini_extended_mvout a sp cols rows m = issue k_MVOUT (mvout (u64 a) (pack_block rows cols sp)) m.
Proof. intros Hb. unfold gemmini_extended_mvout. by rewrite rocc_issue, block_word by done. Qed.

Lemma preload_issue W C W_cols W_rows C_cols C_rows m : block_ok W_rows W_cols W -> block_ok C_rows C_cols C ->
  gemmini_extended_preload W C W_cols W_rows C_cols C_rows m =
    issue k_PRELOAD (preload (pack_block W_rows W_cols W) (pack_block C_rows C_cols C)) m.
Proof. intros Hb Hb2. unfold gemmini_extended_preload. by rewrite rocc_issue, !block_word by done. Qed.
Lemma compute_preloaded_issue A BD A_cols A_rows BD_cols BD_rows m : block_ok A_rows A_cols A -> block_ok BD_rows BD_cols BD ->
  gemmini_extended_compute_preloaded A BD A_cols A_rows BD_cols BD_rows m =
    issue k_COMPUTE_PRELOADED (compute (pack_block A_rows A_cols A) (pack_block BD_rows BD_cols BD) true) m.
Proof. intros Hb Hb2. unfold gemmini_extended_compute_preloaded. by rewrite rocc_issue, !block_word by done. Qed.
Lemma compute_accumulated_issue A BD A_cols A_rows BD_cols BD_rows m : block_ok A_rows A_cols A -> block_ok BD_rows BD_cols BD ->
  gemmini_extended_compute_accumulated A BD A_cols A_rows BD_cols BD_rows m =
    issue k_COMPUTE_ACCUMULATE (compute (pack_block A_rows A_cols A) (pack_block BD_rows BD_cols BD) false) m.
Proof. intros Hb Hb2. unfold gemmini_extended_compute_accumulated. by rewrite rocc_issue, !block_word by done. Qed.
End issue.

(** ** Reinterpretation of floats *)

(** A representable binary32 value. *)
Definition is_binary32 (x : float32) : bool := valid_binary 24 128 x.

Lemma digits2_pos_bounds m : 2 ^ (Zpos (digits2_pos m) - 1) <= Zpos m < 2 ^ Zpos (digits2_pos m).
Proof.
  assert (forall n, 2 ^ Zpos (Pos.succ n) = 2 * 2 ^ Zpos n) as Hp.
  { intros n. rewrite Pos2Z.inj_succ, Z.pow_succ_r by lia. done. }
  induction m as [m IH|m IH|]; cbn [digits2_pos]; [| |simpl; lia];
    rewrite Hp; replace (Zpos (Pos.succ (digits2_pos m)) - 1) with (Zpos (digits2_pos m)) by lia;
    pose proof (Z.pow_pos_nonneg 2 (Zpos (digits2_pos m)) ltac:(lia) ltac:(lia));
    rewrite (pow_half (Zpos (digits2_pos m))) in * by lia; lia.
Qed.

Lemma bounded32 s m e : is_binary32 (S754_finite s m e) = true ->
  Zpos m < 2 ^ 24 /\ -149 <= e <= 104 /\ (e = -149 \/ 2 ^ 23 <= Zpos m).
Proof.
  unfold is_binary32, valid_binary, bounded, canonical_mantissa, fexp, emin.
  rewrite andb_true_iff, Z.leb_le. intros [Hc He]. apply Z.eqb_eq in Hc.
  pose proof (digits2_pos_bounds m) as [Hl Hu]. set (n := Zpos (digits2_pos m)) in *.
  assert (n <= 24) as Hn by lia. assert (2 ^ n <= 2 ^ 24) by (apply Z.pow_le_mono_r; lia).
  split_and!; [lia..|]. destruct (decide (n = 24)) as [Hn24|]; [right|left; lia].
  rewrite Hn24 in Hl. by replace (2 ^ 23) with (2 ^ (24 - 1)) by done.
Qed.

(** Sign, exponent and fraction of a 32-bit pattern. *)
Lemma f32_fields s e f : 0 <= e < 256 -> 0 <= f < 2 ^ 23 ->
  let b := b2z s * 2 ^ 31 + e * 2 ^ 23 + f in
  Z.testbit b 31 = s /\ (b ≫ 23) &ᵇ 0xFF = e /\ b &ᵇ 0x7FFFFF = f.
Proof.
  intros He Hf b. assert (b = b2z s * 2 ^ 31 + e * 2 ^ 23 + f) as Hb by done. pose proof (b2z_range s). split_and!.
  - rewrite Z.testbit_eqb by lia. replace (b / 2 ^ 31) with (b2z s) by zlia. by destruct s.
  - autorewrite with bits. zlia.
  - rewrite (land_mask b 23) by done. zlia.
Qed.

(** The unions are inverse. *)
Lemma f32_bits_inverse x : is_binary32 x = true -> 0 <= bits_of_f32 x < 2 ^ 32 /\ f32_of_bits (bits_of_f32 x) = x.
Proof.
  intros Hx. destruct x as [s|s| |s m e].
  - destruct s; by vm_compute.
  - destruct s; by vm_compute.
  - by vm_compute.
  - apply bounded32 in Hx as (Hm & He & Hn). unfold bits_of_f32. pose proof (b2z_range s).
    destruct (Z.ltb_spec (Zpos m) (2 ^ 23)) as [Hlt|Hge].
    + assert (e = -149) as -> by lia. rewrite lor_shiftl_add by lia.
      destruct (f32_fields s 0 (Zpos m)) as (Hs & He0 & Hf); [lia..|].
      rewrite Z.mul_0_l, Z.add_0_r in *. split; [lia|]. unfold f32_of_bits. by rewrite Hs, He0, Hf.
    + rewrite <- Z.lor_assoc, (lor_shiftl_add (e + 150)), lor_shiftl_add by lia.
      destruct (f32_fields s (e + 150) (Zpos m - 2 ^ 23)) as (Hs & He0 & Hf); [lia..|].
      rewrite Z.add_assoc. split; [lia|]. unfold f32_of_bits. rewrite Hs, He0, Hf.
      rewrite (proj2 (Z.eqb_neq (e + 150) 0)), (proj2 (Z.eqb_neq (e + 150) 255)) by lia.
      replace (Zpos m - 2 ^ 23 + 2 ^ 23) with (Zpos m) by lia. f_equal. lia.
Qed.

(** the bit pattern of a float.  The unions through which the driver passes a
    scale and the simulator receives it are inverse: every binary32 value (zeros,
    subnormals, normal values, infinities and the NaN) is encoded in 32 bits and
    read back unchanged. *)
Theorem float_bits_round_trip x : is_binary32 x = true ->
  0 <= bits_of_f32 x < 2 ^ 32 /\ f32_of_bits (bits_of_f32 x) = x.
Proof. apply f32_bits_inverse. Qed.

Lemma float_bits_round_trip_witness :
  0 <= bits_of_f32 f32_one < 2 ^ 32 /\ f32_of_bits (bits_of_f32 f32_one) = f32_one.
Proof. apply (float_bits_round_trip f32_one). by vm_compute. Defined.

(** ** Configuration words *)

Section words.
Context {mem : Type} `{Mmu mem}.
Implicit Types m : machine mem.

(** One entry of the load registers replaced. *)
Definition load_set (l : ld_regs) (id stride block_stride : Z) (shrunk : bool) (scale : float32) (pixels : Z) : ld_regs := {|
  load_strides := <[Z.to_nat id := stride]> (load_strides l);
  load_block_strides := <[Z.to_nat id := block_stride]> (load_block_strides l);
  load_shrunks := <[Z.to_nat id := shrunk]> (load_shrunks l);
  load_scales := <[Z.to_nat id := scale]> (load_scales l);
  pixels_per_rows := <[Z.to_nat id := pixels]> (pixels_per_rows l) |}.

Definition ld_word (scale : float32) (shrunk : bool) (block_mvin_stride pixel_repeats id : Z) : Z :=
  (bits_of_f32 scale ≪ 32) |ᵇ (u64 block_mvin_stride ≪ 16) |ᵇ (u64 pixel_repeats ≪ 8) |ᵇ (id ≪ 3)
    |ᵇ (b2z shrunk ≪ 2) |ᵇ CONFIG_LD.

Definition sized {A} (l : list A) : Prop := Z.of_nat (length l) = LOAD_STATES.
Definition ld_sized (l : ld_regs) : Prop :=
  sized (load_strides l) /\ sized (load_block_strides l) /\ sized (load_shrunks l) /\ sized (load_scales l) /\
  sized (pixels_per_rows l).

Lemma run_arr_set {S A B} (l : list A) i y (k : list A -> M S B) s : sized l -> 0 <= i < LOAD_STATES ->
  (arr_set l i y ≫= k) s = k (<[Z.to_nat i := y]> l) s.
Proof.
  intros Hl Hi. unfold sized in Hl. unfold arr_set, check, mbind, M_bind. by assert ((0 <=? i) && (i <? Z.of_nat (length l)) = true) as -> by lia.
Qed.

Lemma run_get {A B} (f : gemmini_state -> A) (k : A -> M (machine mem) B) m : (get_gs f ≫= k) m = k (f (gs m)) m.
Proof. done. Qed.
Lemma run_upd {B} f (k : unit -> M (machine mem) B) m :
  (upd_gs f ≫= k) m = k tt (Machine (f (gs m)) (dram m) (rand_pos m)).
Proof. done. Qed.

(** A load configuration sets exactly its entry. *)
Lemma run_config_ld stride scale shrunk bs pr id m :
  0 <= id < LOAD_STATES -> in_u 64 stride -> is_binary32 scale = true -> in_u 16 bs -> 1 <= pr < 2 ^ 8 ->
  ld_sized (ld (gs m)) ->
  config (u64 (ld_word scale shrunk bs pr id)) (u64 stride) m =
    (Ok tt, Machine ((gs m) <| ld := load_set (ld (gs m)) id stride bs shrunk scale pr |>) (dram m) (rand_pos m)).
Proof.
  intros Hid Hst Hsc Hbs Hpr (L1 & L2 & L3 & L4 & L5). unfold LOAD_STATES in Hid.
  destruct (f32_bits_inverse scale Hsc) as [Hb Hf]. unfold in_u in *. pose proof (b2z_range shrunk) as Hs.
  assert (u64 (ld_word scale shrunk bs pr id) =
    bits_of_f32 scale * 2 ^ 32 + (bs * 2 ^ 16 + (pr * 2 ^ 8 + (id * 2 ^ 3 + (b2z shrunk * 2 ^ 2 + 1))))) as ->.
  { unfold ld_word, CONFIG_LD. rewrite (wrap_u_id 64 bs), (wrap_u_id 64 pr) by (unfold in_u; lia). pack_sum.
    apply wrap_u_id. unfold in_u. lia. }
  set (w := _ + _). assert (w = bits_of_f32 scale * 2 ^ 32 + (bs * 2 ^ 16 + (pr * 2 ^ 8 + (id * 2 ^ 3 + (b2z shrunk * 2 ^ 2 + 1))))) as Hw by done.
  clearbody w. unfold config.
  assert (w &ᵇ 3 = 1) as -> by (autorewrite with bits; zlia). cbn [Z.eqb Pos.eqb].
  assert ((w ≫ 3) &ᵇ 3 = id) as E1 by (autorewrite with bits; zlia).
  assert ((w ≫ 16) &ᵇ 0xFFFF = bs) as E2 by (autorewrite with bits; zlia).
  assert (u32 (w ≫ 32) = bits_of_f32 scale) as E3 by (unfold wrap_u; autorewrite with bits; zlia).
  assert (negb ((w ≫ 2) &ᵇ 1 =? 0) = shrunk) as E4.
  { assert ((w ≫ 2) &ᵇ 1 = b2z shrunk) as -> by (autorewrite with bits; zlia). by destruct shrunk. }
  assert ((w ≫ 8) &ᵇ 0xFF = pr) as E5 by (autorewrite with bits; zlia).
  unfold config_mvin. cbv zeta. rewrite E1, E2, E3, E4, E5, Hf, (wrap_u_id 64 stride) by done.
  rewrite (proj2 (Z.eqb_neq pr 0)) by lia.
  rewrite run_get, !run_arr_set by done. done.
Qed.

(** The activation codes of the driver: 0 keeps no activation (unless a softmax
    is selected), 1 is ReLU. *)
Lemma run_decode_act {B} current a act (k : Activation -> M (machine mem) B) m :
  current <> SOFTMAX -> 0 <= a < 4 -> act_of_Z a = Some act ->
  (decode_act current a ≫= k) m = k act m.
Proof.
  intros Hc Ha Hact. assert (a = 0 \/ a = 1 \/ a = 2 \/ a = 3) as [-> | [-> | [-> | ->]]] by lia;
    cbn in Hact; simplify_eq; [by destruct current|done..].
Qed.

Definition st_word1 (acc_act pool_stride pool_size pool_out_dim porows pocols orows ocols upad lpad : Z) : Z :=
  (u64 ocols ≪ 56) |ᵇ (u64 orows ≪ 48) |ᵇ (u64 pocols ≪ 40) |ᵇ (u64 porows ≪ 32) |ᵇ (u64 pool_out_dim ≪ 24)
    |ᵇ (u64 lpad ≪ 10) |ᵇ (u64 upad ≪ 8) |ᵇ (u64 pool_size ≪ 6) |ᵇ (u64 pool_stride ≪ 4) |ᵇ (acc_act ≪ 2) |ᵇ CONFIG_ST.
Definition st_word2 (scale : float32) (stride : Z) : Z := (bits_of_f32 scale ≪ 32) |ᵇ stride.

Lemma st_word2_fields scale stride : is_binary32 scale = true -> in_u 32 stride ->
  u64 (st_word2 scale stride) &ᵇ 0xFFFFFFFF = stride /\
  f32_of_bits ((u64 (st_word2 scale stride) ≫ 32) &ᵇ 0xFFFFFFFF) = scale.
Proof.
  intros Hsc Hu. destruct (f32_bits_inverse scale Hsc) as [Hb Hf]. unfold in_u in Hu.
  assert (u64 (st_word2 scale stride) = bits_of_f32 scale * 2 ^ 32 + stride) as ->.
  { unfold st_word2. pack_sum. apply wrap_u_id. unfold in_u. lia. }
  split; [autorewrite with bits; zlia|]. rewrite <- Hf at 2. f_equal. autorewrite with bits. zlia.
Qed.

(** A store configuration sets every store register. *)
Lemma run_config_st stride a act scale ps pz pod por poc orr occ up lp m : in_u 32 stride ->
  acc_act (st (gs m)) <> SOFTMAX -> 0 <= a < 4 -> act_of_Z a = Some act -> is_binary32 scale = true ->
  in_u 2 ps -> in_u 2 pz -> in_u 8 pod -> in_u 8 por -> in_u 8 poc -> in_u 8 orr -> in_u 8 occ -> in_u 2 up -> in_u 2 lp ->
  config (u64 (st_word1 a ps pz pod por poc orr occ up lp)) (u64 (st_word2 scale stride)) m =
    (Ok tt, Machine ((gs m) <| st := Build_st_regs stride act scale ps pz pod por poc orr occ lp up |>)
              (dram m) (rand_pos m)).
Proof.
  intros Hst Hcur Ha Hact Hsc Hps Hpz Hpod Hpor Hpoc Horr Hocc Hup Hlp. destruct (st_word2_fields scale stride Hsc Hst) as [F1 F2].
  set (w2 := u64 (st_word2 scale stride)) in *. clearbody w2. unfold in_u in *.
  assert (u64 (st_word1 a ps pz pod por poc orr occ up lp) =
    occ * 2 ^ 56 + (orr * 2 ^ 48 + (poc * 2 ^ 40 + (por * 2 ^ 32 + (pod * 2 ^ 24 + (lp * 2 ^ 10 + (up * 2 ^ 8 +
      (pz * 2 ^ 6 + (ps * 2 ^ 4 + (a * 2 ^ 2 + 2)))))))))) as ->.
  { unfold st_word1, CONFIG_ST.
    rewrite !(wrap_u_id 64 occ), !(wrap_u_id 64 orr), !(wrap_u_id 64 poc), !(wrap_u_id 64 por), !(wrap_u_id 64 pod),
      !(wrap_u_id 64 lp), !(wrap_u_id 64 up), !(wrap_u_id 64 pz), !(wrap_u_id 64 ps) by (unfold in_u; lia).
    pack_sum. apply wrap_u_id. unfold in_u. lia. }
  match goal with |- config ?e _ _ = _ => remember e as w eqn:Hw end.
  assert ((w ≫ 2) &ᵇ 3 = a) as E1 by (autorewrite with bits; zlia).
  assert ((w ≫ 4) &ᵇ 3 = ps) as E2 by (autorewrite with bits; zlia).
  assert ((w ≫ 6) &ᵇ 3 = pz) as E3 by (autorewrite with bits; zlia).
  assert ((w ≫ 8) &ᵇ 3 = up) as E4 by (autorewrite with bits; zlia).
  assert ((w ≫ 10) &ᵇ 3 = lp) as E5 by (autorewrite with bits; zlia).
  assert ((w ≫ 24) &ᵇ 0xFF = pod) as E6 by (autorewrite with bits; zlia).
  assert ((w ≫ 32) &ᵇ 0xFF = por) as E7 by (autorewrite with bits; zlia).
  assert ((w ≫ 40) &ᵇ 0xFF = poc) as E8 by (autorewrite with bits; zlia).
  assert ((w ≫ 48) &ᵇ 0xFF = orr) as E9 by (autorewrite with bits; zlia).
  assert ((w ≫ 56) &ᵇ 0xFF = occ) as E10 by (autorewrite with bits; zlia).
  assert (w &ᵇ 3 = 2) as E0 by (autorewrite with bits; zlia).
  clear Hw. unfold config. rewrite E0. cbn [Z.eqb Pos.eqb]. unfold config_mvout. cbv zeta.
  rewrite E1, E2, E3, E4, E5, E6, E7, E8, E9, E10, F1, F2.
  rewrite run_get, run_upd. by rewrite (run_decode_act _ a act).
Qed.

Definition ex_word1 (dataflow sys_act : Z) (sys_acc_scale : float32) (A_stride : Z) (A_transpose B_transpose set_only : bool) : Z :=
  (bits_of_f32 sys_acc_scale ≪ 32) |ᵇ (u64 A_stride ≪ 16) |ᵇ (b2z B_transpose ≪ 9) |ᵇ (b2z A_transpose ≪ 8)
    |ᵇ (b2z set_only ≪ 7) |ᵇ (sys_act ≪ 3) |ᵇ (dataflow ≪ 2) |ᵇ CONFIG_EX.
Definition ex_word2 (C_stride relu6_shift sys_shift : Z) : Z := (u64 C_stride ≪ 48) |ᵇ (u64 relu6_shift ≪ 32) |ᵇ sys_shift.

(** The transpositions the execute configuration accepts. *)
Definition ex_supported (dataflow : Z) (tA tB : bool) : Prop :=
  if dataflow =? 0 then ~ (tA = false /\ tB = true) else ~ (tA = true /\ tB = true).

(** An execute configuration sets every execute register. *)
Lemma run_config_ex dataflow a act scale A_stride tA tB C_stride relu6 shift m :
  acc_act (st (gs m)) <> SOFTMAX -> 0 <= dataflow < 2 -> 0 <= a < 4 -> act_of_Z a = Some act -> is_binary32 scale = true ->
  in_u 16 A_stride -> in_u 16 C_stride -> in_u 16 relu6 -> 0 <= shift < 32 -> ex_supported dataflow tA tB ->
  config (u64 (ex_word1 dataflow a scale A_stride tA tB false)) (u64 (ex_word2 C_stride relu6 shift)) m =
    (Ok tt, Machine ((gs m) <| ex := Build_ex_regs (if dataflow =? 0 then OS else WS) act shift
                                       (f32_of_Z (bits_of_f32 scale)) C_stride A_stride tA tB |>) (dram m) (rand_pos m)).
Proof.
  intros Hcur Hdf Ha Hact Hsc HA HC Hr6 Hsh Hsup. destruct (f32_bits_inverse scale Hsc) as [Hb _]. unfold in_u in *.
  pose proof (b2z_range tA) as HtA. pose proof (b2z_range tB) as HtB.
  assert (u64 (ex_word2 C_stride relu6 shift) = C_stride * 2 ^ 48 + (relu6 * 2 ^ 32 + shift)) as ->.
  { unfold ex_word2. rewrite (wrap_u_id 64 C_stride), (wrap_u_id 64 relu6) by (unfold in_u; lia). pack_sum.
    apply wrap_u_id. unfold in_u. lia. }
  match goal with |- config _ ?e _ = _ => remember e as w2 eqn:Hw2 end.
  assert (w2 &ᵇ 0xFFFFFFFF = shift) as F1 by (autorewrite with bits; zlia).
  assert ((w2 ≫ 48) &ᵇ 0xFFFF = C_stride) as F2 by (autorewrite with bits; zlia). clear Hw2.
  assert (u64 (ex_word1 dataflow a scale A_stride tA tB false) = bits_of_f32 scale * 2 ^ 32 + (A_stride * 2 ^ 16 +
    (b2z tB * 2 ^ 9 + (b2z tA * 2 ^ 8 + (0 * 2 ^ 7 + (a * 2 ^ 3 + (dataflow * 2 ^ 2 + 0))))))) as ->.
  { unfold ex_word1, CONFIG_EX. rewrite (wrap_u_id 64 A_stride) by (unfold in_u; lia). change (b2z false) with 0. pack_sum.
    apply wrap_u_id. unfold in_u. lia. }
  match goal with |- config ?e _ _ = _ => remember e as w eqn:Hw end.
  assert (w &ᵇ 3 = 0) as E0 by (autorewrite with bits; zlia).
  assert ((w ≫ 2) &ᵇ 1 = dataflow) as E1 by (autorewrite with bits; zlia).
  assert ((w ≫ 3) &ᵇ 3 = a) as E2 by (autorewrite with bits; zlia).
  assert ((w ≫ 32) &ᵇ 0xFFFFFFFF = bits_of_f32 scale) as E3 by (autorewrite with bits; zlia).
  assert ((w ≫ 16) &ᵇ 0xFFFF = A_stride) as E4 by (autorewrite with bits; zlia).
  assert ((w ≫ 8) &ᵇ 1 = b2z tA) as E5 by (autorewrite with bits; zlia).
  assert ((w ≫ 9) &ᵇ 1 = b2z tB) as E6 by (autorewrite with bits; zlia).
  assert ((w ≫ 7) &ᵇ 1 = 0) as E7 by (autorewrite with bits; zlia). clear Hw.
  unfold config. rewrite E0. cbn [Z.eqb]. unfold config_ex. cbv zeta. rewrite E1, E2, E3, E4, E5, E6, E7, F1, F2.
  rewrite run_get, (run_decode_act _ a act) by done.
  assert ((0 <=? shift) && (shift <? sizeof_acc_t * 8) = true) as -> by (unfold sizeof_acc_t; lia).
  assert (forall t, negb (b2z t =? 0) = t) as Ht by (by intros []). rewrite !Ht.
  assert (dataflow = 0 \/ dataflow = 1) as [-> | ->] by lia; destruct tA, tB; cbn in Hsup; try (exfalso; tauto); done.
Qed.

(** The im2col configuration word with no arguments is the simulator's norm
    configuration: it clears the GELU constants and [qln2]. *)
Lemma run_config_im2col m :
  config 3 0 m = (Ok tt, Machine ((gs m) <| nrm := (nrm (gs m)) <| norm_stat_id := 0 |> <| igelu_qb := 0 |>
    <| igelu_qc := 0 |> <| qln2 := 0 |> |>) (dram m) (rand_pos m)).
Proof.
  unfold config. change (3 &ᵇ 3 =? 0) with false. change (3 &ᵇ 3 =? 1) with false. change (3 &ᵇ 3 =? 2) with false.
  cbn [when]. change (3 &ᵇ 3 =? 3) with true. cbv iota. 
  destruct m as [[? ? ? [? act ? ? ? ? ? ? ? ? ? ?] [] ? ? ? ? ? ? ? ? ?] d r]. destruct act; reflexivity.
Qed.
End words.
