(* ===== verification/Issue.v ===== *)
(** * Issue: running the driver's macros on the simulator

    A macro of the driver issues one instruction.  Around the operation itself
    the simulator resets on first use and moves the performance counters; the
    rules of this file hide that: they say what a macro does to the registers
    and memories of a machine that is past its reset. *)

From S2P Require Import Prelude Effects Float32 Params State Dram Fill Scaling Norm Config Move MoveSpec Compute LoopWs LoopConv Counters Dispatch Invariant Isa IsaSpec.

(** A run that ends also keeps an invariant of all runs. *)
Lemma wp_maintains {S A} (I : S -> Prop) (m : M S A) P Q s :
  maintains I m P -> I s -> wp m Q s -> wp m (fun a s' => Q a s' /\ I s') s.
Proof.
  intros Hm Hs. unfold wp. destruct (Hm s Hs) as [HI _]. destruct (m s) as [[a|f] s']; [|done]. by split.
Qed.

Section issue_rules.
Context {mem : Type} `{MmuLaws mem} `{Rand}.
Implicit Types m : machine mem.

(** A well-typed machine past its reset. *)
Definition ready (m : machine mem) : Prop := mwf m /\ resetted (gs m) = true.

(** The machine with other counters. *)
Definition with_cnt (c : counter_regs) (r : nat) (m : machine mem) : machine mem :=
  Machine ((gs m) <| cnt := c |>) (dram m) r.

Lemma with_cnt_self m : with_cnt (cnt (gs m)) (rand_pos m) m = m.
Proof. by destruct m as [[] ? ?]. Qed.

Lemma wp_arr_set {S A} n (P : A -> Prop) (l : list A) i y Q (s : S) :
  arr_ok n P l -> 0 <= i < n -> Q (<[Z.to_nat i := y]> l) s -> wp (arr_set l i y) Q s.
Proof.
  intros [Hl _] Hi HQ. unfold arr_set. apply wp_bind, wp_check; [lia|]. by apply wp_ret.
Qed.

Lemma wp_arr_get_ok {S A} n (P : A -> Prop) (l : list A) i Q (s : S) :
  arr_ok n P l -> 0 <= i < n -> (forall y, P y -> Q y s) -> wp (arr_get l i) Q s.
Proof.
  intros [Hl HP] Hi HQ. destruct (lookup_lt_is_Some_2 l (Z.to_nat i)) as [y Hy]; [lia|].
  eapply wp_arr_get; [lia|done|]. apply HQ. by eapply Forall_lookup_1.
Qed.

(** The counters advance without a fault and nothing else moves. *)
Lemma wp_counter_increment_random Q m : wf_cnt (cnt (gs m)) ->
  (forall c r, wf_cnt c -> Q tt (with_cnt c r m)) -> wp counter_increment_random Q m.
Proof.
  intros Hc HQ. unfold counter_increment_random.
  assert (exists c r, wf_cnt c /\ m = with_cnt c r m) as Hself.
  { exists (cnt (gs m)), (rand_pos m). by rewrite with_cnt_self. }
  apply wp_bind, (wp_for_range (fun _ m' => exists c r, wf_cnt c /\ m' = with_cnt c r m)); [done| |].
  - intros i m' Hi (c & r & Hc' & ->). apply wp_bind. unfold wp at 1, rand at 1. apply wp_bind, wp_get_gs, wp_bind.
    eapply wp_arr_get_ok; [apply Hc'|done|]. intros v Hv. apply wp_bind.
    eapply wp_arr_set; [apply Hc'|done|]. apply wp_upd_gs. eexists _, _. split; [|done].
    destruct Hc'. split; try done. apply arr_ok_insert; [done|]. by apply wrap_u_range.
  - intros m1 Hm1. apply (wp_for_range (fun _ m' => exists c r, wf_cnt c /\ m' = with_cnt c r m)); [done| |].
    + intros i m' Hi (c & r & Hc' & ->). apply wp_bind. unfold wp at 1, rand at 1. apply wp_bind, wp_get_gs, wp_bind.
      eapply wp_arr_set; [apply Hc'|done|]. apply wp_upd_gs. eexists _, _. split; [|done].
      destruct Hc'. split; try done. apply arr_ok_insert; [done|]. eapply (in_u_le 4); [by apply land_range|lia].
    + intros m' (c & r & Hc' & ->). by apply HQ.
Qed.

(** One instruction: the operation runs with some counters, and leaves some. *)
Lemma wp_issue funct body Q m : ready m -> maintains mwf body (fun _ => True) ->
  (forall c r, ready (with_cnt c r m) ->
     wp body (fun _ m' => resetted (gs m') = true /\
       forall c', ready (with_cnt c' (rand_pos m') m') -> Q tt (with_cnt c' (rand_pos m') m')) (with_cnt c r m)) ->
  wp (issue funct body) Q m.
Proof.
  intros [Hwf Hrs] Hm Hb. unfold issue. apply wp_bind, wp_get_gs. rewrite Hrs. apply wp_bind, wp_ret.
  apply wp_bind, wp_get_gs.
  assert (forall c r, wf_cnt c -> wp (body ;; upd_gs (fun s => s <| cnt := (cnt s)
    <| op_in_progress := negb (funct =? flush_funct) |> |>)) Q (with_cnt c r m)) as Hgo.
  { intros c r Hc. assert (ready (with_cnt c r m)) as Hr by (split; [by apply wf_set_cnt|done]).
    apply wp_bind. eapply wp_mono; [apply (wp_maintains mwf _ (fun _ => True)); [exact Hm|apply Hr|by apply Hb]|].
    intros [] m' [[Hrs' HQ] Hwf']. apply wp_upd_gs. apply HQ. split; [|done].
    apply wf_set_cnt; [done|]. destruct (wf_s_cnt _ Hwf'). by split. }
  apply wp_bind, wp_when; intros Hp.
  - apply wp_counter_increment_random; [by destruct Hwf|]. intros c r Hc. by apply Hgo.
  - rewrite <- (with_cnt_self m) at 1. apply Hgo. by destruct Hwf.
Qed.

(** An operation that only computes new registers with [f]. *)
Lemma wp_issue_run funct body f Q m : ready m -> maintains mwf body (fun _ => True) ->
  (forall c r, ready (with_cnt c r m) -> body (with_cnt c r m) = (Ok tt, Machine (f (gs (with_cnt c r m))) (dram m) r)) ->
  (forall c, resetted (f ((gs m) <| cnt := c |>)) = true) ->
  (forall c c', (f ((gs m) <| cnt := c |>)) <| cnt := c' |> = (f (gs m)) <| cnt := c' |>) ->
  (forall c r, ready (with_cnt c r (Machine (f (gs m)) (dram m) r)) -> Q tt (with_cnt c r (Machine (f (gs m)) (dram m) r))) ->
  wp (issue funct body) Q m.
Proof.
  intros Hr Hm Hb Hrs Hcom HQ. apply wp_issue; [done..|]. intros c r Hr'. unfold wp. rewrite Hb by done.
  split; [apply Hrs|]. intros c'. unfold with_cnt. cbn [gs dram rand_pos]. rewrite Hcom. apply HQ.
Qed.

Lemma config_issue rs1 rs2 m :
  ROCC_INSTRUCTION_RS1_RS2 rs1 rs2 k_CONFIG m = issue k_CONFIG (config (u64 rs1) (u64 rs2)) m.
Proof. by rewrite rocc_issue. Qed.

Lemma wf_ld_sized l : wf_ld l -> ld_sized l.
Proof. intros [[] [] [] [] []]. by split_and!. Qed.

Lemma wp_config_ld stride scale shrunk bs pr id Q m :
  ready m -> 0 <= id < LOAD_STATES -> in_u 64 stride -> is_binary32 scale = true -> in_u 16 bs -> 1 <= pr < 2 ^ 8 ->
  (forall c r, let m' := with_cnt c r (Machine ((gs m) <| ld := load_set (ld (gs m)) id stride bs shrunk scale pr |>) (dram m) r) in
     ready m' -> Q tt m') ->
  wp (gemmini_extended5_config_ld stride scale shrunk bs pr id) Q m.
Proof.
  intros Hr Hid Hst Hsc Hbs Hpr HQ. unfold gemmini_extended5_config_ld, wp. rewrite config_issue.
  apply (wp_issue_run _ _ (fun s => s <| ld := load_set (ld s) id stride bs shrunk scale pr |>)); [done| | |by destruct Hr|done|done].
  - apply (pres_config _ _ (fun _ => True)); [done|by apply wrap_u_range].
  - intros c r [Hwf _]. apply (run_config_ld stride scale shrunk bs pr id (with_cnt c r m)); [done..|]. apply wf_ld_sized. by destruct Hwf.
Qed.

Lemma wp_config_st stride size a act scale Q m :
  ready m -> in_u 32 (u32 stride * size) -> acc_act (st (gs m)) <> SOFTMAX -> 0 <= a < 4 -> act_of_Z a = Some act -> is_binary32 scale = true ->
  (forall c r, let m' := with_cnt c r (Machine ((gs m) <| st := Build_st_regs (u32 stride * size) act scale 0 0 0 0 0 0 0 0 0 |>) (dram m) r) in
     ready m' -> Q tt m') ->
  wp (gemmini_extended_config_st stride size a scale) Q m.
Proof.
  intros Hr Hst Hcur Ha Hact Hsc HQ. unfold gemmini_extended_config_st, gemmini_extended2_config_st, wp. rewrite config_issue.
  rewrite (wrap_u_id 64 (u32 stride * size)) by (unfold in_u in *; lia).
  apply (wp_issue_run _ _ (fun s => s <| st := Build_st_regs (u32 stride * size) act scale 0 0 0 0 0 0 0 0 0 |>));
    [done| | |by destruct Hr|done|done].
  - apply (pres_config _ _ (fun _ => True)); [done|by apply wrap_u_range].
  - intros c r _. by apply (run_config_st (u32 stride * size) a act scale 0 0 0 0 0 0 0 0 0 (with_cnt c r m)).
Qed.

(** The execute configuration and the im2col instruction after it. *)
Definition ex_configured (dataflow a : Z) (act : Activation) (shift A_stride : Z) (tA tB : bool) (s : gemmini_state) : gemmini_state :=
  s <| ex := Build_ex_regs (if dataflow =? 0 then OS else WS) act shift (f32_of_Z (bits_of_f32 ACC_SCALE_IDENTITY))
               1 A_stride tA tB |>
    <| nrm := (nrm s) <| norm_stat_id := 0 |> <| igelu_qb := 0 |> <| igelu_qc := 0 |> <| qln2 := 0 |> |>.

Lemma wp_config_ex dataflow a act shift relu6 A_stride tA tB Q m :
  ready m -> acc_act (st (gs m)) <> SOFTMAX -> 0 <= dataflow < 2 -> 0 <= a < 4 -> act_of_Z a = Some act ->
  0 <= shift < 32 -> in_u 16 relu6 -> in_u 16 A_stride -> ex_supported dataflow tA tB ->
  (forall c r, let m' := with_cnt c r (Machine (ex_configured dataflow a act shift A_stride tA tB (gs m)) (dram m) r) in
     ready m' -> Q tt m') ->
  wp (gemmini_extended_config_ex dataflow a shift relu6 A_stride tA tB) Q m.
Proof.
  intros Hr Hcur Hdf Ha Hact Hsh Hr6 HA Hsup HQ.
  unfold gemmini_extended_config_ex, gemmini_extended2_config_ex, gemmini_extended3_config_ex. apply wp_bind.
  unfold wp at 1. rewrite config_issue.
  apply (wp_issue_run _ _ (fun s => s <| ex := Build_ex_regs (if dataflow =? 0 then OS else WS) act shift
    (f32_of_Z (bits_of_f32 ACC_SCALE_IDENTITY)) 1 A_stride tA tB |>)); [done| | |by destruct Hr|done|].
  - apply (pres_config _ _ (fun _ => True)); [done|by apply wrap_u_range].
  - intros c r _. by apply (run_config_ex dataflow a act ACC_SCALE_IDENTITY A_stride tA tB 1 relu6 shift (with_cnt c r m)).
  - intros c1 r1 Hr1. unfold wp. rewrite config_issue.
    apply (wp_issue_run _ _ (fun s => s <| nrm := (nrm s) <| norm_stat_id := 0 |> <| igelu_qb := 0 |>
      <| igelu_qc := 0 |> <| qln2 := 0 |> |>)); [done| | |by destruct Hr|done|].
    + apply (pres_config _ _ (fun _ => True)); [done|by apply wrap_u_range].
    + intros c r _. match goal with |- config ?a ?b _ = _ => change a with 3; change b with 0 end. by rewrite run_config_im2col.
    + intros c r Hr2. by apply HQ.
Qed.

(** ** Moves *)

(** Two machines with the same configuration, as far as moves read it. *)
Record calm (m m' : machine mem) : Prop := {
  calm_ready : ready m';
  calm_ld : ld (gs m') = ld (gs m);
  calm_st : st (gs m') = st (gs m);
  calm_norm : norm_same (nrm (gs m)) (nrm (gs m')) }.

Lemma calm_refl m : ready m -> is_Some (get_stat (nrm (gs m))) -> calm m m.
Proof. intros Hr Hs. split; [done..|]. by apply norm_same_refl. Qed.

Lemma calm_trans m1 m2 m3 : calm m1 m2 -> calm m2 m3 -> calm m1 m3.
Proof. intros [] []. split; [done|congruence..|]. by eapply norm_same_trans. Qed.

Lemma calm_stat m m' : calm m m' -> is_Some (get_stat (nrm (gs m'))).
Proof. intros [_ _ _ (_ & _ & _ & _ & _ & r & r' & _ & Hr' & _)]. by exists r'. Qed.

Lemma ready_acc_shape m : ready m -> v_rows (accumulator (gs m)) = ACC_ROWS /\ v_cols (accumulator (gs m)) = DIM.
Proof. intros [Hwf Hr]. destruct (wf_s_acc _ Hwf) as (Hrows & Hcols & _). by rewrite Hr in *. Qed.

(** The contents of the accumulator after a move-in. *)
Definition acc_moved (m : machine mem) (rows cols sp_addr addr stride bs : Z) (shrunk : bool) (scale : float32) : vec2 :=
  fill (block_cell (sp_addr &ᵇ 0x1FFFFFFF) bs)
    (fun p old => if is_accumulate sp_addr then s32 (old + acc_elem (dram m) addr stride shrunk scale p)
                  else acc_elem (dram m) addr stride shrunk scale p) (pairs rows cols) (accumulator (gs m)).

Lemma wp_issue_mvin_acc funct id addr sp_addr cols rows stride bs shrunk scale Q m :
  ready m -> is_Some (get_stat (nrm (gs m))) ->
  block_ok rows cols sp_addr -> is_acc_addr sp_addr = true ->
  ld_entry (ld (gs m)) id stride bs shrunk scale -> 0 <= bs -> scale_total scale ->
  block_readable (if shrunk then 1 else 4) rows cols (dram m) addr stride ->
  block_in (accumulator (gs m)) rows cols (sp_addr &ᵇ 0x1FFFFFFF) bs ->
  (forall m', calm m m' -> dram m' = dram m ->
     accumulator (gs m') = acc_moved m rows cols sp_addr addr stride bs shrunk scale -> Q tt m') ->
  wp (issue funct (mvin addr (pack_block rows cols sp_addr) id)) Q m.
Proof.
  intros Hr Hst Hok Hacc Hld Hbs Hsc Hread Hin HQ. apply wp_issue; [done|by apply (pres_mvin _ _ _ (fun _ => True))|].
  intros c r Hr'. eapply (wp_mvin_acc addr id rows cols sp_addr stride bs shrunk scale); [done..|].
  split; [apply Hr'|]. intros c' Hr''. apply HQ; [|done|done].
  split; [done..|]. by apply norm_same_refl.
Qed.

Lemma wp_issue_mvout funct addr sp_addr cols rows Q m :
  let base := sp_addr &ᵇ 0x3FFFFFF in
  let elem := dram_elem addr (store_stride (st (gs m))) (out_size sp_addr) in
  ready m -> block_ok rows cols sp_addr -> pool_stride (st (gs m)) = 0 -> (sp_addr ≫ 26) &ᵇ 7 = 0 ->
  is_Some (get_stat (nrm (gs m))) ->
  block_in (accumulator (gs m)) rows cols base DIM ->
  (is_acc_addr sp_addr = false -> block_in (spad (gs m)) rows cols base DIM) ->
  (forall p, p ∈ pairs rows cols -> is_Some (out_value (gs m) sp_addr p)) ->
  elems_disjoint (out_size sp_addr) rows cols elem ->
  (forall p, p ∈ pairs rows cols -> mem_writable (out_size sp_addr) (dram m) (elem p)) ->
  (forall m', calm m m' -> accumulator (gs m') = accumulator (gs m) -> spad (gs m') = spad (gs m) ->
     store_post (out_size sp_addr) elem (fun p => default 0 (out_value (gs m) sp_addr p)) (pairs rows cols)
       (dram m) (dram m') -> Q tt m') ->
  wp (issue funct (mvout addr (pack_block rows cols sp_addr))) Q m.
Proof.
  intros base elem Hr Hok Hp Hc Hst Hin Hsp Hval Hdis Hw HQ.
  apply wp_issue; [done|by apply (pres_mvout _ _ (fun _ => True))|]. intros c r Hr'.
  apply wp_mvout; [done..|]. intros m' [_ (n' & Hn & Hg)] Hpost. rewrite Hg. split; [apply Hr'|].
  intros c' Hr''. unfold with_cnt in *. rewrite Hg in *. apply HQ; [|done..]. by split.
Qed.
End issue_rules.

(** The concrete machine of the examples is past its reset. *)
Lemma demo_ready : ready demo.
Proof.
  split; [|done]. apply wf_set_st; [apply wf_set_ld; [apply wf_reset, wf_state_zero|]|].
  - split; split; try done; repeat (apply Forall_cons_2 || apply Forall_nil_2); by unfold in_u.
  - by split.
Qed.
