(* ===== verification/CountersSpec.v ===== *)
(** * CountersSpec: what the performance counters promise

    Only the counter operation, the counting at the start of an instruction and
    the reset touch the counter registers, so that a snapshot stays frozen
    whatever runs between two reads; and what the decoder does with the
    instructions it does not know. *)

From S2P Require Import Prelude Effects Float32 Params State Dram Fill Scaling Norm Config Move MoveSpec Compute LoopWs LoopConv Counters Dispatch Invariant Isa IsaSpec Issue.

(** ** Operations keep the counter registers *)

Section keeps.
Context {mem : Type} `{Mmu mem} `{Rand}.
Implicit Types m : machine mem.

(** An invariant that reads the reset flag and the counter registers only. *)
Context (I : machine mem -> Prop).
Context (I_local : forall m m', resetted (gs m') = resetted (gs m) -> cnt (gs m') = cnt (gs m) -> I m -> I m').

Definition keeps {A} (p : M (machine mem) A) : Prop := maintains I p (fun _ => True).

Lemma keeps_bind {A B} (p : M (machine mem) A) (k : A -> M (machine mem) B) :
  keeps p -> (forall a, keeps (k a)) -> keeps (p ≫= k).
Proof. intros Hp Hk. eapply maintains_bind; [exact Hp|]. intros a _. apply Hk. Qed.

Lemma keeps_get {A} (f : gemmini_state -> A) : keeps (get_gs f).
Proof. by apply maintains_gets. Qed.

Lemma keeps_upd f : (forall s, resetted (f s) = resetted s) -> (forall s, cnt (f s) = cnt s) -> keeps (upd_gs f).
Proof. intros H1 H2. apply maintains_modify; [done|]. intros m. apply I_local; simpl; [apply H1|apply H2]. Qed.

Lemma keeps_arr_get {A} (l : list A) i : keeps (arr_get l i).
Proof. unfold arr_get. case_match; [by apply maintains_of_option|apply maintains_fail]. Qed.

Lemma keeps_fold {X A} (f : A -> X -> M (machine mem) A) a l : (forall a x, keeps (f a x)) -> keeps (fold_list f a l).
Proof. intros Hf. apply maintains_fold_list; [done|]. intros. apply Hf. Qed.

Lemma keeps_while {A} fuel cond (body : A -> Z -> M (machine mem) (A * Z)) a i :
  (forall a i, keeps (body a i)) -> keeps (while_fold fuel cond body a i).
Proof.
  intros Hb. apply maintains_while_fold; [done|]. intros.
  eapply maintains_weaken; [apply Hb|]. intros [] _. done.
Qed.

Lemma keeps_load a : keeps (mmu_load a).
Proof. intros m Hm. unfold mmu_load. case_match; (split; [|done]); simpl; first [done|by apply (I_local m)]. Qed.

Lemma keeps_store a v : keeps (mmu_store a v).
Proof. intros m Hm. unfold mmu_store. case_match; (split; [|done]); simpl; first [done|by apply (I_local m)]. Qed.

Ltac keep_step :=
  lazymatch goal with
  | |- keeps (if ?b then _ else _) => destruct b
  | |- keeps (match ?b with _ => _ end) => destruct b
  | |- keeps (let _ := _ in _) => cbv zeta
  | |- keeps (mret _) => by apply maintains_ret
  | |- keeps (fail _) => apply maintains_fail
  | |- keeps (check _ _) => by apply maintains_check
  | |- keeps (when _ _) => apply maintains_when; [done|]; fold (@keeps unit)
  | |- keeps (of_option _ _) => by apply maintains_of_option
  | |- keeps (for_range _ _ _) => apply maintains_for_range; [done|intros ? ?]
  | |- keeps (for_step _ _ _ _) => apply maintains_for_step; [done|intros ?]
  | |- keeps (for_step_u _ _ _ _ _) => apply maintains_for_step_u; [done|intros ?]
  | |- keeps (for_list _ _) => apply maintains_for_list; [done|intros ? ?]
  | |- keeps (while_counter _ _ _ _) => apply maintains_while_counter; [done|intros ?]
  | |- keeps (while_fold _ _ _ _ _) => apply keeps_while; intros ? ?
  | |- keeps (fold_list _ _ _) => apply keeps_fold; intros ? ?
  | |- keeps (fold_range _ _ _ _) => apply keeps_fold; intros ? ?
  | |- keeps (fold_step_u _ _ _ _ _ _) => apply maintains_fold_step_u; [done|intros ? ? _]
  | |- keeps (arr_get _ _) => apply keeps_arr_get
  | |- keeps (get_gs _) => apply keeps_get
  | |- keeps (upd_gs _) => apply keeps_upd; by intros []
  | |- keeps (mmu_load _) => apply keeps_load
  | |- keeps (mmu_store _ _) => apply keeps_store
  | |- keeps (_ ≫= _) => apply keeps_bind; [|intros ?]
  | |- maintains I ?p (fun _ => True) => change (keeps p)
  end.
Ltac keep := repeat keep_step.

Lemma keeps_read size a : keeps (read_from_dram size a).
Proof. unfold read_from_dram. keep. Qed.
Lemma keeps_write size a v : keeps (write_to_dram size a v).
Proof. unfold write_to_dram. keep. Qed.
Lemma keeps_arr_set {A} (l : list A) i x : keeps (arr_set l i x).
Proof. unfold arr_set. keep. Qed.
Lemma keeps_memories r c x : keeps (spad_at r c) /\ keeps (acc_at r c) /\ keeps (pe_at r c) /\
  keeps (spad_put r c x) /\ keeps (acc_put r c x) /\ keeps (pe_put r c x).
Proof. unfold spad_at, acc_at, pe_at, spad_put, acc_put, pe_put, vec_at, vec_put. split_and!; keep. Qed.

Ltac keep_mem := lazymatch goal with
  | |- keeps (read_from_dram _ _) => apply keeps_read
  | |- keeps (write_to_dram _ _ _) => apply keeps_write
  | |- keeps (arr_set _ _ _) => apply keeps_arr_set
  | |- keeps (vec_at _ _ _) => unfold vec_at
  | |- keeps (vec_put _ _ _ _) => unfold vec_put
  | |- keeps (spad_at ?r ?c) => apply (keeps_memories r c 0)
  | |- keeps (acc_at ?r ?c) => apply (keeps_memories r c 0)
  | |- keeps (pe_at ?r ?c) => apply (keeps_memories r c 0)
  | |- keeps (spad_put ?r ?c ?x) => apply (keeps_memories r c x)
  | |- keeps (acc_put ?r ?c ?x) => apply (keeps_memories r c x)
  | |- keeps (pe_put ?r ?c ?x) => apply (keeps_memories r c x)
  end.
Ltac keep ::= repeat (keep_step || keep_mem).

Lemma keeps_mvin a sp id : keeps (mvin a sp id).
Proof. unfold mvin, mvin_acc_value, mvin_spad_value. keep. Qed.

Lemma keeps_norm x cmd v : keeps (apply_norm x cmd) /\ keeps (apply_pre_activation_acc v).
Proof. unfold apply_norm, apply_pre_activation_acc. split; keep. Qed.

Lemma keeps_mvout a sp : keeps (mvout a sp).
Proof.
  unfold mvout, mvout_plain, mvout_norm_row, mvout_acc_elem, mvout_pool, pool_elem.
  keep; first [apply (keeps_norm _ _ 0) | apply (keeps_norm [] RESET)].
Qed.

Lemma keeps_config a b : keeps (config a b) /\ keeps (preload a b).
Proof. unfold config, preload, config_ex, config_mvin, config_mvout, config_norm, decode_act. split; keep. Qed.

Lemma keeps_compute a b pl : keeps (compute a b pl).
Proof. unfold compute, compute_preload, compute_bias, compute_mac, compute_a, compute_b, compute_write. keep. Qed.

Ltac keep_op := lazymatch goal with
  | |- keeps (mvin _ _ _) => apply keeps_mvin
  | |- keeps (mvout _ _) => apply keeps_mvout
  | |- keeps (config _ _) => apply keeps_config
  | |- keeps (preload _ _) => apply keeps_config
  | |- keeps (compute _ _ _) => apply keeps_compute
  end.
Ltac keep ::= repeat (keep_step || keep_mem || keep_op).

Lemma keeps_loop_ws a b : keeps (loop_ws a b).
Proof.
  unfold loop_ws, loop_ws_resadd, loop_ws_mvin_D, loop_ws_step, loop_ws_mvin_A, loop_ws_mvin_B, loop_ws_compute,
    loop_ws_mvout, loop_ws_mvout_norm. keep.
Qed.

Lemma keeps_loop_conv_ws a b : keeps (loop_conv_ws a b).
Proof.
  unfold loop_conv_ws, conv_rotate, conv_mvin_bias, conv_mvin_input, conv_mvin_weights, conv_compute, conv_compute_step,
    conv_mvout_plain, conv_mvout_pool. keep.
Qed.

(** No instruction but the counter operation writes the counter registers. *)
Lemma keeps_execute f a b : keeps (execute f a b).
Proof.
  unfold execute. repeat (case_match; [first [apply keeps_loop_ws | apply keeps_loop_conv_ws | keep_op | by apply maintains_ret
    | apply keeps_upd; by intros []]|]). apply maintains_fail.
Qed.
End keeps.

(** ** Snapshots *)

Section snapshots.
Context {mem : Type} `{Mmu mem} `{Rand}.
Implicit Types (m : machine mem) (c : counter_regs).

(** The counter operation words that read counter [i], and take a snapshot. *)
Definition read_word (i : Z) : Z := 16 * i.
Definition snapshot_word : Z := 4.

Lemma decode_read i : 0 <= i < NUM_COUNTERS ->
  counter_op_decode (read_word i) = Build_counter_op false false false false i 0 false.
Proof.
  unfold NUM_COUNTERS. intros Hi. assert (i = 0 \/ i = 1 \/ i = 2 \/ i = 3 \/ i = 4 \/ i = 5 \/ i = 6 \/ i = 7) as Hc by lia.
  repeat (destruct Hc as [-> | Hc]; [reflexivity|]). by subst.
Qed.

(** Every external counter that is selected exists. *)
Definition counters_valid c : Prop := forall i, counter_external_flag c !! Z.to_nat i = Some true ->
  exists cfg, counter_config c !! Z.to_nat i = Some cfg /\ 0 <= cfg < NUM_EXTERNAL_COUNTERS.

(** What counter [i] counts now. *)
Definition live_value c (i : Z) : Z :=
  if default false (counter_external_flag c !! Z.to_nat i)
  then default 0 (counter_external c !! Z.to_nat (default 0 (counter_config c !! Z.to_nat i)))
  else default 0 (counter_val c !! Z.to_nat i).

Lemma arr_ok_at {A} n (P : A -> Prop) l i : arr_ok n P l -> 0 <= i < n -> exists x, l !! Z.to_nat i = Some x.
Proof. intros [Hl _] Hi. apply lookup_lt_is_Some_2. lia. Qed.

Lemma wp_counter_live {S} c i Q (s : S) : wf_cnt c -> counters_valid c -> 0 <= i < NUM_COUNTERS ->
  Q (live_value c i) s -> wp (counter_live c i) Q s.
Proof.
  intros Hc Hv Hi HQ. unfold counter_live.
  destruct (arr_ok_at _ _ _ i (wf_counter_external_flag c Hc) Hi) as [b Hb].
  apply wp_bind. eapply wp_arr_get; [lia|done|]. unfold live_value in HQ. rewrite Hb in HQ. simpl in HQ. destruct b.
  - destruct (Hv i Hb) as (cfg & Hcfg & Hr). rewrite Hcfg in HQ. simpl in HQ.
    apply wp_bind. eapply wp_arr_get; [lia|done|].
    destruct (arr_ok_at _ _ _ cfg (wf_counter_external c Hc) Hr) as [x Hx]. rewrite Hx in HQ. by eapply wp_arr_get; [lia|done|].
  - destruct (arr_ok_at _ _ _ i (wf_counter_val c Hc) Hi) as [x Hx]. rewrite Hx in HQ. by eapply wp_arr_get; [lia|done|].
Qed.

Definition snapshot_of c (l : list Z) : Prop := forall i, 0 <= i < NUM_COUNTERS -> l !! Z.to_nat i = Some (live_value c i).

(** Taking a snapshot copies the live values. *)
Lemma wp_counter_snapshot {S} c (s : S) : wf_cnt c -> counters_valid c ->
  wp (counter_snapshot c) (fun c' s' => s' = s /\ exists l, c' = c <| counter_snapshot_val := l |> /\ snapshot_of c l) s.
Proof.
  intros Hc Hv. pose proof (wf_counter_snapshot_val c Hc) as [Hl0 _]. unfold counter_snapshot.
  apply (wp_fold_range (fun k c' s' => s' = s /\ exists l, c' = c <| counter_snapshot_val := l |> /\
    Z.of_nat (length l) = NUM_COUNTERS /\ forall i, 0 <= i < k -> l !! Z.to_nat i = Some (live_value c i))).
  - split; [done|]. exists (counter_snapshot_val c). split_and!; [by destruct c|done|lia].
  - intros k c' s' Hk (-> & l & -> & Hl & Hlk). apply wp_bind.
    change (counter_live (S := S) (c <| counter_snapshot_val := l |>) k) with (counter_live (S := S) c k).
    apply wp_counter_live; [done..|]. apply wp_bind. unfold arr_set. apply wp_bind, wp_check; [simpl; lia|].
    apply wp_ret, wp_ret. split; [done|]. exists (<[Z.to_nat k := live_value c k]> l).
    split_and!; [done|by rewrite length_insert|]. intros i Hi. destruct (decide (i = k)) as [->|Hne].
    + rewrite list_lookup_insert_eq; [done|lia].
    + rewrite list_lookup_insert_ne by lia. apply Hlk. lia.
  - intros c' s' (-> & l & -> & _ & Hlk). split; [done|]. by exists l.
Qed.

(** What runs before the operation itself: the reset and the counting. *)
Definition arrive : M (machine mem) unit :=
  r ← get_gs resetted; when (negb r) reset ;;
  p ← get_gs (fun s => op_in_progress (cnt s)); when p counter_increment_random.

Definition perform (funct xs1 xs2 : Z) : M (machine mem) Z :=
  if funct =? counter_op_funct then counter_operation xs1
  else execute funct xs1 xs2 ;;
       upd_gs (fun s => s <| cnt := (cnt s) <| op_in_progress := negb (funct =? flush_funct) |> |>) ;; mret 0.

Lemma custom3_split f x y m : custom3 f x y m = (arrive ;; perform f x y) m.
Proof.
  unfold custom3, arrive, mbind, M_bind. simpl. destruct (when _ reset m) as [[]]; [|done].
  by destruct (when _ counter_increment_random _) as [[]].
Qed.

(** The configuration of the counters, which counting leaves alone. *)
Definition same_config c c' : Prop :=
  counter_config c' = counter_config c /\ counter_external_flag c' = counter_external_flag c /\
  snapshot_enable c' = snapshot_enable c /\ counter_snapshot_val c' = counter_snapshot_val c.

Lemma increment_config c0 : maintains (fun m => resetted (gs m) = true /\ same_config c0 (cnt (gs m)))
  (counter_increment_random (mem := mem)) (fun _ => True).
Proof.
  assert (forall c f g, (forall s, resetted (f s) = resetted s) -> (forall s, cnt (f s) = g (cnt s)) -> (forall c, same_config c (g c)) ->
    maintains (fun m => resetted (gs m) = true /\ same_config c (cnt (gs m))) (upd_gs (mem := mem) f) (fun _ => True)) as Hupd.
  { intros c f g Hr Hf Hg. apply maintains_modify; [done|]. intros m [H1 H2]. simpl. rewrite Hr, Hf. split; [done|].
    unfold same_config in *. specialize (Hg (cnt (gs m))). intuition congruence. }
  unfold counter_increment_random. apply (maintains_bind _ _ _ (fun _ => True)); [|intros _ _];
    (apply maintains_for_range; [done|]); intros i _;
    (apply (maintains_bind _ _ _ (fun _ => True)); [by intros m Hm|]; intros r _);
    (apply (maintains_bind _ _ _ (fun _ => True)); [by apply maintains_gets|]; intros c _).
  - eapply (maintains_bind _ _ _ (fun _ => True)); [apply keeps_arr_get|]. intros v _.
    eapply (maintains_bind _ _ _ (fun _ => True)); [apply keeps_arr_set|]. intros l _.
    by apply (Hupd _ _ (fun c => c <| counter_val := l |>)).
  - eapply (maintains_bind _ _ _ (fun _ => True)); [apply keeps_arr_set|]. intros l _.
    by apply (Hupd _ _ (fun c => c <| counter_external := l |>)).
Qed.

(** The counter registers that the operation finds. *)
Definition arriving m : counter_regs := cnt (if resetted (gs m) then gs m else state_reset (gs m)).

Lemma wp_arrive m : mwf m ->
  wp arrive (fun _ m' => ready m' /\ same_config (arriving m) (cnt (gs m')) /\ dram m' = dram m /\
    (resetted (gs m) = true -> gs m' = (gs m) <| cnt := cnt (gs m') |>)) m.
Proof.
  intros Hwf. unfold arrive, arriving. apply wp_bind, wp_get_gs, wp_bind.
  apply (wp_mono _ (fun _ m' => m' = Machine (if resetted (gs m) then gs m else state_reset (gs m)) (dram m) (rand_pos m))).
  { destruct (resetted (gs m)); [|done]. apply wp_ret. by destruct m. }
  intros _ m1 ->. apply wp_bind, wp_get_gs. set (s := if resetted (gs m) then _ else _). cbn [gs].
  assert (wf s /\ resetted s = true) as [Hs Hr] by (unfold s; destruct (resetted (gs m)) eqn:E; [done|split; [by apply wf_reset|done]]).
  apply wp_when; intros Hp; [|split_and!; try done; unfold s; cbn; intros ->; by destruct (gs m)].
  set (m1 := Machine s (dram m) (rand_pos m)).
  eapply wp_mono; [apply (wp_maintains _ _ _ (fun _ m' => mwf m' /\ dram m' = dram m /\ gs m' = s <| cnt := cnt (gs m') |>) m1 (increment_config (cnt s)))|].
  - done.
  - apply (wp_counter_increment_random (fun _ m' => mwf m' /\ dram m' = dram m /\ gs m' = s <| cnt := cnt (gs m') |>)); [by destruct Hs|].
    intros c r Hc. split_and!; [by apply wf_set_cnt|done..].
  - intros _ m' [(Hwf' & Hd & Hg) [Hr' Hc']]. split_and!; try done. intros E. rewrite Hg. unfold s. by rewrite E.
Qed.

(** A machine whose counters read [vals] from a snapshot. *)
Definition frozen (vals : list Z) m : Prop :=
  resetted (gs m) = true /\ snapshot_enable (cnt (gs m)) = true /\ counter_snapshot_val (cnt (gs m)) = vals.

Lemma frozen_arrive vals : maintains (frozen vals) arrive (fun _ => True).
Proof.
  unfold arrive. apply (maintains_bind _ _ _ (fun r => r = true)); [by apply maintains_gets; intros m []|].
  intros r ->. apply (maintains_bind _ _ _ (fun _ => True)); [by apply maintains_ret|]. intros _ _.
  apply (maintains_bind _ _ _ (fun _ => True)); [by apply maintains_gets|]. intros p _. apply maintains_when; [done|].
  intros m (Hr & He & Hv). split; [|done].
  destruct (increment_config (cnt (gs m)) m) as [[Hr' (_ & _ & He' & Hv')] _]; [done|]. split_and!; congruence.
Qed.

(** Operations that neither end the snapshot nor take another. *)
Definition undisturbing (funct xs1 : Z) : Prop :=
  funct = counter_op_funct -> Z.testbit xs1 1 = false /\ Z.testbit xs1 2 = false.

Lemma frozen_operation vals x : Z.testbit x 1 = false -> Z.testbit x 2 = false ->
  maintains (frozen vals) (counter_operation x) (fun _ => True).
Proof.
  intros H1 H2. unfold counter_operation. cbv zeta.
  set (P := fun c => snapshot_enable c = true /\ counter_snapshot_val c = vals).
  apply (maintains_bind _ _ _ P); [by apply maintains_gets; intros m [_ Hm]|]. intros c Hc.
  apply (maintains_bind _ _ _ P).
  - unfold counter_update, counter_op_decode.
    cbn [co_counter_reset co_snapshot_reset co_take_snapshot co_change_config]. rewrite H1, H2. set (c1 := if Z.testbit x 0 then _ else c).
    assert (P c1) as Hc1 by (unfold c1; by destruct (Z.testbit x 0)). clearbody c1.
    apply (maintains_bind _ _ _ (eq c1)); [by apply maintains_ret|]. intros ? <-.
    destruct (Z.testbit x 3); [|by apply maintains_ret]. unfold counter_change_config.
    do 3 (eapply (maintains_bind _ _ _ (fun _ => True)); [apply keeps_arr_set|]; intros ? _). by apply maintains_ret.
  - intros c1 [He Hv]. apply (maintains_bind _ _ _ (fun _ => True)).
    { apply maintains_modify; [done|]. intros m (Hr & _). by split_and!. }
    intros _ _. rewrite He. apply keeps_arr_get.
Qed.

Lemma frozen_custom3 vals f x y : undisturbing f x -> maintains (frozen vals) (custom3 f x y) (fun _ => True).
Proof.
  intros Hu m. rewrite custom3_split. revert m. change (maintains (frozen vals) (arrive ;; perform f x y) (fun _ => True)).
  apply (maintains_bind _ _ _ (fun _ => True)); [apply frozen_arrive|]. intros _ _. unfold perform.
  destruct (Z.eqb_spec f counter_op_funct) as [->|Hne]; [by apply frozen_operation; apply Hu|].
  apply (maintains_bind _ _ _ (fun _ => True)); [apply keeps_execute; unfold frozen; intros; intuition congruence|]. intros _ _.
  apply (maintains_bind _ _ _ (fun _ => True)); [|intros _ _; by apply maintains_ret].
  apply maintains_modify; [done|]. intros m (? & ? & ?). by split_and!.
Qed.

(** Instructions that leave a snapshot alone, also after one of them has faulted. *)
Inductive undisturbed (m0 : machine mem) : machine mem -> Prop :=
  | und_start : undisturbed m0 m0
  | und_step m funct xs1 xs2 : undisturbed m0 m -> in_u 64 xs1 -> in_u 64 xs2 -> undisturbing funct xs1 ->
      undisturbed m0 (custom3 funct xs1 xs2 m).2.

Lemma undisturbed_frozen vals m0 m : mwf m0 -> frozen vals m0 -> undisturbed m0 m -> mwf m /\ frozen vals m.
Proof.
  intros Hw Hf Hu. induction Hu as [|m f x y Hu [IHw IHf] Hx Hy Hd]; [done|]. split.
  - by apply (maintains_run _ _ _ _ (pres_custom3 f x y Hx Hy)).
  - by apply (maintains_run _ _ _ _ (frozen_custom3 vals f x y Hd)).
Qed.

Lemma custom3_after_arrive f x y m m' : arrive m = (Ok tt, m') -> custom3 f x y m = perform f x y m'.
Proof. intros Ha. rewrite custom3_split. unfold mbind, M_bind. by rewrite Ha. Qed.

(** A read changes nothing but the machine's record of the counters. *)
Lemma wp_read i m Q : 0 <= i < NUM_COUNTERS ->
  wp (if snapshot_enable (cnt (gs m)) then arr_get (counter_snapshot_val (cnt (gs m))) i else counter_live (cnt (gs m)) i)
    (fun v _ => Q v) m ->
  wp (counter_operation (read_word i)) (fun v _ => Q v) m.
Proof.
  intros Hi Hw. unfold counter_operation. rewrite decode_read by done. apply wp_bind, wp_get_gs, wp_bind.
  unfold counter_update. cbn [co_counter_reset co_snapshot_reset co_take_snapshot co_change_config co_counter_index].
  apply wp_bind, wp_ret, wp_ret, wp_bind, wp_upd_gs. destruct m as [[] d r]. exact Hw.
Qed.

Lemma frozen_read vals i v y m : mwf m -> frozen vals m -> 0 <= i < NUM_COUNTERS -> vals !! Z.to_nat i = Some v ->
  (custom3 counter_op_funct (read_word i) y m).1 = Ok v.
Proof.
  intros Hwf Hf Hi Hv. destruct (proj1 (wp_runs _ _ _) (wp_arrive m Hwf)) as ([] & m' & Ha & _).
  rewrite (custom3_after_arrive _ _ _ _ _ Ha). unfold perform. cbn [Z.eqb counter_op_funct Pos.eqb].
  pose proof (maintains_run _ _ _ _ (frozen_arrive vals) Hf) as (_ & He & Hs). rewrite Ha in He, Hs. simpl in He, Hs.
  destruct (proj1 (wp_runs _ _ _) (wp_read i m' (eq v) Hi ltac:(rewrite He, Hs; eapply wp_arr_get; [lia|done|done])))
    as (v' & s' & -> & <-). done.
Qed.

(** C32: a snapshot freezes the counters.  Taking a snapshot on any well-typed
    machine whose counters run freely returns, and afterwards a read of any counter
    gives the value it would have given then, whatever instructions run in between,
    faulting ones included, as long as no counter operation takes a new snapshot or
    ends this one. *)
Theorem counter_snapshot_frozen m y : mwf m -> counters_valid (cnt (gs m)) ->
  snapshot_enable (cnt (gs m)) = false ->
  exists (value : Z -> Z) m1, custom3 counter_op_funct snapshot_word y m = (Ok (value 0), m1) /\
    forall i, 0 <= i < NUM_COUNTERS ->
      (custom3 counter_op_funct (read_word i) y m).1 = Ok (value i) /\
      forall m2, undisturbed m1 m2 -> (custom3 counter_op_funct (read_word i) y m2).1 = Ok (value i).
Proof.
  intros Hwf Hval Hen. destruct (proj1 (wp_runs _ _ _) (wp_arrive m Hwf)) as ([] & m' & Ha & [Hwf' Hr'] & Hc & _).
  set (c := cnt (gs m')) in *. assert (wf_cnt c) as Hwc by apply Hwf'.
  assert (snapshot_enable c = false /\ counters_valid c) as [He Hv].
  { destruct Hc as (E1 & E2 & E3 & _). unfold arriving in *. unfold counters_valid. rewrite E1, E2, E3. by case_match. }
  assert (wf_cnt (c <| snapshot_enable := true |>)) as Hwc' by (destruct Hwc; by split).
  destruct (proj1 (wp_runs _ _ _) (wp_counter_snapshot (c <| snapshot_enable := true |>) m' Hwc' Hv)) as (c' & ? & Hs & -> & l & -> & Hl).
  set (c' := (c <| snapshot_enable := true |>) <| counter_snapshot_val := l |>) in *.
  set (m1 := Machine ((gs m') <| cnt := c' |>) (dram m') (rand_pos m')).
  assert (custom3 counter_op_funct snapshot_word y m = (Ok (live_value c 0), m1)) as Hsnap.
  { rewrite (custom3_after_arrive _ _ _ _ _ Ha). unfold perform. cbn [Z.eqb counter_op_funct Pos.eqb].
    unfold counter_operation, counter_update. change (counter_op_decode snapshot_word) with (Build_counter_op false false true false 0 0 false).
    cbn [co_counter_reset co_snapshot_reset co_take_snapshot co_change_config co_counter_index].
    unfold mbind, M_bind. cbn [get_gs gets]. fold c. rewrite Hs. cbn. by rewrite (Hl 0 ltac:(done)). }
  exists (live_value c), m1. split; [done|]. intros i Hi. split.
  - rewrite (custom3_after_arrive _ _ _ _ _ Ha). unfold perform. cbn [Z.eqb counter_op_funct Pos.eqb].
    destruct (proj1 (wp_runs _ _ _) (wp_read i m' (eq (live_value c i)) Hi ltac:(fold c; rewrite He; by apply wp_counter_live)))
      as (v' & s' & -> & <-). done.
  - intros m2 Hu. assert (mwf m1) as Hw1.
    { replace m1 with (custom3 counter_op_funct snapshot_word 0 m).2.
      - by apply (maintains_run _ _ _ _ (pres_custom3 counter_op_funct snapshot_word 0 ltac:(by unfold in_u) ltac:(by unfold in_u))).
      - unfold custom3 in *. cbn [Z.eqb counter_op_funct Pos.eqb] in *. by rewrite Hsnap. }
    destruct (undisturbed_frozen l m1 m2) as [Hw2 Hf2]; [done|done|done|]. apply (frozen_read l); [done..|]. by apply Hl.
Qed.

(** ** Configuration *)

(** The word that makes counter [i] show the external counter [addr]. *)
Definition external_word (i addr : Z) : Z := 2 ^ 31 + 4096 * addr + 16 * i + 8.

Lemma decode_external i addr : 0 <= i < NUM_COUNTERS -> 0 <= addr < 64 ->
  counter_op_decode (external_word i addr) = Build_counter_op false false false true i addr true.
Proof.
  unfold NUM_COUNTERS. intros Hi Ha. unfold counter_op_decode, external_word. rewrite !Z.testbit_eqb by lia.
  rewrite (land_mask _ 3 7), (land_mask _ 6 63), !shiftr_div by lia.
  f_equal; try (apply Z.eqb_neq || apply Z.eqb_eq || idtac); zlia.
Qed.

(** selecting an external counter is not checked.  There are 64 encodable
    external counters and 6 that exist: the operation that selects another one makes
    the simulator read outside the array of external counters. *)
Theorem counter_external_out_of_range m i addr y : mwf m -> snapshot_enable (cnt (gs m)) = false ->
  0 <= i < NUM_COUNTERS -> NUM_EXTERNAL_COUNTERS <= addr < 64 ->
  (custom3 counter_op_funct (external_word i addr) y m).1 = Fault Undefined.
Proof.
  intros Hwf Hen Hi Haddr. destruct (proj1 (wp_runs _ _ _) (wp_arrive m Hwf)) as ([] & m' & Ha & [Hwf' Hr'] & Hc & _).
  assert (0 <= NUM_EXTERNAL_COUNTERS) by done.
  rewrite (custom3_after_arrive _ _ _ _ _ Ha). unfold perform. cbn [Z.eqb counter_op_funct Pos.eqb].
  assert (snapshot_enable (cnt (gs m')) = false) as He.
  { destruct Hc as (_ & _ & -> & _). unfold arriving. by case_match. }
  destruct (wf_s_cnt _ Hwf') as [[L1 _] _ [L2 _] [L3 _] [L4 _]].
  unfold counter_operation, counter_update. rewrite decode_external by lia.
  cbn [co_counter_reset co_snapshot_reset co_take_snapshot co_change_config co_counter_index].
  unfold counter_change_config, counter_live, arr_set, arr_get, mbind, M_bind. cbn.
  rewrite L1, L2, L4. assert ((0 <=? i) && (i <? NUM_COUNTERS) = true) as -> by lia. cbn. rewrite He. cbn.
  assert ((0 <=? i) = true) as -> by lia. rewrite !list_lookup_insert_eq by lia. cbn.
  assert ((0 <=? addr) = true) as -> by lia. rewrite lookup_ge_None_2 by lia. done.
Qed.

(** ** Unknown instructions *)

(** The function codes of the instruction set. *)
Definition known_functs : list Z := seqZ 0 22 ++ [counter_op_funct; fence_funct].

(** An instruction with an unknown function code raises an illegal
    instruction trap, whatever the state; main memory is unchanged, and on a machine
    past its reset so is everything but the values of the counters. *)
Theorem illegal_instruction m funct xs1 xs2 : mwf m -> funct ∉ known_functs ->
  exists m', custom3 funct xs1 xs2 m = (Fault IllegalInstruction, m') /\ dram m' = dram m /\
    (resetted (gs m) = true -> gs m' = (gs m) <| cnt := cnt (gs m') |>).
Proof.
  intros Hwf Hf. destruct (proj1 (wp_runs _ _ _) (wp_arrive m Hwf)) as ([] & m' & Ha & _ & _ & Hd & Hg).
  exists m'. split; [|done]. rewrite (custom3_after_arrive _ _ _ _ _ Ha).
  unfold known_functs in Hf. rewrite elem_of_app, elem_of_seqZ, !elem_of_cons in Hf.
  unfold counter_op_funct, fence_funct in Hf. unfold perform, execute.
  repeat (rewrite (proj2 (Z.eqb_neq funct _)) by (match goal with |- _ <> ?k => unfold k end; lia)). done.
Qed.
End snapshots.

(** ** Witnesses *)

Lemma machine_zero_wf : mwf machine_zero.
Proof. apply wf_state_zero. Qed.

Lemma counter_snapshot_frozen_witness :
  let custom3 := custom3 (H0 := zero_rand) in
  exists (value : Z -> Z) m1, custom3 counter_op_funct snapshot_word 0 machine_zero = (Ok (value 0), m1) /\
    (custom3 counter_op_funct (read_word 3) 0 (custom3 flush_funct 0 0 m1).2).1 = Ok (value 3).
Proof.
  destruct (counter_snapshot_frozen (H0 := zero_rand) machine_zero 0 machine_zero_wf) as (value & m1 & E & Hv).
  - intros i Hi. apply lookup_replicate in Hi as [? _]. done.
  - done.
  - exists value, m1. split; [exact E|]. apply (Hv 3); [done|]. apply und_step; [apply und_start|by unfold in_u..|done].
Defined.

Lemma counter_external_out_of_range_witness :
  (custom3 (H0 := zero_rand) counter_op_funct (external_word 2 6) 0 machine_zero).1 = Fault Undefined.
Proof. by apply counter_external_out_of_range; [apply machine_zero_wf|..]. Defined.

Lemma illegal_instruction_witness :
  exists m', custom3 (H0 := zero_rand) 22 0 0 machine_zero = (Fault IllegalInstruction, m') /\ dram m' = flat_empty.
Proof.
  destruct (illegal_instruction (H0 := zero_rand) machine_zero 22 0 0 machine_zero_wf) as (m' & E & D & _).
  - apply (bool_decide_eq_true_1 _). vm_compute. reflexivity.
  - by exists m'.
Defined.
