(* ===== verification/DriverSpec.v ===== *)
(** * DriverSpec: what the driver's macros do to the simulator

    The configuration macros and the two loop macros of systolic_include.h, as
    seen from the registers of the simulated accelerator. *)

From S2P Require Import Prelude Effects Float32 Params State Dram Fill Scaling Norm Config Move MoveSpec Compute ComputeSpec LoopWs LoopConv Counters Dispatch Invariant Isa IsaSpec Issue.

Section driver.
Context {mem : Type} `{MmuLaws mem} `{Rand}.
Implicit Types m : machine mem.

(** What every instruction may also do: move the performance counters. *)
Definition ticked (m m' : machine mem) : Prop := ready m' /\ exists c r, m' = with_cnt c r m.

(** the load configuration.  [gemmini_extended5_config_ld] on a machine past
    its reset replaces the stride, block stride, shrink flag, scale and pixel count
    of the named load state, bit for bit as given (the scale included), and changes
    no other register and no memory. *)
Theorem config_ld_macro stride scale shrunk bs pr id m :
  ready m -> 0 <= id < LOAD_STATES -> in_u 64 stride -> is_binary32 scale = true -> in_u 16 bs -> 1 <= pr < 2 ^ 8 ->
  wp (gemmini_extended5_config_ld stride scale shrunk bs pr id)
    (fun _ => ticked (Machine ((gs m) <| ld := load_set (ld (gs m)) id stride bs shrunk scale pr |>) (dram m) (rand_pos m))) m.
Proof. intros. apply wp_config_ld; [done..|]. intros c r m' Hr. split; [done|]. by exists c, r. Qed.

(** the store configuration.  [gemmini_extended_config_st] sets the stride, the
    scale and the activation of the store pipeline and turns pooling off; nothing
    else changes.  Activation 2, [RELU6] to the driver, selects [LAYERNORM]. *)
Theorem config_st_macro stride size a act scale m :
  ready m -> in_u 32 (u32 stride * size) -> acc_act (st (gs m)) <> SOFTMAX -> 0 <= a < 4 -> act_of_Z a = Some act -> is_binary32 scale = true ->
  wp (gemmini_extended_config_st stride size a scale)
    (fun _ => ticked (Machine ((gs m) <| st := Build_st_regs (u32 stride * size) act scale 0 0 0 0 0 0 0 0 0 |>) (dram m) (rand_pos m))) m /\
  act_of_Z RELU6_act = Some LAYERNORM.
Proof. intros. split; [|done]. apply (wp_config_st _ _ _ act); [done..|]. intros c r m' Hr. split; [done|]. by exists c, r. Qed.

(** the execute configuration.  [gemmini_extended_config_ex] sets the dataflow,
    the activation, the shift, the strides and the transpositions of the execute
    pipeline, for every combination of transpositions the simulator supports; its
    second instruction, meant for im2col, is decoded as a norm configuration and
    clears [norm_stat_id], the GELU constants and [qln2]. *)
Theorem config_ex_macro dataflow a act shift relu6 A_stride tA tB m :
  ready m -> acc_act (st (gs m)) <> SOFTMAX -> 0 <= dataflow < 2 -> 0 <= a < 4 -> act_of_Z a = Some act ->
  0 <= shift < 32 -> in_u 16 relu6 -> in_u 16 A_stride -> ex_supported dataflow tA tB ->
  wp (gemmini_extended_config_ex dataflow a shift relu6 A_stride tA tB)
    (fun _ => ticked (Machine (ex_configured dataflow a act shift A_stride tA tB (gs m)) (dram m) (rand_pos m))) m.
Proof. intros. apply (wp_config_ex dataflow a act); [done..|]. intros c r m' Hr. split; [done|]. by exists c, r. Qed.

(** ** Instructions that only load registers *)

(** [f] neither reads nor writes the counters, nor the reset flag. *)
Definition reg_update (f : gemmini_state -> gemmini_state) : Prop :=
  (forall s, resetted (f s) = resetted s) /\ forall s c c', (f (s <| cnt := c |>)) <| cnt := c' |> = (f s) <| cnt := c' |>.

Lemma run_rocc_upd f rs1 rs2 funct m : execute funct (u64 rs1) (u64 rs2) = upd_gs f ->
  funct <> counter_op_funct -> reg_update f -> ready m ->
  exists c r, ready (with_cnt c r (Machine (f (gs m)) (dram m) r)) /\
    ROCC_INSTRUCTION_RS1_RS2 rs1 rs2 funct m = (Ok tt, with_cnt c r (Machine (f (gs m)) (dram m) r)).
Proof.
  intros He Hf [Hrs Hc] Hr.
  assert (wp (issue funct (execute funct (u64 rs1) (u64 rs2))) (fun _ m' => exists c r,
    ready (with_cnt c r (Machine (f (gs m)) (dram m) r)) /\ m' = with_cnt c r (Machine (f (gs m)) (dram m) r)) m) as W.
  { apply (wp_issue_run _ _ f); [done| | | |done|].
    - apply (pres_execute _ _ _ (fun _ => True)); [done|by apply wrap_u_range..].
    - intros c r _. by rewrite He.
    - intros c. rewrite Hrs. apply Hr.
    - intros c r Hr'. by exists c, r. }
  rewrite (rocc_issue _ _ _ _ Hf). unfold wp in W.
  destruct (issue funct (execute funct (u64 rs1) (u64 rs2)) m) as [[[]|e] m']; [|done].
  destruct W as (c & r & Hr' & ->). by exists c, r.
Qed.

Lemma run_bind {S A B} (x : M S A) (k : A -> M S B) s a s' : x s = (Ok a, s') -> (x ≫= k) s = k a s'.
Proof. intros E. unfold mbind, M_bind. by rewrite E. Qed.

(** Runs one register load at the head of a macro. *)
Ltac rocc_upd := match goal with |- context [ (ROCC_INSTRUCTION_RS1_RS2 ?a ?b ?k ≫= _) ?m ] =>
  let c := fresh "c" in let r := fresh "r" in let Hr := fresh "Hr" in let E := fresh "E" in
  let He := fresh "He" in
  eassert (execute k (u64 a) (u64 b) = upd_gs _) as He by reflexivity;
  destruct (run_rocc_upd _ a b k m He ltac:(done) ltac:(by split) ltac:(done)) as (c & r & Hr & E);
  rewrite (run_bind _ _ _ _ _ E); clear E He end.

(** The register [loop_ws_config_bounds] receives: three 16-bit fields. *)
Lemma pack3_fields a b c : in_u 16 a -> in_u 16 b -> in_u 16 c ->
  let w := u64 ((u64 c ≪ 32) |ᵇ (u64 b ≪ 16) |ᵇ u64 a) in
  w &ᵇ 0xFFFF = a /\ (w ≫ 16) &ᵇ 0xFFFF = b /\ (w ≫ 32) &ᵇ 0xFFFF = c.
Proof.
  intros Ha Hb Hc w. unfold in_u in *.
  assert (w = c * 2 ^ 32 + (b * 2 ^ 16 + a)) as ->.
  { unfold w. rewrite !(wrap_u_id 64 a), !(wrap_u_id 64 b), !(wrap_u_id 64 c) by (unfold in_u; lia). pack_sum.
    apply wrap_u_id. unfold in_u. lia. }
  split_and!; autorewrite with bits; zlia.
Qed.

(** The flags of [gemmini_loop_ws]. *)
Lemma loop_ws_flags (low_D full_C ex_acc tA tB : bool) weightA : 0 <= weightA < 256 ->
  loop_ws_decode (u64 ((u64 weightA ≪ 8) |ᵇ (b2z low_D ≪ 2) |ᵇ (b2z full_C ≪ 1) |ᵇ b2z ex_acc))
    (u64 ((b2z tB ≪ 1) |ᵇ b2z tA)) =
  {| la_ex_accumulate := ex_acc; la_full_C := full_C; la_low_D := low_D; la_act := weightA mod 8;
     la_a_transpose := tA; la_b_transpose := tB; la_a_spad_id := 0; la_b_spad_id := 0; la_is_resadd := false |}.
Proof.
  intros Hw. rewrite (wrap_u_id 64 weightA) by (unfold in_u; lia). pack_sum.
  unfold loop_ws_decode.
  match goal with |- context [u64 (weightA * ?a + ?b)] => set (w := u64 (weightA * a + b)) end.
  assert (w = weightA * 2 ^ 8 + (b2z low_D * 2 ^ 2 + (b2z full_C * 2 ^ 1 + b2z ex_acc))) as Ew.
  { unfold w. apply wrap_u_id. unfold in_u. destruct low_D, full_C, ex_acc; simpl; lia. }
  clearbody w. f_equal; try (destruct tA, tB; reflexivity); subst w; autorewrite with bits;
    destruct low_D, full_C, ex_acc; cbn [b2z]; try zlia;
    match goal with |- negb (?x =? 0) = ?b => assert (x = b2z b) as -> by (cbn [b2z]; zlia); reflexivity end.
Qed.

(** The flags the macro encodes. *)
Definition loop_flags (tA tB full_C low_D ex_acc : bool) (weightA : Z) : loop_ws_args :=
  {| la_ex_accumulate := ex_acc; la_full_C := full_C; la_low_D := low_D; la_act := weightA mod 8;
     la_a_transpose := tA; la_b_transpose := tB; la_a_spad_id := 0; la_b_spad_id := 0; la_is_resadd := false |}.

(** The macro called with the values of [w]. *)
Definition loop_ws_call (w : loop_ws_regs) (tA tB full_C low_D ex_acc : bool) (weightA : Z) : M (machine mem) unit :=
  gemmini_loop_ws (loop_ws_I w) (loop_ws_J w) (loop_ws_K w) (loop_ws_pad_I w) (loop_ws_pad_J w) (loop_ws_pad_K w)
    (loop_ws_A w) (loop_ws_B w) (loop_ws_D w) (loop_ws_C w)
    (loop_ws_A_stride w) (loop_ws_B_stride w) (loop_ws_D_stride w) (loop_ws_C_stride w) tA tB full_C low_D ex_acc weightA.

Lemma run_loop_ws_call w tA tB full_C low_D ex_acc weightA m : ready m -> wf_lws w -> 0 <= weightA < 256 ->
  exists rs1 rs2 m1,
    ticked (Machine ((gs m) <| lws := w |>) (dram m) (rand_pos m)) m1 /\
    loop_ws_decode rs1 rs2 = loop_flags tA tB full_C low_D ex_acc weightA /\
    loop_ws_call w tA tB full_C low_D ex_acc weightA m = issue k_LOOP_WS (loop_ws rs1 rs2) m1.
Proof.
  destruct w as [I J K pad_I pad_J pad_K A B D C A_stride B_stride D_stride C_stride].
  intros Hr [HI HJ HK HpI HpJ HpK HA HB HD HC HAs HBs HDs HCs] Hw.
  cbn [loop_ws_I loop_ws_J loop_ws_K loop_ws_pad_I loop_ws_pad_J loop_ws_pad_K loop_ws_A loop_ws_B loop_ws_D loop_ws_C
    loop_ws_A_stride loop_ws_B_stride loop_ws_D_stride loop_ws_C_stride] in *.
  destruct (pack3_fields pad_I pad_J pad_K HpI HpJ HpK) as (P1 & P2 & P3).
  destruct (pack3_fields I J K HI HJ HK) as (B1 & B2 & B3).
  unfold loop_ws_call, gemmini_loop_ws. cbn [loop_ws_I loop_ws_J loop_ws_K loop_ws_pad_I loop_ws_pad_J loop_ws_pad_K
    loop_ws_A loop_ws_B loop_ws_D loop_ws_C loop_ws_A_stride loop_ws_B_stride loop_ws_D_stride loop_ws_C_stride].
  do 5 rocc_upd. rewrite rocc_issue by done.
  match goal with |- context [execute k_LOOP_WS ?a ?b] => change (execute k_LOOP_WS a b) with (loop_ws a b); exists a, b end.
  match goal with |- context [issue k_LOOP_WS _ ?s = _] => exists s end.
  split; [|split; [by apply loop_ws_flags|reflexivity]].
  split; [done|]. do 2 eexists. cbv zeta in P1, P2, P3, B1, B2, B3.
  rewrite P1, P2, P3, B1, B2, B3, !wrap_u_id by done. reflexivity.
Qed.

(** C28: the matmul loop macro.  [gemmini_loop_ws] with bounds and paddings that fit
    16 bits and 64-bit addresses and strides loads exactly those values into the
    loop registers with its first five instructions, and its sixth runs the
    simulator's [loop_ws] with the given transpositions, result and bias widths and
    accumulation flag.  The argument [weightA] lands in the activation field of the
    simulator, modulo 8, and the scratchpad ids it names are always 0. *)
Theorem loop_ws_macro I J K pad_I pad_J pad_K A B D C A_stride B_stride D_stride C_stride
    (tA tB full_C low_D ex_acc : bool) weightA m :
  let w := Build_loop_ws_regs I J K pad_I pad_J pad_K A B D C A_stride B_stride D_stride C_stride in
  ready m -> wf_lws w -> 0 <= weightA < 256 ->
  exists rs1 rs2 m1,
    ticked (Machine ((gs m) <| lws := w |>) (dram m) (rand_pos m)) m1 /\
    loop_ws_decode rs1 rs2 =
      {| la_ex_accumulate := ex_acc; la_full_C := full_C; la_low_D := low_D; la_act := weightA mod 8;
         la_a_transpose := tA; la_b_transpose := tB; la_a_spad_id := 0; la_b_spad_id := 0; la_is_resadd := false |} /\
    gemmini_loop_ws I J K pad_I pad_J pad_K A B D C A_stride B_stride D_stride C_stride tA tB full_C low_D ex_acc weightA m =
      issue k_LOOP_WS (loop_ws rs1 rs2) m1.
Proof. intros w. apply (run_loop_ws_call w). Qed.

(** ** The convolution loop macro *)

Lemma pack4_sum a b c d : in_u 16 a -> in_u 16 b -> in_u 16 c -> in_u 16 d ->
  u64 (pack4 a b c d) = a * 2 ^ 48 + (b * 2 ^ 32 + (c * 2 ^ 16 + d)).
Proof.
  intros Ha Hb Hc Hd. unfold in_u in *. unfold pack4.
  rewrite (wrap_u_id 64 a), (wrap_u_id 64 b), (wrap_u_id 64 c), (wrap_u_id 64 d) by (unfold in_u; lia). pack_sum.
  apply wrap_u_id. unfold in_u. lia.
Qed.

Lemma pack4_fields a b c d : in_u 16 a -> in_u 16 b -> in_u 16 c -> in_u 16 d ->
  let w := u64 (pack4 a b c d) in
  (w &ᵇ 0xFFFF = d /\ (w ≫ 16) &ᵇ 0xFFFF = c /\ (w ≫ 32) &ᵇ 0xFFFF = b /\ (w ≫ 48) &ᵇ 0xFFFF = a) /\
  (w &ᵇ 0xFF = d mod 256 /\ (w ≫ 8) &ᵇ 0xFF = d / 256 /\ (w ≫ 16) &ᵇ 0xFF = c mod 256 /\ (w ≫ 24) &ᵇ 0xFF = c / 256 /\
   (w ≫ 48) &ᵇ 0xFF = a mod 256 /\ (w ≫ 56) &ᵇ 0xFF = a / 256) /\
  (w ≫ 10) &ᵇ 0xFF = c mod 4 * 64 + d / 1024 /\ (w ≫ 21) &ᵇ 0xFF = c / 32 mod 256.
Proof.
  intros Ha Hb Hc Hd w. unfold w. rewrite pack4_sum by done. unfold in_u in *. clear w. autorewrite with bits.
  split_and!; zlia.
Qed.

(** The parameters that fit their fields. *)
Record conv_params_ok (p : loop_conv_params) : Prop := {
  cp_dims : Forall (in_u 16) [lp_batch_size p; lp_in_dim p; lp_in_channels p; lp_out_channels p; lp_out_dim p; lp_pool_out_dim p;
    lp_stride p; lp_padding p; lp_kernel_dim p; lp_kernel_dilation p; lp_pool_size p; lp_pool_stride p; lp_pool_padding p];
  cp_tile : Forall (in_u 16) [lp_batches p; lp_porows p; lp_pocols p; lp_pochs p; lp_krows p; lp_kcols p; lp_kchs p;
    lp_lpad p; lp_rpad p; lp_upad p; lp_dpad p; lp_plpad p; lp_prpad p; lp_pupad p; lp_pdpad p; lp_orows p; lp_ocols p];
  cp_addrs : Forall (in_u 64) [lp_weights p; lp_output p; lp_bias p; lp_input p] }.

(** The loop registers after the macro; the two addresses that [loop_conv_ws]
    keeps between calls are those of [c]. *)
Definition conv_regs (p : loop_conv_params) (c : loop_conv_regs) : loop_conv_regs := {|
  lc_batch_size := lp_batch_size p; lc_in_row_dim := lp_in_dim p; lc_in_col_dim := lp_plpad p;
  lc_in_channels := lp_in_channels p; lc_out_channels := lp_out_channels p;
  lc_in_stride := 0; lc_weight_stride := 0; lc_out_stride := lp_kernel_dilation p;
  lc_out_row_dim := lp_out_dim p; lc_pool_out_row_dim := lp_pool_out_dim p;
  lc_out_col_dim := lp_stride p; lc_pool_out_col_dim := lp_pool_size p;
  lc_stride := lp_padding p mod 256; lc_padding := lp_padding p / 256;
  lc_kernel_dim := lp_kernel_dim p; lc_pool_size := lp_pool_stride p;
  lc_pool_stride := lp_pool_padding p / 256; lc_pool_padding := lp_pool_padding p mod 256;
  lc_batches := lp_batches p; lc_porows := lp_porows p; lc_pocols := lp_pocols p; lc_pochs := lp_pochs p;
  lc_krows := lp_krows p; lc_kcols := lp_kcols p; lc_kchs := lp_kchs p; lc_lpad := lp_lpad p;
  lc_rpad := lp_rpad p; lc_upad := lp_upad p; lc_dpad := lp_dpad p / 256; lc_plpad := lp_dpad p mod 256;
  lc_prad := lp_prpad p; lc_pupad := lp_pupad p / 32 mod 256;
  lc_pdpad := lp_pupad p mod 4 * 64 + lp_pdpad p / 1024; lc_orows := lp_orows p;
  lc_ocols := lp_ocols p; lc_kernel_dilation := lp_pdpad p mod 256;
  lc_input := lp_input p; lc_weights := lp_weights p; lc_output := lp_output p; lc_bias := lp_bias p;
  lc_D_sp_addr_row := lc_D_sp_addr_row c; lc_C_sp_addr_row := lc_C_sp_addr_row c |}.

Lemma pack2_fields a b : in_u 16 a -> in_u 16 b ->
  let w := u64 ((u64 a ≪ 16) |ᵇ u64 b) in
  w &ᵇ 0xFFFF = b /\ (w ≫ 16) &ᵇ 0xFFFF = a /\ (w ≫ 32) &ᵇ 0xFFFF = 0 /\ (w ≫ 48) &ᵇ 0xFFFF = 0.
Proof.
  intros Ha Hb w. unfold in_u in *. assert (w = a * 2 ^ 16 + b) as ->.
  { unfold w. rewrite (wrap_u_id 64 a), (wrap_u_id 64 b) by (unfold in_u; lia). pack_sum. apply wrap_u_id. unfold in_u. lia. }
  split_and!; autorewrite with bits; zlia.
Qed.

(** C29: the convolution loop macro.  For parameters that fit 16-bit fields the macro
    [gemmini_loop_conv_ws] of the back end leaves exactly [conv_regs] in the loop
    registers of the simulator and then runs [loop_conv_ws].  Batch, channel, kernel
    and tile sizes arrive where they should; the macro's stride arrives as the number
    of output columns, its padding as the stride, its pooling size as the number of
    pooled columns, its left pooling padding as the number of input columns, and the
    simulator's strides of inputs and weights are 0: the two sides use different
    layouts of CONFIG_1 to CONFIG_4. *)
Theorem loop_conv_macro p m : ready m -> conv_params_ok p ->
  exists rs1 rs2 m1,
    ticked (Machine ((gs m) <| lcv := conv_regs p (lcv (gs m)) |>) (dram m) (rand_pos m)) m1 /\
    gemmini_loop_conv_ws p m = issue k_LOOP_CONV_WS (loop_conv_ws rs1 rs2) m1.
Proof.
  intros Hr [Hd Ht Ha]. repeat setoid_rewrite Forall_cons in Hd. repeat setoid_rewrite Forall_cons in Ht. rewrite !Forall_cons in Ha. destruct_and!.
  destruct (pack4_fields (lp_out_channels p) (lp_in_channels p) (lp_in_dim p) (lp_batch_size p)) as ((A0 & A1 & A2 & A3) & _); [done..|].
  destruct (pack4_fields (lp_padding p) (lp_stride p) (lp_pool_out_dim p) (lp_out_dim p)) as ((B0 & B1 & B2 & _) & (_ & _ & _ & _ & B3 & B4) & _); [done..|].
  destruct (pack4_fields (lp_kernel_dim p) (lp_pool_size p) (lp_pool_stride p) (lp_pool_padding p)) as ((_ & C1 & C2 & C3) & (C4 & C5 & _) & _); [done..|].
  destruct (pack4_fields (lp_batches p) (lp_porows p) (lp_pocols p) (lp_pochs p)) as ((D0 & D1 & D2 & D3) & _); [done..|].
  destruct (pack4_fields (lp_krows p) (lp_kcols p) (lp_kchs p) (lp_lpad p)) as ((E0 & E1 & E2 & E3) & _); [done..|].
  destruct (pack4_fields (lp_rpad p) (lp_upad p) (lp_dpad p) (lp_plpad p)) as ((F0 & _ & F2 & F3) & (_ & _ & F4 & F5 & _) & _); [done..|].
  destruct (pack4_fields (lp_orows p) (lp_prpad p) (lp_pupad p) (lp_pdpad p)) as ((_ & _ & G2 & G3) & (G4 & _) & G5 & G6); [done..|].
  destruct (pack2_fields (lp_kernel_dilation p) (lp_ocols p)) as (I0 & I1 & I2 & I3); [done..|].
  cbv zeta in *.
  unfold gemmini_loop_conv_ws. do 6 rocc_upd. rewrite rocc_issue by done.
  match goal with |- context [execute k_LOOP_CONV_WS ?a ?b] =>
    change (execute k_LOOP_CONV_WS a b) with (loop_conv_ws a b); exists a, b end.
  match goal with |- context [issue k_LOOP_CONV_WS _ ?s = _] => exists s end.
  split; [|reflexivity]. split; [done|]. do 2 eexists.
  rewrite A0, A1, A2, A3, B0, B1, B2, B3, B4, C1, C2, C3, C4, C5, D0, D1, D2, D3, E0, E1, E2, E3, F0, F2, F3, F4, F5, G2, G3, G4, G5, G6, I0, I1, I2, I3.
  rewrite (wrap_u_id 64 (lp_weights p)), (wrap_u_id 64 (lp_output p)), (wrap_u_id 64 (lp_bias p)), (wrap_u_id 64 (lp_input p)) by done.
  reflexivity.
Qed.
End driver.

(** ** The macros on a concrete machine *)

Lemma config_ld_macro_witness :
  wp (gemmini_extended5_config_ld (H0 := zero_rand) 64 f32_one true 16 1 2)
    (fun _ => ticked (Machine ((gs demo) <| ld := load_set (ld (gs demo)) 2 64 16 true f32_one 1 |>) (dram demo) (rand_pos demo))) demo.
Proof. exact (config_ld_macro (H1 := zero_rand) 64 f32_one true 16 1 2 demo demo_ready ltac:(by split) ltac:(by split) eq_refl ltac:(by split) ltac:(by split)). Defined.

Lemma config_st_macro_witness :
  wp (gemmini_extended_config_st (H0 := zero_rand) 32 1 1 f32_one)
    (fun _ => ticked (Machine ((gs demo) <| st := Build_st_regs (u32 32) RELU f32_one 0 0 0 0 0 0 0 0 0 |>) (dram demo) (rand_pos demo))) demo.
Proof. exact (proj1 (config_st_macro (H1 := zero_rand) 32 1 1 RELU f32_one demo demo_ready ltac:(by vm_compute) ltac:(done) ltac:(by split) eq_refl eq_refl)). Defined.

Lemma config_ex_macro_witness :
  wp (gemmini_extended_config_ex (H0 := zero_rand) 1 1 4 0 2 true false)
    (fun _ => ticked (Machine (ex_configured 1 1 RELU 4 2 true false (gs demo)) (dram demo) (rand_pos demo))) demo.
Proof.
  exact (config_ex_macro (H1 := zero_rand) 1 1 RELU 4 0 2 true false demo demo_ready ltac:(done) ltac:(by split) ltac:(by split) eq_refl
    ltac:(by split) ltac:(by split) ltac:(by split) ltac:(by intros [? ?])).
Defined.

Lemma loop_ws_macro_witness : exists rs1 rs2 m1,
  ticked (Machine ((gs demo) <| lws := Build_loop_ws_regs 2 3 4 1 2 3 0x1000 0x2000 0 0x3000 64 48 0 48 |>) (dram demo) (rand_pos demo)) m1 /\
  loop_ws_decode rs1 rs2 =
    {| la_ex_accumulate := false; la_full_C := true; la_low_D := false; la_act := 1;
       la_a_transpose := false; la_b_transpose := true; la_a_spad_id := 0; la_b_spad_id := 0; la_is_resadd := false |} /\
  gemmini_loop_ws (H0 := zero_rand) 2 3 4 1 2 3 0x1000 0x2000 0 0x3000 64 48 0 48 false true true false false 1 demo =
    issue (H0 := zero_rand) k_LOOP_WS (loop_ws rs1 rs2) m1.
Proof.
  refine (loop_ws_macro (H1 := zero_rand) 2 3 4 1 2 3 0x1000 0x2000 0 0x3000 64 48 0 48 false true true false false 1 demo
    demo_ready _ _); by split.
Defined.

(** A 3x3 convolution of an 8x8 image with stride 2 and padding 1. *)
Definition small_conv : loop_conv_params := {|
  lp_batch_size := 1; lp_in_dim := 8; lp_in_channels := 4; lp_out_channels := 5; lp_out_dim := 4; lp_pool_out_dim := 4;
  lp_stride := 2; lp_padding := 1; lp_kernel_dim := 3; lp_kernel_dilation := 1; lp_pool_size := 0; lp_pool_stride := 0;
  lp_pool_padding := 0; lp_batches := 1; lp_porows := 4; lp_pocols := 4; lp_pochs := 5; lp_krows := 3; lp_kcols := 3; lp_kchs := 4;
  lp_lpad := 1; lp_rpad := 0; lp_upad := 1; lp_dpad := 0; lp_plpad := 0; lp_prpad := 0; lp_pupad := 0; lp_pdpad := 0;
  lp_orows := 4; lp_ocols := 4; lp_weights := 0x2000; lp_output := 0x3000; lp_bias := 0; lp_input := 0x1000;
  lp_no_bias := true; lp_no_pool := true; lp_downsample := false; lp_wrot180 := false; lp_input_dilated := false;
  lp_activation := 0; lp_trans_output_1203 := false; lp_trans_weight_1203 := false; lp_trans_weight_0132 := false;
  lp_trans_input_3120 := false; lp_max_pixels_per_row := 1 |}.

Lemma loop_conv_macro_witness : exists rs1 rs2 m1,
  ticked (Machine ((gs demo) <| lcv := conv_regs small_conv (lcv (gs demo)) |>) (dram demo) (rand_pos demo)) m1 /\
  gemmini_loop_conv_ws (H0 := zero_rand) small_conv demo = issue (H0 := zero_rand) k_LOOP_CONV_WS (loop_conv_ws rs1 rs2) m1.
Proof.
  refine (loop_conv_macro (H1 := zero_rand) small_conv demo demo_ready _).
  split; repeat (apply Forall_cons_2 || apply Forall_nil_2); by split.
Defined.

(** ** Preload and compute *)

(** A block operand as the caller of a macro gives it. *)
Record block_arg := { b_addr : Z; b_rows : Z; b_cols : Z }.

(** Element [(i, j)] of the block, in cell [(r, c)] counted from its address. *)
Definition block_elem (s : gemmini_state) (b : block_arg) (i j r c : Z) : Z := operand s (b_addr b) (b_rows b) (b_cols b) i j r c.

Section blocks.
Context {mem : Type} `{MmuLaws mem} `{Rand}.
Implicit Types m : machine mem.

(** The macros called with the fields of block operands. *)
Definition preload_call (W C : block_arg) : M (machine mem) unit :=
  gemmini_extended_preload (b_addr W) (b_addr C) (b_cols W) (b_rows W) (b_cols C) (b_rows C).
Definition compute_call (preloaded : bool) (A BD : block_arg) : M (machine mem) unit :=
  if preloaded then gemmini_extended_compute_preloaded (b_addr A) (b_addr BD) (b_cols A) (b_rows A) (b_cols BD) (b_rows BD)
  else gemmini_extended_compute_accumulated (b_addr A) (b_addr BD) (b_cols A) (b_rows A) (b_cols BD) (b_rows BD).

Definition preloaded_regs (W C : block_arg) : preload_regs := {|
  preload_sp_addr := b_addr W; preload_rows := b_rows W; preload_cols := b_cols W;
  output_sp_addr := b_addr C; output_rows := b_rows C; output_cols := b_cols C |}.

(** What the array holds during the computation, and the moving operands. *)
Definition array_elem (s : gemmini_state) (preloaded : bool) (W : block_arg) (i j : Z) : Z :=
  let t := bool_decide (mode (ex s) = WS) && b_transpose (ex s) in
  if preloaded then block_elem s W i j (if t then j else i) (if t then i else j) else vget (pe_state s) i j.
Definition moving_A (s : gemmini_state) (A : block_arg) (i k : Z) : Z :=
  let t := a_transpose (ex s) in block_elem s A i k (a_stride (ex s) * (if t then k else i)) (if t then i else k).
Definition moving_B (s : gemmini_state) (B : block_arg) (k j : Z) : Z :=
  let t := b_transpose (ex s) in block_elem s B k j (if t then j else k) (if t then k else j).

(** [D + A*W] with the weights stationary, [C + A*B] with the outputs stationary,
    modulo [2^32]. *)
Definition block_product (s : gemmini_state) (preloaded : bool) (W A BD : block_arg) (p : Z * Z) : Z :=
  if bool_decide (mode (ex s) = WS)
  then dot (moving_A s A (fst p)) (fun k => array_elem s preloaded W k (snd p)) (block_elem s BD (fst p) (snd p) (fst p) (snd p)) DIM
  else dot (moving_A s A (fst p)) (fun k => moving_B s BD k (snd p)) (array_elem s preloaded W (fst p) (snd p)) DIM.

(** The accesses of an operand stay in the scratchpad. *)
Definition block_inside (s : gemmini_state) (b : block_arg) (r c : Z -> Z -> Z) : Prop :=
  operand_in s (b_addr b) (b_rows b) (b_cols b) r c.

Record blocks_ok (s : gemmini_state) (preloaded : bool) (W C A BD : block_arg) : Prop := {
  bl_fields : Forall (fun b => block_ok (b_rows b) (b_cols b) (b_addr b)) [W; C; A; BD];
  bl_W : preloaded = true -> (is_garbage (b_addr W) = false -> (b_addr W ≫ 30) &ᵇ 3 = 0) /\
    block_inside s W (fun i j => if bool_decide (mode (ex s) = WS) && b_transpose (ex s) then j else i)
      (fun i j => if bool_decide (mode (ex s) = WS) && b_transpose (ex s) then i else j);
  bl_A : is_garbage (b_addr A) = false /\
    block_inside s A (fun i k => a_stride (ex s) * (if a_transpose (ex s) then k else i)) (fun i k => if a_transpose (ex s) then i else k);
  bl_D : block_inside s BD (fun i _ => i) (fun _ j => j);
  bl_B : mode (ex s) = OS -> block_inside s BD (fun k j => if b_transpose (ex s) then j else k) (fun k j => if b_transpose (ex s) then k else j);
  bl_out : out_ready (s <| pre := preloaded_regs W C |>) }.

Section run.
Context (preloaded : bool) (W C A BD : block_arg) (m : machine mem).
Context (Hr : ready m) (Hb : blocks_ok (gs m) preloaded W C A BD).

Lemma wp_preload_call Q : 
  (forall c r, let m1 := with_cnt c r (Machine ((gs m) <| pre := preloaded_regs W C |>) (dram m) r) in ready m1 -> Q tt m1) ->
  wp (preload_call W C) Q m.
Proof using All.
  intros HQ. pose proof (bl_fields _ _ _ _ _ _ Hb) as Hf. rewrite !Forall_cons in Hf. destruct Hf as (HW & HC & _).
  unfold preload_call, wp. rewrite preload_issue by done.
  apply (wp_issue_run _ _ (fun s => s <| pre := preloaded_regs W C |>)); [done| | |by destruct Hr|done|done].
  - by apply (pres_preload _ _ (fun _ => True)).
  - intros c r _. unfold preload, upd_gs, modify, preloaded_regs. change ((?a ≫ addr_len) &ᵇ 0xFFFF) with (sp_cols a).
    change ((?a ≫ (addr_len + 16)) &ᵇ 0xFFFF) with (sp_rows a).
    by rewrite !pack_low32, !pack_rows, !pack_cols by done.
Qed.

(** The state the second macro finds. *)
Lemma compute_operands c r : let s := gs (with_cnt c r (Machine ((gs m) <| pre := preloaded_regs W C |>) (dram m) r)) in
  let a := pack_block (b_rows A) (b_cols A) (b_addr A) in let bd := pack_block (b_rows BD) (b_cols BD) (b_addr BD) in
  if bool_decide (mode (ex s) = WS) then ws_operands s a bd preloaded else os_operands s a bd preloaded.
Proof using All.
  intros s a bd. destruct Hb as [Hf HW [HgA HA] HD HB Hout]. rewrite !Forall_cons in Hf. destruct Hf as (_ & _ & FA & FB & _).
  destruct Hr as [Hwf Hrs]. destruct (wf_s_pe _ Hwf) as (P1 & P2 & P3), (wf_s_spad _ Hwf) as (B1 & B2 & B3). rewrite Hrs in *.
  assert (preloaded = true -> preload_in s) as Hpre by exact HW.
  assert (A_in s a) as HAi by (unfold A_in, a; by rewrite pack_low32, pack_rows, pack_cols).
  assert (bias_in s bd) as HDi by (unfold bias_in, bd; by rewrite pack_low32, pack_rows, pack_cols).
  assert (mode (ex s) = OS -> B_in s bd) as HBi by (intros Ho; unfold B_in, bd; rewrite pack_low32, pack_rows, pack_cols by done; by apply HB).
  destruct (mode (ex s)) eqn:E; [rewrite bool_decide_false by done|rewrite bool_decide_true by done]; split; auto; done.
Qed.

Lemma compute_product c r p : let s := gs (with_cnt c r (Machine ((gs m) <| pre := preloaded_regs W C |>) (dram m) r)) in
  let a := pack_block (b_rows A) (b_cols A) (b_addr A) in let bd := pack_block (b_rows BD) (b_cols BD) (b_addr BD) in
  (if bool_decide (mode (ex s) = WS) then ws_product s a bd preloaded p else os_product s a bd preloaded p) =
  block_product (gs m) preloaded W A BD p.
Proof using All.
  intros s a bd. pose proof (bl_fields _ _ _ _ _ _ Hb) as Hf. rewrite !Forall_cons in Hf. destruct Hf as (_ & _ & FA & FB & _).
  unfold block_product, ws_product, os_product, A_elem, B_elem, bias_elem, a, bd. by rewrite !pack_low32, !pack_rows, !pack_cols.
Qed.

Lemma written_back_ext v v' (m1 m2 : machine mem) : (forall p, v p = v' p) -> written_back v m1 m2 -> written_back v' m1 m2.
Proof using.
  intros He Hw. unfold written_back, block_written in *. cbv zeta in *.
  repeat case_match; [done|..]; destruct Hw as [[Hin Hfr] Hm]; (split; [split|]; [|done..]); intros p Hp; by rewrite <- He, Hin.
Qed.

Lemma written_back_resetted v (m1 m2 : machine mem) : written_back v m1 m2 -> resetted (gs m2) = resetted (gs m1).
Proof using.
  unfold written_back. cbv zeta. destruct (is_garbage _); [by intros ->|]. destruct (is_acc_addr _); by intros [_ ->].
Qed.

(** What the array holds after the computation. *)
Definition array_after (s : gemmini_state) (p : Z * Z) : Z :=
  if bool_decide (mode (ex s) = WS) then array_elem s preloaded W (fst p) (snd p) else block_product s preloaded W A BD p.

Lemma wp_compute_call c r Q : let m1 := with_cnt c r (Machine ((gs m) <| pre := preloaded_regs W C |>) (dram m) r) in ready m1 ->
  (forall m2 m', ticked m2 m' -> (forall i j, 0 <= i < DIM -> 0 <= j < DIM -> vget (pe_state (gs m2)) i j = array_after (gs m) (i, j)) ->
     (exists m1', ticked m1 m1' /\ written_back (block_product (gs m) preloaded W A BD) m1' m2) -> Q tt m') ->
  wp (compute_call preloaded A BD) Q m1.
Proof using All.
  intros m1 Hr1 HQ. pose proof (bl_fields _ _ _ _ _ _ Hb) as Hf. rewrite !Forall_cons in Hf. destruct Hf as (_ & _ & FA & FB & _).
  set (a := pack_block (b_rows A) (b_cols A) (b_addr A)). set (bd := pack_block (b_rows BD) (b_cols BD) (b_addr BD)).
  assert (exists f, compute_call preloaded A BD m1 = issue f (compute a bd preloaded) m1) as [f Ec].
  { unfold compute_call. destruct preloaded; eexists; [by apply compute_preloaded_issue|by apply compute_accumulated_issue]. }
  unfold wp. rewrite Ec. apply wp_issue; [done|by apply (pres_compute _ _ _ (fun _ => True))|]. intros c1 r1 Hr1'.
  pose proof (compute_operands c1 r1) as Hop. pose proof (compute_product c1 r1) as Hp. cbv zeta in Hop, Hp. fold a bd in Hop, Hp.
  change (with_cnt c1 r1 m1) with (with_cnt c1 r1 (Machine ((gs m) <| pre := preloaded_regs W C |>) (dram m) r1)) in *.
  set (m1' := with_cnt c1 r1 _) in *. change (mode (ex (gs m1'))) with (mode (ex (gs m))) in *.
  assert (ticked m1 m1') as Ht by (split; [done|]; by exists c1, r1).
  unfold array_after in HQ. destruct (bool_decide (mode (ex (gs m)) = WS)) eqn:Em.
  - apply wp_compute_ws; [done|]. intros m2 [Hpe Hw]. split; [rewrite (written_back_resetted _ _ _ Hw); apply Hr1'|]. intros c' Hr'.
    apply (HQ m2); [split; [done|]; by eexists _, _|exact Hpe|]. exists m1'. split; [done|]. by eapply written_back_ext.
  - apply wp_compute_os; [done|]. intros m2 [Hpe Hw]. split; [rewrite (written_back_resetted _ _ _ Hw); apply Hr1'|]. intros c' Hr'.
    apply (HQ m2); [split; [done|]; by eexists _, _| |].
    + intros i j Hi Hj. rewrite Hpe by done. apply Hp.
    + exists m1'. split; [done|]. by eapply written_back_ext.
Qed.
End run.

(** C27: preload and compute through the driver's macros.  On a machine past its reset,
    with operand blocks (address, rows, columns) that fit the fields of an
    instruction and lie in the scratchpad, [gemmini_extended_preload] followed by
    [gemmini_extended_compute_preloaded] or [gemmini_extended_compute_accumulated]
    runs without fault.  It leaves exactly the given blocks in the preload registers
    and computes, for both dataflows, the product of the blocks as the caller gave
    them: elements outside the given rows and columns count as 0, the result goes to
    the given output block, scaled down only on its way to the scratchpad, and
    apart from that block, the array, the preload registers and the performance
    counters nothing changes. *)
Theorem preload_compute_macros preloaded W C A BD m : ready m -> blocks_ok (gs m) preloaded W C A BD ->
  wp (preload_call W C ;; compute_call preloaded A BD) (fun _ m' => exists m1 m2,
    ticked (Machine ((gs m) <| pre := preloaded_regs W C |>) (dram m) (rand_pos m)) m1 /\
    (forall i j, 0 <= i < DIM -> 0 <= j < DIM ->
       vget (pe_state (gs m2)) i j = array_after preloaded W A BD (gs m) (i, j)) /\
    written_back (block_product (gs m) preloaded W A BD) m1 m2 /\ ticked m2 m') m.
Proof.
  intros Hr Hb. apply wp_bind, (wp_preload_call preloaded W C A BD); [done..|]. intros c r m1 Hr1.
  apply (wp_compute_call preloaded W C A BD); [done..|]. intros m2 m' Ht Hpe (m1' & [Hr1' (c1 & r1 & ->)] & Hw).
  exists (with_cnt c1 r1 m1), m2. split_and!; [|done..]. split; [done|]. by exists c1, r1.
Qed.
End blocks.

(** ** A machine with one element in each operand: A = 3 at row 0, W = 5 at row 16. *)

Definition block_demo (x : ex_regs) : machine flat_mem :=
  Machine (demo_state <| ex := x |> <| spad := vset (vset (vec2_zeros 16384 16) 0 0 3) 16 0 5 |>) demo_mem 0.

Lemma block_demo_ready x : wf_ex x -> ready (block_demo x).
Proof.
  intros Hx. split; [|done]. pose proof (proj1 demo_ready) as Hwf. destruct (wf_set_ex _ _ Hwf Hx). split; try done.
  split_and!; [done..|]. intros r c. change (spad _) with (vset (vset (vec2_zeros 16384 16) 0 0 3) 16 0 5).
  rewrite !vget_vset, vget_zeros. repeat case_decide; by unfold in_s.
Qed.

Notation at_row a := {| b_addr := a; b_rows := 4; b_cols := 4 |}.

Lemma block_demo_ok : blocks_ok (gs (block_demo ws_regs)) true (at_row 16) (at_row 0x80000002) (at_row 0) (at_row GARBAGE_ADDR).
Proof.
  assert (forall a r c, 0 <= a < 1000 -> (forall i j, 0 <= i < 16 -> 0 <= j < 16 -> 0 <= r i j < 1000 /\ 0 <= c i j < 16) ->
    block_inside (gs (block_demo ws_regs)) (at_row a) r c) as Hin.
  { intros a r c Ha Hrc _ i j Hi Hj _ _. destruct (Hrc i j Hi Hj). apply in_shape_spec. cbn [b_addr].
    change (v_rows (spad (gs (block_demo ws_regs)))) with 16384. change (v_cols (spad (gs (block_demo ws_regs)))) with 16. lia. }
  split.
  - repeat apply Forall_cons_2; try apply Forall_nil_2; by split.
  - intros _. split; [done|]. apply Hin; [lia|]. intros i j Hi Hj.
    change (bool_decide _ && _) with false. lia.
  - split; [done|]. apply Hin; [lia|]. intros i j Hi Hj. change (a_stride _) with 1. change (a_transpose _) with false. lia.
  - intros Hg. by vm_compute in Hg.
  - done.
  - intros _. split; [done|]. split; [done|]. split; [done|]. intros [i j] [Hi Hj]%elem_of_pairs. apply in_shape_spec. cbn [fst snd] in *.
    change (output_rows _) with 4 in Hi. change (output_cols _) with 4 in Hj.
    change (fst (out_cell _ (i, j))) with (2 + 1 * i). change (snd (out_cell _ (i, j))) with j.
    change (v_rows _) with 1024. change (v_cols _) with 16. lia.
Qed.

Lemma block_demo_acc value c r d pos (m2 : machine flat_mem) :
  written_back value (with_cnt c r (Machine ((gs (block_demo ws_regs)) <| pre := preloaded_regs (at_row 16) (at_row 0x80000002) |>) d pos)) m2 ->
  vget (accumulator (gs m2)) 2 0 = value (0, 0).
Proof.
  intros Hw. destruct (written_acc _ _ _ Hw eq_refl eq_refl) as [[Hcells _] _].
  apply (Hcells (0, 0)), elem_of_pairs. by vm_compute.
Qed.

Lemma preload_compute_macros_witness :
  wp (preload_call (H1 := zero_rand) (at_row 16) (at_row 0x80000002) ;; compute_call (H1 := zero_rand) true (at_row 0) (at_row GARBAGE_ADDR))
    (fun _ m' => vget (accumulator (gs m')) 2 0 = 15) (block_demo ws_regs).
Proof.
  eapply wp_mono; [apply (preload_compute_macros (H1 := zero_rand)); [apply block_demo_ready; by split|apply block_demo_ok]|].
  intros [] m' (m1 & m2 & [_ (c1 & r1 & ->)] & _ & Hw & _ & (c2 & r2 & ->)).
  change (vget (accumulator (gs m2)) 2 0 = 15). rewrite (block_demo_acc _ _ _ _ _ _ Hw). vm_compute. reflexivity.
Defined.
