(* ===== verification/LoopWsSpec.v ===== *)
(** * LoopWsSpec: the matmul loop instruction multiplies matrices

    [loop_ws] moves blocks of A and B into the scratchpad, multiplies them block
    by block, accumulates in the accumulator and stores the result.  The theorem
    of this file says that the sequence computes [D + A*B] for matrices of any
    size that fits, with every combination of transposition, bias, accumulation
    and result width. *)

From S2P Require Import Prelude Effects Float32 Params State Dram Fill Scaling Norm Config Move MoveSpec Compute ComputeSpec LoopWs LoopConv Counters Dispatch Invariant Isa IsaSpec Issue.

(** ** Accumulator operands *)

Definition acc_op (acc full : bool) (off : Z) : Z := 2 ^ 31 + b2z acc * 2 ^ 30 + b2z full * 2 ^ 29 + off.

Lemma negb_field x b : x = b2z b -> negb (x =? 0) = b.
Proof. intros ->. by destruct b. Qed.

Lemma acc_op_fields acc full off : 0 <= off < ACC_ROWS ->
  let o := acc_op acc full off in
  0 <= o < 2 ^ 32 /\ is_acc_addr o = true /\ is_accumulate o = acc /\ is_full o = full /\ is_garbage o = false /\
  o &ᵇ 0x1FFFFFFF = off /\ o &ᵇ 0x3FFFFFF = off /\ (o ≫ 26) &ᵇ 7 = 0.
Proof.
  intros Ho o. unfold ACC_ROWS in Ho. assert (0 <= o < 2 ^ 32 - 1) as Hr by (unfold o, acc_op; destruct acc, full; cbn [b2z]; lia).
  split_and!; [lia|lia|apply negb_field..| | | |].
  - unfold o, acc_op. change 1 with (b2z true). autorewrite with bits. destruct acc, full; cbn [b2z]; zlia.
  - unfold o, acc_op. autorewrite with bits. destruct acc, full; cbn [b2z]; zlia.
  - unfold o, acc_op. autorewrite with bits. destruct acc, full; cbn [b2z]; zlia.
  - unfold is_garbage, GARBAGE_ADDR. lia.
  - unfold o, acc_op. autorewrite with bits. destruct acc, full; cbn [b2z]; zlia.
  - unfold o, acc_op. autorewrite with bits. destruct acc, full; cbn [b2z]; zlia.
  - unfold o, acc_op. autorewrite with bits. destruct acc, full; cbn [b2z]; zlia.
Qed.

(** Clearing the accumulate bit. *)
Lemma acc_op_overwrite full off : 0 <= off < ACC_ROWS ->
  acc_op true full off &ᵇ u32 (Z.lnot (1 ≪ (ADDR_LEN - 2))) = acc_op false full off.
Proof.
  intros Ho. unfold ACC_ROWS, acc_op in *. change (u32 (Z.lnot (1 ≪ (ADDR_LEN - 2)))) with 0xBFFFFFFF.
  set (y := b2z full * 2 ^ 29 + off). assert (0 <= y < 2 ^ 30) as Hy by (unfold y; destruct full; cbn [b2z]; lia).
  replace (2 ^ 31 + b2z true * 2 ^ 30 + b2z full * 2 ^ 29 + off) with (3 * 2 ^ 30 + y) by (unfold y; cbn [b2z]; lia).
  replace (2 ^ 31 + b2z false * 2 ^ 30 + b2z full * 2 ^ 29 + off) with (2 * 2 ^ 30 + y) by (unfold y; cbn [b2z]; lia).
  rewrite <- !lor_shiftl_add by lia. rewrite Z.land_lor_distr_l. f_equal.
  rewrite <- (Z.mod_small y (2 ^ 30)) at 1 by lia. rewrite <- (land_ones_mod y 30), <- Z.land_assoc by lia.
  change (Z.land (2 ^ 30 - 1) 0xBFFFFFFF) with (2 ^ 30 - 1). rewrite land_ones_mod, Z.mod_small by lia. done.
Qed.

(** A scratchpad operand. *)
Lemma spad_op_fields base : 0 <= base < BANK_NUM * BANK_ROWS ->
  is_acc_addr base = false /\ base &ᵇ 0x1FFFFFFF = base /\ base &ᵇ 0xFFFFFFFF = base /\ is_garbage base = false /\ (base ≫ 30) &ᵇ 3 = 0.
Proof.
  unfold BANK_NUM, BANK_ROWS. intros Hb. split_and!.
  - apply negb_field. autorewrite with bits. cbn [b2z]. zlia.
  - autorewrite with bits. zlia.
  - autorewrite with bits. zlia.
  - unfold is_garbage, GARBAGE_ADDR. lia.
  - autorewrite with bits. zlia.
Qed.

(** Runs an operation that preserves the types of the registers. *)
Lemma wp_typed {mem} (op : M (machine mem) unit) Q m : maintains mwf op (fun _ => True) -> mwf m ->
  wp op (fun _ m' => mwf m' -> Q tt m') m -> wp op Q m.
Proof. intros Hm Hwf Hw. eapply wp_mono; [by apply (wp_maintains mwf _ _ _ _ Hm Hwf Hw)|]. intros [] m' [HQ ?]. auto. Qed.

(** ** The matrices *)

Section matrices.
Context {mem : Type} `{MmuLaws mem}.
Variables (a : loop_ws_args) (w : loop_ws_regs).
Implicit Types (d : mem) (m : machine mem) (s : gemmini_state) (v : vec2).

(** Sizes in elements. *)
Definition ws_rows : Z := loop_ws_I w * DIM - loop_ws_pad_I w.
Definition ws_cols : Z := loop_ws_J w * DIM - loop_ws_pad_J w.
Definition ws_inner : Z := loop_ws_K w * DIM - loop_ws_pad_K w.
Definition size_C : Z := if la_full_C a then sizeof_acc_t else sizeof_elem_t.
Definition size_D : Z := if la_low_D a then sizeof_elem_t else sizeof_acc_t.

(** Addresses of elements in main memory. *)
Definition A_ptr (r x : Z) : Z := if la_a_transpose a then loop_ws_A w + x * loop_ws_A_stride w + r
                                  else loop_ws_A w + r * loop_ws_A_stride w + x.
Definition B_ptr (x c : Z) : Z := if la_b_transpose a then loop_ws_B w + c * loop_ws_B_stride w + x
                                  else loop_ws_B w + x * loop_ws_B_stride w + c.
Definition D_ptr (r c : Z) : Z := loop_ws_D w + (r * loop_ws_D_stride w + c) * size_D.
Definition C_ptr (e : Z * Z) : Z := loop_ws_C w + (fst e * loop_ws_C_stride w + snd e) * size_C.

Lemma C_ptr_apart : ws_cols <= loop_ws_C_stride w -> ws_rows * (loop_ws_C_stride w * size_C) <= 2 ^ 64 ->
  elems_disjoint size_C ws_rows ws_cols C_ptr.
Proof.
  intros Hc Hr p q b Hp Hq.
  assert (1 <= size_C) as Hs by (unfold size_C, sizeof_acc_t, sizeof_elem_t; case_match; lia).
  pose proof (row_major_disjoint size_C ws_rows ws_cols (loop_ws_C w) (loop_ws_C_stride w * size_C) Hs ltac:(nia) Hr p q b Hp Hq) as Hd.
  assert (forall e, C_ptr e = loop_ws_C w + fst e * (loop_ws_C_stride w * size_C) + snd e * size_C) as He
    by (intros e; unfold C_ptr; lia).
  by rewrite !He.
Qed.

(** The accumulator cell of element [(r, c)] of the result. *)
Definition ws_cell (e : Z * Z) : Z * Z :=
  ((fst e / DIM * loop_ws_J w + snd e / DIM) * DIM + fst e mod DIM, snd e mod DIM).

(** The loop bounds: blocks in each dimension, padding below a block, and the
    double-buffered capacity. *)
Record ws_shape : Prop := {
  sh_I : 1 <= loop_ws_I w; sh_J : 1 <= loop_ws_J w; sh_K : 1 <= loop_ws_K w;
  sh_pad_I : 0 <= loop_ws_pad_I w < DIM; sh_pad_J : 0 <= loop_ws_pad_J w < DIM; sh_pad_K : 0 <= loop_ws_pad_K w < DIM;
  sh_spad : (loop_ws_I w * loop_ws_K w + loop_ws_K w * loop_ws_J w) * DIM <= BANK_NUM * BANK_ROWS / 2;
  sh_acc : loop_ws_I w * loop_ws_J w * DIM <= ACC_ROWS / 2 }.

(** ** Blocks *)

Lemma block_len_eq i n pad : 0 <= pad < DIM -> block_len i n pad = Z.min DIM (n * DIM - pad - i * DIM) \/ i >= n.
Proof.
  intros Hp. destruct (decide (i < n)); [left|lia]. unfold block_len, DIM in *. rewrite wrap_u_id.
  - case_match eqn:E; lia.
  - unfold in_u. case_match; lia.
Qed.

Context (Hsh : ws_shape).

Lemma len_bound i n pad : 0 <= pad < DIM -> 0 <= i < n -> 1 <= block_len i n pad <= DIM.
Proof. intros Hp Hi. destruct (block_len_eq i n pad Hp) as [->|]; unfold DIM in *; lia. Qed.

Lemma len_below i n pad r : 0 <= pad < DIM -> 0 <= i < n -> 0 <= r < block_len i n pad -> 0 <= i * DIM + r < n * DIM - pad.
Proof. intros Hp Hi. destruct (block_len_eq i n pad Hp) as [->|]; unfold DIM in *; lia. Qed.

(** Every index lies in one block. *)
Lemma index_block n pad r : 0 <= pad < DIM -> 0 <= r < n * DIM - pad ->
  0 <= r / DIM < n /\ 0 <= r mod DIM < block_len (r / DIM) n pad.
Proof.
  intros Hp Hr. assert (0 <= r / DIM < n) as Hd by (unfold DIM in *; zlia). split; [done|].
  destruct (block_len_eq (r / DIM) n pad Hp) as [->|]; unfold DIM in *; zlia.
Qed.

(** The scratchpad blocks of A and B lie in the scratchpad and apart, the blocks of
    the result in the accumulator and apart. *)
Lemma A_addr_eq i k : 0 <= i < loop_ws_I w -> 0 <= k < loop_ws_K w ->
  A_addr a w i k = A_start a + (if la_a_transpose a then k * loop_ws_I w + i else i * loop_ws_K w + k) * DIM /\
  A_start a <= A_addr a w i k /\ A_addr a w i k + DIM <= A_start a + loop_ws_I w * loop_ws_K w * DIM.
Proof.
  intros Hi Hk. destruct Hsh. set (b := if la_a_transpose a then k * loop_ws_I w + i else i * loop_ws_K w + k).
  assert (0 <= b /\ b + 1 <= loop_ws_I w * loop_ws_K w) as Hb by (unfold b; destruct (la_a_transpose a); nia).
  assert (loop_ws_I w * loop_ws_K w * DIM <= BANK_NUM * BANK_ROWS / 2) by (unfold DIM in *; nia).
  assert (0 <= A_start a <= BANK_NUM * BANK_ROWS / 2) as Hs by (unfold A_start; case_match; by vm_compute).
  unfold A_addr. fold b. unfold DIM in *. change (BANK_NUM * BANK_ROWS / 2) with 8192 in *.
  rewrite wrap_u_id by (unfold in_u; lia). lia.
Qed.

Lemma B_addr_eq j k : 0 <= j < loop_ws_J w -> 0 <= k < loop_ws_K w ->
  B_addr a w j k = B_start a w + (if la_b_transpose a then j * loop_ws_K w + k else k * loop_ws_J w + j) * DIM /\
  B_start a w <= B_addr a w j k /\ B_addr a w j k + DIM <= B_start a w + loop_ws_K w * loop_ws_J w * DIM.
Proof.
  intros Hj Hk. destruct Hsh. set (b := if la_b_transpose a then j * loop_ws_K w + k else k * loop_ws_J w + j).
  assert (0 <= b /\ b + 1 <= loop_ws_K w * loop_ws_J w) as Hb by (unfold b; destruct (la_b_transpose a); nia).
  assert (0 <= loop_ws_K w * loop_ws_J w * DIM <= BANK_NUM * BANK_ROWS / 2) by (unfold DIM in *; nia).
  unfold B_addr. fold b. unfold B_start, DIM in *. change (BANK_NUM * BANK_ROWS / 2) with 8192 in *. change (BANK_NUM * BANK_ROWS) with 16384 in *.
  rewrite !wrap_u_id; unfold in_u; case_match; try lia; rewrite wrap_u_id by (unfold in_u; lia); lia.
Qed.

(** The two regions. *)
Lemma regions : 0 <= A_start a /\ A_start a + loop_ws_I w * loop_ws_K w * DIM <= BANK_NUM * BANK_ROWS /\
  0 <= B_start a w /\ B_start a w + loop_ws_K w * loop_ws_J w * DIM <= BANK_NUM * BANK_ROWS /\
  (A_start a + loop_ws_I w * loop_ws_K w * DIM <= B_start a w \/ B_start a w + loop_ws_K w * loop_ws_J w * DIM <= A_start a).
Proof.
  destruct Hsh. assert (0 <= loop_ws_K w * loop_ws_J w * DIM /\ 0 <= loop_ws_I w * loop_ws_K w * DIM) as [H1 H2] by (unfold DIM in *; nia).
  unfold A_start, B_start, DIM in *. change (BANK_NUM * BANK_ROWS / 2) with 8192 in *. change (BANK_NUM * BANK_ROWS) with 16384 in *.
  rewrite wrap_u_id; repeat case_match; unfold in_u; lia.
Qed.

Lemma block_row_inj n i j i' j' : 0 <= j < n -> 0 <= j' < n -> i * n + j = i' * n + j' -> i = i' /\ j = j'.
Proof. intros. assert (i = i') by nia. nia. Qed.

Lemma block_off i j : 0 <= i < loop_ws_I w -> 0 <= j < loop_ws_J w ->
  0 <= (i * loop_ws_J w + j) * DIM /\ (i * loop_ws_J w + j) * DIM + DIM <= ACC_ROWS / 2.
Proof. intros Hi Hj. destruct Hsh. unfold DIM in *. nia. Qed.
End matrices.

(** ** One block of a move *)

Section block_moves.
Context {mem : Type} `{MmuLaws mem}.
Implicit Types (m : machine mem).

Lemma block_cell_narrow base rows cols p : cols <= DIM -> p ∈ pairs rows cols -> block_cell base DIM p = (base + fst p, snd p).
Proof.
  intros Hc [Hp1 Hp2]%elem_of_pairs. unfold block_cell, DIM in *. f_equal; zlia.
Qed.

Lemma spad_shape m : mwf m -> resetted (gs m) = true ->
  v_rows (spad (gs m)) = BANK_NUM * BANK_ROWS /\ v_cols (spad (gs m)) = DIM.
Proof. intros Hwf Hr. destruct (wf_s_spad _ Hwf) as (Hrows & Hcols & _). by rewrite Hr in *. Qed.

Lemma wp_load_block addr id rows cols base stride scale Q m :
  mwf m -> resetted (gs m) = true -> 1 <= rows <= DIM -> 1 <= cols <= DIM -> 0 <= base -> base + DIM <= BANK_NUM * BANK_ROWS ->
  ld_entry (ld (gs m)) id stride DIM false scale -> scale_total scale -> addr <> 0 ->
  (forall p, p ∈ pairs rows cols -> mem_readable 1 (dram m) (dram_elem addr stride 1 p)) ->
  (forall v, mwf (set_vec spad_lens v m) ->
     (forall p, p ∈ pairs rows cols ->
        vget v (base + fst p) (snd p) = default 0 (mvin_scale (mem_int 1 (dram m) (dram_elem addr stride 1 p)) scale)) ->
     (forall r c, r < base \/ base + DIM <= r -> vget v r c = vget (spad (gs m)) r c) -> Q tt (set_vec spad_lens v m)) ->
  wp (mvin addr (pack_block rows cols base) id) Q m.
Proof.
  intros Hwf Hrs Hr Hc Hb Hb' Hld Hsc Ha Hread HQ. destruct (spad_shape m Hwf Hrs) as [Hvr Hvc].
  destruct (spad_op_fields base) as (F1 & F2 & _); [unfold DIM in *; lia|].
  apply wp_typed; [by apply (pres_mvin _ _ _ (fun _ => True))|done|].
  apply (wp_mvin_spad addr id rows cols base stride DIM false scale);
    [split; unfold DIM, BANK_NUM, BANK_ROWS in *; lia|done|done|by unfold DIM|done|by intros _| |].
  - rewrite F2. intros p Hp. rewrite (block_cell_narrow _ rows cols) by (done || lia). apply elem_of_pairs in Hp.
    apply in_shape_spec. cbn [fst snd]. unfold DIM in *. lia.
  - rewrite F2. intros Hwf'. apply HQ; [done| |].
    + intros p Hp. transitivity (scaled_elem (dram m) addr stride scale p);
        [|unfold scaled_elem; by rewrite (proj2 (Z.eqb_neq _ _) Ha)].
      pose proof (block_cell_narrow base rows cols p ltac:(lia) Hp) as Hcell.
      replace (base + fst p) with (fst (block_cell base DIM p)) by (by rewrite Hcell).
      replace (snd p) with (snd (block_cell base DIM p)) by (by rewrite Hcell).
      rewrite vget_fill_in; [done|apply NoDup_pairs| |done]. intros q Hq. eapply block_cell_inj; [done..|by left; lia].
    + intros r c Hrc. apply vget_fill_out. intros p Hp. rewrite (block_cell_narrow base rows cols) by (done || lia).
      apply elem_of_pairs in Hp. intros [= ? ?]. lia.
Qed.
End block_moves.

(** ** The loop *)

Section run.
Context {mem : Type} `{MmuLaws mem}.
Variables (a : loop_ws_args) (w : loop_ws_regs) (s0 : gemmini_state) (d0 : mem) (sA sB sD : float32).
Implicit Types (d : mem) (m : machine mem) (s : gemmini_state) (v : vec2).

(** The elements of the operands and of the result. *)
Definition A_val (r x : Z) : Z := default 0 (mvin_scale (mem_int 1 d0 (A_ptr a w r x)) sA).
Definition B_val (x c : Z) : Z := default 0 (mvin_scale (mem_int 1 d0 (B_ptr a w x c)) sB).
Definition D_val (r c : Z) : Z :=
  if la_low_D a then default 0 (mvin_scale (mem_int 1 d0 (D_ptr a w r c)) sD) else mem_int 4 d0 (D_ptr a w r c).
Definition ws_init (e : Z * Z) : Z :=
  if la_ex_accumulate a then
    if loop_ws_D w =? 0 then vget (accumulator s0) (fst (ws_cell w e)) (snd (ws_cell w e)) else D_val (fst e) (snd e)
  else 0.
Definition ws_prod (e : Z * Z) (x : Z) : Z := A_val (fst e) x * B_val x (snd e).
(** The sum after the first [n] blocks of the inner dimension. *)
Definition ws_sum (e : Z * Z) (n : Z) : Z := s32 (ws_init e + Zsum (ws_prod e) (Z.min (n * DIM) (ws_inner w))).
Definition ws_total (e : Z * Z) : Z := s32 (ws_init e + Zsum (ws_prod e) (ws_inner w)).
Definition ws_stored (e : Z * Z) : option Z := store_value (st s0) (nrm s0) (la_full_C a) (ws_total e).

(** The addresses of A and B. *)
Inductive ws_operand : Z -> Prop :=
  | ws_op_A r x : 0 <= r < ws_rows w -> 0 <= x < ws_inner w -> ws_operand (A_ptr a w r x)
  | ws_op_B x c : 0 <= x < ws_inner w -> 0 <= c < ws_cols w -> ws_operand (B_ptr a w x c).

Definition ws_elems : list (Z * Z) := pairs (ws_rows w) (ws_cols w).

(** What the loop needs of the configuration, of the operands in memory, and of
    the destination of the result. *)
Record ws_configured : Prop := {
  wc_shape : ws_shape w;
  wc_reset : resetted s0 = true; wc_stat : is_Some (get_stat (nrm s0));
  wc_A : ld_entry (ld s0) 0 (loop_ws_A_stride w) DIM false sA;
  wc_B : ld_entry (ld s0) 1 (loop_ws_B_stride w) DIM false sB;
  wc_D : ld_entry (ld s0) 2 (loop_ws_D_stride w * size_D a) DIM (la_low_D a) sD;
  wc_scales : scale_total sA /\ scale_total sB /\ scale_total sD;
  wc_mode : mode (ex s0) = WS; wc_c_stride : c_stride (ex s0) = 1; wc_a_stride : a_stride (ex s0) = 1;
  wc_trans_A : a_transpose (ex s0) = la_a_transpose a; wc_trans_B : b_transpose (ex s0) = la_b_transpose a;
  wc_pool : pool_stride (st s0) = 0;
  wc_act : la_act a <> act_to_Z LAYERNORM /\ la_act a <> act_to_Z SOFTMAX; wc_resadd : la_is_resadd a = false }.

Record ws_memory : Prop := {
  wm_read p : ws_operand p -> 0 < p < 2 ^ 64 /\ mem_readable 1 d0 p;
  wm_D r c : loop_ws_D w <> 0 -> 0 <= r < ws_rows w -> 0 <= c < ws_cols w ->
    0 < D_ptr a w r c < 2 ^ 64 /\ mem_readable (size_D a) d0 (D_ptr a w r c) }.

Record ws_output : Prop := {
  wo_stride_C : store_stride (st s0) = loop_ws_C_stride w * size_C a;
  wo_addr e : e ∈ ws_elems -> 0 <= C_ptr a w e < 2 ^ 64;
  wo_write e : e ∈ ws_elems -> mem_writable (size_C a) d0 (C_ptr a w e);
  wo_disjoint : elems_disjoint (size_C a) (ws_rows w) (ws_cols w) (C_ptr a w);
  wo_alias e p b : e ∈ ws_elems -> ws_operand p -> span (size_C a) (C_ptr a w e) b -> span 1 p b -> False;
  wo_value e : e ∈ ws_elems -> is_Some (ws_stored e) }.

Context (Hcf : ws_configured) (Hmem : ws_memory) (Hout : loop_ws_C w <> 0 -> ws_output).

(** What no step of the loop changes. *)
Record steady (s : gemmini_state) : Prop := {
  sd_wf : wf s; sd_reset : resetted s = true; sd_ld : ld s = ld s0; sd_st : st s = st s0; sd_ex : ex s = ex s0;
  sd_norm : norm_same (nrm s0) (nrm s) }.

Lemma steady_spad v m : steady (gs m) -> mwf (set_vec spad_lens v m) -> steady (gs (set_vec spad_lens v m)).
Proof. intros [] ?. by split. Qed.
Lemma steady_acc v m : steady (gs m) -> mwf (set_vec acc_lens v m) -> steady (gs (set_vec acc_lens v m)).
Proof. intros [] ?. by split. Qed.

(** Memory that still holds the operands. *)
Definition holds_operands (d : mem) : Prop := forall p, ws_operand p -> mem_int 1 d p = mem_int 1 d0 p /\ mem_readable 1 d p.

(** Loaded blocks. *)
Definition A_loaded (v : vec2) (i k : Z) : Prop :=
  forall r x, 0 <= r < block_len i (loop_ws_I w) (loop_ws_pad_I w) -> 0 <= x < block_len k (loop_ws_K w) (loop_ws_pad_K w) ->
    vget v (A_addr a w i k + (if la_a_transpose a then x else r)) (if la_a_transpose a then r else x) = A_val (i * DIM + r) (k * DIM + x).
Definition B_loaded (v : vec2) (j k : Z) : Prop :=
  forall x c, 0 <= x < block_len k (loop_ws_K w) (loop_ws_pad_K w) -> 0 <= c < block_len j (loop_ws_J w) (loop_ws_pad_J w) ->
    vget v (B_addr a w j k + (if la_b_transpose a then c else x)) (if la_b_transpose a then x else c) = B_val (k * DIM + x) (j * DIM + c).

Lemma A_base i k : 0 <= i < loop_ws_I w -> 0 <= k < loop_ws_K w ->
  0 < A_ptr a w (i * DIM) (k * DIM) < 2 ^ 64.
Proof.
  intros Hi Hk. apply (wm_read Hmem). destruct (wc_shape Hcf). apply ws_op_A; unfold ws_rows, ws_inner, DIM in *; lia.
Qed.
Lemma B_base j k : 0 <= j < loop_ws_J w -> 0 <= k < loop_ws_K w ->
  0 < B_ptr a w (k * DIM) (j * DIM) < 2 ^ 64.
Proof.
  intros Hj Hk. apply (wm_read Hmem). destruct (wc_shape Hcf). apply ws_op_B; unfold ws_cols, ws_inner, DIM in *; lia.
Qed.

Lemma wp_loop_mvin_A i k Q m : 0 <= i < loop_ws_I w -> 0 <= k < loop_ws_K w -> steady (gs m) -> holds_operands (dram m) ->
  (forall v, mwf (set_vec spad_lens v m) -> A_loaded v i k ->
     (forall r c, r < A_addr a w i k \/ A_addr a w i k + DIM <= r -> vget v r c = vget (spad (gs m)) r c) ->
     Q tt (set_vec spad_lens v m)) ->
  wp (loop_ws_mvin_A a w i k) Q m.
Proof.
  intros Hi Hk Hs Hd HQ. pose proof (wc_shape Hcf) as Hsh. pose proof (regions a w Hsh) as (R1 & R2 & _).
  pose proof (A_addr_eq a w Hsh i k Hi Hk) as (_ & Ha1 & Ha2).
  pose proof (len_bound i (loop_ws_I w) (loop_ws_pad_I w) (sh_pad_I _ Hsh) Hi) as HlI.
  pose proof (len_bound k (loop_ws_K w) (loop_ws_pad_K w) (sh_pad_K _ Hsh) Hk) as HlK.
  unfold loop_ws_mvin_A. cbv zeta.
  match goal with |- wp (mvin ?p _ _) _ _ => assert (p = A_ptr a w (i * DIM) (k * DIM)) as -> end.
  { pose proof (A_base i k Hi Hk) as Hb. unfold A_ptr, sizeof_elem_t in *. destruct (la_a_transpose a);
      (rewrite wrap_u_id; [lia|]); unfold in_u; lia. }
  set (lI := block_len i (loop_ws_I w) (loop_ws_pad_I w)) in *. set (lK := block_len k (loop_ws_K w) (loop_ws_pad_K w)) in *.
  assert (forall p, p ∈ pairs (if la_a_transpose a then lK else lI) (if la_a_transpose a then lI else lK) ->
    let r := if la_a_transpose a then snd p else fst p in let x := if la_a_transpose a then fst p else snd p in
    dram_elem (A_ptr a w (i * DIM) (k * DIM)) (loop_ws_A_stride w) 1 p = A_ptr a w (i * DIM + r) (k * DIM + x) /\
    ws_operand (A_ptr a w (i * DIM + r) (k * DIM + x))) as Hel.
  { intros p [Hp1 Hp2]%elem_of_pairs r x. split.
    - unfold dram_elem, A_ptr, r, x. destruct (la_a_transpose a); lia.
    - apply ws_op_A; unfold ws_rows, ws_inner; apply len_below; try apply Hsh; try done;
        unfold r, x; destruct (la_a_transpose a); done. }
  apply (wp_load_block _ _ _ _ _ (loop_ws_A_stride w) sA); [apply Hs|apply Hs|destruct (la_a_transpose a); lia..| | | | | | |].
  - lia.
  - lia.
  - rewrite (sd_ld _ Hs). apply Hcf.
  - apply Hcf.
  - pose proof (A_base i k Hi Hk). lia.
  - intros p Hp. destruct (Hel p Hp) as [-> Ho]. by apply Hd.
  - intros v Hwf Hv Hf. apply HQ; [done| |done]. intros r x Hr Hx.
    set (p := if la_a_transpose a then (x, r) else (r, x)).
    assert (p ∈ pairs (if la_a_transpose a then lK else lI) (if la_a_transpose a then lI else lK)) as Hp.
    { apply elem_of_pairs. unfold p. by destruct (la_a_transpose a). }
    destruct (Hel p Hp) as [He Ho]. specialize (Hv p Hp). rewrite He in Hv. destruct (Hd _ Ho) as [Hi0 _]. rewrite Hi0 in Hv.
    unfold A_val. unfold p in Hv. destruct (la_a_transpose a); exact Hv.
Qed.

Lemma wp_loop_mvin_B j k Q m : 0 <= j < loop_ws_J w -> 0 <= k < loop_ws_K w -> steady (gs m) -> holds_operands (dram m) ->
  (forall v, mwf (set_vec spad_lens v m) -> B_loaded v j k ->
     (forall r c, r < B_addr a w j k \/ B_addr a w j k + DIM <= r -> vget v r c = vget (spad (gs m)) r c) ->
     Q tt (set_vec spad_lens v m)) ->
  wp (loop_ws_mvin_B a w j k) Q m.
Proof.
  intros Hj Hk Hs Hd HQ. pose proof (wc_shape Hcf) as Hsh. pose proof (regions a w Hsh) as (_ & _ & R1 & R2 & _).
  pose proof (B_addr_eq a w Hsh j k Hj Hk) as (_ & Ha1 & Ha2).
  pose proof (len_bound j (loop_ws_J w) (loop_ws_pad_J w) (sh_pad_J _ Hsh) Hj) as HlJ.
  pose proof (len_bound k (loop_ws_K w) (loop_ws_pad_K w) (sh_pad_K _ Hsh) Hk) as HlK.
  unfold loop_ws_mvin_B. cbv zeta.
  match goal with |- wp (mvin ?p _ _) _ _ => assert (p = B_ptr a w (k * DIM) (j * DIM)) as -> end.
  { pose proof (B_base j k Hj Hk) as Hb. unfold B_ptr, sizeof_elem_t in *. destruct (la_b_transpose a);
      (rewrite wrap_u_id; [lia|]); unfold in_u; lia. }
  set (lJ := block_len j (loop_ws_J w) (loop_ws_pad_J w)) in *. set (lK := block_len k (loop_ws_K w) (loop_ws_pad_K w)) in *.
  assert (forall p, p ∈ pairs (if la_b_transpose a then lJ else lK) (if la_b_transpose a then lK else lJ) ->
    let x := if la_b_transpose a then snd p else fst p in let c := if la_b_transpose a then fst p else snd p in
    dram_elem (B_ptr a w (k * DIM) (j * DIM)) (loop_ws_B_stride w) 1 p = B_ptr a w (k * DIM + x) (j * DIM + c) /\
    ws_operand (B_ptr a w (k * DIM + x) (j * DIM + c))) as Hel.
  { intros p [Hp1 Hp2]%elem_of_pairs x c. split.
    - unfold dram_elem, B_ptr, x, c. destruct (la_b_transpose a); lia.
    - apply ws_op_B; unfold ws_cols, ws_inner; apply len_below; try apply Hsh; try done;
        unfold c, x; destruct (la_b_transpose a); done. }
  apply (wp_load_block _ _ _ _ _ (loop_ws_B_stride w) sB); [apply Hs|apply Hs|destruct (la_b_transpose a); lia..| | | | | | |].
  - lia.
  - lia.
  - rewrite (sd_ld _ Hs). apply Hcf.
  - apply Hcf.
  - pose proof (B_base j k Hj Hk). lia.
  - intros p Hp. destruct (Hel p Hp) as [-> Ho]. by apply Hd.
  - intros v Hwf Hv Hf. apply HQ; [done| |done]. intros x c Hx Hc.
    set (p := if la_b_transpose a then (c, x) else (x, c)).
    assert (p ∈ pairs (if la_b_transpose a then lJ else lK) (if la_b_transpose a then lK else lJ)) as Hp.
    { apply elem_of_pairs. unfold p. by destruct (la_b_transpose a). }
    destruct (Hel p Hp) as [He Ho]. specialize (Hv p Hp). rewrite He in Hv. destruct (Hd _ Ho) as [Hi0 _]. rewrite Hi0 in Hv.
    unfold B_val. unfold p in Hv. destruct (la_b_transpose a); exact Hv.
Qed.

(** ** The block product *)

(** The weights in the array: the block of B, 0 outside it. *)
Definition W_val (j k x c : Z) : Z :=
  if (x <? block_len k (loop_ws_K w) (loop_ws_pad_K w)) && (c <? block_len j (loop_ws_J w) (loop_ws_pad_J w))
  then B_val (k * DIM + x) (j * DIM + c) else 0.
Definition W_loaded (v : vec2) (j k : Z) : Prop :=
  forall x c, 0 <= x < DIM -> 0 <= c < DIM -> vget v x c = W_val j k x c.

(** The contribution of block [k] to an element. *)
Definition block_prod (k : Z) (e : Z * Z) : Z :=
  Zsum (fun x => ws_prod e (k * DIM + x)) (block_len k (loop_ws_K w) (loop_ws_pad_K w)).

Lemma steady_shapes m : steady (gs m) ->
  square (pe_state (gs m)) /\ cells_typed (gs m) /\
  (v_rows (spad (gs m)) = BANK_NUM * BANK_ROWS /\ v_cols (spad (gs m)) = DIM) /\
  (v_rows (accumulator (gs m)) = ACC_ROWS /\ v_cols (accumulator (gs m)) = DIM).
Proof.
  intros [Hwf Hr _ _ _ _]. destruct (wf_s_pe _ Hwf) as (P1 & P2 & P3). rewrite Hr in *.
  destruct (wf_s_acc _ Hwf) as (A1 & A2 & _), (wf_s_spad _ Hwf) as (B1 & B2 & B3). rewrite Hr in *. done.
Qed.

(** The operands of the step, as the array reads them. *)
Section step.
Context (i j k : Z) (Hi : 0 <= i < loop_ws_I w) (Hj : 0 <= j < loop_ws_J w) (Hk : 0 <= k < loop_ws_K w).
Notation lI := (block_len i (loop_ws_I w) (loop_ws_pad_I w)).
Notation lJ := (block_len j (loop_ws_J w) (loop_ws_pad_J w)).
Notation lK := (block_len k (loop_ws_K w) (loop_ws_pad_K w)).
Definition step_off : Z := (i * loop_ws_J w + j) * DIM.
Definition step_acc : bool := la_ex_accumulate a || negb (k =? 0).
Definition step_pre : preload_regs :=
  {| preload_sp_addr := if i =? 0 then B_addr a w j k else GARBAGE_ADDR; output_sp_addr := acc_op step_acc (la_full_C a) step_off;
     preload_cols := lJ; preload_rows := lK; output_cols := lJ; output_rows := lI |}.
Notation a_op := (pack_block lI lK (A_addr a w i k)).
Notation bd_op := (pack_block DIM DIM GARBAGE_ADDR).

Lemma step_lens : 1 <= lI <= DIM /\ 1 <= lJ <= DIM /\ 1 <= lK <= DIM.
Proof. destruct (wc_shape Hcf). split_and!; by apply len_bound. Qed.

Lemma step_off_bound : 0 <= step_off /\ step_off + DIM <= ACC_ROWS / 2.
Proof. apply block_off; [apply Hcf|done|done]. Qed.

Lemma C_addr_op : C_addr a w i j = acc_op true (la_full_C a) step_off.
Proof.
  pose proof step_off_bound as [Ho1 Ho2]. unfold ACC_ROWS, DIM in *. change (1024 / 2) with 512 in *.
  unfold C_addr, acc_op. fold step_off. unfold C_start. change (3 ≪ (ADDR_LEN - 2)) with (3 * 2 ^ 30).
  replace ((3 * 2 ^ 30) |ᵇ (b2z (la_full_C a) ≪ (ADDR_LEN - 3))) with (3 * 2 ^ 30 + b2z (la_full_C a) * 2 ^ 29)
    by (by destruct (la_full_C a)).
  rewrite wrap_u_id; unfold in_u; destruct (la_full_C a); cbn [b2z]; unfold step_off, DIM in *; lia.
Qed.

Lemma step_out_addr :
  (if negb (la_ex_accumulate a) && (k =? 0) then C_addr a w i j &ᵇ u32 (Z.lnot (1 ≪ (ADDR_LEN - 2))) else C_addr a w i j) =
  acc_op step_acc (la_full_C a) step_off.
Proof.
  pose proof step_off_bound as [Ho1 Ho2]. unfold ACC_ROWS, DIM in *. change (1024 / 2) with 512 in *. rewrite C_addr_op.
  unfold step_acc. destruct (la_ex_accumulate a), (k =? 0); cbn [negb andb orb]; try done.
  apply acc_op_overwrite. unfold ACC_ROWS. lia.
Qed.

Lemma A_addr_op : 0 <= A_addr a w i k /\ A_addr a w i k + DIM <= BANK_NUM * BANK_ROWS.
Proof.
  pose proof (A_addr_eq a w (wc_shape Hcf) i k Hi Hk) as (_ & ? & ?). pose proof (regions a w (wc_shape Hcf)). lia.
Qed.
Lemma B_addr_op : 0 <= B_addr a w j k /\ B_addr a w j k + DIM <= BANK_NUM * BANK_ROWS.
Proof.
  pose proof (B_addr_eq a w (wc_shape Hcf) j k Hj Hk) as (_ & ? & ?). pose proof (regions a w (wc_shape Hcf)). lia.
Qed.

Lemma a_op_ok : block_ok lI lK (A_addr a w i k).
Proof. pose proof step_lens. pose proof A_addr_op. unfold DIM, BANK_NUM, BANK_ROWS in *. split; lia. Qed.

Lemma bd_op_ok : block_ok DIM DIM GARBAGE_ADDR.
Proof. split; by vm_compute. Qed.

Section computed.
Context (s : gemmini_state) (Hex : ex s = ex s0) (Hpre : pre s = step_pre).
Context (HA : A_loaded (spad s) i k).
Context (HW : if i =? 0 then B_loaded (spad s) j k else W_loaded (pe_state s) j k).

Lemma step_A_elem r x : 0 <= r < lI -> 0 <= x < DIM ->
  A_elem s a_op r x = if x <? lK then A_val (i * DIM + r) (k * DIM + x) else 0.
Proof.
  intros Hr Hx. pose proof A_addr_op as [Ha1 Ha2]. unfold A_elem, operand.
  rewrite (pack_rows _ _ _ a_op_ok), (pack_cols _ _ _ a_op_ok), (pack_low32 _ _ _ a_op_ok).
  rewrite (proj2 (Z.ltb_lt r lI)) by lia. cbn [andb].
  destruct (Z.ltb_spec x lK); [|done].
  destruct (spad_op_fields (A_addr a w i k)) as (_ & _ & _ & -> & _); [unfold DIM in *; lia|].
  rewrite Hex, (wc_a_stride Hcf), (wc_trans_A Hcf), Z.mul_1_l. apply HA; lia.
Qed.

Lemma step_W x c : 0 <= x < DIM -> 0 <= c < DIM -> stationary s (i =? 0) x c = W_val j k x c.
Proof.
  intros Hx Hc. unfold stationary. destruct (i =? 0) eqn:Ei; [|by apply HW].
  pose proof B_addr_op as [Ha1 Ha2]. unfold preload_elem, operand, W_val. rewrite Hpre, Hex. unfold step_pre. rewrite Ei.
  cbn [preload_sp_addr preload_rows preload_cols].
  destruct ((x <? lK) && (c <? lJ)) eqn:E; [|done]. apply andb_true_iff in E as [?%Z.ltb_lt ?%Z.ltb_lt].
  destruct (spad_op_fields (B_addr a w j k)) as (_ & _ & _ & -> & _); [unfold DIM in *; lia|].
  rewrite (wc_mode Hcf), (wc_trans_B Hcf), bool_decide_true by done. cbn [andb]. apply HW; lia.
Qed.

Lemma step_product p : p ∈ pairs lI lJ ->
  ws_product s a_op bd_op (i =? 0) p = s32 (block_prod k (i * DIM + fst p, j * DIM + snd p)).
Proof.
  intros [Hp1 Hp2]%elem_of_pairs. pose proof step_lens as (_ & HlJ & HlK). unfold ws_product, dot.
  assert (bias_elem s bd_op (fst p) (snd p) = 0) as ->.
  { unfold bias_elem, operand. rewrite (pack_low32 _ _ _ bd_op_ok). by destruct (_ && _). }
  rewrite Z.add_0_l. f_equal. replace DIM with (lK + (DIM - lK)) at 1 by lia. rewrite Zsum_app by lia.
  rewrite (Zsum_zero _ (DIM - lK)), Z.add_0_r.
  - unfold block_prod. apply Zsum_ext. intros x Hx. rewrite step_A_elem, step_W by lia. unfold W_val, ws_prod. cbn [fst snd].
    by rewrite (proj2 (Z.ltb_lt x lK)), (proj2 (Z.ltb_lt (snd p) lJ)) by lia.
  - intros x Hx. rewrite step_A_elem by lia. by rewrite (proj2 (Z.ltb_ge (lK + x) lK)) by lia.
Qed.

Lemma step_out_cell p : out_cell s p = (step_off + fst p, snd p).
Proof.
  pose proof step_off_bound as [Ho1 Ho2]. unfold out_cell. rewrite Hpre, Hex, (wc_c_stride Hcf), Z.mul_1_l. cbn [step_pre output_sp_addr].
  destruct (acc_op_fields step_acc (la_full_C a) step_off) as (_ & _ & _ & _ & _ & -> & _); [|done].
  unfold ACC_ROWS, DIM in *. change (1024 / 2) with 512 in *. lia.
Qed.
End computed.

Lemma step_ws_operands m : steady (gs m) -> pre (gs m) = step_pre -> ws_operands (gs m) a_op bd_op (i =? 0).
Proof.
  intros Hs Hpre. destruct (steady_shapes m Hs) as (Hsq & Hty & [Hsr Hsc] & [Har Hac]). pose proof (sd_ex _ Hs) as Hex.
  pose proof step_lens as (HlI & HlJ & HlK). pose proof step_off_bound as [Ho1 Ho2].
  pose proof A_addr_op as [HA1 HA2]. pose proof B_addr_op as [HB1 HB2].
  destruct (spad_op_fields (A_addr a w i k)) as (_ & _ & _ & HgA & _); [unfold DIM in *; lia|].
  destruct (spad_op_fields (B_addr a w j k)) as (_ & _ & _ & HgB & HbB); [unfold DIM in *; lia|].
  destruct (acc_op_fields step_acc (la_full_C a) step_off) as (_ & F1 & _ & _ & F2 & _);
    [unfold ACC_ROWS, DIM in *; change (1024 / 2) with 512 in *; lia|].
  split; rewrite ?Hpre, ?Hex; cbn [step_pre output_sp_addr].
  - apply Hcf.
  - done.
  - done.
  - intros Ei. unfold preload_in. rewrite Hpre, Hex. cbn [step_pre preload_sp_addr preload_rows preload_cols]. rewrite Ei.
    split; [done|]. intros _ x c Hx Hc _ _. apply in_shape_spec. unfold DIM in *. case_match; lia.
  - split; [by rewrite (pack_low32 _ _ _ a_op_ok)|]. rewrite (pack_low32 _ _ _ a_op_ok), Hex, (wc_a_stride Hcf).
    intros _ r x Hr Hx _ _. apply in_shape_spec. unfold DIM in *. case_match; lia.
  - unfold bias_in. rewrite (pack_low32 _ _ _ bd_op_ok). by intros Hg.
  - unfold out_ready, out_in. rewrite Hpre, Hex, (wc_c_stride Hcf). cbn [step_pre output_rows output_cols output_sp_addr]. rewrite F1.
    intros _. split_and!; [done|lia|lia|].
    intros p [Hp1 Hp2]%elem_of_pairs. rewrite (step_out_cell (gs m) Hex Hpre). apply in_shape_spec. cbn [fst snd].
    unfold ACC_ROWS, DIM in *. change (1024 / 2) with 512 in *. lia.
Qed.

(** The machine after the block product. *)
Definition computed (m : machine mem) (va vp : vec2) : machine mem :=
  set_vec acc_lens va (set_vec pe_lens vp (Machine ((gs m) <| pre := step_pre |>) (dram m) (rand_pos m))).

Lemma wp_preload_step Q m :
  Q tt (Machine ((gs m) <| pre := step_pre |>) (dram m) (rand_pos m)) ->
  wp (preload (pack_block lK lJ (if i =? 0 then B_addr a w j k else GARBAGE_ADDR))
              (pack_block lI lJ (acc_op step_acc (la_full_C a) step_off))) Q m.
Proof.
  intros HQ. pose proof step_lens as (HlI & HlJ & HlK). pose proof step_off_bound as [Ho1 Ho2]. pose proof B_addr_op as [HB1 HB2].
  assert (block_ok lK lJ (if i =? 0 then B_addr a w j k else GARBAGE_ADDR)) as Hok1.
  { unfold DIM, GARBAGE_ADDR, BANK_NUM, BANK_ROWS in *. split; [lia..|]. case_match; lia. }
  assert (block_ok lI lJ (acc_op step_acc (la_full_C a) step_off)) as Hok2.
  { destruct (acc_op_fields step_acc (la_full_C a) step_off) as [Hr _];
      [unfold ACC_ROWS, DIM in *; change (1024 / 2) with 512 in *; lia|]. unfold DIM in *. split; lia. }
  unfold preload. apply wp_upd_gs. unfold step_pre in HQ.
  rewrite (pack_low32 _ _ _ Hok1), (pack_low32 _ _ _ Hok2).
  pose proof (pack_rows _ _ _ Hok1) as R1. pose proof (pack_rows _ _ _ Hok2) as R2.
  pose proof (pack_cols _ _ _ Hok1) as R3. pose proof (pack_cols _ _ _ Hok2) as R4. unfold sp_rows, sp_cols in R1, R2, R3, R4.
  rewrite R1, R2, R3, R4. exact HQ.
Qed.

Lemma wp_loop_compute Q m : steady (gs m) -> A_loaded (spad (gs m)) i k ->
  (if i =? 0 then B_loaded (spad (gs m)) j k else W_loaded (pe_state (gs m)) j k) ->
  (forall va vp, steady (gs (computed m va vp)) -> W_loaded vp j k ->
     (forall r c, 0 <= r < lI -> 0 <= c < lJ ->
        vget va (step_off + r) c =
        s32 ((if step_acc then vget (accumulator (gs m)) (step_off + r) c else 0) + block_prod k (i * DIM + r, j * DIM + c))) ->
     (forall r c, r < step_off \/ step_off + DIM <= r -> vget va r c = vget (accumulator (gs m)) r c) ->
     Q tt (computed m va vp)) ->
  wp (loop_ws_compute a w i j k) Q m.
Proof.
  intros Hs HA HW HQ. pose proof step_lens as (HlI & HlJ & HlK). pose proof step_off_bound as [Ho1 Ho2].
  unfold loop_ws_compute. cbv zeta. rewrite step_out_addr. apply wp_bind.
  apply wp_typed; [by apply (pres_preload _ _ (fun _ => True))|apply Hs|]. apply wp_preload_step.
  set (m1 := Machine _ (dram m) (rand_pos m)). intros Hwf1.
  assert (steady (gs m1)) as Hs1 by (destruct Hs; by split).
  assert (pre (gs m1) = step_pre) as Hpre by done. pose proof (sd_ex _ Hs1) as Hex1.
  apply wp_typed; [by apply (pres_compute _ _ _ (fun _ => True))|done|]. apply wp_compute_ws; [by apply step_ws_operands|].
  destruct (acc_op_fields step_acc (la_full_C a) step_off) as (_ & F1 & Facc & _ & F2 & _);
    [unfold ACC_ROWS, DIM in *; change (1024 / 2) with 512 in *; lia|].
  intros m2 [Hpe Hwb] Hwf2. destruct (written_acc _ _ _ Hwb) as [[Hin Hfr] Heq]; [by rewrite Hpre..|].
  rewrite Hpre in Hin, Hfr. cbn [step_pre output_rows output_cols output_sp_addr] in Hin, Hfr. rewrite Facc in Hin.
  assert (m2 = computed m (accumulator (gs m2)) (pe_state (gs m2))) as Heq' by exact Heq. rewrite Heq'.
  apply HQ.
  - rewrite <- Heq'. rewrite Heq' in Hwf2 |- *. destruct Hs. by split.
  - intros x c Hx Hc. rewrite Hpe by done. by apply step_W.
  - intros r c Hr Hc. specialize (Hin (r, c) ltac:(by apply elem_of_pairs)).
    rewrite (step_out_cell (gs m1) Hex1 Hpre), (step_product (gs m1)) in Hin; [|done..|by apply elem_of_pairs].
    cbn [fst snd] in Hin. rewrite Hin. change (accumulator (gs m1)) with (accumulator (gs m)).
    destruct step_acc; [by rewrite wrap_s_add_r by lia|done].
  - intros r c Hrc. rewrite Hfr; [done|]. intros p [Hp1 Hp2]%elem_of_pairs. rewrite (step_out_cell (gs m1) Hex1 Hpre).
    intros [= ? ?]. lia.
Qed.

(** ** Moves of the result and of the bias *)

Definition block_elems : list (Z * Z) := (fun p => (i * DIM + fst p, j * DIM + snd p)) <$> pairs lI lJ.

Lemma block_elems_in e : e ∈ block_elems -> e ∈ ws_elems.
Proof.
  intros (p & -> & [Hp1 Hp2]%elem_of_pairs)%list_elem_of_fmap. destruct (wc_shape Hcf).
  apply elem_of_pairs. cbn [fst snd]. unfold ws_rows, ws_cols. split; by apply len_below.
Qed.

(** A narrow block of the accumulator at the offset of this step. *)
Lemma step_block_in v : v_rows v = ACC_ROWS -> v_cols v = DIM -> block_in v lI lJ step_off DIM.
Proof.
  intros Hr Hc p Hp. pose proof step_lens. pose proof step_off_bound as [Ho1 Ho2].
  rewrite (block_cell_narrow _ lI lJ) by (done || lia). apply elem_of_pairs in Hp. apply in_shape_spec. cbn [fst snd].
  unfold ACC_ROWS, DIM in *. change (1024 / 2) with 512 in *. lia.
Qed.

Lemma wp_loop_mvout Q m : loop_ws_C w <> 0 -> steady (gs m) ->
  (forall r c, 0 <= r < lI -> 0 <= c < lJ -> vget (accumulator (gs m)) (step_off + r) c = ws_total (i * DIM + r, j * DIM + c)) ->
  (forall e, e ∈ block_elems -> mem_writable (size_C a) (dram m) (C_ptr a w e)) ->
  (forall m', steady (gs m') -> spad (gs m') = spad (gs m) -> accumulator (gs m') = accumulator (gs m) ->
     pe_state (gs m') = pe_state (gs m) ->
     store_post (size_C a) (C_ptr a w) (fun e => default 0 (ws_stored e)) block_elems (dram m) (dram m') -> Q tt m') ->
  wp (loop_ws_mvout a w i j) Q m.
Proof.
  intros HC Hs Hval Hw HQ. pose proof (Hout HC) as Ho. pose proof step_lens as (HlI & HlJ & _). pose proof step_off_bound as [Ho1 Ho2].
  destruct (steady_shapes m Hs) as (_ & _ & _ & Har & Hac).
  destruct (acc_op_fields true (la_full_C a) step_off) as (Fr & Facc & _ & Ffull & _ & _ & F26 & Fcmd);
    [unfold ACC_ROWS, DIM in *; change (1024 / 2) with 512 in *; lia|].
  set (sp := acc_op true (la_full_C a) step_off) in *.
  assert (out_size sp = size_C a) as Hsz by (unfold out_size, size_C; rewrite Facc, Ffull; by destruct (la_full_C a)).
  assert (forall p, p ∈ pairs lI lJ -> (i * DIM + fst p, j * DIM + snd p) ∈ block_elems) as Hel
    by (intros p Hp; apply list_elem_of_fmap; by exists p).
  assert (forall p, dram_elem (C_ptr a w (i * DIM, j * DIM)) (store_stride (st (gs m))) (size_C a) p =
    C_ptr a w (i * DIM + fst p, j * DIM + snd p)) as Hptr.
  { intros p. rewrite (sd_st _ Hs), (wo_stride_C Ho). unfold dram_elem, C_ptr. cbn [fst snd]. lia. }
  assert (forall p, p ∈ pairs lI lJ -> out_value (gs m) sp p = ws_stored (i * DIM + fst p, j * DIM + snd p)) as Hov.
  { intros p Hp. unfold out_value. rewrite Facc, F26, Ffull, (block_cell_narrow _ lI lJ) by (done || lia). cbn [fst snd].
    apply elem_of_pairs in Hp. rewrite Hval, (sd_st _ Hs) by lia. apply store_value_same, Hs. }
  unfold loop_ws_mvout. cbv zeta. rewrite C_addr_op. fold sp.
  match goal with |- wp (mvout ?p _) _ _ => assert (p = C_ptr a w (i * DIM, j * DIM)) as -> end.
  { assert ((i * DIM, j * DIM) ∈ ws_elems) as He.
    { apply block_elems_in. apply list_elem_of_fmap. exists (0, 0). cbn [fst snd]. rewrite !Z.add_0_r. split; [done|].
      apply elem_of_pairs. cbn [fst snd]. lia. }
    pose proof (wo_addr Ho _ He) as Hb. unfold C_ptr, size_C in *. cbn [fst snd] in *. rewrite wrap_u_id; [lia|]. unfold in_u. lia. }
  apply wp_typed; [by apply (pres_mvout _ _ (fun _ => True))|apply Hs|].
  apply wp_mvout; rewrite ?F26, ?Hsz, ?(sd_st _ Hs).
  - unfold DIM in *. split; lia.
  - apply Hcf.
  - done.
  - destruct (sd_norm _ Hs) as (_ & _ & _ & _ & _ & ? & r' & _ & Hr' & _). by exists r'.
  - by apply step_block_in.
  - by rewrite Facc.
  - intros p Hp. rewrite Hov by done. by apply (wo_value Ho), block_elems_in, Hel.
  - intros p q b Hp Hq. rewrite <- (sd_st _ Hs), !Hptr. intros Hb Hb'.
    pose proof (wo_disjoint Ho _ _ b (block_elems_in _ (Hel p Hp)) (block_elems_in _ (Hel q Hq)) Hb Hb') as E.
    destruct p, q. injection E. intros. f_equal; cbn [fst snd] in *; lia.
  - intros p Hp. rewrite <- (sd_st _ Hs), Hptr. by apply Hw, Hel.
  - intros m' [_ (n' & Hn & Hg)] Hpost Hwf. rewrite <- (sd_st _ Hs) in Hpost. apply HQ; rewrite ?Hg; try done.
    + destruct Hs. unfold mwf in Hwf. rewrite Hg in Hwf. split; try done. by eapply norm_same_trans.
    + unfold block_elems. apply store_post_fmap. eapply store_post_ext in Hpost; [|intros p Hp; by rewrite Hov].
      destruct Hpost as [Hd Hv]. split.
      * eapply mem_differ_weaken; [exact Hd|]. intros b (p & Hp & Hb). exists p. split; [done|]. by rewrite <- Hptr.
      * intros p Hp. rewrite <- Hptr. by apply Hv.
Qed.

Lemma wp_loop_mvin_D_block Q m : loop_ws_D w <> 0 -> steady (gs m) -> dram m = d0 ->
  (forall v, steady (gs (set_vec acc_lens v m)) ->
     (forall r c, 0 <= r < lI -> 0 <= c < lJ -> vget v (step_off + r) c = D_val (i * DIM + r) (j * DIM + c)) ->
     (forall r c, r < step_off \/ step_off + DIM <= r -> vget v r c = vget (accumulator (gs m)) r c) ->
     Q tt (set_vec acc_lens v m)) ->
  wp (mvin (u64 (loop_ws_D w + (i * loop_ws_D_stride w + j) * DIM * size_D a))
        (pack_block lI lJ (u32 (D_start + step_off))) 2) Q m.
Proof.
  intros HD Hs Hd HQ. pose proof step_lens as (HlI & HlJ & _). pose proof step_off_bound as [Ho1 Ho2].
  destruct (steady_shapes m Hs) as (_ & _ & _ & Har & Hac). destruct (wc_shape Hcf).
  assert (u32 (D_start + step_off) = acc_op false false step_off) as ->.
  { change D_start with (2 ^ 31). unfold acc_op, ACC_ROWS, DIM in *. change (1024 / 2) with 512 in *. cbn [b2z].
    rewrite wrap_u_id by (unfold in_u; lia). lia. }
  destruct (acc_op_fields false false step_off) as (Fr & Facc & Faccum & _ & _ & F29 & _);
    [unfold ACC_ROWS, DIM in *; change (1024 / 2) with 512 in *; lia|].
  set (sp := acc_op false false step_off) in *.
  assert (forall p, p ∈ pairs lI lJ -> 0 <= i * DIM + fst p < ws_rows w /\ 0 <= j * DIM + snd p < ws_cols w) as Hin.
  { intros p [Hp1 Hp2]%elem_of_pairs. unfold ws_rows, ws_cols. split; by apply len_below. }
  assert (forall p, dram_elem (D_ptr a w (i * DIM) (j * DIM)) (loop_ws_D_stride w * size_D a) (size_D a) p =
    D_ptr a w (i * DIM + fst p) (j * DIM + snd p)) as Hptr by (intros p; unfold dram_elem, D_ptr; lia).
  assert (0 < D_ptr a w (i * DIM) (j * DIM) < 2 ^ 64) as Hb.
  { specialize (Hin (0, 0) ltac:(apply elem_of_pairs; cbn [fst snd]; lia)). cbn [fst snd] in Hin. rewrite !Z.add_0_r in Hin.
    destruct Hin as [Hin1 Hin2]. apply (wm_D Hmem _ _ HD Hin1 Hin2). }
  assert (u64 (loop_ws_D w + (i * loop_ws_D_stride w + j) * DIM * size_D a) = D_ptr a w (i * DIM) (j * DIM)) as ->.
  { unfold D_ptr in *. rewrite wrap_u_id; [lia|]. unfold in_u. lia. }
  apply wp_typed; [by apply (pres_mvin _ _ _ (fun _ => True))|apply Hs|].
  apply (wp_mvin_acc _ _ _ _ _ (loop_ws_D_stride w * size_D a) DIM (la_low_D a) sD); rewrite ?F29, ?Faccum.
  - unfold DIM in *. split; lia.
  - done.
  - rewrite (sd_ld _ Hs). apply Hcf.
  - by unfold DIM.
  - apply Hcf.
  - intros _ p Hp. change (if la_low_D a then 1 else 4) with (size_D a). rewrite Hptr, Hd.
    destruct (Hin p Hp). by apply (wm_D Hmem).
  - by apply step_block_in.
  - intros Hwf. apply HQ; [by apply steady_acc| |].
    + intros r c Hr Hc. assert ((r, c) ∈ pairs lI lJ) as Hp by (by apply elem_of_pairs).
      pose proof (block_cell_narrow step_off lI lJ (r, c) ltac:(lia) Hp) as Hcell. cbn [fst snd] in Hcell.
      match goal with |- vget (fill ?cl ?vl ?l ?v) _ _ = _ => pose proof (vget_fill_in cl vl l v (r, c) (NoDup_pairs _ _)) as Hv end.
      rewrite Hcell in Hv. cbn [fst snd] in Hv. rewrite Hv; [|intros q Hq Eq; rewrite <- Hcell in Eq; eapply block_cell_inj; [done..|by left; lia|done]|done].
      unfold acc_elem, D_val, scaled_elem. rewrite (proj2 (Z.eqb_neq (D_ptr a w (i * DIM) (j * DIM)) 0)) by lia. rewrite Hd.
      specialize (Hptr (r, c)). cbn [fst snd] in Hptr. unfold size_D, sizeof_elem_t, sizeof_acc_t in Hptr |- *. by destruct (la_low_D a); rewrite Hptr.
    + intros r c Hrc. apply vget_fill_out. intros p Hp. rewrite (block_cell_narrow step_off lI lJ) by (done || lia).
      apply elem_of_pairs in Hp. intros [= ? ?]. lia.
Qed.
End step.

(** ** The invariant of the loop nest *)

(** Block [(i', j')] is visited before [(i, j)]. *)
Definition earlier (j i j' i' : Z) : bool := (j' <? j) || (j' =? j) && (i' <? i).

(** The block of the accumulator holds the sums of [n] blocks of the inner dimension. *)
Definition acc_holds (v : vec2) (i j n : Z) : Prop :=
  0 < n \/ la_ex_accumulate a = true ->
  forall r c, 0 <= r < block_len i (loop_ws_I w) (loop_ws_pad_I w) -> 0 <= c < block_len j (loop_ws_J w) (loop_ws_pad_J w) ->
    vget v (step_off i j + r) c = ws_sum (i * DIM + r, j * DIM + c) n.

(** The elements of the result that are in memory. *)
Definition in_memory (k j i : Z) (e : Z * Z) : bool :=
  negb (loop_ws_C w =? 0) && (k =? loop_ws_K w - 1) && earlier j i (snd e / DIM) (fst e / DIM).
Definition written (k j i : Z) : list (Z * Z) := filter (fun e => in_memory k j i e = true) ws_elems.
Definition memory_holds (l : list (Z * Z)) (d : mem) : Prop :=
  store_post (size_C a) (C_ptr a w) (fun e => default 0 (ws_stored e)) l d0 d.

Record loop_inv (k j i : Z) (m : machine mem) : Prop := {
  li_steady : steady (gs m);
  li_A i' : 0 <= i' < loop_ws_I w -> 0 < j \/ i' < i -> A_loaded (spad (gs m)) i' k;
  li_W : 0 < i -> W_loaded (pe_state (gs m)) j k;
  li_acc i' j' : 0 <= i' < loop_ws_I w -> 0 <= j' < loop_ws_J w ->
    acc_holds (accumulator (gs m)) i' j' (if earlier j i j' i' then k + 1 else k);
  li_memory : memory_holds (written k j i) (dram m) }.

Lemma ws_sum_step e k : 0 <= k < loop_ws_K w ->
  s32 ((if step_acc k then ws_sum e k else 0) + block_prod k e) = ws_sum e (k + 1).
Proof.
  intros Hk. destruct (wc_shape Hcf).
  assert (ws_sum e (k + 1) = s32 (ws_init e + Zsum (ws_prod e) (k * DIM) + block_prod k e)) as ->.
  { unfold ws_sum, block_prod. rewrite <- Z.add_assoc, <- Zsum_app.
    - do 3 f_equal. destruct (block_len_eq k (loop_ws_K w) (loop_ws_pad_K w)) as [->|]; [done| |lia]. unfold ws_inner, DIM in *. lia.
    - unfold DIM. lia.
    - pose proof (len_bound k (loop_ws_K w) (loop_ws_pad_K w) ltac:(done) Hk). lia. }
  unfold step_acc. destruct (Z.eqb_spec k 0) as [->|Hne]; cbn [negb orb].
  - assert (forall n, n <= 0 -> ws_init e + Zsum (ws_prod e) n = ws_init e) as Hz by (intros n Hn; rewrite Zsum_0 by done; lia).
    rewrite (Hz (0 * DIM)) by lia. unfold ws_sum. rewrite (Hz (Z.min (0 * DIM) _)) by lia.
    destruct (la_ex_accumulate a) eqn:Ea; cbn [orb]; [by rewrite wrap_s_add_l by lia|]. unfold ws_init. by rewrite Ea.
  - rewrite orb_true_r. unfold ws_sum. rewrite wrap_s_add_l by lia. do 4 f_equal. unfold ws_inner, DIM in *. lia.
Qed.

Lemma ws_sum_all e : ws_sum e (loop_ws_K w) = ws_total e.
Proof. unfold ws_sum, ws_total. do 3 f_equal. destruct (wc_shape Hcf). unfold ws_inner, DIM in *. lia. Qed.

Lemma A_blocks_apart i i' k : 0 <= i < loop_ws_I w -> 0 <= i' < loop_ws_I w -> 0 <= k < loop_ws_K w -> i' <> i ->
  A_addr a w i' k + DIM <= A_addr a w i k \/ A_addr a w i k + DIM <= A_addr a w i' k.
Proof.
  intros Hi Hi' Hk Hne. destruct (A_addr_eq a w (wc_shape Hcf) i k Hi Hk) as [-> _].
  destruct (A_addr_eq a w (wc_shape Hcf) i' k Hi' Hk) as [-> _]. unfold DIM. destruct (la_a_transpose a); nia.
Qed.

Lemma acc_blocks_apart i j i' j' : 0 <= j < loop_ws_J w -> 0 <= j' < loop_ws_J w -> (i', j') <> (i, j) ->
  step_off i' j' + DIM <= step_off i j \/ step_off i j + DIM <= step_off i' j'.
Proof.
  intros Hj Hj' Hne. unfold step_off, DIM.
  destruct (Z.eq_dec (i * loop_ws_J w + j) (i' * loop_ws_J w + j')) as [E|]; [|lia].
  apply block_row_inj in E as [-> ->]; done.
Qed.

Lemma A_loaded_frame v v' i k : 0 <= i < loop_ws_I w -> 0 <= k < loop_ws_K w ->
  (forall r c, A_addr a w i k <= r < A_addr a w i k + DIM -> vget v' r c = vget v r c) -> A_loaded v i k -> A_loaded v' i k.
Proof.
  intros Hi Hk Hf HA r x Hr Hx. rewrite Hf; [by apply HA|]. pose proof (step_lens i 0 k) as Hl. destruct (wc_shape Hcf).
  pose proof (len_bound i (loop_ws_I w) (loop_ws_pad_I w) ltac:(done) Hi).
  pose proof (len_bound k (loop_ws_K w) (loop_ws_pad_K w) ltac:(done) Hk). case_match; lia.
Qed.

Lemma written_operands k j i d : memory_holds (written k j i) d -> holds_operands d.
Proof.
  intros [Hd _] p Hp. destruct (wm_read Hmem p Hp) as [_ Hr]. split; [|by eapply mem_readable_differ].
  eapply mem_int_differ; [exact Hd|]. intros n Hn (e & [Hin He]%list_elem_of_filter & Hb).
  unfold in_memory in Hin. destruct (Z.eqb_spec (loop_ws_C w) 0) as [|HC]; [done|].
  eapply (wo_alias (Hout HC)); [exact He|exact Hp|exact Hb|]. by exists n.
Qed.

(** ** One step of the loop nest *)

Section step_spec.
Context (i j k : Z) (Hi : 0 <= i < loop_ws_I w) (Hj : 0 <= j < loop_ws_J w) (Hk : 0 <= k < loop_ws_K w).

(** After the loads of the step: only the scratchpad has changed. *)
Record staged (m m' : machine mem) : Prop := {
  sg_steady : steady (gs m');
  sg_rest : exists v, m' = set_vec spad_lens v m;
  sg_A i' : 0 <= i' < loop_ws_I w -> 0 < j \/ i' <= i -> A_loaded (spad (gs m')) i' k }.

Lemma wp_stage_A Q m : loop_inv k j i m -> (forall m', staged m m' -> Q tt m') ->
  wp (when ((j =? 0) && negb (loop_ws_A w =? 0)) (loop_ws_mvin_A a w i k)) Q m.
Proof.
  intros [Hs HA _ _ Hd] HQ.
  assert (loop_ws_A w <> 0) as HAz.
  { destruct (wc_shape Hcf). pose proof (A_base 0 0 ltac:(lia) ltac:(lia)) as Hb. unfold A_ptr in Hb. case_match; lia. }
  apply wp_when; intros Hb.
  - apply andb_true_iff in Hb as [Hj0%Z.eqb_eq _]. apply wp_loop_mvin_A; [done..|by eapply written_operands|].
    intros v Hwf Hv Hf. apply HQ. split; [by apply steady_spad|by exists v|].
    intros i' Hi' Hlt. change (spad (gs (set_vec spad_lens v m))) with v.
    destruct (decide (i' = i)) as [->|Hne]; [done|]. eapply A_loaded_frame; [done|done| |apply (HA i'); [done|lia]].
    intros r c Hr. apply Hf. pose proof (A_blocks_apart i i' k Hi Hi' Hk Hne). lia.
  - apply andb_false_iff in Hb as [Hj0%Z.eqb_neq|Hb%negb_false_iff%Z.eqb_eq]; [|done].
    apply HQ. split; [done| |].
    + exists (spad (gs m)). symmetry. apply (set_vec_get spad_lens).
    + intros i' Hi' _. apply HA; [done|lia].
Qed.

Lemma wp_stage_B Q m m1 : loop_inv k j i m -> staged m m1 ->
  (forall m', staged m m' -> ((i =? 0) = true -> B_loaded (spad (gs m')) j k) -> Q tt m') ->
  wp (when ((i =? 0) && negb (loop_ws_B w =? 0)) (loop_ws_mvin_B a w j k)) Q m1.
Proof.
  intros [_ _ _ _ Hd] [Hs1 (v1 & ->) HA1] HQ.
  assert (loop_ws_B w <> 0) as HBz.
  { destruct (wc_shape Hcf). pose proof (B_base 0 0 ltac:(lia) ltac:(lia)) as Hb. unfold B_ptr in Hb. case_match; lia. }
  apply wp_when; intros Hb.
  - apply wp_loop_mvin_B; [done..|by eapply written_operands|].
    intros v Hwf Hv Hf. apply HQ; [split|].
    + by apply steady_spad.
    + exists v. by rewrite set_set_vec.
    + intros i' Hi' Hlt. change (spad (gs (set_vec spad_lens v _))) with v.
      eapply A_loaded_frame; [done|done| |apply (HA1 i' Hi' Hlt)]. intros r c Hr. apply Hf.
      pose proof (A_addr_eq a w (wc_shape Hcf) i' k Hi' Hk) as (_ & ? & ?). pose proof (regions a w (wc_shape Hcf)) as (_ & _ & _ & _ & Hreg).
      pose proof (B_addr_eq a w (wc_shape Hcf) j k Hj Hk) as (_ & ? & ?). lia.
    + done.
  - apply HQ; [split; [done|by exists v1|done]|]. intros E. rewrite E in Hb. cbn [andb] in Hb. by apply negb_false_iff, Z.eqb_eq in Hb.
Qed.

(** The accumulator after the product. *)
Lemma acc_step v va :
  (forall i' j', 0 <= i' < loop_ws_I w -> 0 <= j' < loop_ws_J w -> acc_holds v i' j' (if earlier j i j' i' then k + 1 else k)) ->
  (forall r c, 0 <= r < block_len i (loop_ws_I w) (loop_ws_pad_I w) -> 0 <= c < block_len j (loop_ws_J w) (loop_ws_pad_J w) ->
     vget va (step_off i j + r) c =
     s32 ((if step_acc k then vget v (step_off i j + r) c else 0) + block_prod k (i * DIM + r, j * DIM + c))) ->
  (forall r c, r < step_off i j \/ step_off i j + DIM <= r -> vget va r c = vget v r c) ->
  forall i' j', 0 <= i' < loop_ws_I w -> 0 <= j' < loop_ws_J w -> acc_holds va i' j' (if earlier j (i + 1) j' i' then k + 1 else k).
Proof.
  intros Hv Hnew Hold i' j' Hi' Hj'. destruct (decide ((i', j') = (i, j))) as [[= -> ->]|Hne].
  - assert (earlier j (i + 1) j i = true) as -> by (unfold earlier; lia). intros _ r c Hr Hc.
    rewrite Hnew, <- ws_sum_step by done. do 2 f_equal. destruct (step_acc k) eqn:Eacc; [|done].
    pose proof (Hv i j Hi Hj) as Hij. assert (earlier j i j i = false) as E by (unfold earlier; lia). rewrite E in Hij. apply Hij; [|done..].
    unfold step_acc in Eacc. apply orb_true_iff in Eacc as [?|?%negb_true_iff%Z.eqb_neq]; [by right|left; lia].
  - assert (earlier j (i + 1) j' i' = earlier j i j' i') as ->.
    { assert (i' <> i \/ j' <> j) by (destruct (decide (i' = i)); [right|by left]; congruence). unfold earlier. lia. }
    intros Hn r c Hr Hc. rewrite Hold; [by apply Hv|].
    pose proof (len_bound i' (loop_ws_I w) (loop_ws_pad_I w) (sh_pad_I _ (wc_shape Hcf)) Hi').
    pose proof (acc_blocks_apart i j i' j' Hj Hj' Hne). lia.
Qed.

Lemma elem_of_block e : e ∈ ws_elems -> (e ∈ block_elems i j <-> fst e / DIM = i /\ snd e / DIM = j).
Proof.
  intros [He1 He2]%elem_of_pairs. destruct (wc_shape Hcf). unfold block_elems. rewrite list_elem_of_fmap. split.
  - intros (p & -> & [Hp1 Hp2]%elem_of_pairs). cbn [fst snd].
    pose proof (len_bound i (loop_ws_I w) (loop_ws_pad_I w) ltac:(done) Hi). pose proof (len_bound j (loop_ws_J w) (loop_ws_pad_J w) ltac:(done) Hj).
    unfold DIM in *. zlia.
  - intros [E1 E2]. exists (fst e mod DIM, snd e mod DIM). cbn [fst snd]. split.
    + destruct e. cbn [fst snd] in *. f_equal; unfold DIM in *; zlia.
    + apply elem_of_pairs. cbn [fst snd]. rewrite <- E1, <- E2. unfold ws_rows, ws_cols in *. split; by apply index_block.
Qed.

(** Storing the block adds its elements to those in memory. *)
Lemma memory_step d d' : loop_ws_C w <> 0 -> k = loop_ws_K w - 1 -> memory_holds (written k j i) d ->
  store_post (size_C a) (C_ptr a w) (fun e => default 0 (ws_stored e)) (block_elems i j) d d' ->
  memory_holds (written k j (i + 1)) d'.
Proof.
  intros HC Hlast Hd Hpost. pose proof (Hout HC) as Ho. pose proof (block_elems_in i j) as Hbin.
  eapply (store_post_elems _ _ _ (written k j i ++ block_elems i j)).
  - intros e. rewrite elem_of_app. unfold written. rewrite !list_elem_of_filter. unfold in_memory.
    rewrite (proj2 (Z.eqb_neq _ _) HC), (proj2 (Z.eqb_eq _ _) Hlast). cbn [negb andb]. split.
    + intros [[He Hin]|He].
      * split; [|done]. revert He. unfold earlier. lia.
      * pose proof (Hbin Hi Hj e He) as Hin. split; [|done]. apply elem_of_block in He as [-> ->]; [|done]. unfold earlier. lia.
    + intros [He Hin]. destruct (decide (fst e / DIM = i /\ snd e / DIM = j)) as [Heq|Hne].
      * right. by apply elem_of_block.
      * left. split; [|done]. revert He. unfold earlier. lia.
  - eapply store_post_app; [|exact Hd|exact Hpost].
    intros e e' b [He Hin]%list_elem_of_filter He' Hb Hb'. pose proof (Hbin Hi Hj e' He') as Hin'.
    pose proof (wo_disjoint Ho e e' b Hin Hin' Hb Hb') as <-. apply elem_of_block in He' as [E1 E2]; [|done].
    unfold in_memory in He. rewrite E1, E2 in He. apply andb_true_iff in He as [_ He]. revert He. unfold earlier. lia.
Qed.

Lemma memory_kept d : loop_ws_C w = 0 \/ k <> loop_ws_K w - 1 -> memory_holds (written k j i) d -> memory_holds (written k j (i + 1)) d.
Proof.
  intros Hno. apply store_post_elems. intros e. unfold written. rewrite !list_elem_of_filter. unfold in_memory.
  assert (negb (loop_ws_C w =? 0) && (k =? loop_ws_K w - 1) = false) as -> by lia. done.
Qed.

Lemma wp_loop_step Q m : loop_inv k j i m -> (forall m', loop_inv k j (i + 1) m' -> Q tt m') -> wp (loop_ws_step a w k j i) Q m.
Proof.
  intros Hinv HQ. unfold loop_ws_step.
  apply wp_bind, wp_stage_A; [done|]. intros m1 H1. apply wp_bind, (wp_stage_B _ m); [done..|].
  intros m2 [Hs2 (v & ->) HA2] HB2. rewrite (wc_resadd Hcf). destruct Hinv as [_ _ HW Hacc Hd].
  apply wp_bind. cbn [negb when]. apply wp_loop_compute; [done..|apply HA2; [done|lia]| |].
  { destruct (Z.eqb_spec i 0); [by apply HB2|]. apply HW. lia. }
  intros va vp Hs3 Hvp Hnew Hold. set (m3 := computed i j k (set_vec spad_lens v m) va vp) in *.
  pose proof (acc_step (accumulator (gs m)) va Hacc Hnew Hold) as Hacc3.
  assert (forall m', steady (gs m') -> spad (gs m') = v -> accumulator (gs m') = va -> pe_state (gs m') = vp ->
    memory_holds (written k j (i + 1)) (dram m') -> Q tt m') as Hend.
  { intros m' Hs' E1 E2 E3 Hd'. apply HQ. split; [done| | | |done]; rewrite ?E1, ?E2, ?E3; [|done|done].
    intros i' Hi' Hlt. apply (HA2 i'); [done|lia]. }
  destruct (wc_act Hcf) as [Ha1 Ha2]. rewrite (proj2 (Z.eqb_neq _ _) Ha1), (proj2 (Z.eqb_neq _ _) Ha2). cbn [negb andb].
  apply wp_when; intros Hc.
  - apply andb_true_iff in Hc as [HC%negb_true_iff%Z.eqb_neq Hl%Z.eqb_eq].
    apply (wp_loop_mvout i j k); [done..| | |].
    + intros r c Hr Hc. pose proof (Hacc3 i j Hi Hj) as Hij.
      assert (earlier j (i + 1) j i = true) as E by (unfold earlier; lia). rewrite E in Hij.
      rewrite <- ws_sum_all. replace (loop_ws_K w) with (k + 1) by lia. apply Hij; [left; lia|done|done].
    + intros e He. eapply mem_writable_differ; [apply Hd|]. by apply (wo_write (Hout HC)), (block_elems_in i j).
    + intros m4 Hs4 E1 E2 E3 Hpost. apply Hend; [done..|]. by eapply memory_step.
  - apply Hend; [done..|]. apply memory_kept; [|done]. lia.
Qed.
End step_spec.

(** ** The whole loop *)

Lemma inv_next_j k j m : 0 <= j < loop_ws_J w -> loop_inv k j (loop_ws_I w) m -> loop_inv k (j + 1) 0 m.
Proof.
  intros Hj [Hs HA HW Hacc Hd]. split; [done| |lia| |].
  - intros i' Hi' _. apply HA; [done|lia].
  - intros i' j' Hi' Hj'. pose proof (Hacc i' j' Hi' Hj') as Hv.
    assert (earlier (j + 1) 0 j' i' = earlier j (loop_ws_I w) j' i') as ->; [|done]. unfold earlier. lia.
  - revert Hd. apply store_post_elems. intros e. unfold written. rewrite !list_elem_of_filter.
    assert (e ∈ ws_elems -> in_memory k j (loop_ws_I w) e = in_memory k (j + 1) 0 e) as E;
      [|split; intros [Hm Hin]; (split; [|done]); [rewrite <- E by done|rewrite E by done]; done].
    intros [He1 He2]%elem_of_pairs. unfold in_memory. f_equal.
    destruct (index_block (loop_ws_I w) (loop_ws_pad_I w) (fst e) (sh_pad_I _ (wc_shape Hcf)) He1) as [Hb _].
    unfold earlier. lia.
Qed.

Lemma inv_next_k k m : 0 <= k -> k + 1 < loop_ws_K w -> loop_inv k (loop_ws_J w) 0 m -> loop_inv (k + 1) 0 0 m.
Proof.
  intros Hk Hlast [Hs HA HW Hacc Hd]. split; [done|lia|lia| |].
  - intros i' j' Hi' Hj'. pose proof (Hacc i' j' Hi' Hj') as Hv.
    assert (earlier (loop_ws_J w) 0 j' i' = true) as E1 by (unfold earlier; lia).
    assert (earlier 0 0 j' i' = false) as -> by (unfold earlier; lia). by rewrite E1 in Hv.
  - revert Hd. apply store_post_elems. intros e. unfold written. rewrite !list_elem_of_filter. unfold in_memory.
    assert ((k =? loop_ws_K w - 1) = false) as -> by lia. rewrite andb_false_r. cbn [andb].
    split; [intros [? _]; done|]. intros [He Hin]. exfalso. apply elem_of_pairs in Hin as [He1 He2].
    assert (0 <= snd e / DIM) by (unfold DIM; zlia). assert (0 <= fst e / DIM) by (unfold DIM; zlia).
    apply andb_true_iff in He as [_ He]. revert He. unfold earlier. lia.
Qed.

Lemma wp_loop_nest Q m : loop_inv 0 0 0 m ->
  (forall m', loop_inv (loop_ws_K w - 1) (loop_ws_J w) 0 m' -> Q tt m') ->
  wp (for_range 0 (loop_ws_K w) (fun k => for_range 0 (loop_ws_J w) (fun j =>
        for_range 0 (loop_ws_I w) (fun i => loop_ws_step a w k j i)))) Q m.
Proof.
  intros Hinv HQ. destruct (wc_shape Hcf).
  apply (wp_for_range (fun k m' => if k <? loop_ws_K w then loop_inv k 0 0 m' else loop_inv (loop_ws_K w - 1) (loop_ws_J w) 0 m')).
  - by rewrite (proj2 (Z.ltb_lt 0 (loop_ws_K w))) by lia.
  - intros k m' Hk Hk'. rewrite (proj2 (Z.ltb_lt k (loop_ws_K w))) in Hk' by lia.
    apply (wp_for_range (fun j m' => loop_inv k j 0 m')); [done| |].
    + intros j m1 Hj Hj'. apply (wp_for_range (fun i m' => loop_inv k j i m')); [done| |].
      * intros i m2 Hi Hi'. by apply wp_loop_step.
      * intros m2 Hm2. rewrite Z.max_r in Hm2 by lia. by apply inv_next_j.
    + intros m1 Hm1. rewrite Z.max_r in Hm1 by lia. destruct (Z.ltb_spec (k + 1) (loop_ws_K w)).
      * apply inv_next_k; [lia|lia|done].
      * by replace (loop_ws_K w - 1) with k by lia.
  - intros m' Hm'. rewrite Z.max_r in Hm' by lia. rewrite (proj2 (Z.ltb_ge (loop_ws_K w) (loop_ws_K w))) in Hm' by lia. by apply HQ.
Qed.

Lemma cell_of_block i j r c : 0 <= r < DIM -> 0 <= c < DIM -> ws_cell w (i * DIM + r, j * DIM + c) = (step_off i j + r, c).
Proof. intros Hr Hc. unfold ws_cell, step_off. cbn [fst snd]. unfold DIM in *. f_equal; [|zlia]. 
  assert ((i * 16 + r) / 16 = i) as -> by zlia. assert ((j * 16 + c) / 16 = j) as -> by zlia. zlia. Qed.

Lemma ws_sum_0 e : wf s0 -> ws_sum e 0 = ws_init e.
Proof.
  intros Hwf. unfold ws_sum. rewrite Zsum_0, Z.add_0_r by lia. apply wrap_s_id; [lia|]. unfold ws_init, D_val.
  repeat case_match; [by apply (wf_s_acc _ Hwf)| |by apply (mem_int_range 4)|by unfold in_s].
  destruct (mvin_scale _ sD) eqn:E; [|by unfold in_s]. by apply in_s8_32, (mvin_scale_range _ _ _ E).
Qed.

(** The block of the accumulator holds the bias. *)
Definition bias_holds (v : vec2) (i j : Z) : Prop :=
  forall r c, 0 <= r < block_len i (loop_ws_I w) (loop_ws_pad_I w) -> 0 <= c < block_len j (loop_ws_J w) (loop_ws_pad_J w) ->
    vget v (step_off i j + r) c = D_val (i * DIM + r) (j * DIM + c).

Lemma wp_loop_mvin_D Q m : gs m = s0 -> dram m = d0 -> wf s0 -> (forall m', loop_inv 0 0 0 m' -> Q tt m') ->
  wp (loop_ws_mvin_D a w) Q m.
Proof.
  intros Hg Hd Hwf HQ. destruct (wc_shape Hcf).
  assert (steady (gs m)) as Hs.
  { rewrite Hg. split; [done|apply Hcf|done..|]. apply norm_same_refl, Hcf. }
  assert (forall m', steady (gs m') -> dram m' = d0 ->
    (la_ex_accumulate a = true -> forall i j, 0 <= i < loop_ws_I w -> 0 <= j < loop_ws_J w ->
       forall r c, 0 <= r < block_len i (loop_ws_I w) (loop_ws_pad_I w) -> 0 <= c < block_len j (loop_ws_J w) (loop_ws_pad_J w) ->
         vget (accumulator (gs m')) (step_off i j + r) c = ws_init (i * DIM + r, j * DIM + c)) -> Q tt m') as Hend.
  { intros m' Hs' Hd' Hacc. apply HQ. split; [done|lia|lia| |].
    - intros i' j' Hi' Hj'. assert (earlier 0 0 j' i' = false) as -> by (unfold earlier; lia).
      intros [?|Hea] r c Hr Hc; [lia|]. rewrite ws_sum_0 by done. by apply Hacc.
    - rewrite Hd'. eapply store_post_elems; [|apply store_post_nil]. intros e. split; [by intros ?%not_elem_of_nil|].
      intros [He [He1 He2]%elem_of_pairs]%list_elem_of_filter. exfalso. unfold in_memory in He.
      assert (0 <= snd e / DIM) by (unfold DIM; zlia). assert (0 <= fst e / DIM) by (unfold DIM; zlia).
      apply andb_true_iff in He as [_ He]. revert He. unfold earlier. lia. }
  unfold loop_ws_mvin_D. apply wp_when; intros HDb.
  2: { apply Hend; [done|done|]. intros Hea i j Hi Hj r c Hr Hc. unfold ws_init. rewrite Hea.
       apply negb_false_iff in HDb. rewrite HDb, Hg, cell_of_block; [done|..];
         pose proof (len_bound i _ _ sh_pad_I0 Hi); pose proof (len_bound j _ _ sh_pad_J0 Hj); lia. }
  apply negb_true_iff, Z.eqb_neq in HDb. fold (size_D a).
  apply (wp_for_range (fun i m' => steady (gs m') /\ dram m' = d0 /\
    forall i' j', 0 <= i' < i -> 0 <= j' < loop_ws_J w -> bias_holds (accumulator (gs m')) i' j')).
  - split_and!; [done|done|lia].
  - intros i m1 Hi (Hs1 & Hd1 & Hb1).
    apply (wp_for_range (fun j m' => steady (gs m') /\ dram m' = d0 /\
      forall i' j', 0 <= i' < loop_ws_I w -> 0 <= j' < loop_ws_J w -> i' < i \/ i' = i /\ j' < j -> bias_holds (accumulator (gs m')) i' j')).
    + split_and!; [done|done|]. intros i' j' Hi' Hj' Hlt. apply Hb1; lia.
    + intros j m2 Hj (Hs2 & Hd2 & Hb2). cbv zeta. apply (wp_loop_mvin_D_block i j 0); [lia|lia|lia|done|done|done|].
      intros v Hs3 Hv Hf. split_and!; [done|done|]. intros i' j' Hi' Hj' Hlt.
      change (accumulator (gs (set_vec acc_lens v m2))) with v.
      destruct (decide ((i', j') = (i, j))) as [[= -> ->]|Hne]; [done|].
      intros r c Hr Hc. rewrite Hf.
      * apply (Hb2 i' j' Hi' Hj'); [|done|done]. assert (i' <> i \/ j' <> j) by (destruct (decide (i' = i)); [right|by left]; congruence). lia.
      * pose proof (len_bound i' _ _ sh_pad_I0 Hi'). pose proof (acc_blocks_apart i j i' j' Hj Hj' Hne). lia.
    + intros m2 (Hs2 & Hd2 & Hb2). split_and!; [done|done|]. intros i' j' Hi' Hj'. rewrite Z.max_r in Hb2 by lia. apply Hb2; lia.
  - intros m1 (Hs1 & Hd1 & Hb1). rewrite Z.max_r in Hb1 by lia. apply Hend; [done|done|]. intros Hea i j Hi Hj r c Hr Hc.
    unfold ws_init. rewrite Hea, (proj2 (Z.eqb_neq _ _) HDb). by apply Hb1.
Qed.

(** What the instruction leaves behind. *)
Record ws_done (m' : machine mem) : Prop := {
  wd_steady : steady (gs m');
  wd_acc e : e ∈ ws_elems -> vget (accumulator (gs m')) (fst (ws_cell w e)) (snd (ws_cell w e)) = ws_total e;
  wd_memory : memory_holds (if loop_ws_C w =? 0 then [] else ws_elems) (dram m') }.

Lemma inv_done m : loop_inv (loop_ws_K w - 1) (loop_ws_J w) 0 m -> ws_done m.
Proof.
  intros [Hs _ _ Hacc Hd]. destruct (wc_shape Hcf). split; [done| |].
  - intros e [He1 He2]%elem_of_pairs.
    destruct (index_block _ _ _ sh_pad_I0 He1) as [Hi Hr]. destruct (index_block _ _ _ sh_pad_J0 He2) as [Hj Hc].
    pose proof (Hacc (fst e / DIM) (snd e / DIM) Hi Hj) as Hv.
    assert (earlier (loop_ws_J w) 0 (snd e / DIM) (fst e / DIM) = true) as E by (unfold earlier; lia). rewrite E in Hv.
    specialize (Hv ltac:(left; lia) _ _ Hr Hc). replace (loop_ws_K w - 1 + 1) with (loop_ws_K w) in Hv by lia.
    assert (e = (fst e / DIM * DIM + fst e mod DIM, snd e / DIM * DIM + snd e mod DIM)) as He.
    { destruct e. cbn [fst snd]. unfold DIM. f_equal; zlia. }
    rewrite <- He in Hv. rewrite <- ws_sum_all, <- Hv. done.
  - revert Hd. apply store_post_elems. intros e. unfold written. rewrite list_elem_of_filter. unfold in_memory.
    rewrite (proj2 (Z.eqb_eq (loop_ws_K w - 1) _) eq_refl), andb_true_r.
    destruct (loop_ws_C w =? 0); cbn [negb andb]; [split; [intros [? _]; done|by intros ?%not_elem_of_nil]|].
    split; [by intros [_ ?]|]. intros He. split; [|done]. apply elem_of_pairs in He as [He1 He2].
    destruct (index_block _ _ _ sh_pad_J0 He2) as [Hj _]. unfold earlier. lia.
Qed.

Lemma shape_fits : loop_ws_fits w = true.
Proof.
  destruct (wc_shape Hcf). unfold loop_ws_fits. change (BANK_NUM * BANK_ROWS / 2) with 8192 in *. change (ACC_ROWS / 2) with 512 in *.
  assert (0 <= loop_ws_I w * loop_ws_K w /\ 0 <= loop_ws_K w * loop_ws_J w /\ 0 <= loop_ws_I w * loop_ws_J w) as (P1 & P2 & P3) by nia.
  unfold DIM in *. rewrite (wrap_s_id 32 (loop_ws_I w * loop_ws_K w)), (wrap_s_id 32 (loop_ws_K w * loop_ws_J w)),
    (wrap_s_id 32 (loop_ws_I w * loop_ws_J w)) by (unfold in_s; lia).
  rewrite (wrap_s_id 32 (_ + _)) by (unfold in_s; lia). rewrite !(wrap_s_id 32) by (unfold in_s; lia). lia.
Qed.
End run.

Section loop_ws_theorem.
Context {mem : Type} `{MmuLaws mem}.
Implicit Types m : machine mem.

Lemma wp_loop_ws rs1 rs2 sA sB sD Q m :
  let a := loop_ws_decode rs1 rs2 in
  let w := lws (gs m) in
  mwf m -> ws_configured a w (gs m) sA sB sD -> ws_memory a w (dram m) ->
  (loop_ws_C w <> 0 -> ws_output a w (gs m) (dram m) sA sB sD) ->
  (forall m', ws_done a w (gs m) (dram m) sA sB sD m' -> Q tt m') ->
  wp (loop_ws rs1 rs2) Q m.
Proof.
  intros a w Hwf Hcf Hmem Hout HQ. unfold loop_ws. cbv zeta. fold a. apply wp_bind, wp_get_gs. fold w.
  apply wp_bind, wp_check; [by eapply shape_fits|]. rewrite (wc_resadd _ _ _ _ _ _ Hcf).
  apply wp_bind. apply (wp_loop_mvin_D a w (gs m) (dram m) sA sB sD Hcf Hmem); [done..|].
  intros m1 Hinv. apply (wp_loop_nest a w (gs m) (dram m) sA sB sD Hcf Hmem Hout); [done|].
  intros m2 Hinv2. apply HQ. by apply inv_done.
Qed.

(** C15: the matmul loop instruction.  [loop_ws] with registers that fit the
    double-buffered memories, a configured weight-stationary pipeline, readable
    operands and (unless the destination is 0) a writable result apart from A and B
    runs without a fault.  Every accumulator cell of the result then holds, modulo
    [2^32], the initial value (the bias D, the old contents, or 0, as the flags and
    the D pointer say) plus the inner product of a row of the scaled A and a column
    of the scaled B, whichever of the two is transposed and whatever padding the
    last blocks have; main memory holds the scaled and activated result and is
    otherwise unchanged, and the configuration registers are as before. *)
Theorem loop_ws_multiplies rs1 rs2 sA sB sD m :
  let a := loop_ws_decode rs1 rs2 in
  let w := lws (gs m) in
  mwf m -> ws_configured a w (gs m) sA sB sD -> ws_memory a w (dram m) ->
  (loop_ws_C w <> 0 -> ws_output a w (gs m) (dram m) sA sB sD) ->
  wp (loop_ws rs1 rs2) (fun _ m' =>
    (forall e, e ∈ ws_elems w ->
       vget (accumulator (gs m')) (fst (ws_cell w e)) (snd (ws_cell w e)) =
       s32 (ws_init a w (gs m) (dram m) sD e + Zsum (ws_prod a w (dram m) sA sB e) (ws_inner w))) /\
    (loop_ws_C w <> 0 -> forall e, e ∈ ws_elems w ->
       mem_int (size_C a) (dram m') (C_ptr a w e) =
       wrap_s (8 * size_C a) (default 0 (ws_stored a w (gs m) (dram m) sA sB sD e))) /\
    mem_differ (stored (size_C a) (C_ptr a w) (if loop_ws_C w =? 0 then [] else ws_elems w)) (dram m) (dram m') /\
    steady (gs m) (gs m')) m.
Proof.
  intros a w Hwf Hcf Hmem Hout. apply (wp_loop_ws rs1 rs2 sA sB sD); [done..|].
  intros m' [Hs Hacc [Hd Hv]]. split_and!; [exact Hacc| |done|done].
  intros HC%Z.eqb_neq e He. unfold w in HC. rewrite HC in Hv. by apply Hv.
Qed.
End loop_ws_theorem.

(** ** A concrete product: 4 x 2 by 2 x 4, no bias *)

Definition ws_demo_regs : loop_ws_regs :=
  Build_loop_ws_regs 1 1 1 12 12 14 0x1000 0x1020 0 0x1080 2 4 4 4.
Definition ws_demo : machine flat_mem :=
  Machine (demo_state
    <| ld := Build_ld_regs [2; 4; 16] [16; 16; 16] [false; false; false]
               [MVIN_SCALE_IDENTITY; MVIN_SCALE_IDENTITY; MVIN_SCALE_IDENTITY] [1; 1; 1] |>
    <| st := Build_st_regs 4 NONE f32_one 0 0 0 0 0 0 0 0 0 |>
    <| ex := ws_regs |> <| lws := ws_demo_regs |>) demo_mem 0.

Lemma ws_demo_wf : mwf ws_demo.
Proof.
  apply wf_set_lws; [apply wf_set_ex; [apply wf_set_st; [apply wf_set_ld; [exact (proj1 demo_ready)|]|]|]|].
  - split; split; try done; repeat (apply Forall_cons_2 || apply Forall_nil_2); by unfold in_u.
  - by split.
  - by split.
  - by split.
Qed.

Lemma ws_demo_configured : ws_configured (loop_ws_decode 0 0) ws_demo_regs (gs ws_demo)
  MVIN_SCALE_IDENTITY MVIN_SCALE_IDENTITY MVIN_SCALE_IDENTITY.
Proof.
  split; try done. split_and!; apply scale_total_identity.
Qed.

Lemma ws_demo_operand p : ws_operand (loop_ws_decode 0 0) ws_demo_regs p -> 0x1000 <= p < 0x1028.
Proof.
  intros [r x Hr Hx|x c Hx Hc]; change (ws_inner ws_demo_regs) with 2 in *.
  - change (ws_rows ws_demo_regs) with 4 in *. change (A_ptr _ _ r x) with (0x1000 + r * 2 + x). lia.
  - change (ws_cols ws_demo_regs) with 4 in *. change (B_ptr _ _ x c) with (0x1020 + x * 4 + c). lia.
Qed.

Lemma ws_demo_memory : ws_memory (loop_ws_decode 0 0) ws_demo_regs demo_mem.
Proof.
  split; [|done]. intros p Hp%ws_demo_operand. split; [lia|]. apply flat_mem_readable; simpl; lia.
Qed.

Lemma ws_demo_output : ws_output (loop_ws_decode 0 0) ws_demo_regs (gs ws_demo) demo_mem
  MVIN_SCALE_IDENTITY MVIN_SCALE_IDENTITY MVIN_SCALE_IDENTITY.
Proof.
  assert (forall e, e ∈ ws_elems ws_demo_regs -> 0x1080 <= C_ptr (loop_ws_decode 0 0) ws_demo_regs e < 0x1090) as Hp.
  { intros [r c] [Hr Hc]%elem_of_pairs. change (C_ptr _ _ (r, c)) with (0x1080 + (r * 4 + c) * 1).
    change (ws_rows ws_demo_regs) with 4 in *. change (ws_cols ws_demo_regs) with 4 in *. cbn [fst snd] in *. lia. }
  split.
  - done.
  - intros e He%Hp. lia.
  - intros e He%Hp. change (size_C _) with 1. apply flat_mem_writable; simpl; lia.
  - by apply C_ptr_apart.
  - intros e p b He%Hp Ho%ws_demo_operand (k & Hk & ->) (k' & Hk' & E). change (size_C _) with 1 in *.
    rewrite !wrap_u_id in E by (unfold in_u; lia). lia.
  - apply (by_evaluation (fun e => is_Some (ws_stored (loop_ws_decode 0 0) ws_demo_regs (gs ws_demo) demo_mem
        MVIN_SCALE_IDENTITY MVIN_SCALE_IDENTITY MVIN_SCALE_IDENTITY e))
      (fun e => defined (ws_stored (loop_ws_decode 0 0) ws_demo_regs (gs ws_demo) demo_mem
        MVIN_SCALE_IDENTITY MVIN_SCALE_IDENTITY MVIN_SCALE_IDENTITY e))).
    + intros e. apply defined_is_Some.
    + by vm_compute.
Qed.

(** Row 1 of A is [2; 3], column 0 of B is [32; 36]: the element is 172, stored as 127. *)
Lemma loop_ws_multiplies_witness :
  wp (loop_ws 0 0) (fun _ m' => vget (accumulator (gs m')) 1 0 = 172 /\ mem_int 1 (dram m') 0x1084 = 127) ws_demo.
Proof.
  eapply wp_mono; [apply (loop_ws_multiplies 0 0 MVIN_SCALE_IDENTITY MVIN_SCALE_IDENTITY MVIN_SCALE_IDENTITY ws_demo)|].
  - apply ws_demo_wf.
  - apply ws_demo_configured.
  - apply ws_demo_memory.
  - intros _. apply ws_demo_output.
  - intros [] m' (Hacc & Hmem & _).
    assert ((1, 0) ∈ ws_elems ws_demo_regs) as H10 by (apply elem_of_pairs; by vm_compute). split.
    + transitivity (s32 (ws_init (loop_ws_decode 0 0) ws_demo_regs (gs ws_demo) demo_mem MVIN_SCALE_IDENTITY (1, 0) +
        Zsum (ws_prod (loop_ws_decode 0 0) ws_demo_regs demo_mem MVIN_SCALE_IDENTITY MVIN_SCALE_IDENTITY (1, 0)) 2));
        [exact (Hacc (1, 0) H10)|by vm_compute].
    + etransitivity; [exact (Hmem ltac:(done) (1, 0) H10)|]. by vm_compute.
Defined.

(** ** The capacity test *)

Section capacity.
Context {mem : Type} `{Mmu mem} `{Rand}.

(** The rows a loop needs. *)
Definition ws_spad_need (w : loop_ws_regs) : Z := (loop_ws_I w * loop_ws_K w + loop_ws_K w * loop_ws_J w) * DIM.
Definition ws_acc_need (w : loop_ws_regs) : Z := loop_ws_I w * loop_ws_J w * DIM.

(** The test compares the row counts as [int]s; intermediate wrap-around has no effect
    of its own. *)
Lemma loop_ws_fits_wrapped w :
  loop_ws_fits w = true <-> s32 (ws_spad_need w) <= BANK_NUM * BANK_ROWS / 2 /\ s32 (ws_acc_need w) <= ACC_ROWS / 2.
Proof.
  unfold loop_ws_fits, ws_spad_need, ws_acc_need.
  rewrite (wrap_s_mul_l 32 _ DIM), (wrap_s_mul_l 32 (loop_ws_I w * loop_ws_J w) DIM) by done.
  rewrite <- (wrap_s_mul_l 32 (s32 _ + s32 _)), wrap_s_add_l, wrap_s_add_r, wrap_s_mul_l by done. lia.
Qed.

Lemma ws_need_bounds w : wf_lws w -> 0 <= ws_spad_need w /\ 0 <= ws_acc_need w.
Proof. unfold ws_spad_need, ws_acc_need, DIM. intros [HI HJ HK _ _ _ _ _ _ _ _ _ _ _]. unfold in_u in HI, HJ, HK. nia. Qed.

Lemma loop_ws_fits_iff w : wf_lws w -> ws_spad_need w < 2 ^ 31 -> ws_acc_need w < 2 ^ 31 ->
  loop_ws_fits w = true <-> ws_spad_need w <= BANK_NUM * BANK_ROWS / 2 /\ ws_acc_need w <= ACC_ROWS / 2.
Proof.
  intros Hw Hs Ha. destruct (ws_need_bounds w Hw). rewrite loop_ws_fits_wrapped, !(wrap_s_id 32) by (done || unfold in_s; lia). done.
Qed.

(** The capacity test itself can overflow.  Bounds of 32768 x 32768 blocks
    with any multiple of 4096 in the inner dimension need far more rows than there
    are, but the 32-bit products wrap around to 0 and the test accepts them. *)
Lemma loop_ws_capacity_wraps w n :
  loop_ws_I w = 32768 -> loop_ws_J w = 32768 -> loop_ws_K w = 4096 * n -> 1 <= n ->
  loop_ws_fits w = true /\ BANK_NUM * BANK_ROWS / 2 < ws_spad_need w /\ ACC_ROWS / 2 < ws_acc_need w.
Proof.
  intros EI EJ EK Hn. rewrite loop_ws_fits_wrapped. unfold ws_spad_need, ws_acc_need, DIM, BANK_NUM, BANK_ROWS, ACC_ROWS. rewrite EI, EJ, EK.
  replace ((32768 * (4096 * n) + 4096 * n * 32768) * 16) with (n * 2 ^ 32) by lia. unfold wrap_s. zlia.
Qed.

(** C36: which matmul loops are refused for their size.  A loop is refused, before it
    has changed anything, when its number of scratchpad or accumulator rows, reduced
    to a 32-bit [int], is more than half of that memory, and passes the test
    otherwise.  For counts below [2^31] this is the exact test.  Larger counts wrap
    around: 32768 x 32768 blocks with any positive multiple of 4096 inner blocks need
    more rows than there are and pass. *)
Theorem loop_ws_too_large rs1 rs2 (m : machine mem) :
  let w := lws (gs m) in
  let too_large (spad_rows acc_rows : Z) := BANK_NUM * BANK_ROWS / 2 < spad_rows \/ ACC_ROWS / 2 < acc_rows in
  wf_lws w ->
  (if decide (too_large (s32 (ws_spad_need w)) (s32 (ws_acc_need w)))
   then loop_ws rs1 rs2 m = (Fault ExitFailure, m) else loop_ws_fits w = true) /\
  (ws_spad_need w < 2 ^ 31 -> ws_acc_need w < 2 ^ 31 -> too_large (ws_spad_need w) (ws_acc_need w) ->
   loop_ws rs1 rs2 m = (Fault ExitFailure, m)) /\
  (forall n, loop_ws_I w = 32768 -> loop_ws_J w = 32768 -> loop_ws_K w = 4096 * n -> 1 <= n ->
   loop_ws_fits w = true /\ too_large (ws_spad_need w) (ws_acc_need w)).
Proof.
  intros w too_large Hw.
  assert (loop_ws_fits w = false -> loop_ws rs1 rs2 m = (Fault ExitFailure, m)) as Hno.
  { intros E. unfold loop_ws, mbind, M_bind. cbn [get_gs gets]. fold w. by rewrite E. }
  pose proof (loop_ws_fits_wrapped w) as Hfit. split_and!.
  - case_decide as Hd; unfold too_large in Hd; [apply Hno, not_true_iff_false|]; rewrite Hfit; lia.
  - intros Hs Ha Hbig. apply Hno, not_true_iff_false. rewrite loop_ws_fits_iff by done. unfold too_large in Hbig. lia.
  - intros n EI EJ EK Hn. destruct (loop_ws_capacity_wraps w n) as (? & ? & _); [done..|]. split; [done|]. by left.
Qed.
End capacity.

Definition too_large_demo : machine flat_mem :=
  ws_demo <| gs := (gs ws_demo) <| lws := ws_demo_regs <| loop_ws_I := 8 |> <| loop_ws_J := 5 |> |> |>.
Definition wrapping_demo : machine flat_mem :=
  ws_demo <| gs := (gs ws_demo) <| lws := ws_demo_regs <| loop_ws_I := 32768 |> <| loop_ws_J := 32768 |> <| loop_ws_K := 4096 |> |> |>.

Lemma loop_ws_too_large_witness :
  loop_ws 0 0 too_large_demo = (Fault ExitFailure, too_large_demo) /\ loop_ws_fits (lws (gs wrapping_demo)) = true.
Proof.
  split.
  - refine (proj1 (proj2 (loop_ws_too_large 0 0 too_large_demo _)) _ _ _); [split; unfold in_u; vm_compute; done|by vm_compute..|right; by vm_compute].
  - refine (proj1 (proj2 (proj2 (loop_ws_too_large 0 0 wrapping_demo _)) 1 _ _ _ _)); [split; unfold in_u; vm_compute; done|by vm_compute..].
Defined.
