(* ===== verification/MatmulCpu.v ===== *)
(** * MatmulCpu: the reference matrix multiplication of the driver

    [scale_and_sat] and [matmul_cpu] of systolic_include.h.  Pointers are
    addresses of main memory; a CPU load or store of an [elem_t] or [acc_t] is
    the byte-wise access of [Dram]. *)

From S2P Require Import Prelude Effects Float32 Params State Dram Fill Scaling Isa.

(** [GEMMINI_ACC_SCALE(x, scale)] is [x]: [HAS_MVIN_ACC_SCALE] is not defined.
    [GEMMINI_SCALE(x, scale)] is [MVIN_SCALE(x, scale)]. *)
Definition GEMMINI_ACC_SCALE (x : Z) (scale : Z) : Z := x.

Definition scale_and_sat (x act : Z) (scale : float32) (relu6_shift : Z) : option Z :=
  x ← ACC_SCALE x scale;
  let x := if elem_t_max <? x then elem_t_max else if x <? elem_t_min then elem_t_min else x in
  let x :=
    if act =? RELU_act then (if x <? 0 then 0 else x)
    else if act =? RELU6_act then
      let max := s32 (6 ≪ relu6_shift) in
      if x <? 0 then 0 else if max <? x then max else x
    else x in
  Some (s8 x).

(** The arguments shared by the matrix multiplications of the driver. *)
Record matmul_args := {
  ma_dim_I : Z; ma_dim_J : Z; ma_dim_K : Z;
  ma_A : Z; ma_B : Z; ma_D : Z; ma_C : Z;
  ma_stride_A : Z; ma_stride_B : Z; ma_stride_D : Z; ma_stride_C : Z;
  ma_A_scale : float32; ma_B_scale : float32; ma_D_scale : Z;
  ma_act : Z; ma_scale : float32; ma_relu6_shift : Z; ma_repeating_bias : bool;
  ma_trans_A : bool; ma_trans_B : bool; ma_full_C : bool; ma_low_D : bool; ma_weightA : Z }.

Section matmul_cpu.
Context {mem : Type} `{Mmu mem}.
Variable (x : matmul_args).

Definition load_elem (addr : Z) : M (machine mem) Z := read_from_dram sizeof_elem_t addr.
Definition load_acc (addr : Z) : M (machine mem) Z := read_from_dram sizeof_acc_t addr.

(** [GEMMINI_SCALE( *a, A_scale) * GEMMINI_SCALE( *b, B_scale)], added to [sum]. *)
Definition cpu_mac (a b sum : Z) : M (machine mem) Z :=
  va ← load_elem a;
  sa ← of_option Undefined (MVIN_SCALE va (ma_A_scale x));
  vb ← load_elem b;
  sb ← of_option Undefined (MVIN_SCALE vb (ma_B_scale x));
  mret (s32 (sum + s32 (sa * sb))).

(** The initial value of a sum: 0 or the bias. *)
Definition cpu_bias (i j : Z) : M (machine mem) Z :=
  let bias_row := if ma_repeating_bias x then 0 else i in
  if ma_D x =? 0 then mret 0
  else d ← load_acc (ma_D x + (bias_row * ma_stride_D x + j) * sizeof_acc_t);
       mret (GEMMINI_ACC_SCALE d (ma_D_scale x)).

Definition cpu_store (i j sum : Z) : M (machine mem) unit :=
  v ← of_option Undefined (scale_and_sat sum (ma_act x) (ma_scale x) (ma_relu6_shift x));
  write_to_dram sizeof_elem_t (u64 (ma_C x + i * ma_stride_C x + j)) v.

(** The 4 x 4 block at [(i, j)]: [result] is the local array, and the sixteen
    statements for [ii] and [jj] from 0 to 3 are written out in row order. *)
Definition cpu_block (i j : Z) : M (machine mem) unit :=
  result ← fold_range 0 4 (fun result ii =>
    fold_range 0 4 (fun result jj =>
      v ← cpu_bias (i + ii) (j + jj); vec_put result ii jj v) result) (vec2_zeros 4 4);
  result ← fold_range 0 (ma_dim_K x) (fun result k =>
    fold_range 0 4 (fun result ii =>
      fold_range 0 4 (fun result jj =>
        old ← vec_at result ii jj;
        v ← cpu_mac (ma_A x + (i + ii) * ma_stride_A x + k) (ma_B x + k * ma_stride_B x + j + jj) old;
        vec_put result ii jj v) result) result) result;
  for_range 0 4 (fun ii =>
    for_range 0 4 (fun jj =>
      v ← vec_at result ii jj; cpu_store (i + ii) (j + jj) v)).

(** The general path. *)
Definition cpu_general : M (machine mem) unit :=
  let A_i := if ma_trans_A x then 1 else ma_stride_A x in
  let A_k := if ma_trans_A x then ma_stride_A x else 1 in
  let B_j := if ma_trans_B x then ma_stride_B x else 1 in
  let B_k := if ma_trans_B x then 1 else ma_stride_B x in
  for_range 0 (ma_dim_I x) (fun i =>
    for_range 0 (ma_dim_J x) (fun j =>
      bias ← cpu_bias i j;
      sum ← fold_range 0 (ma_dim_K x) (fun sum k =>
        cpu_mac (ma_A x + i * A_i + k * A_k) (ma_B x + j * B_j + k * B_k) sum) bias;
      cpu_store i j sum)).

Definition matmul_cpu : M (machine mem) unit :=
  if negb (ma_trans_A x) && negb (ma_trans_B x) && (ma_dim_I x mod 4 =? 0) && (ma_dim_J x mod 4 =? 0) then
    for_step 0 (ma_dim_I x) 4 (fun i => for_step 0 (ma_dim_J x) 4 (fun j => cpu_block i j))
  else cpu_general.
End matmul_cpu.
