(* ===== verification/MatmulCpuSpec.v ===== *)
(** * MatmulCpuSpec: the reference multiplication computes the product

    The two paths of [matmul_cpu] (4 x 4 blocks, and the general loop with
    transposed operands) store the same matrix: the scaled and saturated sum of
    the bias and the products of the scaled operands. *)

From S2P Require Import Prelude Effects Float32 Params State Dram Fill Scaling Norm Config Move MoveSpec Compute LoopWs LoopConv Counters Dispatch Isa MatmulCpu.

Section spec.
Context {mem : Type} `{MmuLaws mem}.
Variable (x : matmul_args).
Implicit Types (d : mem) (m : machine mem).

(** Addresses of the elements. *)
Definition A_at (i k : Z) : Z :=
  ma_A x + i * (if ma_trans_A x then 1 else ma_stride_A x) + k * (if ma_trans_A x then ma_stride_A x else 1).
Definition B_at (k j : Z) : Z :=
  ma_B x + j * (if ma_trans_B x then ma_stride_B x else 1) + k * (if ma_trans_B x then 1 else ma_stride_B x).
Definition D_at (i j : Z) : Z := ma_D x + ((if ma_repeating_bias x then 0 else i) * ma_stride_D x + j) * sizeof_acc_t.
Definition C_at (p : Z * Z) : Z := ma_C x + fst p * ma_stride_C x + snd p.

(** Values: a scaled operand, the initial value and the final sum. *)
Definition op_elem (d : mem) (scale : float32) (a : Z) : Z := default 0 (MVIN_SCALE (mem_int 1 d a) scale).
Definition bias_val (d : mem) (i j : Z) : Z := if ma_D x =? 0 then 0 else mem_int 4 d (D_at i j).
Definition prod (d : mem) (i j k : Z) : Z :=
  op_elem d (ma_A_scale x) (A_at i k) * op_elem d (ma_B_scale x) (B_at k j).
Definition cpu_sum (d : mem) (n i j : Z) : Z := s32 (bias_val d i j + Zsum (prod d i j) n).
Definition cpu_value (d : mem) (p : Z * Z) : option Z :=
  scale_and_sat (cpu_sum d (ma_dim_K x) (fst p) (snd p)) (ma_act x) (ma_scale x) (ma_relu6_shift x).

(** An operand element: its size and address. *)
Inductive operand_elem : Z -> Z -> Prop :=
  | op_A i k : 0 <= i < ma_dim_I x -> 0 <= k < ma_dim_K x -> operand_elem 1 (A_at i k)
  | op_B k j : 0 <= k < ma_dim_K x -> 0 <= j < ma_dim_J x -> operand_elem 1 (B_at k j)
  | op_D i j : ma_D x <> 0 -> 0 <= i < ma_dim_I x -> 0 <= j < ma_dim_J x -> operand_elem 4 (D_at i j).

Definition float_total (scale : float32) : Prop := forall v, in_s 8 v -> is_Some (MVIN_SCALE v scale).

(** What a call needs: defined scales, readable operands, a writable result
    whose elements overlap neither each other nor the operands. *)
Record cpu_ready (d : mem) : Prop := {
  cr_A_scale : float_total (ma_A_scale x);
  cr_B_scale : float_total (ma_B_scale x);
  cr_read size a : operand_elem size a -> mem_readable size d a;
  cr_write p : p ∈ pairs (ma_dim_I x) (ma_dim_J x) -> mem_writable 1 d (C_at p);
  cr_disjoint : elems_disjoint 1 (ma_dim_I x) (ma_dim_J x) C_at;
  cr_alias p size a b : p ∈ pairs (ma_dim_I x) (ma_dim_J x) -> operand_elem size a ->
    span 1 (C_at p) b -> span size a b -> False;
  cr_value p : p ∈ pairs (ma_dim_I x) (ma_dim_J x) -> is_Some (cpu_value d p) }.

(** Memory that still holds the operands of [d]. *)
Definition same_operands (d d' : mem) : Prop :=
  forall size a, operand_elem size a -> mem_int size d' a = mem_int size d a /\ mem_readable size d' a.

Section run.
Context (d : mem) (Hr : cpu_ready d).

Lemma same_operands_differ l d' :
  (forall p, p ∈ l -> p ∈ pairs (ma_dim_I x) (ma_dim_J x)) ->
  mem_differ (stored 1 C_at l) d d' -> same_operands d d'.
Proof.
  intros Hl Hd size a Ha. split.
  - eapply mem_int_differ; [done|]. intros i Hi (p & Hp & Hb). eapply (cr_alias _ Hr); [by apply Hl|done|done|]. by exists i.
  - eapply mem_readable_differ; [done|]. by apply (cr_read _ Hr).
Qed.

Lemma wp_load_operand size a Q m : size = 1 \/ size = 4 -> same_operands d (dram m) -> operand_elem size a ->
  Q (mem_int size d a) m -> wp (read_from_dram size a) Q m.
Proof.
  intros Hs Ho Ha HQ. destruct (Ho _ _ Ha) as [He Hrd]. apply wp_read_from_dram; [lia|done|]. by rewrite He.
Qed.

Lemma wp_cpu_bias i j Q m : same_operands d (dram m) -> 0 <= i < ma_dim_I x -> 0 <= j < ma_dim_J x ->
  Q (bias_val d i j) m -> wp (cpu_bias x i j) Q m.
Proof.
  intros Ho Hi Hj HQ. unfold cpu_bias, bias_val in *. destruct (Z.eqb_spec (ma_D x) 0) as [|Hne]; [by apply wp_ret|].
  apply wp_bind. apply wp_load_operand; [by right|done|by apply op_D|]. by apply wp_ret.
Qed.

Lemma wp_cpu_mac i j k sum Q m : same_operands d (dram m) ->
  0 <= i < ma_dim_I x -> 0 <= j < ma_dim_J x -> 0 <= k < ma_dim_K x ->
  Q (s32 (sum + prod d i j k)) m -> wp (cpu_mac x (A_at i k) (B_at k j) sum) Q m.
Proof.
  intros Ho Hi Hj Hk HQ. unfold cpu_mac, load_elem.
  apply wp_bind, wp_load_operand; [by left|done|by apply op_A|].
  destruct (cr_A_scale _ Hr (mem_int 1 d (A_at i k))) as [va Hva]; [by apply (mem_int_range 1)|].
  apply wp_bind. eapply wp_of_option; [done|].
  apply wp_bind, wp_load_operand; [by left|done|by apply op_B|].
  destruct (cr_B_scale _ Hr (mem_int 1 d (B_at k j))) as [vb Hvb]; [by apply (mem_int_range 1)|].
  apply wp_bind. eapply wp_of_option; [done|]. apply wp_ret.
  autorewrite with wraps. unfold prod, op_elem in HQ. by rewrite Hva, Hvb in HQ.
Qed.

Lemma bias_range i j : s32 (bias_val d i j) = bias_val d i j.
Proof.
  unfold bias_val. case_match; [done|]. apply wrap_s_id; [lia|]. apply (mem_int_range 4). lia.
Qed.

Lemma cpu_sum_0 i j : cpu_sum d 0 i j = bias_val d i j.
Proof. unfold cpu_sum. rewrite Zsum_0, Z.add_0_r by lia. apply bias_range. Qed.

Lemma cpu_sum_S k i j : 0 <= k -> s32 (cpu_sum d k i j + prod d i j k) = cpu_sum d (k + 1) i j.
Proof. intros Hk. unfold cpu_sum. autorewrite with wraps. rewrite Zsum_S by lia. f_equal. lia. Qed.

(** One store. *)
Lemma wp_cpu_store p sum Q m : p ∈ pairs (ma_dim_I x) (ma_dim_J x) -> mem_writable 1 (dram m) (C_at p) ->
  sum = cpu_sum d (ma_dim_K x) (fst p) (snd p) ->
  (forall m', gs m' = gs m -> rand_pos m' = rand_pos m -> mem_differ (span 1 (C_at p)) (dram m) (dram m') ->
     mem_int 1 (dram m') (C_at p) = wrap_s (8 * 1) (default 0 (cpu_value d p)) -> Q tt m') ->
  wp (cpu_store x (fst p) (snd p) sum) Q m.
Proof.
  intros Hp Hw -> HQ. unfold cpu_store. destruct (cr_value _ Hr p Hp) as [v Hv].
  apply wp_bind. eapply wp_of_option; [exact Hv|].
  change (ma_C x + fst p * ma_stride_C x + snd p) with (C_at p). unfold sizeof_elem_t.
  apply wp_write_to_dram; [lia|by apply mem_writable_u64|]. intros m' Hd Hb. apply HQ; [done..| |].
  - simpl. eapply mem_differ_weaken; [exact Hd|]. intros b. apply span_u64.
  - rewrite Hv. simpl. apply (mem_int_written 1); [lia|]. intros i Hi. rewrite <- Hb by done. by rewrite byte_at_u64.
Qed.

(** The run keeps the accelerator as it is. *)
Definition untouched (m : machine mem) : gemmini_state -> nat -> Prop := fun g r => g = gs m /\ r = rand_pos m.

Lemma wp_cpu_general m Q : dram m = d ->
  (forall m', untouched m (gs m') (rand_pos m') ->
     store_post 1 C_at (fun p => default 0 (cpu_value d p)) (pairs (ma_dim_I x) (ma_dim_J x)) d (dram m') -> Q tt m') ->
  wp (cpu_general x) Q m.
Proof.
  intros Hm HQ. unfold cpu_general. cbv zeta. apply wp_for_pairs.
  apply (wp_store 1 C_at (fun p => default 0 (cpu_value d p)) _ (untouched m));
    rewrite ?Hm; [lia|apply NoDup_pairs| | |done| |exact HQ].
  - intros p q b. apply (cr_disjoint _ Hr).
  - apply (cr_write _ Hr).
  - intros p m' Hp [Hg Hn] Hd Hw. apply elem_of_pairs in Hp as Hp'. destruct Hp' as [Hi Hj].
    assert (same_operands d (dram m')) as Ho by (by eapply same_operands_differ).
    apply wp_bind, wp_cpu_bias; [done..|]. apply wp_bind.
    apply (wp_fold_range (fun k sum m'' => m'' = m' /\ sum = cpu_sum d k (fst p) (snd p))).
    + split; [done|]. symmetry. apply cpu_sum_0.
    + intros k sum m'' Hk [-> ->]. apply wp_cpu_mac; [done..|]. split; [done|]. apply cpu_sum_S. lia.
    + intros sum m'' [-> ->]. apply wp_cpu_store; [done..| |].
      * destruct (Z.le_gt_cases 0 (ma_dim_K x)); [by rewrite Z.max_r by lia|]. rewrite Z.max_l by lia.
        unfold cpu_sum. by rewrite !Zsum_0 by lia.
      * intros m'' Hg' Hn' Hd' Hv. unfold untouched. split_and!; [congruence|congruence|done|done].
Qed.

(** ** The 4 x 4 blocks *)

(** The elements of the block at [q]. *)
Definition block_elems (q : Z * Z) : list (Z * Z) := (fun p => (fst q + fst p, snd q + snd p)) <$> pairs 4 4.

Definition block_inside (q : Z * Z) : Prop :=
  0 <= fst q /\ fst q + 4 <= ma_dim_I x /\ 0 <= snd q /\ snd q + 4 <= ma_dim_J x.

Lemma block_elems_inside q p : block_inside q -> p ∈ block_elems q -> p ∈ pairs (ma_dim_I x) (ma_dim_J x).
Proof.
  intros (? & ? & ? & ?) (r & -> & [? ?]%elem_of_pairs)%list_elem_of_fmap. apply elem_of_pairs. simpl. lia.
Qed.

(** The local array holds, for each element of the block, the sum of the first
    [k] products. *)
Definition sums (q : Z * Z) (k : Z) (v : vec2) : Prop :=
  v_rows v = 4 /\ v_cols v = 4 /\
  forall p, p ∈ pairs 4 4 -> vget v (fst p) (snd p) = cpu_sum d k (fst q + fst p) (snd q + snd p).

Lemma in_block v p : v_rows v = 4 -> v_cols v = 4 -> p ∈ pairs 4 4 -> in_shape v (fst p) (snd p) = true.
Proof. intros Hr4 Hc4 [? ?]%elem_of_pairs. apply in_shape_spec. lia. Qed.

(** A pass over the array that sets every element. *)
Lemma sums_fill q k val v : v_rows v = 4 -> v_cols v = 4 ->
  (forall p, p ∈ pairs 4 4 -> val p (vget v (fst p) (snd p)) = cpu_sum d k (fst q + fst p) (snd q + snd p)) ->
  sums q k (fill id val (pairs 4 4) v).
Proof.
  intros Hr4 Hc4 Hv. unfold sums. rewrite fill_rows, fill_cols. split_and!; [done..|]. intros p Hp.
  rewrite <- Hv by done. apply (vget_fill_in id); [apply NoDup_pairs|done|done].
Qed.

Lemma wp_block_init q m Q : block_inside q -> same_operands d (dram m) ->
  (forall v, sums q 0 v -> Q v m) ->
  wp (fold_range 0 4 (fun result ii => fold_range 0 4 (fun result jj =>
        v ← cpu_bias x (fst q + ii) (snd q + jj); vec_put result ii jj v) result) (vec2_zeros 4 4)) Q m.
Proof.
  intros (? & ? & ? & ?) Ho HQ. apply wp_fold_pairs.
  apply (wp_fold_fill _ id (fun p _ => bias_val d (fst q + fst p) (snd q + snd p))).
  - intros p v Hp Hvr Hvc. pose proof Hp as [? ?]%elem_of_pairs. apply wp_bind, wp_cpu_bias; [done|lia..|].
    apply wp_vec_put; [by apply in_block|done].
  - apply HQ, sums_fill; [done..|]. intros p Hp. symmetry. apply cpu_sum_0.
Qed.

Lemma A_at_plain i k : ma_trans_A x = false -> ma_A x + i * ma_stride_A x + k = A_at i k.
Proof. unfold A_at. intros ->. lia. Qed.
Lemma B_at_plain k j jj : ma_trans_B x = false -> ma_B x + k * ma_stride_B x + j + jj = B_at k (j + jj).
Proof. unfold B_at. intros ->. lia. Qed.

Lemma wp_block_step q k v m Q : ma_trans_A x = false -> ma_trans_B x = false ->
  block_inside q -> same_operands d (dram m) -> 0 <= k < ma_dim_K x -> sums q k v ->
  (forall v, sums q (k + 1) v -> Q v m) ->
  wp (fold_range 0 4 (fun result ii => fold_range 0 4 (fun result jj =>
        old ← vec_at result ii jj;
        v ← cpu_mac x (ma_A x + (fst q + ii) * ma_stride_A x + k) (ma_B x + k * ma_stride_B x + snd q + jj) old;
        vec_put result ii jj v) result) v) Q m.
Proof.
  intros HA HB (? & ? & ? & ?) Ho Hk (Hvr & Hvc & Hv) HQ. apply wp_fold_pairs.
  apply (wp_fold_fill _ id (fun p old => s32 (old + prod d (fst q + fst p) (snd q + snd p) k))).
  - intros p v' Hp Hvr' Hvc'. pose proof Hp as [? ?]%elem_of_pairs.
    assert (in_shape v' (fst p) (snd p) = true) by (apply in_block; congruence).
    apply wp_bind, wp_vec_at; [done|]. rewrite A_at_plain, B_at_plain by done. apply wp_bind, wp_cpu_mac; [done|lia..|].
    by apply wp_vec_put.
  - apply HQ, sums_fill; [done..|]. intros p Hp. rewrite Hv by done. apply cpu_sum_S. lia.
Qed.

Lemma wp_cpu_block q m Q : ma_trans_A x = false -> ma_trans_B x = false ->
  block_inside q -> 0 <= ma_dim_K x -> same_operands d (dram m) ->
  (forall p, p ∈ block_elems q -> mem_writable 1 (dram m) (C_at p)) ->
  (forall m', untouched m (gs m') (rand_pos m') ->
     store_post 1 C_at (fun p => default 0 (cpu_value d p)) (block_elems q) (dram m) (dram m') -> Q tt m') ->
  wp (cpu_block x (fst q) (snd q)) Q m.
Proof.
  intros HA HB Hq HK Ho Hw HQ. unfold cpu_block. apply wp_bind, wp_block_init; [done..|]. intros v0 Hv0.
  apply wp_bind. apply (wp_fold_range (fun k v m' => m' = m /\ sums q k v)); [done| |].
  { intros k v m' Hk [-> Hv]. apply wp_block_step; [done..|]. auto. }
  intros v m' [-> Hv]. rewrite Z.max_r in Hv by done. destruct Hv as (Hvr & Hvc & Hv). apply wp_for_pairs.
  set (e := fun p : Z * Z => (fst q + fst p, snd q + snd p)).
  apply (wp_store 1 (fun p => C_at (e p)) (fun p => default 0 (cpu_value d (e p))) _ (untouched m));
    [lia|apply NoDup_pairs| | |done| |].
  - intros p p' b Hp Hp' Hb Hb'. assert (e p = e p') as He.
    { apply (cr_disjoint _ Hr) with b; [| |done..]; eapply block_elems_inside; try done; by apply list_elem_of_fmap_2. }
    destruct p, p'. injection He. intros. f_equal; lia.
  - intros p Hp. apply Hw. by apply list_elem_of_fmap_2.
  - intros p m' Hp [Hg Hn] Hd Hwp. apply wp_bind, wp_vec_at; [by apply in_block|]. rewrite Hv by done.
    change (fst q + fst p) with (fst (e p)). change (snd q + snd p) with (snd (e p)).
    apply wp_cpu_store; [|done..|].
    + eapply block_elems_inside; [done|]. by apply list_elem_of_fmap_2.
    + intros m'' Hg' Hn' Hd' Hv'. unfold untouched. split_and!; [congruence|congruence|done|done].
  - intros m' Hi Hs. apply HQ; [done|]. by apply store_post_fmap.
Qed.

(** The blocks the loop visits. *)
Definition blocks : list (Z * Z) := grid 0 (ma_dim_I x) 4 0 (ma_dim_J x) 4.

Section blocked.
Context (HI : ma_dim_I x mod 4 = 0) (HJ : ma_dim_J x mod 4 = 0).

Lemma elem_of_blocks q : q ∈ blocks <-> block_inside q /\ fst q mod 4 = 0 /\ snd q mod 4 = 0.
Proof.
  unfold blocks, block_inside. rewrite elem_of_grid, !elem_of_steps by lia. split.
  - intros [(k & Hk & -> & Hlt) (k' & Hk' & -> & Hlt')]. zlia.
  - intros [(? & ? & ? & ?) [Hq Hq']]. split; [exists (fst q / 4)|exists (snd q / 4)]; zlia.
Qed.

(** A block is determined by any of its elements. *)
Lemma block_of_elem q q' p : q ∈ blocks -> q' ∈ blocks -> p ∈ block_elems q -> p ∈ block_elems q' -> q = q'.
Proof.
  intros (_ & Hq1 & Hq2)%elem_of_blocks (_ & Hq1' & Hq2')%elem_of_blocks
    (r & -> & [? ?]%elem_of_pairs)%list_elem_of_fmap (r' & [= E1 E2] & [? ?]%elem_of_pairs)%list_elem_of_fmap.
  destruct q, q'. cbn [fst snd] in *. f_equal; zlia.
Qed.

Lemma blocks_cover p : p ∈ pairs (ma_dim_I x) (ma_dim_J x) -> p ∈ concat (block_elems <$> blocks).
Proof.
  intros [Hi Hj]%elem_of_pairs. apply elem_of_concat_fmap. exists (fst p / 4 * 4, snd p / 4 * 4). split.
  - apply elem_of_blocks. unfold block_inside. cbn [fst snd]. zlia.
  - apply list_elem_of_fmap. exists (fst p mod 4, snd p mod 4). split.
    + destruct p. cbn [fst snd]. f_equal; zlia.
    + apply elem_of_pairs. cbn [fst snd]. zlia.
Qed.

Lemma wp_cpu_blocked m Q : ma_trans_A x = false -> ma_trans_B x = false -> 0 <= ma_dim_K x -> dram m = d ->
  (forall m', untouched m (gs m') (rand_pos m') ->
     store_post 1 C_at (fun p => default 0 (cpu_value d p)) (concat (block_elems <$> blocks)) d (dram m') -> Q tt m') ->
  wp (for_step 0 (ma_dim_I x) 4 (fun i => for_step 0 (ma_dim_J x) 4 (fun j => cpu_block x i j))) Q m.
Proof.
  intros HA HB HK Hm HQ. apply wp_for_grid.
  assert (forall q p, q ∈ blocks -> p ∈ block_elems q -> p ∈ pairs (ma_dim_I x) (ma_dim_J x)) as Hin.
  { intros q p [Hq _]%elem_of_blocks. by apply block_elems_inside. }
  apply (wp_store_chunks 1 C_at (fun p => default 0 (cpu_value d p)) block_elems _ (untouched m));
    rewrite ?Hm; [| |done| |exact HQ].
  - intros k k' q q' p p' b Hq Hq' Hp Hp' Hb Hb'.
    pose proof (list_elem_of_lookup_2 _ _ _ Hq) as Hql. pose proof (list_elem_of_lookup_2 _ _ _ Hq') as Hql'.
    assert (p = p') as <- by (eapply (cr_disjoint _ Hr); eauto).
    assert (q = q') as <- by (by eapply block_of_elem).
    eapply NoDup_lookup; [|done..]. apply NoDup_grid; lia.
  - intros q p Hq Hp. apply (cr_write _ Hr). eauto.
  - intros q m' Hq [Hg Hn] Hd Hw. apply wp_cpu_block; [done..| |done| |done|].
    + by apply elem_of_blocks in Hq as [? _].
    + eapply same_operands_differ; [|exact Hd]. intros p (q' & Hq' & Hp)%elem_of_concat_fmap. eauto.
    + intros m'' [Hg' Hn'] Hs. split; [|done]. split; congruence.
Qed.
End blocked.

(** Both paths store the product. *)
Lemma wp_matmul_cpu m Q : 0 <= ma_dim_K x -> dram m = d ->
  (forall m', untouched m (gs m') (rand_pos m') ->
     (forall p, p ∈ pairs (ma_dim_I x) (ma_dim_J x) ->
        mem_int 1 (dram m') (C_at p) = s8 (default 0 (cpu_value d p))) ->
     mem_differ (stored 1 C_at (pairs (ma_dim_I x) (ma_dim_J x))) d (dram m') -> Q tt m') ->
  wp (matmul_cpu x) Q m.
Proof.
  intros HK Hm HQ. unfold matmul_cpu. case_match eqn:E.
  - rewrite !andb_true_iff, !negb_true_iff, !Z.eqb_eq in E. destruct E as [[[HA HB] HI] HJ].
    apply wp_cpu_blocked; [done..|]. intros m' Hu [Hd Hv]. apply HQ; [done| |].
    + intros p Hp. by apply (Hv p), blocks_cover.
    + eapply mem_differ_weaken; [exact Hd|]. intros b (p & (q & Hq & Hp)%elem_of_concat_fmap & Hb). exists p.
      split; [|done]. apply elem_of_blocks in Hq as [Hq _]; [|done..]. by eapply block_elems_inside.
  - apply wp_cpu_general; [done|]. intros m' Hu [Hd Hv]. apply HQ; [done| |done]. intros p Hp. by apply (Hv p).
Qed.
End run.

(** C23: functional correctness of [matmul_cpu].  On either of its two paths (the
    4 x 4 blocks, chosen when both result dimensions are multiples of 4 and nothing
    is transposed, and the general loop), with defined scales, readable operands
    and a result that does not overlap them, the call ends without a fault; every
    element of C is the scaled, saturated and activated 32-bit sum of the bias and
    the products of the scaled elements of A and B as they were before the call;
    no other byte of memory and nothing in the accelerator changes. *)
Theorem matmul_cpu_correct m : 0 <= ma_dim_K x -> cpu_ready (dram m) ->
  wp (matmul_cpu x) (fun _ m' =>
    (forall p, p ∈ pairs (ma_dim_I x) (ma_dim_J x) ->
       mem_int 1 (dram m') (C_at p) = s8 (default 0 (cpu_value (dram m) p))) /\
    mem_differ (stored 1 C_at (pairs (ma_dim_I x) (ma_dim_J x))) (dram m) (dram m') /\
    gs m' = gs m /\ rand_pos m' = rand_pos m) m.
Proof.
  intros HK Hr. apply (wp_matmul_cpu (dram m) Hr); [done..|]. intros m' [? ?] ? ?. done.
Qed.
End spec.

(** ** A concrete product: 4 x 2 by 2 x 4, no bias *)

Definition small_args : matmul_args := {|
  ma_dim_I := 4; ma_dim_J := 4; ma_dim_K := 2; ma_A := 0x1000; ma_B := 0x1020; ma_D := 0; ma_C := 0x1080;
  ma_stride_A := 2; ma_stride_B := 4; ma_stride_D := 4; ma_stride_C := 4;
  ma_A_scale := f32_one; ma_B_scale := f32_one; ma_D_scale := 1; ma_act := 0; ma_scale := f32_one;
  ma_relu6_shift := 0; ma_repeating_bias := false; ma_trans_A := false; ma_trans_B := false;
  ma_full_C := false; ma_low_D := false; ma_weightA := 0 |}.

Lemma float_total_one : float_total f32_one.
Proof.
  intros v Hv. apply (by_evaluation (fun v => is_Some (MVIN_SCALE v f32_one))
    (fun v => defined (MVIN_SCALE v f32_one)) (seqZ (-128) 256)).
  - intros a. apply defined_is_Some.
  - by vm_compute.
  - apply elem_of_seqZ. unfold in_s in Hv. lia.
Qed.

Lemma small_operand size a : operand_elem small_args size a -> size = 1 /\ 0x1000 <= a < 0x1028.
Proof. intros Ho. inversion Ho; subst; unfold A_at, B_at in *; cbn in *; [lia..|done]. Qed.

Lemma small_ready : cpu_ready small_args (dram demo).
Proof.
  split; change (ma_dim_I small_args) with 4; change (ma_dim_J small_args) with 4.
  - apply float_total_one.
  - apply float_total_one.
  - intros size a [-> Ha]%small_operand. apply flat_mem_readable; simpl; lia.
  - pairs_solve. unfold C_at. cbn. apply flat_mem_writable; simpl; lia.
  - intros [i j] [i' j'] b. rewrite !elem_of_pairs. unfold C_at. cbn. intros ? ? (k & ? & ->) (k' & ? & E).
    rewrite !wrap_u_id in E by (unfold in_u; lia). f_equal; lia.
  - intros [i j] size a b [Hi Hj]%elem_of_pairs [-> Ha]%small_operand (k & Hk & ->) (k' & Hk' & E). cbn in *.
    unfold C_at in E. cbn in E. rewrite !wrap_u_id in E by (unfold in_u; lia). lia.
  - apply (by_evaluation (fun p => is_Some (cpu_value small_args (dram demo) p))
      (fun p => defined (cpu_value small_args (dram demo) p))).
    + intros p. apply defined_is_Some.
    + by vm_compute.
Qed.

Lemma matmul_cpu_correct_witness :
  wp (matmul_cpu small_args) (fun _ m' =>
    (forall p, p ∈ pairs 4 4 -> mem_int 1 (dram m') (C_at small_args p) = s8 (default 0 (cpu_value small_args (dram demo) p))) /\
    mem_differ (stored 1 (C_at small_args) (pairs 4 4)) (dram demo) (dram m') /\
    gs m' = gs demo /\ rand_pos m' = rand_pos demo) demo.
Proof. apply (matmul_cpu_correct small_args demo); [by vm_compute|apply small_ready]. Defined.
