(* ===== verification/Matmul.v ===== *)
(** * Matmul: the tiled matrix multiplication of the driver

    [sp_tiled_matmul_os], [sp_tiled_matmul_ws], [tiled_matmul_outer],
    [tiled_matmul] and [tiled_matmul_auto] of systolic_include.h. *)

From S2P Require Import Prelude Effects Float32 Params State Dram Fill Scaling Norm Config Move Compute LoopWs LoopConv Counters Dispatch Isa MatmulCpu.

(** The inner kernels' arguments: one tile. *)
Record tile_args := {
  ta_A : Z; ta_B : Z; ta_D : Z; ta_C : Z;
  ta_I : Z; ta_J : Z; ta_K : Z; ta_pad_I : Z; ta_pad_J : Z; ta_pad_K : Z; ta_no_bias : bool }.

Section tiles.
Context {mem : Type} `{Mmu mem} `{Rand}.
Variable (x : matmul_args).

(** [blocks] and [cols] of a multi-block move: [n] blocks in all, [per] at a time. *)
Definition mv_blocks (j per n : Z) : Z := if j + per <=? n then per else n - j.
Definition mv_cols (j per n pad : Z) : Z := u64 (mv_blocks j per n * DIM - (if n <=? j + mv_blocks j per n then pad else 0)).
Definition last_len (i n pad : Z) : Z := u64 (DIM - (if i =? n - 1 then pad else 0)).

(** [sp_tiled_matmul_os]: its move-in of D, of B, of A, its compute loop and
    its move-out. *)
Definition os_mvin_D (t : tile_args) : M (machine mem) unit :=
  let D_blocks := if ta_J t <=? MAX_BLOCK_LEN_ACC then ta_J t else MAX_BLOCK_LEN_ACC in
  when (negb (ta_D t =? 0) && negb (ta_no_bias t))
    (let D_stride := if ma_repeating_bias x then 0 else u64 (ma_stride_D x * sizeof_acc_t) in
     gemmini_extended_config_ld D_stride (f32_of_Z (ma_D_scale x)) ;;
     for_range 0 (ta_I t) (fun i =>
       for_step 0 (ta_J t) D_blocks (fun j =>
         let bias_row := if ma_repeating_bias x then 0 else i in
         let D_dram_addr := ta_D t + (bias_row * ma_stride_D x + j) * DIM * sizeof_acc_t in
         let D_sp_addr_acc := u32 (D_start + (i * ta_J t + j) * DIM) in
         gemmini_extended_mvin D_dram_addr D_sp_addr_acc (mv_cols j D_blocks (ta_J t) (ta_pad_J t))
           (last_len i (ta_I t) (ta_pad_I t))))).

Definition os_B_start (t : tile_args) : Z := u32 (BANK_NUM * BANK_ROWS - ta_K t * ta_J t * DIM).

Definition os_mvin_B (t : tile_args) : M (machine mem) unit :=
  let B_blocks := if ta_J t <=? MAX_BLOCK_LEN then ta_J t else MAX_BLOCK_LEN in
  gemmini_extended_config_ld (u64 (ma_stride_B x * sizeof_elem_t)) (ma_B_scale x) ;;
  for_step 0 (ta_J t) B_blocks (fun j =>
    for_range 0 (ta_K t) (fun k =>
      let B_dram_addr := ta_B t + (k * ma_stride_B x + j) * DIM in
      let B_sp_addr := u32 (os_B_start t + (k * ta_J t + j) * DIM) in
      gemmini_extended_mvin B_dram_addr B_sp_addr (mv_cols j B_blocks (ta_J t) (ta_pad_J t))
        (last_len k (ta_K t) (ta_pad_K t)))).

Definition os_mvin_A (t : tile_args) : M (machine mem) unit :=
  let A_blocks := if ta_K t <=? MAX_BLOCK_LEN then ta_K t else MAX_BLOCK_LEN in
  gemmini_extended_config_ld (u64 (ma_stride_A x * sizeof_elem_t)) (ma_A_scale x) ;;
  for_range 0 (ta_I t) (fun i =>
    for_step 0 (ta_K t) A_blocks (fun k =>
      let A_dram_addr := ta_A t + (i * ma_stride_A x + k) * DIM in
      let A_sp_addr := u32 ((i * ta_K t + k) * DIM) in
      gemmini_extended_mvin A_dram_addr A_sp_addr (mv_cols k A_blocks (ta_K t) (ta_pad_K t))
        (last_len i (ta_I t) (ta_pad_I t)))).

Definition os_compute (t : tile_args) : M (machine mem) unit :=
  for_range 0 (ta_I t) (fun i =>
    for_range 0 (ta_J t) (fun j =>
      let C_sp_addr := u32 (C_start (ma_full_C x) + (i * ta_J t + j) * DIM) in
      for_range 0 (ta_K t) (fun k =>
        let A_sp_addr := u32 ((i * ta_K t + k) * DIM) in
        let B_sp_addr := u32 (os_B_start t + (k * ta_J t + j) * DIM) in
        let last_k := k =? ta_K t - 1 in
        let out_sp_addr := if last_k then C_sp_addr else GARBAGE_ADDR in
        let no_bias_new_matrix := ta_no_bias t && negb (ta_D t =? 0) && last_k in
        let out_sp_addr := if no_bias_new_matrix then out_sp_addr &ᵇ u32 (Z.lnot (1 ≪ (ADDR_LEN - 2))) else out_sp_addr in
        let len_I := last_len i (ta_I t) (ta_pad_I t) in
        let len_J := last_len j (ta_J t) (ta_pad_J t) in
        let len_K := last_len k (ta_K t) (ta_pad_K t) in
        gemmini_extended_preload GARBAGE_ADDR out_sp_addr DIM DIM len_J len_I ;;
        if k =? 0
        then gemmini_extended_compute_preloaded A_sp_addr B_sp_addr len_K len_I len_J len_K
        else gemmini_extended_compute_accumulated A_sp_addr B_sp_addr len_K len_I len_J len_K))).

Definition os_mvout (t : tile_args) : M (machine mem) unit :=
  let sizeof_C := if ma_full_C x then sizeof_acc_t else sizeof_elem_t in
  when (negb (ta_C t =? 0))
    (for_range 0 (ta_I t) (fun i =>
      for_range 0 (ta_J t) (fun j =>
        let C_dram_addr := ta_C t + (i * ma_stride_C x + j) * DIM * sizeof_C in
        let C_sp_addr := u32 (C_start (ma_full_C x) + (i * ta_J t + j) * DIM) in
        gemmini_extended_mvout C_dram_addr C_sp_addr (last_len j (ta_J t) (ta_pad_J t)) (last_len i (ta_I t) (ta_pad_I t))))).

Definition sp_tiled_matmul_os (t : tile_args) : M (machine mem) unit :=
  os_mvin_D t ;; os_mvin_B t ;; os_mvin_A t ;; os_compute t ;; os_mvout t.

(** [sp_tiled_matmul_ws]: one loop instruction; the older kernel is commented
    out in the source. *)
Definition sp_tiled_matmul_ws (t : tile_args) : M (machine mem) unit :=
  gemmini_loop_ws (ta_I t) (ta_J t) (ta_K t) (ta_pad_I t) (ta_pad_J t) (ta_pad_K t)
    (ta_A t) (ta_B t) (if ta_no_bias t then 0 else ta_D t) (ta_C t)
    (ma_stride_A x) (ma_stride_B x) (if ma_repeating_bias x then 0 else ma_stride_D x) (ma_stride_C x)
    (ma_trans_A x) (ma_trans_B x) (ma_full_C x) (ma_low_D x) (negb (ta_no_bias t) || (ta_D t =? 0)) (ma_weightA x).

(** ** The outer loops *)

(** Padded dimension, number of tiles, size of the last tile, in blocks. *)
Definition padded (dim : Z) : Z := u64 (cdiv dim DIM * DIM).
Definition num_tiles (dim tile : Z) : Z := cdiv (padded dim) (u64 (tile * DIM)).
Definition last_tile (dim tile : Z) : Z :=
  if padded dim mod u64 (tile * DIM) =? 0 then tile else (padded dim / DIM) mod tile.
Definition padding (dim : Z) : Z := u64 (padded dim - dim).

(** Blocks and padding of tile [i0]. *)
Definition tile_len (dim tile i0 : Z) : Z := if i0 <? num_tiles dim tile - 1 then tile else last_tile dim tile.
Definition tile_pad (dim tile i0 : Z) : Z := if i0 =? num_tiles dim tile - 1 then padding dim else 0.

(** The arguments of the inner kernel for tile [(i0, j0, k0)]; [D] is the
    dummy address 1 when there is no bias. *)
Definition outer_tile (tile_I tile_J tile_K i0 j0 k0 : Z) : tile_args :=
  let no_bias := ma_D x =? 0 in
  let D := if no_bias then 1 else ma_D x in
  let sizeof_D := if ma_low_D x then sizeof_elem_t else sizeof_acc_t in
  let sizeof_C := if ma_full_C x then sizeof_acc_t else sizeof_elem_t in
  let bias_row := if ma_repeating_bias x then 0 else i0 * tile_I * DIM in
  {| ta_A := if ma_trans_A x then ma_A x + k0 * tile_K * DIM * ma_stride_A x + i0 * tile_I * DIM
             else ma_A x + i0 * tile_I * DIM * ma_stride_A x + k0 * tile_K * DIM;
     ta_B := if ma_trans_B x then ma_B x + j0 * tile_J * DIM * ma_stride_B x + k0 * tile_K * DIM
             else ma_B x + k0 * tile_K * DIM * ma_stride_B x + j0 * tile_J * DIM;
     ta_D := if negb (k0 =? 0) then 0 else D + (bias_row * ma_stride_D x + j0 * tile_J * DIM) * sizeof_D;
     ta_C := if k0 =? num_tiles (ma_dim_K x) tile_K - 1
             then ma_C x + (i0 * tile_I * DIM * ma_stride_C x + j0 * tile_J * DIM) * sizeof_C else 0;
     ta_I := tile_len (ma_dim_I x) tile_I i0;
     ta_J := tile_len (ma_dim_J x) tile_J j0;
     ta_K := tile_len (ma_dim_K x) tile_K k0;
     ta_pad_I := tile_pad (ma_dim_I x) tile_I i0;
     ta_pad_J := tile_pad (ma_dim_J x) tile_J j0;
     ta_pad_K := tile_pad (ma_dim_K x) tile_K k0;
     ta_no_bias := no_bias |}.

Definition tiled_matmul_outer (tile_I tile_J tile_K dataflow : Z) : M (machine mem) unit :=
  let sizeof_D := if ma_low_D x then sizeof_elem_t else sizeof_acc_t in
  let sizeof_C := if ma_full_C x then sizeof_acc_t else sizeof_elem_t in
  check ((0 <? tile_I) && (0 <? tile_J) && (0 <? tile_K)) Undefined ;;
  gemmini_extended_config_ex dataflow (ma_act x) 0 (ma_relu6_shift x) 1 (ma_trans_A x) (ma_trans_B x) ;;
  gemmini_extended_config_st (ma_stride_C x) sizeof_C (ma_act x) (ma_scale x) ;;
  gemmini_extended3_config_ld (ma_stride_A x * sizeof_elem_t) (ma_A_scale x) false 0 ;;
  gemmini_extended3_config_ld (ma_stride_B x * sizeof_elem_t) (ma_B_scale x) false 1 ;;
  gemmini_extended3_config_ld (if ma_repeating_bias x then 0 else ma_stride_D x * sizeof_D)
    (f32_of_Z (ma_D_scale x)) (ma_low_D x) 2 ;;
  let inner := if dataflow =? OUTPUT_STATIONARY then sp_tiled_matmul_os else sp_tiled_matmul_ws in
  for_range 0 (num_tiles (ma_dim_I x) tile_I) (fun i0 =>
    for_range 0 (num_tiles (ma_dim_J x) tile_J) (fun j0 =>
      for_range 0 (num_tiles (ma_dim_K x) tile_K) (fun k0 =>
        inner (outer_tile tile_I tile_J tile_K i0 j0 k0)))) ;;
  gemmini_fence.

(** ** Entry points *)

Inductive tiled_matmul_type_t := T_OS | T_WS | T_CPU.

Definition is_ws (ty : tiled_matmul_type_t) : bool := match ty with T_WS => true | _ => false end.

Definition max_spad_rows (ty : tiled_matmul_type_t) : Z :=
  if is_ws ty then BANK_NUM * BANK_ROWS / 2 else BANK_NUM * BANK_ROWS.
Definition max_acc_rows (ty : tiled_matmul_type_t) : Z := if is_ws ty then ACC_ROWS / 2 else ACC_ROWS.

(** The assertions of [tiled_matmul]: false where the code prints a message and
    exits.  The last message of the source does not exit. *)
Definition tiled_matmul_ok (tile_I tile_J tile_K : Z) (ty : tiled_matmul_type_t) : bool :=
  (0 <? tile_I) && (0 <? tile_J) && (0 <? tile_K) &&
  (u64 (tile_I * DIM) <=? padded (ma_dim_I x)) && (u64 (tile_J * DIM) <=? padded (ma_dim_J x)) &&
  (u64 (tile_K * DIM) <=? padded (ma_dim_K x)) &&
  (u64 (tile_I * tile_K * DIM + tile_K * tile_J * DIM) <=? max_spad_rows ty) &&
  (u64 (tile_I * tile_J * DIM) <=? max_acc_rows ty) &&
  (tile_I <=? 65535) && (tile_J <=? 65535) && (tile_K <=? 65535) &&
  match ty with
  | T_OS => negb (ma_trans_A x || ma_trans_B x)
  | T_WS => negb (ma_trans_A x && ma_trans_B x)
  | T_CPU => true
  end.

Definition tiled_matmul (tile_I tile_J tile_K : Z) (ty : tiled_matmul_type_t) : M (machine mem) unit :=
  check (tiled_matmul_ok tile_I tile_J tile_K ty) ExitFailure ;;
  match ty with
  | T_OS => tiled_matmul_outer tile_I tile_J tile_K 0
  | T_WS => tiled_matmul_outer tile_I tile_J tile_K 1
  | T_CPU => matmul_cpu x
  end.
End tiles.

(** ** Automatic tiling *)

Definition tiled_matmul_total_spad_rows (I J K : Z) : Z := u64 ((I * K + K * J) * DIM).
Definition tiled_matmul_total_acc_rows (I J : Z) : Z := u64 (I * J * DIM).

(** [(size_t)sqrt(n)] *)
Definition size_sqrt (n : Z) : Z := default 0 (f_to_int 64 (f64_sqrt (f64_of_Z n))).

Definition partition_rows : Z := BANK_NUM * BANK_ROWS / 2.
Definition mats_in_partition : Z := partition_rows / DIM.
Definition mats_in_acc : Z := ACC_ROWS / DIM.
Definition max_tile_i_j : Z := size_sqrt mats_in_acc.
Definition max_tile_k : Z := mats_in_partition / max_tile_i_j.
Definition db_partition_rows : Z := (BANK_NUM * BANK_ROWS / 2) / 2.
Definition db_mats_in_partition : Z := db_partition_rows / DIM.
Definition db_mats_in_acc : Z := (ACC_ROWS / 2) / DIM.
Definition db_max_tile_i_j : Z := size_sqrt db_mats_in_acc.
Definition db_max_tile_k : Z := db_mats_in_partition / db_max_tile_i_j.

Definition smaller (a b : Z) : Z := if a <? b then a else b.

(** The initial factors. *)
Definition initial_tiles (dim_I dim_J dim_K : Z) (ty : tiled_matmul_type_t) : Z * Z * Z :=
  if is_ws ty then
    (smaller (padded dim_I / DIM) db_max_tile_i_j, smaller (padded dim_J / DIM) db_max_tile_i_j,
     smaller (padded dim_K / DIM) db_max_tile_k)
  else
    (smaller (padded dim_I / DIM) max_tile_i_j, smaller (padded dim_J / DIM) max_tile_i_j,
     smaller (padded dim_K / DIM) max_tile_k).

(** One pass of [while (true)]: grow J, then I, then K, each if it still fits;
    the flag says whether anything grew. *)
Definition grow_J (dim_J : Z) (ty : tiled_matmul_type_t) (I J K : Z) : bool :=
  (tiled_matmul_total_spad_rows I (J + 1) K <=? max_spad_rows ty) &&
  (tiled_matmul_total_acc_rows I (J + 1) <=? max_acc_rows ty) && (u64 ((J + 1) * DIM) <=? padded dim_J).
Definition grow_I (dim_I : Z) (ty : tiled_matmul_type_t) (I J K : Z) : bool :=
  (tiled_matmul_total_spad_rows (I + 1) J K <=? max_spad_rows ty) &&
  (tiled_matmul_total_acc_rows (I + 1) J <=? max_acc_rows ty) && (u64 ((I + 1) * DIM) <=? padded dim_I).
Definition grow_K (dim_K : Z) (ty : tiled_matmul_type_t) (I J K : Z) : bool :=
  (tiled_matmul_total_spad_rows I J (K + 1) <=? max_spad_rows ty) && (u64 ((K + 1) * DIM) <=? padded dim_K).

Definition grow_step (dim_I dim_J dim_K : Z) (ty : tiled_matmul_type_t) (t : Z * Z * Z) : (Z * Z * Z) * bool :=
  let '(tile_I, tile_J, tile_K) := t in
  let j := grow_J dim_J ty tile_I tile_J tile_K in
  let tile_J := if j then tile_J + 1 else tile_J in
  let i := grow_I dim_I ty tile_I tile_J tile_K in
  let tile_I := if i then tile_I + 1 else tile_I in
  let k := grow_K dim_K ty tile_I tile_J tile_K in
  let tile_K := if k then tile_K + 1 else tile_K in
  ((tile_I, tile_J, tile_K), j || i || k).

(** The loop, with a bound on its passes. *)
Fixpoint grow_tiles (fuel : nat) (dim_I dim_J dim_K : Z) (ty : tiled_matmul_type_t) (t : Z * Z * Z) : option (Z * Z * Z) :=
  match fuel with
  | O => None
  | S fuel' =>
      let '(t', increased) := grow_step dim_I dim_J dim_K ty t in
      if increased then grow_tiles fuel' dim_I dim_J dim_K ty t' else Some t'
  end.

(** Each pass but the last adds at least one block to a factor that stays
    within its padded dimension, so this many passes are enough. *)
Definition tile_fuel (dim_I dim_J dim_K : Z) : nat :=
  S (Z.to_nat (cdiv dim_I DIM + cdiv dim_J DIM + cdiv dim_K DIM)).

Definition auto_tiles (dim_I dim_J dim_K : Z) (ty : tiled_matmul_type_t) : option (Z * Z * Z) :=
  grow_tiles (tile_fuel dim_I dim_J dim_K) dim_I dim_J dim_K ty (initial_tiles dim_I dim_J dim_K ty).

Definition tiled_matmul_auto {mem} `{Mmu mem} `{Rand} (x : matmul_args) (ty : tiled_matmul_type_t) : M (machine mem) unit :=
  t ← of_option LoopWraps (auto_tiles (ma_dim_I x) (ma_dim_J x) (ma_dim_K x) ty);
  let '(tile_I, tile_J, tile_K) := t in
  tiled_matmul x tile_I tile_J tile_K ty.
