(* ===== verification/MatmulSpec.v ===== *)
(** * MatmulSpec: the tiling of the driver is correct

    The search for tiling factors ends and yields factors that pass every
    assertion of [tiled_matmul] and cannot be grown; the tiles of
    [tiled_matmul_outer] partition the matrix; every tile passes the capacity
    test of the loop instruction. *)

From S2P Require Import Prelude Effects Float32 Params State Dram Fill Scaling Norm Config Move Compute LoopWs LoopConv Counters Dispatch Isa MatmulCpu Matmul.

(** Dimensions for which no [size_t] product of the code wraps. *)
Definition dim_ok (dim : Z) : Prop := 1 <= dim <= 2 ^ 48.

Lemma blocks_pos dim : dim_ok dim -> 1 <= cdiv dim DIM <= 2 ^ 48.
Proof.
  intros Hd. unfold dim_ok in Hd. pose proof (cdiv_spec dim DIM ltac:(by unfold DIM)). unfold DIM in *. lia.
Qed.

Lemma padded_eq dim : dim_ok dim -> padded dim = cdiv dim DIM * DIM.
Proof.
  intros Hd. pose proof (blocks_pos dim Hd). unfold padded. apply wrap_u_id. unfold in_u, DIM in *. lia.
Qed.

Lemma padded_div dim : dim_ok dim -> padded dim / DIM = cdiv dim DIM.
Proof. intros Hd. rewrite padded_eq by done. apply Z.div_mul. by unfold DIM. Qed.

(** ** The search for tiling factors *)

(** Factors that fit: at least one block each, no larger than the matrix, and
    within the capacity of the scratchpad and of the accumulator. *)
Record tiles_fit (dim_I dim_J dim_K : Z) (ty : tiled_matmul_type_t) (t : Z * Z * Z) : Prop := {
  tf_I : 1 <= fst (fst t) <= cdiv dim_I DIM;
  tf_J : 1 <= snd (fst t) <= cdiv dim_J DIM;
  tf_K : 1 <= snd t <= cdiv dim_K DIM;
  tf_spad : (fst (fst t) * snd t + snd t * snd (fst t)) * DIM <= max_spad_rows ty;
  tf_acc : fst (fst t) * snd (fst t) * DIM <= max_acc_rows ty }.

Lemma max_spad_bound ty : 8192 <= max_spad_rows ty <= 16384.
Proof. destruct ty; by vm_compute. Qed.
Lemma max_acc_bound ty : 512 <= max_acc_rows ty <= 1024.
Proof. destruct ty; by vm_compute. Qed.

(** Factors that fit are small. *)
Lemma tiles_small dim_I dim_J dim_K ty t : tiles_fit dim_I dim_J dim_K ty t ->
  fst (fst t) <= 64 /\ snd (fst t) <= 64 /\ snd t <= 512.
Proof.
  intros [HI HJ HK Hs Ha]. pose proof (max_spad_bound ty). pose proof (max_acc_bound ty). unfold DIM in *.
  split_and!; nia.
Qed.

Lemma smaller_bound a b : 1 <= a -> 1 <= b -> 1 <= smaller a b <= a /\ smaller a b <= b.
Proof. unfold smaller. case_match; lia. Qed.

Lemma tile_constants :
  max_tile_i_j = 8 /\ max_tile_k = 64 /\ db_max_tile_i_j = 5 /\ db_max_tile_k = 51.
Proof. by vm_compute. Qed.

Lemma rows_mono a b c A B C : 0 <= a <= A -> 0 <= b <= B -> 0 <= c <= C ->
  (a * c + c * b) * DIM <= (A * C + C * B) * DIM /\ a * b * DIM <= A * B * DIM.
Proof.
  intros Ha Hb Hc. assert (a * c <= A * C) by (apply Z.mul_le_mono_nonneg; lia).
  assert (c * b <= C * B) by (apply Z.mul_le_mono_nonneg; lia).
  assert (a * b <= A * B) by (apply Z.mul_le_mono_nonneg; lia). unfold DIM. lia.
Qed.

Lemma initial_fit dim_I dim_J dim_K ty : dim_ok dim_I -> dim_ok dim_J -> dim_ok dim_K ->
  tiles_fit dim_I dim_J dim_K ty (initial_tiles dim_I dim_J dim_K ty).
Proof.
  intros HI HJ HK. unfold initial_tiles. rewrite !padded_div by done.
  destruct tile_constants as (-> & -> & -> & ->).
  pose proof (blocks_pos _ HI) as PI. pose proof (blocks_pos _ HJ) as PJ. pose proof (blocks_pos _ HK) as PK.
  assert (forall n k, 1 <= n -> 1 <= k -> 1 <= smaller n k <= n /\ smaller n k <= k) as Hs by (intros; by apply smaller_bound).
  destruct (is_ws ty) eqn:Hty.
  - pose proof (Hs _ 5 (proj1 PI)). pose proof (Hs _ 5 (proj1 PJ)). pose proof (Hs _ 51 (proj1 PK)).
    pose proof (rows_mono (smaller (cdiv dim_I DIM) 5) (smaller (cdiv dim_J DIM) 5) (smaller (cdiv dim_K DIM) 51) 5 5 51
      ltac:(lia) ltac:(lia) ltac:(lia)) as Hm.
    split; cbn [fst snd]; unfold max_spad_rows, max_acc_rows; rewrite ?Hty; unfold_params;
      try change (4 * 4096 / 2) with 8192; try change (1024 / 2) with 512; lia.
  - pose proof (Hs _ 8 (proj1 PI)). pose proof (Hs _ 8 (proj1 PJ)). pose proof (Hs _ 64 (proj1 PK)).
    pose proof (rows_mono (smaller (cdiv dim_I DIM) 8) (smaller (cdiv dim_J DIM) 8) (smaller (cdiv dim_K DIM) 64) 8 8 64
      ltac:(lia) ltac:(lia) ltac:(lia)) as Hm.
    split; cbn [fst snd]; unfold max_spad_rows, max_acc_rows; rewrite ?Hty; unfold_params;
      try change (4 * 4096 / 2) with 8192; try change (1024 / 2) with 512; lia.
Qed.

Lemma spad_rows_eq I J K : 0 <= I <= 65 -> 0 <= J <= 65 -> 0 <= K <= 513 ->
  tiled_matmul_total_spad_rows I J K = (I * K + K * J) * DIM.
Proof. intros. unfold tiled_matmul_total_spad_rows. apply wrap_u_id. unfold in_u, DIM. nia. Qed.

Lemma acc_rows_eq I J : 0 <= I <= 65 -> 0 <= J <= 65 -> tiled_matmul_total_acc_rows I J = I * J * DIM.
Proof. intros. unfold tiled_matmul_total_acc_rows. apply wrap_u_id. unfold in_u, DIM. nia. Qed.

Lemma grow_dim dim n : dim_ok dim -> 0 <= n <= 513 -> (u64 (n * DIM) <=? padded dim) = (n <=? cdiv dim DIM).
Proof.
  intros Hd Hn. rewrite padded_eq, wrap_u_id by (done || unfold in_u, DIM; lia). unfold DIM.
  destruct (Z.leb_spec n (cdiv dim 16)); lia.
Qed.

Section growth.
Context (dim_I dim_J dim_K : Z) (ty : tiled_matmul_type_t).
Context (HI : dim_ok dim_I) (HJ : dim_ok dim_J) (HK : dim_ok dim_K).
Local Abbreviation fit := (tiles_fit dim_I dim_J dim_K ty).

(** What each growth test decides on factors that fit. *)
Lemma grow_J_spec I J K : fit (I, J, K) -> grow_J dim_J ty I J K = true <-> fit (I, J + 1, K).
Proof.
  intros Hf. destruct (tiles_small _ _ _ _ _ Hf) as (? & ? & ?). destruct Hf as [E1 E2 E3 E4 E5]. cbn [fst snd] in *.
  unfold grow_J. rewrite spad_rows_eq, acc_rows_eq, grow_dim by (done || lia).
  rewrite !andb_true_iff, !Z.leb_le. split; [intros [[? ?] ?]; split; cbn [fst snd]; lia|].
  intros [? ? ? ? ?]. cbn [fst snd] in *. lia.
Qed.

Lemma grow_I_spec I J K : fit (I, J, K) -> grow_I dim_I ty I J K = true <-> fit (I + 1, J, K).
Proof.
  intros Hf. destruct (tiles_small _ _ _ _ _ Hf) as (? & ? & ?). destruct Hf as [E1 E2 E3 E4 E5]. cbn [fst snd] in *.
  unfold grow_I. rewrite spad_rows_eq, acc_rows_eq, grow_dim by (done || lia).
  rewrite !andb_true_iff, !Z.leb_le. split; [intros [[? ?] ?]; split; cbn [fst snd]; lia|].
  intros [? ? ? ? ?]. cbn [fst snd] in *. lia.
Qed.

Lemma grow_K_spec I J K : fit (I, J, K) -> grow_K dim_K ty I J K = true <-> fit (I, J, K + 1).
Proof.
  intros Hf. destruct (tiles_small _ _ _ _ _ Hf) as (? & ? & ?). destruct Hf as [E1 E2 E3 E4 E5]. cbn [fst snd] in *.
  unfold grow_K. rewrite spad_rows_eq, grow_dim by (done || lia).
  rewrite !andb_true_iff, !Z.leb_le. split; [intros [? ?]; split; cbn [fst snd]; lia|].
  intros [? ? ? ? ?]. cbn [fst snd] in *. lia.
Qed.

(** Blocks still available. *)
Definition room (t : Z * Z * Z) : Z :=
  cdiv dim_I DIM + cdiv dim_J DIM + cdiv dim_K DIM - (fst (fst t) + snd (fst t) + snd t).

(** Factors that cannot be grown in any direction. *)
Definition maximal (t : Z * Z * Z) : Prop :=
  ~ fit (fst (fst t), snd (fst t) + 1, snd t) /\ ~ fit (fst (fst t) + 1, snd (fst t), snd t) /\
  ~ fit (fst (fst t), snd (fst t), snd t + 1).

Lemma grow_step_spec t t' b : fit t -> grow_step dim_I dim_J dim_K ty t = (t', b) ->
  fit t' /\ (if b then room t' < room t else t' = t /\ maximal t).
Proof.
  destruct t as [[ti tj] tk]. intros Hf Hg. unfold grow_step in Hg.
  destruct (grow_J dim_J ty ti tj tk) eqn:EJ.
  - apply grow_J_spec in EJ; [|done]. cbn [orb] in Hg.
    destruct (grow_I dim_I ty ti (tj + 1) tk) eqn:EI; [apply grow_I_spec in EI; [|done]|];
      (destruct (grow_K dim_K ty _ (tj + 1) tk) eqn:EK; [apply grow_K_spec in EK; [|done]|]);
      simplify_eq; (split; [done|]); unfold room; cbn [fst snd]; lia.
  - destruct (grow_I dim_I ty ti tj tk) eqn:EI.
    + apply grow_I_spec in EI; [|done]. cbn [orb] in Hg.
      destruct (grow_K dim_K ty (ti + 1) tj tk) eqn:EK; [apply grow_K_spec in EK; [|done]|];
        simplify_eq; (split; [done|]); unfold room; cbn [fst snd]; lia.
    + destruct (grow_K dim_K ty ti tj tk) eqn:EK.
      * apply grow_K_spec in EK; [|done]. simplify_eq. split; [done|]. unfold room. cbn [orb fst snd]. lia.
      * simplify_eq. split; [done|]. split; [done|]. unfold maximal. cbn [fst snd].
        rewrite <- grow_J_spec, <- grow_I_spec, <- grow_K_spec, EJ, EI, EK by done. by split_and!.
Qed.

Lemma grow_tiles_spec fuel t : fit t -> room t < Z.of_nat fuel ->
  exists t', grow_tiles fuel dim_I dim_J dim_K ty t = Some t' /\ fit t' /\ maximal t'.
Proof.
  revert t. induction fuel as [|fuel IH]; intros t Hf Hr.
  - exfalso. destruct Hf. unfold room in Hr. lia.
  - cbn [grow_tiles]. destruct (grow_step dim_I dim_J dim_K ty t) as [t' b] eqn:Hg.
    apply grow_step_spec in Hg as [Hf' Hb]; [|done]. destruct b.
    + apply IH; [done|lia].
    + destruct Hb as [-> Hm]. by exists t.
Qed.

Lemma auto_tiles_spec :
  exists t, auto_tiles dim_I dim_J dim_K ty = Some t /\ fit t /\ maximal t.
Proof.
  unfold auto_tiles. pose proof (initial_fit dim_I dim_J dim_K ty HI HJ HK) as Hi.
  apply grow_tiles_spec; [done|]. destruct Hi. unfold room, tile_fuel. lia.
Qed.
End growth.

(** The transpositions [tiled_matmul] implements for a dataflow. *)
Definition transposes_ok (x : matmul_args) (ty : tiled_matmul_type_t) : Prop :=
  match ty with
  | T_OS => ma_trans_A x = false /\ ma_trans_B x = false
  | T_WS => ma_trans_A x = false \/ ma_trans_B x = false
  | T_CPU => True
  end.

(** Factors that fit pass every check of [tiled_matmul]. *)
Lemma fitting_tiles_ok x ty ti tj tk :
  dim_ok (ma_dim_I x) -> dim_ok (ma_dim_J x) -> dim_ok (ma_dim_K x) -> transposes_ok x ty ->
  tiles_fit (ma_dim_I x) (ma_dim_J x) (ma_dim_K x) ty (ti, tj, tk) -> tiled_matmul_ok x ti tj tk ty = true.
Proof.
  intros HI HJ HK Ht Hf.
  destruct (tiles_small _ _ _ _ _ Hf) as (Hsi & Hsj & Hsk). destruct Hf as [E1 E2 E3 E4 E5]. cbn [fst snd] in *.
  unfold tiled_matmul_ok. rewrite !grow_dim by (done || lia).
  rewrite (wrap_u_id 64 (ti * tk * DIM + tk * tj * DIM)), (wrap_u_id 64 (ti * tj * DIM)) by (unfold in_u, DIM in *; nia).
  rewrite !andb_true_iff, !Z.ltb_lt, !Z.leb_le. split_and!; try lia.
  clear - Ht. destruct ty; cbn in Ht; [| |done]; destruct (ma_trans_A x), (ma_trans_B x); first [done | by destruct Ht].
Qed.

(** C25: automatic tiling.  For every matrix size (up to [2^48] in each dimension) and
    dataflow, the search of [tiled_matmul_auto] ends within its bound of passes
    and yields factors that are at least 1, do not exceed the matrix, fit the
    (half, when double-buffered) scratchpad and accumulator, cannot be
    increased in any single direction, and pass every check that
    [tiled_matmul] makes before it starts. *)
Theorem auto_tiles_correct x ty :
  dim_ok (ma_dim_I x) -> dim_ok (ma_dim_J x) -> dim_ok (ma_dim_K x) -> transposes_ok x ty ->
  exists I J K, auto_tiles (ma_dim_I x) (ma_dim_J x) (ma_dim_K x) ty = Some (I, J, K) /\
    tiles_fit (ma_dim_I x) (ma_dim_J x) (ma_dim_K x) ty (I, J, K) /\
    maximal (ma_dim_I x) (ma_dim_J x) (ma_dim_K x) ty (I, J, K) /\
    tiled_matmul_ok x I J K ty = true.
Proof.
  intros HI HJ HK Ht. destruct (auto_tiles_spec _ _ _ ty HI HJ HK) as ([[ti tj] tk] & Ha & Hf & Hm).
  exists ti, tj, tk. split_and!; [done..|]. by apply fitting_tiles_ok.
Qed.

(** ** The tiles partition the matrix *)

Section partition.
Context (dim tile : Z) (Hd : dim_ok dim) (Ht : 1 <= tile <= cdiv dim DIM).

(** First index and number of indices of tile [i0]. *)
Definition tile_start (i0 : Z) : Z := i0 * tile * DIM.
Definition tile_size (i0 : Z) : Z := tile_len dim tile i0 * DIM - tile_pad dim tile i0.

Lemma tile_bytes : u64 (tile * DIM) = tile * DIM.
Proof. pose proof (blocks_pos dim Hd). apply wrap_u_id. unfold in_u, DIM in *. lia. Qed.

Lemma num_tiles_eq : num_tiles dim tile = cdiv (cdiv dim DIM) tile.
Proof.
  unfold num_tiles. rewrite tile_bytes, padded_eq by done. unfold cdiv at 1 3.
  rewrite Z.div_mul_cancel_r, Zmult_mod_distr_r by (unfold DIM; lia).
  f_equal. destruct (Z.eqb_spec (cdiv dim DIM mod tile) 0) as [->|Hne]; [done|].
  destruct (Z.eqb_spec (cdiv dim DIM mod tile * DIM) 0); [|done]. unfold DIM in *. lia.
Qed.

Lemma last_tile_eq :
  last_tile dim tile = cdiv dim DIM - (num_tiles dim tile - 1) * tile /\ 1 <= last_tile dim tile <= tile.
Proof.
  unfold last_tile. rewrite num_tiles_eq, tile_bytes, padded_div, padded_eq, Zmult_mod_distr_r by done.
  set (n := cdiv dim DIM) in *. unfold cdiv.
  pose proof (Z.div_mod n tile ltac:(lia)) as Hdm. pose proof (Z.mod_pos_bound n tile ltac:(lia)) as Hm.
  destruct (Z.eqb_spec (n mod tile) 0) as [He|Hne].
  - rewrite He, Z.mul_0_l. cbn [Z.eqb]. split; [nia|lia].
  - destruct (Z.eqb_spec (n mod tile * DIM) 0); [unfold DIM in *; lia|]. split; [nia|lia].
Qed.

Lemma padding_eq : padding dim = cdiv dim DIM * DIM - dim /\ 0 <= padding dim < DIM.
Proof.
  unfold padding. rewrite padded_eq by done. pose proof (cdiv_spec dim DIM ltac:(by unfold DIM)).
  rewrite wrap_u_id by (unfold in_u, dim_ok, DIM in *; lia). unfold DIM in *. lia.
Qed.

(** Every tile but the last is full; the last ends at [dim]. *)
Lemma tile_extent i0 : 0 <= i0 < num_tiles dim tile ->
  1 <= tile_len dim tile i0 <= tile /\ 0 <= tile_pad dim tile i0 < DIM /\
  tile_start i0 + tile_size i0 = (if i0 =? num_tiles dim tile - 1 then dim else tile_start (i0 + 1)).
Proof.
  intros Hi. destruct last_tile_eq as [Hl Hlr], padding_eq as [Hp Hpr].
  unfold tile_size, tile_start, tile_len, tile_pad.
  destruct (Z.eqb_spec i0 (num_tiles dim tile - 1)) as [->|Hne].
  - rewrite Z.ltb_irrefl. split_and!; [lia..|]. rewrite Hl, Hp. ring_simplify. lia.
  - rewrite (proj2 (Z.ltb_lt i0 (num_tiles dim tile - 1))) by lia. unfold DIM. lia.
Qed.

(** The tile of an index. *)
Lemma tile_of_index i : 0 <= i < dim ->
  let i0 := i / (tile * DIM) in
  0 <= i0 < num_tiles dim tile /\ tile_start i0 <= i < tile_start i0 + tile_size i0.
Proof.
  intros Hi i0. assert (0 < tile * DIM) as Hpos by (unfold DIM; lia).
  pose proof (Z.div_mod i (tile * DIM) ltac:(lia)) as Hdm. pose proof (Z.mod_pos_bound i (tile * DIM) Hpos) as Hm.
  fold i0 in Hdm. assert (0 <= i0) by (apply Z.div_pos; lia).
  assert (i0 < num_tiles dim tile) as Hlt.
  { rewrite num_tiles_eq. apply cdiv_ge; [lia|]. apply cdiv_ge; [by unfold DIM|]. unfold DIM in *. lia. }
  split; [lia|]. pose proof (tile_extent i0 ltac:(lia)) as (_ & _ & ->). unfold tile_start.
  case_match; unfold DIM in *; lia.
Qed.

Lemma tile_unique i i0 i1 :
  0 <= i0 < num_tiles dim tile -> 0 <= i1 < num_tiles dim tile ->
  tile_start i0 <= i < tile_start i0 + tile_size i0 -> tile_start i1 <= i < tile_start i1 + tile_size i1 -> i0 = i1.
Proof.
  intros H0 H1 Hi0 Hi1.
  assert (forall k, 0 <= k < num_tiles dim tile -> tile_size k <= tile * DIM) as Hsz.
  { intros k Hk. destruct (tile_extent k Hk) as (Hl & Hp & _). unfold tile_size, DIM in *. nia. }
  pose proof (Hsz i0 H0). pose proof (Hsz i1 H1). unfold tile_start, DIM in *. nia.
Qed.

(** No tile reaches beyond the matrix. *)
Lemma tile_inside i0 : 0 <= i0 < num_tiles dim tile -> tile_start i0 + tile_size i0 <= dim.
Proof.
  intros Hi0. destruct (tile_extent i0 Hi0) as (H1 & H2 & H3). rewrite H3. case_match; [lia|].
  destruct (tile_extent (i0 + 1) ltac:(lia)) as (H4 & H5 & H6).
  assert (0 <= tile_size (i0 + 1)) by (unfold tile_size, DIM in *; lia).
  destruct padding_eq as [Hp Hpr]. destruct last_tile_eq as [Hl Hlr].
  unfold tile_start, DIM in *. nia.
Qed.

Lemma tile_index i0 i : 0 <= i0 < num_tiles dim tile -> 0 <= i < tile_size i0 -> 0 <= tile_start i0 + i < dim.
Proof.
  intros Hi0 Hi. pose proof (tile_inside i0 Hi0). assert (0 <= tile_start i0) by (unfold tile_start, DIM; nia). lia.
Qed.
End partition.

(** The tiles of [tiled_matmul_outer] partition each dimension.  Every index of
    the matrix lies in exactly one tile; every tile has between 1 and [tile] blocks
    and less than one block of padding, and none reaches beyond the matrix. *)
Theorem tiles_partition dim tile :
  dim_ok dim -> 1 <= tile <= cdiv dim DIM ->
  (forall i, 0 <= i < dim -> exists! i0, 0 <= i0 < num_tiles dim tile /\
     tile_start tile i0 <= i < tile_start tile i0 + tile_size dim tile i0) /\
  (forall i0, 0 <= i0 < num_tiles dim tile ->
     1 <= tile_len dim tile i0 <= tile /\ 0 <= tile_pad dim tile i0 < DIM /\
     tile_start tile i0 + tile_size dim tile i0 <= dim).
Proof.
  intros Hd Ht. split.
  - intros i Hi. destruct (tile_of_index dim tile Hd Ht i Hi) as [H0 H1].
    exists (i / (tile * DIM)). split; [done|]. intros i1 [H2 H3]. by eapply tile_unique.
  - intros i0 Hi0. destruct (tile_extent dim tile Hd Ht i0 Hi0) as (H1 & H2 & _). split_and!; [lia..|]. by apply tile_inside.
Qed.

(** A product of 100 x 300 by 300 x 200 for the witnesses. *)
Definition demo_args : matmul_args := {|
  ma_dim_I := 100; ma_dim_J := 200; ma_dim_K := 300; ma_A := 0x10000; ma_B := 0x20000; ma_D := 0; ma_C := 0x30000;
  ma_stride_A := 300; ma_stride_B := 200; ma_stride_D := 200; ma_stride_C := 200;
  ma_A_scale := f32_one; ma_B_scale := f32_one; ma_D_scale := 1; ma_act := 0; ma_scale := f32_one;
  ma_relu6_shift := 0; ma_repeating_bias := false; ma_trans_A := false; ma_trans_B := false;
  ma_full_C := false; ma_low_D := false; ma_weightA := 3 |}.

Lemma demo_dims : dim_ok (ma_dim_I demo_args) /\ dim_ok (ma_dim_J demo_args) /\ dim_ok (ma_dim_K demo_args).
Proof. unfold dim_ok. simpl. lia. Qed.

Lemma auto_tiles_correct_witness :
  exists I J K, auto_tiles 100 200 300 T_WS = Some (I, J, K) /\ tiles_fit 100 200 300 T_WS (I, J, K) /\
    maximal 100 200 300 T_WS (I, J, K) /\ tiled_matmul_ok demo_args I J K T_WS = true.
Proof.
  destruct demo_dims as (H1 & H2 & H3). apply (auto_tiles_correct demo_args T_WS H1 H2 H3). by left.
Defined.

Lemma tiles_partition_witness :
  (forall i, 0 <= i < 100 -> exists! i0, 0 <= i0 < num_tiles 100 3 /\
     tile_start 3 i0 <= i < tile_start 3 i0 + tile_size 100 3 i0) /\
  (forall i0, 0 <= i0 < num_tiles 100 3 ->
     1 <= tile_len 100 3 i0 <= 3 /\ 0 <= tile_pad 100 3 i0 < DIM /\ tile_start 3 i0 + tile_size 100 3 i0 <= 100).
Proof.
  apply (tiles_partition 100 3).
  - unfold dim_ok. lia.
  - vm_compute. by split.
Defined.

(** ** Every tile passes the capacity test of the loop instruction *)

(** The registers [gemmini_loop_ws] sets for a tile. *)
Definition tile_regs (t : tile_args) (w : loop_ws_regs) : Prop :=
  loop_ws_I w = ta_I t /\ loop_ws_J w = ta_J t /\ loop_ws_K w = ta_K t /\
  loop_ws_pad_I w = ta_pad_I t /\ loop_ws_pad_J w = ta_pad_J t /\ loop_ws_pad_K w = ta_pad_K t.

(** C26: every tile of a double-buffered (weight-stationary) multiplication whose
    factors passed the checks of the driver also passes the capacity check of the
    simulator's loop instruction, whose products are computed in 32-bit arithmetic:
    no tile of [tiled_matmul_outer] makes [loop_ws] exit, and the padding of every
    tile is less than one block. *)
Theorem outer_tiles_fit x tile_I tile_J tile_K i0 j0 k0 w :
  dim_ok (ma_dim_I x) -> dim_ok (ma_dim_J x) -> dim_ok (ma_dim_K x) ->
  tiles_fit (ma_dim_I x) (ma_dim_J x) (ma_dim_K x) T_WS (tile_I, tile_J, tile_K) ->
  0 <= i0 < num_tiles (ma_dim_I x) tile_I -> 0 <= j0 < num_tiles (ma_dim_J x) tile_J ->
  0 <= k0 < num_tiles (ma_dim_K x) tile_K ->
  tile_regs (outer_tile x tile_I tile_J tile_K i0 j0 k0) w ->
  loop_ws_fits w = true /\
  0 <= loop_ws_pad_I w < DIM /\ 0 <= loop_ws_pad_J w < DIM /\ 0 <= loop_ws_pad_K w < DIM.
Proof.
  intros HI HJ HK Hf Hi Hj Hk (E1 & E2 & E3 & E4 & E5 & E6).
  destruct (tiles_small _ _ _ _ _ Hf) as (Sz1 & Sz2 & Sz3).
  destruct Hf as [FI FJ FK Fs Fa]. cbn [fst snd outer_tile ta_I ta_J ta_K ta_pad_I ta_pad_J ta_pad_K] in *.
  destruct (tile_extent _ _ HI FI _ Hi) as (LI & PI & _), (tile_extent _ _ HJ FJ _ Hj) as (LJ & PJ & _),
    (tile_extent _ _ HK FK _ Hk) as (LK & PK & _).
  rewrite E4, E5, E6. split; [|done].
  pose proof (rows_mono _ _ _ _ _ _ (conj (Z.le_trans _ _ _ Z.le_0_1 (proj1 LI)) (proj2 LI))
    (conj (Z.le_trans _ _ _ Z.le_0_1 (proj1 LJ)) (proj2 LJ)) (conj (Z.le_trans _ _ _ Z.le_0_1 (proj1 LK)) (proj2 LK))) as [Hs Ha].
  unfold loop_ws_fits. rewrite E1, E2, E3.
  set (a := tile_len _ tile_I i0) in *. set (b := tile_len _ tile_J j0) in *. set (c := tile_len _ tile_K k0) in *.
  change (max_spad_rows T_WS) with 8192 in *. change (max_acc_rows T_WS) with 512 in *. unfold_params.
  assert (0 <= a * c /\ 0 <= c * b /\ 0 <= a * b) as (? & ? & ?) by (split_and!; apply Z.mul_nonneg_nonneg; lia).
  rewrite (wrap_s_id 32 (a * c)), (wrap_s_id 32 (c * b)), (wrap_s_id 32 (a * b)) by (unfold in_s; lia).
  rewrite (wrap_s_id 32 (a * c + c * b)) by (unfold in_s; lia).
  rewrite !wrap_s_id by (unfold in_s; lia). change (4 * 4096 / 2) with 8192. change (1024 / 2) with 512. lia.
Qed.

Lemma outer_tiles_fit_witness :
  let t := outer_tile demo_args 4 8 10 1 1 1 in
  let w := Build_loop_ws_regs (ta_I t) (ta_J t) (ta_K t) (ta_pad_I t) (ta_pad_J t) (ta_pad_K t) 0 0 0 0 0 0 0 0 in
  loop_ws_fits w = true /\
  0 <= loop_ws_pad_I w < DIM /\ 0 <= loop_ws_pad_J w < DIM /\ 0 <= loop_ws_pad_K w < DIM.
Proof.
  intros t w. destruct demo_dims as (H1 & H2 & H3).
  apply (outer_tiles_fit demo_args 4 8 10 1 1 1 w H1 H2 H3).
  - split; vm_compute; try (by split); discriminate.
  - vm_compute. by split.
  - vm_compute. by split.
  - vm_compute. by split.
  - by split_and!.
Defined.
