(* ===== verification/Resadd.v ===== *)
(** * Resadd: residual addition and global average of the driver

    [resadd_cpu], [sp_tiled_resadd], [tiled_resadd], [tiled_resadd_auto] and
    the [global_average] family of systolic_include.h. *)

From S2P Require Import Prelude Effects Float32 Params State Dram Fill Scaling Norm Config Move Compute LoopWs LoopConv Counters Dispatch Isa MatmulCpu Matmul.

(** The arguments shared by the residual additions. *)
Record resadd_args := {
  ra_I : Z; ra_J : Z; ra_A_scale : float32; ra_B_scale : float32; ra_C_scale : float32;
  ra_A : Z; ra_B : Z; ra_C : Z; ra_relu : bool }.

(** Rows of the accumulator that an [I] by [J] tile takes. *)
Definition resadd_acc_rows (I J : Z) : Z := u64 (u64 (cdiv I DIM * DIM) * cdiv J DIM).

(** The [while] loop of [tiled_resadd_auto]: the longer side loses one row or
    column until the tile fits, with a bound on the passes. *)
Fixpoint shrink_tiles (fuel : nat) (tile_I tile_J : Z) : option (Z * Z) :=
  match fuel with
  | O => None
  | S fuel' =>
      if ACC_ROWS <? resadd_acc_rows tile_I tile_J then
        if tile_J <=? tile_I then shrink_tiles fuel' (u64 (tile_I - 1)) tile_J
        else shrink_tiles fuel' tile_I (u64 (tile_J - 1))
      else Some (tile_I, tile_J)
  end.

(** Every pass but the last takes one from a positive side. *)
Definition resadd_tiles (I J : Z) : option (Z * Z) := shrink_tiles (S (Z.to_nat (I + J))) I J.

(** The [while] loop of [tiled_global_average_auto]. *)
Fixpoint shrink_channels (fuel : nat) (channel_tile_size : Z) : option Z :=
  match fuel with
  | O => None
  | S fuel' =>
      if ACC_ROWS <? Z.quot channel_tile_size DIM + b2z (negb (Z.rem channel_tile_size DIM =? 0))
      then shrink_channels fuel' (channel_tile_size - 1)
      else Some channel_tile_size
  end.

Definition average_tile (channels : Z) : option Z := shrink_channels (S (Z.to_nat channels)) channels.

Section resadd.
Context {mem : Type} `{Mmu mem} `{Rand}.

Section add.
Variable (x : resadd_args).

(** One element of [resadd_cpu]: the value stored in [*c]. *)
Definition resadd_value (a b : Z) : option Z :=
  let minimum := if ra_relu x then 0 else elem_t_min in
  sa ← MVIN_SCALE a (ra_A_scale x);
  sb ← MVIN_SCALE b (ra_B_scale x);
  result ← ACC_SCALE (s32 (sa + sb)) (ra_C_scale x);
  Some (s8 (if elem_t_max <? result then elem_t_max else if result <? minimum then minimum else result)).

Definition resadd_cpu : M (machine mem) unit :=
  for_range 0 (ra_I x) (fun i =>
    for_range 0 (ra_J x) (fun j =>
      let at_ij := i * ra_J x + j in
      a ← load_elem (ra_A x + at_ij);
      b ← load_elem (ra_B x + at_ij);
      v ← of_option Undefined (resadd_value a b);
      write_to_dram sizeof_elem_t (ra_C x + at_ij) v)).

(** [blocks] of the kernel, and the loop nest its three phases share: one call
    of [move] per group of blocks with the row and the column of the group and
    its size. *)
Definition resadd_blocks (J : Z) : Z := if MAX_BLOCK_LEN <? cdiv J DIM then MAX_BLOCK_LEN else cdiv J DIM.

Definition resadd_moves (I J : Z) (move : Z -> Z -> Z -> Z -> M (machine mem) unit) : M (machine mem) unit :=
  let blocks := resadd_blocks J in
  for_step 0 I DIM (fun i =>
    for_step 0 J (blocks * DIM) (fun j =>
      let cols := if j + blocks * DIM <=? J then blocks * DIM else J - j in
      let rows := if i + DIM <=? I then DIM else I - i in
      move i j cols rows)).

Definition resadd_D_start : Z := u32 (1 ≪ (ADDR_LEN - 1)).
Definition resadd_C_start : Z := u32 (3 ≪ (ADDR_LEN - 2)).

Definition sp_tiled_resadd (I J A B C A_row_stride B_row_stride C_row_stride : Z) : M (machine mem) unit :=
  let rounded_up_J := u64 (cdiv J DIM * DIM) in
  resadd_moves I J (fun i j cols rows =>
    gemmini_extended_mvin (A + i * A_row_stride + j) (u32 (resadd_D_start + i * (rounded_up_J / DIM) + j)) cols rows) ;;
  resadd_moves I J (fun i j cols rows =>
    gemmini_extended_mvin2 (B + i * B_row_stride + j) (u32 (resadd_C_start + i * (rounded_up_J / DIM) + j)) cols rows) ;;
  resadd_moves I J (fun i j cols rows =>
    gemmini_extended_mvout (C + i * C_row_stride + j) (u32 (resadd_D_start + i * (rounded_up_J / DIM) + j)) cols rows).

Definition tiled_resadd (tile_I tile_J : Z) : M (machine mem) unit :=
  gemmini_extended_config_st (ra_J x) sizeof_elem_t (if ra_relu x then RELU_act else NO_ACTIVATION) (ra_C_scale x) ;;
  gemmini_config_ex WEIGHT_STATIONARY 0 0 0 ;;
  gemmini_extended4_config_ld (ra_J x * sizeof_elem_t) (ra_A_scale x) true DIM 0 ;;
  gemmini_extended4_config_ld (ra_J x * sizeof_elem_t) (ra_B_scale x) true DIM 1 ;;
  for_step_u 64 0 (ra_I x) tile_I (fun i =>
    for_step_u 64 0 (ra_J x) tile_J (fun j =>
      let I_tile := if i + tile_I <=? ra_I x then tile_I else ra_I x - i in
      let J_tile := if j + tile_J <=? ra_J x then tile_J else ra_J x - j in
      let at_ij := i * ra_J x + j in
      sp_tiled_resadd I_tile J_tile (ra_A x + at_ij) (ra_B x + at_ij) (ra_C x + at_ij) (ra_J x) (ra_J x) (ra_J x))) ;;
  gemmini_fence.

Definition tiled_resadd_auto (matadd_type : tiled_matmul_type_t) : M (machine mem) unit :=
  match matadd_type with
  | T_CPU => resadd_cpu
  | _ =>
      t ← of_option LoopWraps (resadd_tiles (ra_I x) (ra_J x));
      match matadd_type with
      | T_WS => tiled_resadd t.1 t.2
      | _ => fail ExitFailure
      end
  end.
End add.

(** ** Global average *)

Definition average_sum (input batch channels channel dim : Z) : M (machine mem) Z :=
  fold_range 0 dim (fun sum row =>
    fold_range 0 dim (fun sum col =>
      let pixel := u64 (s32 (batch * dim * dim + row * dim + col)) in
      v ← load_elem (input + u64 (pixel * channels + channel));
      mret (s32 (sum + v))) sum) 0.

Definition global_average_cpu (input output batches channels dim : Z) : M (machine mem) unit :=
  let count := s32 (dim * dim) in
  for_range 0 batches (fun batch =>
    for_range 0 channels (fun channel =>
      sum ← average_sum input batch channels channel dim;
      check (negb (count =? 0)) Undefined ;;
      write_to_dram sizeof_elem_t (output + s32 (batch * channels + channel))
        (s8 (Z.quot (s32 (sum + Z.quot count 2)) count)))).

Definition average_acc_start : Z := u32 (1 ≪ 31).

(** The input pixels accumulate into one row of the accumulator per block of
    channels: every pixel but the first sets the accumulate bit. *)
Definition sp_tiled_global_average (input output channels dim channel_tile_size : Z) : M (machine mem) unit :=
  let blocks := Z.quot channel_tile_size DIM + b2z (negb (Z.rem channel_tile_size DIM =? 0)) in
  let blocks := if MAX_BLOCK_LEN <? blocks then MAX_BLOCK_LEN else blocks in
  when (0 <? channel_tile_size)
    (for_step 0 channel_tile_size (blocks * DIM) (fun channel =>
      for_range 0 dim (fun row =>
        for_range 0 dim (fun col =>
          let acc_addr_start := average_acc_start |ᵇ (b2z (negb (row =? 0) || negb (col =? 0)) ≪ 30) in
          let acc_addr := u32 (acc_addr_start + channel / DIM) in
          let cols := if channel + blocks * DIM <=? channel_tile_size then blocks * DIM else channel_tile_size - channel in
          gemmini_extended_mvin (input + (row * dim + col) * channels + channel) acc_addr cols 1))) ;;
    for_step 0 channel_tile_size DIM (fun channel =>
      let acc_addr := u32 (average_acc_start + channel / DIM) in
      let cols := if channel + DIM <=? channel_tile_size then DIM else channel_tile_size - channel in
      gemmini_extended_mvout (output + channel) acc_addr cols 1)).

(** [1.0 / (dim*dim)], a [double], converted to [acc_scale_t]. *)
Definition average_scale (dim : Z) : float32 := f32_of_f64 (f64_div (f64_of_Z 1) (f64_of_Z (s32 (dim * dim)))).

Definition tiled_global_average (input output batches channels dim channel_tile_size : Z) : M (machine mem) unit :=
  gemmini_extended4_config_ld (DIM * sizeof_elem_t) MVIN_SCALE_IDENTITY true 1 0 ;;
  gemmini_config_ex 0 NO_ACTIVATION 0 0 ;;
  gemmini_extended_config_st 0 1 NO_ACTIVATION (average_scale dim) ;;
  for_range 0 batches (fun batch =>
    for_step_u 31 0 channels channel_tile_size (fun channel =>
      let tile_size := if channel + channel_tile_size <=? channels then channel_tile_size else channels - channel in
      sp_tiled_global_average (input + batch * dim * dim * channels + channel) (output + batch * channels + channel)
        channels dim tile_size)).

Definition tiled_global_average_auto (input output batches channels dim : Z) (type : tiled_matmul_type_t) : M (machine mem) unit :=
  match type with
  | T_CPU => global_average_cpu input output batches channels dim
  | _ =>
      channel_tile_size ← of_option LoopWraps (average_tile channels);
      tiled_global_average input output batches channels dim channel_tile_size
  end.
End resadd.
