(* ===== verification/ResaddSpec.v ===== *)
(** * ResaddSpec: residual addition on the accelerator and on the CPU

    The tile search of [tiled_resadd_auto] ends with tiles that fit the
    accumulator; [resadd_cpu] stores the scaled sums; the accelerated
    [tiled_resadd], run on the simulator instruction by instruction, stores the
    same. *)

From S2P Require Import Prelude Effects Float32 Params State Dram Fill Scaling Norm Config Move MoveSpec Compute LoopWs LoopConv Counters Dispatch Invariant Isa IsaSpec Issue MatmulCpu MatmulCpuSpec Matmul Resadd.

(** ** The tile search *)

(** Sizes for which no [size_t] product of the code wraps. *)
Definition size_ok (n : Z) : Prop := 1 <= n <= 2 ^ 30.

Lemma acc_rows_exact I J : 0 <= I <= 2 ^ 30 -> 0 <= J <= 2 ^ 30 -> resadd_acc_rows I J = cdiv I DIM * DIM * cdiv J DIM.
Proof.
  intros HI HJ. unfold resadd_acc_rows.
  pose proof (cdiv_spec I DIM ltac:(by unfold DIM)). pose proof (cdiv_spec J DIM ltac:(by unfold DIM)). unfold DIM in *.
  rewrite (wrap_u_id 64 (cdiv I 16 * 16)) by (unfold in_u; lia). apply wrap_u_id. unfold in_u. nia.
Qed.

Lemma cdiv_small n : 1 <= n <= DIM -> cdiv n DIM = 1.
Proof. intros Hn. pose proof (cdiv_spec n DIM ltac:(by unfold DIM)). unfold DIM in *. lia. Qed.

Lemma shrink_tiles_spec fuel I J : size_ok I -> size_ok J -> I + J < Z.of_nat fuel + 2 ->
  exists tI tJ, shrink_tiles fuel I J = Some (tI, tJ) /\ 1 <= tI <= I /\ 1 <= tJ <= J /\
    cdiv tI DIM * DIM * cdiv tJ DIM <= ACC_ROWS.
Proof.
  revert I J. induction fuel as [|fuel IH]; intros I J HI HJ Hf; [unfold size_ok in *; lia|].
  unfold size_ok in *. cbn [shrink_tiles]. rewrite acc_rows_exact by lia.
  destruct (Z.ltb_spec ACC_ROWS (cdiv I DIM * DIM * cdiv J DIM)) as [Hgt|Hle]; [|exists I, J; split_and!; lia || done].
  assert (~ (I <= DIM /\ J <= DIM)) as Hbig.
  { intros [H1 H2]. rewrite !cdiv_small in Hgt by lia. by vm_compute in Hgt. }
  unfold DIM in Hbig. destruct (Z.leb_spec J I).
  - rewrite wrap_u_id by (unfold in_u; lia).
    destruct (IH (I - 1) J) as (tI & tJ & Hs & ? & ? & ?); [lia..|]. exists tI, tJ. split_and!; [done|lia..].
  - rewrite wrap_u_id by (unfold in_u; lia).
    destruct (IH I (J - 1)) as (tI & tJ & Hs & ? & ? & ?); [lia..|]. exists tI, tJ. split_and!; [done|lia..].
Qed.

Lemma resadd_tiles_spec I J : size_ok I -> size_ok J ->
  exists tI tJ, resadd_tiles I J = Some (tI, tJ) /\ 1 <= tI <= I /\ 1 <= tJ <= J /\
    cdiv tI DIM * DIM * cdiv tJ DIM <= ACC_ROWS.
Proof. intros HI HJ. apply shrink_tiles_spec; [done..|]. unfold size_ok in *. lia. Qed.

(** the tile search of the residual addition.  For every matrix of up to
    [2^30] rows and columns the loop of [tiled_resadd_auto] ends within its bound
    of passes, at a tile of at least one row and one column that is no larger than
    the matrix and whose 16-row blocks fit the accumulator. *)
Theorem resadd_tiles_fit I J : size_ok I -> size_ok J ->
  exists tI tJ, resadd_tiles I J = Some (tI, tJ) /\ 1 <= tI <= I /\ 1 <= tJ <= J /\
    resadd_acc_rows tI tJ <= ACC_ROWS.
Proof.
  intros HI HJ. destruct (resadd_tiles_spec I J HI HJ) as (tI & tJ & Hs & ? & ? & ?). exists tI, tJ.
  unfold size_ok in *. rewrite acc_rows_exact by lia. by auto.
Qed.

Lemma resadd_tiles_fit_witness :
  exists tI tJ, resadd_tiles 100 300 = Some (tI, tJ) /\ 1 <= tI <= 100 /\ 1 <= tJ <= 300 /\
    resadd_acc_rows tI tJ <= ACC_ROWS.
Proof. apply (resadd_tiles_fit 100 300); unfold size_ok; lia. Defined.

(** ** The sums *)

(** The accelerator's two scalings are the reference's. *)
Lemma MVIN_SCALE_range v scale w : MVIN_SCALE v scale = Some w -> in_s 8 w.
Proof.
  unfold MVIN_SCALE. intros Hw. apply bind_Some in Hw as (y & _ & Hw). repeat case_match; simplify_eq; [by unfold in_s..|].
  unfold f_to_int in Hw. apply bind_Some in Hw as (t & _ & Hw). case_match eqn:E; simplify_eq. unfold in_s. lia.
Qed.

Lemma mvin_scale_eq v scale : mvin_scale v scale = MVIN_SCALE v scale.
Proof.
  unfold mvin_scale. destruct (MVIN_SCALE v scale) as [w|] eqn:Hw; [|done]. cbn. f_equal.
  apply MVIN_SCALE_range in Hw. unfold in_s in Hw. rewrite s8_saturate. apply saturate_id. unfold_params. lia.
Qed.

Lemma scale_total_float scale : float_total scale -> scale_total scale.
Proof. intros Hf v Hv. rewrite mvin_scale_eq. by apply Hf. Qed.

(** The activation the driver selects. *)
Definition relu_act (relu : bool) : Activation := if relu then RELU else NONE.

Lemma clamp_activation (relu : bool) v :
  (if elem_t_max <? v then elem_t_max else if v <? (if relu then 0 else elem_t_min) then (if relu then 0 else elem_t_min) else v)
  = apply_activation (s8 (saturate v)) (relu_act relu).
Proof.
  rewrite s8_saturate. unfold apply_activation, saturate, relu_act. unfold_params.
  destruct relu; [rewrite bool_decide_eq_true_2 by done|rewrite bool_decide_eq_false_2 by done]; repeat case_match; lia.
Qed.

Section sums.
Context {mem : Type} `{MmuLaws mem} `{Rand}.
Variable (x : resadd_args).
Implicit Types (d : mem) (m : machine mem).

(** Element [p] of a matrix at [base]. *)
Definition elem_at (base : Z) (p : Z * Z) : Z := base + (fst p * ra_J x + snd p).

Definition sum_value (d : mem) (p : Z * Z) : option Z :=
  resadd_value x (mem_int 1 d (elem_at (ra_A x) p)) (mem_int 1 d (elem_at (ra_B x) p)).

Definition all_elems : list (Z * Z) := pairs (ra_I x) (ra_J x).

(** What a call needs: sizes the driver can address, defined scales, readable
    operands, a writable result that overlaps neither. *)
Record resadd_ready (d : mem) : Prop := {
  rr_I : size_ok (ra_I x); rr_J : size_ok (ra_J x);
  rr_A_scale : float_total (ra_A_scale x); rr_B_scale : float_total (ra_B_scale x);
  rr_A_addr : 0 < ra_A x /\ ra_A x + ra_I x * ra_J x <= 2 ^ 64;
  rr_B_addr : 0 < ra_B x /\ ra_B x + ra_I x * ra_J x <= 2 ^ 64;
  rr_C_addr : 0 < ra_C x /\ ra_C x + ra_I x * ra_J x <= 2 ^ 64;
  rr_read p : p ∈ all_elems -> mem_readable 1 d (elem_at (ra_A x) p) /\ mem_readable 1 d (elem_at (ra_B x) p);
  rr_write p : p ∈ all_elems -> mem_writable 1 d (elem_at (ra_C x) p);
  rr_alias p q : p ∈ all_elems -> q ∈ all_elems ->
    elem_at (ra_C x) p <> elem_at (ra_A x) q /\ elem_at (ra_C x) p <> elem_at (ra_B x) q;
  rr_value p : p ∈ all_elems -> is_Some (sum_value d p) }.

Section run.
Context (d : mem) (Hr : resadd_ready d).

Lemma elem_offset p : p ∈ all_elems -> 0 <= fst p * ra_J x + snd p < ra_I x * ra_J x.
Proof. intros [Hi Hj]%elem_of_pairs. nia. Qed.

Lemma elem_addr base p : 0 < base /\ base + ra_I x * ra_J x <= 2 ^ 64 -> p ∈ all_elems -> in_u 64 (elem_at base p).
Proof. intros Hb Hp%elem_offset. unfold in_u, elem_at. lia. Qed.

(** A byte of an element of the result is that element's address. *)
Lemma span_elem a b : in_u 64 a -> span 1 a b <-> b = a.
Proof.
  intros Ha. unfold span. split.
  - intros (i & Hi & ->). replace i with 0 by lia. rewrite Z.add_0_r. by apply wrap_u_id.
  - intros ->. exists 0. split; [lia|]. rewrite Z.add_0_r. symmetry. by apply wrap_u_id.
Qed.

Lemma elem_inj base p q : p ∈ all_elems -> q ∈ all_elems -> elem_at base p = elem_at base q -> p = q.
Proof.
  intros [Hi Hj]%elem_of_pairs [Hi' Hj']%elem_of_pairs He. unfold elem_at in He. destruct p, q. cbn [fst snd] in *.
  assert (z = z1) as -> by nia. f_equal. lia.
Qed.

Lemma result_disjoint p q b : p ∈ all_elems -> q ∈ all_elems ->
  span 1 (elem_at (ra_C x) p) b -> span 1 (elem_at (ra_C x) q) b -> p = q.
Proof.
  intros Hp Hq. pose proof (elem_addr _ p (rr_C_addr _ Hr) Hp). pose proof (elem_addr _ q (rr_C_addr _ Hr) Hq).
  rewrite !span_elem by done. intros -> He. by apply (elem_inj (ra_C x)).
Qed.

(** Writing results leaves the operands as they are. *)
Lemma operands_kept l d' p : (forall q, q ∈ l -> q ∈ all_elems) -> p ∈ all_elems ->
  mem_differ (stored 1 (elem_at (ra_C x)) l) d d' ->
  mem_int 1 d' (elem_at (ra_A x) p) = mem_int 1 d (elem_at (ra_A x) p) /\ mem_readable 1 d' (elem_at (ra_A x) p) /\
  mem_int 1 d' (elem_at (ra_B x) p) = mem_int 1 d (elem_at (ra_B x) p) /\ mem_readable 1 d' (elem_at (ra_B x) p).
Proof.
  intros Hl Hp Hd. destruct (rr_read _ Hr p Hp) as [HA HB].
  pose proof (elem_addr _ p (rr_A_addr _ Hr) Hp) as UA. pose proof (elem_addr _ p (rr_B_addr _ Hr) Hp) as UB.
  split_and!; [|by eapply mem_readable_differ| |by eapply mem_readable_differ]; (eapply mem_int_differ; [done|]);
    intros i Hi (q & Hq & Hs); (rewrite span_elem in Hs by (apply elem_addr; [apply Hr|auto]));
    replace i with 0 in Hs by lia; rewrite Z.add_0_r, wrap_u_id in Hs by done;
    destruct (rr_alias _ Hr q p (Hl q Hq) Hp); congruence.
Qed.

(** ** The CPU path *)

Lemma wp_write_addr a v Q m : in_u 64 a -> mem_writable 1 (dram m) a ->
  (forall d', mem_differ (span 1 a) (dram m) d' -> mem_int 1 d' a = wrap_s (8 * 1) v -> Q tt (Machine (gs m) d' (rand_pos m))) ->
  wp (write_to_dram 1 a v) Q m.
Proof. intros Ha Hw HQ. pose proof (wp_write_elem 1 a v Q m) as Hwp. rewrite wrap_u_id in Hwp by done. by apply Hwp. Qed.

Lemma wp_resadd_cpu m Q : dram m = d ->
  (forall m', gs m' = gs m -> rand_pos m' = rand_pos m ->
     store_post 1 (elem_at (ra_C x)) (fun p => default 0 (sum_value d p)) all_elems d (dram m') -> Q tt m') ->
  wp (resadd_cpu x) Q m.
Proof.
  intros Hm HQ. unfold resadd_cpu. apply wp_for_pairs.
  apply (wp_store 1 (elem_at (ra_C x)) (fun p => default 0 (sum_value d p)) _ (fun g r => g = gs m /\ r = rand_pos m));
    rewrite ?Hm; [lia|apply NoDup_pairs|apply result_disjoint|apply (rr_write _ Hr)|done| |].
  - intros p m' Hp [Hg Hn] Hd Hw. destruct (operands_kept all_elems (dram m') p) as (EA & RA & EB & RB); [done..|].
    fold (elem_at (ra_A x) p). fold (elem_at (ra_B x) p). fold (elem_at (ra_C x) p). unfold load_elem.
    apply wp_bind, wp_read_from_dram; [by unfold sizeof_elem_t|done|].
    apply wp_bind, wp_read_from_dram; [by unfold sizeof_elem_t|done|]. unfold sizeof_elem_t. rewrite EA, EB.
    destruct (rr_value _ Hr p Hp) as [v Hv]. apply wp_bind. eapply wp_of_option; [exact Hv|].
    apply wp_write_addr; [apply elem_addr; [apply Hr|done]|done|]. intros d' Hd' Hv'. cbn [gs dram rand_pos]. rewrite Hv. by split_and!.
  - intros m' [Hg Hn] Hs. by apply HQ.
Qed.
End run.
End sums.

(** ** The groups of blocks of one tile *)

Section groups.
Context (I J : Z) (HJ : 1 <= J).

Definition group_width : Z := resadd_blocks J * DIM.
Definition groups : list (Z * Z) := parts I J DIM group_width.
Definition group_rows (i : Z) : Z := part_len I DIM i.
Definition group_cols (j : Z) : Z := part_len J group_width j.
Definition group_elems (g : Z * Z) : list (Z * Z) := part_elems I J DIM group_width g.

(** The accumulator cell of an element of the tile: blocks in row-major order. *)
Definition elem_cell (e : Z * Z) : Z * Z :=
  (DIM * (fst e / DIM * cdiv J DIM + snd e / DIM) + fst e mod DIM, snd e mod DIM).

Lemma group_width_bound : DIM <= group_width <= 64 /\ group_width mod DIM = 0.
Proof.
  pose proof (cdiv_spec J DIM ltac:(by unfold DIM)). unfold group_width, resadd_blocks. unfold_params.
  case_match; [by vm_compute|]. zlia.
Qed.

Lemma group_steps : 0 < DIM /\ 0 < group_width.
Proof. pose proof group_width_bound. unfold DIM in *. lia. Qed.

Lemma elem_of_groups g : g ∈ groups <->
  0 <= fst g < I /\ fst g mod DIM = 0 /\ 0 <= snd g < J /\ snd g mod group_width = 0.
Proof. destruct group_steps. by apply elem_of_parts. Qed.

Lemma group_elems_in g e : g ∈ groups -> e ∈ group_elems g -> e ∈ pairs I J.
Proof. destruct group_steps. by apply part_elems_in. Qed.

Lemma elem_cell_inj e e' : e ∈ pairs I J -> e' ∈ pairs I J -> elem_cell e = elem_cell e' -> e = e'.
Proof.
  intros [He1 He2]%elem_of_pairs [He1' He2']%elem_of_pairs. pose proof (cdiv_spec J DIM ltac:(by unfold DIM)).
  unfold elem_cell. set (n := cdiv J DIM) in *. unfold DIM in *. destruct e as [a b], e' as [a' b']. cbn [fst snd] in *.
  intros [= Hr Hc]. assert (a mod 16 = a' mod 16) as Hm by zlia.
  assert (a / 16 * n + b / 16 = a' / 16 * n + b' / 16) as Hq by lia.
  assert (0 <= b / 16 < n /\ 0 <= b' / 16 < n) as [Hb Hb'] by zlia.
  assert (a / 16 = a' / 16) by nia. assert (b / 16 = b' / 16) by nia. f_equal; zlia.
Qed.

Lemma elem_cell_bound e : e ∈ pairs I J -> 0 <= fst (elem_cell e) < cdiv I DIM * DIM * cdiv J DIM /\ 0 <= snd (elem_cell e) < DIM.
Proof.
  intros [He1 He2]%elem_of_pairs. pose proof (cdiv_spec J DIM ltac:(by unfold DIM)). pose proof (cdiv_spec I DIM ltac:(by unfold DIM)).
  unfold elem_cell. set (n := cdiv J DIM) in *. set (k := cdiv I DIM) in *. unfold DIM in *. cbn [fst snd].
  assert (0 <= snd e / 16 < n) by zlia. assert (0 <= fst e / 16 < k) by zlia. split; [|zlia]. split; [zlia|].
  assert (fst e / 16 * n + snd e / 16 < k * n) by nia. zlia.
Qed.

(** The cell an instruction of a group uses for its element [p]. *)
Lemma group_cell g p : g ∈ groups -> p ∈ pairs (group_rows (fst g)) (group_cols (snd g)) ->
  block_cell (fst g * cdiv J DIM + snd g) DIM p = elem_cell (fst g + fst p, snd g + snd p).
Proof.
  intros (? & Hm & ? & Hm')%elem_of_groups [Hp1 Hp2]%elem_of_pairs. pose proof group_width_bound as [Hw Hwm].
  assert (0 <= fst p < DIM) as Hp by (unfold group_rows, part_len in Hp1; case_match; unfold DIM in *; lia).
  assert (snd g mod DIM = 0) as Hj.
  { apply Z.mod_divide in Hm', Hwm; [|unfold DIM in *; lia..]. apply Z.mod_divide; [by unfold DIM|]. by etrans. }
  unfold block_cell, elem_cell. cbn [fst snd]. set (n := cdiv J DIM). unfold DIM in *. f_equal; [|zlia].
  assert ((fst g + fst p) / 16 = fst g / 16) as -> by zlia. assert ((fst g + fst p) mod 16 = fst p) as -> by zlia.
  assert ((snd g + snd p) / 16 = snd g / 16 + snd p / 16) as -> by zlia.
  assert (fst g = fst g / 16 * 16) as Hg by zlia. assert (snd g = snd g / 16 * 16) as Hg' by zlia.
  rewrite Hg at 1. rewrite Hg' at 1. ring.
Qed.
End groups.

(** ** The three phases of a tile *)

(** The accumulator operand of a group: bit 31 selects the accumulator, bit 30
    accumulates. *)
Definition acc_operand (acc : bool) (o : Z) : Z := 2 ^ 31 + b2z acc * 2 ^ 30 + o.

Lemma acc_operand_fields acc o : 0 <= o < ACC_ROWS ->
  0 <= acc_operand acc o < 2 ^ 32 /\ is_acc_addr (acc_operand acc o) = true /\ is_accumulate (acc_operand acc o) = acc /\
  acc_operand acc o &ᵇ 0x1FFFFFFF = o /\ acc_operand acc o &ᵇ 0x3FFFFFF = o /\ (acc_operand acc o ≫ 26) &ᵇ 7 = 0 + b2z acc * 16 mod 8 /\
  is_full (acc_operand acc o) = false.
Proof.
  unfold ACC_ROWS. intros Ho. unfold acc_operand, is_acc_addr, is_accumulate, is_full. pose proof (b2z_range acc).
  set (w := 2 ^ 31 + b2z acc * 2 ^ 30 + o). assert (w = 2 ^ 31 + b2z acc * 2 ^ 30 + o) as Hw by done. clearbody w.
  assert ((w ≫ 31) &ᵇ 1 = 1) as -> by (autorewrite with bits; zlia).
  assert ((w ≫ 30) &ᵇ 1 = b2z acc) as -> by (autorewrite with bits; zlia).
  assert ((w ≫ 29) &ᵇ 1 = 0) as -> by (autorewrite with bits; zlia).
  split_and!; try done; try (autorewrite with bits; zlia); try lia. by destruct acc.
Qed.

Section phases.
Context {mem : Type} `{MmuLaws mem} `{Rand}.
Context (I J Js : Z) (HI : 1 <= I) (HJ : 1 <= J) (HJs : J <= Js <= 2 ^ 30).
Context (Hfit : cdiv I DIM * DIM * cdiv J DIM <= ACC_ROWS).
Implicit Types m : machine mem.

Definition group_offset (g : Z * Z) : Z := fst g * cdiv J DIM + snd g.

Lemma group_offset_bound g : g ∈ groups I J -> 0 <= group_offset g < ACC_ROWS.
Proof.
  intros Hg. assert (g ∈ pairs I J) as Hp by (apply (elem_of_groups I J HJ) in Hg; apply elem_of_pairs; lia).
  pose proof (group_width_bound J HJ) as [Hw _].
  pose proof (group_cell I J HJ g (0, 0) Hg) as Hc. cbn [fst snd] in Hc.
  rewrite !Z.add_0_r in Hc. destruct (elem_cell_bound I J HJ g Hp) as [Hb _].
  assert (elem_cell J g = (group_offset g, 0)) as He.
  { destruct g as [i j]. cbn [fst snd] in *. rewrite <- Hc.
    - unfold block_cell, group_offset. cbn [fst snd]. f_equal. unfold DIM. zlia.
    - apply (elem_of_groups I J HJ) in Hg. cbn [fst snd] in Hg. apply elem_of_pairs. unfold group_rows, group_cols, part_len. cbn [fst snd].
      unfold DIM in *. repeat case_match; lia. }
  rewrite He in Hb. cbn [fst] in Hb. lia.
Qed.

(** The operand the kernel computes for a group. *)
Lemma group_operand (acc : bool) g : g ∈ groups I J ->
  u32 (u32 ((if acc then 3 else 2) ≪ 30) + fst g * (u64 (cdiv J DIM * DIM) / DIM) + snd g) = acc_operand acc (group_offset g).
Proof.
  intros Hg. pose proof (group_offset_bound g Hg) as Ho. pose proof (cdiv_spec J DIM ltac:(by unfold DIM)).
  rewrite (wrap_u_id 64 (cdiv J DIM * DIM)) by (unfold in_u, DIM in *; lia). rewrite Z.div_mul by (by unfold DIM).
  unfold ACC_ROWS, group_offset, acc_operand in *. destruct acc; cbn [b2z].
  - change (u32 (3 ≪ 30)) with (3 * 2 ^ 30). rewrite wrap_u_id by (unfold in_u; lia). lia.
  - change (u32 (2 ≪ 30)) with (2 * 2 ^ 30). rewrite wrap_u_id by (unfold in_u; lia). lia.
Qed.

Lemma group_block_ok acc g : g ∈ groups I J ->
  block_ok (group_rows I (fst g)) (group_cols J (snd g)) (acc_operand acc (group_offset g)).
Proof.
  intros Hg. destruct (acc_operand_fields acc _ (group_offset_bound g Hg)) as [Ha _].
  pose proof (group_width_bound J HJ) as [Hw _]. apply (elem_of_groups I J HJ) in Hg as (? & ? & ? & ?).
  unfold group_rows, group_cols, part_len, DIM in *. split; repeat case_match; lia.
Qed.

(** The block of a group lies inside the accumulator. *)
Lemma group_in_acc v g : v_rows v = ACC_ROWS -> v_cols v = DIM -> g ∈ groups I J ->
  block_in v (group_rows I (fst g)) (group_cols J (snd g)) (group_offset g) DIM.
Proof.
  intros Hr Hc Hg p Hp. unfold group_offset. rewrite (group_cell I J HJ g p Hg Hp). apply in_shape_spec.
  destruct (elem_cell_bound I J HJ (fst g + fst p, snd g + snd p)); [|lia].
  eapply group_elems_in; [done|exact Hg|]. by apply part_elem.
Qed.

Lemma rows_small : I <= ACC_ROWS.
Proof.
  pose proof (cdiv_spec I DIM ltac:(by unfold DIM)). pose proof (cdiv_spec J DIM ltac:(by unfold DIM)).
  assert (1 <= cdiv J DIM) by (unfold DIM in *; lia). unfold DIM in *. nia.
Qed.

(** The element of main memory for [p] of a group. *)
Lemma group_dram base g p : dram_elem (base + fst g * Js + snd g) Js 1 p = dram_elem base Js 1 (fst g + fst p, snd g + snd p).
Proof. unfold dram_elem. cbn [fst snd]. lia. Qed.

(** The value a move-in brings to the cell of an element. *)
Definition moved (d : mem) (acc : bool) (base : Z) (scale : float32) (e : Z * Z) (old : Z) : Z :=
  if acc then s32 (old + scaled_elem d base Js scale e) else scaled_elem d base Js scale e.

Section move_in.
Context (funct id base : Z) (scale : float32) (acc : bool).
Context (Hsc : scale_total scale) (Hbase : 0 < base /\ base + (I - 1) * Js + J <= 2 ^ 64).

(** One group. *)
Lemma wp_group_in g Q m : g ∈ groups I J ->
  ready m -> is_Some (get_stat (nrm (gs m))) -> ld_entry (ld (gs m)) id Js DIM true scale ->
  (forall e, e ∈ pairs I J -> mem_readable 1 (dram m) (dram_elem base Js 1 e)) ->
  (forall m', calm m m' -> dram m' = dram m ->
     (forall e, e ∈ group_elems I J g -> vget (accumulator (gs m')) (fst (elem_cell J e)) (snd (elem_cell J e)) =
        moved (dram m) acc base scale e (vget (accumulator (gs m)) (fst (elem_cell J e)) (snd (elem_cell J e)))) ->
     (forall e, e ∈ pairs I J -> e ∉ group_elems I J g ->
        vget (accumulator (gs m')) (fst (elem_cell J e)) (snd (elem_cell J e)) =
        vget (accumulator (gs m)) (fst (elem_cell J e)) (snd (elem_cell J e))) -> Q tt m') ->
  wp (issue funct (mvin (u64 (base + fst g * Js + snd g))
        (pack_block (group_rows I (fst g)) (group_cols J (snd g)) (acc_operand acc (group_offset g))) id)) Q m.
Proof.
  intros Hg Hr Hst Hld Hread HQ.
  destruct (acc_operand_fields acc _ (group_offset_bound g Hg)) as (_ & Fa & Fc & F29 & _).
  destruct (ready_acc_shape m Hr) as [Hvr Hvc]. pose proof (proj1 (elem_of_groups I J HJ g) Hg) as (Hg1 & _ & Hg2 & _).
  set (a := base + fst g * Js + snd g).
  assert (in_u 64 a /\ a <> 0) as [Ha Ha0].
  { assert (fst g * Js <= (I - 1) * Js) by (apply Z.mul_le_mono_nonneg_r; lia).
    assert (0 <= fst g * Js) by (apply Z.mul_nonneg_nonneg; lia). unfold in_u, a. split; nia. }
  rewrite (wrap_u_id 64 a) by done.
  assert (forall p, p ∈ pairs (group_rows I (fst g)) (group_cols J (snd g)) ->
    (fst g + fst p, snd g + snd p) ∈ group_elems I J g) as Hel.
  { intros p. apply part_elem. }
  assert (forall e, e ∈ group_elems I J g -> e ∈ pairs I J) as Hin by (intros e; by apply group_elems_in).
  assert (forall p, scaled_elem (dram m) a Js scale p = scaled_elem (dram m) base Js scale (fst g + fst p, snd g + snd p)) as Hse.
  { intros p. unfold scaled_elem. rewrite (proj2 (Z.eqb_neq a 0)), (proj2 (Z.eqb_neq base 0)) by lia. unfold a. by rewrite group_dram. }
  apply (wp_issue_mvin_acc _ _ _ _ _ _ Js DIM true scale); [done|done|by apply group_block_ok|done|done|by unfold DIM|done| | |].
  - intros _ p Hp. unfold a. rewrite group_dram. by apply Hread, Hin, Hel.
  - rewrite F29. by apply group_in_acc.
  - intros m' Hc Hd Hacc. unfold acc_moved in Hacc. rewrite F29, Fc in Hacc.
    apply HQ; [done|done| |].
    + intros e (p & -> & Hp)%list_elem_of_fmap. rewrite <- (group_cell I J HJ g p Hg Hp), Hacc.
      rewrite vget_fill_in; [|apply NoDup_pairs| |done].
      * unfold moved, acc_elem. by rewrite Hse.
      * intros q Hq. unfold group_offset. rewrite !(group_cell I J HJ g) by done. intros He.
        apply (elem_cell_inj I J HJ) in He; [|by apply Hin, Hel..]. destruct p, q. injection He. intros. f_equal; lia.
    + intros e He Hne. rewrite Hacc. apply vget_fill_out. intros p Hp. unfold group_offset. rewrite (group_cell I J HJ g p Hg Hp).
      intros Heq. rewrite <- surjective_pairing in Heq. apply (elem_cell_inj I J HJ) in Heq; [|by apply Hin, Hel|done].
      subst e. by apply Hne, Hel.
Qed.

(** The accumulator cells of the tile, before and after the groups [l]. *)
Definition cells_moved (l : list (Z * Z)) (d : mem) (v v' : vec2) : Prop :=
  forall e, e ∈ pairs I J ->
    let old := vget v (fst (elem_cell J e)) (snd (elem_cell J e)) in
    ((exists g, g ∈ l /\ e ∈ group_elems I J g) ->
       vget v' (fst (elem_cell J e)) (snd (elem_cell J e)) = moved d acc base scale e old) /\
    ((forall g, g ∈ l -> e ∉ group_elems I J g) -> vget v' (fst (elem_cell J e)) (snd (elem_cell J e)) = old).

Lemma wp_moves_in (move : Z -> Z -> Z -> Z -> M (machine mem) unit) Q m :
  (forall a sp cols rows m', block_ok rows cols sp ->
     move a sp cols rows m' = issue funct (mvin (u64 a) (pack_block rows cols sp) id) m') ->
  ready m -> is_Some (get_stat (nrm (gs m))) -> ld_entry (ld (gs m)) id Js DIM true scale ->
  (forall e, e ∈ pairs I J -> mem_readable 1 (dram m) (dram_elem base Js 1 e)) ->
  (forall m', calm m m' -> dram m' = dram m ->
     (forall e, e ∈ pairs I J -> vget (accumulator (gs m')) (fst (elem_cell J e)) (snd (elem_cell J e)) =
        moved (dram m) acc base scale e (vget (accumulator (gs m)) (fst (elem_cell J e)) (snd (elem_cell J e)))) -> Q tt m') ->
  wp (resadd_moves I J (fun i j cols rows => move (base + i * Js + j)
        (u32 (u32 ((if acc then 3 else 2) ≪ 30) + i * (u64 (cdiv J DIM * DIM) / DIM) + j)) cols rows)) Q m.
Proof.
  intros Hmv Hr Hst Hld Hread HQ. destruct (group_steps J HJ). unfold resadd_moves. apply wp_for_grid.
  fold (group_width J). fold (parts I J DIM (group_width J)). fold (groups I J).
  apply (wp_for_list (fun k m' => calm m m' /\ dram m' = dram m /\
    cells_moved (take k (groups I J)) (dram m) (accumulator (gs m)) (accumulator (gs m')))).
  - split_and!; [by apply calm_refl|done|]. intros e He. split; [|done]. intros (g & Hg & _). simpl in Hg. by inversion Hg.
  - intros k g m' Hk (Hc & Hd & Hcells). pose proof (list_elem_of_lookup_2 _ _ _ Hk) as Hg.
    cbv beta zeta. fold (part_len J (group_width J) (snd g)). fold (part_len I DIM (fst g)).
    fold (group_cols J (snd g)). fold (group_rows I (fst g)).
    unfold wp. rewrite group_operand, Hmv by (done || by apply group_block_ok).
    apply wp_group_in; [done|apply Hc|by eapply calm_stat|by rewrite (calm_ld _ _ Hc)|by rewrite Hd|].
    intros m'' Hc' Hd' Hnew Hold. split_and!; [by eapply calm_trans|congruence|].
    intros e He old. rewrite (take_S_r _ _ g Hk). setoid_rewrite elem_of_app. setoid_rewrite list_elem_of_singleton. split.
    + intros (g' & [Hg' | ->] & He').
      * rewrite Hold; [|done|intros He2; by eapply (part_earlier I J DIM (group_width J))].
        apply (Hcells e He). by exists g'.
      * rewrite Hnew by done. rewrite Hd. f_equal. apply (Hcells e He).
        intros g' Hg'. by eapply (part_earlier I J DIM (group_width J)).
    + intros Hno. rewrite Hold; [|done|apply Hno; by right]. apply (Hcells e He). intros g' Hg'. apply Hno. by left.
  - intros m' (Hc & Hd & Hcells). apply HQ; [done..|]. intros e He. apply (Hcells e He).
    destruct (part_cover I J DIM (group_width J) ltac:(done) ltac:(done) e He) as (g & Hg & Heg). exists g. split; [|done].
    by rewrite firstn_all.
Qed.
End move_in.

Section move_out.
Context (base : Z) (Hbase : 0 < base /\ base + (I - 1) * Js + J <= 2 ^ 64).

Lemma calm_gs m g d r : calm m (Machine g d r) -> forall d' r', calm m (Machine g d' r').
Proof. intros [[? ?] ? ? ?] d' r'. by split. Qed.

(** What a move-out stores for an element. *)
Definition stored_value (m : machine mem) (e : Z * Z) : option Z :=
  store_value (st (gs m)) (nrm (gs m)) false (vget (accumulator (gs m)) (fst (elem_cell J e)) (snd (elem_cell J e))).

Lemma stored_value_calm m m' e : calm m m' -> accumulator (gs m') = accumulator (gs m) -> stored_value m' e = stored_value m e.
Proof.
  intros Hc Ha. unfold stored_value. rewrite Ha, (calm_st _ _ Hc). apply store_value_same. by apply calm_norm.
Qed.

Lemma elems_apart : elems_disjoint 1 I J (dram_elem base Js 1).
Proof. pose proof rows_small. unfold ACC_ROWS in *. apply row_major_disjoint; nia. Qed.

Lemma wp_group_out g Q m : g ∈ groups I J ->
  ready m -> is_Some (get_stat (nrm (gs m))) -> store_stride (st (gs m)) = Js -> pool_stride (st (gs m)) = 0 ->
  (forall e, e ∈ pairs I J -> is_Some (stored_value m e)) ->
  (forall e, e ∈ group_elems I J g -> mem_writable 1 (dram m) (dram_elem base Js 1 e)) ->
  (forall m', calm m m' -> accumulator (gs m') = accumulator (gs m) ->
     store_post 1 (dram_elem base Js 1) (fun e => default 0 (stored_value m e)) (group_elems I J g) (dram m) (dram m') -> Q tt m') ->
  wp (issue k_MVOUT (mvout (u64 (base + fst g * Js + snd g))
        (pack_block (group_rows I (fst g)) (group_cols J (snd g)) (acc_operand false (group_offset g))))) Q m.
Proof.
  intros Hg Hr Hst Hss Hps Hval Hw HQ.
  destruct (acc_operand_fields false _ (group_offset_bound g Hg)) as (_ & Fa & _ & _ & F26 & Fcmd & Ffull).
  destruct (ready_acc_shape m Hr) as [Hvr Hvc]. pose proof (proj1 (elem_of_groups I J HJ g) Hg) as (Hg1 & _ & Hg2 & _).
  set (a := base + fst g * Js + snd g).
  assert (in_u 64 a) as Ha.
  { assert (fst g * Js <= (I - 1) * Js) by (apply Z.mul_le_mono_nonneg_r; lia).
    assert (0 <= fst g * Js) by (apply Z.mul_nonneg_nonneg; lia). unfold in_u, a. nia. }
  rewrite (wrap_u_id 64 a) by done.
  assert (out_size (acc_operand false (group_offset g)) = 1) as Hsz by (unfold out_size; by rewrite Ffull, andb_false_r).
  assert (forall p, p ∈ pairs (group_rows I (fst g)) (group_cols J (snd g)) ->
    (fst g + fst p, snd g + snd p) ∈ group_elems I J g) as Hel.
  { intros p. apply part_elem. }
  assert (forall e, e ∈ group_elems I J g -> e ∈ pairs I J) as Hin by (intros e; by apply group_elems_in).
  assert (forall p, p ∈ pairs (group_rows I (fst g)) (group_cols J (snd g)) ->
    out_value (gs m) (acc_operand false (group_offset g)) p = stored_value m (fst g + fst p, snd g + snd p)) as Hov.
  { intros p Hp. unfold out_value, stored_value. rewrite Fa, F26, Ffull. unfold group_offset. by rewrite (group_cell I J HJ g p Hg Hp). }
  assert (group_rows I (fst g) * Js <= 2 ^ 64) as Htot.
  { pose proof rows_small. unfold ACC_ROWS, group_rows, part_len, DIM in *. case_match; nia. }
  apply wp_issue_mvout; rewrite ?Hsz, ?Hss, ?F26; [done|by apply group_block_ok|done|done|done|by apply group_in_acc| | | | |].
  - by rewrite Fa.
  - intros p Hp. rewrite Hov by done. by apply Hval, Hin, Hel.
  - apply row_major_disjoint; [lia| |done]. unfold group_cols, part_len. case_match; lia.
  - intros p Hp. unfold a. rewrite group_dram. by apply Hw, Hel.
  - intros m' Hc Hacc _ Hs. apply HQ; [done..|]. unfold group_elems, part_elems. apply store_post_fmap.
    eapply store_post_ext in Hs; [|intros p Hp; by rewrite Hov]. destruct Hs as [Hd Hv]. split.
    + eapply mem_differ_weaken; [exact Hd|]. intros b (p & Hp & Hb). exists p. split; [done|]. by rewrite <- group_dram.
    + intros p Hp. rewrite <- group_dram. by apply Hv.
Qed.

Lemma wp_moves_out Q m :
  ready m -> is_Some (get_stat (nrm (gs m))) -> store_stride (st (gs m)) = Js -> pool_stride (st (gs m)) = 0 ->
  (forall e, e ∈ pairs I J -> is_Some (stored_value m e)) ->
  (forall e, e ∈ pairs I J -> mem_writable 1 (dram m) (dram_elem base Js 1 e)) ->
  (forall m', calm m m' ->
     store_post 1 (dram_elem base Js 1) (fun e => default 0 (stored_value m e)) (pairs I J) (dram m) (dram m') -> Q tt m') ->
  wp (resadd_moves I J (fun i j cols rows => gemmini_extended_mvout (base + i * Js + j)
        (u32 (u32 (2 ≪ 30) + i * (u64 (cdiv J DIM * DIM) / DIM) + j)) cols rows)) Q m.
Proof.
  intros Hr Hst Hss Hps Hval Hw HQ. unfold resadd_moves. apply wp_for_grid. fold (group_width J).
  fold (parts I J DIM (group_width J)). destruct (group_steps J HJ).
  apply (wp_store_parts I J DIM (group_width J) ltac:(done) ltac:(done) 1 (dram_elem base Js 1) (fun e => default 0 (stored_value m e)) _
    (fun g r => calm m (Machine g (dram m) r) /\ accumulator g = accumulator (gs m))); [apply elems_apart|done| | |].
  - split; [|done]. destruct m. by apply calm_refl.
  - intros g m' Hg [Hc Ha] Hd Hwg. cbv beta zeta. fold (part_len J (group_width J) (snd g)). fold (part_len I DIM (fst g)).
    fold (group_cols J (snd g)). fold (group_rows I (fst g)).
    unfold wp. rewrite (group_operand false), mvout_issue by (done || by apply group_block_ok).
    assert (calm m m') as Hcm by (destruct m'; by eapply calm_gs).
    apply wp_group_out; [done|apply Hcm|by eapply calm_stat|by rewrite (calm_st _ _ Hcm)|by rewrite (calm_st _ _ Hcm)| |done|].
    + intros e He. rewrite (stored_value_calm m m') by done. by apply Hval.
    + intros m'' Hc' Ha' Hs. split.
      * split; [|congruence]. destruct m''. eapply calm_gs, calm_trans; [exact Hcm|exact Hc'].
      * eapply (store_post_ext _ _ (fun e => default 0 (stored_value m' e))); [|exact Hs].
        intros e He. by rewrite (stored_value_calm m m').
  - intros m' [Hc Ha] Hs. apply HQ; [|done]. destruct m'. by eapply calm_gs.
Qed.
End move_out.
End phases.

(** ** The accelerated addition *)

Section accelerated.
Context {mem : Type} `{MmuLaws mem} `{Rand}.
Variable (x : resadd_args).
Implicit Types (d : mem) (m : machine mem).

(** The configuration [tiled_resadd] sets up. *)
Record configured (m : machine mem) : Prop := {
  cf_ready : ready m; cf_stat : is_Some (get_stat (nrm (gs m)));
  cf_A : ld_entry (ld (gs m)) 0 (ra_J x) DIM true (ra_A_scale x);
  cf_B : ld_entry (ld (gs m)) 1 (ra_J x) DIM true (ra_B_scale x);
  cf_stride : store_stride (st (gs m)) = ra_J x; cf_pool : pool_stride (st (gs m)) = 0;
  cf_act : acc_act (st (gs m)) = relu_act (ra_relu x); cf_shift : acc_shift (st (gs m)) = ra_C_scale x }.

Lemma configured_calm m m' : calm m m' -> configured m -> configured m'.
Proof.
  intros Hc []. split; [apply Hc|by eapply calm_stat|..]; rewrite ?(calm_ld _ _ Hc), ?(calm_st _ _ Hc); done.
Qed.

(** The accelerator stores the reference sum. *)
Lemma stored_is_sum t n a b w : acc_act t = relu_act (ra_relu x) -> acc_shift t = ra_C_scale x ->
  resadd_value x a b = Some w ->
  store_value t n false (s32 (default 0 (mvin_scale a (ra_A_scale x)) + default 0 (mvin_scale b (ra_B_scale x)))) = Some w.
Proof.
  intros Ha Hs Hw. unfold resadd_value in Hw. rewrite !mvin_scale_eq.
  apply bind_Some in Hw as (sa & Hsa & Hw). apply bind_Some in Hw as (sb & Hsb & Hw). apply bind_Some in Hw as (r & Hr & Hw).
  rewrite Hsa, Hsb. change (default 0 (Some sa)) with sa. change (default 0 (Some sb)) with sb. apply (inj Some) in Hw. subst w. rewrite clamp_activation.
  unfold store_value. assert (pre_activation (acc_act t) n (s32 (sa + sb)) = Some (s32 (sa + sb))) as Hp.
  { rewrite Ha. by destruct (ra_relu x). }
  rewrite Hp. cbn [mbind option_bind]. unfold acc_scale. rewrite Hs, Hr. cbn [mbind option_bind]. rewrite Ha. f_equal. symmetry.
  apply wrap_s_id; [lia|]. apply apply_activation_range. by apply wrap_s_range.
Qed.

Lemma cdiv_mono a b c : 0 < c -> a <= b -> cdiv a c <= cdiv b c.
Proof. intros Hc Hab. apply cdiv_le; [done|]. pose proof (cdiv_spec b c Hc). lia. Qed.

Section tile.
Context (d : mem) (Hr : resadd_ready x d).
Context (tI tJ : Z) (HtI : 1 <= tI <= ra_I x) (HtJ : 1 <= tJ <= ra_J x).
Context (Hfit : cdiv tI DIM * DIM * cdiv tJ DIM <= ACC_ROWS).

Lemma tile_elem base g p : dram_elem (base + (fst g * ra_J x + snd g)) (ra_J x) 1 p = elem_at x base (fst g + fst p, snd g + snd p).
Proof. unfold dram_elem, elem_at. cbn [fst snd]. lia. Qed.

Lemma wp_resadd_tile g Q m : g ∈ parts (ra_I x) (ra_J x) tI tJ -> configured m ->
  mem_differ (stored 1 (elem_at x (ra_C x)) (all_elems x)) d (dram m) ->
  (forall e, e ∈ part_elems (ra_I x) (ra_J x) tI tJ g -> mem_writable 1 (dram m) (elem_at x (ra_C x) e)) ->
  (forall m', configured m' ->
     store_post 1 (elem_at x (ra_C x)) (fun e => default 0 (sum_value x d e)) (part_elems (ra_I x) (ra_J x) tI tJ g)
       (dram m) (dram m') -> Q tt m') ->
  let off := fst g * ra_J x + snd g in
  wp (sp_tiled_resadd (part_len (ra_I x) tI (fst g)) (part_len (ra_J x) tJ (snd g))
        (ra_A x + off) (ra_B x + off) (ra_C x + off) (ra_J x) (ra_J x) (ra_J x)) Q m.
Proof.
  intros Hg Hcf Hd Hw HQ off. destruct (rr_I _ _ Hr) as [_ HI30], (rr_J _ _ Hr) as [_ HJ30].
  pose proof (proj1 (elem_of_parts (ra_I x) (ra_J x) tI tJ ltac:(lia) ltac:(lia) g) Hg) as (Hg1 & _ & Hg2 & _).
  set (It := part_len (ra_I x) tI (fst g)) in *. set (Jt := part_len (ra_J x) tJ (snd g)) in *.
  assert (1 <= It <= tI /\ fst g + It <= ra_I x) as HIt by (unfold It, part_len; case_match; lia).
  assert (1 <= Jt <= tJ /\ snd g + Jt <= ra_J x) as HJt by (unfold Jt, part_len; case_match; lia).
  assert (cdiv It DIM * DIM * cdiv Jt DIM <= ACC_ROWS) as Hfit'.
  { etrans; [|exact Hfit]. pose proof (cdiv_mono It tI DIM ltac:(by unfold DIM) ltac:(lia)).
    pose proof (cdiv_mono Jt tJ DIM ltac:(by unfold DIM) ltac:(lia)).
    assert (0 <= cdiv Jt DIM) by (pose proof (cdiv_spec Jt DIM ltac:(by unfold DIM)); unfold DIM in *; lia).
    assert (0 <= cdiv It DIM) by (pose proof (cdiv_spec It DIM ltac:(by unfold DIM)); unfold DIM in *; lia).
    unfold DIM in *. nia. }
  assert (forall e, e ∈ pairs It Jt -> (fst g + fst e, snd g + snd e) ∈ part_elems (ra_I x) (ra_J x) tI tJ g) as Hel
    by (intros e; apply part_elem).
  assert (forall e, e ∈ pairs It Jt -> (fst g + fst e, snd g + snd e) ∈ all_elems x) as Hall.
  { intros e He. eapply (part_elems_in _ _ tI tJ); [lia|lia|exact Hg|]. by apply Hel. }
  assert (forall base, 0 < base /\ base + ra_I x * ra_J x <= 2 ^ 64 ->
    0 < base + off /\ base + off + (It - 1) * ra_J x + Jt <= 2 ^ 64) as Hbase.
  { intros base Hb. assert ((fst g + It) * ra_J x <= ra_I x * ra_J x) by (apply Z.mul_le_mono_nonneg_r; lia).
    unfold off. split; [|lia]. assert (0 <= fst g * ra_J x) by (apply Z.mul_nonneg_nonneg; lia). lia. }
  assert (forall e, e ∈ pairs It Jt -> let e' := (fst g + fst e, snd g + snd e) in
    mem_int 1 (dram m) (elem_at x (ra_A x) e') = mem_int 1 d (elem_at x (ra_A x) e') /\ mem_readable 1 (dram m) (elem_at x (ra_A x) e') /\
    mem_int 1 (dram m) (elem_at x (ra_B x) e') = mem_int 1 d (elem_at x (ra_B x) e') /\ mem_readable 1 (dram m) (elem_at x (ra_B x) e')) as Hop.
  { intros e He e'. eapply operands_kept; [done| |by apply Hall|exact Hd]. done. }
  unfold sp_tiled_resadd. cbv zeta. change resadd_D_start with (u32 (2 ≪ 30)). change resadd_C_start with (u32 (3 ≪ 30)).
  apply wp_bind. apply (wp_moves_in It Jt (ra_J x) ltac:(lia) ltac:(lia) ltac:(lia) Hfit' k_MVIN 0 (ra_A x + off) (ra_A_scale x) false);
    [apply scale_total_float, Hr|apply Hbase, Hr|intros; by apply mvin_issue|apply Hcf|apply Hcf|apply Hcf| |].
  { intros e He. unfold off. rewrite tile_elem. by apply Hop. }
  intros m1 Hc1 Hd1 HA. pose proof (configured_calm _ _ Hc1 Hcf) as Hcf1.
  apply wp_bind. apply (wp_moves_in It Jt (ra_J x) ltac:(lia) ltac:(lia) ltac:(lia) Hfit' k_MVIN2 1 (ra_B x + off) (ra_B_scale x) true);
    [apply scale_total_float, Hr|apply Hbase, Hr|intros; by apply mvin2_issue|apply Hcf1|apply Hcf1|apply Hcf1| |].
  { intros e He. rewrite Hd1. unfold off. rewrite tile_elem. by apply Hop. }
  intros m2 Hc2 Hd2 HB. pose proof (configured_calm _ _ Hc2 Hcf1) as Hcf2.
  assert (forall e, e ∈ pairs It Jt -> exists w, sum_value x d (fst g + fst e, snd g + snd e) = Some w /\ stored_value Jt m2 e = Some w) as Hval.
  { intros e He. destruct (rr_value _ _ Hr _ (Hall e He)) as [w Hsum]. exists w. split; [done|]. unfold stored_value.
    rewrite HB, HA by done. unfold moved, scaled_elem. destruct (Hbase _ (rr_A_addr _ _ Hr)), (Hbase _ (rr_B_addr _ _ Hr)).
    rewrite (proj2 (Z.eqb_neq (ra_A x + off) 0)), (proj2 (Z.eqb_neq (ra_B x + off) 0)) by lia.
    unfold off. rewrite !tile_elem, Hd1. destruct (Hop e He) as (-> & _ & -> & _).
    apply stored_is_sum; [apply Hcf2|apply Hcf2|exact Hsum]. }
  apply (wp_moves_out It Jt (ra_J x) ltac:(lia) ltac:(lia) ltac:(lia) Hfit' (ra_C x + off));
    [apply Hbase, Hr|apply Hcf2|apply Hcf2|apply Hcf2|apply Hcf2| | |].
  - intros e He. destruct (Hval e He) as (w & _ & ->). by eexists.
  - intros e He. rewrite Hd2, Hd1. unfold off. rewrite tile_elem. by apply Hw, Hel.
  - intros m3 Hc3 [Hd3 Hv3]. apply HQ; [by eapply configured_calm|]. rewrite Hd2, Hd1 in Hd3.
    unfold part_elems. apply store_post_fmap. split.
    + eapply mem_differ_weaken; [exact Hd3|]. intros b (e & He & Hb). exists e. split; [done|]. by rewrite <- tile_elem.
    + intros e He. destruct (Hval e He) as (w & Hsum & Hst). rewrite <- tile_elem. fold off. rewrite (Hv3 e He), Hsum, Hst. done.
Qed.
End tile.

(** ** Configuration and the loops over the tiles *)

Lemma get_stat_some n : wf_nrm n -> norm_stat_id n = 0 -> is_Some (get_stat n).
Proof.
  intros [_ _ _ _ _ [L1 _] [L2 _] [L3 _] [L4 _] [L5 _] [L6 _] [L7 _] [L8 _]] Hid. unfold get_stat. rewrite Hid.
  destruct (norm_sum n), (norm_running_max n), (norm_max n), (norm_count n), (norm_mean n), (norm_inv_stddev n),
    (norm_inv_sum_exp n), (norm_reset n); done.
Qed.

Lemma load_set_entry l id stride bs shrunk scale : ld_sized l -> 0 <= id < LOAD_STATES ->
  ld_entry (load_set l id stride bs shrunk scale 1) id stride bs shrunk scale.
Proof.
  unfold ld_sized, sized. intros (L1 & L2 & L3 & L4 & L5) Hid.
  split; [lia|..]; cbn [load_set load_strides load_block_strides load_shrunks load_scales pixels_per_rows];
    apply list_lookup_insert_eq; lia.
Qed.

Lemma load_set_other l id id' stride bs shrunk scale stride' bs' shrunk' scale' : 0 <= id -> 0 <= id' -> id <> id' ->
  ld_entry l id' stride' bs' shrunk' scale' -> ld_entry (load_set l id stride bs shrunk scale 1) id' stride' bs' shrunk' scale'.
Proof.
  intros Hid Hid' Hne []. split; [lia|..]; cbn [load_set load_strides load_block_strides load_shrunks load_scales pixels_per_rows];
    (rewrite list_lookup_insert_ne by lia; done).
Qed.

Lemma relu_code : act_of_Z (if ra_relu x then RELU_act else NO_ACTIVATION) = Some (relu_act (ra_relu x)) /\
  0 <= (if ra_relu x then RELU_act else NO_ACTIVATION) < 4.
Proof. by destruct (ra_relu x). Qed.

Lemma wp_resadd_config Q m : ready m -> acc_act (st (gs m)) <> SOFTMAX -> size_ok (ra_J x) ->
  is_binary32 (ra_A_scale x) = true -> is_binary32 (ra_B_scale x) = true -> is_binary32 (ra_C_scale x) = true ->
  (forall m', configured m' -> dram m' = dram m -> Q tt m') ->
  wp (gemmini_extended_config_st (ra_J x) sizeof_elem_t (if ra_relu x then RELU_act else NO_ACTIVATION) (ra_C_scale x) ;;
      gemmini_config_ex WEIGHT_STATIONARY 0 0 0 ;;
      gemmini_extended4_config_ld (ra_J x * sizeof_elem_t) (ra_A_scale x) true DIM 0 ;;
      gemmini_extended4_config_ld (ra_J x * sizeof_elem_t) (ra_B_scale x) true DIM 1) Q m.
Proof.
  intros Hr Hact HJ HA HB HC HQ. unfold sizeof_elem_t. rewrite !Z.mul_1_r. unfold size_ok in HJ. destruct relu_code as [Hcode Hrange].
  apply wp_bind, (wp_config_st _ _ _ (relu_act (ra_relu x))); [done|unfold in_u; rewrite wrap_u_id by (unfold in_u; lia); lia|done..|]. intros c1 r1 m1 Hr1.
  apply wp_bind. unfold gemmini_config_ex. apply (wp_config_ex WEIGHT_STATIONARY 0 NONE 0 0 1 false false); [done| |done..| |].
  { change (acc_act (st (gs m1))) with (relu_act (ra_relu x)). by destruct (ra_relu x). }
  { by intros [? _]. }
  intros c2 r2 m2 Hr2. unfold gemmini_extended4_config_ld.
  apply wp_bind, wp_config_ld; [done|done|unfold in_u; lia|done|done|done|]. intros c3 r3 m3 Hr3.
  apply wp_config_ld; [done|done|unfold in_u; lia|done|done|done|]. intros c4 r4 m4 Hr4.
  assert (ld_sized (ld (gs m2))) as Hs2 by (apply wf_ld_sized, Hr2). assert (ld_sized (ld (gs m3))) as Hs3 by (apply wf_ld_sized, Hr3).
  apply HQ; [|done]. split; [done| | | |..|done|done].
  - apply get_stat_some; [apply (wf_s_nrm _ (proj1 Hr4))|done].
  - apply load_set_other; [done..|]. by apply load_set_entry.
  - by apply load_set_entry.
  - change (store_stride (st (gs m4))) with (u32 (ra_J x) * 1). rewrite Z.mul_1_r. apply wrap_u_id. unfold in_u. lia.
  - done.
Qed.

(** What a residual addition leaves in memory. *)
Definition resadd_post (d d' : mem) : Prop :=
  store_post 1 (elem_at x (ra_C x)) (fun e => default 0 (sum_value x d e)) (all_elems x) d d'.

(** The loops over the tiles. *)
Lemma wp_resadd_tiles tI tJ Q m : resadd_ready x (dram m) -> configured m ->
  1 <= tI <= ra_I x -> 1 <= tJ <= ra_J x -> cdiv tI DIM * DIM * cdiv tJ DIM <= ACC_ROWS ->
  (forall m', configured m' -> resadd_post (dram m) (dram m') -> Q tt m') ->
  wp (for_step_u 64 0 (ra_I x) tI (fun i => for_step_u 64 0 (ra_J x) tJ (fun j =>
        sp_tiled_resadd (part_len (ra_I x) tI i) (part_len (ra_J x) tJ j) (ra_A x + (i * ra_J x + j))
          (ra_B x + (i * ra_J x + j)) (ra_C x + (i * ra_J x + j)) (ra_J x) (ra_J x) (ra_J x)))) Q m.
Proof.
  intros Hr Hcf HtI HtJ Hfit HQ. destruct (rr_I _ _ Hr) as [_ HI30], (rr_J _ _ Hr) as [_ HJ30].
  unfold wp. erewrite for_step_u_plain; [|lia|lia|lia|intros i s'; apply for_step_u_plain; [lia|lia|lia|reflexivity]].
  apply wp_for_grid. fold (parts (ra_I x) (ra_J x) tI tJ).
  apply (wp_store_parts (ra_I x) (ra_J x) tI tJ ltac:(lia) ltac:(lia) 1 (elem_at x (ra_C x)) (fun e => default 0 (sum_value x (dram m) e)) _
    (fun g r => configured (Machine g (dram m) r))).
  - intros p q b. by apply (result_disjoint x (dram m)).
  - apply (rr_write _ _ Hr).
  - by destruct m.
  - intros g m' Hg Hcf' Hd Hw. apply (wp_resadd_tile (dram m) Hr tI tJ); [done..| |done|done|].
    + destruct m', Hcf' as [[]]. by split.
    + intros m'' [[]] Hs. split; [|done]. by split.
  - intros m' Hcf' Hs. apply HQ; [|done]. destruct m', Hcf' as [[]]. by split.
Qed.

Lemma wp_tiled_resadd tI tJ Q m : ready m -> acc_act (st (gs m)) <> SOFTMAX -> resadd_ready x (dram m) ->
  is_binary32 (ra_A_scale x) = true -> is_binary32 (ra_B_scale x) = true -> is_binary32 (ra_C_scale x) = true ->
  1 <= tI <= ra_I x -> 1 <= tJ <= ra_J x -> cdiv tI DIM * DIM * cdiv tJ DIM <= ACC_ROWS ->
  (forall m', configured m' -> resadd_post (dram m) (dram m') -> Q tt m') ->
  wp (tiled_resadd x tI tJ) Q m.
Proof.
  intros Hr Hact Hrr HA HB HC HtI HtJ Hfit HQ. pose proof (wp_resadd_config (fun _ m' =>
    wp (for_step_u 64 0 (ra_I x) tI (fun i => for_step_u 64 0 (ra_J x) tJ (fun j =>
        sp_tiled_resadd (part_len (ra_I x) tI i) (part_len (ra_J x) tJ j) (ra_A x + (i * ra_J x + j))
          (ra_B x + (i * ra_J x + j)) (ra_C x + (i * ra_J x + j)) (ra_J x) (ra_J x) (ra_J x))) ;; gemmini_fence) Q m') m Hr Hact
    (rr_J _ _ Hrr) HA HB HC) as Hcfg.
  unfold tiled_resadd. apply wp_bind_inv in Hcfg.
  - apply wp_bind. eapply wp_mono; [exact Hcfg|]. intros [] m1 W1. apply wp_bind_inv in W1. apply wp_bind.
    eapply wp_mono; [exact W1|]. intros [] m2 W2. apply wp_bind_inv in W2. apply wp_bind.
    eapply wp_mono; [exact W2|]. intros [] m3 W3. apply wp_bind. exact W3.
  - intros m' Hcf Hd. apply wp_bind, wp_resadd_tiles; rewrite ?Hd; [done..|]. intros m2 Hcf2 Hs. by apply wp_ret, HQ.
Qed.

Lemma wp_tiled_resadd_auto ty Q m : ty <> T_OS -> ready m -> acc_act (st (gs m)) <> SOFTMAX -> resadd_ready x (dram m) ->
  is_binary32 (ra_A_scale x) = true -> is_binary32 (ra_B_scale x) = true -> is_binary32 (ra_C_scale x) = true ->
  (forall m', ready m' -> acc_act (st (gs m')) <> SOFTMAX -> resadd_post (dram m) (dram m') -> Q tt m') ->
  wp (tiled_resadd_auto x ty) Q m.
Proof.
  intros Hty Hr Hact Hrr HA HB HC HQ. unfold tiled_resadd_auto. destruct ty; [done| |].
  - destruct (resadd_tiles_spec _ _ (rr_I _ _ Hrr) (rr_J _ _ Hrr)) as (tI & tJ & Ht & HtI & HtJ & Hfit).
    apply wp_bind. eapply wp_of_option; [exact Ht|]. apply wp_tiled_resadd; [done..|]. intros m' Hcf Hs.
    apply HQ; [apply Hcf| |done]. rewrite (cf_act _ Hcf). by destruct (ra_relu x).
  - apply (wp_resadd_cpu x (dram m) Hrr); [done|]. intros m' Hg _ Hs. apply HQ; [|by rewrite Hg|done].
    destruct Hr. split; [unfold mwf|]; by rewrite Hg.
Qed.

(** C16: the residual addition is the same on the CPU and on the accelerator.  From
    any machine past its reset, for matrices of up to [2^30] rows and columns with
    representable scales, readable operands and a result that overlaps neither,
    [tiled_resadd_auto] ends without a fault in CPU mode and in weight-stationary
    mode - where it chooses tiles, configures the simulated accelerator and moves
    every tile through the accumulator in groups of up to four blocks - and in both
    modes every element of C is the saturated (and rectified, with [relu]) scaled sum
    that [resadd_cpu] defines, computed from the memory before the call, and no other
    byte of memory changes. *)
Theorem tiled_resadd_auto_correct ty m : ty <> T_OS -> ready m -> acc_act (st (gs m)) <> SOFTMAX -> resadd_ready x (dram m) ->
  is_binary32 (ra_A_scale x) = true -> is_binary32 (ra_B_scale x) = true -> is_binary32 (ra_C_scale x) = true ->
  wp (tiled_resadd_auto x ty) (fun _ m' =>
    (forall p, p ∈ pairs (ra_I x) (ra_J x) ->
       mem_int 1 (dram m') (elem_at x (ra_C x) p) = s8 (default 0 (sum_value x (dram m) p))) /\
    mem_differ (stored 1 (elem_at x (ra_C x)) (pairs (ra_I x) (ra_J x))) (dram m) (dram m')) m.
Proof.
  intros. apply wp_tiled_resadd_auto; [done..|]. by intros m' _ _ [Hd Hv].
Qed.
End accelerated.

(** ** A concrete addition of 2 x 3 matrices *)

Definition small_add : resadd_args := {|
  ra_I := 2; ra_J := 3; ra_A_scale := f32_one; ra_B_scale := f32_one; ra_C_scale := f32_one;
  ra_A := 0x1000; ra_B := 0x1020; ra_C := 0x1080; ra_relu := true |}.

Lemma small_add_ready : resadd_ready small_add (dram demo).
Proof.
  split; unfold all_elems, elem_at; change (ra_I small_add) with 2; change (ra_J small_add) with 3;
    change (ra_A small_add) with 0x1000; change (ra_B small_add) with 0x1020; change (ra_C small_add) with 0x1080.
  - by unfold size_ok.
  - by unfold size_ok.
  - apply float_total_one.
  - apply float_total_one.
  - lia.
  - lia.
  - lia.
  - pairs_solve. split; apply flat_mem_readable; simpl; lia.
  - pairs_solve. apply flat_mem_writable; simpl; lia.
  - intros [i j] [i' j'] [? ?]%elem_of_pairs [? ?]%elem_of_pairs. cbn [fst snd] in *. lia.
  - apply (by_evaluation (fun p => is_Some (sum_value small_add (dram demo) p)) (fun p => defined (sum_value small_add (dram demo) p))).
    + intros p. apply defined_is_Some.
    + by vm_compute.
Qed.

Lemma tiled_resadd_auto_correct_witness :
  wp (tiled_resadd_auto (H0 := zero_rand) small_add T_WS) (fun _ m' =>
    (forall p, p ∈ pairs 2 3 ->
       mem_int 1 (dram m') (elem_at small_add 0x1080 p) = s8 (default 0 (sum_value small_add (dram demo) p))) /\
    mem_differ (stored 1 (elem_at small_add 0x1080) (pairs 2 3)) (dram demo) (dram m')) demo.
Proof.
  apply (tiled_resadd_auto_correct (H1 := zero_rand) small_add T_WS demo); [done|apply demo_ready|done|apply small_add_ready|..];
    by vm_compute.
Defined.
