(* ===== verification/MatmulWsSpec.v ===== *)
(** * MatmulWsSpec: the accelerated multiplication equals the reference

    [tiled_matmul_auto] with the weight-stationary dataflow, run on the simulator
    instruction by instruction, stores the same matrix as [matmul_cpu]. *)

From S2P Require Import Prelude Effects Float32 Params State Dram Fill Scaling Norm Config Move MoveSpec Compute ComputeSpec LoopWs LoopConv Counters Dispatch Invariant Isa IsaSpec Issue DriverSpec LoopWsSpec MatmulCpu MatmulCpuSpec Matmul MatmulSpec Resadd ResaddSpec.

(** ** One loop instruction *)

Section issue_loop.
Context {mem : Type} `{MmuLaws mem} `{Rand}.
Implicit Types m : machine mem.

Lemma wp_issue_loop_ws rs1 rs2 sA sB sD Q m :
  let a := loop_ws_decode rs1 rs2 in
  let w := lws (gs m) in
  ready m -> ws_configured a w (gs m) sA sB sD -> ws_memory a w (dram m) ->
  (loop_ws_C w <> 0 -> ws_output a w (gs m) (dram m) sA sB sD) ->
  (forall m', ready m' -> ws_done a w (gs m) (dram m) sA sB sD m' -> Q tt m') ->
  wp (issue k_LOOP_WS (loop_ws rs1 rs2)) Q m.
Proof.
  intros a w Hr Hcf Hmem Hout HQ. apply wp_issue; [done|by apply (pres_loop_ws _ _ (fun _ => True))|].
  intros c r Hr'. apply (wp_loop_ws rs1 rs2 sA sB sD).
  - apply Hr'.
  - destruct Hcf. by split.
  - exact Hmem.
  - intros HC. destruct (Hout HC). by split.
  - intros m' [[] Hacc Hd]. split; [done|]. intros c' Hr''. apply HQ; [done|]. split; [|exact Hacc|exact Hd].
    split; try done. apply Hr''.
Qed.

(** The loop macro, with its configuration read off the machine before it. *)
Lemma wp_loop_ws_call w tA tB full_C low_D ex_acc weightA sA sB sD Q m :
  let a := loop_flags tA tB full_C low_D ex_acc weightA in
  ready m -> wf_lws w -> 0 <= weightA < 256 -> ws_configured a w (gs m) sA sB sD -> ws_memory a w (dram m) ->
  (loop_ws_C w <> 0 -> ws_output a w (gs m) (dram m) sA sB sD) ->
  (forall m', ready m' -> ws_done a w (gs m) (dram m) sA sB sD m' -> Q tt m') ->
  wp (loop_ws_call w tA tB full_C low_D ex_acc weightA) Q m.
Proof.
  intros a Hr Hw Hwt Hcf Hmem Hout HQ.
  destruct (run_loop_ws_call w tA tB full_C low_D ex_acc weightA m Hr Hw Hwt) as (rs1 & rs2 & m1 & [Hr1 (c & r & ->)] & Hdec & Hrun).
  unfold wp. rewrite Hrun. fold a in Hdec. set (m1 := with_cnt c r _) in *.
  apply (wp_issue_loop_ws rs1 rs2 sA sB sD); rewrite ?Hdec; change (lws (gs m1)) with w.
  - done.
  - destruct Hcf. by split.
  - exact Hmem.
  - intros HC. destruct (Hout HC). by split.
  - intros m' Hr' [[] Hacc Hd]. apply HQ; [done|]. split; [|exact Hacc|exact Hd]. by split.
Qed.
End issue_loop.

(** ** The accelerated multiplication *)

Section matmul.
Context {mem : Type} `{MmuLaws mem} `{Rand}.
Variable (x : matmul_args).
Implicit Types (d : mem) (m : machine mem) (s : gemmini_state).

(** What an accelerated call needs beyond the reference: dimensions and addresses
    within 64 bits, scales that are binary32 values, 8-bit results and 32-bit
    biases, no activation but ReLU, and at most one transposed operand.  [weightA]
    reaches the activation field of the loop and must not select a normalisation. *)
Record mm_ready (d : mem) : Prop := {
  mr_cpu : cpu_ready x d;
  mr_I : dim_ok (ma_dim_I x); mr_J : dim_ok (ma_dim_J x); mr_K : dim_ok (ma_dim_K x);
  mr_addr size a : operand_elem x size a -> 0 < a < 2 ^ 64;
  mr_C_addr p : p ∈ pairs (ma_dim_I x) (ma_dim_J x) -> 0 < C_at x p < 2 ^ 64;
  mr_strides : in_u 64 (ma_stride_A x) /\ in_u 64 (ma_stride_B x) /\ in_u 62 (ma_stride_D x) /\ in_u 32 (ma_stride_C x);
  mr_binary : is_binary32 (ma_A_scale x) = true /\ is_binary32 (ma_B_scale x) = true /\ is_binary32 (ma_scale x) = true /\
    is_binary32 (f32_of_Z (ma_D_scale x)) = true;
  mr_D_scale : scale_total (f32_of_Z (ma_D_scale x));
  mr_act : ma_act x = 0 \/ ma_act x = 1; mr_relu6 : in_u 16 (ma_relu6_shift x);
  mr_full : ma_full_C x = false; mr_low : ma_low_D x = false;
  mr_weightA : 0 <= ma_weightA x < 256 /\ ma_weightA x mod 8 <> 2 /\ ma_weightA x mod 8 <> 4;
  mr_trans : ma_trans_A x && ma_trans_B x = false }.

Definition D_row_stride : Z := if ma_repeating_bias x then 0 else ma_stride_D x.

(** The configuration [tiled_matmul_outer] sets up. *)
Record mm_configured (s : gemmini_state) : Prop := {
  mc_wf : wf s; mc_reset : resetted s = true; mc_stat : is_Some (get_stat (nrm s));
  mc_A : ld_entry (ld s) 0 (ma_stride_A x) DIM false (ma_A_scale x);
  mc_B : ld_entry (ld s) 1 (ma_stride_B x) DIM false (ma_B_scale x);
  mc_D : ld_entry (ld s) 2 (D_row_stride * 4) DIM false (f32_of_Z (ma_D_scale x));
  mc_mode : mode (ex s) = WS; mc_c_stride : c_stride (ex s) = 1; mc_a_stride : a_stride (ex s) = 1;
  mc_trans_A : a_transpose (ex s) = ma_trans_A x; mc_trans_B : b_transpose (ex s) = ma_trans_B x;
  mc_pool : pool_stride (st s) = 0; mc_stride : store_stride (st s) = ma_stride_C x;
  mc_act : acc_act (st s) = relu_act (ma_act x =? 1); mc_shift : acc_shift (st s) = ma_scale x }.

Lemma mm_configured_steady s s' : mm_configured s -> steady s s' -> mm_configured s'.
Proof.
  intros [] [? ? Hld Hst Hex (_ & _ & _ & _ & _ & _ & r' & _ & Hr' & _)].
  split; rewrite ?Hld, ?Hst, ?Hex; try done.
Qed.

(** What the accelerator stores for a sum is what the reference stores. *)
Lemma store_is_reference t n v : ma_act x = 0 \/ ma_act x = 1 ->
  acc_act t = relu_act (ma_act x =? 1) -> acc_shift t = ma_scale x ->
  store_value t n false v = scale_and_sat v (ma_act x) (ma_scale x) (ma_relu6_shift x).
Proof.
  intros Hact Ha Hs. unfold store_value, scale_and_sat.
  assert (pre_activation (acc_act t) n v = Some v) as -> by (rewrite Ha; by destruct (ma_act x =? 1)).
  cbn [mbind option_bind]. unfold acc_scale. rewrite Hs, Ha. destruct (ACC_SCALE v (ma_scale x)) as [y|]; [|done].
  cbn [mbind option_bind]. f_equal. rewrite <- clamp_activation.
  symmetry. destruct Hact as [-> | ->].
  - change (0 =? RELU_act) with false. change (0 =? RELU6_act) with false. change (0 =? 1) with false. cbv iota.
    apply wrap_s_id; [lia|]. unfold in_s. unfold_params. repeat case_match; lia.
  - change (1 =? RELU_act) with true. change (1 =? 1) with true. cbv iota. unfold_params. rewrite wrap_s_id; [repeat case_match; lia|lia|].
    unfold in_s. repeat case_match; lia.
Qed.

Section tile.
Context (d : mem) (Hr : mm_ready d) (tI tJ tK : Z).
Context (Hf : tiles_fit (ma_dim_I x) (ma_dim_J x) (ma_dim_K x) T_WS (tI, tJ, tK)).
Context (i0 j0 : Z) (Hi0 : 0 <= i0 < num_tiles (ma_dim_I x) tI) (Hj0 : 0 <= j0 < num_tiles (ma_dim_J x) tJ).

(** The registers and flags of the loop instruction for tile [k0]. *)
Definition tile_ws_regs (k0 : Z) : loop_ws_regs :=
  let t := outer_tile x tI tJ tK i0 j0 k0 in
  Build_loop_ws_regs (ta_I t) (ta_J t) (ta_K t) (ta_pad_I t) (ta_pad_J t) (ta_pad_K t)
    (ta_A t) (ta_B t) (if ta_no_bias t then 0 else ta_D t) (ta_C t) (ma_stride_A x) (ma_stride_B x) D_row_stride (ma_stride_C x).
Definition tile_flags (k0 : Z) : loop_ws_args :=
  let t := outer_tile x tI tJ tK i0 j0 k0 in
  loop_flags (ma_trans_A x) (ma_trans_B x) (ma_full_C x) (ma_low_D x) (negb (ta_no_bias t) || (ta_D t =? 0)) (ma_weightA x).

(** First row, column and inner index of the tile, and its sizes. *)
Notation r0 := (tile_start tI i0).
Notation c0 := (tile_start tJ j0).
Notation x0 k0 := (tile_start tK k0).
Notation nK := (num_tiles (ma_dim_K x) tK).

Lemma A_ptr_tile k0 r xx : A_ptr (tile_flags k0) (tile_ws_regs k0) r xx = A_at x (r0 + r) (x0 k0 + xx).
Proof. unfold A_ptr, A_at, tile_start. cbn. destruct (ma_trans_A x); lia. Qed.
Lemma B_ptr_tile k0 xx c : B_ptr (tile_flags k0) (tile_ws_regs k0) xx c = B_at x (x0 k0 + xx) (c0 + c).
Proof. unfold B_ptr, B_at, tile_start. cbn. destruct (ma_trans_B x); lia. Qed.
Lemma D_ptr_tile r c : ma_D x <> 0 -> D_ptr (tile_flags 0) (tile_ws_regs 0) r c = D_at x (r0 + r) (c0 + c).
Proof.
  intros HD. unfold D_ptr, D_at, size_D, D_row_stride, tile_start, tile_ws_regs, tile_flags. cbn.
  rewrite (mr_low _ Hr), (proj2 (Z.eqb_neq _ _) HD). unfold D_row_stride. destruct (ma_repeating_bias x); cbn; lia.
Qed.
Lemma C_ptr_tile e : C_ptr (tile_flags (nK - 1)) (tile_ws_regs (nK - 1)) e = C_at x (r0 + fst e, c0 + snd e).
Proof.
  unfold C_ptr, C_at, size_C, tile_start. cbn. rewrite (mr_full _ Hr), Z.eqb_refl. unfold sizeof_elem_t. lia.
Qed.

Definition tile_elems : list (Z * Z) :=
  (fun p => (r0 + fst p, c0 + snd p)) <$> pairs (tile_size (ma_dim_I x) tI i0) (tile_size (ma_dim_J x) tJ j0).

Lemma tile_row r : 0 <= r < tile_size (ma_dim_I x) tI i0 -> 0 <= r0 + r < ma_dim_I x.
Proof. apply tile_index; [apply Hr|apply Hf|done]. Qed.
Lemma tile_col c : 0 <= c < tile_size (ma_dim_J x) tJ j0 -> 0 <= c0 + c < ma_dim_J x.
Proof. apply tile_index; [apply Hr|apply Hf|done]. Qed.
Lemma tile_inner k0 xx : 0 <= k0 < nK -> 0 <= xx < tile_size (ma_dim_K x) tK k0 -> 0 <= x0 k0 + xx < ma_dim_K x.
Proof. apply tile_index; [apply Hr|apply Hf]. Qed.

Lemma tile_elems_in e : e ∈ tile_elems -> e ∈ pairs (ma_dim_I x) (ma_dim_J x).
Proof.
  intros (p & -> & [Hp1 Hp2]%elem_of_pairs)%list_elem_of_fmap. apply elem_of_pairs. cbn [fst snd].
  split; [by apply tile_row|by apply tile_col].
Qed.

Section tile_k.
Context (k0 : Z) (Hk0 : 0 <= k0 < nK).
Notation w := (tile_ws_regs k0).
Notation a := (tile_flags k0).

Lemma tile_operand p : ws_operand a w p -> operand_elem x 1 p.
Proof.
  intros [r xx Hr' Hx|xx c Hx Hc].
  - rewrite A_ptr_tile. apply op_A; [by apply tile_row|by apply tile_inner].
  - rewrite B_ptr_tile. apply op_B; [by apply tile_inner|by apply tile_col].
Qed.

Lemma tile_shape : ws_shape w.
Proof.
  pose proof (tile_extent _ _ (mr_I _ Hr) (tf_I _ _ _ _ _ Hf) i0 Hi0) as (LI & PI & _).
  pose proof (tile_extent _ _ (mr_J _ Hr) (tf_J _ _ _ _ _ Hf) j0 Hj0) as (LJ & PJ & _).
  pose proof (tile_extent _ _ (mr_K _ Hr) (tf_K _ _ _ _ _ Hf) k0 Hk0) as (LK & PK & _).
  pose proof (rows_mono _ _ _ _ _ _ (conj (Z.le_trans _ _ _ Z.le_0_1 (proj1 LI)) (proj2 LI))
    (conj (Z.le_trans _ _ _ Z.le_0_1 (proj1 LJ)) (proj2 LJ)) (conj (Z.le_trans _ _ _ Z.le_0_1 (proj1 LK)) (proj2 LK))) as [Hs Ha].
  pose proof (tf_spad _ _ _ _ _ Hf) as Hfs. pose proof (tf_acc _ _ _ _ _ Hf) as Hfa. cbn [fst snd] in *.
  split; cbn [tile_ws_regs loop_ws_I loop_ws_J loop_ws_K loop_ws_pad_I loop_ws_pad_J loop_ws_pad_K outer_tile ta_I ta_J ta_K ta_pad_I ta_pad_J ta_pad_K];
    try lia; etrans; [exact Hs|exact Hfs|exact Ha|exact Hfa].
Qed.

Lemma tile_sizes_pos : 1 <= tile_size (ma_dim_I x) tI i0 /\ 1 <= tile_size (ma_dim_J x) tJ j0 /\ 1 <= tile_size (ma_dim_K x) tK k0.
Proof. destruct tile_shape. unfold tile_size, DIM in *. cbn in *. lia. Qed.

Lemma tile_regs_wf : wf_lws w.
Proof.
  pose proof tile_sizes_pos as (PI & PJ & PK). destruct (tiles_small _ _ _ _ _ Hf) as (SI & SJ & SK). cbn [fst snd] in *.
  pose proof (tile_extent _ _ (mr_I _ Hr) (tf_I _ _ _ _ _ Hf) i0 Hi0) as (LI & QI & _).
  pose proof (tile_extent _ _ (mr_J _ Hr) (tf_J _ _ _ _ _ Hf) j0 Hj0) as (LJ & QJ & _).
  pose proof (tile_extent _ _ (mr_K _ Hr) (tf_K _ _ _ _ _ Hf) k0 Hk0) as (LK & QK & _).
  destruct (mr_strides _ Hr) as (S1 & S2 & S3 & S4).
  pose proof (mr_addr _ Hr 1 _ (op_A x (r0 + 0) (x0 k0 + 0) (tile_row 0 ltac:(lia)) (tile_inner k0 0 Hk0 ltac:(lia)))) as HA.
  pose proof (mr_addr _ Hr 1 _ (op_B x (x0 k0 + 0) (c0 + 0) (tile_inner k0 0 Hk0 ltac:(lia)) (tile_col 0 ltac:(lia)))) as HB.
  rewrite <- A_ptr_tile in HA. rewrite <- B_ptr_tile in HB.
  assert (in_u 64 (loop_ws_A w)) as HA' by (unfold A_ptr, in_u in *; case_match; lia).
  assert (in_u 64 (loop_ws_B w)) as HB' by (unfold B_ptr, in_u in *; case_match; lia).
  cbn [fst snd] in *. unfold in_u, DIM in *. split; cbn [tile_ws_regs loop_ws_I loop_ws_J loop_ws_K loop_ws_pad_I loop_ws_pad_J loop_ws_pad_K
    loop_ws_A_stride loop_ws_B_stride loop_ws_D_stride loop_ws_C_stride loop_ws_C loop_ws_D
    outer_tile ta_I ta_J ta_K ta_pad_I ta_pad_J ta_pad_K ta_C ta_D ta_no_bias]; unfold in_u; try lia.
  - destruct (Z.eqb_spec (ma_D x) 0) as [|HD]; [lia|]. destruct (Z.eqb_spec k0 0) as [Ek|]; cbn [negb]; [|lia].
    pose proof (mr_addr _ Hr 4 _ (op_D x (r0 + 0) (c0 + 0) HD (tile_row 0 ltac:(lia)) (tile_col 0 ltac:(lia)))) as HDa.
    revert HDa. unfold D_at, tile_start. rewrite (mr_low _ Hr). unfold sizeof_acc_t, sizeof_elem_t, DIM.
    destruct (ma_repeating_bias x); lia.
  - destruct (Z.eqb_spec k0 (nK - 1)); [|lia].
    assert ((r0 + 0, c0 + 0) ∈ pairs (ma_dim_I x) (ma_dim_J x)) as He
      by (apply elem_of_pairs; cbn [fst snd]; split; [apply tile_row|apply tile_col]; lia).
    pose proof (mr_C_addr _ Hr _ He) as HC. revert HC. unfold C_at, tile_start. cbn [fst snd]. rewrite (mr_full _ Hr).
    unfold sizeof_elem_t, DIM. lia.
  - unfold D_row_stride. case_match; lia.
Qed.

Lemma tile_configured s : mm_configured s ->
  ws_configured a w s (ma_A_scale x) (ma_B_scale x) (f32_of_Z (ma_D_scale x)).
Proof.
  intros []. destruct (mr_weightA _ Hr) as (_ & W1 & W2). split; try done.
  - apply tile_shape.
  - unfold size_D. change (la_low_D a) with (ma_low_D x). rewrite (mr_low _ Hr). exact mc_D0.
  - split_and!; [apply scale_total_float, Hr..|apply Hr].
Qed.

Section tile_memory.
Context (m : machine mem) (Hop : same_operands x d (dram m)).

Lemma tile_ws_memory : ws_memory a w (dram m).
Proof.
  split.
  - intros p Hp%tile_operand. split; [by apply (mr_addr _ Hr 1)|by apply Hop].
  - intros r c HD Hrr Hc.
    assert (ma_D x <> 0 /\ k0 = 0) as [HDx Hk].
    { revert HD. cbn. destruct (Z.eqb_spec (ma_D x) 0); [done|]. destruct (Z.eqb_spec k0 0); cbn [negb]; done. }
    assert (D_ptr a w r c = D_at x (r0 + r) (c0 + c)) as -> by (rewrite Hk; by apply D_ptr_tile).
    assert (operand_elem x 4 (D_at x (r0 + r) (c0 + c))) as Ho by (apply op_D; [done|by apply tile_row|by apply tile_col]).
    split; [by apply (mr_addr _ Hr 4)|]. unfold size_D. change (la_low_D a) with (ma_low_D x). rewrite (mr_low _ Hr). by apply Hop.
Qed.

(** The tile before this instruction: the sums over the earlier tiles. *)
Definition tile_sums (n : Z) (v : vec2) : Prop :=
  forall e, e ∈ pairs (tile_size (ma_dim_I x) tI i0) (tile_size (ma_dim_J x) tJ j0) ->
    vget v (fst (ws_cell (tile_ws_regs 0) e)) (snd (ws_cell (tile_ws_regs 0) e)) = cpu_sum x d n (r0 + fst e) (c0 + snd e).

Notation total e := (ws_total a w (gs m) (dram m) (ma_A_scale x) (ma_B_scale x) (f32_of_Z (ma_D_scale x)) e).

Lemma tile_prod e xx : e ∈ ws_elems w -> 0 <= xx < ws_inner w ->
  ws_prod a w (dram m) (ma_A_scale x) (ma_B_scale x) e xx = prod x d (r0 + fst e) (c0 + snd e) (x0 k0 + xx).
Proof.
  intros [He1 He2]%elem_of_pairs Hx. unfold ws_prod, prod, A_val, B_val, op_elem. rewrite !mvin_scale_eq, A_ptr_tile, B_ptr_tile.
  assert (operand_elem x 1 (A_at x (r0 + fst e) (x0 k0 + xx))) as HA by (apply op_A; [by apply tile_row|by apply tile_inner]).
  assert (operand_elem x 1 (B_at x (x0 k0 + xx) (c0 + snd e))) as HB by (apply op_B; [by apply tile_inner|by apply tile_col]).
  destruct (Hop _ _ HA) as [-> _], (Hop _ _ HB) as [-> _]. done.
Qed.

Lemma tile_init e : (0 < k0 -> tile_sums (x0 k0) (accumulator (gs m))) -> e ∈ ws_elems w ->
  ws_init a w (gs m) (dram m) (f32_of_Z (ma_D_scale x)) e = cpu_sum x d (x0 k0) (r0 + fst e) (c0 + snd e).
Proof.
  intros Hacc He. pose proof He as [He1 He2]%elem_of_pairs. pose proof tile_sizes_pos as (PI & PJ & _). unfold ws_init.
  cbn [tile_flags loop_flags la_ex_accumulate outer_tile ta_no_bias ta_D tile_ws_regs loop_ws_D].
  destruct (Z.eqb_spec k0 0) as [Ek|Ek]; cbn [negb].
  - assert (x0 k0 = 0) as -> by (unfold tile_start; lia). rewrite cpu_sum_0. unfold bias_val.
    destruct (Z.eqb_spec (ma_D x) 0) as [HD|HD]; cbn [negb orb].
    + match goal with |- context [?z =? 0] => assert (0 < z) as Hz end.
      { destruct (mr_strides _ Hr) as (_ & _ & S3 & _). unfold in_u in S3. rewrite (mr_low _ Hr). unfold sizeof_acc_t, DIM.
        destruct (tf_I _ _ _ _ _ Hf) as [? _], (tf_J _ _ _ _ _ Hf) as [? _]. cbn [fst snd] in *.
        assert (0 <= i0 * tI) by nia. assert (0 <= j0 * tJ) by nia. destruct (ma_repeating_bias x); nia. }
      by rewrite (proj2 (Z.eqb_neq _ 0)) by lia.
    + assert (operand_elem x 4 (D_at x (r0 + fst e) (c0 + snd e))) as Ho by (apply op_D; [done|by apply tile_row|by apply tile_col]).
      pose proof (mr_addr _ Hr 4 _ (op_D x (r0 + 0) (c0 + 0) HD (tile_row 0 ltac:(lia)) (tile_col 0 ltac:(lia)))) as HDa.
      match goal with |- context [?z =? 0] => assert (0 < z) as Hz end.
      { revert HDa. unfold D_at, tile_start. rewrite (mr_low _ Hr). unfold sizeof_acc_t, DIM. destruct (ma_repeating_bias x); lia. }
      rewrite (proj2 (Z.eqb_neq _ 0)) by lia. unfold D_val. change (la_low_D a) with (ma_low_D x). rewrite (mr_low _ Hr).
      rewrite Ek, D_ptr_tile by done. by apply Hop.
  - assert ((if ma_D x =? 0 then 0 else 0) = 0) as E0 by (by case_match). rewrite E0.
    change (0 =? 0) with true. rewrite orb_true_r. apply Hacc; [lia|done].
Qed.

Lemma tile_total e : (0 < k0 -> tile_sums (x0 k0) (accumulator (gs m))) -> e ∈ ws_elems w ->
  total e = cpu_sum x d (x0 k0 + tile_size (ma_dim_K x) tK k0) (r0 + fst e) (c0 + snd e).
Proof.
  intros Hacc He. pose proof tile_sizes_pos as (_ & _ & PK). unfold ws_total. rewrite tile_init by done. unfold cpu_sum.
  rewrite wrap_s_add_l by lia. f_equal. rewrite <- Z.add_assoc. f_equal.
  rewrite Zsum_app; [|unfold tile_start, DIM; destruct (tf_K _ _ _ _ _ Hf); cbn [fst snd] in *; nia|lia]. f_equal.
  apply Zsum_ext. intros xx Hx. by apply tile_prod.
Qed.
End tile_memory.

(** What the tile adds to memory. *)
Definition tile_stored (d1 d2 : mem) : Prop :=
  store_post 1 (C_at x) (fun e => default 0 (cpu_value x d e)) (if k0 =? nK - 1 then tile_elems else []) d1 d2.

Lemma tile_elem_of p : p ∈ ws_elems w -> (r0 + fst p, c0 + snd p) ∈ tile_elems.
Proof. intros Hp. apply list_elem_of_fmap. by exists p. Qed.

Section tile_output.
Context (m : machine mem) (Hop : same_operands x d (dram m)) (Hcf : mm_configured (gs m)) (Hlast : k0 = nK - 1).
Context (Hacc : 0 < k0 -> tile_sums (x0 k0) (accumulator (gs m))).

Lemma C_ptr_last e : C_ptr a w e = C_at x (r0 + fst e, c0 + snd e).
Proof. rewrite Hlast. apply C_ptr_tile. Qed.

Lemma tile_size_C : size_C a = 1.
Proof. unfold size_C. change (la_full_C a) with (ma_full_C x). by rewrite (mr_full _ Hr). Qed.

Lemma tile_value e : e ∈ ws_elems w ->
  ws_stored a w (gs m) (dram m) (ma_A_scale x) (ma_B_scale x) (f32_of_Z (ma_D_scale x)) e = cpu_value x d (r0 + fst e, c0 + snd e).
Proof.
  intros He. unfold ws_stored. change (la_full_C a) with (ma_full_C x). rewrite (mr_full _ Hr).
  rewrite store_is_reference by (apply Hr || apply Hcf). rewrite tile_total by done. unfold cpu_value. cbn [fst snd].
  pose proof (tile_extent _ _ (mr_K _ Hr) (tf_K _ _ _ _ _ Hf) k0 Hk0) as (_ & _ & E). cbn [fst snd] in E.
  by rewrite E, (proj2 (Z.eqb_eq _ _) Hlast).
Qed.

Lemma tile_ws_output : (forall e, e ∈ tile_elems -> mem_writable 1 (dram m) (C_at x e)) ->
  ws_output a w (gs m) (dram m) (ma_A_scale x) (ma_B_scale x) (f32_of_Z (ma_D_scale x)).
Proof.
  intros Hw. pose proof (fun e He => tile_elems_in _ (tile_elem_of e He)) as Hin. split; rewrite ?tile_size_C.
  - rewrite (mc_stride _ Hcf). cbn. lia.
  - intros e He. rewrite C_ptr_last. pose proof (mr_C_addr _ Hr _ (Hin e He)). lia.
  - intros e He. rewrite C_ptr_last. by apply Hw, tile_elem_of.
  - intros p q b Hp Hq. rewrite !C_ptr_last. intros Hb Hb'.
    pose proof (cr_disjoint _ _ (mr_cpu _ Hr) _ _ b (Hin p Hp) (Hin q Hq) Hb Hb') as E. destruct p, q. injection E. intros. f_equal; cbn [fst snd] in *; lia.
  - intros e p b He Hp%tile_operand. rewrite C_ptr_last. intros Hb Hb'. by eapply (cr_alias _ _ (mr_cpu _ Hr)); [by apply Hin|..].
  - intros e He. rewrite tile_value by done. by apply (cr_value _ _ (mr_cpu _ Hr)), Hin.
Qed.
End tile_output.

Lemma wp_tile_k Q m : ready m -> mm_configured (gs m) -> same_operands x d (dram m) ->
  (0 < k0 -> tile_sums (x0 k0) (accumulator (gs m))) ->
  (forall e, e ∈ tile_elems -> mem_writable 1 (dram m) (C_at x e)) ->
  (forall m', ready m' -> mm_configured (gs m') ->
     tile_sums (x0 k0 + tile_size (ma_dim_K x) tK k0) (accumulator (gs m')) -> tile_stored (dram m) (dram m') -> Q tt m') ->
  wp (sp_tiled_matmul_ws x (outer_tile x tI tJ tK i0 j0 k0)) Q m.
Proof.
  intros Hrd Hcf Hop Hacc Hw HQ.
  assert (loop_ws_C w <> 0 -> k0 = nK - 1) as HC.
  { cbn. destruct (Z.eqb_spec k0 (nK - 1)); done. }
  apply (wp_loop_ws_call w _ _ _ _ _ _ (ma_A_scale x) (ma_B_scale x) (f32_of_Z (ma_D_scale x)));
    [done|apply tile_regs_wf|apply Hr|by apply tile_configured|by apply tile_ws_memory|intros HCz; specialize (HC HCz); by apply tile_ws_output|].
  intros m' Hr' Hdone. assert (ws_done a w (gs m) (dram m) (ma_A_scale x) (ma_B_scale x) (f32_of_Z (ma_D_scale x)) m')
    as [Hs Hacc' Hd] by exact Hdone. apply HQ; [done|by eapply mm_configured_steady| |].
  - intros e He. etransitivity; [exact (Hacc' e He)|]. by apply tile_total.
  - unfold tile_stored, memory_holds in *. destruct (Z.eqb_spec k0 (nK - 1)) as [El|El].
    + assert (loop_ws_C w <> 0) as HCz.
      { pose proof tile_sizes_pos as (PI & PJ & _).
        assert ((r0 + 0, c0 + 0) ∈ pairs (ma_dim_I x) (ma_dim_J x)) as He
          by (apply elem_of_pairs; cbn [fst snd]; split; [apply tile_row|apply tile_col]; lia).
        pose proof (mr_C_addr _ Hr _ He) as HCa. pose proof (C_ptr_last El (0, 0)) as Ep.
        cbn [fst snd] in Ep. rewrite <- Ep in HCa. unfold C_ptr in HCa. cbn [fst snd] in HCa. lia. }
      rewrite (proj2 (Z.eqb_neq _ _) HCz) in Hd. rewrite tile_size_C in Hd. unfold tile_elems. apply store_post_fmap.
      eapply store_post_ext in Hd; [|intros e He; by rewrite tile_value]. destruct Hd as [Hd1 Hd2]. split.
      * eapply mem_differ_weaken; [exact Hd1|]. intros b (e & He & Hb). exists e. split; [done|]. by rewrite <- C_ptr_last.
      * intros e He. rewrite <- C_ptr_last by done. by apply Hd2.
    + assert ((loop_ws_C w =? 0) = true) as E by (cbn; by rewrite (proj2 (Z.eqb_neq _ _) El)). rewrite E in Hd.
      destruct Hd as [Hd _]. split; [|by intros e ?%not_elem_of_nil].
      eapply mem_differ_weaken; [exact Hd|]. intros b (e & He%not_elem_of_nil & _). done.
Qed.
End tile_k.

(** All the tiles of the inner dimension. *)
Lemma wp_tile_ks Q m : ready m -> mm_configured (gs m) -> same_operands x d (dram m) ->
  (forall e, e ∈ tile_elems -> mem_writable 1 (dram m) (C_at x e)) ->
  (forall m', ready m' -> mm_configured (gs m') ->
     store_post 1 (C_at x) (fun e => default 0 (cpu_value x d e)) tile_elems (dram m) (dram m') -> Q tt m') ->
  wp (for_range 0 nK (fun k0 => sp_tiled_matmul_ws x (outer_tile x tI tJ tK i0 j0 k0))) Q m.
Proof.
  intros Hrd Hcf Hop Hw HQ.
  assert (1 <= nK) as HnK.
  { destruct (tile_of_index _ _ (mr_K _ Hr) (tf_K _ _ _ _ _ Hf) 0) as [Hn _]; [|cbn [fst snd] in Hn; lia].
    pose proof (mr_K _ Hr) as Hd'. unfold dim_ok in Hd'. lia. }
  apply (wp_for_range (fun k0 m' => ready m' /\ mm_configured (gs m') /\ (0 < k0 < nK -> tile_sums (x0 k0) (accumulator (gs m'))) /\
    store_post 1 (C_at x) (fun e => default 0 (cpu_value x d e)) (if k0 <? nK then [] else tile_elems) (dram m) (dram m'))).
  - split_and!; [done|done|lia|]. rewrite (proj2 (Z.ltb_lt 0 nK)) by lia. apply store_post_nil.
  - intros k0 m1 Hk0 (Hrd1 & Hcf1 & Hs1 & Hd1). rewrite (proj2 (Z.ltb_lt k0 nK)) in Hd1 by lia.
    apply wp_tile_k; [lia|done|done| |intros ?; apply Hs1; lia| |].
    + destruct Hd1 as [Hd1 _]. intros size b Hb. destruct (Hop size b Hb) as [E1 E2]. split.
      * rewrite <- E1. eapply mem_int_differ; [exact Hd1|]. intros n Hn (e & He%not_elem_of_nil & _). done.
      * by eapply mem_readable_differ.
    + intros e He. eapply mem_writable_differ; [apply Hd1|]. by apply Hw.
    + intros m2 Hrd2 Hcf2 Hs2 Hd2. pose proof (tile_extent _ _ (mr_K _ Hr) (tf_K _ _ _ _ _ Hf) k0 ltac:(cbn [fst snd]; lia)) as (_ & _ & E).
      cbn [fst snd] in E. split_and!; [done|done| |].
      * intros Hlt. rewrite E, (proj2 (Z.eqb_neq k0 (nK - 1))) in Hs2 by lia. exact Hs2.
      * unfold tile_stored in Hd2. assert ((if k0 + 1 <? nK then [] else tile_elems) = [] ++ (if k0 =? nK - 1 then tile_elems else [])) as ->.
        { destruct (Z.ltb_spec (k0 + 1) nK), (Z.eqb_spec k0 (nK - 1)); try done; lia. }
        eapply store_post_app; [by intros ? ? ? ?%not_elem_of_nil|done|done].
  - intros m1 (Hrd1 & Hcf1 & _ & Hd1). rewrite Z.max_r in Hd1 by lia. rewrite (proj2 (Z.ltb_ge nK nK)) in Hd1 by lia. by apply HQ.
Qed.
End tile.

(** ** All tiles *)

(** What a multiplication leaves in memory. *)
Definition matmul_post (d d' : mem) : Prop :=
  store_post 1 (C_at x) (fun e => default 0 (cpu_value x d e)) (pairs (ma_dim_I x) (ma_dim_J x)) d d'.

Lemma wp_matmul_tiles tI tJ tK Q m : mm_ready (dram m) -> ready m -> mm_configured (gs m) ->
  tiles_fit (ma_dim_I x) (ma_dim_J x) (ma_dim_K x) T_WS (tI, tJ, tK) ->
  (forall m', ready m' -> mm_configured (gs m') -> matmul_post (dram m) (dram m') -> Q tt m') ->
  wp (for_range 0 (num_tiles (ma_dim_I x) tI) (fun i0 => for_range 0 (num_tiles (ma_dim_J x) tJ) (fun j0 =>
        for_range 0 (num_tiles (ma_dim_K x) tK) (fun k0 => sp_tiled_matmul_ws x (outer_tile x tI tJ tK i0 j0 k0))))) Q m.
Proof.
  intros Hr Hrd Hcf Hf HQ. apply wp_for_pairs. set (l := pairs _ _).
  set (chunk := fun g : Z * Z => tile_elems tI tJ (fst g) (snd g)).
  assert (forall g e, g ∈ l -> e ∈ chunk g -> e ∈ pairs (ma_dim_I x) (ma_dim_J x)) as Hin.
  { intros g e [Hg1 Hg2]%elem_of_pairs. by apply (tile_elems_in (dram m) Hr tI tJ tK Hf). }
  assert (forall g e, g ∈ l -> e ∈ chunk g -> tile_start tI (fst g) <= fst e < tile_start tI (fst g) + tile_size (ma_dim_I x) tI (fst g) /\
    tile_start tJ (snd g) <= snd e < tile_start tJ (snd g) + tile_size (ma_dim_J x) tJ (snd g)) as Hpos.
  { intros g e Hg (p & -> & [Hp1 Hp2]%elem_of_pairs)%list_elem_of_fmap. cbn [fst snd]. lia. }
  apply (wp_store_chunks 1 (C_at x) (fun e => default 0 (cpu_value x (dram m) e)) chunk _
    (fun g r => ready (Machine g (dram m) r) /\ mm_configured g)).
  - intros k k' g g' e e' b Hg Hg' He He' Hb Hb'.
    pose proof (list_elem_of_lookup_2 _ _ _ Hg) as Hgl. pose proof (list_elem_of_lookup_2 _ _ _ Hg') as Hgl'.
    assert (e = e') as <- by (eapply (cr_disjoint _ _ (mr_cpu _ Hr)); eauto).
    destruct (Hpos g e Hgl He) as [P1 P2], (Hpos g' e Hgl' He') as [P3 P4].
    pose proof Hgl as [G1 G2]%elem_of_pairs. pose proof Hgl' as [G3 G4]%elem_of_pairs.
    assert (fst g = fst g') as E1 by (by eapply (tile_unique _ _ (mr_I _ Hr) (tf_I _ _ _ _ _ Hf))).
    assert (snd g = snd g') as E2 by (by eapply (tile_unique _ _ (mr_J _ Hr) (tf_J _ _ _ _ _ Hf))).
    assert (g = g') as <- by (destruct g, g'; cbn [fst snd] in *; congruence).
    eapply NoDup_lookup; [apply NoDup_pairs|done..].
  - intros g e Hg He. apply (cr_write _ _ (mr_cpu _ Hr)). eauto.
  - split; [by destruct m|done].
  - intros g m' Hg [Hrd' Hcf'] Hd Hw. pose proof Hg as [G1 G2]%elem_of_pairs.
    apply (wp_tile_ks (dram m) Hr tI tJ tK Hf (fst g) (snd g) G1 G2).
    + by destruct m'.
    + done.
    + eapply same_operands_differ; [apply Hr| |exact Hd]. intros p (g' & Hg' & Hp)%elem_of_concat_fmap. eauto.
    + exact Hw.
    + intros m'' Hrd'' Hcf'' Hs. split; [|done]. split; [by destruct m''|done].
  - intros m' [Hrd' Hcf'] Hs. apply HQ; [by destruct m'|done|]. unfold matmul_post. revert Hs. apply store_post_elems.
    intros e. rewrite elem_of_concat_fmap. split; [by intros (g & Hg & He); eauto|]. intros [He1 He2]%elem_of_pairs.
    destruct (tile_of_index _ _ (mr_I _ Hr) (tf_I _ _ _ _ _ Hf) (fst e) He1) as [I1 I2].
    destruct (tile_of_index _ _ (mr_J _ Hr) (tf_J _ _ _ _ _ Hf) (snd e) He2) as [J1 J2]. cbn [fst snd] in *.
    exists (fst e / (tI * DIM), snd e / (tJ * DIM)). split; [by apply elem_of_pairs|].
    apply list_elem_of_fmap. exists (fst e - tile_start tI (fst e / (tI * DIM)), snd e - tile_start tJ (snd e / (tJ * DIM))).
    cbn [fst snd]. split; [destruct e; cbn [fst snd]; f_equal; lia|]. apply elem_of_pairs. cbn [fst snd]. lia.
Qed.

Lemma act_code : ma_act x = 0 \/ ma_act x = 1 -> act_of_Z (ma_act x) = Some (relu_act (ma_act x =? 1)) /\ 0 <= ma_act x < 4.
Proof. by intros [-> | ->]. Qed.

Lemma wp_tiled_matmul_outer tI tJ tK Q m : mm_ready (dram m) -> ready m -> acc_act (st (gs m)) <> SOFTMAX ->
  tiles_fit (ma_dim_I x) (ma_dim_J x) (ma_dim_K x) T_WS (tI, tJ, tK) ->
  (forall m', ready m' -> mm_configured (gs m') -> matmul_post (dram m) (dram m') -> Q tt m') ->
  wp (tiled_matmul_outer x tI tJ tK 1) Q m.
Proof.
  intros Hr Hrd Hact Hf HQ. destruct (mr_strides _ Hr) as (S1 & S2 & S3 & S4), (mr_binary _ Hr) as (B1 & B2 & B3 & B4).
  destruct (act_code (mr_act _ Hr)) as [Hcode Hrange]. unfold in_u in *.
  unfold tiled_matmul_outer. cbv zeta. rewrite (mr_full _ Hr), (mr_low _ Hr). unfold sizeof_elem_t, sizeof_acc_t. rewrite !Z.mul_1_r.
  apply wp_bind, wp_check; [destruct (tf_I _ _ _ _ _ Hf), (tf_J _ _ _ _ _ Hf), (tf_K _ _ _ _ _ Hf); cbn [fst snd] in *; lia|].
  apply wp_bind, (wp_config_ex _ _ (relu_act (ma_act x =? 1))); [done..|by split|apply Hr|by split| |].
  { intros [? ?]. pose proof (mr_trans _ Hr) as Ht. destruct (ma_trans_A x), (ma_trans_B x); done. }
  intros c1 r1 m1 Hr1. apply wp_bind, (wp_config_st _ _ _ (relu_act (ma_act x =? 1))); [done|rewrite Z.mul_1_r; by apply wrap_u_range|done..|]. intros c2 r2 m2 Hr2.
  unfold gemmini_extended3_config_ld, gemmini_extended4_config_ld.
  apply wp_bind, wp_config_ld; [done|done|done|done|done|done|]. intros c3 r3 m3 Hr3.
  apply wp_bind, wp_config_ld; [done|done|done|done|done|done|]. intros c4 r4 m4 Hr4.
  apply wp_bind, wp_config_ld; [done|done|unfold in_u; case_match; lia|done|done|done|]. intros c5 r5 m5 Hr5.
  assert (ld_sized (ld (gs m2))) as Z2 by (apply wf_ld_sized, Hr2). assert (ld_sized (ld (gs m3))) as Z3 by (apply wf_ld_sized, Hr3).
  assert (ld_sized (ld (gs m4))) as Z4 by (apply wf_ld_sized, Hr4).
  assert (mm_configured (gs m5)) as Hcf.
  { split; try done.
    - apply Hr5.
    - apply Hr5.
    - apply get_stat_some; [apply (wf_s_nrm _ (proj1 Hr5))|done].
    - apply load_set_other; [done..|]. apply load_set_other; [done..|]. by apply load_set_entry.
    - apply load_set_other; [done..|]. by apply load_set_entry.
    - assert (D_row_stride * 4 = (if ma_repeating_bias x then 0 else ma_stride_D x * 4)) as -> by (unfold D_row_stride; case_match; lia).
      by apply load_set_entry.
    - change (store_stride (st (gs m5))) with (u32 (ma_stride_C x) * 1). rewrite Z.mul_1_r. by apply wrap_u_id. }
  apply wp_bind. change (1 =? OUTPUT_STATIONARY) with false. cbv iota.
  apply (wp_matmul_tiles tI tJ tK); [done..|]. intros m6 Hr6 Hcf6 Hpost. apply wp_ret. by apply HQ.
Qed.

(** The whole call, in weight-stationary and in CPU mode. *)
Lemma wp_tiled_matmul_auto ty Q m : ty = T_WS \/ ty = T_CPU ->
  ready m -> acc_act (st (gs m)) <> SOFTMAX -> mm_ready (dram m) ->
  (forall m', ready m' -> acc_act (st (gs m')) <> SOFTMAX -> matmul_post (dram m) (dram m') -> Q tt m') ->
  wp (tiled_matmul_auto x ty) Q m.
Proof.
  intros Hty Hrd Hact Hr HQ. destruct (auto_tiles_spec _ _ _ ty (mr_I _ Hr) (mr_J _ Hr) (mr_K _ Hr)) as ([[ti tj] tk] & Ha & Hf & _).
  unfold tiled_matmul_auto. apply wp_bind. eapply wp_of_option; [exact Ha|]. unfold tiled_matmul.
  apply wp_bind, wp_check; [apply fitting_tiles_ok; try apply Hr; [|done]|].
  { pose proof (mr_trans _ Hr). destruct Hty as [-> | ->]; [|done]. cbn. destruct (ma_trans_A x), (ma_trans_B x); auto. }
  destruct Hty as [-> | ->].
  - apply wp_tiled_matmul_outer; [done..|]. intros m' Hr' Hcf Hpost. apply HQ; [done| |done]. rewrite (mc_act _ Hcf). by destruct (ma_act x =? 1).
  - pose proof (mr_K _ Hr) as HK. unfold dim_ok in HK.
    apply (wp_matmul_cpu x (dram m) (mr_cpu _ Hr)); [lia|done|]. intros m' [Hg Hn] Hv Hd. apply HQ; [|by rewrite Hg|by split].
    unfold ready, mwf. by rewrite Hg.
Qed.

(** C14: the accelerated matrix multiplication.  On a machine past its reset, for
    dimensions up to [2^48], operands and a result in disjoint memory, any strides,
    an optional (possibly repeating) bias, an optional ReLU and at most one
    transposed operand, [tiled_matmul_auto] in weight-stationary mode (tile search,
    checks, configuration, and one loop instruction per tile, all run on the
    simulated accelerator) and in CPU mode both end without a fault and leave in
    every element of C the same value: the scaled, saturated and activated 32-bit
    sum of the bias and the products of the scaled operands; no other byte of memory
    changes. *)
Theorem tiled_matmul_auto_correct ty m : ty = T_WS \/ ty = T_CPU ->
  ready m -> acc_act (st (gs m)) <> SOFTMAX -> mm_ready (dram m) ->
  wp (tiled_matmul_auto x ty) (fun _ m' =>
    (forall e, e ∈ pairs (ma_dim_I x) (ma_dim_J x) -> mem_int 1 (dram m') (C_at x e) = s8 (default 0 (cpu_value x (dram m) e))) /\
    mem_differ (stored 1 (C_at x) (pairs (ma_dim_I x) (ma_dim_J x))) (dram m) (dram m')) m.
Proof. intros Hty Hrd Hact Hr. apply wp_tiled_matmul_auto; [done..|]. by intros m' _ _ [Hd Hv]. Qed.
End matmul.

(** ** A concrete product on the accelerator *)

Lemma small_mm_ready : mm_ready small_args (dram demo).
Proof.
  split; try done.
  - apply small_ready.
  - intros size p [-> Hp]%small_operand. lia.
  - intros [i j] [Hi Hj]%elem_of_pairs. unfold C_at. cbn in *. lia.
  - apply scale_total_float. exact float_total_one.
  - by left.
Qed.

Lemma tiled_matmul_auto_correct_witness :
  wp (tiled_matmul_auto (H0 := zero_rand) small_args T_WS) (fun _ m' => mem_int 1 (dram m') (0x1080 + 4) = 127) demo.
Proof.
  refine (wp_mono _ _ _ _ (tiled_matmul_auto_correct (H1 := zero_rand) small_args T_WS demo (or_introl eq_refl) demo_ready
    ltac:(done) small_mm_ready) _).
  intros [] m' [Hv _]. assert ((1, 0) ∈ pairs 4 4) as He by (by apply elem_of_pairs).
  etransitivity; [exact (Hv (1, 0) He)|]. by vm_compute.
Defined.
