(* ===== verification/ConvCpu.v ===== *)
(** * ConvCpu: the reference convolution of the driver

    [conv_cpu_without_pool] and [conv_cpu] of systolic_include.h: every
    multiply-add is written out over main memory.  [int] arithmetic that feeds
    an address, a comparison or a division is kept at 32 bits. *)

From S2P Require Import Prelude Effects Float32 Params State Dram Fill Scaling Isa MatmulCpu.

(** The arguments shared by the convolutions of the driver. *)
Record conv_args := {
  cv_batch_size : Z; cv_in_dim : Z; cv_in_channels : Z; cv_out_channels : Z; cv_out_dim : Z;
  cv_stride : Z; cv_input_dilation : Z; cv_kernel_dilation : Z; cv_padding : Z; cv_kernel_dim : Z;
  cv_wrot180 : bool; cv_trans_output_1203 : bool; cv_trans_input_3120 : bool;
  cv_trans_weight_1203 : bool; cv_trans_weight_0132 : bool;
  cv_input : Z; cv_weights : Z; cv_bias : Z; cv_output : Z;
  cv_act : Z; cv_scale : float32; cv_relu6_shift : Z;
  cv_pool_size : Z; cv_pool_stride : Z; cv_pool_padding : Z }.

Section conv_cpu.
Context {mem : Type} `{Mmu mem}.
Variable (x : conv_args).

(** The position of an output coordinate and a kernel coordinate in the
    dilated input. *)
Definition conv_pos (o k : Z) : Z := s32 (o * cv_stride x + k * cv_kernel_dilation x - cv_padding x).

Definition conv_in_addr (b irow icol kch : Z) : Z :=
  if cv_trans_input_3120 x
  then cv_input x + s32 ((kch * cv_in_dim x * cv_in_dim x + irow * cv_in_dim x + icol) * cv_batch_size x + b)
  else cv_input x + s32 ((b * cv_in_dim x * cv_in_dim x + irow * cv_in_dim x + icol) * cv_in_channels x + kch).

(** [ipixel]: zero outside the image. *)
Definition conv_ipixel (b irow icol kch : Z) : M (machine mem) Z :=
  if (irow <? 0) || (cv_in_dim x <=? irow) || (icol <? 0) || (cv_in_dim x <=? icol) then mret 0
  else load_elem (conv_in_addr b irow icol kch).

(** The index of a weight in the HWIO, WIHO and HWOI orders. *)
Definition conv_hwio (krow_ kcol_ kch och : Z) : Z :=
  s32 ((krow_ * cv_kernel_dim x * cv_in_channels x + kcol_ * cv_in_channels x + kch) * cv_out_channels x + och).
Definition conv_wiho (krow_ kcol_ kch och : Z) : Z :=
  s32 ((kch * cv_kernel_dim x * cv_kernel_dim x + krow_ * cv_kernel_dim x + kcol_) * cv_out_channels x + och).
Definition conv_hwoi (krow_ kcol_ kch och : Z) : Z :=
  s32 ((krow_ * cv_kernel_dim x * cv_out_channels x + kcol_ * cv_out_channels x + och) * cv_in_channels x + kch).

(** The weight is first read in HWIO order and read again when the weights are
    transposed. *)
Definition conv_weight (krow kcol kch och : Z) : M (machine mem) Z :=
  let krow_ := if cv_wrot180 x then cv_kernel_dim x - krow - 1 else krow in
  let kcol_ := if cv_wrot180 x then cv_kernel_dim x - kcol - 1 else kcol in
  weight ← load_elem (cv_weights x + conv_hwio krow_ kcol_ kch och);
  if cv_trans_weight_1203 x then load_elem (cv_weights x + conv_wiho krow_ kcol_ kch och)
  else if cv_trans_weight_0132 x then load_elem (cv_weights x + conv_hwoi krow_ kcol_ kch och)
  else mret weight.

Definition conv_bias (och : Z) : M (machine mem) Z :=
  if cv_bias x =? 0 then mret 0 else load_acc (cv_bias x + och * sizeof_acc_t).

(** [opixel] before scaling: a row or column that falls between the samples of
    a dilated input is skipped. *)
Definition conv_opixel (b orow ocol och : Z) : M (machine mem) Z :=
  opixel ← conv_bias och;
  fold_range 0 (cv_kernel_dim x) (fun opixel krow =>
    check (negb (cv_input_dilation x =? 0)) Undefined ;;
    if negb (Z.rem (conv_pos orow krow) (cv_input_dilation x) =? 0) then mret opixel
    else
      let irow := Z.quot (conv_pos orow krow) (cv_input_dilation x) in
      fold_range 0 (cv_kernel_dim x) (fun opixel kcol =>
        if negb (Z.rem (conv_pos ocol kcol) (cv_input_dilation x) =? 0) then mret opixel
        else
          let icol := Z.quot (conv_pos ocol kcol) (cv_input_dilation x) in
          fold_range 0 (cv_in_channels x) (fun opixel kch =>
            ipixel ← conv_ipixel b irow icol kch;
            weight ← conv_weight krow kcol kch och;
            mret (s32 (opixel + weight * ipixel))) opixel) opixel) opixel.

(** The address of an output pixel of a square image of side [dim]. *)
Definition conv_out_addr (dim b orow ocol och : Z) : Z :=
  if cv_trans_output_1203 x
  then cv_output x + s32 ((orow * dim * cv_batch_size x + ocol * cv_batch_size x + b) * cv_out_channels x + och)
  else cv_output x + s32 ((b * dim * dim + orow * dim + ocol) * cv_out_channels x + och).

Definition conv_scaled (b orow ocol och : Z) : M (machine mem) Z :=
  opixel ← conv_opixel b orow ocol och;
  of_option Undefined (scale_and_sat opixel (cv_act x) (cv_scale x) (cv_relu6_shift x)).

Definition conv_cpu_without_pool : M (machine mem) unit :=
  for_range 0 (cv_batch_size x) (fun b =>
    for_range 0 (cv_out_dim x) (fun orow =>
      for_range 0 (cv_out_dim x) (fun ocol =>
        for_range 0 (cv_out_channels x) (fun och =>
          v ← conv_scaled b orow ocol och;
          write_to_dram sizeof_elem_t (conv_out_addr (cv_out_dim x) b orow ocol och) v)))).

(** One window position: [running_max] and whether it is initialized.  A
    position outside the image counts as zero. *)
Definition pool_step (b orow ocol poch : Z) (r : Z * bool) : M (machine mem) (Z * bool) :=
  if (orow <? 0) || (cv_out_dim x <=? orow) || (ocol <? 0) || (cv_out_dim x <=? ocol) then
    mret (if negb (snd r) || (fst r <? 0) then (0, true) else r)
  else
    opixel ← conv_scaled b orow ocol poch;
    mret (if negb (snd r) || (fst r <? opixel) then (opixel, true) else r).

Definition conv_pool_out_dim : Z :=
  s32 (Z.quot (s32 (cv_out_dim x + 2 * cv_pool_padding x - cv_pool_size x)) (cv_pool_stride x) + 1).

(** The store happens at the last window position. *)
Definition pool_pixel (pool_out_dim b porow pocol poch : Z) : M (machine mem) unit :=
  _ ← fold_range 0 (cv_pool_size x) (fun r pwrow =>
    let orow := s32 (porow * cv_pool_stride x + pwrow - cv_pool_padding x) in
    fold_range 0 (cv_pool_size x) (fun r pwcol =>
      let ocol := s32 (pocol * cv_pool_stride x + pwcol - cv_pool_padding x) in
      r ← pool_step b orow ocol poch r;
      when ((pwrow =? cv_pool_size x - 1) && (pwcol =? cv_pool_size x - 1))
        (write_to_dram sizeof_elem_t (conv_out_addr pool_out_dim b porow pocol poch) (fst r)) ;;
      mret r) r) (0, false);
  mret tt.

Definition conv_cpu : M (machine mem) unit :=
  if cv_pool_stride x =? 0 then conv_cpu_without_pool
  else
    for_range 0 (cv_batch_size x) (fun b =>
      for_range 0 conv_pool_out_dim (fun porow =>
        for_range 0 conv_pool_out_dim (fun pocol =>
          for_range 0 (cv_out_channels x) (fun poch =>
            pool_pixel conv_pool_out_dim b porow pocol poch)))).
End conv_cpu.
