(* ===== verification/ConvCpuSpec.v ===== *)
(** * ConvCpuSpec: the reference convolution computes a convolution

    [conv_cpu], with and without max pooling, stores for every output position the
    scaled and saturated sum of the bias and the products of weights and input
    pixels, for every layout of the operands, stride, padding and dilation. *)

From S2P Require Import Prelude Effects Float32 Params State Dram Fill Scaling Norm Config Move MoveSpec Isa MatmulCpu ConvCpu.

(** ** Four nested loops *)

Abbreviation pos4 := ((Z * Z) * (Z * Z))%type.

Definition quads (n1 n2 n3 n4 : Z) : list pos4 :=
  concat ((fun p => (fun q => (p, q)) <$> pairs n3 n4) <$> pairs n1 n2).

Lemma elem_of_quads n1 n2 n3 n4 e : e ∈ quads n1 n2 n3 n4 <-> e.1 ∈ pairs n1 n2 /\ e.2 ∈ pairs n3 n4.
Proof.
  unfold quads. rewrite elem_of_concat_fmap. setoid_rewrite list_elem_of_fmap. split.
  - by intros (p & Hp & q & -> & Hq).
  - intros [Hp Hq]. exists e.1. split; [done|]. exists e.2. by destruct e.
Qed.

Lemma NoDup_quads n1 n2 n3 n4 : NoDup (quads n1 n2 n3 n4).
Proof.
  unfold quads. generalize (NoDup_pairs n1 n2). induction (pairs n1 n2) as [|p l IH]; csimpl.
  - intros _. apply NoDup_nil_2.
  - intros [Hp Hl]%NoDup_cons. apply NoDup_app. split_and!.
    + apply NoDup_fmap_2; [by intros ? ? [=]|apply NoDup_pairs].
    + intros e (q & -> & _)%list_elem_of_fmap (p' & Hp' & (q' & [= <- _] & _)%list_elem_of_fmap)%elem_of_concat_fmap. done.
    + auto.
Qed.

Lemma wp_for_quads {S} n1 n2 n3 n4 (f : Z -> Z -> Z -> Z -> M S unit) Q s :
  wp (for_list (fun e : pos4 => f e.1.1 e.1.2 e.2.1 e.2.2) (quads n1 n2 n3 n4)) Q s ->
  wp (for_range 0 n1 (fun a => for_range 0 n2 (fun b => for_range 0 n3 (fun c => for_range 0 n4 (f a b c))))) Q s.
Proof.
  intros Hw. apply wp_for_pairs. unfold wp.
  rewrite (for_list_ext _ (fun p => for_list (fun q => f p.1 p.2 q.1 q.2) (pairs n3 n4)))
    by (intros p s'; apply for_pairs).
  by apply (wp_for_list_nest (fun p q => f p.1 p.2 q.1 q.2) (fun _ => pairs n3 n4)).
Qed.

(** A loop that accumulates in 32 bits. *)
Lemma wp_fold_sum {S} (f : Z -> Z -> M S Z) (g : Z -> Z) n a Q (s : S) :
  (forall i a0, 0 <= i < n -> wp (f (s32 a0) i) (fun v s' => v = s32 (a0 + g i) /\ s' = s) s) ->
  Q (s32 (a + Zsum g n)) s -> wp (fold_range 0 n f (s32 a)) Q s.
Proof.
  intros Hf HQ. apply (wp_fold_range (fun k v s' => v = s32 (a + Zsum g k) /\ s' = s)).
  - by rewrite Zsum_0, Z.add_0_r by lia.
  - intros k v s' Hk [-> ->]. eapply wp_mono; [by apply Hf|]. intros v s' [-> ->]. split; [|done].
    rewrite Zsum_S by lia. by rewrite Z.add_assoc.
  - intros v s' [-> ->]. destruct (decide (0 <= n)); [by rewrite Z.max_r by lia|].
    rewrite Z.max_l by lia. rewrite Zsum_0 in * by lia. done.
Qed.

Section spec.
Context {mem : Type} `{MmuLaws mem}.
Variable (x : conv_args).
Implicit Types (d : mem) (m : machine mem).

(** ** What a convolution is *)

(** The input, zero outside of the image. *)
Definition in_image (irow icol : Z) : Prop := 0 <= irow < cv_in_dim x /\ 0 <= icol < cv_in_dim x.
Definition in_pixel d (b irow icol kch : Z) : Z :=
  if decide (in_image irow icol) then mem_int 1 d (conv_in_addr x b irow icol kch) else 0.

(** The weights, rotated by half a turn if asked for, in one of three layouts. *)
Definition weight_addr (krow kcol kch och : Z) : Z :=
  let krow := if cv_wrot180 x then cv_kernel_dim x - krow - 1 else krow in
  let kcol := if cv_wrot180 x then cv_kernel_dim x - kcol - 1 else kcol in
  cv_weights x + (if cv_trans_weight_1203 x then conv_wiho x krow kcol kch och
                  else if cv_trans_weight_0132 x then conv_hwoi x krow kcol kch och
                  else conv_hwio x krow kcol kch och).
Definition bias_at d (och : Z) : Z :=
  if cv_bias x =? 0 then 0 else mem_int 4 d (cv_bias x + och * sizeof_acc_t).

(** One product: the kernel position falls on a sample of the dilated input, or
    contributes nothing. *)
Definition sampled (p : Z) : bool := Z.rem p (cv_input_dilation x) =? 0.
Definition conv_tap d (b orow ocol och krow kcol kch : Z) : Z :=
  if sampled (conv_pos x orow krow) && sampled (conv_pos x ocol kcol)
  then mem_int 1 d (weight_addr krow kcol kch och) *
       in_pixel d b (Z.quot (conv_pos x orow krow) (cv_input_dilation x)) (Z.quot (conv_pos x ocol kcol) (cv_input_dilation x)) kch
  else 0.

Definition conv_sum d (b orow ocol och : Z) : Z :=
  bias_at d och +
  Zsum (fun krow => Zsum (fun kcol => Zsum (conv_tap d b orow ocol och krow kcol) (cv_in_channels x)) (cv_kernel_dim x)) (cv_kernel_dim x).

Definition conv_value d (b orow ocol och : Z) : option Z :=
  scale_and_sat (s32 (conv_sum d b orow ocol och)) (cv_act x) (cv_scale x) (cv_relu6_shift x).

(** ** Operands *)

Inductive conv_operand : Z -> Z -> Prop :=
  | cop_input b irow icol kch : 0 <= b < cv_batch_size x -> in_image irow icol -> 0 <= kch < cv_in_channels x ->
      conv_operand 1 (conv_in_addr x b irow icol kch)
  | cop_hwio krow kcol kch och : 0 <= krow < cv_kernel_dim x -> 0 <= kcol < cv_kernel_dim x ->
      0 <= kch < cv_in_channels x -> 0 <= och < cv_out_channels x -> conv_operand 1 (cv_weights x + conv_hwio x krow kcol kch och)
  | cop_weight krow kcol kch och : 0 <= krow < cv_kernel_dim x -> 0 <= kcol < cv_kernel_dim x ->
      0 <= kch < cv_in_channels x -> 0 <= och < cv_out_channels x -> conv_operand 1 (weight_addr krow kcol kch och)
  | cop_bias och : cv_bias x <> 0 -> 0 <= och < cv_out_channels x -> conv_operand 4 (cv_bias x + och * sizeof_acc_t).

(** Memory that still holds the operands of [d]. *)
Definition keeps_operands (d d' : mem) : Prop :=
  forall size a, conv_operand size a -> mem_int size d' a = mem_int size d a /\ mem_readable size d' a.

Section run.
Context (d : mem) (Hdil : cv_input_dilation x <> 0).

Lemma wp_conv_load size a Q m : 1 <= size <= 4 -> keeps_operands d (dram m) -> conv_operand size a ->
  Q (mem_int size d a) m -> wp (read_from_dram size a) Q m.
Proof. intros Hs Hk Ha HQ. destruct (Hk _ _ Ha) as [He Hr]. apply wp_read_from_dram; [done..|]. by rewrite He. Qed.

Lemma wp_conv_ipixel b irow icol kch Q m : keeps_operands d (dram m) -> 0 <= b < cv_batch_size x -> 0 <= kch < cv_in_channels x ->
  Q (in_pixel d b irow icol kch) m -> wp (conv_ipixel x b irow icol kch) Q m.
Proof.
  intros Hk Hb Hc HQ. unfold conv_ipixel, in_pixel in *. destruct (decide (in_image irow icol)) as [Hin|Hout].
  - assert ((irow <? 0) || (cv_in_dim x <=? irow) || (icol <? 0) || (cv_in_dim x <=? icol) = false) as -> by (unfold in_image in Hin; lia).
    unfold load_elem. apply wp_conv_load; [by unfold sizeof_elem_t|done|by apply cop_input|done].
  - assert ((irow <? 0) || (cv_in_dim x <=? irow) || (icol <? 0) || (cv_in_dim x <=? icol) = true) as -> by (unfold in_image in Hout; lia).
    by apply wp_ret.
Qed.

Lemma wp_conv_weight krow kcol kch och Q m : keeps_operands d (dram m) ->
  0 <= krow < cv_kernel_dim x -> 0 <= kcol < cv_kernel_dim x -> 0 <= kch < cv_in_channels x -> 0 <= och < cv_out_channels x ->
  Q (mem_int 1 d (weight_addr krow kcol kch och)) m -> wp (conv_weight x krow kcol kch och) Q m.
Proof.
  intros Hk H1 H2 H3 H4 HQ. pose proof (cop_weight krow kcol kch och H1 H2 H3 H4) as Hw. unfold conv_weight, load_elem, sizeof_elem_t.
  unfold weight_addr in *. set (kr := if cv_wrot180 x then cv_kernel_dim x - krow - 1 else krow) in *.
  set (kc := if cv_wrot180 x then cv_kernel_dim x - kcol - 1 else kcol) in *.
  apply wp_bind, wp_conv_load; [done|done|apply cop_hwio; [unfold kr; destruct (cv_wrot180 x); lia|unfold kc; destruct (cv_wrot180 x); lia|done..]|].
  destruct (cv_trans_weight_1203 x); [by apply wp_conv_load|]. destruct (cv_trans_weight_0132 x); [by apply wp_conv_load|].
  by apply wp_ret.
Qed.

Lemma bias_s32 och : s32 (bias_at d och) = bias_at d och.
Proof. unfold bias_at. case_match; [done|]. unfold mem_int. by rewrite wrap_s_wrap_s by lia. Qed.

Lemma wp_conv_bias och Q m : keeps_operands d (dram m) -> 0 <= och < cv_out_channels x ->
  Q (bias_at d och) m -> wp (conv_bias x och) Q m.
Proof.
  intros Hk Ho HQ. unfold conv_bias, bias_at in *. destruct (cv_bias x =? 0) eqn:E; [by apply wp_ret|].
  unfold load_acc. apply wp_conv_load; [by unfold sizeof_acc_t|done|apply cop_bias; [lia|done]|done].
Qed.

(** The accumulated pixel. *)
Lemma wp_conv_opixel b orow ocol och Q m : keeps_operands d (dram m) -> 0 <= b < cv_batch_size x -> 0 <= och < cv_out_channels x ->
  Q (s32 (conv_sum d b orow ocol och)) m -> wp (conv_opixel x b orow ocol och) Q m.
Proof.
  intros Hk Hb Ho HQ. unfold conv_opixel. apply wp_bind, wp_conv_bias; [done..|]. rewrite <- bias_s32.
  eapply wp_fold_sum; [|exact HQ]. intros krow a Hkr. cbv beta. apply wp_bind, wp_check; [lia|].
  fold (sampled (conv_pos x orow krow)). destruct (sampled (conv_pos x orow krow)) eqn:Er; cbn [negb].
  2: { apply wp_ret. split; [|done]. rewrite Zsum_zero, Z.add_0_r; [done|]. intros kcol _. apply Zsum_zero. intros kch _.
       unfold conv_tap. by rewrite Er. }
  eapply wp_fold_sum; [|by split]. clear a. intros kcol a Hkc. cbv beta.
  fold (sampled (conv_pos x ocol kcol)). destruct (sampled (conv_pos x ocol kcol)) eqn:Ec; cbn [negb].
  2: { apply wp_ret. split; [|done]. rewrite Zsum_zero, Z.add_0_r; [done|]. intros kch _. unfold conv_tap. by rewrite Er, Ec. }
  eapply wp_fold_sum; [|by split]. clear a. intros kch a Hkch. cbv beta.
  apply wp_bind, wp_conv_ipixel; [done..|]. apply wp_bind, wp_conv_weight; [done..|]. apply wp_ret. split; [|done].
  unfold conv_tap. rewrite Er, Ec. cbn [andb]. by rewrite wrap_s_add_l by lia.
Qed.

Lemma wp_conv_scaled b orow ocol och v Q m : keeps_operands d (dram m) -> 0 <= b < cv_batch_size x -> 0 <= och < cv_out_channels x ->
  conv_value d b orow ocol och = Some v -> Q v m -> wp (conv_scaled x b orow ocol och) Q m.
Proof.
  intros Hk Hb Ho Hv HQ. unfold conv_scaled. apply wp_bind, wp_conv_opixel; [done..|]. by eapply wp_of_option.
Qed.

(** ** Max pooling *)

(** The running maximum over the values seen so far. *)
Definition running (vs : list Z) : Z * bool :=
  match vs with [] => (0, false) | v :: vs' => (foldl Z.max v vs', true) end.
Definition window_max (vs : list Z) : Z := (running vs).1.

Lemma running_app vs v : running (vs ++ [v]) =
  if negb (running vs).2 || ((running vs).1 <? v) then (v, true) else running vs.
Proof.
  destruct vs as [|v0 vs]; [done|]. simpl. rewrite foldl_app. simpl. destruct (Z.ltb_spec (foldl Z.max v0 vs) v); f_equal; lia.
Qed.

(** The image row or column of a window position. *)
Definition window_pos (o w : Z) : Z := s32 (o * cv_pool_stride x + w - cv_pool_padding x).
Definition in_output (orow ocol : Z) : Prop := 0 <= orow < cv_out_dim x /\ 0 <= ocol < cv_out_dim x.

Definition window_value (b row col ch : Z) (w : Z * Z) : Z :=
  let orow := window_pos row w.1 in let ocol := window_pos col w.2 in
  if decide (in_output orow ocol) then default 0 (conv_value d b orow ocol ch) else 0.
Definition window (b row col ch : Z) : list Z := window_value b row col ch <$> pairs (cv_pool_size x) (cv_pool_size x).

Lemma pairs_last n : 1 <= n -> exists l, pairs n n = l ++ [(n - 1, n - 1)] /\ forall w, w ∈ l -> w <> (n - 1, n - 1).
Proof.
  intros Hn. assert (exists l, pairs n n = l ++ [(n - 1, n - 1)]) as [l Hl].
  { pose proof (pairs_S (n - 1) n ltac:(lia)) as E. pose proof (seqZ_app 0 (n - 1) 1 ltac:(lia) ltac:(lia)) as E'.
    rewrite Z.sub_add in E, E'. rewrite E, E', fmap_app, app_assoc. by eexists. }
  exists l. split; [done|]. pose proof (NoDup_pairs n n) as Hnd. rewrite Hl in Hnd.
  apply NoDup_app in Hnd as (_ & Hd & _). intros w Hw ->. apply (Hd _ Hw). left.
Qed.

(** Every position of the convolution has a value. *)
Definition values_defined : Prop := forall b orow ocol och,
  0 <= b < cv_batch_size x -> in_output orow ocol -> 0 <= och < cv_out_channels x -> is_Some (conv_value d b orow ocol och).

Lemma wp_pool_step b row col ch w vs Q m : values_defined -> keeps_operands d (dram m) ->
  0 <= b < cv_batch_size x -> 0 <= ch < cv_out_channels x ->
  Q (running (vs ++ [window_value b row col ch w])) m ->
  wp (pool_step x b (window_pos row w.1) (window_pos col w.2) ch (running vs)) Q m.
Proof.
  intros Hval Hk Hb Hc HQ. rewrite running_app in HQ. unfold pool_step, window_value in *.
  set (orow := window_pos row w.1) in *. set (ocol := window_pos col w.2) in *. destruct (decide (in_output orow ocol)) as [Hin|Hout].
  - assert ((orow <? 0) || (cv_out_dim x <=? orow) || (ocol <? 0) || (cv_out_dim x <=? ocol) = false) as -> by (unfold in_output in Hin; lia).
    destruct (Hval b orow ocol ch Hb Hin Hc) as [v Hv]. rewrite Hv in HQ. apply wp_bind.
    eapply wp_conv_scaled; [done..|]. by apply wp_ret.
  - assert ((orow <? 0) || (cv_out_dim x <=? orow) || (ocol <? 0) || (cv_out_dim x <=? ocol) = true) as -> by (unfold in_output in Hout; lia).
    by apply wp_ret.
Qed.

Lemma wp_store_byte a v Q m : mem_writable 1 (dram m) a ->
  (forall d', mem_differ (span 1 a) (dram m) d' -> mem_int 1 d' a = wrap_s (8 * 1) v -> Q tt (Machine (gs m) d' (rand_pos m))) ->
  wp (write_to_dram sizeof_elem_t a v) Q m.
Proof.
  intros Hw HQ. apply wp_write_to_dram; [by unfold sizeof_elem_t|done|]. intros d' Hd' Hb. apply HQ; [done|]. by apply mem_int_written.
Qed.

(** One pooled position: the maximum of its window is stored once. *)
Lemma wp_pool_pixel od b row col ch Q m : values_defined -> keeps_operands d (dram m) -> 1 <= cv_pool_size x ->
  0 <= b < cv_batch_size x -> 0 <= ch < cv_out_channels x ->
  let a := conv_out_addr x od b row col ch in
  mem_writable 1 (dram m) a ->
  (forall d', mem_differ (span 1 a) (dram m) d' -> mem_int 1 d' a = wrap_s (8 * 1) (window_max (window b row col ch)) ->
     Q tt (Machine (gs m) d' (rand_pos m))) ->
  wp (pool_pixel x od b row col ch) Q m.
Proof.
  intros Hval Hk Hps Hb Hc a Hw HQ. unfold pool_pixel. apply wp_bind, wp_fold_pairs. fold a.
  destruct (pairs_last (cv_pool_size x) Hps) as (l & El & Hl). unfold wp at 1. rewrite El, fold_list_app.
  apply wp_bind, (wp_fold_list (fun k r m' => r = running (window_value b row col ch <$> take k l) /\ m' = m)); [done| |].
  - intros k w r m' Hw' [-> ->]. pose proof (Hl w (list_elem_of_lookup_2 _ _ _ Hw')) as Hne.
    apply wp_bind, wp_pool_step; [done..|]. apply wp_bind, wp_when; intros Hlast.
    + destruct Hne. apply andb_prop in Hlast as [H1 H2]. destruct w. simpl in *. f_equal; lia.
    + apply wp_ret. by rewrite (take_S_r _ _ w Hw'), fmap_app.
  - intros r m' [-> ->]. rewrite firstn_all. cbn [fold_list]. apply wp_bind, wp_bind, wp_pool_step; [done..|].
    cbn [fst snd]. rewrite !Z.eqb_refl. apply wp_bind, wp_store_byte; [done|]. intros d' Hd' Hv. apply wp_ret, wp_ret, wp_ret.
    apply HQ; [done|]. rewrite Hv. unfold window. by rewrite El, fmap_app.
Qed.
End run.

(** ** The whole image *)

Definition out_side : Z := if cv_pool_stride x =? 0 then cv_out_dim x else conv_pool_out_dim x.
Definition outputs : list pos4 := quads (cv_batch_size x) out_side out_side (cv_out_channels x).
Definition out_at (e : pos4) : Z := conv_out_addr x out_side e.1.1 e.1.2 e.2.1 e.2.2.

(** The value of an output position: the pixel, or the maximum of its window. *)
Definition out_pixel d (e : pos4) : Z :=
  if cv_pool_stride x =? 0 then default 0 (conv_value d e.1.1 e.1.2 e.2.1 e.2.2)
  else window_max (window d e.1.1 e.1.2 e.2.1 e.2.2).

(** What a call needs: a result that [int] offsets can address, readable operands,
    a writable result that overlaps no operand, and defined values. *)
Record conv_ready d : Prop := {
  cn_dilation : cv_input_dilation x <> 0;
  cn_pool : cv_pool_stride x <> 0 -> 1 <= cv_pool_size x;
  cn_size : cv_batch_size x * out_side * out_side * cv_out_channels x < 2 ^ 31;
  cn_base : 0 <= cv_output x /\ cv_output x + 2 ^ 31 <= 2 ^ 64;
  cn_read size a : conv_operand size a -> mem_readable size d a;
  cn_write e : e ∈ outputs -> mem_writable 1 d (out_at e);
  cn_alias e size a b : e ∈ outputs -> conv_operand size a -> span 1 (out_at e) b -> span size a b -> False;
  cn_values : values_defined d }.

Lemma radix_bound a b k n : 0 <= a < k -> 0 <= b < n -> 0 <= a * n + b < k * n.
Proof. nia. Qed.
Lemma radix_inj a b a' b' n : 0 <= b < n -> 0 <= b' < n -> a * n + b = a' * n + b' -> a = a' /\ b = b'.
Proof. intros. assert (a = a') as -> by nia. lia. Qed.

(** The offset of an output position, in the order of its layout. *)
Definition out_offset (e : pos4) : Z :=
  (if cv_trans_output_1203 x then (e.1.2 * out_side + e.2.1) * cv_batch_size x + e.1.1
   else (e.1.1 * out_side + e.1.2) * out_side + e.2.1) * cv_out_channels x + e.2.2.

Lemma elem_of_outputs e : e ∈ outputs <->
  (0 <= e.1.1 < cv_batch_size x /\ 0 <= e.1.2 < out_side) /\ 0 <= e.2.1 < out_side /\ 0 <= e.2.2 < cv_out_channels x.
Proof. unfold outputs. by rewrite elem_of_quads, !elem_of_pairs. Qed.

Lemma out_offset_bound e : e ∈ outputs -> 0 <= out_offset e < cv_batch_size x * out_side * out_side * cv_out_channels x.
Proof.
  intros ((Hb & Hr) & Hc & Hch)%elem_of_outputs. unfold out_offset. destruct (cv_trans_output_1203 x).
  - pose proof (radix_bound _ _ _ _ (radix_bound _ _ _ _ (radix_bound _ _ _ _ Hr Hc) Hb) Hch). lia.
  - pose proof (radix_bound _ _ _ _ (radix_bound _ _ _ _ (radix_bound _ _ _ _ Hb Hr) Hc) Hch). lia.
Qed.

Lemma out_offset_inj e e' : e ∈ outputs -> e' ∈ outputs -> out_offset e = out_offset e' -> e = e'.
Proof.
  intros ((Hb & Hr) & Hc & Hch)%elem_of_outputs ((Hb' & Hr') & Hc' & Hch')%elem_of_outputs Heq.
  unfold out_offset in Heq. apply radix_inj in Heq as [Heq E4]; [|done..]. destruct e as [[] []], e' as [[] []]. simpl in *.
  destruct (cv_trans_output_1203 x); apply radix_inj in Heq as [[E1 E2]%radix_inj E3]; congruence || done.
Qed.

Section image.
Context (d : mem) (Hr : conv_ready d).

Lemma out_at_offset e : e ∈ outputs -> out_at e = cv_output x + out_offset e.
Proof.
  intros He. pose proof (out_offset_bound e He) as Hb. pose proof (cn_size d Hr). unfold out_at, conv_out_addr, out_offset in *.
  destruct (cv_trans_output_1203 x); (rewrite wrap_s_id; [|lia|]); [lia|unfold in_s; lia|lia|unfold in_s; lia].
Qed.

Lemma outputs_apart e e' b : e ∈ outputs -> e' ∈ outputs -> span 1 (out_at e) b -> span 1 (out_at e') b -> e = e'.
Proof.
  intros He He' (i & Hi & ->) (i' & Hi' & Eq). pose proof (cn_size d Hr). pose proof (cn_base d Hr).
  pose proof (out_offset_bound e He). pose proof (out_offset_bound e' He'). rewrite !out_at_offset in Eq by done.
  rewrite !wrap_u_id in Eq by (unfold in_u; lia). apply out_offset_inj; [done..|]. lia.
Qed.

Lemma outputs_keep d' : mem_differ (stored 1 out_at outputs) d d' -> keeps_operands d d'.
Proof.
  intros Hd size a Ha. split; [|eapply mem_readable_differ; [done|]; by apply (cn_read d Hr)].
  eapply mem_int_differ; [done|]. intros i Hi (e & He & Hb). eapply (cn_alias d Hr); [done..|]. by exists i.
Qed.

(** The loop over the output positions, given what its body stores. *)
Lemma wp_image side (f : Z -> Z -> Z -> Z -> M (machine mem) unit) m : out_side = side -> dram m = d ->
  (forall e m', e ∈ outputs -> keeps_operands d (dram m') -> mem_writable 1 (dram m') (out_at e) ->
     wp (f e.1.1 e.1.2 e.2.1 e.2.2) (fun _ m'' => gs m'' = gs m' /\ rand_pos m'' = rand_pos m' /\
       mem_differ (span 1 (out_at e)) (dram m') (dram m'') /\ mem_int 1 (dram m'') (out_at e) = wrap_s (8 * 1) (out_pixel d e)) m') ->
  wp (for_range 0 (cv_batch_size x) (fun b => for_range 0 side (fun row => for_range 0 side (fun col =>
       for_range 0 (cv_out_channels x) (f b row col)))))
    (fun _ m' => gs m' = gs m /\ store_post 1 out_at (out_pixel d) outputs d (dram m')) m.
Proof.
  intros <- Hm Hf. apply wp_for_quads. fold outputs.
  apply (wp_store 1 out_at (out_pixel d) _ (fun g r => g = gs m /\ r = rand_pos m)); rewrite ?Hm;
    [lia|apply NoDup_quads|apply outputs_apart|apply (cn_write d Hr)|done| |].
  - intros e m' He [Hg Hn] Hd Hw. eapply wp_mono; [apply Hf; [done|by apply outputs_keep|done]|].
    intros _ m'' (Hg' & Hn' & Hd' & Hv'). split_and!; [congruence|congruence|done|done].
  - intros m' [Hg _] Hs. done.
Qed.

Lemma wp_conv_cpu m : dram m = d ->
  wp (conv_cpu x) (fun _ m' => gs m' = gs m /\ store_post 1 out_at (out_pixel d) outputs d (dram m')) m.
Proof.
  intros Hm. unfold conv_cpu. destruct (cv_pool_stride x =? 0) eqn:Ep.
  - unfold conv_cpu_without_pool. assert (out_side = cv_out_dim x) as Es by (unfold out_side; by rewrite Ep).
    apply wp_image; [done..|]. intros e m' He Hk Hw.
    pose proof (proj1 (elem_of_outputs e) He) as ((Hb & Hro) & Hco & Hch). rewrite Es in Hro, Hco.
    destruct (cn_values d Hr e.1.1 e.1.2 e.2.1 e.2.2 Hb ltac:(by split) Hch) as [v Hv].
    apply wp_bind. eapply wp_conv_scaled; [apply Hr|done..|]. rewrite <- Es. fold (out_at e).
    apply wp_store_byte; [done|]. intros d' Hd' Hv'. split_and!; [done|done|done|]. unfold out_pixel. by rewrite Ep, Hv.
  - assert (out_side = conv_pool_out_dim x) as Es by (unfold out_side; by rewrite Ep).
    apply wp_image; [done..|]. intros e m' He Hk Hw.
    pose proof (proj1 (elem_of_outputs e) He) as ((Hb & Hro) & Hco & Hch).
    rewrite <- Es. apply (wp_pool_pixel d); [apply Hr|apply Hr|done|apply (cn_pool d Hr); lia|done|done|done|].
    intros d' Hd' Hv'. split_and!; [done|done|done|]. unfold out_pixel. by rewrite Ep.
Qed.
End image.

(** C24: the reference convolution.  [conv_cpu] ends, and every output position
    holds the saturated, scaled and activated sum of the bias and of the products of
    weights and input pixels, pixels outside of the image counting as zero, or, with
    pooling, the maximum of these values over its window; the accelerator state and
    all other memory are unchanged.  This holds for every layout of input, weights
    and output, and for any stride, padding and dilation. *)
Theorem conv_cpu_correct m : conv_ready (dram m) ->
  wp (conv_cpu x) (fun _ m' => gs m' = gs m /\
    (forall e, e ∈ outputs -> mem_int 1 (dram m') (out_at e) = wrap_s 8 (out_pixel (dram m) e)) /\
    mem_differ (stored 1 out_at outputs) (dram m) (dram m')) m.
Proof.
  intros Hr. eapply wp_mono; [by apply (wp_conv_cpu (dram m))|]. intros _ m' [Hg [Hd Hv]]. by split_and!.
Qed.
End spec.

(** ** Witness: a 2 x 2 image, padded by one, a 2 x 2 kernel and 2 x 2 windows *)

Definition small_conv : conv_args := {|
  cv_batch_size := 1; cv_in_dim := 2; cv_in_channels := 1; cv_out_channels := 1; cv_out_dim := 3;
  cv_stride := 1; cv_input_dilation := 1; cv_kernel_dilation := 1; cv_padding := 1; cv_kernel_dim := 2;
  cv_wrot180 := false; cv_trans_output_1203 := false; cv_trans_input_3120 := false;
  cv_trans_weight_1203 := false; cv_trans_weight_0132 := false;
  cv_input := 0x1001; cv_weights := 0x1010; cv_bias := 0; cv_output := 0x1080;
  cv_act := 0; cv_scale := f32_one; cv_relu6_shift := 0; cv_pool_size := 2; cv_pool_stride := 1; cv_pool_padding := 0 |}.

Ltac pin v lo hi := let E := fresh in assert (v = lo \/ v = hi) as E by (cbn in *; lia); destruct E as [-> | ->].

Lemma small_conv_operand size a : conv_operand small_conv size a -> size = 1 /\ 0x1001 <= a < 0x1014.
Proof.
  intros [b irow icol kch Hb [Hr Hc] Hk|krow kcol kch och Hr Hc Hk Ho|krow kcol kch och Hr Hc Hk Ho|]; [..|done]; (split; [done|]).
  - replace b with 0 by (cbn in *; lia). replace kch with 0 by (cbn in *; lia). pin irow 0 1; pin icol 0 1; by vm_compute.
  - replace och with 0 by (cbn in *; lia). replace kch with 0 by (cbn in *; lia). pin krow 0 1; pin kcol 0 1; by vm_compute.
  - replace och with 0 by (cbn in *; lia). replace kch with 0 by (cbn in *; lia). pin krow 0 1; pin kcol 0 1; by vm_compute.
Qed.

Lemma small_conv_out e : e ∈ outputs small_conv -> 0x1080 <= out_at small_conv e < 0x1084.
Proof.
  apply (by_evaluation (fun e => 0x1080 <= out_at small_conv e < 0x1084)
    (fun e => (0x1080 <=? out_at small_conv e) && (out_at small_conv e <? 0x1084))); [intros a; lia|by vm_compute].
Qed.

Lemma small_conv_ready : conv_ready small_conv (dram demo).
Proof.
  split; [done|done|by vm_compute|done| | | |].
  - intros size a [-> Ha]%small_conv_operand. apply flat_mem_readable; simpl; lia.
  - intros e He%small_conv_out. apply flat_mem_writable; simpl; lia.
  - intros e size a b He%small_conv_out [-> Ha]%small_conv_operand (k & Hk & ->) (k' & Hk' & E).
    rewrite !wrap_u_id in E by (unfold in_u; lia). lia.
  - intros b orow ocol och Hb [Hro Hco] Hch. cbn in Hb, Hro, Hco, Hch.
    apply (by_evaluation (fun e : pos4 => is_Some (conv_value small_conv (dram demo) e.1.1 e.1.2 e.2.1 e.2.2))
      (fun e : pos4 => defined (conv_value small_conv (dram demo) e.1.1 e.1.2 e.2.1 e.2.2)) (quads 1 3 3 1)
      ltac:(intros e; apply defined_is_Some) ltac:(by vm_compute) ((b, orow), (ocol, och))).
    rewrite elem_of_quads, !elem_of_pairs. done.
Qed.

Lemma conv_cpu_correct_witness :
  wp (conv_cpu small_conv) (fun _ m' => gs m' = gs demo /\ mem_int 1 (dram m') 0x1080 = 127) demo.
Proof.
  eapply wp_mono; [apply (conv_cpu_correct small_conv demo small_conv_ready)|].
  intros _ m' (Hg & Hv & _). split; [done|].
  etransitivity; [exact (Hv ((0, 0), (0, 0)) ltac:(rewrite elem_of_outputs; by vm_compute))|]. by vm_compute.
Defined.
