(* ===== verification/Conv.v ===== *)
(** * Conv: the tiled convolution of the driver

    [sp_tiled_conv], [tiled_conv_total_spad_rows], [tiled_conv],
    [tiled_conv_auto] and [tiled_conv_downsample] of systolic_include.h. *)

From S2P Require Import Prelude Effects Float32 Params State Dram Fill Scaling Norm Config Move Compute LoopWs LoopConv Counters Dispatch Isa MatmulCpu Matmul ConvCpu.

(** ** The tiles *)

(** The array [args] of [tiled_conv_auto]: batches, output rows, columns and
    channels (after pooling), kernel rows, columns and channels. *)
Record conv_tile := {
  ct_batches : Z; ct_porows : Z; ct_pocols : Z; ct_pochs : Z; ct_krows : Z; ct_kcols : Z; ct_kchs : Z }.

Definition tile_list (t : conv_tile) : list Z :=
  [ct_batches t; ct_porows t; ct_pocols t; ct_pochs t; ct_krows t; ct_kcols t; ct_kchs t].

(** [args[i] = v] *)
Definition tile_set (i : nat) (v : Z) (t : conv_tile) : conv_tile :=
  match i, t with
  | 0%nat, Build_conv_tile _ b c d e f g => Build_conv_tile v b c d e f g
  | 1%nat, Build_conv_tile a _ c d e f g => Build_conv_tile a v c d e f g
  | 2%nat, Build_conv_tile a b _ d e f g => Build_conv_tile a b v d e f g
  | 3%nat, Build_conv_tile a b c _ e f g => Build_conv_tile a b c v e f g
  | 4%nat, Build_conv_tile a b c d _ f g => Build_conv_tile a b c d v f g
  | 5%nat, Build_conv_tile a b c d e _ g => Build_conv_tile a b c d e v g
  | _, Build_conv_tile a b c d e f _ => Build_conv_tile a b c d e f v
  end.

Definition tile_get (t : conv_tile) (i : nat) : Z := default 0 (tile_list t !! i).

Definition cdiv_int (a b : Z) : Z := Z.quot a b + b2z (negb (Z.rem a b =? 0)).

Record spad_rows_args := {
  sr_stride : Z; sr_input_dilation : Z; sr_kernel_dilation : Z; sr_downsample : bool;
  sr_trans_weight_0132 : bool; sr_trans_input_3120 : bool; sr_pool_size : Z; sr_pool_stride : Z }.

Definition tiled_conv_total_spad_rows (acc : bool) (a : spad_rows_args) (t : conv_tile) : Z :=
  let orows := s32 (ct_porows t * sr_pool_stride a + sr_pool_size a - 1) in
  let ocols := s32 (ct_pocols t * sr_pool_stride a + sr_pool_size a - 1) in
  let krows_dilated := ct_krows t + (sr_kernel_dilation a - 1) * (ct_krows t - 1) in
  let kcols_dilated := ct_kcols t + (sr_kernel_dilation a - 1) * (ct_kcols t - 1) in
  let irows := s32 (orows * sr_stride a + krows_dilated - 1) in
  let icols := s32 (ocols * sr_stride a + kcols_dilated - 1) in
  let ichs := ct_kchs t in
  let irows := cdiv_int irows (sr_input_dilation a) in
  let icols := cdiv_int icols (sr_input_dilation a) in
  let in_channels_per_bank := cdiv_int ichs DIM in
  let out_channels_per_bank := cdiv_int (ct_pochs t) DIM in
  let batches_per_bank := cdiv_int (ct_batches t) DIM in
  let d := b2z (sr_downsample a) in
  let A_rows := if sr_trans_input_3120 a
    then s32 (batches_per_bank * ichs * (irows ≫ d) * (icols ≫ d))
    else s32 (in_channels_per_bank * ct_batches t * (irows ≫ d) * (icols ≫ d)) in
  let B_rows := if sr_trans_weight_0132 a
    then s32 (in_channels_per_bank * ct_kcols t * ct_krows t * ct_pochs t)
    else s32 (out_channels_per_bank * ct_kcols t * ct_krows t * ct_kchs t) in
  let C_rows := s32 (out_channels_per_bank * ct_batches t * orows * ocols) in
  if acc then C_rows else s32 (A_rows + B_rows).

(** ** The kernel *)

Section kernel.
Context {mem : Type} `{Mmu mem} `{Rand}.

(** The arguments of [sp_tiled_conv] that vary from tile to tile. *)
Record conv_slice := {
  cs_tile : conv_tile;
  cs_lpad : Z; cs_rpad : Z; cs_upad : Z; cs_dpad : Z; cs_plpad : Z; cs_prpad : Z; cs_pupad : Z; cs_pdpad : Z;
  cs_input : Z; cs_weights : Z; cs_output : Z; cs_bias : Z }.

(** [max_pixels_per_row]; the division is reached only for [ichs <= DIM]. *)
Definition conv_max_pixels (x : conv_args) (downsample input_dilated : bool) (t : conv_tile) : option Z :=
  let transposed := cv_trans_output_1203 x || cv_trans_input_3120 x || cv_trans_weight_1203 x || cv_trans_weight_0132 x in
  let one := transposed || cv_wrot180 x || downsample || input_dilated || (1 <? cv_kernel_dilation x) || (DIM <? ct_kchs t) in
  if one then Some (if ct_kcols t <? 1 then ct_kcols t else 1)
  else if ct_kchs t =? 0 then None
  else let m := Z.quot DIM (ct_kchs t) in Some (if ct_kcols t <? m then ct_kcols t else m).

(** One loop instruction.  The scratchpad offsets the function also computes,
    and the static rows it rotates, are read only by code that is commented
    out in the source. *)
Definition sp_tiled_conv (x : conv_args) (pool_size pool_stride pool_padding pool_out_dim : Z)
    (no_bias no_pool downsample input_dilated : bool) (c : conv_slice) : M (machine mem) unit :=
  let t := cs_tile c in
  let orows := s32 (ct_porows t * pool_stride + pool_size - 1 - cs_pupad c - cs_pdpad c) in
  let ocols := s32 (ct_pocols t * pool_stride + pool_size - 1 - cs_plpad c - cs_prpad c) in
  max_pixels_per_row ← of_option Undefined (conv_max_pixels x downsample input_dilated t);
  gemmini_loop_conv_ws {|
    lp_batch_size := cv_batch_size x; lp_in_dim := cv_in_dim x; lp_in_channels := cv_in_channels x;
    lp_out_channels := cv_out_channels x; lp_out_dim := cv_out_dim x; lp_pool_out_dim := pool_out_dim;
    lp_stride := cv_stride x; lp_padding := cv_padding x; lp_kernel_dim := cv_kernel_dim x;
    lp_kernel_dilation := cv_kernel_dilation x;
    lp_pool_size := pool_size; lp_pool_stride := pool_stride; lp_pool_padding := pool_padding;
    lp_batches := ct_batches t; lp_porows := ct_porows t; lp_pocols := ct_pocols t; lp_pochs := ct_pochs t;
    lp_krows := ct_krows t; lp_kcols := ct_kcols t; lp_kchs := ct_kchs t;
    lp_lpad := cs_lpad c; lp_rpad := cs_rpad c; lp_upad := cs_upad c; lp_dpad := cs_dpad c;
    lp_plpad := cs_plpad c; lp_prpad := cs_prpad c; lp_pupad := cs_pupad c; lp_pdpad := cs_pdpad c;
    lp_orows := orows; lp_ocols := ocols;
    lp_weights := cs_weights c; lp_output := cs_output c; lp_bias := cs_bias c; lp_input := cs_input c;
    lp_no_bias := no_bias; lp_no_pool := no_pool; lp_downsample := downsample; lp_wrot180 := cv_wrot180 x;
    lp_input_dilated := input_dilated; lp_activation := cv_act x;
    lp_trans_output_1203 := cv_trans_output_1203 x; lp_trans_weight_1203 := cv_trans_weight_1203 x;
    lp_trans_weight_0132 := cv_trans_weight_0132 x; lp_trans_input_3120 := cv_trans_input_3120 x;
    lp_max_pixels_per_row := max_pixels_per_row |}.

(** ** The outer loops *)

Section outer.
Variable (x : conv_args) (pool_size pool_stride pool_padding : Z).

Definition pool_out_dim_of : Z :=
  s32 (Z.quot (s32 (cv_out_dim x + 2 * pool_padding - pool_size)) pool_stride + 1).

(** [total - i > step ? step : total - i] *)
Definition clip (total i step : Z) : Z := if step <? total - i then step else total - i.

(** The sizes of the tile at the given loop counters. *)
Definition tile_at (t : conv_tile) (b porow pocol poch krow kcol kch : Z) : conv_tile := {|
  ct_batches := clip (cv_batch_size x) b (ct_batches t);
  ct_porows := clip pool_out_dim_of porow (ct_porows t);
  ct_pocols := clip pool_out_dim_of pocol (ct_pocols t);
  ct_pochs := clip (cv_out_channels x) poch (ct_pochs t);
  ct_krows := clip (cv_kernel_dim x) krow (ct_krows t);
  ct_kcols := clip (cv_kernel_dim x) kcol (ct_kcols t);
  ct_kchs := clip (cv_in_channels x) kch (ct_kchs t) |}.

(** Padding before and after [len] positions that start at [pos] in a row of
    [total]; a dilated input pads odd ends by one more. *)
Definition pad_before (pos : Z) : Z := if pos <? 0 then - pos else 0.
Definition pad_after (pos len total : Z) : Z := if total <? pos + len then pos + len - total else 0.
Definition dilated_before (input_dilated : bool) (pos : Z) : Z :=
  let p := pad_before pos in
  if input_dilated then p + b2z ((p =? 0) && negb (Z.rem pos 2 =? 0)) else p.
Definition dilated_after (input_dilated : bool) (pos len total : Z) : Z :=
  let p := pad_after pos len total in
  if input_dilated then p + b2z ((p =? 0) && negb (Z.rem (pos + len) 2 =? 1)) else p.

(** The addresses of a tile in the output, the weights and the input. *)
Definition slice_output (t : conv_tile) (b porow pocol poch krow kcol kch : Z) : Z :=
  let pool_out_dim := pool_out_dim_of in
  if (krow + ct_krows t <? cv_kernel_dim x) || (kcol + ct_kcols t <? cv_kernel_dim x)
     || (kch + ct_kchs t <? cv_in_channels x) then 0
  else if cv_trans_output_1203 x then
    cv_output x + s32 ((porow * pool_out_dim * cv_batch_size x + pocol * cv_batch_size x + b) * cv_out_channels x + poch)
  else cv_output x + s32 ((b * pool_out_dim * pool_out_dim + porow * pool_out_dim + pocol) * cv_out_channels x + poch).

Definition slice_weights (t_ : conv_tile) (poch krow kcol kch : Z) : Z :=
  let krow_ := if cv_wrot180 x then cv_kernel_dim x - krow - ct_krows t_ else krow in
  let kcol_ := if cv_wrot180 x then cv_kernel_dim x - kcol - ct_kcols t_ else kcol in
  cv_weights x +
    (if cv_trans_weight_1203 x then conv_wiho x krow_ kcol_ kch poch
     else if cv_trans_weight_0132 x then conv_hwoi x krow_ kcol_ kch poch
     else conv_hwio x krow_ kcol_ kch poch).

Definition slice_input (input_dilated : bool) (b irow icol upad lpad kch : Z) : Z :=
  let d := b2z input_dilated in
  conv_in_addr x b ((irow + upad) ≫ d) ((icol + lpad) ≫ d) kch.

Definition slice_at (t : conv_tile) (bias : Z) (input_dilated : bool) (b porow pocol poch krow kcol kch : Z) : conv_slice :=
  let t_ := tile_at t b porow pocol poch krow kcol kch in
  let orow := s32 (porow * pool_stride - pool_padding) in
  let ocol := s32 (pocol * pool_stride - pool_padding) in
  let irow := s32 ((if orow <? 0 then 0 else orow) * cv_stride x + krow * cv_kernel_dilation x - cv_padding x) in
  let icol := s32 ((if ocol <? 0 then 0 else ocol) * cv_stride x + kcol * cv_kernel_dilation x - cv_padding x) in
  let dilated_in_dim := s32 (cv_in_dim x + (cv_input_dilation x - 1) * (cv_in_dim x - 1)) in
  let ocols_ := s32 (ct_pocols t_ * pool_stride + pool_size - 1) in
  let orows_ := s32 (ct_porows t_ * pool_stride + pool_size - 1) in
  let plpad := pad_before ocol in
  let prpad := pad_after ocol ocols_ (cv_out_dim x) in
  let pupad := pad_before orow in
  let pdpad := pad_after orow orows_ (cv_out_dim x) in
  let dilated_krows_ := ct_krows t_ + (cv_kernel_dilation x - 1) * (ct_krows t_ - 1) in
  let dilated_kcols_ := ct_kcols t_ + (cv_kernel_dilation x - 1) * (ct_kcols t_ - 1) in
  let icols_ := s32 ((ocols_ - plpad - prpad) * cv_stride x + dilated_kcols_ - 1) in
  let irows_ := s32 ((orows_ - pupad - pdpad) * cv_stride x + dilated_krows_ - 1) in
  let lpad := dilated_before input_dilated icol in
  let rpad := dilated_after input_dilated icol icols_ dilated_in_dim in
  let upad := dilated_before input_dilated irow in
  let dpad := dilated_after input_dilated irow irows_ dilated_in_dim in
  {| cs_tile := t_; cs_lpad := lpad; cs_rpad := rpad; cs_upad := upad; cs_dpad := dpad;
     cs_plpad := plpad; cs_prpad := prpad; cs_pupad := pupad; cs_pdpad := pdpad;
     cs_input := slice_input input_dilated b irow icol upad lpad kch;
     cs_weights := slice_weights t_ poch krow kcol kch;
     cs_output := slice_output t b porow pocol poch krow kcol kch;
     cs_bias := if (0 <? krow) || (0 <? kcol) || (0 <? kch) then 0 else bias + poch * sizeof_acc_t |}.

(** The seven nested loops: the six inner ones, and the one over the batches. *)
Definition conv_batch (t : conv_tile) (body : Z -> Z -> Z -> Z -> Z -> Z -> Z -> M (machine mem) unit) (b : Z) : M (machine mem) unit :=
  for_step_u 31 0 pool_out_dim_of (ct_porows t) (fun porow =>
    for_step_u 31 0 pool_out_dim_of (ct_pocols t) (fun pocol =>
      for_step_u 31 0 (cv_out_channels x) (ct_pochs t) (fun poch =>
        for_step_u 31 0 (cv_kernel_dim x) (ct_krows t) (fun krow =>
          for_step_u 31 0 (cv_kernel_dim x) (ct_kcols t) (fun kcol =>
            for_step_u 31 0 (cv_in_channels x) (ct_kchs t) (fun kch =>
              body b porow pocol poch krow kcol kch)))))).
Definition conv_loops (t : conv_tile) (body : Z -> Z -> Z -> Z -> Z -> Z -> Z -> M (machine mem) unit) : M (machine mem) unit :=
  for_step_u 31 0 (cv_batch_size x) (ct_batches t) (conv_batch t body).
End outer.

(** [downsample] of [tiled_conv]. *)
Definition conv_downsample (x : conv_args) : bool :=
  (cv_stride x =? 2) && (cv_kernel_dim x =? 1) && (Z.rem (cv_in_dim x) 2 =? 0) && (cv_padding x =? 0)
  && (cv_pool_stride x =? 0) && (cv_input_dilation x =? 1) && negb (cv_trans_input_3120 x).

(** Without pooling the window is a single pixel. *)
Definition pool_window (x : conv_args) : Z * Z * Z :=
  if cv_pool_stride x =? 0 then (1, 1, 0) else (cv_pool_size x, cv_pool_stride x, cv_pool_padding x).

Definition rows_args (x : conv_args) (downsample : bool) : spad_rows_args :=
  let '(pool_size, pool_stride, _) := pool_window x in
  {| sr_stride := cv_stride x; sr_input_dilation := cv_input_dilation x; sr_kernel_dilation := cv_kernel_dilation x;
     sr_downsample := downsample; sr_trans_weight_0132 := cv_trans_weight_0132 x;
     sr_trans_input_3120 := cv_trans_input_3120 x; sr_pool_size := pool_size; sr_pool_stride := pool_stride |}.

(** The assertions of [tiled_conv] on the accelerator path. *)
Definition tiled_conv_ok (x : conv_args) (t : conv_tile) : bool :=
  let a := rows_args x (conv_downsample x) in
  (tiled_conv_total_spad_rows false a t <=? BANK_NUM * BANK_ROWS / 2)
  && (tiled_conv_total_spad_rows true a t <=? ACC_ROWS / 2)
  && (cv_padding x <? cv_kernel_dim x) && (cv_input_dilation x <=? 2)
  && negb ((1 <? cv_input_dilation x) && (1 <? cv_stride x))
  && negb (cv_trans_output_1203 x && negb (cv_pool_stride x =? 0))
  && negb (cv_trans_input_3120 x && cv_trans_weight_0132 x).

(** The CPU path clears a pooling of one pixel. *)
Definition cpu_pooling (x : conv_args) : conv_args :=
  if (cv_pool_size x =? 1) && (cv_pool_stride x =? 1) && (cv_pool_padding x =? 0) then
    {| cv_batch_size := cv_batch_size x; cv_in_dim := cv_in_dim x; cv_in_channels := cv_in_channels x;
       cv_out_channels := cv_out_channels x; cv_out_dim := cv_out_dim x; cv_stride := cv_stride x;
       cv_input_dilation := cv_input_dilation x; cv_kernel_dilation := cv_kernel_dilation x; cv_padding := cv_padding x;
       cv_kernel_dim := cv_kernel_dim x; cv_wrot180 := cv_wrot180 x; cv_trans_output_1203 := cv_trans_output_1203 x;
       cv_trans_input_3120 := cv_trans_input_3120 x; cv_trans_weight_1203 := cv_trans_weight_1203 x;
       cv_trans_weight_0132 := cv_trans_weight_0132 x; cv_input := cv_input x; cv_weights := cv_weights x;
       cv_bias := cv_bias x; cv_output := cv_output x; cv_act := cv_act x; cv_scale := cv_scale x;
       cv_relu6_shift := cv_relu6_shift x; cv_pool_size := cv_pool_size x; cv_pool_stride := 0;
       cv_pool_padding := cv_pool_padding x |}
  else x.

Definition conv_accelerated (x : conv_args) (t : conv_tile) : M (machine mem) unit :=
  let no_bias := cv_bias x =? 0 in
  let bias := if no_bias then 1 else cv_bias x in
  let no_pool := cv_pool_stride x =? 0 in
  let '(pool_size, pool_stride, pool_padding) := pool_window x in
  let downsample := conv_downsample x in
  let input_dilated := cv_input_dilation x =? 2 in
  check (negb (cv_input_dilation x =? 0)) Undefined ;;
  check (tiled_conv_ok x t) ExitFailure ;;
  let st_dram_stride :=
    if cv_trans_output_1203 x then u64 (cv_batch_size x * cv_out_channels x * sizeof_elem_t)
    else u64 (cv_out_channels x * sizeof_elem_t) in
  gemmini_extended_config_st st_dram_stride 1 (cv_act x) (cv_scale x) ;;
  gemmini_extended3_config_ex WEIGHT_STATIONARY 0 0 f32_zero (cv_relu6_shift x) (cv_input_dilation x)
    (cv_stride x ≫ b2z downsample) (cv_trans_input_3120 x) (cv_trans_weight_0132 x) 0 0 0 0 0 0 0 false false false ;;
  conv_loops x pool_size pool_stride pool_padding t (fun b porow pocol poch krow kcol kch =>
    sp_tiled_conv x pool_size pool_stride pool_padding (pool_out_dim_of x pool_size pool_stride pool_padding)
      no_bias no_pool downsample input_dilated
      (slice_at x pool_size pool_stride pool_padding t bias input_dilated b porow pocol poch krow kcol kch)).

Definition tiled_conv (x : conv_args) (t : conv_tile) (ty : tiled_matmul_type_t) : M (machine mem) unit :=
  check (negb (cv_trans_weight_1203 x && cv_trans_weight_0132 x)) ExitFailure ;;
  match ty with
  | T_CPU => conv_cpu (cpu_pooling x)
  | T_OS => fail ExitFailure
  | T_WS => conv_accelerated x t
  end.
End kernel.

(** ** Automatic tiling *)

Definition conv_fits (a : spad_rows_args) (t : conv_tile) : bool :=
  (tiled_conv_total_spad_rows false a t <=? BANK_NUM * BANK_ROWS / 2)
  && (tiled_conv_total_spad_rows true a t <=? ACC_ROWS / 2).

(** The largest dimension: the first index whose value exceeds every earlier
    one, the output columns being skipped while they fill at most one block
    and there are rows left to give up; none if every value is negative. *)
Definition conv_max_idx (t : conv_tile) : option nat :=
  snd (foldl (fun (m : Z * option nat) i =>
    let v := tile_get t i in
    if negb ((i =? 2)%nat && (v <=? DIM) && (1 <? ct_porows t)) && (fst m <? v) then (v, Some i) else m)
    (-1, None) (seq 0 7)).

(** One pass of the first loop. *)
Definition conv_shrink (t : conv_tile) : option conv_tile :=
  max_idx ← conv_max_idx t;
  let v := tile_get t max_idx in
  Some (
    if (max_idx =? 3)%nat || (max_idx =? 6)%nat then
      let v := if negb (Z.rem v DIM =? 0) then Z.quot v DIM * DIM else v - DIM in
      tile_set max_idx (if v =? 0 then 1 else v) t
    else tile_set max_idx (v - 1) t).

Fixpoint conv_shrink_loop (fuel : nat) (a : spad_rows_args) (t : conv_tile) : option conv_tile :=
  match fuel with
  | O => None
  | S fuel' => if conv_fits a t then Some t else t' ← conv_shrink t; conv_shrink_loop fuel' a t'
  end.

(** [args[i]++] when the result is within [max_args] and fits. *)
Definition conv_grow (a : spad_rows_args) (max : conv_tile) (i : nat) (t : conv_tile) : conv_tile * bool :=
  let t' := tile_set i (tile_get t i + 1) t in
  if (tile_get t' i <=? tile_get max i) && conv_fits a t' then (t', true) else (t, false).

Fixpoint conv_grow_cols (fuel : nat) (a : spad_rows_args) (max t : conv_tile) : option conv_tile :=
  match fuel with
  | O => None
  | S fuel' =>
      let '(t', grown) := conv_grow a max 2 t in
      if grown then conv_grow_cols fuel' a max t' else Some t'
  end.

(** One pass over the seven dimensions; the flag says whether any grew. *)
Definition conv_grow_pass (a : spad_rows_args) (max t : conv_tile) : conv_tile * bool :=
  foldl (fun (p : conv_tile * bool) i =>
    let '(t', grown) := conv_grow a max i (fst p) in (t', snd p || grown)) (t, false) (seq 0 7).

Fixpoint conv_grow_all (fuel : nat) (a : spad_rows_args) (max t : conv_tile) : option conv_tile :=
  match fuel with
  | O => None
  | S fuel' =>
      let '(t', grown) := conv_grow_pass a max t in
      if grown then conv_grow_all fuel' a max t' else Some t'
  end.

Definition tile_total (t : conv_tile) : nat := Z.to_nat (foldr Z.add 0 (tile_list t)).

(** Every pass of the first loop but the last lowers a dimension, and every
    pass of the others but the last raises one that stays within its
    maximum. *)
Definition conv_search (a : spad_rows_args) (max : conv_tile) : option conv_tile :=
  t ← conv_shrink_loop (S (tile_total max)) a max;
  t ← conv_grow_cols (S (tile_total max)) a max t;
  conv_grow_all (S (tile_total max)) a max t.

Section auto.
Context {mem : Type} `{Mmu mem} `{Rand}.

(** [downsample] of [tiled_conv_auto]. *)
Definition auto_downsample (x : conv_args) : bool :=
  (cv_stride x =? 2) && (cv_kernel_dim x =? 1) && (cv_padding x =? 0) && (cv_pool_stride x =? 0)
  && (Z.rem (cv_in_dim x) 2 =? 0).

Definition max_tile (x : conv_args) : conv_tile :=
  let '(pool_size, pool_stride, pool_padding) := pool_window x in
  let pool_out_dim := pool_out_dim_of x pool_size pool_stride pool_padding in
  {| ct_batches := cv_batch_size x; ct_porows := pool_out_dim; ct_pocols := pool_out_dim;
     ct_pochs := cv_out_channels x; ct_krows := cv_kernel_dim x; ct_kcols := cv_kernel_dim x; ct_kchs := cv_in_channels x |}.

Definition conv_tiles (x : conv_args) : option conv_tile :=
  conv_search (rows_args x (auto_downsample x)) (max_tile x).

(** [pool_size] and [pool_padding] of an unpooled convolution are passed on as
    1 and 0, which [tiled_conv] sets again. *)
Definition tiled_conv_auto (x : conv_args) (ty : tiled_matmul_type_t) : M (machine mem) unit :=
  check (negb (cv_input_dilation x =? 0)) Undefined ;;
  t ← of_option LoopWraps (conv_tiles x);
  tiled_conv x t ty.

(** A strided 1 x 1 convolution as one matrix multiplication per row. *)
Definition downsample_matmul (batch_size in_dim in_channels out_channels out_dim input weights bias output act : Z)
    (scale : float32) (relu6_shift b irow : Z) : matmul_args :=
  let orow := irow / 2 in {|
  ma_dim_I := in_dim / 2; ma_dim_J := out_channels; ma_dim_K := in_channels;
  ma_A := input + (b * in_dim + irow) * in_dim * in_channels; ma_B := weights; ma_D := bias;
  ma_C := output + (b * out_dim + orow) * out_dim * out_channels;
  ma_stride_A := in_channels * 2; ma_stride_B := out_channels; ma_stride_D := out_channels; ma_stride_C := out_channels;
  ma_A_scale := MVIN_SCALE_IDENTITY; ma_B_scale := MVIN_SCALE_IDENTITY; ma_D_scale := 1;
  ma_act := act; ma_scale := scale; ma_relu6_shift := relu6_shift; ma_repeating_bias := true;
  ma_trans_A := false; ma_trans_B := false; ma_full_C := false; ma_low_D := false; ma_weightA := 0 |}.

Definition tiled_conv_downsample (batch_size in_dim in_channels out_channels out_dim input weights bias output act : Z)
    (scale : float32) (relu6_shift : Z) (ty : tiled_matmul_type_t) : M (machine mem) unit :=
  for_range 0 batch_size (fun b =>
    for_step 0 in_dim 2 (fun irow =>
      tiled_matmul_auto (downsample_matmul batch_size in_dim in_channels out_channels out_dim input weights bias output act
        scale relu6_shift b irow) ty)).
End auto.
