(* ===== verification/ConvDw.v ===== *)
(** * ConvDw: the depthwise convolution of the driver

    [sp_tiled_conv_dw], [tiled_conv_total_spad_rows_dw], [tiled_conv_dw] and
    [tiled_conv_auto_dw] of systolic_include.h: one channel at a time. *)

From S2P Require Import Prelude Effects Float32 Params State Dram Fill Scaling Norm Config Move Compute LoopWs LoopConv Counters Dispatch Isa MatmulCpu Matmul ConvCpu Conv.

Record dw_rows_args := { dr_stride : Z; dr_krows : Z; dr_kcols : Z; dr_pool_size : Z; dr_pool_stride : Z }.

Definition tiled_conv_total_spad_rows_dw (acc weight : bool) (a : dw_rows_args) (batches porows pocols ochs kchs : Z) : Z :=
  let orows := s32 (porows * dr_pool_stride a + dr_pool_size a - 1) in
  let ocols := s32 (pocols * dr_pool_stride a + dr_pool_size a - 1) in
  let irows := s32 (orows * dr_stride a + dr_krows a - 1) in
  let icols := s32 (ocols * dr_stride a + dr_kcols a - 1) in
  let in_channels_per_bank := cdiv_int kchs DIM in
  let out_channels_per_bank := cdiv_int ochs DIM in
  let A_rows := s32 (in_channels_per_bank * batches * irows * icols) in
  let B_rows := s32 (out_channels_per_bank * dr_kcols a * dr_krows a * kchs) in
  let C_rows := s32 (out_channels_per_bank * batches * orows * ocols) in
  if acc then C_rows else if weight then B_rows else A_rows.

Section depthwise.
Context {mem : Type} `{Mmu mem} `{Rand}.
(** The static array [zeros] of [MAX_BYTES] zero bytes is at this address. *)
Variable (zeros : Z).
Variable (x : conv_args).

(** The arguments of one tile. *)
Record dw_slice := {
  ds_batches : Z; ds_porows : Z; ds_pocols : Z;
  ds_lpad : Z; ds_rpad : Z; ds_upad : Z; ds_dpad : Z; ds_plpad : Z; ds_prpad : Z; ds_pupad : Z; ds_pdpad : Z;
  ds_input : Z; ds_weights : Z; ds_output : Z; ds_bias : Z }.

Definition dw_B_start : Z := u32 ((BANK_NUM - 1) * BANK_ROWS).
Definition dw_D_start : Z := u32 (1 ≪ (ADDR_LEN - 1)).
Definition dw_C_start : Z := u32 (3 ≪ (ADDR_LEN - 2)).

(** [n > DIM ? DIM : n] *)
Definition upto_dim (n : Z) : Z := if DIM <? n then DIM else n.

Definition dw_orows (pool_size pool_stride : Z) (d : dw_slice) : Z :=
  s32 (ds_porows d * pool_stride + pool_size - 1 - ds_pupad d - ds_pdpad d).
Definition dw_ocols (pool_size pool_stride : Z) (d : dw_slice) : Z :=
  s32 (ds_pocols d * pool_stride + pool_size - 1 - ds_plpad d - ds_prpad d).

Definition dw_mvin_bias (d : dw_slice) (odims : Z) : M (machine mem) unit :=
  gemmini_config_ld 0 ;;
  for_range 0 (ds_batches d) (fun b =>
    let D_sp_addr := u32 (dw_D_start + b * odims) in
    for_step_u 31 0 odims DIM (fun odim =>
      gemmini_extended_mvin (ds_bias d) (u32 (D_sp_addr + odim)) 1 (upto_dim (odims - odim)))).

Definition dw_mvin_weights (d : dw_slice) : M (machine mem) unit :=
  gemmini_config_ld (u64 (cv_out_channels x * sizeof_elem_t)) ;;
  for_range 0 (cv_kernel_dim x) (fun krow =>
    let B_sp_addr := u32 (dw_B_start + krow * cv_kernel_dim x) in
    for_range 0 (cv_kernel_dim x) (fun kcol =>
      gemmini_extended_mvin (ds_weights d + s32 ((krow * cv_kernel_dim x + kcol) * cv_out_channels x))
        (u32 (B_sp_addr + kcol)) 1 1)).

(** The move of one run of pixels of an input row, and the next column. *)
Definition dw_mvin_pixels (d : dw_slice) (b irow icols icols_unpadded irows_unpadded idims icol : Z) : M (machine mem) Z :=
  let irow_padded := irow + ds_upad d in
  let I :=
    if icol <? 0 then upto_dim (- icol)
    else if icols_unpadded <=? icol then upto_dim (icols_unpadded + ds_rpad d - icol)
    else upto_dim (icols_unpadded - icol) in
  let is_zeros := (irow <? 0) || (irows_unpadded <=? irow) || (icol <? 0) || (icols_unpadded <=? icol) in
  let icol_padded := icol + ds_lpad d in
  let A_sp_addr := u32 (b * idims + irow_padded * icols + icol_padded) in
  (if is_zeros then
     gemmini_config_ld 0 ;;
     gemmini_extended_mvin zeros A_sp_addr 1 I ;;
     gemmini_config_ld (u64 (cv_in_channels x * sizeof_elem_t))
   else
     gemmini_extended_mvin
       (ds_input d + s32 ((b * cv_in_dim x * cv_in_dim x + irow * cv_in_dim x + icol) * cv_in_channels x))
       A_sp_addr 1 I) ;;
  mret (icol + I).

(** Each run advances the column by at least one. *)
Definition dw_mvin_input (d : dw_slice) (icols irows_unpadded icols_unpadded idims : Z) : M (machine mem) unit :=
  gemmini_config_ld (u64 (cv_in_channels x * sizeof_elem_t)) ;;
  for_range 0 (ds_batches d) (fun b =>
    for_range (- ds_upad d) (irows_unpadded + ds_dpad d) (fun irow =>
      while_counter (Z.to_nat (icols_unpadded + ds_rpad d + ds_lpad d))
        (fun icol => icol <? icols_unpadded + ds_rpad d)
        (dw_mvin_pixels d b irow icols icols_unpadded irows_unpadded idims) (- ds_lpad d))).

(** Each kernel position preloads its weight and multiplies the same block of
    the input; the im2col unit that would shift the block is not configured
    by [gemmini_extended2_config_ex]. *)
Definition dw_compute (d : dw_slice) (odims idims kdims : Z) : M (machine mem) unit :=
  for_range 0 (ds_batches d) (fun b =>
    let C_sp_addr_outer := u32 (dw_C_start + b * odims) in
    let A_sp_addr := u32 (b * idims) in
    for_step_u 31 0 odims DIM (fun odim =>
      let I := upto_dim (odims - odim) in
      let C_sp_addr := u32 (C_sp_addr_outer + odim) in
      for_range 0 kdims (fun kkdim =>
        gemmini_extended_preload (u32 (dw_B_start + kkdim)) C_sp_addr 1 1 1 I ;;
        gemmini_extended_compute_preloaded A_sp_addr GARBAGE_ADDR 1 I 1 I))).

Definition dw_mvout (d : dw_slice) (orows ocols : Z) : M (machine mem) unit :=
  for_range 0 (ds_batches d) (fun b =>
    for_range 0 orows (fun orow =>
      for_step_u 31 0 ocols DIM (fun ocol =>
        let C_sp_addr := u32 (dw_C_start + b * orows * ocols + orow * ocols + ocol) in
        gemmini_extended_mvout
          (ds_output d + s32 ((b * cv_out_dim x * cv_out_dim x + orow * cv_out_dim x + ocol) * cv_out_channels x))
          C_sp_addr 1 (upto_dim (ocols - ocol))))).

Definition sp_tiled_conv_dw (pool_size pool_stride : Z) (no_bias mvin_weight : bool) (d : dw_slice) : M (machine mem) unit :=
  let orows := dw_orows pool_size pool_stride d in
  let ocols := dw_ocols pool_size pool_stride d in
  let irows := s32 ((orows - 1) * cv_stride x + cv_kernel_dim x) in
  let icols := s32 ((ocols - 1) * cv_stride x + cv_kernel_dim x) in
  let irows_unpadded := irows - ds_upad d - ds_dpad d in
  let icols_unpadded := icols - ds_lpad d - ds_rpad d in
  let kdims := s32 (cv_kernel_dim x * cv_kernel_dim x) in
  let odims := s32 (ocols * orows) in
  let idims := s32 (irows * icols) in
  gemmini_extended2_config_ex WEIGHT_STATIONARY (cv_act x) 0 (cv_relu6_shift x) 1 false false ;;
  when (negb no_bias && negb (ds_bias d =? 0)) (dw_mvin_bias d odims) ;;
  when mvin_weight (dw_mvin_weights d) ;;
  dw_mvin_input d icols irows_unpadded icols_unpadded idims ;;
  dw_compute d odims idims kdims ;;
  dw_mvout d orows ocols.

Definition dw_rows (pool_size pool_stride : Z) : dw_rows_args :=
  {| dr_stride := cv_stride x; dr_krows := cv_kernel_dim x; dr_kcols := cv_kernel_dim x;
     dr_pool_size := pool_size; dr_pool_stride := pool_stride |}.

Definition tiled_conv_dw_ok (pool_size pool_stride batches porows pocols : Z) : bool :=
  let rows acc weight := tiled_conv_total_spad_rows_dw acc weight (dw_rows pool_size pool_stride) batches porows pocols 1 1 in
  (rows false true <=? BANK_ROWS * 1) && (rows false false <=? BANK_ROWS * (BANK_NUM - 1)) && (rows true false <=? ACC_ROWS).

Definition dw_slice_at (pool_size pool_stride pool_padding batches porows pocols bias b porow pocol poch : Z) : dw_slice :=
  let pool_out_dim := pool_out_dim_of x pool_size pool_stride pool_padding in
  let orow := s32 (porow * pool_stride - pool_padding) in
  let ocol := s32 (pocol * pool_stride - pool_padding) in
  let irow := s32 ((if orow <? 0 then 0 else orow) * cv_stride x - cv_padding x) in
  let icol := s32 ((if ocol <? 0 then 0 else ocol) * cv_stride x - cv_padding x) in
  let batches_ := clip (cv_batch_size x) b batches in
  let porows_ := clip pool_out_dim porow porows in
  let pocols_ := clip pool_out_dim pocol pocols in
  let ocols_ := s32 (pocols_ * pool_stride + pool_size - 1) in
  let orows_ := s32 (porows_ * pool_stride + pool_size - 1) in
  let plpad := pad_before ocol in
  let prpad := pad_after ocol ocols_ (cv_out_dim x) in
  let pupad := pad_before orow in
  let pdpad := pad_after orow orows_ (cv_out_dim x) in
  let icols_ := s32 ((ocols_ - 1 - plpad - prpad) * cv_stride x + cv_kernel_dim x) in
  let irows_ := s32 ((orows_ - 1 - pupad - pdpad) * cv_stride x + cv_kernel_dim x) in
  let lpad := pad_before icol in
  let rpad := pad_after icol icols_ (cv_in_dim x) in
  let upad := pad_before irow in
  let dpad := pad_after irow irows_ (cv_in_dim x) in
  {| ds_batches := batches_; ds_porows := porows_; ds_pocols := pocols_;
     ds_lpad := lpad; ds_rpad := rpad; ds_upad := upad; ds_dpad := dpad;
     ds_plpad := plpad; ds_prpad := prpad; ds_pupad := pupad; ds_pdpad := pdpad;
     ds_input := cv_input x
       + s32 ((b * cv_in_dim x * cv_in_dim x + (irow + upad) * cv_in_dim x + (icol + lpad)) * cv_in_channels x + poch);
     ds_weights := cv_weights x + poch;
     ds_output := cv_output x
       + s32 ((b * pool_out_dim * pool_out_dim + porow * pool_out_dim + pocol) * cv_out_channels x + poch);
     ds_bias := bias + poch * sizeof_acc_t |}.

Definition tiled_conv_dw (batches porows pocols : Z) : M (machine mem) unit :=
  let no_bias := cv_bias x =? 0 in
  let bias := if no_bias then 1 else cv_bias x in
  let no_pool := cv_pool_stride x =? 0 in
  let '(pool_size, pool_stride, pool_padding) := pool_window x in
  check (tiled_conv_dw_ok pool_size pool_stride batches porows pocols) ExitFailure ;;
  let pool_out_dim := pool_out_dim_of x pool_size pool_stride pool_padding in
  when no_pool (gemmini_config_st (cv_out_channels x) sizeof_elem_t) ;;
  for_step_u 31 0 (cv_batch_size x) batches (fun b =>
    for_step_u 31 0 pool_out_dim porows (fun porow =>
      for_step_u 31 0 pool_out_dim pocols (fun pocol =>
        for_range 0 (cv_out_channels x) (fun poch =>
          sp_tiled_conv_dw pool_size pool_stride no_bias true
            (dw_slice_at pool_size pool_stride pool_padding batches porows pocols bias b porow pocol poch))))).
End depthwise.

(** ** Automatic tiling: batches, output rows and columns *)

Fixpoint dw_shrink (fuel : nat) (a : dw_rows_args) (batches porows pocols : Z) : option (Z * Z * Z) :=
  match fuel with
  | O => None
  | S fuel' =>
      if ACC_ROWS <? tiled_conv_total_spad_rows_dw true false a batches porows pocols 1 1 then
        if negb (porows =? 1) then dw_shrink fuel' a batches (porows - 1) (pocols - 1)
        else dw_shrink fuel' a (batches - 1) porows pocols
      else Some (batches, porows, pocols)
  end.

Definition dw_tiles (x : conv_args) : option (Z * Z * Z) :=
  let '(pool_size, pool_stride, pool_padding) := pool_window x in
  let pool_out_dim := pool_out_dim_of x pool_size pool_stride pool_padding in
  dw_shrink (S (Z.to_nat (cv_batch_size x + pool_out_dim))) (dw_rows x pool_size pool_stride)
    (cv_batch_size x) pool_out_dim pool_out_dim.

Definition tiled_conv_auto_dw {mem} `{Mmu mem} `{Rand} (zeros : Z) (x : conv_args) : M (machine mem) unit :=
  t ← of_option LoopWraps (dw_tiles x);
  let '(batches, porows, pocols) := t in
  tiled_conv_dw zeros x batches porows pocols.
