(* ===== verification/ConvSpec.v ===== *)
(** * ConvSpec: the tile search of the convolutions

    [tiled_conv_auto] shrinks the whole convolution until it fits half of the
    scratchpad and half of the accumulator, then grows each dimension again as far
    as possible; [tiled_conv_auto_dw] only shrinks.  Both searches end with tiles
    that fit; they end with a tile of no batches when a single output position is
    already too large. *)

From S2P Require Import Prelude Effects Float32 Params State Dram Fill Scaling Norm Config Move Compute LoopWs LoopConv Counters Dispatch Invariant Isa MatmulCpu Matmul ConvCpu Conv ConvDw.

(** ** Tiles *)

Ltac dim_cases i := destruct i as [|[|[|[|[|[|[|?]]]]]]]; [..|lia].

Lemma tile_get_set i j v t : (i < 7)%nat -> (j < 7)%nat ->
  tile_get (tile_set i v t) j = if decide (i = j) then v else tile_get t j.
Proof. intros Hi Hj. destruct t. dim_cases i; dim_cases j; reflexivity. Qed.

Definition total (t : conv_tile) : Z := foldr Z.add 0 (tile_list t).

Lemma total_set i v t : (i < 7)%nat -> total (tile_set i v t) = total t - tile_get t i + v.
Proof. intros Hi. destruct t. dim_cases i; unfold total, tile_get; simpl; lia. Qed.

Lemma tile_ext t t' : (forall i, (i < 7)%nat -> tile_get t i = tile_get t' i) -> t = t'.
Proof.
  intros He. destruct t, t'. unfold tile_get in He. f_equal;
    [apply (He 0%nat)|apply (He 1%nat)|apply (He 2%nat)|apply (He 3%nat)|apply (He 4%nat)|apply (He 5%nat)|apply (He 6%nat)]; lia.
Qed.

Lemma total_le t t' : (forall i, (i < 7)%nat -> tile_get t i <= tile_get t' i) -> total t <= total t'.
Proof.
  intros Hle. pose proof (Hle 0%nat ltac:(lia)). pose proof (Hle 1%nat ltac:(lia)). pose proof (Hle 2%nat ltac:(lia)).
  pose proof (Hle 3%nat ltac:(lia)). pose proof (Hle 4%nat ltac:(lia)). pose proof (Hle 5%nat ltac:(lia)).
  pose proof (Hle 6%nat ltac:(lia)). destruct t, t'. unfold total, tile_get in *. simpl in *. lia.
Qed.

(** ** Shrinking *)

(** The scan for the largest value. *)
Lemma scan_spec (skip : nat -> bool) (f : nat -> Z) l v0 o0 :
  let r := foldl (fun (m : Z * option nat) i => if negb (skip i) && (fst m <? f i) then (f i, Some i) else m) (v0, o0) l in
  (forall i, i ∈ l -> skip i = false -> f i <= r.1) /\ v0 <= r.1 /\
  (r = (v0, o0) \/ exists i, i ∈ l /\ r = (f i, Some i) /\ v0 < f i).
Proof.
  revert v0 o0. induction l as [|j l IH]; intros v0 o0 r; [split_and!; [by intros i ?%elem_of_nil|done|by left]|].
  unfold r. simpl. destruct (negb (skip j) && (v0 <? f j)) eqn:E.
  - destruct (IH (f j) (Some j)) as (Hall & Hle & Hr). assert (skip j = false /\ v0 < f j) as [_ Hlt] by (destruct (skip j); simpl in E; [done|lia]).
    split_and!; [|lia|right].
    + intros i [->|Hi]%elem_of_cons Hs; [lia|by apply Hall].
    + destruct Hr as [->|(i & Hi & -> & Hlt')]; [exists j|exists i]; rewrite elem_of_cons; split_and!; auto; lia.
  - destruct (IH v0 o0) as (Hall & Hle & Hr). split_and!; [|lia|].
    + intros i [->|Hi]%elem_of_cons Hs; [rewrite Hs in E; simpl in E; lia|by apply Hall].
    + destruct Hr as [->|(i & Hi & -> & Hlt')]; [by left|right; exists i; rewrite elem_of_cons; auto].
Qed.

(** Every dimension is at least 1. *)
Definition positive (t : conv_tile) : Prop := forall i, (i < 7)%nat -> 1 <= tile_get t i.

(** The scan picks the batches, or a dimension that is larger than 1; whatever is
    larger than the batches, if they are picked at 1, does not exist. *)
Lemma conv_max_idx_spec t : positive t ->
  exists i, conv_max_idx t = Some i /\ (i < 7)%nat /\ (2 <= tile_get t i \/ i = 0%nat /\ forall j, (j < 7)%nat -> tile_get t j = 1).
Proof.
  intros Hp. unfold conv_max_idx. change (seq 0 7) with (0%nat :: seq 1 6). cbn [foldl fst].
  pose proof (Hp 0%nat ltac:(lia)) as H0. assert ((-1 <? tile_get t 0) = true) as E0 by lia. rewrite E0. cbn [Nat.eqb negb andb].
  set (skip := fun i => (i =? 2)%nat && (tile_get t i <=? DIM) && (1 <? ct_porows t)).
  destruct (scan_spec skip (tile_get t) (seq 1 6) (tile_get t 0) (Some 0%nat)) as (Hall & _ & Hr).
  match goal with |- context [foldl ?f ?a ?l] => set (r := foldl f a l) end.
  match type of Hr with context [foldl ?f ?a ?l] => change (foldl f a l) with r in Hr, Hall end. destruct Hr as [Hr|(i & Hi & Hr & Hlt)].
  - exists 0%nat. rewrite Hr. split_and!; [done|lia|]. destruct (decide (2 <= tile_get t 0)) as [|Hone]; [by left|right].
    split; [done|]. rewrite Hr in Hall. simpl in Hall.
    assert (forall j, j ∈ seq 1 6 -> skip j = false -> tile_get t j = 1) as Hj.
    { intros j Hin Hs. pose proof (Hp j ltac:(apply elem_of_seq in Hin; lia)). pose proof (Hall j Hin Hs). lia. }
    assert (tile_get t 1 = 1) as H1 by (apply Hj; [apply elem_of_seq; lia|done]).
    intros j Hlt. destruct j as [|j]; [lia|]. apply Hj; [apply elem_of_seq; lia|]. unfold skip.
    change (ct_porows t) with (tile_get t 1). rewrite H1. by rewrite andb_false_r.
  - exists i. apply elem_of_seq in Hi. rewrite Hr. split_and!; [done|lia|left; lia].
Qed.

Definition ones : conv_tile := Build_conv_tile 1 1 1 1 1 1 1.
Definition no_batches : conv_tile := Build_conv_tile 0 1 1 1 1 1 1.

Definition below (t t' : conv_tile) : Prop := forall i, (i < 7)%nat -> tile_get t i <= tile_get t' i.

(** A smaller value for a channel dimension: a multiple of a block, or 1. *)
Definition channels_below (v : Z) : Z :=
  let v := if negb (Z.rem v DIM =? 0) then Z.quot v DIM * DIM else v - DIM in if v =? 0 then 1 else v.

Lemma channels_below_spec v : 2 <= v -> 1 <= channels_below v < v.
Proof.
  intros Hv. unfold channels_below, DIM. rewrite Z.rem_mod_nonneg, Z.quot_div_nonneg by lia.
  destruct (Z.eqb_spec (v mod 16) 0); cbn [negb]; case_match; zlia.
Qed.

Lemma tile_set_smaller i v t : positive t -> (i < 7)%nat -> 1 <= v < tile_get t i ->
  positive (tile_set i v t) /\ below (tile_set i v t) t /\ total (tile_set i v t) < total t.
Proof.
  intros Hp Hi Hv. split_and!.
  - intros j Hj. rewrite tile_get_set by done. case_decide; [lia|by apply Hp].
  - intros j Hj. rewrite tile_get_set by done. case_decide; subst; lia.
  - rewrite total_set by done. lia.
Qed.

(** One pass lowers a dimension of a tile of positive dimensions, which stays so
    unless it was a single position. *)
Lemma conv_shrink_spec t : positive t ->
  exists t', conv_shrink t = Some t' /\ below t' t /\ total t' < total t /\ (positive t' \/ t = ones /\ t' = no_batches).
Proof.
  intros Hp. destruct (conv_max_idx_spec t Hp) as (i & Ei & Hi & Hcase). unfold conv_shrink. rewrite Ei. cbn [mbind option_bind].
  destruct Hcase as [Hv|[-> Hone]].
  - destruct ((i =? 3)%nat || (i =? 6)%nat); (eexists; split; [done|]).
    + destruct (tile_set_smaller i (channels_below (tile_get t i)) t Hp Hi) as (? & ? & ?); [by apply channels_below_spec|]. auto.
    + destruct (tile_set_smaller i (tile_get t i - 1) t Hp Hi) as (? & ? & ?); [lia|]. auto.
  - assert (t = ones) as -> by (apply tile_ext; intros j Hj; rewrite (Hone j Hj); by dim_cases j).
    eexists. split; [done|]. split_and!; [intros j Hj; by dim_cases j|done|by right].
Qed.

(** No batches need a row of weights at most. *)
Lemma no_batches_fit a : conv_fits a no_batches = true.
Proof.
  unfold conv_fits, tiled_conv_total_spad_rows, no_batches. cbn [ct_batches ct_porows ct_pocols ct_pochs ct_krows ct_kcols ct_kchs].
  change (cdiv_int 1 DIM) with 1. change (cdiv_int 0 DIM) with 0. rewrite !Z.mul_0_r, !Z.mul_0_l.
  by destruct (sr_trans_input_3120 a), (sr_trans_weight_0132 a).
Qed.

(** What the search for a tile keeps: it lies within the convolution, and has no
    batches only when not even a single position fits. *)
Definition good_tile (a : spad_rows_args) (max t : conv_tile) : Prop :=
  conv_fits a t = true /\ below t max /\ (forall i, (i < 7)%nat -> 0 <= tile_get t i) /\
  (forall i, (0 < i < 7)%nat -> 1 <= tile_get t i) /\ (conv_fits a ones = true -> positive t).

Lemma conv_shrink_loop_spec a max fuel t : positive t -> below t max -> total t < Z.of_nat fuel ->
  exists t', conv_shrink_loop fuel a t = Some t' /\ good_tile a max t'.
Proof.
  revert t. induction fuel as [|fuel IH]; intros t Hp Hb Hf.
  { pose proof (total_le ones t ltac:(intros j Hj; pose proof (Hp j Hj); by dim_cases j)). change (total ones) with 7 in *. lia. }
  cbn [conv_shrink_loop]. destruct (conv_fits a t) eqn:Efit.
  - exists t. split; [done|]. split_and!; try done; intros i Hi; pose proof (Hp i ltac:(lia)); lia.
  - destruct (conv_shrink_spec t Hp) as (t' & -> & Hb' & Ht' & Hcase). cbn [mbind option_bind].
    destruct Hcase as [Hp'|[-> ->]].
    + apply IH; [done| |lia]. intros i Hi. pose proof (Hb i Hi). pose proof (Hb' i Hi). lia.
    + assert (0 < Z.of_nat fuel) by (change (total ones) with 7 in Hf; lia). destruct fuel as [|fuel]; [lia|].
      cbn [conv_shrink_loop]. rewrite no_batches_fit. exists no_batches. split; [done|]. split_and!; [apply no_batches_fit| | | |by rewrite Efit].
      * intros i Hi. pose proof (Hb i Hi). pose proof (Hb' i Hi). lia.
      * intros i Hi. by dim_cases i.
      * intros i Hi. by dim_cases i; try lia.
Qed.

(** ** Growing *)

Section growing.
Context (a : spad_rows_args) (max : conv_tile).

(** Dimension [i] of the tile cannot be increased. *)
Definition stuck (t : conv_tile) (i : nat) : Prop :=
  tile_get t i < tile_get max i -> conv_fits a (tile_set i (tile_get t i + 1) t) = false.

Lemma conv_grow_spec i t : (i < 7)%nat -> good_tile a max t ->
  let '(t', grown) := conv_grow a max i t in
  good_tile a max t' /\ if grown : bool then total t' = total t + 1 else t' = t /\ stuck t i.
Proof.
  intros Hi (Hf & Hb & Hn & H1 & Hp). unfold conv_grow. rewrite tile_get_set, decide_True by done.
  destruct (_ && _) eqn:E.
  - apply andb_prop in E as [Hle Hfit]. pose proof (Hn i Hi) as Hni. split; [|rewrite total_set by done; lia].
    split_and!; [done|intros j Hj|intros j Hj|intros j Hj|intros Ho j Hj]; rewrite tile_get_set by lia; case_decide; subst.
    all: try specialize (Hp Ho); (lia || by auto with lia).
  - split; [done|]. split; [done|]. intros Hlt. apply andb_false_iff in E as [E|E]; [lia|done].
Qed.

Lemma good_total t : good_tile a max t -> total t <= total max.
Proof. intros (_ & Hb & _). by apply total_le. Qed.

Lemma conv_grow_cols_spec fuel t : good_tile a max t -> total max - total t < Z.of_nat fuel ->
  exists t', conv_grow_cols fuel a max t = Some t' /\ good_tile a max t' /\ total t <= total t'.
Proof.
  revert t. induction fuel as [|fuel IH]; intros t Hg Hf; [pose proof (good_total t Hg); lia|]. cbn [conv_grow_cols].
  pose proof (conv_grow_spec 2 t ltac:(lia) Hg) as Hstep. destruct (conv_grow a max 2 t) as [t' []], Hstep as [Hg' Ht'].
  - destruct (IH t' Hg') as (t2 & E & Hg2 & Hle); [lia|]. exists t2. split_and!; [done..|lia].
  - exists t'. destruct Ht' as [-> _]. split_and!; [done..|lia].
Qed.

Lemma conv_grow_fold_spec l t b : (forall i, i ∈ l -> (i < 7)%nat) -> good_tile a max t ->
  let '(t', b') := foldl (fun (p : conv_tile * bool) i =>
    let '(t', grown) := conv_grow a max i (fst p) in (t', snd p || grown)) (t, b) l in
  good_tile a max t' /\ total t <= total t' /\
  (b' = b /\ t' = t /\ (forall i, i ∈ l -> stuck t i) \/ b' = true /\ total t < total t').
Proof.
  revert t b. induction l as [|i l IH]; intros t b Hl Hg.
  { simpl. split_and!; [done..|]. left. split_and!; [done..|]. by intros i ?%elem_of_nil. }
  cbn [foldl fst snd]. pose proof (conv_grow_spec i t (Hl i ltac:(left)) Hg) as Hstep.
  destruct (conv_grow a max i t) as [t1 g], Hstep as [Hg1 Ht1].
  specialize (IH t1 (b || g) ltac:(intros j Hj; apply Hl; by right) Hg1).
  destruct (foldl _ (t1, b || g) l) as [t2 b2], IH as (Hg2 & Hle & Hcase). destruct g.
  - split_and!; [done|lia|]. right. rewrite orb_true_r in Hcase. destruct Hcase as [(-> & -> & _)|[-> ?]]; split; (done || lia).
  - destruct Ht1 as [-> Hs]. rewrite orb_false_r in Hcase. split_and!; [done..|].
    destruct Hcase as [(-> & -> & Hst)|[-> ?]]; [left|by right]. split_and!; [done..|].
    intros j [->|Hj]%elem_of_cons; auto.
Qed.

Lemma conv_grow_all_spec fuel t : good_tile a max t -> total max - total t < Z.of_nat fuel ->
  exists t', conv_grow_all fuel a max t = Some t' /\ good_tile a max t' /\ forall i, (i < 7)%nat -> stuck t' i.
Proof.
  revert t. induction fuel as [|fuel IH]; intros t Hg Hf; [pose proof (good_total t Hg); lia|]. cbn [conv_grow_all].
  unfold conv_grow_pass. pose proof (conv_grow_fold_spec (seq 0 7) t false ltac:(intros i Hi; apply elem_of_seq in Hi; lia) Hg) as Hstep.
  destruct (foldl _ (t, false) (seq 0 7)) as [t' b], Hstep as (Hg' & _ & [(-> & -> & Hs)|[-> Hlt]]).
  - exists t. split_and!; [done..|]. intros i Hi. apply Hs, elem_of_seq. lia.
  - apply IH; [done|lia].
Qed.
End growing.

Lemma conv_search_spec a max : positive max ->
  exists t, conv_search a max = Some t /\ conv_fits a t = true /\
    (forall i, (i < 7)%nat -> (if decide (i = 0%nat) then 0 else 1) <= tile_get t i <= tile_get max i) /\
    (conv_fits a ones = true -> positive t) /\
    forall i, (i < 7)%nat -> tile_get t i < tile_get max i -> conv_fits a (tile_set i (tile_get t i + 1) t) = false.
Proof.
  intros Hp. assert (0 <= total max) as Hpos.
  { pose proof (total_le ones max ltac:(intros j Hj; pose proof (Hp j Hj); by dim_cases j)). change (total ones) with 7 in *. lia. }
  unfold conv_search. change (tile_total max) with (Z.to_nat (total max)).
  destruct (conv_shrink_loop_spec a max (S (Z.to_nat (total max))) max Hp) as (t1 & -> & G1); [by intros i _|lia|]. cbn [mbind option_bind].
  assert (0 <= total t1).
  { destruct G1 as (_ & _ & Hn & _). apply (total_le (Build_conv_tile 0 0 0 0 0 0 0) t1). intros j Hj. pose proof (Hn j Hj). by dim_cases j. }
  destruct (conv_grow_cols_spec a max (S (Z.to_nat (total max))) t1 G1) as (t2 & -> & G2 & Hle2); [lia|]. cbn [mbind option_bind].
  destruct (conv_grow_all_spec a max (S (Z.to_nat (total max))) t2 G2) as (t3 & -> & (Hf & Hb & Hn & H1 & Hq) & Hs); [lia|].
  exists t3. split_and!; [done..| |done|done]. intros i Hi. split; [|by apply Hb]. case_decide; [by apply Hn|apply H1; lia].
Qed.

(** C31: the tile search of [tiled_conv_auto] ends.  For a convolution without
    empty dimensions it returns a tile that lies within the convolution, fits half of
    the scratchpad and half of the accumulator, and of which no dimension can be
    increased; all its dimensions are positive if a single position fits, and the
    dimensions other than the batches are positive in any case. *)
Theorem conv_search_correct a max : positive max ->
  exists t, conv_search a max = Some t /\ conv_fits a t = true /\
    (forall i, (i < 7)%nat -> (if decide (i = 0%nat) then 0 else 1) <= tile_get t i <= tile_get max i) /\
    (conv_fits a ones = true -> positive t) /\
    forall i, (i < 7)%nat -> tile_get t i < tile_get max i -> conv_fits a (tile_set i (tile_get t i + 1) t) = false.
Proof. apply conv_search_spec. Qed.

(** A 3 x 3 convolution of a 56 x 56 image with 64 channels. *)
Definition demo_conv (out_dim stride pool_size pool_stride : Z) : conv_args := {|
  cv_batch_size := 4; cv_in_dim := 56; cv_in_channels := 64; cv_out_channels := 64; cv_out_dim := out_dim;
  cv_stride := stride; cv_input_dilation := 1; cv_kernel_dilation := 1; cv_padding := 1; cv_kernel_dim := 3;
  cv_wrot180 := false; cv_trans_output_1203 := false; cv_trans_input_3120 := false;
  cv_trans_weight_1203 := false; cv_trans_weight_0132 := false;
  cv_input := 0x1000; cv_weights := 0x100000; cv_bias := 0; cv_output := 0x200000;
  cv_act := 0; cv_scale := f32_one; cv_relu6_shift := 0;
  cv_pool_size := pool_size; cv_pool_stride := pool_stride; cv_pool_padding := 0 |}.

Lemma conv_search_correct_witness :
  let a := rows_args (demo_conv 56 1 0 0) false in
  exists t, conv_search a (max_tile (demo_conv 56 1 0 0)) = Some t /\ conv_fits a t = true /\ positive t.
Proof.
  destruct (conv_search_correct (rows_args (demo_conv 56 1 0 0) false) (max_tile (demo_conv 56 1 0 0))) as (t & E & F & _ & P & _).
  - intros i Hi. dim_cases i; by vm_compute.
  - exists t. split_and!; [exact E|exact F|]. apply P. by vm_compute.
Defined.

(** ** A pooling window that is too large *)

(** A pooled convolution without empty dimensions of which not even one pooled position
    fits half of the accumulator, as the driver counts its rows; the counts stay within
    an [int]. *)
Record large_window (x : conv_args) : Prop := {
  lw_positive : positive (max_tile x);
  lw_pool : 1 <= cv_pool_stride x /\ 1 <= cv_pool_size x;
  lw_large : ACC_ROWS / 2 < (cv_pool_stride x + cv_pool_size x - 1) * (cv_pool_stride x + cv_pool_size x - 1);
  lw_int : let side := ct_porows (max_tile x) * cv_pool_stride x + cv_pool_size x - 1 in
    side < 2 ^ 31 /\ cdiv_int (cv_out_channels x) DIM * cv_batch_size x * side * side < 2 ^ 31 }.

(** What [tiled_conv] asserts besides the sizes of the tile. *)
Definition conv_args_ok (x : conv_args) : bool :=
  (cv_padding x <? cv_kernel_dim x) && (cv_input_dilation x <=? 2)
  && negb ((1 <? cv_input_dilation x) && (1 <? cv_stride x))
  && negb (cv_trans_output_1203 x && negb (cv_pool_stride x =? 0))
  && negb (cv_trans_input_3120 x && cv_trans_weight_0132 x).

Lemma cdiv_int_mono a b : 1 <= a <= b -> 1 <= cdiv_int a DIM <= cdiv_int b DIM.
Proof.
  intros Hab. unfold cdiv_int, DIM. rewrite !Z.quot_div_nonneg, !Z.rem_mod_nonneg by lia. unfold b2z.
  destruct (Z.eqb_spec (a mod 16) 0), (Z.eqb_spec (b mod 16) 0); cbn [negb]; zlia.
Qed.

Section window.
Context (x : conv_args) (Hx : large_window x).
Notation side n := (n * cv_pool_stride x + cv_pool_size x - 1).

Lemma large_pool_window : pool_window x = (cv_pool_size x, cv_pool_stride x, cv_pool_padding x).
Proof using Hx. unfold pool_window. destruct (lw_pool x Hx). by rewrite (proj2 (Z.eqb_neq (cv_pool_stride x) 0)) by lia. Qed.

(** A tile with a batch does not fit. *)
Lemma large_window_rows d t : (forall i, (i < 7)%nat -> 1 <= tile_get t i <= tile_get (max_tile x) i) ->
  conv_fits (rows_args x d) t = false.
Proof using Hx.
  intros Ht. pose proof large_pool_window as Ew. destruct (lw_int x Hx) as [I1 I2], (lw_pool x Hx) as [Hs Hz]. pose proof (lw_large x Hx) as Hl.
  pose proof (Ht 0%nat ltac:(lia)) as Tb. pose proof (Ht 1%nat ltac:(lia)) as Tr. pose proof (Ht 2%nat ltac:(lia)) as Tc. pose proof (Ht 3%nat ltac:(lia)) as To.
  unfold max_tile in *. rewrite Ew in *. unfold tile_get in Tb, Tr, Tc, To. cbn [tile_list lookup list_lookup default ct_batches ct_porows ct_pocols ct_pochs] in *. unfold id in Tb, Tr, Tc, To.
  set (n := pool_out_dim_of x _ _ _) in *. pose proof (cdiv_int_mono _ _ To) as Hc.
  assert (forall v, 1 <= v <= n -> 1 <= side 1 <= side v /\ side v <= side n) as Hside by (intros v Hv; nia).
  destruct (Hside _ Tr) as [? ?], (Hside _ Tc) as [? ?].
  assert (tiled_conv_total_spad_rows true (rows_args x d) t = cdiv_int (ct_pochs t) DIM * ct_batches t * side (ct_porows t) * side (ct_pocols t)) as E.
  { unfold tiled_conv_total_spad_rows, rows_args. rewrite Ew. cbn [sr_pool_size sr_pool_stride]. rewrite !(wrap_s_id 32 (side _)) by (done || unfold in_s; lia).
    apply wrap_s_id; [done|]. split; [|apply Z.le_lt_trans with (2 := I2); repeat apply Z.mul_le_mono_nonneg; nia].
    transitivity 0; [done|]. repeat apply Z.mul_nonneg_nonneg; lia. }
  unfold conv_fits. rewrite E. apply andb_false_iff. right. apply Z.leb_gt. apply Z.lt_le_trans with (1 := Hl).
  replace (cv_pool_stride x + cv_pool_size x - 1) with (side 1) by lia.
  replace (side 1 * side 1) with (1 * 1 * side 1 * side 1) by lia. repeat apply Z.mul_le_mono_nonneg; nia.
Qed.

Lemma large_window_tile : exists t, conv_tiles x = Some t /\ ct_batches t = 0 /\ tiled_conv_ok x t = conv_args_ok x.
Proof using Hx.
  destruct (conv_search_spec (rows_args x (auto_downsample x)) (max_tile x) (lw_positive x Hx)) as (t & Et & Hfit & Hb & _).
  exists t. split; [done|]. split.
  - destruct (decide (1 <= tile_get t 0)) as [H1|H0].
    + rewrite large_window_rows in Hfit; [done|]. intros i Hi. specialize (Hb i Hi). case_decide; subst; lia.
    + specialize (Hb 0%nat ltac:(lia)). rewrite decide_True in Hb by done. change (ct_batches t) with (tile_get t 0). lia.
  - assert (conv_downsample x = auto_downsample x) as Ed.
    { unfold conv_downsample, auto_downsample. destruct (lw_pool x Hx). rewrite (proj2 (Z.eqb_neq (cv_pool_stride x) 0)) by lia. by rewrite !andb_false_r. }
    unfold tiled_conv_ok, conv_args_ok. rewrite Ed. unfold conv_fits in Hfit. rewrite Hfit. by cbn [andb].
Qed.
End window.

(** A run that continues with one that does not return does not return. *)
Lemma never_bind {S A B} (P : outcome B -> Prop) (n : M S A) (k : A -> M S B) s :
  (forall f, P (Fault f)) -> (forall a s', P (k a s').1) -> P ((n ≫= k) s).1.
Proof. intros Hf Hk. unfold mbind, M_bind. destruct (n s) as [[a|f] s']; [apply Hk|apply Hf]. Qed.

Section endless.
Context {mem : Type} `{Mmu mem} `{Rand}.

(** C37: a pooling window that is too large for the accumulator is not refused.  For
    every pooled convolution of which not even one pooled position fits half of the
    accumulator, the search of [tiled_conv_auto] ends with a tile of no batches, which
    passes the size assertions of [tiled_conv]; with that tile the loop over the
    batches has not returned after any number of iterations, whatever its body does
    and whatever state it starts from, and the call does not return. *)
Theorem conv_pool_too_large x : large_window x -> exists t,
  conv_tiles x = Some t /\ ct_batches t = 0 /\ tiled_conv_ok x t = conv_args_ok x /\
  (forall body fuel (m : machine mem), (c_for fuel (cv_batch_size x) (ct_batches t)
     (conv_batch x (cv_pool_size x) (cv_pool_stride x) (cv_pool_padding x) t body) 0 m).1 <> Ok tt) /\
  forall m : machine mem, (tiled_conv_auto x T_WS m).1 <> Ok tt.
Proof.
  intros Hx. destruct (large_window_tile x Hx) as (t & Et & Hb & Hok). exists t.
  assert (0 < cv_batch_size x) as Hbatch.
  { pose proof (lw_positive x Hx 0%nat ltac:(lia)) as Hp. unfold max_tile in Hp. destruct (pool_window x) as [[? ?] ?]. change (1 <= cv_batch_size x) in Hp. lia. }
  split_and!; [done..| |].
  - intros body fuel m. rewrite Hb. by apply c_for_stuck.
  - intros m. apply (never_bind (fun o => o <> Ok tt)); [done|]. intros _ m1. rewrite Et. change ((tiled_conv x t T_WS m1).1 <> Ok tt).
    apply (never_bind (fun o => o <> Ok tt)); [done|]. intros _ m2. unfold conv_accelerated. rewrite (large_pool_window x Hx).
    do 4 (apply (never_bind (fun o => o <> Ok tt)); [done|]; intros _ ?). unfold conv_loops, for_step_u. rewrite Hb.
    by rewrite (proj2 (Z.leb_gt (cv_batch_size x) 0)) by lia.
Qed.
End endless.

(** A 24 x 24 pooling after a 3 x 3 convolution: 47 x 47 rows are too many. *)
Lemma demo_large_window : large_window (demo_conv 56 1 24 24).
Proof. split; [|by vm_compute..]. intros i Hi. dim_cases i; by vm_compute. Qed.

Lemma conv_pool_too_large_witness :
  exists t, conv_tiles (demo_conv 56 1 24 24) = Some t /\ ct_batches t = 0 /\ tiled_conv_ok (demo_conv 56 1 24 24) t = true /\
    (tiled_conv_auto (H0 := zero_rand) (demo_conv 56 1 24 24) T_WS machine_zero).1 <> Ok tt.
Proof.
  destruct (conv_pool_too_large (H0 := zero_rand) (demo_conv 56 1 24 24) demo_large_window) as (t & E & Hb & Hok & _ & Hn).
  exists t. split_and!; [exact E|exact Hb|exact Hok|apply Hn].
Defined.

(** ** Depthwise *)

Definition dw_acc_rows (a : dw_rows_args) (batches porows pocols : Z) : Z :=
  tiled_conv_total_spad_rows_dw true false a batches porows pocols 1 1.

Lemma dw_shrink_spec a batch pod fuel b p : 0 <= b <= batch -> 1 <= p <= pod ->
  (b = batch \/ p = 1) -> (dw_acc_rows a 1 1 1 <= ACC_ROWS -> 1 <= b) -> b + p < Z.of_nat fuel + 1 ->
  exists b' p', dw_shrink fuel a b p p = Some (b', p', p') /\ 0 <= b' <= batch /\ 1 <= p' <= pod /\
    (b' = batch \/ p' = 1) /\ dw_acc_rows a b' p' p' <= ACC_ROWS /\ (dw_acc_rows a 1 1 1 <= ACC_ROWS -> 1 <= b').
Proof.
  revert b p. induction fuel as [|fuel IH]; intros b p Hb Hp Hor Hone Hf; [lia|].
  cbn [dw_shrink]. fold (dw_acc_rows a b p p). destruct (Z.ltb_spec ACC_ROWS (dw_acc_rows a b p p)) as [Hbig|Hok].
  - destruct (Z.eqb_spec p 1) as [->|Hne]; cbn [negb].
    + assert (b <> 0) as Hb0.
      { intros ->. unfold dw_acc_rows, tiled_conv_total_spad_rows_dw in Hbig. rewrite Z.mul_0_r, !Z.mul_0_l in Hbig. done. }
      apply IH; [lia..| |lia]. intros H1. destruct (decide (b = 1)) as [->|]; lia.
    + apply IH; [lia..|done|lia].
  - by exists b, p.
Qed.

(** the tile search of [tiled_conv_auto_dw] ends.  For a convolution with
    at least one batch and one output position it returns a square tile that fits the
    accumulator and splits the batches only when it is down to one position; it has a
    batch if a single position fits. *)
Theorem dw_tiles_correct x :
  let '(pool_size, pool_stride, pool_padding) := pool_window x in
  let pod := pool_out_dim_of x pool_size pool_stride pool_padding in
  let rows := dw_acc_rows (dw_rows x pool_size pool_stride) in
  1 <= cv_batch_size x -> 1 <= pod ->
  exists b p, dw_tiles x = Some (b, p, p) /\ 0 <= b <= cv_batch_size x /\ 1 <= p <= pod /\
    (b = cv_batch_size x \/ p = 1) /\ rows b p p <= ACC_ROWS /\ (rows 1 1 1 <= ACC_ROWS -> 1 <= b).
Proof.
  unfold dw_tiles. destruct (pool_window x) as [[ps pst] pp]. cbv zeta. intros Hb Hp. apply dw_shrink_spec; [lia..|by left|lia|lia].
Qed.

Lemma dw_tiles_correct_witness :
  exists b p, dw_tiles (demo_conv 56 1 0 0) = Some (b, p, p) /\ 1 <= b /\ 1 <= p.
Proof.
  destruct (dw_tiles_correct (demo_conv 56 1 0 0)) as (b & p & E & _ & Hp & _ & _ & Hb); [by vm_compute..|].
  exists b, p. split; [exact E|]. split; [apply Hb; by vm_compute|apply Hp].
Defined.

(** the depthwise search looks at the accumulator only.  With a stride of 4
    it returns a tile whose input is larger than the scratchpad banks it is loaded
    into, which [tiled_conv_dw] then refuses. *)
Theorem dw_stride_too_large :
  dw_tiles (demo_conv 14 4 0 0) = Some (4, 14, 14) /\
  tiled_conv_dw_ok (demo_conv 14 4 0 0) 1 1 4 14 14 = false.
Proof. split; vm_compute; reflexivity. Qed.
