(* ===== verification/Systolic.v ===== *)
(** * Systolic: the entry points of the systolic back end

    systolic.cpp: the accelerator mode and the [Systolic*] functions that the
    execution provider calls.  Messages on the console are left out. *)

From S2P Require Import Prelude Effects Float32 Params State Dram Fill Scaling Norm Config Move Compute LoopWs LoopConv Counters Dispatch Isa MatmulCpu Matmul Resadd ConvCpu Conv.

(** [(i % n + n) % n] with C's remainder. *)
Definition positive_mod (i n : Z) : Z := Z.rem (Z.rem i n + n) n.

(** [enum tiled_matmul_type_t {OS, WS, CPU}] *)
Definition type_of_code (code : Z) : tiled_matmul_type_t :=
  if code =? 0 then T_OS else if code =? 1 then T_WS else T_CPU.

Definition get_accelerator_mode (mode : Z) : tiled_matmul_type_t := type_of_code (positive_mod (mode - 1) 3).

Section systolic.
Context {mem : Type} `{Mmu mem} `{Rand}.

(** The BLAS-like wrapper and the simple ones fill in the other arguments of
    the driver's [tiled_matmul_auto]. *)
Definition gemm_args (dim_I dim_J dim_K strideA strideB strideD strideC A B D C act : Z) (scaleAlpha : float32) (scaleBeta : Z)
    (repeating_bias transA transB : bool) : matmul_args := {|
  ma_dim_I := dim_I; ma_dim_J := dim_J; ma_dim_K := dim_K; ma_A := A; ma_B := B; ma_D := D; ma_C := C;
  ma_stride_A := strideA; ma_stride_B := strideB; ma_stride_D := strideD; ma_stride_C := strideC;
  ma_A_scale := scaleAlpha; ma_B_scale := MVIN_SCALE_IDENTITY; ma_D_scale := scaleBeta;
  ma_act := act; ma_scale := ACC_SCALE_IDENTITY; ma_relu6_shift := 0; ma_repeating_bias := repeating_bias;
  ma_trans_A := transA; ma_trans_B := transB; ma_full_C := false; ma_low_D := false; ma_weightA := 3 |}.

(** [scaleBeta] is a [float] passed for an integer [scale_acc_t]. *)
Definition tiled_gemm_auto (dim_I dim_J dim_K strideA strideB strideD strideC A B D C act : Z) (scaleAlpha scaleBeta : float32)
    (repeating_bias transA transB : bool) (ty : tiled_matmul_type_t) : M (machine mem) unit :=
  beta ← of_option Undefined (f_to_int 32 scaleBeta);
  tiled_matmul_auto (gemm_args dim_I dim_J dim_K strideA strideB strideD strideC A B D C act scaleAlpha beta
    repeating_bias transA transB) ty.

Definition tiled_gemm_auto_full (dim_I dim_J dim_K A B D C act : Z) (scaleAlpha scaleBeta : float32)
    (repeating_bias transA transB : bool) (ty : tiled_matmul_type_t) : M (machine mem) unit :=
  let lda := s32 (if transA then dim_I else dim_K) in
  let ldb := s32 (if transB then dim_K else dim_J) in
  tiled_gemm_auto dim_I dim_J dim_K (u64 lda) (u64 ldb) dim_J dim_J A B D C act scaleAlpha scaleBeta repeating_bias transA transB ty.

Definition multiply_args (dim_I dim_J dim_K strideA strideB strideD strideC A B D C act : Z) (scale : float32) (relu6_shift : Z)
    (repeating_bias transA transB : bool) : matmul_args := {|
  ma_dim_I := dim_I; ma_dim_J := dim_J; ma_dim_K := dim_K; ma_A := A; ma_B := B; ma_D := D; ma_C := C;
  ma_stride_A := strideA; ma_stride_B := strideB; ma_stride_D := strideD; ma_stride_C := strideC;
  ma_A_scale := MVIN_SCALE_IDENTITY; ma_B_scale := MVIN_SCALE_IDENTITY; ma_D_scale := 1;
  ma_act := act; ma_scale := scale; ma_relu6_shift := relu6_shift; ma_repeating_bias := repeating_bias;
  ma_trans_A := transA; ma_trans_B := transB; ma_full_C := false; ma_low_D := false; ma_weightA := 3 |}.

Definition SystolicMultiply (accelerator_mode : Z) (relu : bool) (dimI dimJ dimK in1 in2 out : Z) (real_multiplier : float32) (bias : Z)
    : M (machine mem) unit :=
  tiled_matmul_auto (multiply_args (u64 dimI) (u64 dimJ) (u64 dimK) (u64 dimK) (u64 dimJ) (u64 dimJ) (u64 dimJ) in1 in2 bias out
    (b2z relu) real_multiplier 0 false false false) (get_accelerator_mode accelerator_mode).

Definition SystolicMultiply_strided (accelerator_mode : Z) (relu : bool) (dimI dimJ dimK in1 strideIn1 in2 strideIn2 out strideOut : Z)
    (real_multiplier : float32) (bias strideBias : Z) (repeating_bias : bool) : M (machine mem) unit :=
  tiled_matmul_auto (multiply_args (u64 dimI) (u64 dimJ) (u64 dimK) (u64 strideIn1) (u64 strideIn2) (u64 strideBias) (u64 strideOut)
    in1 in2 bias out (b2z relu) real_multiplier 0 repeating_bias false false) (get_accelerator_mode accelerator_mode).

(** Sixteen rows of [dim / 16] elements, then the elements that are left. *)
Definition SystolicAdd (accelerator_mode : Z) (relu : bool) (A : Z) (A_scale : float32) (B : Z) (B_scale : float32)
    (C : Z) (C_scale : float32) (dim : Z) : M (machine mem) unit :=
  let resizedDim := dim - Z.rem dim DIM in
  let part I J off := {|
    ra_I := u64 I; ra_J := u64 J; ra_A_scale := f32_div A_scale C_scale; ra_B_scale := f32_div B_scale C_scale;
    ra_C_scale := f32_one; ra_A := A + off; ra_B := B + off; ra_C := C + off; ra_relu := relu |} in
  tiled_resadd_auto (part DIM (Z.quot resizedDim DIM) 0) (get_accelerator_mode accelerator_mode) ;;
  when (0 <? Z.rem dim DIM)
    (tiled_resadd_auto (part 1 (Z.rem dim DIM) resizedDim) (get_accelerator_mode accelerator_mode)).

Definition SystolicConv (accelerator_mode batch_size in_dim in_channels out_channels out_dim stride padding kernel_dim
    input weights bias output : Z) (relu : bool) (output_scale : float32) (pool_size pool_stride pool_padding : Z)
    : M (machine mem) unit :=
  tiled_conv_auto {|
    cv_batch_size := batch_size; cv_in_dim := in_dim; cv_in_channels := in_channels; cv_out_channels := out_channels;
    cv_out_dim := out_dim; cv_stride := stride; cv_input_dilation := 1; cv_kernel_dilation := 1; cv_padding := padding;
    cv_kernel_dim := kernel_dim; cv_wrot180 := false; cv_trans_output_1203 := false; cv_trans_input_3120 := false;
    cv_trans_weight_1203 := false; cv_trans_weight_0132 := false; cv_input := input; cv_weights := weights; cv_bias := bias;
    cv_output := output; cv_act := b2z relu; cv_scale := output_scale; cv_relu6_shift := 0;
    cv_pool_size := pool_size; cv_pool_stride := pool_stride; cv_pool_padding := pool_padding |}
    (get_accelerator_mode accelerator_mode).

Definition SystolicConvTranspose (accelerator_mode batch_size in_dim in_channels out_channels out_dim stride padding kernel_dim
    input weights bias output : Z) (relu : bool) (output_scale : float32) : M (machine mem) unit :=
  tiled_conv_auto {|
    cv_batch_size := batch_size; cv_in_dim := in_dim; cv_in_channels := in_channels; cv_out_channels := out_channels;
    cv_out_dim := out_dim; cv_stride := 1; cv_input_dilation := stride; cv_kernel_dilation := 1;
    cv_padding := kernel_dim - 1 - padding;
    cv_kernel_dim := kernel_dim; cv_wrot180 := true; cv_trans_output_1203 := false; cv_trans_input_3120 := false;
    cv_trans_weight_1203 := false; cv_trans_weight_0132 := true; cv_input := input; cv_weights := weights; cv_bias := bias;
    cv_output := output; cv_act := b2z relu; cv_scale := output_scale; cv_relu6_shift := 0;
    cv_pool_size := 0; cv_pool_stride := 0; cv_pool_padding := 0 |}
    (get_accelerator_mode accelerator_mode).

Definition SystolicConvBackpropFilter (accelerator_mode batch_size in_dim in_channels out_channels out_dim stride padding kernel_dim
    input weights bias output : Z) (relu : bool) (output_scale : float32) : M (machine mem) unit :=
  tiled_conv_auto {|
    cv_batch_size := batch_size; cv_in_dim := in_dim; cv_in_channels := in_channels; cv_out_channels := out_channels;
    cv_out_dim := out_dim; cv_stride := 1; cv_input_dilation := 1; cv_kernel_dilation := stride; cv_padding := padding;
    cv_kernel_dim := kernel_dim; cv_wrot180 := false; cv_trans_output_1203 := true; cv_trans_input_3120 := true;
    cv_trans_weight_1203 := true; cv_trans_weight_0132 := false; cv_input := input; cv_weights := weights; cv_bias := bias;
    cv_output := output; cv_act := b2z relu; cv_scale := output_scale; cv_relu6_shift := 0;
    cv_pool_size := 0; cv_pool_stride := 0; cv_pool_padding := 0 |}
    (get_accelerator_mode accelerator_mode).
End systolic.
