(* ===== verification/SystolicSpec.v ===== *)
(** * SystolicSpec: the entry points of the back end

    The rotation of the accelerator modes, and [SystolicAdd]: the two residual
    additions it makes cover the vector, in either mode. *)

From S2P Require Import Prelude Effects Float32 Params State Dram Fill Scaling Norm Config Move MoveSpec Compute LoopWs LoopConv Counters Dispatch Invariant Isa IsaSpec Issue LoopWsSpec MatmulCpu MatmulCpuSpec Matmul MatmulSpec Resadd ResaddSpec MatmulWsSpec ConvCpu Conv Systolic.

(** the accelerator modes.  Mode 0 is the CPU, 1 the output-stationary and 2
    the weight-stationary dataflow; every other mode names the one it is congruent
    to modulo 3, negative modes included, so the cast in [get_accelerator_mode]
    always yields a value of the enumeration. *)
Theorem accelerator_modes mode k :
  get_accelerator_mode 0 = T_CPU /\ get_accelerator_mode 1 = T_OS /\ get_accelerator_mode 2 = T_WS /\
  get_accelerator_mode (mode + 3 * k) = get_accelerator_mode mode /\ 0 <= positive_mod (mode - 1) 3 < 3.
Proof.
  assert (forall i, positive_mod i 3 = i mod 3) as Hm by (intros i; unfold positive_mod; zlia).
  split_and!; try done.
  - unfold get_accelerator_mode. rewrite !Hm. f_equal. zlia.
  - rewrite Hm. zlia.
  - rewrite Hm. zlia.
Qed.

Section add.
Context {mem : Type} `{MmuLaws mem} `{Rand}.
Context (relu : bool) (A B C : Z) (A_scale B_scale C_scale : float32) (dim : Z).
Implicit Types (d : mem) (m : machine mem).

(** The two additions: [I] rows of [J] elements at offset [off]. *)
Definition add_part (I J off : Z) : resadd_args := {|
  ra_I := u64 I; ra_J := u64 J; ra_A_scale := f32_div A_scale C_scale; ra_B_scale := f32_div B_scale C_scale;
  ra_C_scale := f32_one; ra_A := A + off; ra_B := B + off; ra_C := C + off; ra_relu := relu |}.

(** The value stored for two elements. *)
Definition add_value (a b : Z) : option Z := resadd_value (add_part 1 1 0) a b.
Definition add_at (d : mem) (k : Z) : option Z := add_value (mem_int 1 d (A + k)) (mem_int 1 d (B + k)).

Record add_ready (d : mem) : Prop := {
  ar_dim : 16 <= dim <= 2 ^ 30;
  ar_scales : float_total (f32_div A_scale C_scale) /\ float_total (f32_div B_scale C_scale);
  ar_binary : is_binary32 (f32_div A_scale C_scale) = true /\ is_binary32 (f32_div B_scale C_scale) = true;
  ar_addr : (0 < A /\ A + dim <= 2 ^ 64) /\ (0 < B /\ B + dim <= 2 ^ 64) /\ (0 < C /\ C + dim <= 2 ^ 64);
  ar_read k : 0 <= k < dim -> mem_readable 1 d (A + k) /\ mem_readable 1 d (B + k);
  ar_write k : 0 <= k < dim -> mem_writable 1 d (C + k);
  ar_alias k k' : 0 <= k < dim -> 0 <= k' < dim -> C + k <> A + k' /\ C + k <> B + k';
  ar_value k : 0 <= k < dim -> is_Some (add_at d k) }.

Section part.
Context (I J off : Z) (HI : 1 <= I) (HJ : 1 <= J) (Hoff : 0 <= off) (Hend : off + I * J <= dim).

(** The position of an element of the part in the vector. *)
Definition pos (p : Z * Z) : Z := off + (fst p * J + snd p).

Lemma part_dims d : add_ready d -> ra_I (add_part I J off) = I /\ ra_J (add_part I J off) = J.
Proof. intros Hr. destruct (ar_dim _ Hr). cbn. rewrite !wrap_u_id by (unfold in_u; nia). done. Qed.

Lemma pos_bound p : p ∈ pairs I J -> off <= pos p < off + I * J.
Proof. intros [Hi Hj]%elem_of_pairs. unfold pos. nia. Qed.

Lemma pos_onto k : off <= k < off + I * J -> exists p, p ∈ pairs I J /\ pos p = k.
Proof.
  intros Hk. exists ((k - off) / J, (k - off) mod J). split.
  - apply elem_of_pairs. cbn [fst snd]. pose proof (Z.mod_pos_bound (k - off) J ltac:(lia)).
    split; [|done]. split; [apply Z.div_pos; lia|]. apply Z.div_lt_upper_bound; nia.
  - unfold pos. cbn [fst snd]. pose proof (Z.div_mod (k - off) J ltac:(lia)). lia.
Qed.

Lemma part_elem_at d base p : add_ready d -> elem_at (add_part I J off) (base + off) p = base + pos p.
Proof. intros Hr. destruct (part_dims d Hr) as [_ E]. unfold elem_at, pos. rewrite E. lia. Qed.

Lemma part_ready d : add_ready d -> resadd_ready (add_part I J off) d.
Proof.
  intros Hr. destruct (part_dims d Hr) as [EI EJ]. pose proof (ar_dim _ Hr). destruct (ar_addr _ Hr) as (HA & HB & HC).
  assert (forall p, p ∈ all_elems (add_part I J off) -> 0 <= pos p < dim) as Hp.
  { unfold all_elems. rewrite EI, EJ. intros p Hp%pos_bound. lia. }
  split; rewrite ?EI, ?EJ; unfold size_ok; cbn [add_part ra_A ra_B ra_C ra_A_scale ra_B_scale].
  - nia.
  - nia.
  - apply Hr.
  - apply Hr.
  - lia.
  - lia.
  - lia.
  - intros p Hin. rewrite !(part_elem_at d) by done. apply (ar_read _ Hr). by apply Hp.
  - intros p Hin. rewrite !(part_elem_at d) by done. apply (ar_write _ Hr). by apply Hp.
  - intros p q Hin Hin'. rewrite !(part_elem_at d) by done. apply (ar_alias _ Hr); by apply Hp.
  - intros p Hin. unfold sum_value. cbn [add_part ra_A ra_B]. rewrite !(part_elem_at d) by done. apply (ar_value _ Hr). by apply Hp.
Qed.

(** What one addition leaves: the sums at its positions, nothing else changed. *)
Lemma wp_add_part ty Q m : ty <> T_OS -> ready m -> acc_act (st (gs m)) <> SOFTMAX -> add_ready (dram m) ->
  (forall m', ready m' -> acc_act (st (gs m')) <> SOFTMAX ->
     store_post 1 (fun k => C + k) (fun k => default 0 (add_at (dram m) k)) (seqZ off (I * J)) (dram m) (dram m') -> Q tt m') ->
  wp (tiled_resadd_auto (add_part I J off) ty) Q m.
Proof.
  intros Hty Hrd Hact Hr HQ. destruct (part_dims _ Hr) as [EI EJ]. destruct (ar_binary _ Hr) as [FA FB].
  apply wp_tiled_resadd_auto; [done..|by apply part_ready|done|done|done|].
  intros m' Hrd' Hact' [Hd Hv]. apply HQ; [done..|]. unfold all_elems in *. rewrite EI, EJ in *.
  cbn [add_part ra_C] in Hd, Hv. split.
  - eapply mem_differ_weaken; [exact Hd|]. intros b (p & Hp & Hb). exists (pos p).
    rewrite (part_elem_at (dram m)) in Hb by done. split; [|done]. apply elem_of_seqZ. by apply pos_bound in Hp.
  - intros k Hk%elem_of_seqZ. destruct (pos_onto k Hk) as (p & Hp & <-). rewrite <- (part_elem_at (dram m)) by done.
    rewrite (Hv p Hp). unfold sum_value. cbn [add_part ra_A ra_B]. by rewrite !(part_elem_at (dram m)) by done.
Qed.
End part.

(** The operands are as they were after results were stored. *)
Lemma add_at_kept l d d' k : add_ready d -> (forall k', k' ∈ l -> 0 <= k' < dim) -> 0 <= k < dim ->
  mem_differ (stored 1 (fun k' => C + k') l) d d' -> add_at d' k = add_at d k.
Proof.
  intros Hr Hl Hk Hd. destruct (ar_addr _ Hr) as (HA & HB & HC).
  assert (forall a, in_u 64 a -> (forall k', 0 <= k' < dim -> C + k' <> a) -> mem_int 1 d' a = mem_int 1 d a) as Hkeep.
  { intros a Ha Hne. eapply mem_int_differ; [exact Hd|]. intros i Hi (k' & Hk' & Hs). pose proof (Hl _ Hk').
    apply span_elem in Hs; [|unfold in_u; lia]. replace i with 0 in Hs by lia.
    rewrite Z.add_0_r, wrap_u_id in Hs by done. by apply (Hne k'). }
  unfold add_at. rewrite !Hkeep; [done|..]; (unfold in_u; lia) || (intros k' Hk'; by apply (ar_alias _ Hr)).
Qed.

Lemma add_ready_kept l d d' : (forall k, k ∈ l -> 0 <= k < dim) ->
  mem_differ (stored 1 (fun k => C + k) l) d d' -> add_ready d -> add_ready d'.
Proof.
  intros Hl Hd Hr. split; try apply Hr.
  - intros k Hk. destruct (ar_read _ Hr k Hk). split; by eapply mem_readable_differ.
  - intros k Hk. eapply mem_writable_differ; [done|]. by apply (ar_write _ Hr).
  - intros k Hk. erewrite add_at_kept by done. by apply (ar_value _ Hr).
Qed.

(** Two additions one after the other add the concatenation of their parts. *)
Lemma add_parts_app l1 l2 d d1 d2 : add_ready d ->
  (forall k, k ∈ l1 -> 0 <= k < dim) -> (forall k, k ∈ l2 -> 0 <= k < dim) -> (forall k, k ∈ l1 -> k ∈ l2 -> False) ->
  store_post 1 (fun k => C + k) (fun k => default 0 (add_at d k)) l1 d d1 ->
  store_post 1 (fun k => C + k) (fun k => default 0 (add_at d1 k)) l2 d1 d2 ->
  store_post 1 (fun k => C + k) (fun k => default 0 (add_at d k)) (l1 ++ l2) d d2.
Proof.
  intros Hr L1 L2 Hdis S1 S2. destruct (ar_addr _ Hr) as (_ & _ & HC).
  eapply store_post_app; [|exact S1|].
  - intros x y b Hx Hy Hbx Hby. pose proof (L1 _ Hx). pose proof (L2 _ Hy).
    apply span_elem in Hbx; [|unfold in_u; lia]. apply span_elem in Hby; [|unfold in_u; lia].
    apply (Hdis x Hx). by replace x with y by lia.
  - eapply store_post_ext; [|exact S2]. intros k Hk. cbn beta. rewrite (add_at_kept l1 d d1) by (auto; apply S1). done.
Qed.

Lemma wp_SystolicAdd mode Q m : get_accelerator_mode mode <> T_OS -> ready m -> acc_act (st (gs m)) <> SOFTMAX ->
  add_ready (dram m) ->
  (forall m', store_post 1 (fun k => C + k) (fun k => default 0 (add_at (dram m) k)) (seqZ 0 dim) (dram m) (dram m') -> Q tt m') ->
  wp (SystolicAdd mode relu A A_scale B B_scale C C_scale dim) Q m.
Proof.
  intros Hty Hrd Hact Hr HQ. destruct (ar_dim _ Hr) as [Hlo Hhi]. unfold SystolicAdd, DIM.
  assert (Z.rem dim 16 = dim mod 16) as Erem by (apply Z.rem_mod_nonneg; lia). rewrite Erem.
  set (n := dim - dim mod 16). assert (Z.quot n 16 = dim / 16) as -> by (unfold n; rewrite Z.quot_div_nonneg; zlia).
  assert (16 * (dim / 16) = n) as En by (unfold n; zlia). assert (n <= dim /\ 16 <= n) as Hn by (unfold n; zlia).
  apply wp_bind. apply (wp_add_part 16 (dim / 16) 0); [lia|lia|lia|lia|done..|].
  intros m1 Hrd1 Hact1 S1. rewrite En in S1. unfold when. destruct (Z.ltb_spec 0 (dim mod 16)) as [Hlt|Hge].
  - apply (wp_add_part 1 (dim mod 16) n); [lia|lia|lia|unfold n; lia|done..| |].
    + eapply add_ready_kept; [|apply S1|done]. intros k Hk%elem_of_seqZ. lia.
    + intros m2 _ _ S2. apply HQ. replace (seqZ 0 dim) with (seqZ 0 n ++ seqZ n (1 * (dim mod 16))).
      * eapply add_parts_app; [done|..|exact S1|exact S2]; intros k; rewrite ?elem_of_seqZ; unfold n in *; lia.
      * replace dim with (n + 1 * (dim mod 16)) at 2 by (unfold n; lia). rewrite seqZ_app by lia. by rewrite Z.add_0_l.
  - apply wp_ret, HQ. by replace dim with n by (unfold n; zlia).
Qed.

(** C17: [SystolicAdd] adds vectors.  For a vector of 16 to [2^30] elements, in CPU
    and in weight-stationary mode, with a result that overlaps neither operand, it
    splits the vector into 16 rows and a remainder of fewer than 16 elements, and
    ends without a fault with every element of the result equal to the scaled sum the
    comment in the source gives, [scale_and_sat] of the operands scaled by
    [A_scale / C_scale] and [B_scale / C_scale], and every other byte of memory as it
    was. *)
Theorem systolic_add_correct mode m : get_accelerator_mode mode <> T_OS -> ready m -> acc_act (st (gs m)) <> SOFTMAX ->
  add_ready (dram m) ->
  wp (SystolicAdd mode relu A A_scale B B_scale C C_scale dim) (fun _ m' =>
    (forall k, 0 <= k < dim -> mem_int 1 (dram m') (C + k) = s8 (default 0 (add_at (dram m) k))) /\
    mem_differ (stored 1 (fun k => C + k) (seqZ 0 dim)) (dram m) (dram m')) m.
Proof.
  intros. apply wp_SystolicAdd; [done..|]. intros m' [Hd Hv]. split; [|done]. intros k Hk. apply Hv, elem_of_seqZ. lia.
Qed.
End add.

(** ** A vector of 19 elements *)

Lemma small_vectors_ready : add_ready true 0x1000 0x1020 0x1080 f32_one f32_one f32_one 19 (dram demo).
Proof.
  change (f32_div f32_one f32_one) with f32_one. split.
  - lia.
  - split; apply float_total_one.
  - done.
  - lia.
  - intros k Hk. split; apply flat_mem_readable; simpl; lia.
  - intros k Hk. apply flat_mem_writable; simpl; lia.
  - lia.
  - intros k Hk. apply (by_evaluation
      (fun k => is_Some (add_at true 0x1000 0x1020 0x1080 f32_one f32_one f32_one (dram demo) k))
      (fun k => defined (add_at true 0x1000 0x1020 0x1080 f32_one f32_one f32_one (dram demo) k)) (seqZ 0 19)).
    + intros k'. apply defined_is_Some.
    + by vm_compute.
    + apply elem_of_seqZ. lia.
Qed.

Lemma systolic_add_correct_witness :
  wp (SystolicAdd (H0 := zero_rand) 2 true 0x1000 f32_one 0x1020 f32_one 0x1080 f32_one 19) (fun _ m' =>
    (forall k, 0 <= k < 19 -> mem_int 1 (dram m') (0x1080 + k) =
       s8 (default 0 (add_at true 0x1000 0x1020 0x1080 f32_one f32_one f32_one (dram demo) k))) /\
    mem_differ (stored 1 (fun k => 0x1080 + k) (seqZ 0 19)) (dram demo) (dram m')) demo.
Proof.
  apply (systolic_add_correct (H1 := zero_rand) true 0x1000 0x1020 0x1080 f32_one f32_one f32_one 19 2 demo);
    [done|apply demo_ready|done|apply small_vectors_ready].
Defined.

(** ** [SystolicMultiply] *)

Section multiply.
Context {mem : Type} `{MmuLaws mem} `{Rand}.
Context (relu : bool) (dimI dimJ dimK in1 in2 out bias : Z) (scale : float32).
Implicit Types (d : mem) (m : machine mem).

(** The 32-bit sum of element [(i, j)]: the bias and the products of the bytes. *)
Definition multiply_sum (d : mem) (i j : Z) : Z :=
  s32 ((if bias =? 0 then 0 else mem_int 4 d (bias + (i * dimJ + j) * 4)) +
       Zsum (fun k => mem_int 1 d (in1 + i * dimK + k) * mem_int 1 d (in2 + k * dimJ + j)) dimK).
Definition multiply_value (d : mem) (i j : Z) : option Z := scale_and_sat (multiply_sum d i j) (b2z relu) scale 0.

(** [n] bytes at [a] in memory, apart from [n'] bytes at [a']. *)
Definition range_ok (a n : Z) : Prop := 0 < a /\ a + n <= 2 ^ 64.
Definition apart (a n a' n' : Z) : Prop := a + n <= a' \/ a' + n' <= a.

(** What a call needs: contiguous row-major matrices in memory, the result apart
    from the operands, and a scale under which every sum can be stored. *)
Record multiply_ready (d : mem) : Prop := {
  my_I : 1 <= dimI <= 2 ^ 30; my_J : 1 <= dimJ <= 2 ^ 30; my_K : 1 <= dimK <= 2 ^ 30;
  my_in1 : range_ok in1 (dimI * dimK); my_in2 : range_ok in2 (dimK * dimJ); my_out : range_ok out (dimI * dimJ);
  my_bias : bias = 0 \/ range_ok bias (dimI * dimJ * 4);
  my_read1 k : 0 <= k < dimI * dimK -> mem_readable 1 d (in1 + k);
  my_read2 k : 0 <= k < dimK * dimJ -> mem_readable 1 d (in2 + k);
  my_read_bias k : bias <> 0 -> 0 <= k < dimI * dimJ -> mem_readable 4 d (bias + k * 4);
  my_write k : 0 <= k < dimI * dimJ -> mem_writable 1 d (out + k);
  my_apart : apart out (dimI * dimJ) in1 (dimI * dimK) /\ apart out (dimI * dimJ) in2 (dimK * dimJ) /\
    (bias <> 0 -> apart out (dimI * dimJ) bias (dimI * dimJ * 4));
  my_scale : is_binary32 scale = true;
  my_value i j : 0 <= i < dimI -> 0 <= j < dimJ -> is_Some (multiply_value d i j) }.

Notation args := (multiply_args dimI dimJ dimK dimK dimJ dimJ dimJ in1 in2 bias out (b2z relu) scale 0 false false false).

Section run.
Context (d : mem) (Hr : multiply_ready d).

Lemma row_offset n k r c : 0 <= r < n -> 0 <= c < k -> 0 <= r * k + c < n * k.
Proof. nia. Qed.

(** Where the operands are. *)
Inductive operand_place : Z -> Z -> Prop :=
  | place_in1 k : 0 <= k < dimI * dimK -> operand_place 1 (in1 + k)
  | place_in2 k : 0 <= k < dimK * dimJ -> operand_place 1 (in2 + k)
  | place_bias k : bias <> 0 -> 0 <= k < dimI * dimJ -> operand_place 4 (bias + k * 4).

Lemma operand_placed size a : operand_elem args size a -> operand_place size a.
Proof.
  intros [i k Hi Hk|k j Hk Hj|i j Hb Hi Hj]; cbn [ma_dim_I ma_dim_J ma_dim_K ma_D multiply_args] in *.
  - replace (A_at args i k) with (in1 + (i * dimK + k)) by (unfold A_at; cbn; lia). apply place_in1. by apply row_offset.
  - replace (B_at args k j) with (in2 + (k * dimJ + j)) by (unfold B_at; cbn; lia). apply place_in2. by apply row_offset.
  - replace (D_at args i j) with (bias + (i * dimJ + j) * 4) by (unfold D_at; cbn; unfold sizeof_acc_t; lia).
    apply place_bias; [done|]. by apply row_offset.
Qed.

Lemma result_place p : p ∈ pairs dimI dimJ -> exists k, 0 <= k < dimI * dimJ /\ C_at args p = out + k /\ k = fst p * dimJ + snd p.
Proof.
  intros [Hi Hj]%elem_of_pairs. exists (fst p * dimJ + snd p). split; [by apply row_offset|]. split; [unfold C_at; cbn; lia|done].
Qed.

Lemma multiply_value_eq p : p ∈ pairs dimI dimJ -> cpu_value args d p = multiply_value d (fst p) (snd p).
Proof.
  intros Hp. unfold cpu_value, multiply_value, cpu_sum, multiply_sum.
  cbn [ma_dim_K ma_act ma_scale ma_relu6_shift ma_D multiply_args].
  assert (Zsum (prod args d (fst p) (snd p)) dimK =
    Zsum (fun k => mem_int 1 d (in1 + fst p * dimK + k) * mem_int 1 d (in2 + k * dimJ + snd p)) dimK) as ->.
  { apply Zsum_ext. intros k Hk. unfold prod, op_elem. cbn [ma_A_scale ma_B_scale multiply_args].
    rewrite <- !mvin_scale_eq, !mvin_scale_identity by (by apply (mem_int_range 1)). cbn [default].
    unfold A_at, B_at. cbn. rewrite !Z.mul_1_r. f_equal; f_equal; lia. }
  unfold bias_val, D_at. cbn [ma_D ma_repeating_bias ma_stride_D multiply_args]. done.
Qed.

Lemma multiply_mm_ready : mm_ready args d.
Proof.
  destruct Hr as [HI HJ HK R1 R2 R3 Rb L1 L2 Lb W (P1 & P2 & P3) Hs Hv]. unfold range_ok, apart in *.
  assert (forall size a, operand_elem args size a -> 0 < a /\ a + size <= 2 ^ 64 /\ (a + size <= out \/ out + dimI * dimJ <= a)) as Hpl.
  { intros size a [k Hk|k Hk|k Hb Hk]%operand_placed; [lia|lia|]. specialize (P3 Hb). lia. }
  split; cbn [ma_dim_I ma_dim_J ma_dim_K ma_stride_A ma_stride_B ma_stride_D ma_stride_C ma_scale ma_act multiply_args].
  - split; cbn [ma_dim_I ma_dim_J ma_A_scale ma_B_scale multiply_args].
    + exact float_total_one.
    + exact float_total_one.
    + intros size a [k Hk|k Hk|k Hb Hk]%operand_placed; auto.
    + intros p (k & Hk & -> & _)%result_place. by apply W.
    + intros p q b Hp Hq. pose proof Hp as [Hp1 Hp2]%elem_of_pairs. pose proof Hq as [Hq1 Hq2]%elem_of_pairs.
      apply result_place in Hp as (k & Hk & -> & Ek), Hq as (k' & Hk' & -> & Ek').
      rewrite !span_elem by (unfold in_u; lia). intros -> E. assert (fst p * dimJ + snd p = fst q * dimJ + snd q) as E' by lia.
      apply block_row_inj in E' as [E1 E2]; [|done..]. destruct p, q. cbn [fst snd] in *. congruence.
    + intros p size a b (k & Hk & -> & _)%result_place Ho%Hpl. rewrite span_elem by (unfold in_u; lia). intros -> (n & Hn & E).
      rewrite wrap_u_id in E by (unfold in_u; lia). lia.
    + intros p Hp. rewrite multiply_value_eq by done. apply elem_of_pairs in Hp as [Hp1 Hp2]. by apply Hv.
  - unfold dim_ok. lia.
  - unfold dim_ok. lia.
  - unfold dim_ok. lia.
  - intros size a Ho. pose proof (Hpl _ _ Ho). destruct (operand_placed _ _ Ho); lia.
  - intros p (k & Hk & -> & _)%result_place. lia.
  - unfold in_u. lia.
  - by split_and!.
  - apply scale_total_float. exact float_total_one.
  - destruct relu; auto.
  - done.
  - done.
  - done.
  - done.
  - done.
Qed.
End run.

Lemma wp_SystolicMultiply mode Q m : get_accelerator_mode mode <> T_OS -> ready m -> acc_act (st (gs m)) <> SOFTMAX ->
  multiply_ready (dram m) ->
  (forall m', ready m' -> acc_act (st (gs m')) <> SOFTMAX ->
     store_post 1 (fun e => out + fst e * dimJ + snd e) (fun e => default 0 (multiply_value (dram m) (fst e) (snd e))) (pairs dimI dimJ) (dram m) (dram m') ->
     Q tt m') ->
  wp (SystolicMultiply mode relu dimI dimJ dimK in1 in2 out scale bias) Q m.
Proof.
  intros Hm Hrd Hact Hr HQ. unfold SystolicMultiply.
  assert (u64 dimI = dimI /\ u64 dimJ = dimJ /\ u64 dimK = dimK) as (-> & -> & ->).
  { destruct Hr. split_and!; apply wrap_u_id; unfold in_u; lia. }
  apply wp_tiled_matmul_auto; [destruct (get_accelerator_mode mode); auto; done|done|done|by apply multiply_mm_ready|].
  intros m' Hrd' Hact' Hpost. apply HQ; [done..|]. eapply store_post_ext; [|exact Hpost]. intros e He. cbn beta.
  by rewrite multiply_value_eq.
Qed.

(** C3: [SystolicMultiply] multiplies.  In CPU and in weight-stationary mode, for
    matrices of 1 to [2^30] rows and columns stored row by row, it ends without a
    fault and leaves in element [(i, j)] of the result the scaled, saturated and
    (if asked) rectified 32-bit sum of the bias and of the products of row [i] of
    the first and column [j] of the second operand; every other byte of memory is
    as it was. *)
Theorem systolic_multiply_correct mode m : get_accelerator_mode mode <> T_OS -> ready m -> acc_act (st (gs m)) <> SOFTMAX ->
  multiply_ready (dram m) ->
  wp (SystolicMultiply mode relu dimI dimJ dimK in1 in2 out scale bias) (fun _ m' =>
    (forall i j, 0 <= i < dimI -> 0 <= j < dimJ ->
       mem_int 1 (dram m') (out + i * dimJ + j) = s8 (default 0 (multiply_value (dram m) i j))) /\
    mem_differ (stored 1 (fun e => out + fst e * dimJ + snd e) (pairs dimI dimJ)) (dram m) (dram m')) m.
Proof.
  intros Hm Hrd Hact Hr. apply wp_SystolicMultiply; [done..|]. intros m' _ _ [Hd Hv]. split; [|exact Hd]. intros i j Hi Hj.
  assert ((i, j) ∈ pairs dimI dimJ) as He by (by apply elem_of_pairs). exact (Hv (i, j) He).
Qed.
End multiply.

(** ** A 4 x 2 by 2 x 4 product *)

Lemma small_multiply_ready : multiply_ready true 4 4 2 0x1000 0x1020 0x1080 0 f32_one (dram demo).
Proof.
  split; try done; try (unfold range_ok; lia).
  - intros k Hk. apply flat_mem_readable; simpl; lia.
  - intros k Hk. apply flat_mem_readable; simpl; lia.
  - intros k Hk. apply flat_mem_writable; simpl; lia.
  - unfold apart. split_and!; [lia|lia|done].
  - intros i j Hi Hj. apply (by_evaluation (fun p => is_Some (multiply_value true 4 2 0x1000 0x1020 0 f32_one (dram demo) (fst p) (snd p)))
      (fun p => defined (multiply_value true 4 2 0x1000 0x1020 0 f32_one (dram demo) (fst p) (snd p))) (pairs 4 4)) with (a := (i, j)).
    + intros p. apply defined_is_Some.
    + by vm_compute.
    + by apply elem_of_pairs.
Qed.

Lemma systolic_multiply_correct_witness :
  wp (SystolicMultiply (H0 := zero_rand) 2 true 4 4 2 0x1000 0x1020 0x1080 f32_one 0)
    (fun _ m' => mem_int 1 (dram m') 0x1080 = 36) demo.
Proof.
  refine (wp_mono _ _ _ _ (systolic_multiply_correct (H1 := zero_rand) true 4 4 2 0x1000 0x1020 0x1080 0 f32_one 2 demo
    ltac:(done) demo_ready ltac:(done) small_multiply_ready) _).
  intros [] m' [Hv _]. etransitivity; [exact (Hv 0 0 ltac:(lia) ltac:(lia))|]. by vm_compute.
Defined.
