(* ===== verification/StridedSpec.v ===== *)
(** * StridedSpec: [SystolicMultiply] with strides and a repeating bias

    The multiplication that the kernels run on a group of channels: the operands and
    the result are column ranges of wider matrices, and every row of the result gets
    the same bias. *)

From S2P Require Import Prelude Effects Float32 Params State Dram Fill Scaling Norm Config Move MoveSpec Compute LoopWs LoopConv Counters Dispatch Isa IsaSpec Issue LoopWsSpec MatmulCpu MatmulCpuSpec Matmul MatmulSpec Resadd ResaddSpec MatmulWsSpec ConvCpu Conv Systolic SystolicSpec.

Section strided.
Context {mem : Type} `{MmuLaws mem} `{Rand}.
Context (relu : bool) (dimI dimJ dimK in1 strideIn1 in2 strideIn2 out strideOut bias strideBias : Z) (scale : float32).
Implicit Types (d : mem) (m : machine mem).

Definition strided_sum d (i j : Z) : Z :=
  s32 ((if bias =? 0 then 0 else mem_int 4 d (bias + j * 4)) +
       Zsum (fun k => mem_int 1 d (in1 + i * strideIn1 + k) * mem_int 1 d (in2 + k * strideIn2 + j)) dimK).
Definition strided_value d (i j : Z) : option Z := scale_and_sat (strided_sum d i j) (b2z relu) scale 0.

Definition out_elem (e : Z * Z) : Z := out + fst e * strideOut + snd e.

(** The operand elements: size and address. *)
Inductive strided_operand : Z -> Z -> Prop :=
  | so_in1 i k : 0 <= i < dimI -> 0 <= k < dimK -> strided_operand 1 (in1 + i * strideIn1 + k)
  | so_in2 k j : 0 <= k < dimK -> 0 <= j < dimJ -> strided_operand 1 (in2 + k * strideIn2 + j)
  | so_bias j : bias <> 0 -> 0 <= j < dimJ -> strided_operand 4 (bias + j * 4).

Record strided_ready d : Prop := {
  sd_I : 1 <= dimI <= 2 ^ 30; sd_J : 1 <= dimJ <= 2 ^ 30; sd_K : 1 <= dimK <= 2 ^ 30;
  sd_strides : 0 <= strideIn1 < 2 ^ 31 /\ 0 <= strideIn2 < 2 ^ 31 /\ dimJ <= strideOut < 2 ^ 31 /\ 0 <= strideBias < 2 ^ 31;
  sd_operand size a : strided_operand size a -> mem_readable size d a /\ 0 < a /\ a + size <= 2 ^ 64;
  sd_out e : e ∈ pairs dimI dimJ -> mem_writable 1 d (out_elem e) /\ 0 < out_elem e < 2 ^ 64;
  sd_apart e size a : e ∈ pairs dimI dimJ -> strided_operand size a -> ~ a <= out_elem e < a + size;
  sd_scale : is_binary32 scale = true;
  sd_value i j : 0 <= i < dimI -> 0 <= j < dimJ -> is_Some (strided_value d i j) }.

Notation args := (multiply_args dimI dimJ dimK strideIn1 strideIn2 strideBias strideOut in1 in2 bias out (b2z relu) scale 0 true false false).

Lemma strided_operand_elem size a : operand_elem args size a -> strided_operand size a.
Proof.
  intros [i k Hi Hk|k j Hk Hj|i j Hb Hi Hj]; cbn [ma_dim_I ma_dim_J ma_dim_K ma_D multiply_args] in *.
  - replace (A_at args i k) with (in1 + i * strideIn1 + k) by (unfold A_at; cbn; lia). by apply so_in1.
  - replace (B_at args k j) with (in2 + k * strideIn2 + j) by (unfold B_at; cbn; lia). by apply so_in2.
  - replace (D_at args i j) with (bias + j * 4) by (unfold D_at; cbn; unfold sizeof_acc_t; lia). by apply so_bias.
Qed.

Lemma C_at_strided e : C_at args e = out_elem e.
Proof. done. Qed.

Lemma strided_value_eq d p : cpu_value args d p = strided_value d (fst p) (snd p).
Proof.
  unfold cpu_value, strided_value, cpu_sum, strided_sum. cbn [ma_dim_K ma_act ma_scale ma_relu6_shift ma_D multiply_args].
  assert (Zsum (MatmulCpuSpec.prod args d (fst p) (snd p)) dimK =
    Zsum (fun k => mem_int 1 d (in1 + fst p * strideIn1 + k) * mem_int 1 d (in2 + k * strideIn2 + snd p)) dimK) as ->.
  { apply Zsum_ext. intros k Hk. unfold MatmulCpuSpec.prod, op_elem. cbn [ma_A_scale ma_B_scale multiply_args].
    rewrite <- !mvin_scale_eq, !mvin_scale_identity by (by apply (mem_int_range 1)). cbn [default].
    unfold A_at, B_at. cbn. rewrite !Z.mul_1_r. f_equal; f_equal; lia. }
  unfold bias_val, D_at. cbn [ma_D ma_repeating_bias ma_stride_D multiply_args]. by rewrite Z.mul_0_l, Z.add_0_l.
Qed.

Lemma strided_mm_ready d : strided_ready d -> mm_ready args d.
Proof.
  intros [HI HJ HK (S1 & S2 & S3 & S4) Hop Hout Hap Hs Hv].
  split; cbn [ma_dim_I ma_dim_J ma_dim_K ma_stride_A ma_stride_B ma_stride_D ma_stride_C ma_scale ma_act multiply_args].
  - split; cbn [ma_dim_I ma_dim_J ma_A_scale ma_B_scale multiply_args].
    + exact float_total_one.
    + exact float_total_one.
    + intros size a Ha%strided_operand_elem. by apply Hop.
    + intros p Hp. rewrite C_at_strided. by apply Hout.
    + intros p q b Hp Hq. rewrite (C_at_strided p), (C_at_strided q). destruct (Hout p Hp), (Hout q Hq). rewrite !span_elem by (unfold in_u; lia). intros -> E.
      apply elem_of_pairs in Hp as [Hp1 Hp2], Hq as [Hq1 Hq2]. unfold out_elem in E.
      assert (fst p * strideOut + snd p = fst q * strideOut + snd q) as E' by lia.
      apply block_row_inj in E' as [E1 E2]; [|lia..]. destruct p, q. cbn [fst snd] in *. congruence.
    + intros p size a b Hp Ho%strided_operand_elem. rewrite C_at_strided. destruct (Hout p Hp), (Hop _ _ Ho) as (_ & ? & ?).
      rewrite span_elem by (unfold in_u; lia). intros -> (n & Hn & E). rewrite wrap_u_id in E by (unfold in_u; lia).
      apply (Hap p size a Hp Ho). lia.
    + intros p Hp. rewrite strided_value_eq by done. apply elem_of_pairs in Hp as [Hp1 Hp2]. by apply Hv.
  - unfold dim_ok. lia.
  - unfold dim_ok. lia.
  - unfold dim_ok. lia.
  - intros size a Ho%strided_operand_elem. destruct (Hop _ _ Ho) as (_ & ? & ?). assert (1 <= size) by (destruct Ho; lia). lia.
  - intros p Hp. rewrite C_at_strided. by apply Hout.
  - unfold in_u. lia.
  - by split_and!.
  - apply scale_total_float. exact float_total_one.
  - destruct relu; auto.
  - done.
  - done.
  - done.
  - done.
  - done.
Qed.

Lemma wp_strided_multiply mode Q m : get_accelerator_mode mode <> T_OS -> ready m -> acc_act (st (gs m)) <> SOFTMAX ->
  strided_ready (dram m) ->
  (forall m', ready m' -> acc_act (st (gs m')) <> SOFTMAX ->
     store_post 1 out_elem (fun e => default 0 (strided_value (dram m) (fst e) (snd e))) (pairs dimI dimJ) (dram m) (dram m') -> Q tt m') ->
  wp (SystolicMultiply_strided mode relu dimI dimJ dimK in1 strideIn1 in2 strideIn2 out strideOut scale bias strideBias true) Q m.
Proof.
  intros Hm Hrd Hact Hr HQ. unfold SystolicMultiply_strided. pose proof (sd_strides _ Hr) as (? & ? & ? & ?).
  pose proof (sd_I _ Hr). pose proof (sd_J _ Hr). pose proof (sd_K _ Hr).
  rewrite !(wrap_u_id 64) by (unfold in_u; lia).
  apply wp_tiled_matmul_auto; [destruct (get_accelerator_mode mode); auto; done|done|done|by apply strided_mm_ready|].
  intros m' Hrd' Hact' Hpost. apply HQ; [done..|]. eapply store_post_ext; [|exact Hpost]. intros e He. cbn beta.
  by rewrite strided_value_eq.
Qed.
End strided.
