(* ===== verification/Tensor.v ===== *)
(** * Tensor: tensors, shapes and statuses of the execution provider

    The parts of ONNX Runtime's framework that the systolic kernels use:
    [TensorShape] (framework/tensor_shape.cc), a tensor as a shape and the address
    of its data, and [Status].  An [int64_t] that counts or addresses elements is a
    [Z]: the products of dimensions are the sizes that [TensorShape::Size] computes
    with [SafeInt], which throws instead of overflowing.  A conversion of such a value to
    [int] is written out as [s32]. *)

From S2P Require Import Prelude Effects Float32 Params State Dram MatmulCpu.

(** ** Status *)

(** [common::Status]: the codes the kernels return. *)
Inductive Status := StatusOK | FAIL | INVALID_ARGUMENT.

#[export] Instance Status_eq_dec : EqDecision Status.
Proof. solve_decision. Defined.

(** What a function with an out parameter returns: an error status, or success and
    the value of the parameter. *)
Inductive result (A : Type) :=
  | Err (e : Status)
  | Val (a : A).
Arguments Err {A} e.
Arguments Val {A} a.

(** [ORT_RETURN_IF_ERROR(m)] in a function that returns a status, [err] being how
    that function returns the status [e]. *)
Definition return_if_error {S A B} (err : Status -> B) (m : M S (result A)) (k : A -> M S B) : M S B :=
  r ← m;
  match r with
  | Err e => mret (err e)
  | Val a => k a
  end.

(** [ORT_ENFORCE(b, ...)] *)
Definition enforce {S} (b : bool) : M S unit := check b EnforceFailed.

(** ** Shapes *)

Definition shape := list Z.

(** [TensorShape::SizeHelper] over a range of dimensions: -1 at the first negative
    dimension, the product otherwise, which must fit [int64_t]. *)
Fixpoint size_helper {S} (size : Z) (dims : list Z) : M S Z :=
  match dims with
  | [] => mret size
  | d :: dims' =>
      if d <? 0 then mret (-1)
      else enforce (size * d <? 2 ^ 63) ;; size_helper (size * d) dims'
  end.

(** [TensorShape::Size()] *)
Definition Size {S} (s : shape) : M S Z := size_helper 1 s.

(** [TensorShape::Slice(dimstart, dimend)] *)
Definition Slice {S} (s : shape) (dimstart dimend : nat) : M S shape :=
  enforce ((dimstart <=? dimend)%nat && (dimend <=? length s)%nat) ;;
  mret (take (dimend - dimstart) (drop dimstart s)).

(** The number of elements of a shape. *)
Definition shape_size (s : shape) : Z := foldr Z.mul 1 s.

(** [vector::resize(n, v)] of an empty vector. *)
Definition default_list (l : list Z) (n : nat) (v : Z) : list Z :=
  match l with [] => replicate n v | _ => l end.

(** ** Tensors *)

Record Tensor := { t_shape : shape; t_data : Z }.

(** [IsScalarOr1ElementVector(tensor)] *)
Definition IsScalarOr1ElementVector (t : Tensor) : bool :=
  match t_shape t with
  | [] => true
  | [d] => d =? 1
  | _ => false
  end.

Section access.
Context {mem : Type} `{Mmu mem}.

(** [*tensor->Data<int8_t>()] *)
Definition scalar_int8 (t : Tensor) : M (machine mem) Z := load_elem (t_data t).

(** [*tensor->Data<float>()] *)
Definition scalar_float (t : Tensor) : M (machine mem) float32 :=
  b ← load_acc (t_data t); mret (f32_of_bits (u32 b)).

(** [memcpy(dst, src, n)], byte by byte. *)
Definition memcpy (dst src n : Z) : M (machine mem) unit :=
  for_range 0 n (fun i => v ← load_elem (src + i); write_to_dram sizeof_elem_t (dst + i) v).
End access.

(** ** Loops with an [int] counter and an [int64_t] bound *)

(** [for (int i = 0; i < n; ++i)]: the counter overflows before it reaches a bound
    above [INT_MAX]. *)
Definition for_int {S} (n : Z) (f : Z -> M S unit) : M S unit :=
  for_range 0 n f ;; check (n <? 2 ^ 31) LoopWraps.

(** The same loop carrying local variables. *)
Definition fold_int {S A} (n : Z) (f : A -> Z -> M S A) (a : A) : M S A :=
  a ← fold_range 0 n f a; check (n <? 2 ^ 31) LoopWraps ;; mret a.

(** [for (int i = lo, r = 0; i < lo + len; i += step, ++r)] *)
Definition for_taps {S} (lo len step : Z) (f : Z -> Z -> M S unit) : M S unit :=
  if len <=? 0 then mret tt
  else if step <=? 0 then fail LoopWraps
  else for_range 0 (cdiv len step) (fun r => f (lo + r * step) r) ;;
       check (lo + cdiv len step * step <? 2 ^ 31) LoopWraps.

(** ** Facts *)

Lemma wp_Size {S} (s : shape) Q (st : S) : Forall (fun d => 0 <= d) s ->
  (forall k, shape_size (take k s) < 2 ^ 63) -> Q (shape_size s) st -> wp (Size s) Q st.
Proof.
  intros Hs Hb HQ. unfold Size.
  assert (forall l p, Forall (fun d => 0 <= d) l -> (forall k, p * shape_size (take k l) < 2 ^ 63) ->
    Q (p * shape_size l) st -> wp (size_helper p l) Q st) as Hgen.
  { induction l as [|d l IH]; intros p Hl Hp HQ'; simpl.
    - unfold shape_size in HQ'. simpl in HQ'. rewrite Z.mul_1_r in HQ'. by apply wp_ret.
    - apply Forall_cons in Hl as [Hd Hl]. assert ((d <? 0) = false) as -> by lia.
      apply wp_bind, wp_check.
      + specialize (Hp 1%nat). unfold shape_size in Hp. simpl in Hp. lia.
      + apply IH; [done| |].
        * intros k. specialize (Hp (Datatypes.S k)). unfold shape_size in *. simpl in Hp. lia.
        * unfold shape_size in *. simpl in HQ'. by rewrite <- Z.mul_assoc. }
  apply Hgen; [done| |]; [intros k; rewrite Z.mul_1_l; apply Hb|by rewrite Z.mul_1_l].
Qed.

Lemma wp_for_int {S} (I : Z -> S -> Prop) n (f : Z -> M S unit) Q s :
  n < 2 ^ 31 -> I 0 s ->
  (forall i s', 0 <= i < n -> I i s' -> wp (f i) (fun _ => I (i + 1)) s') ->
  (forall s', I (Z.max 0 n) s' -> Q tt s') ->
  wp (for_int n f) Q s.
Proof.
  intros Hn H0 HS HQ. unfold for_int. apply wp_bind, (wp_for_range I); [done..|].
  intros s' Hs'. apply wp_check; [lia|]. by apply HQ.
Qed.
