(* ===== verification/Buffer.v ===== *)
(** * Buffer: programs that fill a byte buffer

    The kernels of the execution provider fill buffers of [int8_t] through nests of
    loops and pointers that move.  What such a program does to a buffer of [N] bytes
    at [base] is stated by offset: it gives every offset in a set [P] the value
    [val k], and touches no other byte ([filled]).  As the value is a function of
    the offset, two such programs compose without a disjointness condition. *)

From S2P Require Import Prelude Effects Float32 Params State Dram Fill MatmulCpu ConvCpu ConvCpuSpec Tensor.

Section buffer.
Context {mem : Type} `{MmuLaws mem}.
Context (base : Z) (val : Z -> Z).
Implicit Types (P : Z -> Prop) (d : mem) (m : machine mem).

(** The addresses of the offsets in [P]. *)
Definition bytes_of P (b : Z) : Prop := exists k, P k /\ b = u64 (base + k).

Definition filled P d d' : Prop :=
  mem_differ (bytes_of P) d d' /\ forall k, P k -> mem_int 1 d' (base + k) = s8 (val k).

(** The buffer does not wrap around the end of the address space. *)
Definition buffer (N : Z) : Prop := 0 <= base /\ base + N <= 2 ^ 64.
Definition within (N : Z) P : Prop := forall k, P k -> 0 <= k < N.

Lemma filled_nil P d : (forall k, ~ P k) -> filled P d d.
Proof. intros Hn. split; [apply mem_differ_refl|]. by intros k ?%Hn. Qed.

Lemma filled_ext P P' d d' : (forall k, P k <-> P' k) -> filled P d d' -> filled P' d d'.
Proof.
  intros He [Hd Hv]. split; [|intros k Hk; by apply Hv, He].
  eapply mem_differ_weaken; [done|]. intros b (k & Hk & ->). exists k. by rewrite <- He.
Qed.

Lemma filled_weaken P N d d' : within N P -> filled P d d' -> mem_differ (span N base) d d'.
Proof. intros Hw [Hd _]. eapply mem_differ_weaken; [done|]. intros b (k & Hk & ->). exists k. auto. Qed.

Lemma buffer_inj N k k' : buffer N -> 0 <= k < N -> 0 <= k' < N -> u64 (base + k) = u64 (base + k') -> k = k'.
Proof. intros [H1 H2] Hk Hk'. rewrite !wrap_u_id by (unfold in_u; lia). lia. Qed.

(** The value of an offset survives stores of other offsets. *)
Lemma filled_keep P N d d' k : buffer N -> within N P -> 0 <= k < N -> ~ P k -> filled P d d' ->
  mem_int 1 d' (base + k) = mem_int 1 d (base + k).
Proof.
  intros Hb Hw Hk Hn [Hd _]. eapply mem_int_differ; [done|]. intros i Hi (k' & Hk' & E). replace i with 0 in E by lia.
  rewrite Z.add_0_r in E. apply (buffer_inj N) in E; [by subst|done|done|by apply Hw].
Qed.

(** Whether an offset is in the second set need not be decided: equality of its
    value is. *)
Lemma filled_app P1 P2 N d d1 d2 : buffer N -> within N P1 -> within N P2 ->
  filled P1 d d1 -> filled P2 d1 d2 -> filled (fun k => P1 k \/ P2 k) d d2.
Proof.
  intros Hb W1 W2 [Hd1 Hv1] [Hd2 Hv2]. split.
  - eapply mem_differ_trans; (eapply mem_differ_weaken; [done|]); intros b (k & Hk & ->); exists k; auto.
  - intros k Hk. destruct (decide (mem_int 1 d2 (base + k) = s8 (val k))) as [|Hne]; [done|].
    assert (~ P2 k) as Hn2 by (intros Hk2; by apply Hne, Hv2). destruct Hk as [Hk|Hk]; [|done].
    rewrite (filled_keep P2 N d1) by (done || by apply W1). by apply Hv1.
Qed.

Lemma wp_filled_byte N k v Q m : buffer N -> 0 <= k < N -> mem_writable 1 (dram m) (base + k) -> s8 v = s8 (val k) ->
  (forall d', filled (fun k' => k' = k) (dram m) d' -> Q tt (Machine (gs m) d' (rand_pos m))) ->
  wp (write_to_dram sizeof_elem_t (base + k) v) Q m.
Proof.
  intros Hb Hk Hw Hv HQ. apply wp_store_byte; [done|]. intros d' Hd' E. apply HQ. split.
  - eapply mem_differ_weaken; [done|]. intros b (i & Hi & ->). exists k. split; [done|]. f_equal. lia.
  - intros k' ->. by rewrite E.
Qed.
End buffer.

(** ** Loops that fill *)

Section loops.
Context {mem : Type} `{MmuLaws mem}.
Context (base N : Z) (val : Z -> Z) (Hbuf : buffer base N) (inv : machine mem -> Prop).
Implicit Types (P : Z -> Z -> Prop) (m : machine mem).

(** The offsets given by the iterations below [n]. *)
Definition upto (n : Z) P (k : Z) : Prop := exists i, 0 <= i < n /\ P i k.

Lemma upto_S n P k : 0 <= n -> upto (n + 1) P k <-> upto n P k \/ P n k.
Proof.
  intros Hn. split.
  - intros (i & Hi & Hp). destruct (decide (i = n)) as [->|]; [by right|left]. exists i. split; [lia|done].
  - intros [(i & Hi & Hp)|Hp]; [exists i|exists n]; (split; [lia|done]).
Qed.

Lemma upto_0 P k : ~ upto 0 P k.
Proof. intros (i & Hi & _). lia. Qed.

Lemma filled_step n i P d d1 d2 : (forall j, 0 <= j < n -> within N (P j)) -> 0 <= i < n ->
  filled base val (upto i P) d d1 -> filled base val (P i) d1 d2 -> filled base val (upto (i + 1) P) d d2.
Proof.
  intros Hw Hi S1 S2. apply (filled_ext base val (fun k => upto i P k \/ P i k)); [intros k; symmetry; apply upto_S; lia|].
  eapply (filled_app base val _ _ N); [done| |by apply Hw|done..]. intros k (j & Hj & Hp). eapply (Hw j); [lia|done].
Qed.

Lemma filled_end n P d d' : filled base val (upto (Z.max 0 n) P) d d' -> filled base val (upto n P) d d'.
Proof. apply filled_ext. intros k. split; intros (i & Hi & Hp); exists i; (split; [lia|done]). Qed.

Lemma wp_fold_filled {A} (acc : Z -> A) n (f : A -> Z -> M (machine mem) A) P Q m :
  (forall i, 0 <= i < n -> within N (P i)) -> inv m ->
  (forall i m', 0 <= i < n -> inv m' ->
     wp (f (acc i) i) (fun a m'' => a = acc (i + 1) /\ inv m'' /\ filled base val (P i) (dram m') (dram m'')) m') ->
  (forall m', inv m' -> filled base val (upto n P) (dram m) (dram m') -> Q (acc (Z.max 0 n)) m') ->
  wp (fold_range 0 n f (acc 0)) Q m.
Proof.
  intros Hw Hi Hf HQ.
  apply (wp_fold_range (fun k a m' => a = acc k /\ inv m' /\ filled base val (upto k P) (dram m) (dram m'))).
  - split_and!; [done|done|]. apply filled_nil, upto_0.
  - intros i a m' Hr (-> & Hi' & Hs). eapply wp_mono; [by apply Hf|]. intros a m'' (-> & Hi'' & Hs'). split_and!; [done..|].
    by eapply filled_step.
  - intros a m' (-> & Hi' & Hs). apply HQ; [done|]. by apply filled_end.
Qed.

Lemma wp_for_filled n (f : Z -> M (machine mem) unit) P Q m :
  (forall i, 0 <= i < n -> within N (P i)) -> inv m ->
  (forall i m', 0 <= i < n -> inv m' -> wp (f i) (fun _ m'' => inv m'' /\ filled base val (P i) (dram m') (dram m'')) m') ->
  (forall m', inv m' -> filled base val (upto n P) (dram m) (dram m') -> Q tt m') ->
  wp (for_range 0 n f) Q m.
Proof.
  intros Hw Hi Hf HQ.
  apply (wp_for_range (fun k m' => inv m' /\ filled base val (upto k P) (dram m) (dram m'))).
  - split; [done|]. apply filled_nil, upto_0.
  - intros i m' Hr (Hi' & Hs). eapply wp_mono; [by apply Hf|]. intros [] m'' (Hi'' & Hs'). split; [done|]. by eapply filled_step.
  - intros m' (Hi' & Hs). apply HQ; [done|]. by apply filled_end.
Qed.

Lemma wp_for_int_filled n (f : Z -> M (machine mem) unit) P Q m : n < 2 ^ 31 ->
  (forall i, 0 <= i < n -> within N (P i)) -> inv m ->
  (forall i m', 0 <= i < n -> inv m' -> wp (f i) (fun _ m'' => inv m'' /\ filled base val (P i) (dram m') (dram m'')) m') ->
  (forall m', inv m' -> filled base val (upto n P) (dram m) (dram m') -> Q tt m') ->
  wp (for_int n f) Q m.
Proof.
  intros Hn Hw Hi Hf HQ. unfold for_int. apply wp_bind. eapply (wp_for_filled n f P); [done..|].
  intros m' Hi' Hs. apply wp_check; [lia|]. by apply HQ.
Qed.

(** A loop over the taps of a dilated kernel of [k] positions. *)
Lemma wp_for_taps_filled lo k step (f : Z -> Z -> M (machine mem) unit) P Q m : 1 <= k -> 1 <= step ->
  lo + k * step < 2 ^ 31 ->
  (forall i, 0 <= i < k -> within N (P i)) -> inv m ->
  (forall i m', 0 <= i < k -> inv m' ->
     wp (f (lo + i * step) i) (fun _ m'' => inv m'' /\ filled base val (P i) (dram m') (dram m'')) m') ->
  (forall m', inv m' -> filled base val (upto k P) (dram m) (dram m') -> Q tt m') ->
  wp (for_taps lo (step * (k - 1) + 1) step f) Q m.
Proof.
  intros Hk Hst Hlo Hw Hi Hf HQ. unfold for_taps.
  assert (cdiv (step * (k - 1) + 1) step = k) as ->.
  { pose proof (cdiv_spec (step * (k - 1) + 1) step ltac:(lia)). nia. }
  assert ((step * (k - 1) + 1 <=? 0) = false) as -> by nia. assert ((step <=? 0) = false) as -> by lia.
  apply wp_bind. eapply (wp_for_filled k _ P); [done..|]. intros m' Hi' Hs. apply wp_check; [lia|]. by apply HQ.
Qed.
End loops.
