(* ===== verification/ConvHelper.v ===== *)
(** * ConvHelper: convolution and pooling helpers of the execution provider

    conv_pool_helper.h: the attempts to run a convolution on the accelerator, the
    im2col transformation of the fallback path, the shape check and max
    pooling.  The element type is [int8_t], the one of the INT8 build. *)

From S2P Require Import Prelude Effects Float32 Params State Dram Scaling Isa MatmulCpu Matmul ConvCpu Conv Systolic Tensor.

(** ** Trying the accelerator *)

(** The members of [PoolAttributes] that the helpers read. *)
Record PoolAttributes := {
  pa_fused_pool : bool; pa_kernel_shape : list Z; pa_pads : list Z; pa_strides : list Z; pa_dilations : list Z }.

(** [std::any_of(l.begin(), l.end(), [&](int i) { return i != v; })]: the elements
    are converted to [int]. *)
Definition any_differ (l : list Z) (v : Z) : bool := existsb (fun i => negb (s32 i =? v)) l.

(** [any_of] with [l[0]] in the lambda: it is not evaluated for an empty vector. *)
Definition any_differ_first (l : list Z) : bool :=
  match l with [] => false | v :: _ => any_differ l v end.

(** [(dim = s[i]) != s[j]], [dim] being an [int]. *)
Definition square {S} (s : shape) (i j : Z) : M S (option Z) :=
  a ← arr_get s i; b ← arr_get s j;
  mret (if s32 a =? b then Some (s32 a) else None).

(** [B != nullptr ? B->Data<bias_t>() : nullptr] *)
Definition bias_data (B : option Tensor) : Z := match B with Some t => t_data t | None => 0 end.

Section try_systolic.
Context {mem : Type} `{Mmu mem} `{Rand}.

(** The size, stride and padding of a fused pool, or [None] if they are not square. *)
Definition pool_square (pool_attrs_ : option PoolAttributes) : M (machine mem) (option (Z * Z * Z)) :=
  match pool_attrs_ with
  | Some p =>
      if pa_fused_pool p then
        pool_size ← square (pa_kernel_shape p) 0 1;
        match pool_size with
        | None => mret None
        | Some pool_size =>
            pool_stride ← square (pa_strides p) 0 1;
            match pool_stride with
            | None => mret None
            | Some pool_stride =>
                pool_padding ← square (pa_pads p) 0 1;
                mret (option_map (fun pool_padding => (pool_size, pool_stride, pool_padding)) pool_padding)
            end
        end
      else mret (Some (0, 0, 0))
  | None => mret (Some (0, 0, 0))
  end.

Definition TryConvOnSystolic (accelerator_mode : Z) (dilations pads strides : list Z) (groups : Z) (X W : Tensor)
    (B : option Tensor) (output : Tensor) (Y_dims_prepool : shape) (relu : bool) (pool_attrs_ : option PoolAttributes)
    (output_scale : float32) : M (machine mem) bool :=
  if negb (groups =? 1) then mret false else
  input_dim ← square (t_shape X) 1 2;
  match input_dim with None => mret false | Some input_dim =>
  output_dim ← square Y_dims_prepool 1 2;
  match output_dim with None => mret false | Some output_dim =>
  kernel_dim ← square (t_shape W) 0 1;
  match kernel_dim with None => mret false | Some kernel_dim =>
  if any_differ dilations 1 || any_differ_first pads || any_differ_first strides then mret false else
  pool ← pool_square pool_attrs_;
  match pool with None => mret false | Some (pool_size, pool_stride, pool_padding) =>
  size ← Size (t_shape output);
  if size =? 0 then mret true else
  batch_size ← arr_get (t_shape X) 0;
  input_channels ← arr_get (t_shape X) 3;
  output_channels ← arr_get (t_shape W) 3;
  stride ← arr_get strides 0;
  pad ← arr_get pads 0;
  SystolicConv accelerator_mode (s32 batch_size) input_dim (s32 input_channels) (s32 output_channels) output_dim
    (s32 stride) (s32 pad) kernel_dim (t_data X) (t_data W) (bias_data B) (t_data output) relu output_scale
    pool_size pool_stride pool_padding ;;
  mret true
  end end end end.

Definition TryConvTransposeOnSystolic (accelerator_mode : Z) (dilations pads strides : list Z) (groups : Z) (input W : Tensor)
    (B : option Tensor) (output : Tensor) (relu : bool) (output_scale : float32) : M (machine mem) bool :=
  if negb (groups =? 1) then mret false else
  input_dim ← square (t_shape input) 1 2;
  match input_dim with None => mret false | Some input_dim =>
  output_dim ← square (t_shape output) 1 2;
  match output_dim with None => mret false | Some output_dim =>
  kernel_dim ← square (t_shape W) 0 1;
  match kernel_dim with None => mret false | Some kernel_dim =>
  if any_differ dilations 1 || any_differ_first pads || any_differ_first strides then mret false else
  size ← Size (t_shape output);
  if size =? 0 then mret true else
  batch_size ← arr_get (t_shape input) 0;
  input_channels ← arr_get (t_shape input) 3;
  output_channels ← arr_get (t_shape output) 3;
  stride ← arr_get strides 0;
  pad ← arr_get pads 0;
  SystolicConvTranspose accelerator_mode (s32 batch_size) input_dim (s32 input_channels) (s32 output_channels) output_dim
    (s32 stride) (s32 pad) kernel_dim (t_data input) (t_data W) (bias_data B) (t_data output) relu output_scale ;;
  mret true
  end end end.

(** The batch and channel dimensions are those after the input and the weights are
    transposed, the output is in HWIO order. *)
Definition TryConvBackpropFilterOnSystolic (accelerator_mode : Z) (dilations pads strides : list Z) (groups : Z)
    (input W : Tensor) (B : option Tensor) (output : Tensor) (relu : bool) (output_scale : float32) : M (machine mem) bool :=
  if negb (groups =? 1) then mret false else
  input_dim ← square (t_shape input) 1 2;
  match input_dim with None => mret false | Some input_dim =>
  output_dim ← square (t_shape output) 0 1;
  match output_dim with None => mret false | Some output_dim =>
  kernel_dim ← square (t_shape W) 1 2;
  match kernel_dim with None => mret false | Some kernel_dim =>
  if any_differ dilations 1 || any_differ_first pads || any_differ_first strides then mret false else
  size ← Size (t_shape output);
  if size =? 0 then mret true else
  batch_size ← arr_get (t_shape input) 3;
  input_channels ← arr_get (t_shape input) 0;
  output_channels ← arr_get (t_shape output) 3;
  stride ← arr_get strides 0;
  pad ← arr_get pads 0;
  SystolicConvBackpropFilter accelerator_mode (s32 batch_size) input_dim (s32 input_channels) (s32 output_channels) output_dim
    (s32 stride) (s32 pad) kernel_dim (t_data input) (t_data W) (bias_data B) (t_data output) relu output_scale ;;
  mret true
  end end end.
End try_systolic.

(** ** Patches *)

(** The geometry that im2col and col2im share. *)
Record patch_args := {
  pt_channels : Z; pt_height : Z; pt_width : Z; pt_kernel_h : Z; pt_kernel_w : Z; pt_dilation_h : Z; pt_dilation_w : Z;
  pt_pad_t : Z; pt_pad_l : Z; pt_pad_b : Z; pt_pad_r : Z; pt_stride_h : Z; pt_stride_w : Z }.

(** The side of a kernel with its gaps. *)
Definition dkernel_h (p : patch_args) : Z := pt_dilation_h p * (pt_kernel_h p - 1) + 1.
Definition dkernel_w (p : patch_args) : Z := pt_dilation_w p * (pt_kernel_w p - 1) + 1.

(** The number of window positions. *)
Definition height_col (p : patch_args) : Z :=
  Z.quot (pt_height p + pt_pad_t p + pt_pad_b p - dkernel_h p) (pt_stride_h p) + 1.
Definition width_col (p : patch_args) : Z :=
  Z.quot (pt_width p + pt_pad_l p + pt_pad_r p - dkernel_w p) (pt_stride_w p) + 1.

Definition inside (n i : Z) : bool := (0 <=? i) && (i <? n).

Section im2col.
Context {mem : Type} `{Mmu mem}.
Variable (p : patch_args).

(** One tap of a window: the channels of a pixel are copied group by group, or set to
    the padding value. *)
Definition im2col_tap (data_im data_col_temp groups padding_value ih r iw s : Z) : M (machine mem) unit :=
  let cg := Z.quot (pt_channels p) groups in
  let dst g := data_col_temp + ((g * pt_kernel_h p + r) * pt_kernel_w p + s) * cg in
  if inside (pt_height p) ih && inside (pt_width p) iw then
    for_int groups (fun g =>
      memcpy (dst g) (data_im + (ih * pt_width p + iw) * pt_channels p + g * cg) (sizeof_elem_t * cg))
  else
    for_int groups (fun g => for_int cg (fun i => write_to_dram sizeof_elem_t (dst g + i) padding_value)).

Definition im2col_window (data_im data_col_temp groups padding_value h_pad w_pad : Z) : M (machine mem) unit :=
  for_taps h_pad (dkernel_h p) (pt_dilation_h p) (fun ih r =>
    for_taps w_pad (dkernel_w p) (pt_dilation_w p) (fun iw s =>
      im2col_tap data_im data_col_temp groups padding_value ih r iw s)).

Definition Im2Col_NHWC (data_im data_col groups padding_value : Z) : M (machine mem) unit :=
  check (negb (pt_stride_h p =? 0) && negb (pt_stride_w p =? 0)) Undefined ;;
  for_int (height_col p) (fun h =>
    let h_pad := s32 (- pt_pad_t p + h * pt_stride_h p) in
    let data_col_temp := data_col + h * width_col p * pt_kernel_h p * pt_kernel_w p * pt_channels p in
    _ ← fold_int (width_col p) (fun '(data_col_temp, w_pad) w =>
      im2col_window data_im data_col_temp groups padding_value h_pad w_pad ;;
      mret (data_col_temp + pt_kernel_h p * pt_kernel_w p * pt_channels p, s32 (w_pad + pt_stride_w p)))
      (data_col_temp, s32 (- pt_pad_l p));
    mret tt).
End im2col.

(** ** [ValidateConvInputShapeNHWC] *)

Definition ValidateConvInputShapeNHWC {S} (X W : Tensor) (group : Z) : M S Status :=
  C ← arr_get (t_shape X) 3;
  M ← arr_get (t_shape W) 3;
  C_over_groups ← arr_get (t_shape W) 2;
  if negb (length (t_shape X) =? length (t_shape W))%nat then mret FAIL
  else if negb (C =? C_over_groups * group) then mret FAIL
  else check (negb (group =? 0)) Undefined ;;
       if negb (Z.rem M group =? 0) then mret FAIL else mret StatusOK.

(** ** Max pooling *)

(** The array expressions of Eigen that pooling uses: a column of an array mapped at
    a pointer is set to a constant, or to the maximum with another column. *)
Class EigenCols (mem : Type) := {
  col_set_constant : Z -> Z -> Z -> M (machine mem) unit;  (** column, length, value *)
  col_assign_max : Z -> Z -> Z -> M (machine mem) unit     (** column, other column, length *) }.

Section maxpool.
Context {mem : Type} `{Mmu mem} `{EigenCols mem}.

(** [ComputeMaxPool2D<int8_t, StorageOrder::NHWC>]: the arrays have [C] rows. *)
Definition ComputeMaxPool2D (C W t b l r y X_ptr Y_ptr : Z) : M (machine mem) unit :=
  col_set_constant (Y_ptr + y * C) C INT8_MIN ;;
  for_range t b (fun i =>
    for_range l r (fun j =>
      col_assign_max (Y_ptr + y * C) (X_ptr + s32 (i * W + j) * C) C)).

(** [RunMaxPool2D<int8_t, StorageOrder::NHWC>] *)
Definition RunMaxPool2D (N C X_H X_W Y_H Y_W kernel_h kernel_w stride_h stride_w pad_t pad_l X Y : Z) : M (machine mem) unit :=
  let X_HxW := s32 (X_H * X_W) in
  let Y_HxW := s32 (Y_H * Y_W) in
  let X_stride := s32 (X_HxW * C) in
  let Y_stride := s32 (Y_HxW * C) in
  _ ← fold_range 0 N (fun '(X_ptr, Y_ptr) i =>
    for_range 0 Y_H (fun h =>
      let t := Z.max (s32 (h * stride_h - pad_t)) 0 in
      let b := Z.min (s32 (h * stride_h - pad_t + kernel_h)) X_H in
      for_range 0 Y_W (fun w =>
        let l := Z.max (s32 (w * stride_w - pad_l)) 0 in
        let r := Z.min (s32 (w * stride_w - pad_l + kernel_w)) X_W in
        let y := s32 (h * Y_W + w) in
        ComputeMaxPool2D C X_W t b l r y X_ptr Y_ptr)) ;;
    mret (X_ptr + X_stride, Y_ptr + Y_stride)) (X, Y);
  mret tt.
End maxpool.
