(* ===== verification/ConvHelperSpec.v ===== *)
(** * ConvHelperSpec: im2col, the shape check and max pooling

    [Im2Col_NHWC] fills the column buffer with the patches of the image, one row per
    output pixel, grouped by channel group, with the padding value outside of the
    image; [RunMaxPool2D] stores the maximum of each window. *)

From S2P Require Import Prelude Effects Float32 Params State Dram Fill Scaling Norm Config Move MoveSpec Isa MatmulCpu ConvCpu ConvCpuSpec Matmul Conv Systolic Tensor Buffer ConvHelper.

(** ** Mixed-radix offsets *)

Lemma radix_div a b n : 0 <= b < n -> (a * n + b) / n = a.
Proof. intros Hb. rewrite Z.div_add_l by lia. rewrite Z.div_small by lia. lia. Qed.
Lemma radix_mod a b n : 0 <= b < n -> (a * n + b) mod n = b.
Proof. intros Hb. rewrite Z.add_comm, Z_mod_plus_full. by apply Z.mod_small. Qed.

Lemma le_mul_l a b : 0 <= a -> 1 <= b -> a <= a * b.
Proof. nia. Qed.
Lemma le_mul_r a b : 0 <= a -> 1 <= b -> a <= b * a.
Proof. nia. Qed.
Lemma mul_pos a b : 1 <= a -> 1 <= b -> 1 <= a * b.
Proof. nia. Qed.

Ltac upto_open := repeat match goal with
  | Hk : upto _ _ _ |- _ => let i := fresh "i" in let Hi := fresh "Hi" in destruct Hk as (i & Hi & Hk); cbv beta in Hk
  end.

(** ** [memcpy] *)

Section memcpy.
Context {mem : Type} `{MmuLaws mem}.
Context (base N : Z) (val : Z -> Z) (Hbuf : buffer base N) (inv : machine mem -> Prop).
Context (Hstable : forall m d', inv m -> mem_differ (span N base) (dram m) d' -> inv (Machine (gs m) d' (rand_pos m))).
Context (Hw : forall m k, inv m -> 0 <= k < N -> mem_writable 1 (dram m) (base + k)).

(** One byte of the buffer, and [n] bytes copied into it. *)
Lemma wp_fill_byte k v Q m : 0 <= k < N -> inv m -> s8 v = s8 (val k) ->
  (forall m', inv m' -> filled base val (fun k' => k' = k) (dram m) (dram m') -> Q tt m') ->
  wp (write_to_dram sizeof_elem_t (base + k) v) Q m.
Proof.
  intros Hk Hi Hv HQ. apply (wp_filled_byte base val N); [done|done|by apply Hw|done|]. intros d' Hf. apply HQ; [|done].
  apply Hstable; [done|]. eapply filled_weaken; [|done]. by intros k' ->.
Qed.

Lemma wp_memcpy src off n Q m : 0 <= off -> off + n <= N -> inv m ->
  (forall i m', 0 <= i < n -> inv m' -> mem_readable 1 (dram m') (src + i) /\ mem_int 1 (dram m') (src + i) = s8 (val (off + i))) ->
  (forall m', inv m' -> filled base val (upto n (fun i k => k = off + i)) (dram m) (dram m') -> Q tt m') ->
  wp (memcpy (base + off) src n) Q m.
Proof.
  intros Ho Hn Hi Hr HQ. unfold memcpy.
  apply (wp_for_filled base N val Hbuf inv n _ (fun i k => k = off + i)); [intros i Hr' k ->; lia|done| |done].
  intros i m' Hi' Hinv. destruct (Hr i m' Hi' Hinv) as [R V]. apply wp_bind. unfold load_elem, sizeof_elem_t at 1.
  apply wp_read_from_dram; [lia|done|]. rewrite <- Z.add_assoc. apply wp_fill_byte; [lia|done| |done].
  rewrite V. by apply wrap_s_wrap_s.
Qed.
End memcpy.

(** ** im2col *)

Section im2col_spec.
Context {mem : Type} `{MmuLaws mem}.
Context (p : patch_args) (data_im data_col groups padding_value : Z).
Implicit Types (d : mem) (m : machine mem).

Definition group_channels : Z := Z.quot (pt_channels p) groups.
Notation cg := group_channels.

(** The image row or column of tap [r] of window [h]. *)
Definition tap_row (h r : Z) : Z := h * pt_stride_h p - pt_pad_t p + r * pt_dilation_h p.
Definition tap_col (w s : Z) : Z := w * pt_stride_w p - pt_pad_l p + s * pt_dilation_w p.

Definition im_offset (ih iw c : Z) : Z := (ih * pt_width p + iw) * pt_channels p + c.

(** The value that tap [(r, s)] of window [(h, w)] sees in channel [i] of group [g]. *)
Definition patch_value d (h w g r s i : Z) : Z :=
  if inside (pt_height p) (tap_row h r) && inside (pt_width p) (tap_col w s)
  then mem_int 1 d (data_im + im_offset (tap_row h r) (tap_col w s) (g * cg + i)) else s8 padding_value.

(** Where it goes, and back from the offset. *)
Definition col_offset (h w g r s i : Z) : Z :=
  ((((h * width_col p + w) * groups + g) * pt_kernel_h p + r) * pt_kernel_w p + s) * cg + i.
Definition col_size : Z := height_col p * width_col p * groups * pt_kernel_h p * pt_kernel_w p * cg.
Definition col_value d (k : Z) : Z :=
  let q := k / cg / pt_kernel_w p / pt_kernel_h p / groups in
  patch_value d (q / width_col p) (q mod width_col p) ((k / cg / pt_kernel_w p / pt_kernel_h p) mod groups)
    ((k / cg / pt_kernel_w p) mod pt_kernel_h p) ((k / cg) mod pt_kernel_w p) (k mod cg).

(** The geometry: whole groups of channels, a kernel that fits in the padded image, and
    positions that an [int] holds. *)
Record patch_ok : Prop := {
  im_channels : 1 <= groups < 2 ^ 31 /\ 1 <= cg < 2 ^ 31 /\ pt_channels p = groups * cg;
  im_kernel : 1 <= pt_kernel_h p /\ 1 <= pt_kernel_w p;
  im_steps : 1 <= pt_dilation_h p /\ 1 <= pt_dilation_w p /\ 1 <= pt_stride_h p /\ 1 <= pt_stride_w p;
  im_pads : 0 <= pt_pad_t p < 2 ^ 31 /\ 0 <= pt_pad_l p < 2 ^ 31 /\ 0 <= pt_pad_b p /\ 0 <= pt_pad_r p;
  im_fits_h : dkernel_h p <= pt_height p + pt_pad_t p + pt_pad_b p /\ pt_height p + pt_pad_t p + pt_pad_b p + pt_dilation_h p < 2 ^ 31;
  im_fits_w : dkernel_w p <= pt_width p + pt_pad_l p + pt_pad_r p /\ pt_width p + pt_pad_l p + pt_pad_r p + pt_dilation_w p < 2 ^ 31 }.

(** What a call needs. *)
Record im2col_ready d : Prop := {
  im_geometry : patch_ok;
  im_buffer : buffer data_col col_size;
  im_read k : 0 <= k < pt_height p * pt_width p * pt_channels p -> mem_readable 1 d (data_im + k);
  im_write k : 0 <= k < col_size -> mem_writable 1 d (data_col + k);
  im_apart k : 0 <= k < pt_height p * pt_width p * pt_channels p -> ~ span col_size data_col (u64 (data_im + k)) }.

(** The machine while the buffer is being filled. *)
Definition filling d m0 m : Prop :=
  gs m = gs m0 /\ rand_pos m = rand_pos m0 /\ mem_differ (span col_size data_col) d (dram m).

Lemma window_count n dk st : 1 <= st -> dk <= n -> 1 <= Z.quot (n - dk) st + 1 /\ (Z.quot (n - dk) st + 1 - 1) * st <= n - dk.
Proof.
  intros. rewrite Z.quot_div_nonneg by lia. pose proof (Z.mul_div_le (n - dk) st ltac:(lia)).
  pose proof (Z.div_pos (n - dk) st ltac:(lia) ltac:(lia)). lia.
Qed.

Lemma height_col_pos : patch_ok ->
  1 <= height_col p /\ (height_col p - 1) * pt_stride_h p <= pt_height p + pt_pad_t p + pt_pad_b p - dkernel_h p.
Proof. intros Hg. apply window_count; apply Hg. Qed.
Lemma width_col_pos : patch_ok ->
  1 <= width_col p /\ (width_col p - 1) * pt_stride_w p <= pt_width p + pt_pad_l p + pt_pad_r p - dkernel_w p.
Proof. intros Hg. apply window_count; apply Hg. Qed.

Section run.
Context (d : mem) (Hr : im2col_ready d) (m0 : machine mem).
Notation inv := (filling d m0).

Lemma col_value_offset h w g r s i : 0 <= w < width_col p -> 0 <= g < groups -> 0 <= r < pt_kernel_h p -> 0 <= s < pt_kernel_w p ->
  0 <= i < cg -> col_value d (col_offset h w g r s i) = patch_value d h w g r s i.
Proof.
  intros Hw Hg Hrr Hs Hi. unfold col_value, col_offset.
  repeat first [rewrite radix_div by done | rewrite radix_mod by done]. done.
Qed.

Lemma col_offset_bound h w g r s i : 0 <= h < height_col p -> 0 <= w < width_col p -> 0 <= g < groups -> 0 <= r < pt_kernel_h p ->
  0 <= s < pt_kernel_w p -> 0 <= i < cg -> 0 <= col_offset h w g r s i < col_size.
Proof. intros. unfold col_offset, col_size. by repeat apply radix_bound. Qed.

Lemma im_offset_bound ih iw c : 0 <= ih < pt_height p -> 0 <= iw < pt_width p -> 0 <= c < pt_channels p ->
  0 <= im_offset ih iw c < pt_height p * pt_width p * pt_channels p.
Proof. intros. unfold im_offset. by repeat apply radix_bound. Qed.

Lemma filling_stable m d' : inv m -> mem_differ (span col_size data_col) (dram m) d' -> inv (Machine (gs m) d' (rand_pos m)).
Proof. intros (Hg & Hp & Hd) Hd'. split_and!; [done..|]. by eapply mem_differ_trans. Qed.

Lemma filling_writable m k : inv m -> 0 <= k < col_size -> mem_writable 1 (dram m) (data_col + k).
Proof. intros (_ & _ & Hd) Hk. eapply mem_writable_differ; [done|]. by apply (im_write d Hr). Qed.

(** The image is not written. *)
Lemma filling_image m k : inv m -> 0 <= k < pt_height p * pt_width p * pt_channels p ->
  mem_readable 1 (dram m) (data_im + k) /\ mem_int 1 (dram m) (data_im + k) = mem_int 1 d (data_im + k).
Proof.
  intros (_ & _ & Hd) Hk. split; [eapply mem_readable_differ; [done|]; by apply (im_read d Hr)|].
  eapply mem_int_differ; [done|]. intros i Hi. replace i with 0 by lia. rewrite Z.add_0_r. by apply (im_apart d Hr).
Qed.

(** One tap, one window. *)
Definition tap_set (h w r s : Z) : Z -> Prop := upto groups (fun g => upto cg (fun i k => k = col_offset h w g r s i)).
Definition window_set (h w : Z) : Z -> Prop := upto (pt_kernel_h p) (fun r => upto (pt_kernel_w p) (fun s => tap_set h w r s)).

Lemma wp_im2col_tap h w r s Q m : 0 <= h < height_col p -> 0 <= w < width_col p -> 0 <= r < pt_kernel_h p -> 0 <= s < pt_kernel_w p ->
  inv m -> (forall m', inv m' -> filled data_col (col_value d) (tap_set h w r s) (dram m) (dram m') -> Q tt m') ->
  wp (im2col_tap p data_im (data_col + (h * width_col p + w) * (pt_kernel_h p * pt_kernel_w p * pt_channels p)) groups padding_value
        (tap_row h r) r (tap_col w s) s) Q m.
Proof.
  intros Hh Hw Hrr Hs Hi HQ. unfold im2col_tap. fold cg. destruct (im_channels (im_geometry d Hr)) as (Hg & Hc & Ec).
  assert (forall g, data_col + (h * width_col p + w) * (pt_kernel_h p * pt_kernel_w p * pt_channels p) +
    ((g * pt_kernel_h p + r) * pt_kernel_w p + s) * cg = data_col + col_offset h w g r s 0) as Edst
    by (intros g; unfold col_offset; rewrite Ec; ring).
  assert (forall g i, 0 <= g < groups -> 0 <= i < cg -> 0 <= col_offset h w g r s i < col_size) as Hb by (intros; by apply col_offset_bound).
  assert (forall g i, col_offset h w g r s 0 + i = col_offset h w g r s i) as Eoff by (intros; unfold col_offset; lia).
  destruct (inside _ _ && inside _ _) eqn:Ein.
  - apply (wp_for_int_filled data_col col_size (col_value d) (im_buffer d Hr) inv groups _ (fun g => upto cg (fun i k => k = col_offset h w g r s i)));
      [lia|intros g Hg' k Hk; upto_open; subst; auto|done| |done].
    intros g m' Hg' Hi'. rewrite Edst. unfold sizeof_elem_t. rewrite Z.mul_1_l.
    apply (wp_memcpy data_col col_size (col_value d) (im_buffer d Hr) inv filling_stable filling_writable);
      [by apply (Hb g 0); lia|pose proof (Hb g (cg - 1) Hg' ltac:(lia)); rewrite <- (Eoff g (cg - 1)) in *; lia|done| |].
    + intros i m'' Hii Hi''. rewrite Eoff, col_value_offset by done. unfold patch_value. rewrite Ein.
      unfold inside in Ein. rewrite <- !Z.add_assoc.
      destruct (filling_image m'' (im_offset (tap_row h r) (tap_col w s) (g * cg + i))) as [R V];
        [done|apply im_offset_bound; [lia|lia|rewrite Ec; by apply radix_bound]|].
      split; [exact R|]. etransitivity; [exact V|]. symmetry. unfold mem_int. by apply wrap_s_wrap_s.
    + intros m'' Hi'' Hf. split; [done|]. eapply filled_ext; [|exact Hf]. intros k. split; intros (i & Hii & ->); exists i; by rewrite Eoff.
  - apply (wp_for_int_filled data_col col_size (col_value d) (im_buffer d Hr) inv groups _ (fun g => upto cg (fun i k => k = col_offset h w g r s i)));
      [lia|intros g Hg' k Hk; upto_open; subst; auto|done| |done].
    intros g m' Hg' Hi'.
    apply (wp_for_int_filled data_col col_size (col_value d) (im_buffer d Hr) inv cg _ (fun i k => k = col_offset h w g r s i));
      [lia|intros i Hii k ->; auto|done| |by split].
    intros i m'' Hii Hi''. rewrite Edst, <- Z.add_assoc, Eoff.
    apply (wp_fill_byte data_col col_size (col_value d) (im_buffer d Hr) inv filling_stable filling_writable); [auto|done| |done].
    rewrite col_value_offset by done. unfold patch_value. rewrite Ein. symmetry. by apply wrap_s_wrap_s.
Qed.

Lemma wp_im2col_window h w Q m : 0 <= h < height_col p -> 0 <= w < width_col p -> inv m ->
  (forall m', inv m' -> filled data_col (col_value d) (window_set h w) (dram m) (dram m') -> Q tt m') ->
  wp (im2col_window p data_im (data_col + (h * width_col p + w) * (pt_kernel_h p * pt_kernel_w p * pt_channels p)) groups padding_value
        (h * pt_stride_h p - pt_pad_t p) (w * pt_stride_w p - pt_pad_l p)) Q m.
Proof.
  intros Hh Hw Hi HQ. unfold im2col_window. pose proof (height_col_pos (im_geometry d Hr)) as [_ Bh]. pose proof (width_col_pos (im_geometry d Hr)) as [_ Bw].
  destruct (im_kernel (im_geometry d Hr)), (im_steps (im_geometry d Hr)) as (? & ? & ? & ?), (im_pads (im_geometry d Hr)) as (? & ? & ? & ?), (im_fits_h (im_geometry d Hr)), (im_fits_w (im_geometry d Hr)).
  unfold dkernel_h, dkernel_w in *.
  apply (wp_for_taps_filled data_col col_size (col_value d) (im_buffer d Hr) inv _ _ _ _ (fun r => upto (pt_kernel_w p) (fun s => tap_set h w r s)));
    [lia|lia|nia|intros r Hrr k Hk; unfold tap_set in Hk; upto_open; subst; by apply col_offset_bound|done| |done].
  intros r m' Hrr Hi'.
  apply (wp_for_taps_filled data_col col_size (col_value d) (im_buffer d Hr) inv _ _ _ _ (fun s => tap_set h w r s));
    [lia|lia|nia|intros s Hs k Hk; unfold tap_set in Hk; upto_open; subst; by apply col_offset_bound|done| |by split].
  intros s m'' Hs Hi''. by apply wp_im2col_tap.
Qed.

Definition col_set : Z -> Prop := upto (height_col p) (fun h => upto (width_col p) (fun w => window_set h w)).

Lemma wp_Im2Col_NHWC Q m : inv m ->
  (forall m', inv m' -> filled data_col (col_value d) col_set (dram m) (dram m') -> Q tt m') ->
  wp (Im2Col_NHWC p data_im data_col groups padding_value) Q m.
Proof.
  intros Hi HQ. unfold Im2Col_NHWC. pose proof (height_col_pos (im_geometry d Hr)) as [? Bh]. pose proof (width_col_pos (im_geometry d Hr)) as [? Bw].
  destruct (im_kernel (im_geometry d Hr)), (im_steps (im_geometry d Hr)) as (? & ? & ? & ?), (im_pads (im_geometry d Hr)) as (? & ? & ? & ?), (im_fits_h (im_geometry d Hr)), (im_fits_w (im_geometry d Hr)).
  unfold dkernel_h, dkernel_w in *. apply wp_bind, wp_check; [lia|].
  assert (forall h w, 0 <= h < height_col p -> 0 <= w < width_col p -> within col_size (window_set h w)) as Hin
    by (intros h w Hh Hw k Hk; unfold window_set, tap_set in Hk; upto_open; subst; by apply col_offset_bound).
  apply (wp_for_int_filled data_col col_size (col_value d) (im_buffer d Hr) inv _ _ (fun h => upto (width_col p) (fun w => window_set h w)));
    [nia|intros h Hh k Hk; upto_open; by eapply Hin|done| |done].
  intros h m' Hh Hi'. apply wp_bind. unfold fold_int. apply wp_bind.
  set (step := pt_kernel_h p * pt_kernel_w p * pt_channels p).
  pose (acc w := (data_col + (h * width_col p + w) * step, s32 (w * pt_stride_w p - pt_pad_l p))).
  replace (data_col + h * width_col p * pt_kernel_h p * pt_kernel_w p * pt_channels p, s32 (- pt_pad_l p)) with (acc 0)
    by (unfold acc, step; f_equal; ring).
  apply (wp_fold_filled data_col col_size (col_value d) (im_buffer d Hr) inv acc _ _ (fun w => window_set h w));
    [intros w Hw; by apply Hin|done| |].
  - intros w m'' Hw Hi''. unfold acc at 1. apply wp_bind.
    rewrite (wrap_s_id 32 (- pt_pad_t p + _)) by (done || unfold in_s; nia).
    rewrite (wrap_s_id 32 (w * pt_stride_w p - _)) by (done || unfold in_s; nia).
    replace (- pt_pad_t p + h * pt_stride_h p) with (h * pt_stride_h p - pt_pad_t p) by lia.
    apply wp_im2col_window; [done..|]. intros m3 Hi3 Hf. apply wp_ret. split_and!; [|done|done].
    unfold acc. f_equal; [unfold step; ring|f_equal; ring].
  - intros m'' Hi'' Hf. apply wp_bind, wp_check; [nia|]. apply wp_ret, wp_ret. by split.
Qed.
End run.

(** C11: im2col.  For every kernel, dilation, stride and padding, [Im2Col_NHWC] ends
    without a fault, and the column buffer holds, for each output pixel, each group,
    each tap of the kernel and each channel of the group, in this order, the image
    value under that tap, or the padding value outside of the image; no other byte of
    memory and nothing of the accelerator changes. *)
Theorem im2col_nhwc_correct m : im2col_ready (dram m) ->
  wp (Im2Col_NHWC p data_im data_col groups padding_value) (fun _ m' => gs m' = gs m /\
    (forall h w g r s i, 0 <= h < height_col p -> 0 <= w < width_col p -> 0 <= g < groups -> 0 <= r < pt_kernel_h p ->
       0 <= s < pt_kernel_w p -> 0 <= i < cg ->
       mem_int 1 (dram m') (data_col + col_offset h w g r s i) = patch_value (dram m) h w g r s i) /\
    mem_differ (span col_size data_col) (dram m) (dram m')) m.
Proof.
  intros Hr. apply (wp_Im2Col_NHWC (dram m) Hr m); [split_and!; [done..|apply mem_differ_refl]|].
  intros m' (Hg & _ & Hd) [_ Hv]. split_and!; [done| |done]. intros h w g r s i Hh Hw Hgg Hrr Hs Hi.
  rewrite Hv; [|exists h; split; [done|]; exists w; split; [done|]; exists r; split; [done|]; exists s; split; [done|];
    exists g; split; [done|]; by exists i].
  rewrite col_value_offset by done. unfold patch_value. destruct (_ && _); [unfold mem_int|]; by rewrite wrap_s_wrap_s.
Qed.
End im2col_spec.

(** *** A 2 x 2 image of two channels in two groups, padded by one *)

Definition small_patch : patch_args := {|
  pt_channels := 2; pt_height := 2; pt_width := 2; pt_kernel_h := 2; pt_kernel_w := 2; pt_dilation_h := 1; pt_dilation_w := 1;
  pt_pad_t := 1; pt_pad_l := 1; pt_pad_b := 1; pt_pad_r := 1; pt_stride_h := 1; pt_stride_w := 1 |}.

Lemma span_plain n a x : 0 <= a -> a + n <= 2 ^ 64 -> 0 <= x < 2 ^ 64 -> span n a (u64 x) -> a <= x < a + n.
Proof. intros Ha Hn Hx (i & Hi & E). rewrite !wrap_u_id in E by (unfold in_u; lia). lia. Qed.

Lemma small_patch_ready : im2col_ready small_patch 0x1000 0x1080 2 (dram demo).
Proof.
  split; [split; by vm_compute|by vm_compute| | |].
  - intros k Hk. apply flat_mem_readable; simpl in *; lia.
  - intros k Hk. change (col_size small_patch 2) with 72 in Hk. apply flat_mem_writable; simpl in *; lia.
  - intros k Hk. simpl in Hk. change (col_size small_patch 2) with 72. intros Hs%span_plain; lia.
Qed.

Lemma im2col_nhwc_correct_witness :
  wp (Im2Col_NHWC small_patch 0x1000 0x1080 2 9) (fun _ m' =>
    mem_int 1 (dram m') (0x1080 + 8 * 4 + 6) = 5 /\ mem_int 1 (dram m') (0x1080 + 0) = 9) demo.
Proof.
  eapply wp_mono; [exact (im2col_nhwc_correct small_patch 0x1000 0x1080 2 9 demo small_patch_ready)|].
  intros _ m' (_ & Hv & _). split.
  - etransitivity; [exact (Hv 1 1 1 1 0 0 ltac:(done) ltac:(done) ltac:(done) ltac:(done) ltac:(done) ltac:(done))|]. by vm_compute.
  - etransitivity; [exact (Hv 0 0 0 0 0 0 ltac:(done) ltac:(done) ltac:(done) ltac:(done) ltac:(done) ltac:(done))|]. by vm_compute.
Defined.

(** ** Max pooling *)

(** What Eigen documents of the two array expressions. *)
Class EigenColsLaws (mem : Type) `{Mmu mem} `{EigenCols mem} := {
  wp_col_set_constant dst n v Q (m : machine mem) : in_s 8 v -> buffer dst n ->
    (forall c, 0 <= c < n -> mem_writable 1 (dram m) (dst + c)) ->
    (forall d', mem_differ (span n dst) (dram m) d' -> (forall c, 0 <= c < n -> mem_int 1 d' (dst + c) = v) ->
       Q tt (Machine (gs m) d' (rand_pos m))) ->
    wp (col_set_constant dst n v) Q m;
  wp_col_assign_max dst src n Q (m : machine mem) : buffer dst n ->
    (forall c, 0 <= c < n -> mem_writable 1 (dram m) (dst + c) /\ mem_readable 1 (dram m) (dst + c) /\ mem_readable 1 (dram m) (src + c)) ->
    (forall c, 0 <= c < n -> ~ span n dst (u64 (src + c))) ->
    (forall d', mem_differ (span n dst) (dram m) d' ->
       (forall c, 0 <= c < n -> mem_int 1 d' (dst + c) = Z.max (mem_int 1 (dram m) (dst + c)) (mem_int 1 (dram m) (src + c))) ->
       Q tt (Machine (gs m) d' (rand_pos m))) ->
    wp (col_assign_max dst src n) Q m }.

(** The maximum of [int8_t] values, the smallest one for no value at all. *)
Definition max_of (l : list Z) : Z := foldl Z.max INT8_MIN l.

Lemma max_of_spec l : (forall v, v ∈ l -> v <= max_of l) /\ (max_of l ∈ l \/ max_of l = INT8_MIN).
Proof.
  unfold max_of. assert (forall v0, v0 <= foldl Z.max v0 l /\ (forall v, v ∈ l -> v <= foldl Z.max v0 l) /\
    (foldl Z.max v0 l ∈ l \/ foldl Z.max v0 l = v0)) as Hgen.
  { induction l as [|x l IH]; intros v0; simpl; [split_and!; [lia|by intros v ?%elem_of_nil|by right]|].
    destruct (IH (Z.max v0 x)) as (H1 & H2 & H3). split_and!; [lia| |].
    - intros v [->|Hv]%elem_of_cons; [lia|by apply H2].
    - rewrite elem_of_cons. destruct H3 as [H3|H3]; [auto|]. rewrite H3. destruct (Z.max_spec v0 x) as [[_ ->]|[_ ->]]; auto. }
  destruct (Hgen INT8_MIN) as (_ & H2 & H3). done.
Qed.

Section maxpool_spec.
Context {mem : Type} `{MmuLaws mem} `{!EigenCols mem} `{!EigenColsLaws mem}.
Context (N C X_H X_W Y_H Y_W kernel_h kernel_w stride_h stride_w pad_t pad_l X Y : Z).
Implicit Types (d : mem) (m : machine mem).

Definition pool_in (n i j c : Z) : Z := X + (((n * X_H + i) * X_W + j) * C + c).
Definition pool_offset (n h w c : Z) : Z := ((n * Y_H + h) * Y_W + w) * C + c.
Definition pool_out_size : Z := N * Y_H * Y_W * C.

(** The positions of a window that lie in the image. *)
Definition clip_lo (k stride pad : Z) : Z := Z.max (k * stride - pad) 0.
Definition clip_hi (k stride pad kernel size : Z) : Z := Z.min (k * stride - pad + kernel) size.
Definition pool_cells (h w : Z) : list (Z * Z) :=
  let lo := clip_lo w stride_w pad_l in
  concat ((fun i => (fun j => (i, j)) <$> seqZ lo (clip_hi w stride_w pad_l kernel_w X_W - lo)) <$>
    seqZ (clip_lo h stride_h pad_t) (clip_hi h stride_h pad_t kernel_h X_H - clip_lo h stride_h pad_t)).

Definition pool_value d (n h w c : Z) : Z := max_of ((fun q => mem_int 1 d (pool_in n q.1 q.2 c)) <$> pool_cells h w).
Definition pool_at d (k : Z) : Z := pool_value d (k / C / Y_W / Y_H) ((k / C / Y_W) mod Y_H) ((k / C) mod Y_W) (k mod C).

Record pool_ready d : Prop := {
  pl_sizes : 0 <= N /\ 1 <= C /\ 1 <= X_H /\ 1 <= X_W /\ 1 <= Y_H /\ 1 <= Y_W;
  pl_ints : X_H * X_W * C < 2 ^ 31 /\ Y_H * Y_W * C < 2 ^ 31;
  pl_window_h : 0 <= kernel_h /\ 0 <= stride_h /\ 0 <= pad_t < 2 ^ 31 /\ Y_H * stride_h + kernel_h < 2 ^ 31;
  pl_window_w : 0 <= kernel_w /\ 0 <= stride_w /\ 0 <= pad_l < 2 ^ 31 /\ Y_W * stride_w + kernel_w < 2 ^ 31;
  pl_buffer : buffer Y pool_out_size;
  pl_read k : 0 <= k < N * X_H * X_W * C -> mem_readable 1 d (X + k);
  pl_write k : 0 <= k < pool_out_size -> mem_writable 1 d (Y + k) /\ mem_readable 1 d (Y + k);
  pl_apart k : 0 <= k < N * X_H * X_W * C -> ~ span pool_out_size Y (u64 (X + k)) }.

Section run.
Context (d : mem) (Hr : pool_ready d) (m0 : machine mem).

Definition pooling m : Prop := gs m = gs m0 /\ rand_pos m = rand_pos m0 /\ mem_differ (span pool_out_size Y) d (dram m).

Lemma pool_at_offset n h w c : 0 <= h < Y_H -> 0 <= w < Y_W -> 0 <= c < C ->
  pool_at d (pool_offset n h w c) = pool_value d n h w c.
Proof. intros. unfold pool_at, pool_offset. repeat first [rewrite radix_div by done | rewrite radix_mod by done]. done. Qed.

Lemma pool_offset_bound n h w c : 0 <= n < N -> 0 <= h < Y_H -> 0 <= w < Y_W -> 0 <= c < C -> 0 <= pool_offset n h w c < pool_out_size.
Proof. intros. unfold pool_offset, pool_out_size. by repeat apply radix_bound. Qed.

Lemma elem_of_pool_cells h w q : q ∈ pool_cells h w -> 0 <= q.1 < X_H /\ 0 <= q.2 < X_W.
Proof.
  unfold pool_cells, clip_lo, clip_hi. intros (i & Hi%elem_of_seqZ & (j & -> & Hj%elem_of_seqZ)%list_elem_of_fmap)%elem_of_concat_fmap.
  simpl. lia.
Qed.

(** One pixel: the column is set to the minimum and raised by every cell of the window. *)
Definition pixel_set (n h w : Z) : Z -> Prop := upto C (fun c k => k = pool_offset n h w c).

Lemma pooling_input m n i j c : pooling m -> 0 <= n < N -> 0 <= i < X_H -> 0 <= j < X_W -> 0 <= c < C ->
  mem_readable 1 (dram m) (pool_in n i j c) /\ mem_int 1 (dram m) (pool_in n i j c) = mem_int 1 d (pool_in n i j c) /\
  ~ span pool_out_size Y (u64 (pool_in n i j c)).
Proof.
  intros (_ & _ & Hd) Hn Hi Hj Hc. unfold pool_in.
  pose proof (radix_bound _ _ _ _ (radix_bound _ _ _ _ (radix_bound _ _ _ _ Hn Hi) Hj) Hc) as Hb.
  split_and!; [eapply mem_readable_differ; [done|]; by apply (pl_read d Hr)| |by apply (pl_apart d Hr)].
  eapply mem_int_differ; [done|]. intros e He. replace e with 0 by lia. rewrite Z.add_0_r. by apply (pl_apart d Hr).
Qed.

(** The bytes of one column lie in the result. *)
Lemma column_in_buffer n h w : 0 <= n < N -> 0 <= h < Y_H -> 0 <= w < Y_W ->
  forall b, span C (Y + pool_offset n h w 0) b -> bytes_of Y (pixel_set n h w) b /\ span pool_out_size Y b.
Proof.
  intros Hn Hh Hw b (c & Hc & ->). pose proof (pool_offset_bound n h w c Hn Hh Hw Hc).
  replace (Y + pool_offset n h w 0 + c) with (Y + pool_offset n h w c) by (unfold pool_offset; lia).
  split; [|by exists (pool_offset n h w c)]. exists (pool_offset n h w c). split; [by exists c|done].
Qed.

Lemma wp_pool_pixels n h w Q m : pooling m -> 0 <= n < N -> 0 <= h < Y_H -> 0 <= w < Y_W ->
  (forall m', pooling m' -> filled Y (pool_at d) (pixel_set n h w) (dram m) (dram m') -> Q tt m') ->
  wp (ComputeMaxPool2D C X_W (clip_lo h stride_h pad_t) (clip_hi h stride_h pad_t kernel_h X_H) (clip_lo w stride_w pad_l)
       (clip_hi w stride_w pad_l kernel_w X_W) (h * Y_W + w) (X + n * (X_H * X_W * C)) (Y + n * (Y_H * Y_W * C))) Q m.
Proof.
  intros Hi Hn Hh Hw HQ. unfold ComputeMaxPool2D. destruct (pl_buffer d Hr) as [Hb1 Hb2]. pose proof (pl_sizes d Hr) as (? & ? & ? & ? & ? & ?).
  assert (Y + n * (Y_H * Y_W * C) + (h * Y_W + w) * C = Y + pool_offset n h w 0) as -> by (unfold pool_offset; ring).
  set (col := Y + pool_offset n h w 0).
  assert (forall c, col + c = Y + pool_offset n h w c) as Ecol by (intros c; unfold col, pool_offset; lia).
  pose proof (pool_offset_bound n h w 0 Hn Hh Hw ltac:(lia)). pose proof (pool_offset_bound n h w (C - 1) Hn Hh Hw ltac:(lia)).
  assert (buffer col C) as Hbuf by (pose proof (Ecol (C - 1)); unfold buffer, col in *; lia).
  pose (state k m' := pooling m' /\ mem_differ (span C col) (dram m) (dram m') /\ forall c, 0 <= c < C ->
    mem_int 1 (dram m') (col + c) = max_of ((fun q => mem_int 1 d (pool_in n q.1 q.2 c)) <$> take k (pool_cells h w))).
  assert (forall m1 d2, pooling m1 -> mem_differ (span C col) (dram m1) d2 -> pooling (Machine (gs m1) d2 (rand_pos m1))) as Hst.
  { intros m1 d2 (Hg & Hp & Hd) Hd2. split_and!; [done..|]. eapply mem_differ_trans; [done|]. eapply mem_differ_weaken; [done|].
    intros b Hb. by apply (column_in_buffer n h w). }
  assert (forall m1 c, pooling m1 -> 0 <= c < C -> mem_writable 1 (dram m1) (col + c) /\ mem_readable 1 (dram m1) (col + c)) as Hacc.
  { intros m1 c (_ & _ & Hd) Hc. rewrite Ecol. destruct (pl_write d Hr _ (pool_offset_bound n h w c Hn Hh Hw Hc)).
    split; [by eapply mem_writable_differ|by eapply mem_readable_differ]. }
  apply wp_bind, wp_col_set_constant; [done|done|intros c Hc; by apply Hacc|]. intros d1 Hd1 Hv1.
  unfold for_range. apply (wp_for_list_nest (fun i j => col_assign_max col (X + n * (X_H * X_W * C) + s32 (i * X_W + j) * C) C)).
  fold (pool_cells h w). apply (wp_for_list state).
  - split_and!; [by apply Hst|done|done].
  - intros k q m' Hq (Hi' & Hd' & Hv'). pose proof (list_elem_of_lookup_2 _ _ _ Hq) as [Hq1 Hq2]%elem_of_pool_cells.
    destruct (pl_ints d Hr). assert (in_s 32 (q.1 * X_W + q.2)) as Hint.
    { pose proof (radix_bound _ _ _ _ Hq1 Hq2). unfold in_s. nia. }
    rewrite wrap_s_id by done.
    assert (forall c, X + n * (X_H * X_W * C) + (q.1 * X_W + q.2) * C + c = pool_in n q.1 q.2 c) as Ein by (intros c; unfold pool_in; ring).
    apply wp_col_assign_max; [done| | |].
    + intros c Hc. destruct (Hacc m' c Hi' Hc). rewrite Ein. split_and!; [done..|]. by apply pooling_input.
    + intros c Hc Hs. rewrite Ein in Hs. eapply (pooling_input m' n q.1 q.2 c); [done..|]. by apply (column_in_buffer n h w).
    + intros d2 Hd2 Hv2. split_and!; [by apply Hst|by eapply mem_differ_trans|]. intros c Hc. simpl.
      rewrite (Hv2 c Hc), (Hv' c Hc), Ein. destruct (pooling_input m' n q.1 q.2 c) as (_ & -> & _); [done..|].
      rewrite (take_S_r _ _ q Hq), fmap_app. unfold max_of. by rewrite foldl_app.
  - intros m' (Hi' & Hd' & Hv'). apply HQ; [done|]. split.
    + eapply mem_differ_weaken; [done|]. intros b Hb. by apply (column_in_buffer n h w).
    + intros k (c & Hc & ->). rewrite <- Ecol, (Hv' c Hc), firstn_all, pool_at_offset by done.
      unfold pool_value. symmetry. apply wrap_s_id; [done|]. rewrite firstn_all in Hv'. rewrite <- (Hv' c Hc). by apply (wrap_s_range (8 * 1)).
Qed.

Definition pool_set : Z -> Prop := upto N (fun n => upto Y_H (fun h => upto Y_W (fun w => pixel_set n h w))).

Lemma wp_RunMaxPool2D Q m : pooling m ->
  (forall m', pooling m' -> filled Y (pool_at d) pool_set (dram m) (dram m') -> Q tt m') ->
  wp (RunMaxPool2D N C X_H X_W Y_H Y_W kernel_h kernel_w stride_h stride_w pad_t pad_l X Y) Q m.
Proof.
  intros Hi HQ. unfold RunMaxPool2D. destruct (pl_sizes d Hr) as (? & ? & ? & ? & ? & ?), (pl_ints d Hr) as [Hx Hy].
  destruct (pl_window_h d Hr) as (? & ? & ? & ?), (pl_window_w d Hr) as (? & ? & ? & ?).
  assert (X_H * X_W <= X_H * X_W * C /\ Y_H * Y_W <= Y_H * Y_W * C) as [? ?] by nia.
  rewrite !(wrap_s_id 32 (X_H * X_W)), !(wrap_s_id 32 (Y_H * Y_W)), (wrap_s_id 32 (X_H * X_W * C)), (wrap_s_id 32 (Y_H * Y_W * C))
    by (done || unfold in_s; nia).
  assert (forall n h w, 0 <= n < N -> 0 <= h < Y_H -> 0 <= w < Y_W -> within pool_out_size (pixel_set n h w)) as Hin
    by (intros n h w Hn Hh Hw k Hk; unfold pixel_set in Hk; upto_open; subst; by apply pool_offset_bound).
  apply wp_bind. pose (acc n := (X + n * (X_H * X_W * C), Y + n * (Y_H * Y_W * C))).
  replace (X, Y) with (acc 0) by (unfold acc; f_equal; ring).
  apply (wp_fold_filled Y pool_out_size (pool_at d) (pl_buffer d Hr) pooling acc _ _ (fun n => upto Y_H (fun h => upto Y_W (fun w => pixel_set n h w))));
    [intros n Hn k Hk; upto_open; by eapply Hin|done| |intros m' Hi' Hf; apply wp_ret; by apply HQ].
  intros n m' Hn Hi'. unfold acc at 1. apply wp_bind.
  apply (wp_for_filled Y pool_out_size (pool_at d) (pl_buffer d Hr) pooling _ _ (fun h => upto Y_W (fun w => pixel_set n h w)));
    [intros h Hh k Hk; upto_open; by eapply Hin|done| |].
  2: { intros m1 Hi1 Hf. apply wp_ret. split_and!; [unfold acc; f_equal; ring|done|done]. }
  intros h m1 Hh Hi1. apply (wp_for_filled Y pool_out_size (pool_at d) (pl_buffer d Hr) pooling _ _ (fun w => pixel_set n h w));
    [intros w Hw; by apply Hin|done| |by split].
  intros w m2 Hw Hi2. rewrite !(wrap_s_id 32 (h * stride_h - _)), !(wrap_s_id 32 (w * stride_w - _)), (wrap_s_id 32 (h * stride_h - pad_t + _)),
    (wrap_s_id 32 (w * stride_w - pad_l + _)), (wrap_s_id 32 (h * Y_W + w)) by (done || unfold in_s; nia).
  by apply wp_pool_pixels.
Qed.
End run.

(** C13: max pooling.  [RunMaxPool2D] ends without a fault; every output element is an
    upper bound of the input elements of its window, the window being cut at the
    border of the image, and is one of them, or [INT8_MIN] for an empty window; no
    other byte of memory and nothing of the accelerator changes. *)
Theorem run_max_pool_correct m : pool_ready (dram m) ->
  wp (RunMaxPool2D N C X_H X_W Y_H Y_W kernel_h kernel_w stride_h stride_w pad_t pad_l X Y) (fun _ m' => gs m' = gs m /\
    (forall n h w c, 0 <= n < N -> 0 <= h < Y_H -> 0 <= w < Y_W -> 0 <= c < C ->
       let v := mem_int 1 (dram m') (Y + pool_offset n h w c) in
       let cells := (fun q => mem_int 1 (dram m) (pool_in n q.1 q.2 c)) <$> pool_cells h w in
       (forall u, u ∈ cells -> u <= v) /\ (v ∈ cells \/ v = INT8_MIN)) /\
    mem_differ (span pool_out_size Y) (dram m) (dram m')) m.
Proof.
  intros Hr. apply (wp_RunMaxPool2D (dram m) Hr m); [split_and!; [done..|apply mem_differ_refl]|].
  intros m' (Hg & _ & Hd) [_ Hv]. split_and!; [done| |done]. intros n h w c Hn Hh Hw Hc v cells.
  assert (v = s8 (max_of cells)) as ->.
  { unfold v. rewrite Hv; [by rewrite pool_at_offset|]. exists n. split; [done|]. exists h. split; [done|]. exists w. split; [done|].
    by exists c. }
  destruct (max_of_spec cells) as [H1 H2]. rewrite wrap_s_id; [done|done|].
  destruct H2 as [(q & -> & _)%list_elem_of_fmap| ->]; [by apply (wrap_s_range (8 * 1))|done].
Qed.
End maxpool_spec.

(** *** Eigen's expressions as loops *)

Section loop_cols.
Context {mem : Type} `{MmuLaws mem}.

Definition assign_column (dst n : Z) (f : Z -> M (machine mem) Z) : M (machine mem) unit :=
  for_range 0 n (fun c => v ← f c; write_to_dram sizeof_elem_t (dst + c) v).

#[export] Instance loop_cols : EigenCols mem := {
  col_set_constant dst n v := assign_column dst n (fun _ => mret v);
  col_assign_max dst src n := assign_column dst n (fun c =>
    a ← load_elem (dst + c); b ← load_elem (src + c); mret (Z.max a b)) }.

(** Both loops fill the column. *)
Lemma wp_column dst n val f Q (m : machine mem) : buffer dst n -> (forall c, 0 <= c < n -> in_s 8 (val c)) ->
  (forall c, 0 <= c < n -> mem_writable 1 (dram m) (dst + c)) ->
  (forall c m', 0 <= c < n -> mem_differ (bytes_of dst (fun k => 0 <= k < c)) (dram m) (dram m') ->
     wp (f c) (fun v m'' => s8 v = s8 (val c) /\ m'' = m') m') ->
  (forall d', mem_differ (span n dst) (dram m) d' -> (forall c, 0 <= c < n -> mem_int 1 d' (dst + c) = val c) ->
     Q tt (Machine (gs m) d' (rand_pos m))) ->
  wp (assign_column dst n f) Q m.
Proof.
  intros Hb Hval Hw Hf HQ. unfold assign_column.
  apply (wp_for_range (fun k m' => gs m' = gs m /\ rand_pos m' = rand_pos m /\ filled dst val (fun j => 0 <= j < k) (dram m) (dram m'))).
  - split_and!; [done..|]. apply filled_nil. lia.
  - intros c m' Hc (Hg & Hp & Hs). apply wp_bind. eapply wp_mono; [apply Hf; [done|apply Hs]|]. intros v m'' [Hv ->].
    apply (wp_filled_byte dst val n); [done|done|eapply mem_writable_differ; [apply Hs|by apply Hw]|done|].
    intros d' Hs'. split_and!; [done..|]. apply (filled_ext dst val (fun j => 0 <= j < c \/ j = c)); [lia|].
    eapply (filled_app dst val _ _ n); [done| | |done..]; intros j Hj; lia.
  - intros [g d' r] (Hg & Hp & Hs). simpl in *. subst. apply HQ.
    + eapply filled_weaken; [|done]. intros j Hj. lia.
    + intros c Hc. destruct Hs as [_ Hv]. rewrite Hv by lia. apply wrap_s_id; [done|by apply Hval].
Qed.

#[export] Instance loop_cols_laws : EigenColsLaws mem.
Proof.
  split.
  - intros dst n v Q m Hv Hb Hw HQ. cbn [col_set_constant loop_cols]. apply (wp_column dst n (fun _ => v)); [done..| |done].
    intros c m' Hc _. by apply wp_ret.
  - intros dst src n Q m Hb Hrw Hap HQ. set (val c := Z.max (mem_int 1 (dram m) (dst + c)) (mem_int 1 (dram m) (src + c))).
    assert (forall c, in_s 8 (val c)) as Hval.
    { intros c. unfold val. destruct (Z.max_spec (mem_int 1 (dram m) (dst + c)) (mem_int 1 (dram m) (src + c))) as [[_ ->]|[_ ->]];
        by apply (wrap_s_range (8 * 1)). }
    cbn [col_assign_max loop_cols].
    apply (wp_column dst n val); [done|auto|intros c Hc; by apply Hrw| |done].
    intros c m' Hc Hd. destruct (Hrw c Hc) as (_ & R1 & R2). unfold load_elem, sizeof_elem_t.
    apply wp_bind, wp_read_from_dram; [lia|by eapply mem_readable_differ|].
    apply wp_bind, wp_read_from_dram; [lia|by eapply mem_readable_differ|]. apply wp_ret. split; [|done]. f_equal. unfold val. f_equal.
    + eapply mem_int_differ; [done|]. intros i Hi (k & Hk & E). replace i with 0 in E by lia. rewrite Z.add_0_r in E.
      apply (buffer_inj dst n) in E; [lia|done|lia|lia].
    + eapply mem_int_differ; [done|]. intros i Hi (k & Hk & E). replace i with 0 in E by lia. rewrite Z.add_0_r in E.
      apply (Hap c Hc). exists k. split; [lia|done].
Qed.
End loop_cols.

(** *** A 3 x 3 image of two channels, 2 x 2 windows, padded by one *)

Lemma small_pool_ready : pool_ready 1 2 3 3 4 4 2 2 1 1 1 1 0x1000 0x1080 (dram demo).
Proof.
  split; [lia|lia|lia|lia|unfold buffer; by vm_compute| | |].
  - intros k Hk. apply flat_mem_readable; simpl in *; lia.
  - intros k Hk. unfold pool_out_size in Hk. split; [apply flat_mem_writable|apply flat_mem_readable]; simpl in *; lia.
  - intros k Hk Hs%span_plain; unfold pool_out_size in *; lia.
Qed.

(** The last window holds the last pixel only, the one before it two of them. *)
Lemma run_max_pool_correct_witness :
  wp (RunMaxPool2D 1 2 3 3 4 4 2 2 1 1 1 1 0x1000 0x1080) (fun _ m' =>
    mem_int 1 (dram m') (0x1080 + pool_offset 2 4 4 0 3 3 1) = 17 /\
    mem_int 1 (dram m') (0x1080 + pool_offset 2 4 4 0 0 2 0) = 4) demo.
Proof.
  eapply wp_mono; [exact (run_max_pool_correct 1 2 3 3 4 4 2 2 1 1 1 1 0x1000 0x1080 demo small_pool_ready)|].
  intros _ m' (_ & Hv & _). split.
  - destruct (Hv 0 3 3 1 ltac:(lia) ltac:(lia) ltac:(lia) ltac:(lia)) as [H1 H2].
    set (v := mem_int 1 _ _) in *. set (cells := fmap _ _) in *. assert (cells = [17]) as E by (by vm_compute). rewrite E in H1, H2.
    pose proof (H1 17 ltac:(left)). destruct H2 as [->%list_elem_of_singleton|E']; [done|]. rewrite E' in *. by exfalso.
  - destruct (Hv 0 0 2 0 ltac:(lia) ltac:(lia) ltac:(lia) ltac:(lia)) as [H1 H2].
    set (v := mem_int 1 _ _) in *. set (cells := fmap _ _) in *. assert (cells = [2; 4]) as E by (by vm_compute). rewrite E in H1, H2.
    pose proof (H1 4 ltac:(right; left)). destruct H2 as [[->| ->%list_elem_of_singleton]%elem_of_cons|E']; [lia|done|].
    rewrite E' in *. by exfalso.
Defined.
