(* ===== verification/Regions.v ===== *)
(** * Regions: programs that write some regions of memory and read others

    A kernel writes its output and its temporary buffers and reads its inputs.  When
    the regions it writes lie apart from a region it reads, what it reads stays. *)

From S2P Require Import Prelude Effects Float32 Params State Dram Fill Scaling Norm Config Move MoveSpec Isa MatmulCpu ConvCpu ConvCpuSpec Matmul Conv Systolic SystolicSpec Tensor Buffer ConvHelper ConvHelperSpec.

(** Base and length in bytes. *)
Definition region : Type := Z * Z.
Definition region_ok (r : region) : Prop := range_ok (fst r) (snd r).
Definition region_apart (r r' : region) : Prop := apart (fst r) (snd r) (fst r') (snd r').
Definition covers (r : region) (size a : Z) : Prop := fst r <= a /\ a + size <= fst r + snd r.
Definition in_regions (l : list region) (b : Z) : Prop := exists r, r ∈ l /\ span (snd r) (fst r) b.

Section regions.
Context {mem : Type} `{MmuLaws mem}.
Implicit Types (d : mem) (l : list region) (r : region).

Lemma in_regions_span l r n a b : r ∈ l -> covers r n a -> 0 <= n -> span n a b -> in_regions l b.
Proof. intros Hr [H1 H2] Hn (i & Hi & ->). exists r. split; [done|]. exists (a - fst r + i). split; [lia|]. f_equal. lia. Qed.

(** What lies in a region apart from all that are written stays. *)
Lemma regions_kept l r size a d d' : mem_differ (in_regions l) d d' -> Forall region_ok l -> Forall (region_apart r) l ->
  region_ok r -> 1 <= size -> covers r size a -> mem_int size d' a = mem_int size d a.
Proof.
  intros Hd Hok Hap [H1 H2] Hs [C1 C2]. eapply mem_int_differ; [done|]. intros i Hi (w & Hw & Hsp).
  rewrite Forall_forall in Hok, Hap. destruct (Hok w Hw) as [W1 W2]. specialize (Hap w Hw). unfold region_apart, apart in Hap.
  apply span_plain in Hsp; lia.
Qed.
End regions.

(** ** A buffer of 32-bit words *)

Section words.
Context {mem : Type} `{MmuLaws mem}.
Context (base n : Z) (Hbase : range_ok base (n * 4)).
Implicit Types (d : mem) (m : machine mem).

Lemma word_other d d' k k' : 0 <= k < n -> 0 <= k' < n -> k <> k' -> mem_differ (span 4 (base + k * 4)) d d' ->
  mem_int 4 d' (base + k' * 4) = mem_int 4 d (base + k' * 4).
Proof.
  intros Hk Hk' Hne Hd. destruct Hbase. eapply mem_int_differ; [done|]. intros i Hi Hs. apply span_plain in Hs; lia.
Qed.

Lemma word_span k b : 0 <= k < n -> span 4 (base + k * 4) b -> span (n * 4) base b.
Proof. intros Hk (i & Hi & ->). exists (k * 4 + i). split; [lia|]. f_equal. lia. Qed.
End words.

Lemma mem_readable_sub {mem} `{Mmu mem} r size a (d : mem) : mem_readable (snd r) d (fst r) -> covers r size a -> mem_readable size d a.
Proof. intros Hr [H1 H2] i Hi. replace (a + i) with (fst r + (a - fst r + i)) by lia. apply Hr. lia. Qed.
Lemma mem_writable_sub {mem} `{Mmu mem} r size a (d : mem) : mem_writable (snd r) d (fst r) -> covers r size a -> mem_writable size d a.
Proof. intros Hr [H1 H2] i Hi. replace (a + i) with (fst r + (a - fst r + i)) by lia. apply Hr. lia. Qed.
