(* ===== verification/ConvAttributes.v ===== *)
(** * ConvAttributes: attributes and shape inference of the provider's convolutions

    [ComputePad] and [ComputeOutputShape] (providers/common.h), [ConvAttributes]
    (providers/cpu/nn/conv_attributes.h) and [PoolAttributes]
    (providers/systolic/nn/pool_attributes.h).  The attributes of a node are a record
    with an option for each name, [None] for one that [GetAttr] does not find. *)

From Stdlib Require Import String.
From S2P Require Import Prelude Effects Float32 Params State Tensor ConvHelper.

(** ** providers/common.h *)

Inductive AutoPadType := NOTSET | VALID | SAME_UPPER | SAME_LOWER.

#[export] Instance AutoPadType_eq_dec : EqDecision AutoPadType.
Proof. solve_decision. Defined.

Definition StringToAutoPadType {S} (str : string) : M S AutoPadType :=
  if String.eqb str "" then mret NOTSET
  else if String.eqb str "NOTSET" then mret NOTSET
  else if String.eqb str "VALID" then mret VALID
  else if String.eqb str "SAME_UPPER" then mret SAME_UPPER
  else if String.eqb str "SAME_LOWER" then mret SAME_LOWER
  else fail EnforceFailed.

(** The two pads are in and out parameters. *)
Definition ComputePad {S} (in_dim stride kernel dilation : Z) (pad_type : AutoPadType) (pad_head pad_tail : Z)
    (force_symmetric_auto_padding : bool) : M S (result (Z * Z)) :=
  match pad_type with
  | NOTSET => mret (Val (pad_head, pad_tail))
  | VALID => mret (Val (0, 0))
  | SAME_UPPER | SAME_LOWER =>
      if negb (dilation =? 1) then mret (Err INVALID_ARGUMENT)
      else
        check (negb (stride =? 0)) Undefined ;;
        let legacy_target_size := Z.quot (in_dim + stride - 1) stride in
        let pad_needed := (legacy_target_size - 1) * stride + kernel - in_dim in
        let pad_needed := if force_symmetric_auto_padding then Z.land (pad_needed + 1) (Z.lnot 1) else pad_needed in
        let pad_head := if decide (pad_type = SAME_LOWER) then Z.quot (pad_needed + 1) 2 else Z.quot pad_needed 2 in
        mret (Val (pad_head, pad_needed - pad_head))
  end.

(** [static_cast<int64_t>(static_cast<float>(n) / stride + 1)]: the division and the
    addition are in single precision. *)
Definition windows {S} (n stride : Z) : M S Z :=
  of_option Undefined (f_to_int 64 (f32_add (f32_div (f32_of_Z n) (f32_of_Z stride)) (f32_of_Z 1))).

Definition ComputeOutputShape {S} (in_dim stride kernel dilation pad_head pad_tail : Z) : M S Z :=
  let dkernel := dilation * (kernel - 1) + 1 in
  windows (in_dim + pad_head + pad_tail - dkernel) stride.

Definition ComputePadAndOutputShape {S} (in_dim stride kernel dilation : Z) (pad_type : AutoPadType) (pad_head pad_tail : Z)
    (force_symmetric_auto_padding : bool) : M S (result (Z * Z * Z)) :=
  return_if_error Err (ComputePad in_dim stride kernel dilation pad_type pad_head pad_tail force_symmetric_auto_padding)
    (fun '(pad_head, pad_tail) =>
      out_dim ← ComputeOutputShape in_dim stride kernel dilation pad_head pad_tail;
      mret (Val (pad_head, pad_tail, out_dim))).

(** ** [ConvAttributes] *)

Record ConvAttributes := {
  ca_auto_pad : AutoPadType; ca_group : Z; ca_kernel_shape_specified : bool; ca_strides : list Z; ca_pads : list Z;
  ca_dilations : list Z; ca_kernel_shape_ : list Z }.

(** The attributes that the constructor asks for. *)
Record conv_info := {
  in_auto_pad : option string; in_kernel_shape : option (list Z); in_strides : option (list Z); in_pads : option (list Z);
  in_dilations : option (list Z); in_group : option Z }.

Definition new_ConvAttributes {S} (info : conv_info) : M S ConvAttributes :=
  auto_pad ← (match in_auto_pad info with Some str => StringToAutoPadType str | None => mret NOTSET end);
  let kernel_shape_ := default [] (in_kernel_shape info) in
  let strides := default_list (default [] (in_strides info)) (length kernel_shape_) 1 in
  pads ← (match in_pads info with
          | None => mret (replicate (length kernel_shape_ * 2) 0)
          | Some pads => enforce (bool_decide (auto_pad = NOTSET)) ;; mret pads
          end);
  mret {| ca_auto_pad := auto_pad; ca_group := default 1 (in_group info);
          ca_kernel_shape_specified := bool_decide (is_Some (in_kernel_shape info)); ca_strides := strides; ca_pads := pads;
          ca_dilations := default_list (default [] (in_dilations info)) (length kernel_shape_) 1; ca_kernel_shape_ := kernel_shape_ |}.

Section conv_attributes.
Context {S : Type}.
Variable (a : ConvAttributes).

Definition ComputeKernelShape (weight_shape : shape) : M S (result (list Z)) :=
  if ca_kernel_shape_specified a then
    let kernel_shape := ca_kernel_shape_ a in
    if negb (length kernel_shape + 2 =? length weight_shape)%nat then mret (Err FAIL)
    else if bool_decide (kernel_shape = drop 2 weight_shape) then mret (Val kernel_shape) else mret (Err FAIL)
  else check (2 <=? length weight_shape)%nat Undefined ;; mret (Val (drop 2 weight_shape)).

Definition ValidateInputShape (input_shape weight_shape : shape) (channels_last : bool) : M S Status :=
  if negb (length input_shape =? length weight_shape)%nat then mret FAIL
  else
    M ← arr_get weight_shape 0;
    C ← (if channels_last then of_option Undefined (last input_shape) else arr_get input_shape 1);
    kernel_channels ← arr_get weight_shape 1;
    if negb (C =? kernel_channels * ca_group a) then mret FAIL
    else check (negb (ca_group a =? 0)) Undefined ;;
         if negb (Z.rem M (ca_group a) =? 0) then mret FAIL else mret StatusOK.

(** The loop of [InferOutputShape] over the dimensions [dims]: [pads] is updated in
    place, the sizes are appended to the output shape. *)
Fixpoint infer_dims (input_shape kernel_shape strides dilations : list Z) (force : bool) (dims : list nat) (pads out : list Z)
    : M S (result (list Z * list Z)) :=
  match dims with
  | [] => mret (Val (pads, out))
  | dim :: dims' =>
      in_dim ← arr_get input_shape (Z.of_nat dim);
      stride ← arr_get strides (Z.of_nat dim);
      kernel ← arr_get kernel_shape (Z.of_nat dim);
      dilation ← arr_get dilations (Z.of_nat dim);
      pad_head ← of_option OutOfRange (pads !! dim);
      pad_tail ← of_option OutOfRange (pads !! (length input_shape + dim)%nat);
      return_if_error Err (ComputePadAndOutputShape in_dim stride kernel dilation (ca_auto_pad a) pad_head pad_tail force)
        (fun '(pad_head, pad_tail, output_dim_size) =>
          if output_dim_size <=? 0 then mret (Err INVALID_ARGUMENT)
          else infer_dims input_shape kernel_shape strides dilations force dims'
                 (<[(length input_shape + dim)%nat := pad_tail]> (<[dim := pad_head]> pads)) (out ++ [output_dim_size]))
  end.

Definition InferOutputShape (input_shape kernel_shape strides_p dilations_p pads_p output_shape : list Z) (force : bool)
    : M S (result (list Z * list Z)) :=
  let rank := length input_shape in
  if (length strides_p <? rank)%nat then mret (Err INVALID_ARGUMENT)
  else if (length kernel_shape <? rank)%nat then mret (Err INVALID_ARGUMENT)
  else if (length dilations_p <? rank)%nat then mret (Err INVALID_ARGUMENT)
  else if (length pads_p <? 2 * rank)%nat then mret (Err INVALID_ARGUMENT)
  else infer_dims input_shape kernel_shape strides_p dilations_p force (seq 0 rank) pads_p output_shape.

Definition HasStridesOneAndNoPadding : bool :=
  forallb (fun v => v =? 1) (ca_strides a) && forallb (fun v => v =? 0) (ca_pads a).
End conv_attributes.

(** ** [PoolAttributes] *)

Record pool_info := {
  pi_maxpool : option Z; pi_kernel_shape : option (list Z); pi_auto_pad : option string; pi_pads : option (list Z);
  pi_strides : option (list Z); pi_ceil_mode : option Z; pi_dilations : option (list Z); pi_storage_order : option Z }.

Definition no_pool : PoolAttributes := {|
  pa_fused_pool := false; pa_kernel_shape := []; pa_pads := []; pa_strides := []; pa_dilations := [] |}.

Definition new_PoolAttributes {S} (info : pool_info) : M S PoolAttributes :=
  let fused_pool := match pi_maxpool info with Some maxpool => negb (maxpool =? 0) | None => false end in
  if negb fused_pool then mret no_pool
  else
    kernel_shape ← of_option EnforceFailed (pi_kernel_shape info);
    enforce (length kernel_shape =? 2)%nat ;;
    auto_padding ← of_option EnforceFailed (pi_auto_pad info);
    auto_pad ← StringToAutoPadType auto_padding;
    enforce (bool_decide (auto_pad = NOTSET)) ;;
    let pads := default_list (default [] (pi_pads info)) (length kernel_shape * 2) 0 in
    let half := (length pads / 2)%nat in
    for_list (fun i => enforce (bool_decide (pads !! i = pads !! (half + i)%nat))) (seq 0 half) ;;
    let strides := default_list (default [] (pi_strides info)) (length kernel_shape) 1 in
    enforce (default 0 (pi_ceil_mode info) =? 0) ;;
    let dilations := default_list (default [] (pi_dilations info)) (length kernel_shape) 1 in
    enforce (forallb (fun i => i =? 1) dilations) ;;
    enforce (default 0 (pi_storage_order info) =? 0) ;;
    for_list (fun dim =>
      k ← arr_get kernel_shape (Z.of_nat dim);
      enforce (0 <? k) ;;
      pad ← arr_get pads (Z.of_nat dim);
      (if pad <? k then pad' ← arr_get pads (Z.of_nat (dim + length kernel_shape)); enforce (pad' <? k)
       else fail EnforceFailed)) (seq 0 (length kernel_shape)) ;;
    enforce (length strides =? length kernel_shape)%nat ;;
    enforce (length dilations =? length kernel_shape)%nat ;;
    mret {| pa_fused_pool := true; pa_kernel_shape := kernel_shape; pa_pads := pads; pa_strides := strides; pa_dilations := dilations |}.

Section pool_attributes.
Context {S : Type}.
Variable (p : PoolAttributes).

Definition ComputeOutputSize (in_size stride kernel pad_needed dilation : Z) : M S Z :=
  windows (in_size + pad_needed - dilation * (kernel - 1) - 1) stride.

(** [InferOutputSize] with its call of [ComputeSizePadDilations]: the sizes of the
    dimensions after the first two. *)
Fixpoint infer_sizes (input_dims actual_pads : list Z) (dims : list nat) : M S (list Z) :=
  match dims with
  | [] => mret []
  | dim :: dims' =>
      in_size ← arr_get input_dims (Z.of_nat (dim + 2));
      stride ← arr_get (pa_strides p) (Z.of_nat dim);
      kernel ← arr_get (pa_kernel_shape p) (Z.of_nat dim);
      pad_head ← of_option OutOfRange (actual_pads !! dim);
      pad_tail ← of_option OutOfRange (actual_pads !! (length input_dims + dim - 2)%nat);
      dilation ← arr_get (pa_dilations p) (Z.of_nat dim);
      dim_size ← ComputeOutputSize (s32 in_size) stride kernel (pad_head + pad_tail) dilation;
      sizes ← infer_sizes input_dims actual_pads dims';
      mret (dim_size :: sizes)
  end.

Definition SetOutputSize_nhwc (input_shape : shape) (output_channel : Z) (actual_pads : list Z) : M S (list Z) :=
  size ← Size input_shape;
  n ← arr_get input_shape 0;
  enforce ((0 <? size) || (n =? 0)) ;;
  c ← arr_get input_shape 3;
  h ← arr_get input_shape 1;
  w ← arr_get input_shape 2;
  let nchw_input_shape := [n; c; h; w] in
  sizes ← infer_sizes nchw_input_shape actual_pads (seq 0 (length nchw_input_shape - 2));
  mret (n :: sizes ++ [output_channel]).
End pool_attributes.
