(* ===== verification/Im2col.v ===== *)
(** * Im2col: [math::Im2col] in NCHW order

    core/util/math_cpu.cc, for [int8_t]: the two-dimensional transformation with its
    copies of whole runs for strides 1 and 2, and the one for any rank that counts
    through the output positions. *)

From S2P Require Import Prelude Effects Float32 Params State Dram MatmulCpu Tensor ConvHelper.

(** [is_a_ge_zero_and_a_lt_b(a, b)]: one unsigned comparison. *)
Definition is_a_ge_zero_and_a_lt_b (a b : Z) : bool := u64 a <? u64 b.

Section two_dimensions.
Context {mem : Type} `{Mmu mem}.
Variable (p : patch_args).

(** [*dst = *src] *)
Definition copy_elem (dst src : Z) : M (machine mem) unit := v ← load_elem src; write_to_dram sizeof_elem_t dst v.

(** The loop [for (int64_t i = 0; i < output_w;)] over one output row: a run of
    [output_handled] columns per iteration.  It returns [data_col]. *)
Fixpoint im2col_cols (fuel : nat) (padding_value rdptr input_col i data_col : Z) : M (machine mem) Z :=
  match fuel with
  | O => fail LoopWraps
  | S fuel' =>
      let next output_handled :=
        im2col_cols fuel' padding_value rdptr (input_col + output_handled * pt_stride_w p) (i + output_handled) (data_col + output_handled) in
      if i <? width_col p then
        if is_a_ge_zero_and_a_lt_b input_col (pt_width p) then
          if pt_stride_w p =? 1 then
            let output_handled := Z.min (pt_width p - input_col) (width_col p - i) in
            memcpy data_col (rdptr + i) output_handled ;; next output_handled
          else if pt_stride_w p =? 2 then
            let output_handled := Z.min (Z.quot (pt_width p - input_col + 1) 2) (width_col p - i) in
            for_range 0 output_handled (fun x => copy_elem (data_col + x) (rdptr + i * 2 + x * 2)) ;; next output_handled
          else copy_elem data_col (rdptr + i * pt_stride_w p) ;; next 1
        else write_to_dram sizeof_elem_t data_col padding_value ;; next 1
      else mret data_col
  end.

(** One row of the output for one tap. *)
Definition im2col_row (data_im padding_value kernel_col input_row data_col : Z) : M (machine mem) Z :=
  if negb (is_a_ge_zero_and_a_lt_b input_row (pt_height p)) then
    for_range 0 (width_col p) (fun i => write_to_dram sizeof_elem_t (data_col + i) padding_value) ;;
    mret (data_col + width_col p)
  else
    let input_col := - pt_pad_l p + kernel_col * pt_dilation_w p in
    im2col_cols (S (Z.to_nat (width_col p))) padding_value (data_im + input_row * pt_width p + input_col) input_col 0 data_col.

(** A countdown loop that starts from a negative number does not end. *)
Definition countdown {S A} (n : Z) (f : A -> Z -> M S A) (a : A) : M S A :=
  check (0 <=? n) LoopWraps ;; fold_range 0 n f a.

Definition Im2col_NCHW (data_im data_col padding_value : Z) : M (machine mem) unit :=
  check (negb (pt_stride_h p =? 0) && negb (pt_stride_w p =? 0)) Undefined ;;
  let channel_size := pt_height p * pt_width p in
  _ ← countdown (pt_channels p) (fun '(data_im, data_col) channel =>
    data_col ← fold_range 0 (pt_kernel_h p) (fun data_col kernel_row =>
      fold_range 0 (pt_kernel_w p) (fun data_col kernel_col =>
        r ← countdown (height_col p) (fun '(input_row, data_col) output_rows =>
          data_col ← im2col_row data_im padding_value kernel_col input_row data_col;
          mret (input_row + pt_stride_h p, data_col)) (- pt_pad_t p + kernel_row * pt_dilation_h p, data_col);
        mret (snd r)) data_col) data_col;
    mret (data_im + channel_size, data_col)) (data_im, data_col);
  mret tt.
End two_dimensions.

(** ** Any rank *)

(** [NextPosition]: counts [dims] up within [shape], the last axis fastest.  The
    axes are given last first. *)
Fixpoint next_position_rev {S} (shape dims : list Z) : M S (list Z * bool) :=
  match shape, dims with
  | d_max :: shape', d :: dims' =>
      enforce (d <? d_max) ;;
      if d =? d_max - 1 then
        r ← next_position_rev shape' dims';
        mret (0 :: fst r, snd r)
      else mret ((d + 1) :: dims', true)
  | _, _ => mret (dims, false)
  end.

Definition NextPosition {S} (shape dims : list Z) : M S (list Z * bool) :=
  r ← next_position_rev (rev shape) (rev dims); mret (rev (fst r), snd r).

(** The geometry of one axis: image size, output size, kernel, stride, dilation, pad. *)
Record axis := { ax_im : Z; ax_out : Z; ax_kernel : Z; ax_stride : Z; ax_dilation : Z; ax_pad : Z }.

(** [d_offset]: the tap of each axis of column [c_col], from the last axis on. *)
Fixpoint tap_offsets_rev (axes : list axis) (offset : Z) : list Z :=
  match axes with
  | [] => []
  | a :: axes' => Z.rem offset (ax_kernel a) :: tap_offsets_rev axes' (Z.quot offset (ax_kernel a))
  end.
Definition tap_offsets (axes : list axis) (c_col : Z) : list Z := rev (tap_offsets_rev (rev axes) c_col).

(** The indices in the image and in the columns, and whether the position is padding. *)
Fixpoint nd_index (axes : list axis) (d_iter d_offset : list Z) (index_col index_im : Z) (is_padding : bool) : Z * Z * bool :=
  match axes, d_iter, d_offset with
  | a :: axes', d :: d_iter', o :: d_offset' =>
      let d_im := d * ax_stride a - ax_pad a + o * ax_dilation a in
      nd_index axes' d_iter' d_offset' (index_col * ax_out a + d) (index_im * ax_im a + d_im)
        (is_padding || negb (is_a_ge_zero_and_a_lt_b d_im (ax_im a)))
  | _, _, _ => (index_col, index_im, is_padding)
  end.

Section any_rank.
Context {mem : Type} `{Mmu mem}.
Variable (axes : list axis).

Definition im2col_nd_elem (data_im data_col padding_value c_col : Z) (d_iter : list Z) : M (machine mem) unit :=
  let kernel_size := foldr (fun a z => ax_kernel a * z) 1 axes in
  let '(index_col, index_im, is_padding) :=
    nd_index axes d_iter (tap_offsets axes c_col) c_col (Z.quot c_col kernel_size) false in
  if is_padding then write_to_dram sizeof_elem_t (data_col + index_col) padding_value
  else copy_elem (data_col + index_col) (data_im + index_im).

(** The [do ... while (NextPosition(...))] loop. *)
Fixpoint im2col_nd_positions (fuel : nat) (data_im data_col padding_value c_col : Z) (d_iter : list Z) : M (machine mem) (list Z) :=
  match fuel with
  | O => fail LoopWraps
  | S fuel' =>
      im2col_nd_elem data_im data_col padding_value c_col d_iter ;;
      r ← NextPosition (ax_out <$> axes) d_iter;
      if snd r : bool then im2col_nd_positions fuel' data_im data_col padding_value c_col (fst r) else mret (fst r)
  end.

(** [Im2col<int8_t, NCHW>] for any rank, without [accumulate_output]. *)
Definition Im2col_ND (data_im channels_col data_col padding_value : Z) : M (machine mem) unit :=
  check (forallb (fun a => negb (ax_kernel a =? 0)) axes) Undefined ;;
  _ ← fold_range 0 channels_col (fun d_iter c_col =>
    im2col_nd_positions (Z.to_nat (foldr (fun a z => Z.max 1 (ax_out a) * z) 1 axes)) data_im data_col padding_value c_col d_iter)
    (replicate (length axes) 0);
  mret tt.
End any_rank.
