(* ===== verification/Im2colSpec.v ===== *)
(** * Im2colSpec: [math::Im2col] in NCHW order

    The run copies for strides 1 and 2 and the element copies for other strides fill
    the columns with the same patches: one row of the result per channel and tap, one
    column per window. *)

From S2P Require Import Prelude Effects Float32 Params State Dram Fill Scaling Norm Config Move MoveSpec Isa MatmulCpu ConvCpu ConvCpuSpec Matmul Conv Systolic Tensor Buffer ConvHelper ConvHelperSpec Im2col.

Lemma ge_zero_lt_spec a b : in_s 64 a -> 0 <= b < 2 ^ 63 -> is_a_ge_zero_and_a_lt_b a b = inside b a.
Proof.
  intros Ha Hb. unfold is_a_ge_zero_and_a_lt_b, inside, in_s in *. rewrite (wrap_u_id 64 b) by (unfold in_u; lia).
  destruct (decide (0 <= a)) as [Hp|Hn].
  - rewrite wrap_u_id by (unfold in_u; lia). lia.
  - unfold wrap_u. replace (a mod 2 ^ 64) with (a + 2 ^ 64) by (apply (Z.mod_unique _ _ (-1)); lia). lia.
Qed.

Lemma div_radix a n : 1 <= n -> a / n * n + a mod n = a.
Proof. intros. pose proof (Z.div_mod a n). lia. Qed.

Lemma radix_split o q n : 1 <= n -> 0 <= o < q * n -> 0 <= o / n < q /\ o / n * n <= o < o / n * n + n.
Proof.
  intros Hn Ho. pose proof (div_radix o n Hn). pose proof (Z.mod_pos_bound o n ltac:(lia)).
  split; [split; [apply Z.div_pos; lia|apply Z.div_lt_upper_bound; lia]|lia].
Qed.


Section nchw.
Context {mem : Type} `{MmuLaws mem}.
Context (p : patch_args) (data_im data_col padding_value : Z).
Implicit Types (d : mem) (m : machine mem).
Notation C := (pt_channels p).
Notation kh := (pt_kernel_h p).
Notation kw := (pt_kernel_w p).
Notation HC := (height_col p).
Notation WC := (width_col p).

Definition nchw_pixel (c ih iw : Z) : Z := data_im + ((c * pt_height p + ih) * pt_width p + iw).

(** What tap [(r, s)] of channel [c] sees in window [(h, w)]. *)
Definition nchw_value d (c r s h w : Z) : Z :=
  if inside (pt_height p) (tap_row p h r) && inside (pt_width p) (tap_col p w s)
  then mem_int 1 d (nchw_pixel c (tap_row p h r) (tap_col p w s)) else s8 padding_value.

Definition nchw_offset (c r s h w : Z) : Z := (((c * kh + r) * kw + s) * HC + h) * WC + w.
Definition nchw_size : Z := C * kh * kw * HC * WC.
Definition nchw_at d (o : Z) : Z :=
  nchw_value d (o / WC / HC / kw / kh) ((o / WC / HC / kw) mod kh) ((o / WC / HC) mod kw) ((o / WC) mod HC) (o mod WC).

Record nchw_ready d : Prop := {
  nc_patch : patch_ok p 1;
  nc_image : 1 <= pt_height p /\ 1 <= pt_width p;
  nc_buffer : buffer data_col nchw_size;
  nc_read o : 0 <= o < C * pt_height p * pt_width p -> mem_readable 1 d (data_im + o);
  nc_write o : 0 <= o < nchw_size -> mem_writable 1 d (data_col + o);
  nc_apart o : 0 <= o < C * pt_height p * pt_width p -> ~ span nchw_size data_col (u64 (data_im + o)) }.

Definition columns_filling d m0 m : Prop :=
  gs m = gs m0 /\ rand_pos m = rand_pos m0 /\ mem_differ (span nchw_size data_col) d (dram m).

Section run.
Context (d : mem) (Hr : nchw_ready d) (m0 : machine mem).
Notation inv := (columns_filling d m0).
Notation fills := (filled data_col (nchw_at d)).

Lemma nchw_at_offset c r s h w : 0 <= r < kh -> 0 <= s < kw -> 0 <= h < HC -> 0 <= w < WC ->
  nchw_at d (nchw_offset c r s h w) = nchw_value d c r s h w.
Proof. intros. unfold nchw_at, nchw_offset. repeat first [rewrite radix_div by done | rewrite radix_mod by done]. done. Qed.

Lemma nchw_offset_bound c r s h w : 0 <= c < C -> 0 <= r < kh -> 0 <= s < kw -> 0 <= h < HC -> 0 <= w < WC ->
  0 <= nchw_offset c r s h w < nchw_size.
Proof. intros. unfold nchw_offset, nchw_size. by repeat apply radix_bound. Qed.

Lemma columns_stable m d' : inv m -> mem_differ (span nchw_size data_col) (dram m) d' -> inv (Machine (gs m) d' (rand_pos m)).
Proof. intros (Hg & Hp & Hd) Hd'. split_and!; [done..|]. by eapply mem_differ_trans. Qed.

Lemma columns_writable m k : inv m -> 0 <= k < nchw_size -> mem_writable 1 (dram m) (data_col + k).
Proof. intros (_ & _ & Hd) Hk. eapply mem_writable_differ; [done|]. by apply (nc_write d Hr). Qed.

(** Rows and columns that the loop visits are small. *)
Lemma tap_rows_small h r : 0 <= h < HC -> 0 <= r < kh -> in_s 64 (tap_row p h r).
Proof.
  intros Hh Hrr. destruct (height_col_pos _ _ (nc_patch d Hr)) as [_ Hb], (im_pads _ _ (nc_patch d Hr)) as (? & ? & ? & ?),
    (im_steps _ _ (nc_patch d Hr)) as (? & ? & ? & ?), (im_fits_h _ _ (nc_patch d Hr)). unfold tap_row, dkernel_h, in_s in *. nia.
Qed.
Lemma tap_cols_small w s : 0 <= w < WC -> 0 <= s < kw -> in_s 64 (tap_col p w s).
Proof.
  intros Hh Hrr. destruct (width_col_pos _ _ (nc_patch d Hr)) as [_ Hb], (im_pads _ _ (nc_patch d Hr)) as (? & ? & ? & ?),
    (im_steps _ _ (nc_patch d Hr)) as (? & ? & ? & ?), (im_fits_w _ _ (nc_patch d Hr)). unfold tap_col, dkernel_w, in_s in *. nia.
Qed.
Lemma image_small : pt_height p < 2 ^ 63 /\ pt_width p < 2 ^ 63.
Proof.
  destruct (im_pads _ _ (nc_patch d Hr)) as (? & ? & ? & ?), (im_steps _ _ (nc_patch d Hr)) as (? & ? & ? & ?),
    (im_fits_h _ _ (nc_patch d Hr)), (im_fits_w _ _ (nc_patch d Hr)). lia.
Qed.

(** A pixel of the image during the run. *)
Lemma columns_pixel m c r s h w : inv m -> 0 <= c < C -> 0 <= r < kh -> 0 <= s < kw -> 0 <= h < HC -> 0 <= w < WC ->
  inside (pt_height p) (tap_row p h r) = true -> inside (pt_width p) (tap_col p w s) = true ->
  mem_readable 1 (dram m) (nchw_pixel c (tap_row p h r) (tap_col p w s)) /\
  mem_int 1 (dram m) (nchw_pixel c (tap_row p h r) (tap_col p w s)) = s8 (nchw_at d (nchw_offset c r s h w)).
Proof.
  intros (_ & _ & Hd) Hc Hrr Hs Hh Hw E1 E2. rewrite nchw_at_offset by done. unfold nchw_value. rewrite E1, E2. cbn [andb]. unfold nchw_pixel.
  unfold inside in *. assert (0 <= (c * pt_height p + tap_row p h r) * pt_width p + tap_col p w s < C * pt_height p * pt_width p) as Hb
    by (repeat apply radix_bound; lia).
  split; [eapply mem_readable_differ; [done|]; by apply (nc_read d Hr)|].
  rewrite (mem_int_differ _ _ _ _ _ Hd); [unfold mem_int; by rewrite wrap_s_wrap_s|]. intros i Hi. replace i with 0 by lia. rewrite Z.add_0_r.
  by apply (nc_apart d Hr).
Qed.

Lemma wp_copy_pixel c r s h w Q m : inv m -> 0 <= c < C -> 0 <= r < kh -> 0 <= s < kw -> 0 <= h < HC -> 0 <= w < WC ->
  inside (pt_height p) (tap_row p h r) = true -> inside (pt_width p) (tap_col p w s) = true ->
  (forall m', inv m' -> fills (fun o => o = nchw_offset c r s h w) (dram m) (dram m') -> Q tt m') ->
  wp (copy_elem (data_col + nchw_offset c r s h w) (nchw_pixel c (tap_row p h r) (tap_col p w s))) Q m.
Proof.
  intros Hi Hc Hrr Hs Hh Hw E1 E2 HQ. destruct (columns_pixel m c r s h w) as [R V]; [done..|]. unfold copy_elem. apply wp_bind.
  unfold load_elem, sizeof_elem_t at 1. apply wp_read_from_dram; [lia|done|]. rewrite V.
  apply (wp_fill_byte data_col nchw_size (nchw_at d) (nc_buffer d Hr) inv columns_stable columns_writable);
    [by apply nchw_offset_bound|done|by apply wrap_s_wrap_s|done].
Qed.

(** One output row: the columns from [i] on. *)
Section row.
Context (c r s h : Z) (Hc : 0 <= c < C) (Hrr : 0 <= r < kh) (Hs : 0 <= s < kw) (Hh : 0 <= h < HC).
Notation off := (nchw_offset c r s h).
Definition columns_from (i o : Z) : Prop := off i <= o < off WC.

Lemma off_add i x : off i + x = off (i + x).
Proof. unfold nchw_offset. lia. Qed.

Lemma columns_from_within i : 0 <= i <= WC -> within nchw_size (columns_from i).
Proof.
  intros Hi o Ho. unfold columns_from in Ho. destruct (width_col_pos _ _ (nc_patch d Hr)) as [? _].
  pose proof (nchw_offset_bound c r s h 0 Hc Hrr Hs Hh ltac:(lia)). pose proof (nchw_offset_bound c r s h (WC - 1) Hc Hrr Hs Hh ltac:(lia)).
  pose proof (off_add 0 i). pose proof (off_add (WC - 1) 1). replace (WC - 1 + 1) with WC in * by lia. rewrite Z.add_0_l in *. lia.
Qed.

Lemma filled_run i n d1 d2 d3 : 0 <= i -> 0 <= n -> i + n <= WC ->
  fills (upto n (fun x o => o = off (i + x))) d1 d2 -> fills (columns_from (i + n)) d2 d3 -> fills (columns_from i) d1 d3.
Proof.
  intros Hi Hn Hle S1 S2. apply (filled_ext data_col (nchw_at d) (fun o => upto n (fun x o => o = off (i + x)) o \/ columns_from (i + n) o)).
  - intros o. unfold columns_from. assert (forall x, off x = off 0 + x) as E by (intros x; by rewrite off_add).
    rewrite (E i), (E (i + n)), (E WC). split.
    + intros [(x & Hx & ->)|Ho]; [rewrite (E (i + x))|]; lia.
    + intros Ho. destruct (decide (o < off 0 + (i + n))) as [Hlt|]; [left|right; lia]. exists (o - off 0 - i). rewrite (E (i + _)). lia.
  - eapply (filled_app data_col (nchw_at d) _ _ nchw_size); [apply Hr| |by apply columns_from_within; lia|done..].
    intros o (x & Hx & ->). apply nchw_offset_bound; try done. lia.
Qed.

Lemma filled_single i d1 d2 : fills (fun o => o = off i) d1 d2 -> fills (upto 1 (fun x o => o = off (i + x))) d1 d2.
Proof.
  apply filled_ext. intros o. split; [intros ->; exists 0; split; [lia|]|intros (x & Hx & ->)]; f_equal; lia.
Qed.

Lemma wp_im2col_cols fuel i Q m : inside (pt_height p) (tap_row p h r) = true -> 0 <= i <= WC -> WC - i < Z.of_nat fuel -> inv m ->
  (forall m', inv m' -> fills (columns_from i) (dram m) (dram m') -> Q (data_col + off WC) m') ->
  wp (im2col_cols p fuel padding_value (nchw_pixel c (tap_row p h r) (tap_col p 0 s)) (tap_col p i s) i (data_col + off i)) Q m.
Proof.
  intros Hin. revert i Q m. induction fuel as [|fuel IH]; intros i Q m Hi Hf Hm HQ; [lia|]. cbn [im2col_cols].
  destruct (Z.ltb_spec i WC) as [Hlt|Hge].
  2: { replace i with WC in * by lia. apply wp_ret, HQ; [done|]. apply filled_nil. unfold columns_from. lia. }
  assert (0 <= i < WC) as Hiw' by lia.
  destruct image_small as [Hsh Hsw], (nc_image d Hr) as [Hih Hiw], (im_steps _ _ (nc_patch d Hr)) as (_ & _ & _ & Hst).
  rewrite ge_zero_lt_spec by first [apply tap_cols_small; lia | lia].
  assert (forall n m', 0 < n -> i + n <= WC -> inv m' -> fills (upto n (fun x o => o = off (i + x))) (dram m) (dram m') ->
    wp (im2col_cols p fuel padding_value (nchw_pixel c (tap_row p h r) (tap_col p 0 s)) (tap_col p i s + n * pt_stride_w p) (i + n)
      (data_col + off i + n)) Q m') as Hnext.
  { intros n m' Hn Hle Hi' Hf1. replace (tap_col p i s + n * pt_stride_w p) with (tap_col p (i + n) s) by (unfold tap_col; ring).
    rewrite <- Z.add_assoc, off_add. apply IH; [lia|lia|done|]. intros m2 Hi2 Hf2. apply HQ; [done|]. eapply filled_run; [..|exact Hf1|exact Hf2]; lia. }
  assert (forall x, nchw_pixel c (tap_row p h r) (tap_col p 0 s) + (i + x) * pt_stride_w p = nchw_pixel c (tap_row p h r) (tap_col p (i + x) s))
    as Epix by (intros x; unfold nchw_pixel, tap_col; ring).
  destruct (inside (pt_width p) (tap_col p i s)) eqn:Ein.
  2: { apply wp_bind. apply (wp_fill_byte data_col nchw_size (nchw_at d) (nc_buffer d Hr) inv columns_stable columns_writable);
         [by apply nchw_offset_bound|done| |].
       - rewrite nchw_at_offset by done. unfold nchw_value. rewrite Ein, andb_false_r. symmetry. by apply wrap_s_wrap_s.
       - intros m' Hi' Hf1. apply Hnext; [lia|lia|done|by apply filled_single]. }
  unfold inside in Ein.
  destruct (Z.eqb_spec (pt_stride_w p) 1) as [E1|N1]; [|destruct (Z.eqb_spec (pt_stride_w p) 2) as [E2|N2]].
  - apply wp_bind. set (n := Z.min _ _). assert (0 < n /\ n <= pt_width p - tap_col p i s /\ i + n <= WC) as (Hn & Hn1 & Hn2) by (unfold n; lia).
    apply (wp_memcpy data_col nchw_size (nchw_at d) (nc_buffer d Hr) inv columns_stable columns_writable);
      [by apply nchw_offset_bound|pose proof (nchw_offset_bound c r s h (i + n - 1) Hc Hrr Hs Hh ltac:(lia)); pose proof (off_add i (n - 1));
       replace (i + n - 1) with (i + (n - 1)) in * by lia; lia|done| |].
    + intros x m' Hx Hi'. rewrite off_add. specialize (Epix x). rewrite E1, Z.mul_1_r in Epix. rewrite <- Z.add_assoc, Epix.
      apply columns_pixel; try done; [lia|]. unfold inside, tap_col in *. rewrite E1 in *. lia.
    + intros m' Hi' Hf1. apply Hnext; [done..|]. eapply filled_ext; [|exact Hf1]. intros o.
      split; intros (x & Hx & ->); exists x; (split; [done|]); by rewrite off_add.
  - apply wp_bind. rewrite (Z.quot_div_nonneg (pt_width p - tap_col p i s + 1) 2) by lia. set (n := Z.min _ _).
    assert (0 < n /\ 2 * n <= pt_width p - tap_col p i s + 1 /\ i + n <= WC) as (Hn & Hn1 & Hn2) by (unfold n; zlia).
    apply (wp_for_filled data_col nchw_size (nchw_at d) (nc_buffer d Hr) inv n _ (fun x o => o = off (i + x)));
      [intros x Hx o ->; apply nchw_offset_bound; try done; lia|done| |intros m' Hi' Hf1; by apply Hnext].
    intros x m' Hx Hi'. specialize (Epix x). rewrite E2 in Epix.
    replace (nchw_pixel c (tap_row p h r) (tap_col p 0 s) + i * 2 + x * 2) with (nchw_pixel c (tap_row p h r) (tap_col p (i + x) s)) by lia.
    rewrite <- Z.add_assoc, off_add. apply wp_copy_pixel; try done; [lia|]. unfold inside, tap_col in *. rewrite E2 in *. lia.
  - apply wp_bind. specialize (Epix 0). rewrite !Z.add_0_r in Epix. rewrite Epix. apply wp_copy_pixel; try done. intros m' Hi' Hf1.
    apply Hnext; [lia|lia|done|by apply filled_single].
Qed.

Lemma wp_im2col_row Q m : inv m ->
  (forall m', inv m' -> fills (columns_from 0) (dram m) (dram m') -> Q (data_col + off WC) m') ->
  wp (im2col_row p (data_im + c * (pt_height p * pt_width p)) padding_value s (tap_row p h r) (data_col + off 0)) Q m.
Proof.
  intros Hm HQ. unfold im2col_row. destruct image_small as [Hsh Hsw], (nc_image d Hr) as [Hih Hiw], (width_col_pos _ _ (nc_patch d Hr)) as [Hwc _].
  rewrite ge_zero_lt_spec by first [apply tap_rows_small; lia | lia]. destruct (inside _ _) eqn:Ein; cbn [negb].
  - replace (- pt_pad_l p + s * pt_dilation_w p) with (tap_col p 0 s) by (unfold tap_col; ring).
    replace (data_im + c * (pt_height p * pt_width p) + tap_row p h r * pt_width p + tap_col p 0 s)
      with (nchw_pixel c (tap_row p h r) (tap_col p 0 s)) by (unfold nchw_pixel; ring).
    by apply wp_im2col_cols; [..|lia|lia| |].
  - apply wp_bind. apply (wp_for_filled data_col nchw_size (nchw_at d) (nc_buffer d Hr) inv WC _ (fun x o => o = off (0 + x)));
      [intros x Hx o ->; by apply nchw_offset_bound|done| |].
    + intros x m' Hx Hi'. rewrite <- Z.add_assoc, off_add.
      apply (wp_fill_byte data_col nchw_size (nchw_at d) (nc_buffer d Hr) inv columns_stable columns_writable); [by apply nchw_offset_bound|done| |done].
      rewrite nchw_at_offset by done. unfold nchw_value. rewrite Ein. symmetry. by apply wrap_s_wrap_s.
    + intros m' Hi' Hf. rewrite <- Z.add_assoc, off_add. apply wp_ret, HQ; [done|].
      eapply (filled_run 0 WC); [lia..|exact Hf|]. rewrite Z.add_0_l. apply filled_nil. unfold columns_from. lia.
Qed.
End row.

(** The rows of one tap, the taps of one channel, the channels. *)
Lemma wp_im2col_rows c r s Q m : 0 <= c < C -> 0 <= r < kh -> 0 <= s < kw -> inv m ->
  (forall m', inv m' -> fills (upto HC (fun h => columns_from c r s h 0)) (dram m) (dram m') ->
     Q (data_col + nchw_offset c r (s + 1) 0 0) m') ->
  wp (x ← countdown HC (fun '(input_row, dc) (_ : Z) =>
        dc ← im2col_row p (data_im + c * (pt_height p * pt_width p)) padding_value s input_row dc;
        mret (input_row + pt_stride_h p, dc)) (- pt_pad_t p + r * pt_dilation_h p, data_col + nchw_offset c r s 0 0);
      mret (snd x)) Q m.
Proof.
  intros Hc Hrr Hs Hm HQ. destruct (height_col_pos _ _ (nc_patch d Hr)) as [Hhc _], (width_col_pos _ _ (nc_patch d Hr)) as [Hwc _].
  apply wp_bind. unfold countdown. apply wp_bind, wp_check; [lia|].
  replace (- pt_pad_t p + r * pt_dilation_h p) with (tap_row p 0 r) by (unfold tap_row; ring).
  apply (wp_fold_filled data_col nchw_size (nchw_at d) (nc_buffer d Hr) inv (fun h => (tap_row p h r, data_col + nchw_offset c r s h 0)) HC _
    (fun h => columns_from c r s h 0)); [intros h Hh; apply columns_from_within; lia|done| |].
  - intros h m' Hh Hi'. apply wp_bind, wp_im2col_row; [done..|]. intros m'' Hi'' Hf. apply wp_ret. split_and!; [|done..].
    f_equal; [unfold tap_row; ring|unfold nchw_offset; ring].
  - intros m' Hi' Hf. rewrite Z.max_r by lia. apply wp_ret. cbn [snd].
    replace (nchw_offset c r s HC 0) with (nchw_offset c r (s + 1) 0 0) by (unfold nchw_offset; ring). by apply HQ.
Qed.
Definition channel_set (c : Z) : Z -> Prop :=
  upto kh (fun r => upto kw (fun s => upto HC (fun h => columns_from c r s h 0))).

Lemma columns_from_all c r s h o : columns_from c r s h 0 o <-> upto WC (fun w o => o = nchw_offset c r s h w) o.
Proof.
  unfold columns_from, upto, nchw_offset. split; [intros Ho; eexists (o - _); split; [|symmetry; apply Zplus_minus]; lia|].
  intros (w & Hw & ->). lia.
Qed.

Lemma channel_set_within c : 0 <= c < C -> within nchw_size (channel_set c).
Proof. intros Hc o Ho. unfold channel_set in Ho. upto_open. apply columns_from_all in Ho. upto_open. subst. by apply nchw_offset_bound. Qed.

Lemma channel_set_all o : upto C channel_set o <-> 0 <= o < nchw_size.
Proof.
  split; [intros (c & Hc & Ho); by eapply channel_set_within|]. intros Ho.
  destruct (nc_patch d Hr) as [(_ & Hcc & Ec) [Hkh Hkw] _ _ _ _]. rewrite Z.mul_1_l in Ec. unfold group_channels in *. rewrite Z.quot_1_r in *.
  destruct (height_col_pos _ _ (nc_patch d Hr)) as [Hhc _], (width_col_pos _ _ (nc_patch d Hr)) as [Hwc _]. unfold nchw_size in Ho.
  assert (o = nchw_offset (o / WC / HC / kw / kh) ((o / WC / HC / kw) mod kh) ((o / WC / HC) mod kw) ((o / WC) mod HC) (o mod WC)) as E.
  { unfold nchw_offset. by rewrite !div_radix by lia. }
  exists (o / WC / HC / kw / kh). split; [split; [by repeat apply Z.div_pos; lia|repeat (apply Z.div_lt_upper_bound; [lia|]); lia]|].
  exists ((o / WC / HC / kw) mod kh). split; [apply Z.mod_pos_bound; lia|]. exists ((o / WC / HC) mod kw). split; [apply Z.mod_pos_bound; lia|].
  exists ((o / WC) mod HC). split; [apply Z.mod_pos_bound; lia|]. apply columns_from_all. exists (o mod WC). split; [apply Z.mod_pos_bound; lia|done].
Qed.

Lemma wp_Im2col_NCHW Q : inv m0 -> d = dram m0 ->
  (forall m, inv m -> fills (fun o => 0 <= o < nchw_size) d (dram m) -> Q tt m) ->
  wp (Im2col_NCHW p data_im data_col padding_value) Q m0.
Proof.
  intros Hm Ed HQ. unfold Im2col_NCHW. destruct (nc_patch d Hr) as [(_ & Hcc & _) [Hkh Hkw] (_ & _ & Hs1 & Hs2) _ _ _].
  unfold group_channels in Hcc. rewrite Z.quot_1_r in Hcc. apply wp_bind, wp_check; [lia|]. apply wp_bind. unfold countdown. apply wp_bind, wp_check; [lia|].
  set (acc := fun c => (data_im + c * (pt_height p * pt_width p), data_col + nchw_offset c 0 0 0 0)).
  replace (data_im, data_col) with (acc 0) by (unfold acc, nchw_offset; f_equal; lia).
  apply (wp_fold_filled data_col nchw_size (nchw_at d) (nc_buffer d Hr) inv acc C _ channel_set); [exact channel_set_within|done| |].
  2: { intros m Hi Hf. apply wp_ret, HQ; [done|]. rewrite <- Ed in Hf. eapply filled_ext; [exact channel_set_all|done]. }
  intros c m Hc Hi. apply wp_bind.
  apply (wp_fold_filled data_col nchw_size (nchw_at d) (nc_buffer d Hr) inv (fun r => data_col + nchw_offset c r 0 0 0) kh _
    (fun r => upto kw (fun s => upto HC (fun h => columns_from c r s h 0)))); [|done| |].
  - intros r Hrr o Ho. apply (channel_set_within c Hc). by exists r.
  - intros r m1 Hrr Hi1.
    apply (wp_fold_filled data_col nchw_size (nchw_at d) (nc_buffer d Hr) inv (fun s => data_col + nchw_offset c r s 0 0) kw _
      (fun s => upto HC (fun h => columns_from c r s h 0))); [|done| |].
    + intros s Hs o Ho. apply (channel_set_within c Hc). exists r. split; [done|]. by exists s.
    + intros s m2 Hs Hi2. by apply wp_im2col_rows.
    + intros m2 Hi2 Hf. rewrite Z.max_r by lia. split_and!; [|done..]. unfold nchw_offset. ring.
  - intros m1 Hi1 Hf. rewrite Z.max_r by lia. apply wp_ret. split_and!; [|done..]. unfold acc, nchw_offset. f_equal; ring.
Qed.
End run.

(** C12: [math::Im2col] in NCHW order, for any stride: with runs copied by [memcpy]
    (stride 1), by pairs (stride 2) or element by element, row [(c, r, s)] of the
    columns holds what tap [(r, s)] sees of channel [c], window after window, and the
    padding value outside of the image; nothing but the column buffer changes, and the
    loops end. *)
Theorem im2col_nchw_correct d m : nchw_ready d -> dram m = d ->
  wp (Im2col_NCHW p data_im data_col padding_value) (fun _ m' =>
    gs m' = gs m /\ rand_pos m' = rand_pos m /\ mem_differ (span nchw_size data_col) d (dram m') /\
    (forall c r s h w, 0 <= c < C -> 0 <= r < kh -> 0 <= s < kw -> 0 <= h < HC -> 0 <= w < WC ->
       mem_int 1 (dram m') (data_col + nchw_offset c r s h w) = s8 (nchw_value d c r s h w))) m.
Proof.
  intros Hr Ed. apply (wp_Im2col_NCHW d Hr m); [split_and!; [done..|rewrite Ed; apply mem_differ_refl]|done|].
  intros m' (Hg & Hp & Hd) [_ Hv]. split_and!; [done..|]. intros c r s h w Hc Hrr Hs Hh Hw.
  rewrite (Hv (nchw_offset c r s h w)) by by apply nchw_offset_bound. by rewrite nchw_at_offset.
Qed.
End nchw.

(** *** Two channels of a 3 x 5 image, padded by one, with stride 2 *)

Definition strided_patch : patch_args := {|
  pt_channels := 2; pt_height := 3; pt_width := 5; pt_kernel_h := 3; pt_kernel_w := 3; pt_dilation_h := 1; pt_dilation_w := 1;
  pt_pad_t := 1; pt_pad_l := 1; pt_pad_b := 1; pt_pad_r := 1; pt_stride_h := 2; pt_stride_w := 2 |}.

Lemma strided_patch_ready : nchw_ready strided_patch 0x1000 0x1080 (dram demo).
Proof.
  split; [split; by vm_compute|by vm_compute|by vm_compute| | |].
  - intros k Hk. apply flat_mem_readable; simpl in *; lia.
  - intros k Hk. change (nchw_size strided_patch) with 108 in Hk. apply flat_mem_writable; simpl in *; lia.
  - intros k Hk. simpl in Hk. change (nchw_size strided_patch) with 108. intros Hs%span_plain; lia.
Qed.

Lemma im2col_nchw_correct_witness :
  wp (Im2col_NCHW strided_patch 0x1000 0x1080 9) (fun _ m' =>
    mem_int 1 (dram m') (0x1080 + 64) = mem_int 1 (dram demo) (0x1000 + 22) /\ mem_int 1 (dram m') (0x1080 + 0) = 9) demo.
Proof.
  eapply wp_mono; [exact (im2col_nchw_correct strided_patch 0x1000 0x1080 9 (dram demo) demo strided_patch_ready eq_refl)|].
  intros _ m' (_ & _ & _ & Hv). split.
  - etransitivity; [exact (Hv 1 0 1 1 1 ltac:(done) ltac:(done) ltac:(done) ltac:(done) ltac:(done))|]. by vm_compute.
  - etransitivity; [exact (Hv 0 0 0 0 0 ltac:(done) ltac:(done) ltac:(done) ltac:(done) ltac:(done))|]. by vm_compute.
Defined.
