(* ===== verification/Positions.v ===== *)
(** * Positions: mixed-radix counting

    A position in a shape, one index per axis, has a rank: its index in row-major
    order.  Positions and ranks are in bijection ([unrank], [horner]); the transformation
    for any rank and the broadcasting of matrix products are stated with them. *)

From S2P Require Import Prelude Effects Float32 Params State Dram Fill Scaling Norm Config Move MoveSpec Isa MatmulCpu ConvCpu ConvCpuSpec Matmul Conv Systolic Tensor Buffer ConvHelper ConvHelperSpec Im2col Im2colSpec.

(** The position of rank [k], the last axis fastest (axes given last first). *)
Fixpoint digits (dims : list Z) (k : Z) : list Z :=
  match dims with
  | [] => []
  | n :: dims' => k mod n :: digits dims' (k / n)
  end.
Definition unrank (dims : list Z) (k : Z) : list Z := rev (digits (rev dims) k).

(** The index of a position below the row [a], in Horner's form. *)
Definition horner (dims pos : list Z) (a : Z) : Z := foldl (fun a '(n, d) => a * n + d) a (zip dims pos).
Definition in_dims (dims pos : list Z) : Prop := Forall2 (fun n d => 0 <= d < n) dims pos.
Definition all_pos (dims : list Z) : Prop := Forall (fun n => 1 <= n) dims.

Lemma shape_size_pos dims : all_pos dims -> 1 <= shape_size dims.
Proof. induction 1; cbn; [lia|]. by apply mul_pos. Qed.

Lemma shape_size_rev dims : shape_size (rev dims) = shape_size dims.
Proof.
  induction dims as [|n dims IH]; [done|]. cbn [rev]. unfold shape_size in *. rewrite foldr_app. cbn.
  rewrite <- IH. generalize (rev dims). intros l. rewrite Z.mul_1_r. clear IH. induction l as [|m l IH]; cbn; [lia|]. rewrite IH. ring.
Qed.

Lemma all_pos_rev dims : all_pos dims -> all_pos (rev dims).
Proof. apply Forall_rev. Qed.

Lemma Forall2_rev {A B} (P : A -> B -> Prop) l k : Forall2 P l k -> Forall2 P (rev l) (rev k).
Proof. induction 1; cbn; [done|]. apply Forall2_app; [done|]. by constructor. Qed.
Lemma rev_replicate {A} n (a : A) : rev (replicate n a) = replicate n a.
Proof. induction n as [|n IH]; [done|]. cbn. rewrite IH. symmetry. apply replicate_cons_app. Qed.

Lemma length_digits dims k : length (digits dims k) = length dims.
Proof. revert k. induction dims; intros k; cbn; auto. Qed.
Lemma length_unrank dims k : length (unrank dims k) = length dims.
Proof. unfold unrank. by rewrite length_rev, length_digits, length_rev. Qed.

(** The rank of the position of rank [k] is [k], and back. *)
Lemma zip_rev {A B} (l : list A) (k : list B) : length l = length k -> zip (rev l) (rev k) = rev (zip l k).
Proof.
  revert k. induction l as [|a l IH]; intros [|b k] Hl; [done..|]. cbn in *. rewrite zip_with_app by (rewrite !length_rev; lia).
  rewrite IH by lia. done.
Qed.

Lemma foldl_rev {A B} (f : A -> B -> A) l a : foldl f a (rev l) = foldr (fun b a => f a b) a l.
Proof. induction l as [|b l IH]; [done|]. cbn. by rewrite foldl_app, IH. Qed.

Lemma horner_rev dims pos a : length dims = length pos ->
  horner dims (rev pos) a = foldr (fun '(n, d) a => a * n + d) a (zip (rev dims) pos).
Proof.
  intros Hl. unfold horner. rewrite <- (rev_involutive dims) at 1. rewrite zip_rev by (by rewrite length_rev). rewrite foldl_rev.
  apply foldr_ext; [|done..]. by intros [n d] b.
Qed.

Lemma digits_value dims k a : all_pos dims -> 0 <= k < shape_size dims ->
  foldr (fun '(n, d) a => a * n + d) a (zip dims (digits dims k)) = a * shape_size dims + k.
Proof.
  intros Hd. revert k. induction Hd as [|n dims Hn Hd IH]; intros k Hk; cbn in *; [lia|]. fold (shape_size dims) in *.
  rewrite IH by (split; [apply Z.div_pos; lia|apply Z.div_lt_upper_bound; lia]). pose proof (Z.div_mod k n ltac:(lia)). lia.
Qed.

Lemma horner_unrank dims k a : all_pos dims -> 0 <= k < shape_size dims -> horner dims (unrank dims k) a = a * shape_size dims + k.
Proof.
  intros Hd Hk. unfold unrank. rewrite horner_rev by (by rewrite length_digits, length_rev).
  rewrite digits_value; rewrite ?shape_size_rev; auto using all_pos_rev.
Qed.

Lemma value_digits dims pos : in_dims dims pos ->
  let k := foldr (fun '(n, d) a => a * n + d) 0 (zip dims pos) in 0 <= k < shape_size dims /\ digits dims k = pos.
Proof.
  induction 1 as [|n d dims pos Hd Hp [IHb IHd]]; [done|]. cbn in *. fold (shape_size dims) in *. split; [rewrite (Z.mul_comm n); by apply radix_bound|].
  by rewrite radix_mod, radix_div, IHd.
Qed.

Lemma in_dims_unrank dims pos : in_dims dims pos -> 0 <= horner dims pos 0 < shape_size dims /\ unrank dims (horner dims pos 0) = pos.
Proof.
  intros Hp. assert (in_dims (rev dims) (rev pos)) as Hr by by apply Forall2_rev.
  pose proof (Forall2_length _ _ _ Hp) as Hl. destruct (value_digits _ _ Hr) as [Hb Hd].
  rewrite <- (rev_involutive pos). rewrite horner_rev by (by rewrite length_rev). rewrite shape_size_rev in Hb. split; [done|].
  unfold unrank. by rewrite Hd.
Qed.

Lemma unrank_in_dims dims k : all_pos dims -> in_dims dims (unrank dims k).
Proof.
  intros Hd. unfold unrank, in_dims. rewrite <- (rev_involutive dims) at 1. apply Forall2_rev. apply all_pos_rev in Hd. revert k. generalize dependent (rev dims). clear dims.
  induction 1 as [|n dims Hn Hd IH]; intros k; cbn; constructor; auto. apply Z.mod_pos_bound. lia.
Qed.

Lemma digits_zero dims : digits dims 0 = replicate (length dims) 0.
Proof. induction dims as [|n dims IH]; [done|]. cbn. by rewrite Zmod_0_l, Zdiv_0_l, IH. Qed.
Lemma digits_size dims : all_pos dims -> digits dims (shape_size dims) = digits dims 0.
Proof.
  induction 1 as [|n dims Hn Hd IH]; [done|]. cbn. fold (shape_size dims). rewrite Z.mul_comm, Z_mod_mult, Z.div_mul by lia.
  by rewrite IH, Zmod_0_l, Zdiv_0_l.
Qed.
Lemma unrank_zero dims : unrank dims 0 = replicate (length dims) 0.
Proof. unfold unrank. rewrite digits_zero, length_rev. apply rev_replicate. Qed.
Lemma unrank_size dims : all_pos dims -> unrank dims (shape_size dims) = replicate (length dims) 0.
Proof.
  intros Hd. rewrite <- unrank_zero. unfold unrank. rewrite <- (shape_size_rev dims), digits_size; [done|by apply all_pos_rev].
Qed.

Lemma horner_bound dims pos a n : in_dims dims pos -> 0 <= a < n -> 0 <= horner dims pos a < n * shape_size dims.
Proof.
  intros Hp. revert a n. induction Hp as [|x y dims pos Hx Hp IH]; intros a n Ha; unfold horner in *; cbn; [lia|].
  fold (shape_size dims). rewrite Z.mul_assoc. apply IH. by apply radix_bound.
Qed.

