(* ===== verification/Im2colNdSpec.v ===== *)
(** * Im2colNdSpec: [math::Im2col] for any rank

    [NextPosition] counts: started from the position of rank [k] it gives the position
    of rank [k + 1], and says whether there is one.  So the [do ... while] loop visits
    every output position once and leaves the counter at zero for the next row of the
    columns, and the transformation for any rank fills the columns with the patches.
    For two axes they are those of the two-dimensional transformation. *)

From S2P Require Import Prelude Effects Float32 Params State Dram Fill Scaling Norm Config Move MoveSpec Isa MatmulCpu ConvCpu ConvCpuSpec Matmul Conv Systolic Tensor Buffer ConvHelper ConvHelperSpec Im2col Im2colSpec Positions.

(** ** Counting *)

Lemma wp_next_digits {St} dims k Q (s : St) : all_pos dims -> 0 <= k < shape_size dims ->
  Q (digits dims (k + 1), k + 1 <? shape_size dims) s -> wp (next_position_rev dims (digits dims k)) Q s.
Proof.
  intros Hd. revert k Q. induction Hd as [|n dims Hn Hd IH]; intros k Q Hk HQ.
  { cbn in *. replace k with 0 in * by lia. by apply wp_ret. }
  cbn [digits next_position_rev] in *. unfold shape_size in *. cbn [foldr] in *. fold (shape_size dims) in *. pose proof (shape_size_pos dims Hd).
  pose proof (Z.mod_pos_bound k n ltac:(lia)) as Hm. pose proof (Z.div_mod k n ltac:(lia)) as Ek.
  assert (0 <= k / n < shape_size dims) as Hq by (split; [apply Z.div_pos; lia|apply Z.div_lt_upper_bound; lia]).
  apply wp_bind, wp_check; [lia|]. destruct (Z.eqb_spec (k mod n) (n - 1)) as [E|N].
  - assert ((k + 1) / n = k / n + 1) as E1 by (symmetry; apply (Z.div_unique _ _ _ 0); lia).
    assert ((k + 1) mod n = 0) as E2 by (symmetry; apply (Z.mod_unique _ _ (k / n + 1)); lia).
    rewrite E1, E2 in HQ. apply wp_bind, IH; [done|]. apply wp_ret. cbn [fst snd].
    replace (k / n + 1 <? shape_size dims) with (k + 1 <? n * shape_size dims); [done|]. apply Bool.eq_iff_eq_true. rewrite !Z.ltb_lt. nia.
  - assert ((k + 1) / n = k / n) as E1 by (symmetry; apply (Z.div_unique _ _ _ (k mod n + 1)); lia).
    assert ((k + 1) mod n = k mod n + 1) as E2 by (symmetry; apply (Z.mod_unique _ _ (k / n)); lia).
    rewrite E1, E2 in HQ. apply wp_ret. replace (k + 1 <? n * shape_size dims) with true in HQ; [done|]. symmetry. apply Z.ltb_lt. nia.
Qed.

Lemma wp_NextPosition {St} dims k Q (s : St) : all_pos dims -> 0 <= k < shape_size dims ->
  Q (unrank dims (k + 1), k + 1 <? shape_size dims) s -> wp (NextPosition dims (unrank dims k)) Q s.
Proof.
  intros Hd Hk HQ. unfold NextPosition, unrank. rewrite rev_involutive. apply wp_bind.
  apply wp_next_digits; [by apply all_pos_rev|by rewrite shape_size_rev|]. apply wp_ret. cbn [fst snd]. by rewrite shape_size_rev.
Qed.

(** [NextPosition] counts through the positions of any shape in order: from the
    position of rank [k] it moves to that of rank [k + 1], and it reports that there
    is no next one, back at the first position, exactly at the last. *)
Theorem next_position_counts (St : Type) dims pos (s : St) : all_pos dims -> in_dims dims pos ->
  wp (NextPosition dims pos) (fun r s' => s' = s /\
    if snd r : bool then in_dims dims (fst r) /\ horner dims (fst r) 0 = horner dims pos 0 + 1
    else horner dims pos 0 = shape_size dims - 1 /\ fst r = replicate (length dims) 0) s.
Proof.
  intros Hd Hp. destruct (in_dims_unrank _ _ Hp) as [Hb Hu]. rewrite <- Hu at 1. apply wp_NextPosition; [done..|]. split; [done|]. cbn [fst snd].
  destruct (Z.ltb_spec (horner dims pos 0 + 1) (shape_size dims)) as [Hlt|Hge].
  - split; [by apply unrank_in_dims|]. rewrite horner_unrank; [lia|done|lia].
  - split; [lia|]. replace (horner dims pos 0 + 1) with (shape_size dims) by lia. by apply unrank_size.
Qed.

Lemma next_position_counts_witness :
  wp (NextPosition [2; 3] [0; 2]) (fun r _ => snd r = true /\ horner [2; 3] (fst r) 0 = 3) tt /\
  all_pos [2; 3] /\ in_dims [2; 3] [0; 2].
Proof.
  assert (all_pos [2; 3]) as Hd by (repeat constructor; lia).
  assert (in_dims [2; 3] [0; 2]) as Hp by (repeat constructor; lia).
  split; [|done]. eapply wp_mono; [exact (next_position_counts unit [2; 3] [0; 2] tt Hd Hp)|].
  intros [pos [|]] [] [_ Hr]; [by split; [|apply Hr]|]. by destruct Hr.
Defined.

(** ** The transformation *)

Section nd.
Context {mem : Type} `{MmuLaws mem}.
Context (axes : list axis) (data_im data_col channels padding_value : Z).
Implicit Types (d : mem) (m : machine mem).
Notation outs := (ax_out <$> axes).
Notation ims := (ax_im <$> axes).
Notation kernels := (ax_kernel <$> axes).
Notation OS := (shape_size outs).
Notation KS := (shape_size kernels).

(** The image coordinates of taps [o] of the window at position [pos]. *)
Definition nd_coords (pos o : list Z) : list Z :=
  zip_with (fun a '(d, o) => d * ax_stride a - ax_pad a + o * ax_dilation a) axes (zip pos o).
Definition all_inside (ims coords : list Z) : bool := forallb (fun '(n, i) => inside n i) (zip ims coords).

(** What row [c_col] of the columns holds at position [pos]: its channel is
    [c_col / KS], its taps are the digits of [c_col] in the kernel. *)
Definition nd_value d (c_col : Z) (pos : list Z) : Z :=
  let coords := nd_coords pos (unrank kernels c_col) in
  if all_inside ims coords then mem_int 1 d (data_im + horner ims coords (c_col / KS)) else s8 padding_value.
Definition nd_offset (c_col : Z) (pos : list Z) : Z := horner outs pos c_col.
Definition nd_size : Z := channels * KS * OS.
Definition nd_at d (o : Z) : Z := nd_value d (o / OS) (unrank outs (o mod OS)).

Definition axis_ok (a : axis) : Prop :=
  1 <= ax_im a < 2 ^ 31 /\ 1 <= ax_out a < 2 ^ 31 /\ 1 <= ax_kernel a < 2 ^ 31 /\ 1 <= ax_stride a < 2 ^ 31 /\
  1 <= ax_dilation a < 2 ^ 31 /\ 0 <= ax_pad a < 2 ^ 31.

Record nd_ready d : Prop := {
  nd_axes : Forall axis_ok axes;
  nd_channels : 0 <= channels;
  nd_buffer : buffer data_col nd_size;
  nd_read o : 0 <= o < channels * shape_size ims -> mem_readable 1 d (data_im + o);
  nd_write o : 0 <= o < nd_size -> mem_writable 1 d (data_col + o);
  nd_apart o : 0 <= o < channels * shape_size ims -> ~ span nd_size data_col (u64 (data_im + o)) }.

Definition nd_filling d m0 m : Prop :=
  gs m = gs m0 /\ rand_pos m = rand_pos m0 /\ mem_differ (span nd_size data_col) d (dram m).

Lemma tap_offsets_unrank c : Forall axis_ok axes -> 0 <= c -> tap_offsets axes c = unrank kernels c.
Proof.
  intros Ha Hc. unfold tap_offsets, unrank. f_equal. rewrite <- map_rev. apply Forall_rev in Ha.
  revert c Hc. induction Ha as [|a l Ha _ IH]; intros c Hc; [done|]. destruct Ha as (_ & _ & Hk & _). cbn.
  rewrite Z.rem_mod_nonneg, Z.quot_div_nonneg by lia. rewrite IH; [done|]. apply Z.div_pos; lia.
Qed.

Lemma nd_index_spec pos o ic ii pad : Forall axis_ok axes -> in_dims outs pos -> in_dims kernels o ->
  nd_index axes pos o ic ii pad = (horner outs pos ic, horner ims (nd_coords pos o) ii, pad || negb (all_inside ims (nd_coords pos o))).
Proof.
  intros Ha. revert pos o ic ii pad. unfold nd_coords, horner, all_inside, in_dims.
  induction Ha as [|a l Ha _ IH]; intros pos o ic ii pad Hp Ho.
  { inv Hp. inv Ho. cbn. by rewrite orb_false_r. }
  cbn [fmap list_fmap] in *. inv Hp as [|? x ? pos' Hx Hp']. inv Ho as [|? y ? o' Hy Ho']. cbn [nd_index zip zip_with foldl forallb].
  rewrite IH by done. cbn [zip zip_with forallb foldl]. destruct Ha as (Him & Hout & Hk & Hs & Hd & Hpad).
  rewrite ge_zero_lt_spec by (unfold in_s; nia). rewrite negb_andb, orb_assoc. done.
Qed.

Lemma all_inside_shape pos o : length pos = length axes -> length o = length axes -> all_inside ims (nd_coords pos o) = true ->
  in_dims ims (nd_coords pos o).
Proof.
  unfold nd_coords, all_inside, in_dims. revert pos o. induction axes as [|a l IH]; intros [|x pos] [|y o] Hp Ho; [done..|].
  cbn. intros [Hin Hrest]%andb_prop. constructor; [unfold inside in Hin; lia|]. apply IH; [naive_solver..|done].
Qed.

Lemma outs_pos : Forall axis_ok axes -> all_pos outs.
Proof. intros Ha. apply Forall_fmap. eapply Forall_impl; [exact Ha|]. unfold axis_ok. cbn. intros a. lia. Qed.
Lemma kernels_pos : Forall axis_ok axes -> all_pos kernels.
Proof. intros Ha. apply Forall_fmap. eapply Forall_impl; [exact Ha|]. unfold axis_ok. cbn. intros a. lia. Qed.

Section run.
Context (d : mem) (Hr : nd_ready d) (m0 : machine mem).
Notation inv := (nd_filling d m0).
Notation fills := (filled data_col (nd_at d)).

Lemma OS_pos : 1 <= OS.
Proof. apply shape_size_pos, outs_pos, (nd_axes d Hr). Qed.
Lemma KS_pos : 1 <= KS.
Proof. apply shape_size_pos, kernels_pos, (nd_axes d Hr). Qed.

Lemma nd_stable m d' : inv m -> mem_differ (span nd_size data_col) (dram m) d' -> inv (Machine (gs m) d' (rand_pos m)).
Proof. intros (Hg & Hp & Hd) Hd'. split_and!; [done..|]. by eapply mem_differ_trans. Qed.
Lemma nd_writable m k : inv m -> 0 <= k < nd_size -> mem_writable 1 (dram m) (data_col + k).
Proof. intros (_ & _ & Hd) Hk. eapply mem_writable_differ; [done|]. by apply (nd_write d Hr). Qed.

Lemma nd_at_offset c k : 0 <= k < OS -> nd_at d (c * OS + k) = nd_value d c (unrank outs k).
Proof. intros Hk. unfold nd_at. by rewrite radix_div, radix_mod. Qed.

Lemma wp_im2col_nd_elem c k Q m : inv m -> 0 <= c < channels * KS -> 0 <= k < OS ->
  (forall m', inv m' -> fills (fun o => o = c * OS + k) (dram m) (dram m') -> Q tt m') ->
  wp (im2col_nd_elem axes data_im data_col padding_value c (unrank outs k)) Q m.
Proof.
  intros Hi Hc Hk HQ. pose proof (nd_axes d Hr) as Ha. pose proof KS_pos as HK.
  assert (0 <= c * OS + k < nd_size) as Hb by (unfold nd_size; by apply radix_bound).
  unfold im2col_nd_elem. rewrite tap_offsets_unrank by (done || lia).
  rewrite nd_index_spec by (done || by apply unrank_in_dims, outs_pos || by apply unrank_in_dims, kernels_pos).
  rewrite horner_unrank by (done || by apply outs_pos).
  assert (foldr (fun a z => ax_kernel a * z) 1 axes = KS) as -> by (unfold shape_size; by rewrite foldr_fmap).
  rewrite Z.quot_div_nonneg by lia. cbn [orb]. destruct (all_inside _ _) eqn:Ein; cbn [negb].
  - apply wp_bind. unfold load_elem, sizeof_elem_t at 1.
    assert (0 <= horner ims (nd_coords (unrank outs k) (unrank kernels c)) (c / KS) < channels * shape_size ims) as Hx.
    { apply horner_bound; [apply all_inside_shape; [by rewrite length_unrank, length_fmap..|done]|].
      split; [apply Z.div_pos; lia|apply Z.div_lt_upper_bound; lia]. }
    destruct Hi as (Hg & Hp & Hd). apply wp_read_from_dram; [lia|eapply mem_readable_differ; [done|]; by apply (nd_read d Hr)|].
    apply (wp_fill_byte data_col nd_size (nd_at d) (nd_buffer d Hr) inv nd_stable nd_writable); [done|done| |done].
    rewrite nd_at_offset by done. unfold nd_value. rewrite Ein. f_equal. eapply mem_int_differ; [done|]. intros i Hii.
    replace i with 0 by lia. rewrite Z.add_0_r. by apply (nd_apart d Hr).
  - apply (wp_fill_byte data_col nd_size (nd_at d) (nd_buffer d Hr) inv nd_stable nd_writable); [done|done| |done].
    rewrite nd_at_offset by done. unfold nd_value. rewrite Ein. symmetry. by apply wrap_s_wrap_s.
Qed.

(** The loop over the positions from rank [k] on. *)
Lemma wp_im2col_nd_positions fuel c k Q m : inv m -> 0 <= c < channels * KS -> 0 <= k < OS -> OS - k <= Z.of_nat fuel ->
  (forall m', inv m' -> fills (fun o => c * OS + k <= o < c * OS + OS) (dram m) (dram m') -> Q (unrank outs 0) m') ->
  wp (im2col_nd_positions axes fuel data_im data_col padding_value c (unrank outs k)) Q m.
Proof.
  intros Hi Hc Hk Hf HQ. revert k Q m Hi Hk Hf HQ. induction fuel as [|fuel IH]; intros k Q m Hi Hk Hf HQ; [lia|].
  pose proof (nd_axes d Hr) as Ha. cbn [im2col_nd_positions]. apply wp_bind, wp_im2col_nd_elem; [done..|]. intros m1 Hi1 Hf1.
  apply wp_bind, wp_NextPosition; [by apply outs_pos|done|]. cbn [fst snd]. destruct (Z.ltb_spec (k + 1) OS) as [Hlt|Hge].
  - apply IH; [done|lia|lia|]. intros m2 Hi2 Hf2. apply HQ; [done|].
    eapply filled_ext; [|eapply (filled_app data_col (nd_at d) _ _ nd_size); [apply Hr| | |exact Hf1|exact Hf2]].
    + intros o. cbn. lia.
    + intros o ->. unfold nd_size. by apply radix_bound.
    + intros o Ho. replace o with (c * OS + (o - c * OS)) by lia. unfold nd_size. apply radix_bound; lia.
  - apply wp_ret. replace (k + 1) with OS by lia. rewrite unrank_size, <- unrank_zero by (by apply outs_pos). apply HQ; [done|].
    eapply filled_ext; [|exact Hf1]. intros o. cbn. lia.
Qed.

Lemma wp_Im2col_ND Q : inv m0 -> d = dram m0 ->
  (forall m, inv m -> fills (fun o => 0 <= o < nd_size) d (dram m) -> Q tt m) ->
  wp (Im2col_ND axes data_im (channels * KS) data_col padding_value) Q m0.
Proof.
  intros Hi Ed HQ. pose proof (nd_axes d Hr) as Ha. pose proof OS_pos as HO. unfold Im2col_ND. apply wp_bind, wp_check.
  { clear -Ha. induction Ha as [|a l (_ & _ & Hk & _) _ IH]; [done|]. cbn. rewrite IH. destruct (Z.eqb_spec (ax_kernel a) 0); [lia|done]. }
  apply wp_bind. assert (foldr (fun a z => Z.max 1 (ax_out a) * z) 1 axes = OS) as ->.
  { unfold shape_size. clear -Ha. induction Ha as [|a l (_ & Ho & _) _ IH]; [done|]. cbn. rewrite IH, Z.max_r by lia. done. }
  replace (replicate (length axes) 0) with (unrank outs 0) by by rewrite unrank_zero, length_fmap.
  apply (wp_fold_filled data_col nd_size (nd_at d) (nd_buffer d Hr) inv (fun _ => unrank outs 0) (channels * KS) _
    (fun c o => c * OS + 0 <= o < c * OS + OS)).
  - intros c Hc o Ho. replace o with (c * OS + (o - c * OS)) by lia. unfold nd_size. apply radix_bound; lia.
  - done.
  - intros c m' Hc Hi'. by apply wp_im2col_nd_positions; [..|lia|lia|].
  - intros m' Hi' Hf. apply wp_ret, HQ; [done|]. rewrite <- Ed in Hf. eapply filled_ext; [|exact Hf]. intros o. unfold upto, nd_size. split.
    + intros (c & Hc & Ho). replace o with (c * OS + (o - c * OS)) by lia. apply radix_bound; lia.
    + intros Ho. exists (o / OS). rewrite Z.add_0_r. by apply radix_split.
Qed.
End run.

(** C10: [math::Im2col] for any rank, over the channels of an image: row [c_col] of the
    columns holds, at every output position, what its tap sees of its channel, and the
    padding value outside of the image; the counting loops end and nothing else is
    written. *)
Theorem im2col_nd_correct m : nd_ready (dram m) ->
  wp (Im2col_ND axes data_im (channels * KS) data_col padding_value) (fun _ m' =>
    gs m' = gs m /\ mem_differ (span nd_size data_col) (dram m) (dram m') /\
    forall c_col pos, 0 <= c_col < channels * KS -> in_dims outs pos ->
      mem_int 1 (dram m') (data_col + nd_offset c_col pos) = s8 (nd_value (dram m) c_col pos)) m.
Proof.
  intros Hr. apply (wp_Im2col_ND (dram m) Hr m); [split_and!; [done..|apply mem_differ_refl]|done|].
  intros m' (Hg & _ & Hd) [_ Hv]. split_and!; [done..|]. intros c pos Hc Hp. destruct (in_dims_unrank _ _ Hp) as [Hb <-].
  unfold nd_offset. rewrite horner_unrank by (done || by apply outs_pos, (nd_axes _ Hr)).
  rewrite Hv by (unfold nd_size; by apply radix_bound). by rewrite nd_at_offset.
Qed.
End nd.

(** ** Two axes *)

(** The axes of a two-dimensional patch. *)
Definition patch_axes (p : patch_args) : list axis :=
  [{| ax_im := pt_height p; ax_out := height_col p; ax_kernel := pt_kernel_h p; ax_stride := pt_stride_h p;
      ax_dilation := pt_dilation_h p; ax_pad := pt_pad_t p |};
   {| ax_im := pt_width p; ax_out := width_col p; ax_kernel := pt_kernel_w p; ax_stride := pt_stride_w p;
      ax_dilation := pt_dilation_w p; ax_pad := pt_pad_l p |}].

Section two.
Context {mem : Type} `{MmuLaws mem}.
Context (p : patch_args) (data_im data_col padding_value : Z).
Notation axes := (patch_axes p).

Lemma patch_nd_size : nd_size axes (pt_channels p) = nchw_size p.
Proof. unfold nd_size, nchw_size. cbn. ring. Qed.

Lemma patch_nd_value (d : mem) c r s h w : 1 <= pt_kernel_h p -> 1 <= pt_kernel_w p -> 0 <= r < pt_kernel_h p -> 0 <= s < pt_kernel_w p ->
  nd_value axes data_im padding_value d ((c * pt_kernel_h p + r) * pt_kernel_w p + s) [h; w] = nchw_value p data_im padding_value d c r s h w.
Proof.
  intros Hkh Hkw Hr Hs. unfold nd_value, nchw_value, nchw_pixel. cbn -[Z.div Z.modulo].
  rewrite radix_div, !radix_mod by done. unfold all_inside. cbn. rewrite andb_true_r, Z.mul_1_r.
  replace (((c * pt_kernel_h p + r) * pt_kernel_w p + s) / (pt_kernel_h p * pt_kernel_w p)) with c.
  2: { rewrite (Z.mul_comm (pt_kernel_h p)), <- Z.div_div by lia. by rewrite !radix_div. }
  done.
Qed.

Lemma patch_nd_ready (d : mem) : nchw_ready p data_im data_col d -> Forall axis_ok axes ->
  nd_ready axes data_im data_col (pt_channels p) d.
Proof.
  intros [Hp Hi Hb Hrd Hw Ha] Hax. destruct (im_channels _ _ Hp) as (_ & Hc & _). unfold group_channels in Hc. rewrite Z.quot_1_r in Hc.
  split; rewrite ?patch_nd_size; [done|lia|done| |done|]; cbn; rewrite Z.mul_1_r, Z.mul_assoc; done.
Qed.

(** On a two-dimensional image the transformation for any rank stores the same columns
    as the two-dimensional one with its copies of runs. *)
Theorem im2col_nd_two (m : machine mem) : nchw_ready p data_im data_col (dram m) -> Forall axis_ok axes ->
  wp (Im2col_NCHW p data_im data_col padding_value) (fun _ m1 =>
    wp (Im2col_ND axes data_im (pt_channels p * (pt_kernel_h p * pt_kernel_w p)) data_col padding_value) (fun _ m2 =>
      gs m1 = gs m2 /\ forall o, 0 <= o < nchw_size p -> mem_int 1 (dram m1) (data_col + o) = mem_int 1 (dram m2) (data_col + o)) m) m.
Proof.
  intros Hr Hax. apply (wp_Im2col_NCHW p data_im data_col padding_value (dram m) Hr m); [split_and!; [done..|apply mem_differ_refl]|done|].
  intros m1 (Hg1 & _ & _) [_ Hv1]. pose proof (patch_nd_ready _ Hr Hax) as Hn.
  replace (pt_kernel_h p * pt_kernel_w p) with (shape_size (ax_kernel <$> axes)) by (cbn; ring).
  apply (wp_Im2col_ND axes data_im data_col (pt_channels p) padding_value (dram m) Hn m); [split_and!; [done..|apply mem_differ_refl]|done|].
  intros m2 (Hg2 & _ & _) [_ Hv2]. split; [congruence|]. intros o Ho. rewrite Hv1, Hv2 by (by rewrite ?patch_nd_size).
  f_equal. destruct (im_kernel _ _ (nc_patch _ _ _ _ Hr)) as [Hkh Hkw].
  apply (channel_set_all p data_im data_col (dram m) Hr) in Ho. destruct Ho as (c & Hc & Ho). unfold channel_set in Ho. upto_open.
  apply columns_from_all in Ho. upto_open. subst. rewrite nchw_at_offset by done.
  match goal with |- nchw_value _ _ _ _ ?c ?r ?s ?h ?w = _ =>
    assert (in_dims (ax_out <$> axes) [h; w]) as Hpos by (repeat constructor; cbn; lia);
    destruct (in_dims_unrank _ _ Hpos) as [Hb Hu]; rewrite <- patch_nd_value, <- Hu by done;
    replace (nchw_offset p c r s h w) with (((c * pt_kernel_h p + r) * pt_kernel_w p + s) * shape_size (ax_out <$> axes) + horner (ax_out <$> axes) [h; w] 0)
      by (unfold nchw_offset; cbn; ring) end.
  symmetry. by apply nd_at_offset.
Qed.
End two.

(** *** The image of two channels with stride 2 *)

Lemma strided_axes_ok : Forall axis_ok (patch_axes strided_patch).
Proof. repeat constructor; by vm_compute. Qed.

Lemma im2col_nd_correct_witness :
  wp (Im2col_ND (patch_axes strided_patch) 0x1000 18 0x1080 9) (fun _ m' =>
    mem_int 1 (dram m') (0x1080 + 64) = mem_int 1 (dram demo) (0x1000 + 22)) demo.
Proof.
  eapply wp_mono; [exact (im2col_nd_correct (patch_axes strided_patch) 0x1000 0x1080 2 9 demo
    (patch_nd_ready strided_patch 0x1000 0x1080 _ strided_patch_ready strided_axes_ok))|].
  intros _ m' (_ & _ & Hv). etransitivity; [exact (Hv 10 [1; 1] ltac:(done) ltac:(repeat constructor; cbn; lia))|]. by vm_compute.
Defined.

Lemma im2col_nd_two_witness :
  wp (Im2col_NCHW strided_patch 0x1000 0x1080 9) (fun _ m1 =>
    wp (Im2col_ND (patch_axes strided_patch) 0x1000 18 0x1080 9) (fun _ m2 =>
      mem_int 1 (dram m1) (0x1080 + 64) = mem_int 1 (dram m2) (0x1080 + 64)) demo) demo.
Proof.
  eapply wp_mono; [exact (im2col_nd_two strided_patch 0x1000 0x1080 9 demo strided_patch_ready strided_axes_ok)|].
  intros [] m1 Hm. eapply wp_mono; [exact Hm|]. intros [] m2 [_ Hv]. exact (Hv 64 ltac:(clear; by vm_compute)).
Defined.
