(* ===== verification/QLinearConv.v ===== *)
(** * QLinearConv: the quantized convolution kernels

    [QLinearConv_nhwc::Compute] and [QLinearConv::Compute] of
    providers/systolic/nn/qlinearconv.cc.  A kernel object is its attributes; the
    context gives the input tensors and the addresses that the allocators of the
    framework return.  Profiling events and console messages are left out. *)

From S2P Require Import Prelude Effects Float32 Params State Dram Scaling Isa MatmulCpu Matmul ConvCpu Conv Systolic Tensor ConvHelper ConvAttributes Im2col.

(** The members of the kernel objects, with the mode of their execution provider. *)
Record conv_kernel := {
  ck_conv_attrs_ : ConvAttributes; ck_pool_attrs_ : PoolAttributes; ck_fused_relu_ : bool; ck_accelerator_mode : Z }.

(** The inputs 0 to 8 of the node (the bias is absent when there are fewer than nine),
    the address of the output that the context allocates for a shape, and those of
    the temporary buffers for a size in bytes. *)
Record conv_context := {
  cx_X : Tensor; cx_X_scale : Tensor; cx_X_zero_point : Tensor; cx_W : Tensor; cx_W_scale : Tensor; cx_W_zero_point : Tensor;
  cx_Y_scale : Tensor; cx_Y_zero_point : Tensor; cx_B : option Tensor;
  cx_output : shape -> Z; cx_pre_pool : shape -> Z; cx_alloc : Z -> Z; cx_new_int : Z -> Z }.

(** [x != 0] *)
Definition f32_nonzero (x : float32) : bool := match x with S754_zero _ => false | _ => true end.

Section compute.
Context {mem : Type} `{Mmu mem} `{Rand} `{EigenCols mem}.

(** The checks of the zero points. *)
Definition validate_zero_points (X_zero_point W_zero_point Y_zero_point : Tensor) : M (machine mem) Z :=
  enforce (IsScalarOr1ElementVector X_zero_point) ;;
  enforce (IsScalarOr1ElementVector W_zero_point) ;;
  enforce (IsScalarOr1ElementVector Y_zero_point) ;;
  X_zero_point_value ← scalar_int8 X_zero_point;
  W_zero_point_value ← scalar_int8 W_zero_point;
  Y_zero_point_value ← scalar_int8 Y_zero_point;
  enforce (X_zero_point_value =? 0) ;;
  enforce (W_zero_point_value =? 0) ;;
  enforce (Y_zero_point_value =? 0) ;;
  mret X_zero_point_value.

(** The checks of the scales, and [real_multiplier]. *)
Definition validate_scales (X_scale W_scale Y_scale : Tensor) : M (machine mem) float32 :=
  enforce (IsScalarOr1ElementVector X_scale) ;;
  enforce (IsScalarOr1ElementVector W_scale) ;;
  enforce (IsScalarOr1ElementVector Y_scale) ;;
  X_scale_value ← scalar_float X_scale;
  W_scale_value ← scalar_float W_scale;
  Y_scale_value ← scalar_float Y_scale;
  enforce (f32_nonzero Y_scale_value) ;;
  enforce (f32_nonzero W_scale_value) ;;
  enforce (f32_nonzero X_scale_value) ;;
  mret (f32_div (f32_mul X_scale_value W_scale_value) Y_scale_value).

(** The checks of the bias. *)
Definition validate_bias (B : option Tensor) (M : Z) : Effects.M (machine mem) unit :=
  match B with
  | None => mret tt
  | Some b =>
      enforce (length (t_shape b) =? 1)%nat ;;
      size ← Size (t_shape b);
      enforce (size =? M)
  end.

(** What shape inference gives the kernels: [kernel_shape], [dilations], [strides],
    [pads] and the shape of the output in NCHW order. *)
Record conv_shape := {
  cs_kernel_shape : list Z; cs_dilations : list Z; cs_strides : list Z; cs_pads : list Z; cs_Y_dims : list Z }.

Definition infer_conv (attrs : ConvAttributes) (input_shape : shape) (kernel_shape : list Z) (N M : Z)
    : Effects.M (machine mem) (result conv_shape) :=
  let pads := default_list (ca_pads attrs) (length kernel_shape * 2) 0 in
  let dilations := default_list (ca_dilations attrs) (length kernel_shape) 1 in
  let strides := default_list (ca_strides attrs) (length kernel_shape) 1 in
  return_if_error Err (InferOutputShape attrs input_shape kernel_shape strides dilations pads [N; M] false)
    (fun '(pads, Y_dims) => mret (Val {| cs_kernel_shape := kernel_shape; cs_dilations := dilations; cs_strides := strides;
       cs_pads := pads; cs_Y_dims := Y_dims |})).

(** The arguments of im2col for an image of [channels] channels. *)
Definition patch_of (channels : Z) (input_shape : shape) (s : conv_shape) : M (machine mem) patch_args :=
  height ← arr_get input_shape 0; width ← arr_get input_shape 1;
  kernel_h ← arr_get (cs_kernel_shape s) 0; kernel_w ← arr_get (cs_kernel_shape s) 1;
  dilation_h ← arr_get (cs_dilations s) 0; dilation_w ← arr_get (cs_dilations s) 1;
  pad_t ← arr_get (cs_pads s) 0; pad_l ← arr_get (cs_pads s) 1; pad_b ← arr_get (cs_pads s) 2; pad_r ← arr_get (cs_pads s) 3;
  stride_h ← arr_get (cs_strides s) 0; stride_w ← arr_get (cs_strides s) 1;
  mret {| pt_channels := channels; pt_height := height; pt_width := width; pt_kernel_h := kernel_h; pt_kernel_w := kernel_w;
          pt_dilation_h := dilation_h; pt_dilation_w := dilation_w; pt_pad_t := pad_t; pt_pad_l := pad_l; pt_pad_b := pad_b;
          pt_pad_r := pad_r; pt_stride_h := stride_h; pt_stride_w := stride_w |}.

(** *** [QLinearConv_nhwc] *)

(** One group of one image: the patches times the weights of the group. *)
Definition nhwc_group (k : conv_kernel) (M group output_image_size kernel_dim patches Wdata Bdata Ydata : Z) (real_multiplier : float32)
    (group_id : Z) : Effects.M (machine mem) unit :=
  let mg := s32 (Z.quot M group) in
  SystolicMultiply_strided (ck_accelerator_mode k) (ck_fused_relu_ k) (s32 output_image_size) mg (s32 kernel_dim)
    (patches + s32 (group_id * s32 kernel_dim)) (s32 (group * s32 kernel_dim))
    (Wdata + s32 (group_id * mg)) (s32 M)
    (Ydata + s32 (group_id * mg)) (s32 M)
    real_multiplier (if Bdata =? 0 then 0 else Bdata + group_id * mg * sizeof_acc_t) mg true.

(** The images of the batch, [col_buffer_data] being null if the input itself has the
    layout of the patches. *)
Definition nhwc_images (k : conv_kernel) (N C M : Z) (input_shape : shape) (s : conv_shape) (output_image_size kernel_dim X_offset Y_offset
    Xdata Wdata Bdata Ydata col_buffer_data X_zero_point_value : Z) (real_multiplier : float32) : Effects.M (machine mem) unit :=
  let group := ca_group (ck_conv_attrs_ k) in
  _ ← fold_int N (fun '(Xdata, Ydata) image_id =>
    when (negb (col_buffer_data =? 0))
      (p ← patch_of C input_shape s; Im2Col_NHWC p Xdata col_buffer_data group X_zero_point_value) ;;
    for_int group (nhwc_group k M group output_image_size kernel_dim (if col_buffer_data =? 0 then Xdata else col_buffer_data)
      Wdata Bdata Ydata real_multiplier) ;;
    mret (Xdata + X_offset, Ydata + Y_offset)) (Xdata, Ydata);
  mret tt.

(** The path that does not use the accelerator's convolution: [Y] is the output before
    pooling. *)
Definition nhwc_fallback (k : conv_kernel) (c : conv_context) (N C M : Z) (input_shape : shape) (s : conv_shape) (Y : Tensor)
    (X_zero_point_value : Z) (real_multiplier : float32) : Effects.M (machine mem) unit :=
  let group := ca_group (ck_conv_attrs_ k) in
  output_shape ← Slice (t_shape Y) 1 3;
  input_image_size ← Size input_shape;
  output_image_size ← Size output_shape;
  kernel_size ← Size (cs_kernel_shape s);
  Y_size ← Size (t_shape Y);
  Y_batch ← arr_get (t_shape Y) 0;
  check (negb (Y_batch =? 0) && negb (group =? 0)) Undefined ;;
  let kernel_dim := Z.quot C group * kernel_size in
  let col_buffer_size := C * output_image_size * kernel_size in
  col_buffer_data ← (if negb (kernel_size =? 1) || negb (HasStridesOneAndNoPadding (ck_conv_attrs_ k))
    then enforce ((0 <=? col_buffer_size) && (col_buffer_size <? 2 ^ 64)) ;; mret (cx_alloc c col_buffer_size) else mret 0);
  nhwc_images k N C M input_shape s output_image_size kernel_dim (C * input_image_size) (Z.quot Y_size Y_batch)
    (t_data (cx_X c)) (t_data (cx_W c)) (bias_data (cx_B c)) (t_data Y) col_buffer_data X_zero_point_value real_multiplier.

(** The fused pooling of the fallback path. *)
Definition nhwc_pool (p : PoolAttributes) (Y_dims Y_dims_post_pool : list Z) (X Y : Z) : M (machine mem) unit :=
  n ← arr_get Y_dims_post_pool 0; c ← arr_get Y_dims_post_pool 3;
  x_h ← arr_get Y_dims 1; x_w ← arr_get Y_dims 2;
  y_h ← arr_get Y_dims_post_pool 1; y_w ← arr_get Y_dims_post_pool 2;
  k_h ← arr_get (pa_kernel_shape p) 0; k_w ← arr_get (pa_kernel_shape p) 1;
  s_h ← arr_get (pa_strides p) 0; s_w ← arr_get (pa_strides p) 1;
  pad_t ← arr_get (pa_pads p) 0; pad_l ← arr_get (pa_pads p) 1;
  RunMaxPool2D (s32 n) (s32 c) (s32 x_h) (s32 x_w) (s32 y_h) (s32 y_w) (s32 k_h) (s32 k_w) (s32 s_h) (s32 s_w) (s32 pad_t) (s32 pad_l) X Y.

(** After validation: the shapes, the attempt on the accelerator, the fallback. *)
Definition nhwc_run (k : conv_kernel) (c : conv_context) (N C M X_zero_point_value : Z) (real_multiplier : float32)
    (input_shape : shape) (s : conv_shape) : Effects.M (machine mem) Status :=
  y0 ← arr_get (cs_Y_dims s) 0; y2 ← arr_get (cs_Y_dims s) 2; y3 ← arr_get (cs_Y_dims s) 3; y1 ← arr_get (cs_Y_dims s) 1;
  let Y_dims := [y0; y2; y3; y1] in
  let pool := ck_pool_attrs_ k in
  Y_dims_post_pool ← (if pa_fused_pool pool then SetOutputSize_nhwc pool Y_dims y1 (pa_pads pool) else mret []);
  let out_dims := if pa_fused_pool pool then Y_dims_post_pool else Y_dims in
  let output := {| t_shape := out_dims; t_data := cx_output c out_dims |} in
  done ← TryConvOnSystolic (ck_accelerator_mode k) (cs_dilations s) (cs_pads s) (cs_strides s) (ca_group (ck_conv_attrs_ k))
    (cx_X c) (cx_W c) (cx_B c) output Y_dims (ck_fused_relu_ k) (Some pool) real_multiplier;
  if done : bool then mret StatusOK
  else
    let Y := if pa_fused_pool pool then {| t_shape := Y_dims; t_data := cx_pre_pool c Y_dims |} else output in
    nhwc_fallback k c N C M input_shape s Y X_zero_point_value real_multiplier ;;
    when (pa_fused_pool pool) (nhwc_pool pool Y_dims Y_dims_post_pool (t_data Y) (t_data output)) ;;
    mret StatusOK.

Definition QLinearConv_nhwc_Compute (k : conv_kernel) (c : conv_context) : M (machine mem) Status :=
  X_zero_point_value ← validate_zero_points (cx_X_zero_point c) (cx_W_zero_point c) (cx_Y_zero_point c);
  real_multiplier ← validate_scales (cx_X_scale c) (cx_W_scale c) (cx_Y_scale c);
  N ← arr_get (t_shape (cx_X c)) 0;
  C ← arr_get (t_shape (cx_X c)) 3;
  M ← arr_get (t_shape (cx_W c)) 3;
  status ← ValidateConvInputShapeNHWC (cx_X c) (cx_W c) (ca_group (ck_conv_attrs_ k));
  if negb (bool_decide (status = StatusOK)) then mret status
  else
    validate_bias (cx_B c) M ;;
    w3 ← arr_get (t_shape (cx_W c)) 3; w2 ← arr_get (t_shape (cx_W c)) 2;
    w0 ← arr_get (t_shape (cx_W c)) 0; w1 ← arr_get (t_shape (cx_W c)) 1;
    return_if_error id (ComputeKernelShape (ck_conv_attrs_ k) [w3; w2; w0; w1]) (fun kernel_shape =>
      enforce (length kernel_shape =? 2)%nat ;;
      input_shape ← Slice (t_shape (cx_X c)) 1 3;
      return_if_error id (infer_conv (ck_conv_attrs_ k) input_shape kernel_shape N M)
        (nhwc_run k c N C M X_zero_point_value real_multiplier input_shape)).

(** *** [QLinearConv] *)

(** The axes of the transformation for any rank. *)
Fixpoint axes_of (input_shape output_shape : shape) (s : conv_shape) (dims : list nat) : M (machine mem) (list axis) :=
  match dims with
  | [] => mret []
  | dim :: dims' =>
      let i := Z.of_nat dim in
      im ← arr_get input_shape i; out ← arr_get output_shape i; kernel ← arr_get (cs_kernel_shape s) i;
      stride ← arr_get (cs_strides s) i; dilation ← arr_get (cs_dilations s) i; pad ← arr_get (cs_pads s) i;
      axes ← axes_of input_shape output_shape s dims';
      mret ({| ax_im := im; ax_out := out; ax_kernel := kernel; ax_stride := stride; ax_dilation := dilation; ax_pad := pad |} :: axes)
  end.

(** The columns of one group of one image. *)
Definition nchw_patches (C group : Z) (input_shape output_shape : shape) (s : conv_shape) (kernel_dim Xdata col_buffer_data X_zero_point_value : Z)
    : M (machine mem) unit :=
  if (length (cs_kernel_shape s) =? 2)%nat then
    p ← patch_of (Z.quot C group) input_shape s;
    Im2col_NCHW p Xdata col_buffer_data X_zero_point_value
  else
    axes ← axes_of input_shape output_shape s (seq 0 (length (cs_kernel_shape s)));
    Im2col_ND axes Xdata kernel_dim col_buffer_data X_zero_point_value.

(** The bias of each row repeated over the columns of the result. *)
Definition splat_bias (dimI dimJ matrix_bias bias_data : Z) : M (machine mem) unit :=
  for_range 0 dimI (fun i =>
    v ← load_acc (bias_data + i * sizeof_acc_t);
    for_range 0 dimJ (fun j => write_to_dram sizeof_acc_t (matrix_bias + s32 (i * dimJ) * sizeof_acc_t + j * sizeof_acc_t) v)).

Definition nchw_group (k : conv_kernel) (c : conv_context) (C M : Z) (input_shape output_shape : shape) (s : conv_shape)
    (output_image_size kernel_dim W_offset B_offset Wdata Bdata col_buffer_data X_zero_point_value : Z) (real_multiplier : float32)
    (Xdata Ydata group_id : Z) : Effects.M (machine mem) unit :=
  let group := ca_group (ck_conv_attrs_ k) in
  when (negb (col_buffer_data =? 0))
    (nchw_patches C group input_shape output_shape s kernel_dim Xdata col_buffer_data X_zero_point_value) ;;
  let dimI := s32 (Z.quot M group) in
  let dimJ := s32 output_image_size in
  broadcast_bias ← (if Bdata =? 0 then mret 0
    else let matrix_bias := cx_new_int c (s32 (dimI * dimJ)) in
         splat_bias dimI dimJ matrix_bias (Bdata + group_id * B_offset * sizeof_acc_t) ;; mret matrix_bias);
  SystolicMultiply (ck_accelerator_mode k) (ck_fused_relu_ k) dimI dimJ (s32 kernel_dim) (Wdata + group_id * W_offset)
    (if col_buffer_data =? 0 then Xdata else col_buffer_data) Ydata real_multiplier broadcast_bias.

(** The images and groups; the pointers to input and output advance by one group. *)
Definition nchw_images (k : conv_kernel) (c : conv_context) (N C M : Z) (input_shape output_shape : shape) (s : conv_shape)
    (output_image_size kernel_dim X_offset Y_offset W_offset B_offset Xdata Wdata Bdata Ydata col_buffer_data X_zero_point_value : Z)
    (real_multiplier : float32) : Effects.M (machine mem) unit :=
  _ ← fold_int N (fun ptrs image_id =>
    fold_int (ca_group (ck_conv_attrs_ k)) (fun '(Xdata, Ydata) group_id =>
      nchw_group k c C M input_shape output_shape s output_image_size kernel_dim W_offset B_offset Wdata Bdata col_buffer_data
        X_zero_point_value real_multiplier Xdata Ydata group_id ;;
      mret (Xdata + X_offset, Ydata + Y_offset)) ptrs) (Xdata, Ydata);
  mret tt.

Definition nchw_run (k : conv_kernel) (c : conv_context) (N C M X_zero_point_value : Z) (real_multiplier : float32)
    (input_shape : shape) (s : conv_shape) : Effects.M (machine mem) Status :=
  let group := ca_group (ck_conv_attrs_ k) in
  let Y := {| t_shape := cs_Y_dims s; t_data := cx_output c (cs_Y_dims s) |} in
  output_shape ← Slice (t_shape Y) 2 (length (t_shape Y));
  Y_size ← Size (t_shape Y);
  if Y_size =? 0 then mret StatusOK
  else
    input_image_size ← Size input_shape;
    output_image_size ← Size output_shape;
    kernel_size ← Size (cs_kernel_shape s);
    Y_batch ← arr_get (t_shape Y) 0;
    W_size ← Size (t_shape (cx_W c));
    check (negb (Y_batch =? 0) && negb (group =? 0)) Undefined ;;
    let kernel_dim := Z.quot C group * kernel_size in
    let col_buffer_size := kernel_dim * output_image_size in
    col_buffer_data ← (if negb (kernel_size =? 1) || negb (HasStridesOneAndNoPadding (ck_conv_attrs_ k))
      then enforce ((0 <=? col_buffer_size) && (col_buffer_size <? 2 ^ 64)) ;; mret (cx_alloc c col_buffer_size) else mret 0);
    nchw_images k c N C M input_shape output_shape s output_image_size kernel_dim (Z.quot C group * input_image_size)
      (Z.quot (Z.quot Y_size Y_batch) group) (Z.quot W_size group) (Z.quot M group)
      (t_data (cx_X c)) (t_data (cx_W c)) (bias_data (cx_B c)) (t_data Y) col_buffer_data X_zero_point_value real_multiplier ;;
    mret StatusOK.

Definition QLinearConv_Compute (k : conv_kernel) (c : conv_context) : M (machine mem) Status :=
  X_zero_point_value ← validate_zero_points (cx_X_zero_point c) (cx_W_zero_point c) (cx_Y_zero_point c);
  real_multiplier ← validate_scales (cx_X_scale c) (cx_W_scale c) (cx_Y_scale c);
  N ← arr_get (t_shape (cx_X c)) 0;
  C ← arr_get (t_shape (cx_X c)) 1;
  M ← arr_get (t_shape (cx_W c)) 0;
  status ← ValidateInputShape (ck_conv_attrs_ k) (t_shape (cx_X c)) (t_shape (cx_W c)) false;
  if negb (bool_decide (status = StatusOK)) then mret status
  else
    validate_bias (cx_B c) M ;;
    return_if_error id (ComputeKernelShape (ck_conv_attrs_ k) (t_shape (cx_W c))) (fun kernel_shape =>
      input_shape ← Slice (t_shape (cx_X c)) 2 (length (t_shape (cx_X c)));
      return_if_error id (infer_conv (ck_conv_attrs_ k) input_shape kernel_shape N M)
        (nchw_run k c N C M X_zero_point_value real_multiplier input_shape)).
End compute.
