(* ===== verification/ConvCallSpec.v ===== *)
(** * ConvCallSpec: validation and shape inference of a convolution

    What both quantized convolution kernels do before they compute: the checks of the
    zero points, the scales and the bias, and the inference of the output shape, on
    inputs that pass them. *)

From S2P Require Import Prelude Effects Float32 Params State Dram Fill Scaling Norm Config Move MoveSpec Compute LoopWs LoopConv Counters Dispatch Invariant Isa IsaSpec Issue LoopWsSpec MatmulCpu MatmulCpuSpec Matmul MatmulSpec Resadd ResaddSpec MatmulWsSpec ConvCpu ConvCpuSpec Conv Systolic SystolicSpec StridedSpec Tensor Buffer ConvHelper ConvHelperSpec ConvAttributes QLinearConv.

(** ** Output sizes *)

(** The single-precision quotient gives the number of windows. *)
Definition windows_exact (n stride : Z) : Prop :=
  f_to_int 64 (f32_add (f32_div (f32_of_Z n) (f32_of_Z stride)) (f32_of_Z 1)) = Some (Z.quot n stride + 1).

Definition exact_window (n stride : Z) : bool :=
  match f_to_int 64 (f32_add (f32_div (f32_of_Z n) (f32_of_Z stride)) (f32_of_Z 1)) with
  | Some v => v =? Z.quot n stride + 1
  | None => false
  end.

(** The output size in single precision is the integer one for padded
    sizes below 1024 and strides up to 4. *)
Lemma small_windows_exact n stride : 0 <= n < 1024 -> 1 <= stride <= 4 -> windows_exact n stride.
Proof.
  intros Hn Hs. pose proof (by_evaluation (fun q : Z * Z => windows_exact (fst q) (1 + snd q)) (fun q => exact_window (fst q) (1 + snd q))
    (pairs 1024 4)) as He.
  specialize (He ltac:(intros q Hq; unfold exact_window in Hq; unfold windows_exact; destruct (f_to_int _ _); [f_equal; lia|done])).
  specialize (He ltac:(by vm_compute) (n, stride - 1) ltac:(apply elem_of_pairs; simpl; lia)). cbn [fst snd] in He.
  by replace (1 + (stride - 1)) with stride in He by lia.
Qed.

(** ** Validation *)

Ltac wp_get := apply wp_bind; eapply wp_arr_get; [done|reflexivity|].
Ltac wp_pad := apply wp_bind; eapply wp_of_option; [reflexivity|].

Lemma wp_enforce {St} (b : bool) Q (s : St) : b = true -> Q tt s -> wp (enforce b) Q s.
Proof. apply wp_check. Qed.

Lemma wp_Size_pair {St} a b Q (s : St) : 0 <= a < 2 ^ 31 -> 0 <= b < 2 ^ 31 -> Q (a * b) s -> wp (Size [a; b]) Q s.
Proof.
  intros Ha Hb HQ. apply wp_Size.
  - repeat apply Forall_cons_2; try apply Forall_nil_2; lia.
  - unfold shape_size. intros [|[|[|j]]]; cbn [take foldr]; nia.
  - unfold shape_size. cbn [foldr]. by rewrite Z.mul_1_r.
Qed.

(** The size of a shape of four positive dimensions. *)
Lemma wp_Size_quad {St} a b c e Q (s : St) : 1 <= a -> 1 <= b -> 1 <= c -> 1 <= e -> a * (b * (c * e)) < 2 ^ 63 ->
  Q (a * (b * (c * e))) s -> wp (Size [a; b; c; e]) Q s.
Proof.
  intros Ha Hb Hc He Hlt HQ. pose proof (mul_pos c e Hc He) as P1. pose proof (mul_pos b (c * e) Hb P1) as P2.
  pose proof (le_mul_l a (b * (c * e)) ltac:(lia) P2). pose proof (mul_pos a b Ha Hb).
  pose proof (le_mul_l (a * b) (c * e) ltac:(lia) P1). pose proof (mul_pos (a * b) c ltac:(lia) Hc).
  pose proof (le_mul_l (a * b * c) e ltac:(lia) He). apply wp_Size.
  - repeat apply Forall_cons_2; try apply Forall_nil_2; lia.
  - unfold shape_size. intros [|[|[|[|[|j]]]]]; cbn [take foldr]; lia.
  - unfold shape_size. cbn [foldr]. by rewrite Z.mul_1_r.
Qed.

Section validation.
Context {mem : Type} `{MmuLaws mem}.
Implicit Types (d : mem) (m : machine mem).

(** A scalar parameter of the node: a readable scalar of [size] bytes. *)
Definition scalar_ok (size : Z) d (t : Tensor) : Prop := IsScalarOr1ElementVector t = true /\ mem_readable size d (t_data t).
Definition float_at d (t : Tensor) : float32 := f32_of_bits (u32 (mem_int 4 d (t_data t))).
Definition zero_point_ok d (t : Tensor) : Prop := scalar_ok 1 d t /\ mem_int 1 d (t_data t) = 0.
Definition scale_ok d (t : Tensor) : Prop := scalar_ok 4 d t /\ f32_nonzero (float_at d t) = true.

Lemma wp_scalar_int8 d t Q m : zero_point_ok d t -> dram m = d -> Q 0 m -> wp (scalar_int8 t) Q m.
Proof.
  intros [[_ Hrd] Hz] Hm HQ. unfold scalar_int8, load_elem, sizeof_elem_t. apply wp_read_from_dram; [lia|by rewrite Hm|]. by rewrite Hm, Hz.
Qed.

Lemma wp_scalar_float d t Q m : scale_ok d t -> dram m = d -> Q (float_at d t) m -> wp (scalar_float t) Q m.
Proof.
  intros [[_ Hrd] _] Hm HQ. unfold scalar_float, load_acc, sizeof_acc_t. apply wp_bind, wp_read_from_dram; [lia|by rewrite Hm|].
  apply wp_ret. by rewrite Hm.
Qed.

Lemma wp_validate_zero_points d t1 t2 t3 Q m : zero_point_ok d t1 /\ zero_point_ok d t2 /\ zero_point_ok d t3 -> dram m = d -> Q 0 m ->
  wp (validate_zero_points t1 t2 t3) Q m.
Proof.
  intros (Z1 & Z2 & Z3) Hm HQ. unfold validate_zero_points.
  apply wp_bind, wp_enforce; [apply Z1|]. apply wp_bind, wp_enforce; [apply Z2|]. apply wp_bind, wp_enforce; [apply Z3|].
  do 3 (apply wp_bind, (wp_scalar_int8 d); [done..|]). do 3 (apply wp_bind, wp_enforce; [done|]). by apply wp_ret.
Qed.

Lemma wp_validate_scales d t1 t2 t3 Q m : scale_ok d t1 /\ scale_ok d t2 /\ scale_ok d t3 -> dram m = d ->
  Q (f32_div (f32_mul (float_at d t1) (float_at d t2)) (float_at d t3)) m -> wp (validate_scales t1 t2 t3) Q m.
Proof.
  intros (Z1 & Z2 & Z3) Hm HQ. unfold validate_scales.
  apply wp_bind, wp_enforce; [apply Z1|]. apply wp_bind, wp_enforce; [apply Z2|]. apply wp_bind, wp_enforce; [apply Z3|].
  do 3 (apply wp_bind, (wp_scalar_float d); [done..|]).
  apply wp_bind, wp_enforce; [apply Z3|]. apply wp_bind, wp_enforce; [apply Z2|]. apply wp_bind, wp_enforce; [apply Z1|]. by apply wp_ret.
Qed.

Lemma wp_validate_bias B M Q m : match B with Some b => t_shape b = [M] | None => True end -> 0 <= M < 2 ^ 63 -> Q tt m ->
  wp (validate_bias B M) Q m.
Proof.
  intros HB HM HQ. unfold validate_bias. destruct B as [b|]; [|by apply wp_ret]. rewrite HB.
  apply wp_bind, wp_enforce; [done|]. apply wp_bind, wp_Size.
  - apply Forall_singleton. lia.
  - intros [|j]; unfold shape_size; simpl; [lia|]. rewrite take_nil. simpl. lia.
  - apply wp_enforce; [|done]. unfold shape_size. simpl. lia.
Qed.

(** ** Shape inference *)

(** The padding of one dimension that [auto_pad] asks for.  With [SAME_UPPER] and
    [SAME_LOWER] the output has one position per stride of the input, and an odd pad
    goes to the end or to the beginning. *)
Definition same_total (n st kn : Z) : Z := (Z.quot (n + st - 1) st - 1) * st + kn - n.
Definition auto_padded (a : AutoPadType) (n st kn dl head tail : Z) : Prop :=
  match a with
  | NOTSET => True
  | VALID => head = 0 /\ tail = 0
  | SAME_UPPER => dl = 1 /\ st <> 0 /\ head = Z.quot (same_total n st kn) 2 /\ head + tail = same_total n st kn
  | SAME_LOWER => dl = 1 /\ st <> 0 /\ head = Z.quot (same_total n st kn + 1) 2 /\ head + tail = same_total n st kn
  end.

Lemma wp_infer_dim a n st kn dl ph0 pt0 ph pt o Q m : auto_padded a n st kn dl ph pt -> (a = NOTSET -> ph0 = ph /\ pt0 = pt) ->
  windows_exact (n + ph + pt - (dl * (kn - 1) + 1)) st ->
  o = Z.quot (n + ph + pt - (dl * (kn - 1) + 1)) st + 1 -> Q (Val (ph, pt, o)) m ->
  wp (ComputePadAndOutputShape n st kn dl a ph0 pt0 false) Q m.
Proof.
  intros Ha Hn He -> HQ. unfold ComputePadAndOutputShape, return_if_error. apply wp_bind.
  assert (wp (ComputePad n st kn dl a ph0 pt0 false) (fun r m' => r = Val (ph, pt) /\ m' = m) m) as Hpad.
  { destruct a; unfold ComputePad; cbn [auto_padded] in Ha.
    - destruct (Hn eq_refl) as [-> ->]. by apply wp_ret.
    - destruct Ha as [-> ->]. by apply wp_ret.
    - destruct Ha as (-> & Hst & Hh & Ht). apply wp_bind, wp_check; [lia|]. apply wp_ret. fold (same_total n st kn). cbn. rewrite decide_False by done. split; [|done]. do 2 f_equal; lia.
    - destruct Ha as (-> & Hst & Hh & Ht). apply wp_bind, wp_check; [lia|]. apply wp_ret. fold (same_total n st kn). cbn. rewrite decide_True by done. split; [|done]. do 2 f_equal; lia. }
  eapply wp_mono; [exact Hpad|]. intros r m' [-> ->]. apply wp_bind.
  unfold ComputeOutputShape, windows. eapply wp_of_option; [exact He|]. by apply wp_ret.
Qed.

Context (attrs : ConvAttributes) (p : patch_args) (N M : Z).

Definition patch_shape : conv_shape := {|
  cs_kernel_shape := [pt_kernel_h p; pt_kernel_w p]; cs_dilations := [pt_dilation_h p; pt_dilation_w p];
  cs_strides := [pt_stride_h p; pt_stride_w p];
  cs_pads := [pt_pad_t p; pt_pad_l p; pt_pad_b p; pt_pad_r p]; cs_Y_dims := [N; M; height_col p; width_col p] |}.

(** The attributes describe the patch: the padding is the explicit one or, there
    being none, the one of [auto_pad]. *)
Record attrs_ok : Prop := {
  at_kernel : ca_kernel_shape_specified attrs = true -> ca_kernel_shape_ attrs = [pt_kernel_h p; pt_kernel_w p];
  at_auto_pad : auto_padded (ca_auto_pad attrs) (pt_height p) (pt_stride_h p) (pt_kernel_h p) (pt_dilation_h p) (pt_pad_t p) (pt_pad_b p) /\
    auto_padded (ca_auto_pad attrs) (pt_width p) (pt_stride_w p) (pt_kernel_w p) (pt_dilation_w p) (pt_pad_l p) (pt_pad_r p);
  at_strides : default_list (ca_strides attrs) 2 1 = cs_strides patch_shape;
  at_pads : default_list (ca_pads attrs) 4 0 = if decide (ca_auto_pad attrs = NOTSET) then cs_pads patch_shape else [0; 0; 0; 0];
  at_dilations : default_list (ca_dilations attrs) 2 1 = cs_dilations patch_shape;
  at_windows : windows_exact (pt_height p + pt_pad_t p + pt_pad_b p - dkernel_h p) (pt_stride_h p) /\
    windows_exact (pt_width p + pt_pad_l p + pt_pad_r p - dkernel_w p) (pt_stride_w p) }.

Lemma wp_infer_conv groups Q m : attrs_ok -> patch_ok p groups -> Q (Val patch_shape) m ->
  wp (infer_conv attrs [pt_height p; pt_width p] [pt_kernel_h p; pt_kernel_w p] N M) Q m.
Proof.
  intros Ha Hp HQ. destruct (at_windows Ha) as [W1 W2], (at_auto_pad Ha) as [A1 A2].
  destruct (height_col_pos _ _ Hp) as [Hh _], (width_col_pos _ _ Hp) as [Hw _].
  assert ((height_col p <=? 0) = false) as Eh by lia. assert ((width_col p <=? 0) = false) as Ew by lia.
  assert (exists t l b r, default_list (ca_pads attrs) 4 0 = [t; l; b; r] /\
    (ca_auto_pad attrs = NOTSET -> [t; l; b; r] = cs_pads patch_shape)) as (t & l & b & r & E & HN).
  { rewrite (at_pads Ha). case_decide; [|by exists 0, 0, 0, 0]. by exists (pt_pad_t p), (pt_pad_l p), (pt_pad_b p), (pt_pad_r p). }
  unfold infer_conv. cbn [length Nat.mul Nat.add]. rewrite (at_strides Ha), E, (at_dilations Ha).
  unfold InferOutputShape. cbn [patch_shape cs_strides cs_pads cs_dilations length Nat.ltb Nat.leb Nat.mul Nat.add seq infer_dims].
  unfold return_if_error. apply wp_bind. repeat wp_get. repeat wp_pad.
  apply wp_bind, (wp_infer_dim _ _ _ _ _ _ _ (pt_pad_t p) (pt_pad_b p) (height_col p)); [exact A1|intros [=]%HN; done|exact W1|done|]. rewrite Eh.
  repeat wp_get. repeat wp_pad.
  apply wp_bind, (wp_infer_dim _ _ _ _ _ _ _ (pt_pad_l p) (pt_pad_r p) (width_col p)); [exact A2|intros [=]%HN; done|exact W2|done|]. rewrite Ew.
  apply wp_ret, wp_ret. exact HQ.
Qed.

(** The shape of the weights gives the shape of the kernel. *)
Lemma wp_kernel_shape o i Q m : attrs_ok -> Q (Val [pt_kernel_h p; pt_kernel_w p]) m ->
  wp (ComputeKernelShape attrs [o; i; pt_kernel_h p; pt_kernel_w p]) Q m.
Proof.
  intros Ha HQ. unfold ComputeKernelShape. destruct (ca_kernel_shape_specified attrs) eqn:E.
  - rewrite (at_kernel Ha E). cbn [length Nat.add Nat.eqb negb drop]. rewrite bool_decide_true by done. by apply wp_ret.
  - apply wp_bind, wp_check; [done|]. by apply wp_ret.
Qed.

Lemma forallb_pair (f : Z -> bool) l n v : f v = true -> forallb f l = true -> forallb f (default_list l n v) = true.
Proof.
  intros Hv Hl. destruct l; [|done]. simpl. apply forallb_forall. intros x Hx%list_elem_of_In%elem_of_replicate. by destruct Hx as [-> _].
Qed.

(** Without stride, automatic padding adds nothing around a kernel of size 1. *)
Lemma auto_padded_pointwise a n dl head tail : a <> NOTSET -> auto_padded a n 1 1 dl head tail -> head = 0 /\ tail = 0.
Proof.
  assert (same_total n 1 1 = 0) as E by (unfold same_total; rewrite Z.quot_1_r; lia). destruct a; cbn [auto_padded]; rewrite ?E; [done|done|..].
  all: intros _ (_ & _ & -> & Ht); by rewrite Z.add_comm, Z.add_0_r in Ht || (cbn in Ht |- *; lia).
Qed.

(** The input is used in place only for a 1 x 1 kernel without stride or padding. *)
Lemma in_place_attrs : attrs_ok -> 1 <= pt_kernel_h p -> 1 <= pt_kernel_w p ->
  (pt_kernel_h p * pt_kernel_w p =? 1) && HasStridesOneAndNoPadding attrs = true ->
  pt_kernel_h p = 1 /\ pt_kernel_w p = 1 /\ pt_pad_t p = 0 /\ pt_pad_l p = 0 /\ pt_pad_b p = 0 /\ pt_pad_r p = 0 /\
  pt_stride_h p = 1 /\ pt_stride_w p = 1.
Proof.
  intros Ha Hkh Hkw. unfold HasStridesOneAndNoPadding. intros [Hk [Hs Hp]%andb_prop]%andb_prop.
  apply (forallb_pair _ _ 2 1) in Hs; [|done]. apply (forallb_pair _ _ 4 0) in Hp; [|done].
  rewrite (at_strides Ha) in Hs. rewrite (at_pads Ha) in Hp. cbn [patch_shape cs_strides forallb] in Hs.
  assert (pt_kernel_h p * pt_kernel_w p = 1) as E by lia. assert (pt_kernel_h p = 1 /\ pt_kernel_w p = 1) as [E1 E2] by nia.
  assert (pt_stride_h p = 1 /\ pt_stride_w p = 1) as [S1 S2] by lia. case_decide as Ea; [cbn [patch_shape cs_pads forallb] in Hp; lia|].
  destruct (at_auto_pad Ha) as [A1 A2]. rewrite E1, S1 in A1. rewrite E2, S2 in A2.
  destruct (auto_padded_pointwise _ _ _ _ _ Ea A1), (auto_padded_pointwise _ _ _ _ _ Ea A2). lia.
Qed.

Lemma patch_of_shape m : patch_of (pt_channels p) [pt_height p; pt_width p] patch_shape m = (Ok p, m).
Proof. clear. unfold patch_shape. destruct p. reflexivity. Qed.
End validation.
