(* ===== verification/QLinearConvSpec.v ===== *)
(** * QLinearConvSpec: the quantized convolution kernels convolve

    The fallback path of [QLinearConv_nhwc] (im2col and one multiplication per group)
    computes a grouped convolution of the quantized image, in CPU and in
    weight-stationary mode. *)

From S2P Require Import Prelude Effects Float32 Params State Dram Fill Scaling Norm Config Move MoveSpec Compute LoopWs LoopConv Counters Dispatch Invariant Isa IsaSpec Issue LoopWsSpec MatmulCpu MatmulCpuSpec Matmul MatmulSpec Resadd ResaddSpec MatmulWsSpec ConvCpu ConvCpuSpec Conv Systolic SystolicSpec StridedSpec Tensor Buffer ConvHelper ConvHelperSpec ConvAttributes QLinearConv.

(** ** One image: a multiplication per group *)

Section groups.
Context {mem : Type} `{MmuLaws mem} `{Rand}.
Context (k : conv_kernel) (group mg K OS P Wd Bd Yn : Z) (scale : float32).
Implicit Types (d : mem) (m : machine mem).
Notation M := (group * mg).
Notation relu := (ck_fused_relu_ k).

(** Row [q] of the patches holds the groups one after the other; column [c] of the
    weights belongs to group [c / mg]. *)
Definition group_sum d (q c : Z) : Z :=
  s32 ((if Bd =? 0 then 0 else mem_int 4 d (Bd + c * 4)) +
       Zsum (fun kk => mem_int 1 d (P + ((q * group + c / mg) * K + kk)) * mem_int 1 d (Wd + (kk * M + c))) K).
Definition group_value d (q c : Z) : option Z := scale_and_sat (group_sum d q c) (b2z relu) scale 0.
Definition group_at d (off : Z) : Z := default 0 (group_value d (off / M) (off mod M)).

(** The operands: size and address. *)
Inductive group_operand : Z -> Z -> Prop :=
  | go_patch o : 0 <= o < OS * group * K -> group_operand 1 (P + o)
  | go_weight o : 0 <= o < K * M -> group_operand 1 (Wd + o)
  | go_bias c : Bd <> 0 -> 0 <= c < M -> group_operand 4 (Bd + c * 4).

Record group_ready d : Prop := {
  gr_sizes : 1 <= group /\ 1 <= mg <= 2 ^ 30 /\ 1 <= K <= 2 ^ 30 /\ 1 <= OS <= 2 ^ 30;
  gr_ints : group * K < 2 ^ 31 /\ M < 2 ^ 31;
  gr_patches : range_ok P (OS * group * K); gr_weights : range_ok Wd (K * M);
  gr_bias : Bd = 0 \/ range_ok Bd (M * 4); gr_out : range_ok Yn (OS * M);
  gr_read size a : group_operand size a -> mem_readable size d a;
  gr_write o : 0 <= o < OS * M -> mem_writable 1 d (Yn + o);
  gr_apart : apart Yn (OS * M) P (OS * group * K) /\ apart Yn (OS * M) Wd (K * M) /\ (Bd <> 0 -> apart Yn (OS * M) Bd (M * 4));
  gr_scale : is_binary32 scale = true;
  gr_value q c : 0 <= q < OS -> 0 <= c < M -> is_Some (group_value d q c) }.

Section run.
Context (d : mem) (Hr : group_ready d).

Lemma group_operand_range size a : group_operand size a -> 1 <= size <= 4 /\ 0 < a /\ a + size <= 2 ^ 64 /\ (a + size <= Yn \/ Yn + OS * M <= a).
Proof.
  destruct Hr as [_ _ R1 R2 R3 R4 _ _ (A1 & A2 & A3) _ _]. unfold range_ok, apart in *.
  intros [o Ho|o Ho|c Hb Hc]; [lia|lia|]. specialize (A3 Hb). lia.
Qed.

(** While groups are written, the operands stay. *)
Lemma group_operand_kept size a d' : mem_differ (span (OS * M) Yn) d d' -> group_operand size a ->
  mem_readable size d' a /\ mem_int size d' a = mem_int size d a.
Proof.
  intros Hd Ha. pose proof (group_operand_range _ _ Ha) as (Hs & Ha1 & Ha2 & Ha3). split; [eapply mem_readable_differ; [done|]; by apply (gr_read d Hr)|].
  eapply mem_int_differ; [done|]. intros i Hi Hsp. destruct (gr_out d Hr). apply span_plain in Hsp; lia.
Qed.

(** The call for group [g]. *)
Section one.
Context (g : Z) (Hg : 0 <= g < group).
Notation in1 := (P + g * K).
Notation in2 := (Wd + g * mg).
Notation out := (Yn + g * mg).
Notation bias := (if Bd =? 0 then 0 else Bd + g * mg * sizeof_acc_t).

Lemma group_col j : 0 <= j < mg -> 0 <= g * mg + j < M /\ (g * mg + j) / mg = g.
Proof. intros Hj. split; [by apply radix_bound|by apply radix_div]. Qed.

Lemma group_strided_operand size a : strided_operand OS mg K in1 (group * K) in2 M bias size a -> group_operand size a.
Proof.
  pose proof (gr_bias d Hr) as Hb0. unfold range_ok in Hb0. intros [i kk Hi Hk|kk j Hk Hj|j Hb Hj].
  - replace (in1 + i * (group * K) + kk) with (P + ((i * group + g) * K + kk)) by ring. apply go_patch. by repeat apply radix_bound.
  - replace (in2 + kk * M + j) with (Wd + (kk * M + (g * mg + j))) by ring. apply go_weight. apply radix_bound; [done|]. by apply group_col.
  - destruct (Z.eqb_spec Bd 0); [done|]. replace (Bd + g * mg * sizeof_acc_t + j * 4) with (Bd + (g * mg + j) * 4) by (unfold sizeof_acc_t; ring).
    apply go_bias; [done|]. by apply group_col.
Qed.

Lemma group_strided_value d' i j : mem_differ (span (OS * M) Yn) d d' -> 0 <= i < OS -> 0 <= j < mg ->
  strided_value relu K in1 (group * K) in2 M bias scale d' i j = group_value d i (g * mg + j).
Proof.
  intros Hd Hi Hj. unfold strided_value, group_value. f_equal. unfold strided_sum, group_sum. f_equal. destruct (group_col j Hj) as [Hc Eg].
  rewrite Eg. f_equal.
  - pose proof (gr_bias d Hr) as Hb. unfold range_ok in Hb. destruct (Z.eqb_spec Bd 0) as [->|Hn]; [done|].
    assert ((Bd + g * mg * sizeof_acc_t =? 0) = false) as -> by (unfold sizeof_acc_t; nia).
    replace (Bd + g * mg * sizeof_acc_t + j * 4) with (Bd + (g * mg + j) * 4) by (unfold sizeof_acc_t; ring).
    apply group_operand_kept; [done|]. by apply go_bias.
  - apply Zsum_ext. intros kk Hk. f_equal.
    + replace (in1 + i * (group * K) + kk) with (P + ((i * group + g) * K + kk)) by ring.
      apply group_operand_kept; [done|]. apply go_patch. by repeat apply radix_bound.
    + replace (in2 + kk * M + j) with (Wd + (kk * M + (g * mg + j))) by ring.
      apply group_operand_kept; [done|]. apply go_weight. by apply radix_bound.
Qed.

Lemma group_out_elem e : e ∈ pairs OS mg -> out_elem out M e = Yn + (fst e * M + (g * mg + snd e)) /\ 0 <= fst e * M + (g * mg + snd e) < OS * M.
Proof.
  intros [He1 He2]%elem_of_pairs. split; [unfold out_elem; ring|]. apply radix_bound; [done|]. by apply group_col.
Qed.

Lemma group_strided_ready d' : mem_differ (span (OS * M) Yn) d d' ->
  strided_ready relu OS mg K in1 (group * K) in2 M out M bias mg scale d'.
Proof.
  intros Hd. destruct (gr_sizes d Hr) as (? & ? & ? & ?), (gr_ints d Hr), (gr_out d Hr). split; [lia|lia|lia|nia|..].
  - intros size a Ha%group_strided_operand. pose proof (group_operand_range _ _ Ha) as (? & ? & ? & _).
    split; [by apply group_operand_kept|lia].
  - intros e [-> Ho]%group_out_elem. split; [|lia]. eapply mem_writable_differ; [done|]. by apply (gr_write d Hr).
  - intros e size a [-> Ho]%group_out_elem Ha%group_strided_operand. pose proof (group_operand_range _ _ Ha) as (? & ? & ? & ?). lia.
  - apply Hr.
  - intros i j Hi Hj. rewrite group_strided_value by done. apply (gr_value d Hr); [done|]. by apply group_col.
Qed.
End one.

(** Every offset belongs to a group. *)
Lemma group_cover o : 1 <= group -> 1 <= mg -> 0 <= o < OS * M ->
  upto group (fun g => upto OS (fun q => upto mg (fun j o => o = q * M + (g * mg + j)))) o.
Proof.
  intros Hg Hmg Ho. assert (0 < M) by nia. pose proof (Z.mod_pos_bound o M ltac:(lia)).
  exists ((o mod M) / mg). split; [split; [apply Z.div_pos; lia|apply Z.div_lt_upper_bound; lia]|].
  exists (o / M). split; [split; [apply Z.div_pos; lia|apply Z.div_lt_upper_bound; lia]|].
  exists ((o mod M) mod mg). split; [apply Z.mod_pos_bound; lia|].
  pose proof (Z.div_mod o M ltac:(lia)). pose proof (Z.div_mod (o mod M) mg ltac:(lia)). lia.
Qed.

Definition group_inv m : Prop := ready m /\ acc_act (st (gs m)) <> SOFTMAX /\ mem_differ (span (OS * M) Yn) d (dram m).

Lemma wp_nhwc_groups Q m : get_accelerator_mode (ck_accelerator_mode k) <> T_OS -> ready m -> acc_act (st (gs m)) <> SOFTMAX ->
  dram m = d ->
  (forall m', ready m' -> acc_act (st (gs m')) <> SOFTMAX ->
     filled Yn (group_at d) (fun o => 0 <= o < OS * M) d (dram m') -> Q tt m') ->
  wp (for_int group (nhwc_group k M group OS K P Wd Bd Yn scale)) Q m.
Proof.
  intros Hmode Hrd Hact Hm HQ. destruct (gr_sizes d Hr) as (? & ? & ? & ?), (gr_ints d Hr), (gr_out d Hr).
  assert (Hbuf : buffer Yn (OS * M)) by (unfold buffer; lia).
  assert (forall g e, 0 <= g < group -> 0 <= e < mg -> 0 <= g * mg + e < M) as Hcol by (intros; by apply radix_bound).
  apply (wp_for_int_filled Yn (OS * M) (group_at d) Hbuf group_inv group _ (fun g => upto OS (fun q => upto mg (fun j o => o = q * M + (g * mg + j)))));
    [nia|intros g Hg o Ho; upto_open; subst; apply radix_bound; auto|split_and!; [done..|rewrite Hm; apply mem_differ_refl]| |].
  - intros g m1 Hg (Hrd1 & Hact1 & Hd1). unfold nhwc_group. rewrite (Z.mul_comm group mg), Z.quot_mul, (Z.mul_comm mg group) by lia.
    rewrite (wrap_s_id 32 mg), (wrap_s_id 32 K), (wrap_s_id 32 OS), (wrap_s_id 32 (group * K)), (wrap_s_id 32 M), (wrap_s_id 32 (g * K)),
      (wrap_s_id 32 (g * mg)) by (done || unfold in_s; nia).
    apply wp_strided_multiply; [done..|by apply group_strided_ready|].
    intros m2 Hrd2 Hact2 [Hd2 Hv2].
    assert (filled Yn (group_at d) (upto OS (fun q => upto mg (fun j o => o = q * M + (g * mg + j)))) (dram m1) (dram m2)) as Hf.
    { split.
      - eapply mem_differ_weaken; [done|]. intros b (e & He & (i & Hi & ->)). pose proof He as [-> _]%(group_out_elem g Hg).
        apply elem_of_pairs in He as [He1 He2]. replace i with 0 by lia. rewrite Z.add_0_r.
        exists (fst e * M + (g * mg + snd e)). split; [|done]. exists (fst e). split; [done|]. by exists (snd e).
      - intros o (q & Hq & j & Hj & ->). assert ((q, j) ∈ pairs OS mg) as He by (by apply elem_of_pairs).
        specialize (Hv2 _ He). destruct (group_out_elem g Hg _ He) as [Eo _]. rewrite Eo in Hv2. cbn [fst snd] in Hv2. rewrite Hv2.
        rewrite group_strided_value by done. unfold group_at. rewrite radix_div, radix_mod by auto. done. }
    split; [|exact Hf]. split_and!; [done..|]. eapply mem_differ_trans; [done|]. eapply filled_weaken; [|exact Hf].
    intros o Ho. upto_open. subst. apply radix_bound; auto.
  - intros m' (Hrd' & Hact' & _) Hf. apply HQ; [done..|]. rewrite Hm in Hf. eapply filled_ext; [|exact Hf]. intros o. split.
    + intros Ho. upto_open. subst. apply radix_bound; auto.
    + apply group_cover; lia.
Qed.
End run.
End groups.

(** ** The fallback of [QLinearConv_nhwc] *)

Section nhwc.
Context {mem : Type} `{MmuLaws mem} `{Rand}.
Context (k : conv_kernel) (p : patch_args) (N mg Xd Wd Bd Yd col : Z) (scale : float32).
Implicit Types (d : mem) (m : machine mem).
Notation group := (ca_group (ck_conv_attrs_ k)).
Notation cg := (group_channels p group).
Notation M := (group * mg).
Notation kh := (pt_kernel_h p).
Notation kw := (pt_kernel_w p).
Notation K := (kh * kw * cg).
Notation WC := (width_col p).
Notation OS := (height_col p * width_col p).
Notation XO := (pt_height p * pt_width p * pt_channels p).

(** Output channel [c] at [(h, w)] of image [n]: the bias and, over the kernel and the
    channels of the group of [c], the products of image and weights in HWIO order. *)
Definition qconv_sum d (n h w c : Z) : Z :=
  s32 ((if Bd =? 0 then 0 else mem_int 4 d (Bd + c * 4)) +
       Zsum (fun r => Zsum (fun s => Zsum (fun i =>
         patch_value p (Xd + n * XO) group 0 d h w (c / mg) r s i * mem_int 1 d (Wd + (((r * kw + s) * cg + i) * M + c))) cg) kw) kh).
Definition qconv_value d (n h w c : Z) : option Z := scale_and_sat (qconv_sum d n h w c) (b2z (ck_fused_relu_ k)) scale 0.

Definition y_offset (n h w c : Z) : Z := ((n * height_col p + h) * WC + w) * M + c.

(** A 1 x 1 kernel without stride or padding. *)
Definition pointwise : Prop := kh = 1 /\ kw = 1 /\ pt_pad_t p = 0 /\ pt_pad_l p = 0 /\ pt_pad_b p = 0 /\ pt_pad_r p = 0 /\
  pt_stride_h p = 1 /\ pt_stride_w p = 1.

Inductive nhwc_operand : Z -> Z -> Prop :=
  | no_image o : 0 <= o < N * XO -> nhwc_operand 1 (Xd + o)
  | no_weight o : 0 <= o < K * M -> nhwc_operand 1 (Wd + o)
  | no_bias c : Bd <> 0 -> 0 <= c < M -> nhwc_operand 4 (Bd + c * 4).

Record nhwc_ready d : Prop := {
  nh_patch : patch_ok p group;
  nh_sizes : 0 <= N < 2 ^ 31 /\ 1 <= mg <= 2 ^ 30 /\ K <= 2 ^ 30 /\ OS <= 2 ^ 30 /\ group * K < 2 ^ 31 /\ M < 2 ^ 31;
  nh_image : range_ok Xd (N * XO); nh_weights : range_ok Wd (K * M); nh_bias : Bd = 0 \/ range_ok Bd (M * 4);
  nh_out : range_ok Yd (N * (OS * M));
  nh_col : col <> 0 -> range_ok col (OS * group * K) /\ apart Yd (N * (OS * M)) col (OS * group * K);
  nh_read size a : nhwc_operand size a -> mem_readable size d a;
  nh_write o : 0 <= o < N * (OS * M) -> mem_writable 1 d (Yd + o);
  nh_col_access o : col <> 0 -> 0 <= o < OS * group * K -> mem_writable 1 d (col + o) /\ mem_readable 1 d (col + o);
  nh_apart_out : apart Yd (N * (OS * M)) Xd (N * XO) /\ apart Yd (N * (OS * M)) Wd (K * M) /\ (Bd <> 0 -> apart Yd (N * (OS * M)) Bd (M * 4));
  nh_apart_col : col <> 0 -> apart col (OS * group * K) Xd (N * XO) /\ apart col (OS * group * K) Wd (K * M) /\
    (Bd <> 0 -> apart col (OS * group * K) Bd (M * 4));
  nh_scale : is_binary32 scale = true;
  nh_value n h w c : 0 <= n < N -> 0 <= h < height_col p -> 0 <= w < WC -> 0 <= c < M -> is_Some (qconv_value d n h w c) }.

(** The bytes that the run may write. *)
Definition nhwc_scratch (b : Z) : Prop := span (N * (OS * M)) Yd b \/ col <> 0 /\ span (OS * group * K) col b.

Section run.
Context (d : mem) (Hr : nhwc_ready d) (Hpw : col = 0 -> pointwise).

Lemma nhwc_operand_range size a : nhwc_operand size a -> 1 <= size <= 4 /\ 0 < a /\ a + size <= 2 ^ 64.
Proof.
  destruct Hr as [_ _ R1 R2 R3 _ _ _ _ _ _ _ _ _]. unfold range_ok in *. intros [o Ho|o Ho|c Hb Hc]; lia.
Qed.

Lemma nhwc_operand_apart size a : nhwc_operand size a -> apart Yd (N * (OS * M)) a size /\ (col <> 0 -> apart col (OS * group * K) a size).
Proof.
  destruct (nh_apart_out d Hr) as (A1 & A2 & A3). pose proof (nh_apart_col d Hr) as Hc. unfold apart in *.
  intros [o Ho|o Ho|c Hb Hco]; (split; [try specialize (A3 Hb); lia|]); intros Hne; destruct (Hc Hne) as (B1 & B2 & B3);
    try specialize (B3 Hb); lia.
Qed.

Lemma nhwc_operand_kept size a d' : mem_differ nhwc_scratch d d' -> nhwc_operand size a ->
  mem_readable size d' a /\ mem_int size d' a = mem_int size d a.
Proof.
  intros Hd Ha. pose proof (nhwc_operand_range _ _ Ha) as (Hs & Ha1 & Ha2).
  split; [eapply mem_readable_differ; [done|]; by apply (nh_read d Hr)|].
  eapply mem_int_differ; [done|]. destruct (nhwc_operand_apart _ _ Ha) as [A1 A2], (nh_out d Hr). unfold apart in *.
  intros i Hi [Hsp|[Hne Hsp]]; [apply span_plain in Hsp; lia|]. specialize (A2 Hne). destruct (nh_col d Hr Hne) as [[? ?] _].
  apply span_plain in Hsp; lia.
Qed.

(** The sizes of the column buffer. *)
Lemma col_size_eq : col_size p group = OS * group * K.
Proof. unfold col_size. ring. Qed.

Lemma image_offset n o : 0 <= n < N -> 0 <= o < XO -> nhwc_operand 1 (Xd + n * XO + o).
Proof. intros Hn Ho. rewrite <- Z.add_assoc. apply no_image. by apply radix_bound. Qed.

Lemma patch_value_kept n h w g r s i d' : mem_differ nhwc_scratch d d' -> 0 <= n < N -> 0 <= g < group -> 0 <= i < cg ->
  patch_value p (Xd + n * XO) group 0 d' h w g r s i = patch_value p (Xd + n * XO) group 0 d h w g r s i.
Proof.
  intros Hd Hn Hg Hi. unfold patch_value, inside. destruct (_ && _) eqn:E; [|done].
  apply nhwc_operand_kept; [done|]. apply image_offset; [done|]. destruct (im_channels _ _ (nh_patch d Hr)) as (_ & _ & Ec).
  apply im_offset_bound; [lia|lia|]. rewrite Ec. by apply radix_bound.
Qed.

(** The patches of image [n] after im2col, or in place. *)
Notation Pn n := (if col =? 0 then Xd + n * XO else col).
Definition patches_hold n d' : Prop := forall h w g r s i, 0 <= h < height_col p -> 0 <= w < WC -> 0 <= g < group -> 0 <= r < kh ->
  0 <= s < kw -> 0 <= i < cg ->
  mem_int 1 d' (Pn n + (((h * WC + w) * group + g) * K + ((r * kw + s) * cg + i))) = patch_value p (Xd + n * XO) group 0 d h w g r s i.

Lemma pointwise_cols : pointwise -> height_col p = pt_height p /\ WC = pt_width p.
Proof.
  intros (E1 & E2 & E3 & E4 & E5 & E6 & E7 & E8). unfold height_col, width_col, dkernel_h, dkernel_w.
  rewrite E1, E2, E3, E4, E5, E6, E7, E8, !Z.quot_1_r. lia.
Qed.

Lemma patches_in_place n d' : col = 0 -> pointwise -> mem_differ nhwc_scratch d d' -> 0 <= n < N -> patches_hold n d'.
Proof.
  intros Hc Hp Hd Hn h w g r s i Hh Hw Hg Hrr Hs Hi. destruct (pointwise_cols Hp) as [E1 E2].
  destruct Hp as (K1 & K2 & P1 & P2 & _ & _ & S1 & S2). destruct (im_channels _ _ (nh_patch d Hr)) as (_ & _ & Ec).
  rewrite Hc. cbn [Z.eqb]. cbv iota. unfold patch_value, tap_row, tap_col, inside. rewrite P1, P2, S1, S2.
  assert (r = 0 /\ s = 0) as [-> ->] by lia.
  assert ((0 <=? h * 1 - 0 + 0 * pt_dilation_h p) && (h * 1 - 0 + 0 * pt_dilation_h p <? pt_height p) &&
    ((0 <=? w * 1 - 0 + 0 * pt_dilation_w p) && (w * 1 - 0 + 0 * pt_dilation_w p <? pt_width p)) = true) as -> by lia.
  replace (im_offset p (h * 1 - 0 + 0 * pt_dilation_h p) (w * 1 - 0 + 0 * pt_dilation_w p) (g * cg + i))
    with (((h * WC + w) * group + g) * K + ((0 * kw + 0) * cg + i)) by (unfold im_offset; rewrite K1, K2, Ec, E2; ring).
  apply nhwc_operand_kept; [done|]. apply image_offset; [done|]. rewrite K1, K2, Ec, <- E1, <- E2.
  replace (((h * WC + w) * group + g) * (1 * 1 * cg) + ((0 * 1 + 0) * cg + i)) with ((h * WC + w) * (group * cg) + (g * cg + i)) by ring.
  by repeat apply radix_bound.
Qed.

Lemma nhwc_im2col_ready n d' : col <> 0 -> mem_differ nhwc_scratch d d' -> 0 <= n < N -> im2col_ready p (Xd + n * XO) col group d'.
Proof.
  intros Hc Hd Hn. destruct (nh_col d Hr Hc) as [[Hc1 Hc2] _]. split; rewrite ?col_size_eq.
  - apply Hr.
  - unfold buffer. lia.
  - intros o Ho. eapply nhwc_operand_kept; [done|]. by apply image_offset.
  - intros o Ho. eapply mem_writable_differ; [done|]. by apply (nh_col_access d Hr).
  - intros o Ho Hs. pose proof (image_offset n o Hn Ho) as Ha. pose proof (nhwc_operand_range _ _ Ha) as (_ & ? & ?).
    destruct (nhwc_operand_apart _ _ Ha) as [_ A]. specialize (A Hc). unfold apart in A. apply span_plain in Hs; lia.
Qed.

(** The geometry that the kernel passes to im2col. *)
Context (input_shape : shape) (shp : conv_shape) (Hpt : forall m, patch_of (pt_channels p) input_shape shp m = (Ok p, m)).

(** [if (col_buffer_data != nullptr) Im2Col_NHWC(...)] *)
Notation fill_patches n := (when (negb (col =? 0))
  (q ← patch_of (pt_channels p) input_shape shp; Im2Col_NHWC q (Xd + n * XO) col group 0)).

Lemma wp_nhwc_patches n Q m : mem_differ nhwc_scratch d (dram m) -> 0 <= n < N -> ready m -> acc_act (st (gs m)) <> SOFTMAX ->
  (forall m', ready m' -> acc_act (st (gs m')) <> SOFTMAX -> mem_differ nhwc_scratch d (dram m') ->
     mem_differ (fun b => col <> 0 /\ span (OS * group * K) col b) (dram m) (dram m') -> patches_hold n (dram m') -> Q tt m') ->
  wp (fill_patches n) Q m.
Proof.
  intros Hd Hn Hrd Hact HQ. apply wp_when; intros Hc.
  - apply wp_bind. unfold wp at 1. rewrite Hpt. assert (col <> 0) as Hc' by lia. pose proof (nhwc_im2col_ready n (dram m) Hc' Hd Hn) as Hir.
    apply (wp_Im2Col_NHWC p (Xd + n * XO) col group 0 (dram m) Hir m); [split_and!; [done..|apply mem_differ_refl]|].
    intros m' (Hg & _ & Hd') [_ Hv]. rewrite col_size_eq in Hd'.
    assert (mem_differ (fun b => col <> 0 /\ span (OS * group * K) col b) (dram m) (dram m')) as Hcol
      by (eapply mem_differ_weaken; [exact Hd'|auto]).
    apply HQ; [unfold ready, mwf; by rewrite Hg|by rewrite Hg| |done|].
    + eapply mem_differ_trans; [exact Hd|]. eapply mem_differ_weaken; [exact Hcol|]. intros b Hb. by right.
    + intros h w g r s i Hh Hw Hgg Hrr Hs Hi. apply Z.eqb_neq in Hc' as ->.
      replace (((h * WC + w) * group + g) * K + ((r * kw + s) * cg + i)) with (col_offset p group h w g r s i) by (unfold col_offset; ring).
      rewrite Hv; [|exists h; split; [done|]; exists w; split; [done|]; exists r; split; [done|]; exists s; split; [done|];
        exists g; split; [done|]; by exists i].
      rewrite col_value_offset by done. rewrite patch_value_kept by done.
      unfold patch_value. destruct (_ && _); [unfold mem_int|]; by rewrite wrap_s_wrap_s.
  - apply HQ; [done|done|done|apply mem_differ_refl|].
    apply patches_in_place; [lia|apply Hpw; lia|done..].
Qed.

(** The product of a row of patches and a column of weights is the convolution. *)
Lemma nhwc_group_value n h w c d2 : mem_differ nhwc_scratch d d2 -> patches_hold n d2 -> 0 <= h < height_col p -> 0 <= w < WC -> 0 <= c < M ->
  group_value k group mg K (Pn n) Wd Bd scale d2 (h * WC + w) c = qconv_value d n h w c.
Proof.
  intros Hd Hp Hh Hw Hc. unfold group_value, qconv_value. f_equal. unfold group_sum, qconv_sum. f_equal.
  destruct (nh_sizes d Hr) as (_ & Hmg & _), (im_kernel _ _ (nh_patch d Hr)), (im_channels _ _ (nh_patch d Hr)) as (? & ? & _).
  assert (0 <= c / mg < group) as Hg by (split; [apply Z.div_pos; lia|apply Z.div_lt_upper_bound; lia]). f_equal.
  - destruct (Z.eqb_spec Bd 0); [done|]. apply nhwc_operand_kept; [done|]. by apply no_bias.
  - rewrite Zsum_blocks, Zsum_blocks by nia. apply Zsum_ext. intros r Hrr. apply Zsum_ext. intros s Hs. apply Zsum_ext. intros i Hi. f_equal.
    + by apply Hp.
    + apply nhwc_operand_kept; [done|]. apply no_weight. by repeat apply radix_bound.
Qed.

Lemma nhwc_group_operand n d2 size a : mem_differ nhwc_scratch d d2 -> 0 <= n < N ->
  group_operand group mg K OS (Pn n) Wd Bd size a -> mem_readable size d2 a.
Proof.
  intros Hd Hn [o Ho|o Ho|c Hb Hc].
  - destruct (Z.eqb_spec col 0) as [Hc|Hc].
    + apply nhwc_operand_kept; [done|]. apply image_offset; [done|]. pose proof (Hpw Hc) as Hp.
      destruct (pointwise_cols Hp) as [<- <-], Hp as (K1 & K2 & _), (im_channels _ _ (nh_patch d Hr)) as (_ & _ & Ec).
      rewrite Ec. rewrite K1, K2 in Ho. lia.
    + eapply mem_readable_differ; [done|]. by apply (nh_col_access d Hr).
  - apply nhwc_operand_kept; [done|]. by apply no_weight.
  - apply nhwc_operand_kept; [done|]. by apply no_bias.
Qed.

(** One block of [B] bytes among [N]. *)
Lemma block_in n B : 0 <= n < N -> 0 <= B -> 0 <= n * B /\ n * B + B <= N * B.
Proof. nia. Qed.

Lemma pointwise_size : pointwise -> OS * group * K = XO.
Proof.
  intros Hp. destruct (pointwise_cols Hp) as [-> ->], Hp as (-> & -> & _), (im_channels _ _ (nh_patch d Hr)) as (_ & _ & ->). ring.
Qed.

Lemma nhwc_group_ready n d2 : mem_differ nhwc_scratch d d2 -> 0 <= n < N -> patches_hold n d2 ->
  group_ready k group mg K OS (Pn n) Wd Bd (Yd + n * (OS * M)) scale d2.
Proof.
  intros Hd Hn Hp. destruct (nh_sizes d Hr) as (? & ? & ? & ? & ? & ?), (im_kernel _ _ (nh_patch d Hr)), (im_channels _ _ (nh_patch d Hr)) as (? & ? & ?).
  destruct (height_col_pos _ _ (nh_patch d Hr)) as [? _], (width_col_pos _ _ (nh_patch d Hr)) as [? _].
  assert (1 <= K /\ 1 <= OS) as [? ?] by nia. assert (0 <= OS * M) as HOM by nia. destruct (nh_out d Hr) as [HY1 HY2].
  pose proof (block_in n (OS * M) Hn HOM) as [? ?]. destruct (nh_apart_out d Hr) as (A1 & A2 & A3).
  assert (range_ok (Pn n) (OS * group * K) /\ apart (Yd + n * (OS * M)) (OS * M) (Pn n) (OS * group * K)) as [HP1 HP2].
  { unfold range_ok, apart in *. destruct (Z.eqb_spec col 0) as [Hc|Hc].
    - rewrite (pointwise_size (Hpw Hc)). destruct (nh_image d Hr).
      pose proof (block_in n XO Hn ltac:(rewrite <- (pointwise_size (Hpw Hc)); nia)) as [? ?]. lia.
    - destruct (nh_col d Hr Hc) as [[? ?] Ac]. unfold apart in Ac. lia. }
  split; [lia|lia|done|apply Hr|apply Hr| | | | | |].
  - unfold range_ok. lia.
  - intros size a Ha. by eapply nhwc_group_operand.
  - intros o Ho. rewrite <- Z.add_assoc. eapply mem_writable_differ; [done|]. apply (nh_write d Hr). lia.
  - split_and!; [done|unfold apart in *; lia|intros Hb; specialize (A3 Hb); unfold apart in *; lia].
  - apply Hr.
  - intros q c Hq Hc. assert (0 <= q / WC < height_col p) by (split; [apply Z.div_pos; lia|apply Z.div_lt_upper_bound; lia]).
    assert (0 <= q mod WC < WC) by (apply Z.mod_pos_bound; lia).
    pose proof (Z.div_mod q WC ltac:(lia)). replace q with (q / WC * WC + q mod WC) by lia.
    rewrite nhwc_group_value by done. by apply (nh_value d Hr).
Qed.

(** ** All images *)

Definition outputs_hold (n : Z) d' : Prop := forall n' h w c, 0 <= n' < n -> 0 <= h < height_col p -> 0 <= w < WC -> 0 <= c < M ->
  mem_int 1 d' (Yd + y_offset n' h w c) = s8 (default 0 (qconv_value d n' h w c)).

Lemma y_offset_image n h w c : 0 <= h < height_col p -> 0 <= w < WC -> 0 <= c < M ->
  y_offset n h w c = n * (OS * M) + ((h * WC + w) * M + c) /\ 0 <= (h * WC + w) * M + c < OS * M.
Proof. intros Hh Hw Hc. split; [unfold y_offset; ring|]. by repeat apply radix_bound. Qed.

(** The images before [n] survive what image [n] writes. *)
Lemma outputs_kept n d1 d2 : 0 <= n < N ->
  mem_differ (fun b => (col <> 0 /\ span (OS * group * K) col b) \/ span (OS * M) (Yd + n * (OS * M)) b) d1 d2 ->
  outputs_hold n d1 -> outputs_hold n d2.
Proof.
  intros Hn Hd Ho n' h w c Hn' Hh Hw Hc. rewrite <- Ho by done. destruct (y_offset_image n' h w c Hh Hw Hc) as [Ey Hy]. destruct (nh_out d Hr).
  assert (0 <= OS * M) as HOM by lia. pose proof (block_in n (OS * M) Hn HOM). pose proof (block_in n' (OS * M) ltac:(lia) HOM).
  assert (n' * (OS * M) + OS * M <= n * (OS * M)) by nia.
  eapply mem_int_differ; [exact Hd|]. intros i Hi. replace i with 0 by lia. rewrite Z.add_0_r, Ey. intros [[Hc0 Hs]|Hs].
  - destruct (nh_col d Hr Hc0) as [[? ?] A]. unfold apart in A. apply span_plain in Hs; lia.
  - apply span_plain in Hs; lia.
Qed.

Lemma wp_nhwc_image n Q m : get_accelerator_mode (ck_accelerator_mode k) <> T_OS -> 0 <= n < N -> ready m -> acc_act (st (gs m)) <> SOFTMAX ->
  mem_differ nhwc_scratch d (dram m) -> outputs_hold n (dram m) ->
  (forall m', ready m' -> acc_act (st (gs m')) <> SOFTMAX -> mem_differ nhwc_scratch d (dram m') -> outputs_hold (n + 1) (dram m') -> Q tt m') ->
  wp (fill_patches n) (fun _ => wp (for_int group (nhwc_group k M group OS K (Pn n) Wd Bd (Yd + n * (OS * M)) scale)) Q) m.
Proof.
  intros Hmode Hn Hrd Hact Hd Ho HQ. destruct (nh_sizes d Hr) as (? & ? & ? & ? & ? & ?). destruct (im_channels _ _ (nh_patch d Hr)) as (? & _ & _).
  destruct (height_col_pos _ _ (nh_patch d Hr)) as [? _], (width_col_pos _ _ (nh_patch d Hr)) as [? _].
  apply wp_nhwc_patches; [done..|]. intros m2 Hrd2 Hact2 Hd2 Hcol Hp.
  apply (wp_nhwc_groups k group mg K OS (Pn n) Wd Bd (Yd + n * (OS * M)) scale (dram m2)); [by apply nhwc_group_ready|done..|].
  intros m3 Hrd3 Hact3 Hf.
  assert (mem_differ (span (OS * M) (Yd + n * (OS * M))) (dram m2) (dram m3)) as Hd3 by (eapply filled_weaken; [|exact Hf]; by intros o).
  assert (0 <= OS * M) as HOM by nia. pose proof (block_in n (OS * M) Hn HOM).
  assert (mem_differ nhwc_scratch d (dram m3)) as Hd3'.
  { eapply mem_differ_trans; [exact Hd2|]. eapply mem_differ_weaken; [exact Hd3|]. intros b (i & Hi & ->). left.
    exists (n * (OS * M) + i). split; [lia|f_equal; lia]. }
  apply HQ; [done..|]. intros n' h w c Hn' Hh Hw Hc. destruct (decide (n' = n)) as [->|Hne].
  - destruct (y_offset_image n h w c Hh Hw Hc) as [-> Hy]. destruct Hf as [_ Hv]. rewrite Z.add_assoc, Hv by done.
    unfold group_at. rewrite radix_div, radix_mod by done. by rewrite nhwc_group_value.
  - apply (outputs_kept n (dram m) (dram m3)); [done| |done|lia|done..].
    eapply mem_differ_trans; (eapply mem_differ_weaken; [done|]); auto.
Qed.

Lemma wp_nhwc_images Q m : get_accelerator_mode (ck_accelerator_mode k) <> T_OS -> ready m -> acc_act (st (gs m)) <> SOFTMAX -> dram m = d ->
  (forall m', ready m' -> acc_act (st (gs m')) <> SOFTMAX -> mem_differ nhwc_scratch d (dram m') -> outputs_hold N (dram m') -> Q tt m') ->
  wp (nhwc_images k N (pt_channels p) M input_shape shp OS K XO (OS * M) Xd Wd Bd Yd col 0 scale) Q m.
Proof.
  intros Hmode Hrd Hact Hm HQ. unfold nhwc_images, fold_int. destruct (nh_sizes d Hr) as (? & _).
  apply wp_bind, wp_bind. apply (wp_fold_range (fun n a m' => a = (Xd + n * XO, Yd + n * (OS * M)) /\ ready m' /\
    acc_act (st (gs m')) <> SOFTMAX /\ mem_differ nhwc_scratch d (dram m') /\ outputs_hold n (dram m'))).
  - split_and!; [f_equal; ring|done|done|rewrite Hm; apply mem_differ_refl|]. intros n' h w c Hn'. lia.
  - intros n a m' Hn (-> & Hrd' & Hact' & Hd' & Ho').
    apply wp_bind. eapply wp_mono; [apply (wp_nhwc_image n (fun _ m2 => ready m2 /\ acc_act (st (gs m2)) <> SOFTMAX /\
      mem_differ nhwc_scratch d (dram m2) /\ outputs_hold (n + 1) (dram m2))); done|].
    intros [] m2 Hw. apply wp_bind. eapply wp_mono; [exact Hw|]. intros [] m3 (? & ? & ? & ?). apply wp_ret.
    split_and!; [f_equal; ring|done..].
  - intros a m' (-> & Hrd' & Hact' & Hd' & Ho'). apply wp_bind, wp_check; [lia|]. apply wp_ret, wp_ret.
    rewrite Z.max_r in Ho' by lia. by apply HQ.
Qed.
End run.
End nhwc.
