(* ===== verification/ConvPathSpec.v ===== *)
(** * ConvPathSpec: the accelerator's convolution on the arguments of a kernel

    In CPU mode, [SystolicConv] on a square image with square kernel, stride and
    padding stores the same values as the fallback path of [QLinearConv_nhwc]. *)

From S2P Require Import Prelude Effects Float32 Params State Dram Fill Scaling Norm Config Move MoveSpec Compute LoopWs LoopConv Counters Dispatch Invariant Isa IsaSpec Issue LoopWsSpec MatmulCpu MatmulCpuSpec Matmul MatmulSpec Resadd ResaddSpec MatmulWsSpec ConvCpu ConvCpuSpec Conv ConvSpec Systolic SystolicSpec StridedSpec Tensor Buffer ConvHelper ConvHelperSpec ConvAttributes QLinearConv QLinearConvSpec.

Section square.
Context {mem : Type} `{MmuLaws mem} `{Rand}.
Context (k : conv_kernel) (p : patch_args) (N mg Xd Wd Bd Yd : Z) (scale : float32).
Implicit Types (d : mem) (m : machine mem).
Notation group := (ca_group (ck_conv_attrs_ k)).
Notation C := (pt_channels p).
Notation side := (pt_height p).
Notation kd := (pt_kernel_h p).
Notation out := (height_col p).

(** The convolutions the accelerator takes. *)
Definition square_conv : Prop := group = 1 /\ pt_width p = side /\ width_col p = out /\ pt_kernel_w p = kd /\
  pt_dilation_h p = 1 /\ pt_dilation_w p = 1 /\ pt_stride_w p = pt_stride_h p /\
  pt_pad_l p = pt_pad_t p /\ pt_pad_b p = pt_pad_t p /\ pt_pad_r p = pt_pad_t p.

(** The arguments of the call, [SystolicConv] without pooling. *)
Definition square_args : conv_args := {|
  cv_batch_size := N; cv_in_dim := side; cv_in_channels := C; cv_out_channels := mg;
  cv_out_dim := out; cv_stride := pt_stride_h p; cv_input_dilation := 1; cv_kernel_dilation := 1; cv_padding := pt_pad_t p;
  cv_kernel_dim := kd; cv_wrot180 := false; cv_trans_output_1203 := false; cv_trans_input_3120 := false;
  cv_trans_weight_1203 := false; cv_trans_weight_0132 := false; cv_input := Xd; cv_weights := Wd; cv_bias := Bd;
  cv_output := Yd; cv_act := b2z (ck_fused_relu_ k); cv_scale := scale; cv_relu6_shift := 0;
  cv_pool_size := 0; cv_pool_stride := 0; cv_pool_padding := 0 |}.
Notation x := square_args.

(** The offsets of the operands are computed as [int]. *)
Definition int_offsets : Prop := N * (side * side * C) < 2 ^ 31 /\ kd * kd * C * mg < 2 ^ 31 /\ N * out * out * mg < 2 ^ 31 /\
  Yd + 2 ^ 31 <= 2 ^ 64.

Section run.
Context (col : Z) (d : mem) (Hr : nhwc_ready k p N mg Xd Wd Bd Yd col scale d) (Hsq : square_conv) (Hint : int_offsets) (HN : 1 <= N).

Lemma square_channels : group_channels p 1 = C.
Proof. unfold group_channels. apply Z.quot_1_r. Qed.

Lemma square_pos o t : 0 <= o < out -> 0 <= t < kd -> conv_pos x o t = o * pt_stride_h p - pt_pad_t p + t.
Proof.
  intros Ho Ht. unfold conv_pos. cbn [cv_stride cv_kernel_dilation cv_padding square_args].
  destruct Hsq as (_ & _ & _ & _ & Hd & _), (height_col_pos _ _ (nh_patch _ _ _ _ _ _ _ _ _ _ d Hr)) as [_ Hb].
  destruct (im_pads _ _ (nh_patch _ _ _ _ _ _ _ _ _ _ d Hr)) as (? & ? & ? & ?), (im_steps _ _ (nh_patch _ _ _ _ _ _ _ _ _ _ d Hr)) as (? & ? & ? & ?),
    (im_fits_h _ _ (nh_patch _ _ _ _ _ _ _ _ _ _ d Hr)). unfold dkernel_h in *. rewrite Hd in *.
  rewrite wrap_s_id; [lia|done|]. unfold in_s. nia.
Qed.

Lemma square_in_addr n ih iw c : 0 <= n < N -> 0 <= ih < side -> 0 <= iw < side -> 0 <= c < C ->
  conv_in_addr x n ih iw c = Xd + n * (side * side * C) + im_offset p ih iw c.
Proof.
  intros Hn Hh Hw Hc. unfold conv_in_addr, im_offset. cbn [cv_trans_input_3120 cv_input cv_in_dim cv_in_channels square_args].
  destruct Hsq as (_ & -> & _), Hint as (Hb & _). rewrite wrap_s_id; [ring|done|].
  pose proof (radix_bound _ _ _ _ (radix_bound _ _ _ _ (radix_bound _ _ _ _ Hn Hh) Hw) Hc). unfold in_s. lia.
Qed.

Lemma square_weight_addr r s i c : 0 <= r < kd -> 0 <= s < kd -> 0 <= i < C -> 0 <= c < mg ->
  weight_addr x r s i c = Wd + (((r * kd + s) * C + i) * mg + c) /\ cv_weights x + conv_hwio x r s i c = Wd + (((r * kd + s) * C + i) * mg + c).
Proof.
  intros Hrr Hs Hi Hc. assert (conv_hwio x r s i c = ((r * kd + s) * C + i) * mg + c) as E.
  { unfold conv_hwio. cbn [cv_kernel_dim cv_in_channels cv_out_channels square_args]. destruct Hint as (_ & Hb & _).
    pose proof (radix_bound _ _ _ _ (radix_bound _ _ _ _ (radix_bound _ _ _ _ Hrr Hs) Hi) Hc). rewrite wrap_s_id; [ring|done|]. unfold in_s. lia. }
  unfold weight_addr. cbn [cv_wrot180 cv_trans_weight_1203 cv_trans_weight_0132 cv_weights square_args]. by rewrite E.
Qed.

(** The tap of the reference is the patch value times the weight. *)
Lemma square_value n h w c : 0 <= n < N -> 0 <= h < out -> 0 <= w < out -> 0 <= c < mg ->
  conv_value x d n h w c = qconv_value k p mg Xd Wd Bd scale d n h w c.
Proof.
  intros Hn Hh Hw Hc. destruct Hsq as (Hg & Ew & Ewc & Ek & Edh & Edw & Es & Epl & Epb & Epr).
  unfold conv_value, qconv_value. cbn [cv_act cv_scale cv_relu6_shift square_args]. f_equal. unfold conv_sum, qconv_sum.
  rewrite Hg, Ek, square_channels, Z.mul_1_l. f_equal. f_equal.
  cbn [cv_kernel_dim cv_in_channels square_args]. apply Zsum_ext. intros r Hrr. apply Zsum_ext. intros s Hs. apply Zsum_ext. intros i Hi.
  assert (c / mg = 0) as -> by (apply Z.div_small; lia).
  unfold conv_tap, sampled. cbn [cv_input_dilation square_args]. rewrite !Z.rem_1_r, !Z.quot_1_r. cbn [Z.eqb andb].
  destruct (square_weight_addr r s i c) as [-> _]; [done..|]. rewrite Z.mul_comm. f_equal.
  unfold in_pixel, patch_value, tap_row, tap_col, inside. rewrite Edh, Edw, Es, Epl, Ew, square_channels, !Z.mul_1_r, Z.mul_0_l, Z.add_0_l.
  rewrite !square_pos by done. destruct (decide (in_image x _ _)) as [[H3 H4]|Hout]; unfold in_image in *; cbn [cv_in_dim square_args] in *.
  - assert (_ && _ = true) as -> by lia. by rewrite square_in_addr.
  - assert (_ && _ = false) as -> by lia. done.
Qed.

Lemma square_operand size a : conv_operand x size a -> nhwc_operand k p N mg Xd Wd Bd size a.
Proof.
  destruct Hsq as (Hg & Ew & Ewc & Ek & _). intros [n ih iw c Hn [Hh Hw] Hc|r s i c Hrr Hs Hi Hc|r s i c Hrr Hs Hi Hc|c Hb Hc];
    cbn [cv_batch_size cv_in_dim cv_in_channels cv_out_channels cv_kernel_dim cv_bias square_args] in *.
  - rewrite square_in_addr by done. rewrite <- Z.add_assoc. apply no_image. rewrite Ew. apply radix_bound; [done|].
    unfold im_offset. rewrite Ew. by repeat apply radix_bound.
  - destruct (square_weight_addr r s i c) as [_ E]; [done..|]. rewrite E. apply no_weight. rewrite Hg, Ek, square_channels, Z.mul_1_l.
    by repeat apply radix_bound.
  - destruct (square_weight_addr r s i c) as [E _]; [done..|]. rewrite E. apply no_weight. rewrite Hg, Ek, square_channels, Z.mul_1_l.
    by repeat apply radix_bound.
  - apply no_bias; [done|]. by rewrite Hg, Z.mul_1_l.
Qed.

Lemma square_out e : e ∈ outputs x -> out_at x e = Yd + y_offset k p mg e.1.1 e.1.2 e.2.1 e.2.2 /\
  0 <= y_offset k p mg e.1.1 e.1.2 e.2.1 e.2.2 < N * (out * width_col p * (group * mg)) /\ out_at x e < 2 ^ 64.
Proof.
  intros He. assert (out_at x e = cv_output x + out_offset x e) as ->.
  { pose proof (out_offset_bound x e He) as Hb. destruct Hint as (_ & _ & Hi & _). unfold out_at, conv_out_addr, out_offset in *.
    cbn [cv_trans_output_1203 square_args] in *. rewrite wrap_s_id; [ring|done|].
    unfold out_side in *. cbn [cv_pool_stride cv_batch_size cv_out_dim cv_out_channels square_args Z.eqb] in *. unfold in_s. lia. }
  apply elem_of_outputs in He. unfold out_offset, y_offset. destruct Hsq as (-> & _ & -> & _), Hint as (_ & _ & Hi & ?).
  unfold out_side in *. cbn [cv_pool_stride cv_trans_output_1203 cv_batch_size cv_out_dim cv_out_channels cv_output square_args Z.eqb] in *.
  rewrite !Z.mul_1_l. destruct He as ((Hn & Hh) & Hw & Hc).
  pose proof (radix_bound _ _ _ _ (radix_bound _ _ _ _ (radix_bound _ _ _ _ Hn Hh) Hw) Hc). lia.
Qed.

Lemma square_conv_ready : conv_ready x d.
Proof.
  destruct Hint as (Hi1 & Hi2 & Hi3 & Hi4). destruct (nh_out _ _ _ _ _ _ _ _ _ _ d Hr) as [HY1 HY2].
  split.
  - done.
  - done.
  - exact Hi3.
  - cbn [cv_output square_args]. lia.
  - intros size a Ha%square_operand. by apply (nh_read _ _ _ _ _ _ _ _ _ _ d Hr).
  - intros e (-> & He & _)%square_out. by apply (nh_write _ _ _ _ _ _ _ _ _ _ d Hr).
  - intros e size a b (-> & He & Hlt)%square_out Ha%square_operand Hb1 Hb2.
    destruct (nhwc_operand_apart k p N mg Xd Wd Bd Yd col scale d Hr _ _ Ha) as [A _].
    pose proof (nhwc_operand_range k p N mg Xd Wd Bd Yd col scale d Hr _ _ Ha) as (? & ? & ?). unfold apart in A.
    destruct Hb1 as (i & Hi & ->). replace i with 0 in Hb2 by lia. rewrite Z.add_0_r in Hb2. apply span_plain in Hb2; lia.
  - intros n h w c Hn [Hh Hw] Hc. cbn [cv_batch_size cv_out_dim cv_out_channels square_args] in *. rewrite square_value by done.
    destruct Hsq as (Hg & _ & Ewc & _). apply (nh_value _ _ _ _ _ _ _ _ _ _ d Hr); [done|done|by rewrite Ewc|by rewrite Hg, Z.mul_1_l].
Qed.

Lemma square_positive : positive (max_tile x).
Proof.
  destruct (nh_sizes _ _ _ _ _ _ _ _ _ _ d Hr) as (? & ? & _), (im_kernel _ _ (nh_patch _ _ _ _ _ _ _ _ _ _ d Hr)),
    (im_channels _ _ (nh_patch _ _ _ _ _ _ _ _ _ _ d Hr)) as (? & ? & Ec), (height_col_pos _ _ (nh_patch _ _ _ _ _ _ _ _ _ _ d Hr)) as [Ho _].
  assert (out < 2 ^ 31) as Ho'.
  { destruct (nh_sizes _ _ _ _ _ _ _ _ _ _ d Hr) as (_ & _ & _ & ? & _), (width_col_pos _ _ (nh_patch _ _ _ _ _ _ _ _ _ _ d Hr)) as [? _]. nia. }
  assert (1 <= C) by nia.
  assert (pool_out_dim_of x 1 1 0 = out) as E.
  { unfold pool_out_dim_of. cbn [cv_out_dim square_args]. rewrite Z.quot_1_r, (wrap_s_id 32 (out + _ - _)) by (unfold in_s; lia).
    rewrite wrap_s_id; unfold in_s; lia. }
  intros i Hi. unfold max_tile, pool_window. cbn [cv_pool_stride square_args Z.eqb]. cbv iota. rewrite E.
  dim_cases i; cbn; lia.
Qed.

(** The call stores the convolution. *)
Lemma wp_square_conv mode Q m : get_accelerator_mode mode = T_CPU -> dram m = d ->
  (forall m', gs m' = gs m -> mem_differ (span (N * (out * width_col p * (group * mg))) Yd) d (dram m') ->
     outputs_hold k p mg Xd Wd Bd Yd scale d N (dram m') -> Q tt m') ->
  wp (SystolicConv mode N side C mg out (pt_stride_h p) (pt_pad_t p) kd Xd Wd Bd Yd (ck_fused_relu_ k) scale 0 0 0) Q m.
Proof.
  intros Hmode Hm HQ. unfold SystolicConv. rewrite Hmode. fold x. unfold tiled_conv_auto. apply wp_bind, wp_check; [done|].
  destruct (conv_search_spec (rows_args x (auto_downsample x)) (max_tile x) square_positive) as (t & Et & _).
  apply wp_bind. eapply wp_of_option; [exact Et|]. unfold tiled_conv. apply wp_bind, wp_check; [done|]. change (cpu_pooling x) with x.
  eapply wp_mono; [by apply (wp_conv_cpu x d square_conv_ready)|]. intros [] m' [Hg [Hd Hv]]. apply HQ; [done| |].
  - eapply mem_differ_weaken; [exact Hd|]. intros b (e & (-> & He & _)%square_out & (i & Hi & ->)).
    exists (y_offset k p mg e.1.1 e.1.2 e.2.1 e.2.2). split; [done|]. f_equal. lia.
  - intros n h w c Hn Hh Hw Hc. destruct Hsq as (Hg1 & _ & Ewc & _). rewrite Ewc in Hw. rewrite Hg1, Z.mul_1_l in Hc.
    assert (((n, h), (w, c)) ∈ outputs x) as He by (apply elem_of_outputs; done).
    specialize (Hv _ He). destruct (square_out _ He) as (Eo & _). rewrite Eo in Hv. cbn [fst snd] in Hv. rewrite Hv.
    unfold out_pixel. cbn [cv_pool_stride square_args Z.eqb fst snd]. by rewrite square_value.
Qed.
End run.
End square.
