(* ===== verification/NhwcSpec.v ===== *)
(** * NhwcSpec: [QLinearConv_nhwc::Compute] is a grouped convolution

    The whole kernel: validation of the zero points, scales, bias and shapes, shape
    inference, the attempt on the accelerator and the fallback.  Both paths store the
    same values. *)

From S2P Require Import Prelude Effects Float32 Params State Dram Fill Scaling Norm Config Move MoveSpec Compute LoopWs LoopConv Counters Dispatch Invariant Isa IsaSpec Issue LoopWsSpec MatmulCpu MatmulCpuSpec Matmul MatmulSpec Resadd ResaddSpec MatmulWsSpec ConvCpu ConvCpuSpec Conv Systolic SystolicSpec StridedSpec Tensor Buffer ConvHelper ConvHelperSpec ConvAttributes QLinearConv ConvCallSpec QLinearConvSpec ConvPathSpec.

(** ** A call *)

Section call.
Context {mem : Type} `{MmuLaws mem} `{Rand} `{!EigenCols mem}.
Context (k : conv_kernel) (c : conv_context) (p : patch_args) (N mg : Z) (scale : float32).
Implicit Types (d : mem) (m : machine mem).
Notation attrs := (ck_conv_attrs_ k).
Notation group := (ca_group (ck_conv_attrs_ k)).
Notation C := (pt_channels p).
Notation M := (group * mg).
Notation kh := (pt_kernel_h p).
Notation kw := (pt_kernel_w p).
Notation cg := (group_channels p group).
Notation OS := (height_col p * width_col p).

Notation nhwc_shape := (patch_shape p N M).

Definition nhwc_dims : shape := [N; height_col p; width_col p; M].
Definition nhwc_in_place : bool := (kh * kw =? 1) && HasStridesOneAndNoPadding attrs.
Definition nhwc_col : Z := if nhwc_in_place then 0 else cx_alloc c (C * OS * (kh * kw)).
Notation Yd := (cx_output c nhwc_dims).

Record nhwc_call d : Prop := {
  cl_X : t_shape (cx_X c) = [N; pt_height p; pt_width p; C];
  cl_W : t_shape (cx_W c) = [kh; kw; cg; M];
  cl_B : match cx_B c with Some b => t_shape b = [M] | None => True end;
  cl_attrs : attrs_ok attrs p N M;
  cl_zero_points : zero_point_ok d (cx_X_zero_point c) /\ zero_point_ok d (cx_W_zero_point c) /\ zero_point_ok d (cx_Y_zero_point c);
  cl_scales : scale_ok d (cx_X_scale c) /\ scale_ok d (cx_W_scale c) /\ scale_ok d (cx_Y_scale c);
  cl_scale : scale = f32_div (f32_mul (float_at d (cx_X_scale c)) (float_at d (cx_W_scale c))) (float_at d (cx_Y_scale c));
  cl_sizes : 1 <= N /\ 1 <= pt_height p /\ 1 <= pt_width p /\ pt_stride_h p < 2 ^ 31 /\ pt_stride_w p < 2 ^ 31 /\
    N * (OS * M) < 2 ^ 63;
  cl_no_pool : pa_fused_pool (ck_pool_attrs_ k) = false;
  cl_ready : nhwc_ready k p N mg (t_data (cx_X c)) (t_data (cx_W c)) (bias_data (cx_B c)) Yd nhwc_col scale d }.

Section run.
Context (d : mem) (Hc : nhwc_call d).

(** *** The attempt on the accelerator *)

Definition systolic_able : bool := (group =? 1) && (pt_height p =? pt_width p) && (height_col p =? width_col p) && (kh =? kw) &&
  (pt_dilation_h p =? 1) && (pt_dilation_w p =? 1) && (pt_pad_l p =? pt_pad_t p) && (pt_pad_b p =? pt_pad_t p) &&
  (pt_pad_r p =? pt_pad_t p) && (pt_stride_w p =? pt_stride_h p).

Lemma systolic_able_square : systolic_able = true -> square_conv k p.
Proof. unfold systolic_able, square_conv. lia. Qed.

(** The sizes of a call. *)
Lemma nhwc_bounds : 1 <= N < 2 ^ 31 /\ 1 <= M < 2 ^ 31 /\ 1 <= C < 2 ^ 31 /\ 1 <= kh < 2 ^ 31 /\ 1 <= kw < 2 ^ 31 /\
  1 <= height_col p < 2 ^ 31 /\ 1 <= width_col p < 2 ^ 31 /\ 1 <= OS * M /\ 1 <= OS /\ 1 <= group /\ 1 <= cg /\ C = group * cg.
Proof.
  pose proof (cl_ready d Hc) as Hr. pose proof (nh_patch _ _ _ _ _ _ _ _ _ _ d Hr) as Hp. destruct (cl_sizes d Hc) as (? & _).
  destruct (nh_sizes _ _ _ _ _ _ _ _ _ _ d Hr) as (? & ? & HK & HO & HgK & ?), (im_channels _ _ Hp) as (? & ? & Ec), (im_kernel _ _ Hp) as [? ?].
  destruct (height_col_pos _ _ Hp) as [? _], (width_col_pos _ _ Hp) as [? _].
  pose proof (mul_pos kh kw ltac:(lia) ltac:(lia)). pose proof (mul_pos (height_col p) (width_col p) ltac:(lia) ltac:(lia)).
  pose proof (mul_pos group mg ltac:(lia) ltac:(lia)). pose proof (mul_pos OS M ltac:(lia) ltac:(lia)).
  pose proof (le_mul_l (kh * kw) cg ltac:(lia) ltac:(lia)). pose proof (le_mul_l kh kw ltac:(lia) ltac:(lia)).
  pose proof (le_mul_r kw kh ltac:(lia) ltac:(lia)). pose proof (le_mul_l (height_col p) (width_col p) ltac:(lia) ltac:(lia)).
  pose proof (le_mul_r (width_col p) (height_col p) ltac:(lia) ltac:(lia)). pose proof (mul_pos group cg ltac:(lia) ltac:(lia)).
  pose proof (le_mul_r (group * cg) (kh * kw) ltac:(lia) ltac:(lia)). rewrite Ec. lia.
Qed.

(** Everything that is narrowed to [int] fits. *)
Lemma nhwc_ints : Forall (in_s 32) [N; pt_height p; pt_width p; height_col p; width_col p; kh; kw; C; M; pt_dilation_h p; pt_dilation_w p;
  pt_pad_t p; pt_pad_l p; pt_pad_b p; pt_pad_r p; pt_stride_h p; pt_stride_w p].
Proof.
  destruct nhwc_bounds as (? & ? & ? & ? & ? & ? & ? & _), (cl_sizes d Hc) as (_ & ? & ? & ? & ? & _).
  pose proof (nh_patch _ _ _ _ _ _ _ _ _ _ d (cl_ready d Hc)) as Hp.
  destruct (im_steps _ _ Hp) as (? & ? & ? & ?), (im_pads _ _ Hp) as (? & ? & ? & ?), (im_fits_h _ _ Hp), (im_fits_w _ _ Hp).
  repeat apply Forall_cons_2; try apply Forall_nil_2; unfold in_s; lia.
Qed.

Lemma s32_id v : in_s 32 v -> s32 v = v.
Proof. by apply wrap_s_id. Qed.

Lemma wp_square (l : list Z) i j a b Q m : 0 <= i -> 0 <= j -> l !! Z.to_nat i = Some a -> l !! Z.to_nat j = Some b -> in_s 32 a ->
  Q (if a =? b then Some a else None) m -> wp (square l i j) Q m.
Proof.
  intros Hi Hj Ha Hb Hs HQ. unfold square. apply wp_bind. eapply wp_arr_get; [done..|]. apply wp_bind. eapply wp_arr_get; [done..|].
  apply wp_ret. by rewrite s32_id.
Qed.

Lemma wp_nhwc_size Q m : Q (N * (OS * M)) m -> wp (Size nhwc_dims) Q m.
Proof.
  intros HQ. destruct (cl_sizes d Hc) as (_ & _ & _ & _ & _ & Hsz), nhwc_bounds as (? & ? & _ & _ & _ & ? & ? & ? & ? & _).
  assert (N * (height_col p * (width_col p * M)) = N * (OS * M)) as E by ring. apply wp_Size_quad; rewrite ?E; done || lia.
Qed.

Lemma wp_nhwc_try Q m :
  (systolic_able = false -> Q false m) ->
  (systolic_able = true -> wp (SystolicConv (ck_accelerator_mode k) N (pt_height p) C M (height_col p) (pt_stride_h p) (pt_pad_t p) kh
     (t_data (cx_X c)) (t_data (cx_W c)) (bias_data (cx_B c)) Yd (ck_fused_relu_ k) scale 0 0 0) (fun _ => Q true) m) ->
  wp (TryConvOnSystolic (ck_accelerator_mode k) (cs_dilations nhwc_shape) (cs_pads nhwc_shape) (cs_strides nhwc_shape) group
    (cx_X c) (cx_W c) (cx_B c) {| t_shape := nhwc_dims; t_data := Yd |} nhwc_dims (ck_fused_relu_ k) (Some (ck_pool_attrs_ k)) scale) Q m.
Proof.
  intros Hno Hyes. pose proof nhwc_ints as Hi. rewrite !Forall_cons in Hi.
  destruct Hi as (I1 & I2 & I3 & I4 & I5 & I6 & I7 & I8 & I9 & I10 & I11 & I12 & I13 & I14 & I15 & I16 & I17 & _).
  unfold TryConvOnSystolic, systolic_able in *. rewrite (cl_X d Hc), (cl_W d Hc).
  destruct (group =? 1); cbn [negb andb] in *; [|by apply wp_ret, Hno].
  apply wp_bind. eapply wp_square; [done..|]. destruct (pt_height p =? pt_width p); cbn [andb] in *; [|by apply wp_ret, Hno].
  apply wp_bind. eapply wp_square; [done..|]. destruct (height_col p =? width_col p); cbn [andb] in *; [|by apply wp_ret, Hno].
  apply wp_bind. eapply wp_square; [done..|]. destruct (kh =? kw); cbn [andb] in *; [|by apply wp_ret, Hno].
  unfold any_differ_first, any_differ. cbn [patch_shape cs_dilations cs_pads cs_strides existsb].
  rewrite !s32_id, !Z.eqb_refl by done. destruct (_ || _ || _) eqn:E; [apply wp_ret, Hno; lia|].
  unfold pool_square. rewrite (cl_no_pool d Hc). apply wp_bind, wp_ret. cbn [t_shape]. apply wp_bind, wp_nhwc_size.
  assert ((N * (OS * M) =? 0) = false) as ->.
  { destruct nhwc_bounds as (? & _ & _ & _ & _ & _ & _ & ? & _). pose proof (mul_pos N (OS * M) ltac:(lia) ltac:(lia)). lia. }
  repeat wp_get. rewrite !s32_id by done. cbn [t_data]. apply wp_bind. eapply wp_mono; [apply Hyes; lia|]. intros [] m' HQ. by apply wp_ret.
Qed.

(** *** The fallback *)

Lemma in_place_pointwise : nhwc_in_place = true -> pointwise p.
Proof. destruct nhwc_bounds as (_ & _ & _ & ? & ? & _). apply (in_place_attrs attrs p N M); [apply Hc|lia|lia]. Qed.

Lemma wp_nhwc_fallback Q m : get_accelerator_mode (ck_accelerator_mode k) <> T_OS -> ready m -> acc_act (st (gs m)) <> SOFTMAX -> dram m = d ->
  (nhwc_in_place = false -> nhwc_col <> 0) ->
  (forall m', mem_differ (nhwc_scratch k p N mg Yd nhwc_col) d (dram m') ->
     outputs_hold k p mg (t_data (cx_X c)) (t_data (cx_W c)) (bias_data (cx_B c)) Yd scale d N (dram m') -> Q tt m') ->
  wp (nhwc_fallback k c N C M [pt_height p; pt_width p] nhwc_shape {| t_shape := nhwc_dims; t_data := Yd |} 0 scale) Q m.
Proof.
  intros Hmode Hrd Hact Hm Hcol HQ. pose proof (cl_ready d Hc) as Hr. pose proof nhwc_ints as Hi. rewrite !Forall_cons in Hi. unfold in_s in Hi.
  destruct nhwc_bounds as (? & ? & ? & ? & ? & ? & ? & ? & ? & ? & ? & Ec), (cl_sizes d Hc) as (_ & ? & ? & _).
  unfold nhwc_fallback. cbn [t_shape t_data]. unfold Slice. apply wp_bind, wp_bind, wp_enforce; [done|]. apply wp_ret.
  cbn [nhwc_dims take drop Nat.sub]. apply wp_bind, wp_Size_pair; [lia..|]. apply wp_bind, wp_Size_pair; [lia..|].
  cbn [patch_shape cs_kernel_shape]. apply wp_bind, wp_Size_pair; [lia..|]. apply wp_bind, wp_nhwc_size. wp_get.
  apply wp_bind, wp_check; [lia|].
  assert (wp (if negb (kh * kw =? 1) || negb (HasStridesOneAndNoPadding attrs)
    then enforce ((0 <=? C * OS * (kh * kw)) && (C * OS * (kh * kw) <? 2 ^ 64)) ;; mret (cx_alloc c (C * OS * (kh * kw)))
    else mret 0) (fun v m' => v = nhwc_col /\ m' = m) m) as Hbuf.
  { rewrite <- negb_andb. fold nhwc_in_place. unfold nhwc_col. destruct nhwc_in_place; cbn [negb]; [by apply wp_ret|].
    apply wp_bind, wp_enforce; [|by apply wp_ret]. destruct (nh_sizes _ _ _ _ _ _ _ _ _ _ d Hr) as (_ & _ & _ & HO & HgK & _).
    rewrite Ec. replace (group * cg * OS * (kh * kw)) with (OS * (group * (kh * kw * cg))) by ring. assert (0 <= group * (kh * kw * cg)) by nia.
    assert (OS * (group * (kh * kw * cg)) <= 2 ^ 30 * 2 ^ 31) by (apply Z.mul_le_mono_nonneg; lia). lia. }
  apply wp_bind. eapply wp_mono; [exact Hbuf|]. intros v m' [-> ->].
  replace (Z.quot (N * (OS * M)) N) with (OS * M) by (rewrite (Z.mul_comm N), Z.quot_mul; lia).
  replace (Z.quot C group * (kh * kw)) with (kh * kw * cg) by (unfold group_channels; ring).
  replace (C * (pt_height p * pt_width p)) with (pt_height p * pt_width p * C) by ring.
  apply (wp_nhwc_images k p N mg _ _ _ Yd nhwc_col scale d Hr); [|apply patch_of_shape|done..|].
  - intros Hz. apply in_place_pointwise. destruct nhwc_in_place; [done|]. by destruct (Hcol eq_refl).
  - intros m' _ _ Hd Ho. by apply HQ.
Qed.

(** *** The kernel *)

Lemma wp_QLinearConv_nhwc Q m : get_accelerator_mode (ck_accelerator_mode k) <> T_OS -> ready m -> acc_act (st (gs m)) <> SOFTMAX -> dram m = d ->
  (nhwc_in_place = false -> nhwc_col <> 0) ->
  (systolic_able = true -> get_accelerator_mode (ck_accelerator_mode k) = T_CPU /\ int_offsets p N mg Yd) ->
  (forall m', mem_differ (nhwc_scratch k p N mg Yd nhwc_col) d (dram m') ->
     outputs_hold k p mg (t_data (cx_X c)) (t_data (cx_W c)) (bias_data (cx_B c)) Yd scale d N (dram m') -> Q StatusOK m') ->
  wp (QLinearConv_nhwc_Compute k c) Q m.
Proof.
  intros Hmode Hrd Hact Hm Hcol Hable HQ. destruct nhwc_bounds as (? & ? & ? & ? & ? & ? & ? & ? & ? & ? & ? & Ec).
  unfold QLinearConv_nhwc_Compute. apply wp_bind, (wp_validate_zero_points d); [apply Hc|done|].
  apply wp_bind, (wp_validate_scales d); [apply Hc|done|]. rewrite <- (cl_scale d Hc).
  unfold ValidateConvInputShapeNHWC. rewrite (cl_X d Hc), (cl_W d Hc). do 3 wp_get. apply wp_bind. do 3 wp_get.
  cbn [length Nat.eqb negb]. assert ((C =? cg * group) = true) as -> by lia. cbn [negb]. apply wp_bind, wp_check; [lia|].
  rewrite (Z.mul_comm group mg), Z.rem_mul, (Z.mul_comm mg group) by lia. cbn [Z.eqb negb]. apply wp_ret.
  rewrite bool_decide_true by done. cbn [negb]. apply wp_bind, wp_validate_bias; [apply Hc|lia|]. do 4 wp_get.
  unfold return_if_error. apply wp_bind, (wp_kernel_shape attrs p N M); [apply Hc|]. apply wp_bind, wp_enforce; [done|].
  unfold Slice. apply wp_bind, wp_bind, wp_enforce; [done|]. apply wp_ret. cbn [take drop Nat.sub].
  apply wp_bind, (wp_infer_conv attrs p N M group); [apply Hc|apply (cl_ready d Hc)|]. unfold nhwc_run. cbn [patch_shape cs_Y_dims]. do 4 wp_get.
  rewrite (cl_no_pool d Hc). apply wp_bind, wp_ret. fold nhwc_shape nhwc_dims. apply wp_bind, wp_nhwc_try.
  - intros _. cbn [t_data]. apply wp_bind, wp_nhwc_fallback; [done..|]. intros m' Hd Ho. apply wp_bind, wp_ret, wp_ret. by apply HQ.
  - intros Ha. destruct (Hable Ha) as [Hcpu Hint]. pose proof (systolic_able_square Ha) as Hsq. pose proof Hsq as (Hg1 & _).
    pose proof (wp_square_conv k p N mg (t_data (cx_X c)) (t_data (cx_W c)) (bias_data (cx_B c)) Yd scale nhwc_col d (cl_ready d Hc) Hsq Hint
      ltac:(lia) (ck_accelerator_mode k)) as Hsc. rewrite Hg1, Z.mul_1_l in Hsc |- *.
    apply Hsc; [done|done|]. intros m' _ Hd Ho. apply wp_ret. apply HQ; [|done]. eapply mem_differ_weaken; [exact Hd|]. intros b Hb. left.
    by rewrite Hg1, Z.mul_1_l.
Qed.
End run.

(** C4: the quantized convolution kernel, without fused pooling and with explicit or
    automatic padding.  In CPU mode, and in weight-stationary mode for the convolutions
    that [TryConvOnSystolic] refuses (several groups, a dilation, or an image, kernel,
    stride or padding that is not square), the kernel validates its inputs, infers the
    shapes and returns [OK]; every output element then holds the scaled, saturated and
    (if fused) rectified 32-bit sum of the bias and, over the kernel and the channels of
    its group, of the products of input and weights, with zero outside of the image.
    The result is the same whether the driver's convolution routine (in CPU mode),
    im2col with one multiplication per group, or for a 1 x 1 kernel the multiplication
    of the input in place computed it; only the output and the column buffer change. *)
Theorem qlinearconv_nhwc_correct m : nhwc_call (dram m) -> get_accelerator_mode (ck_accelerator_mode k) <> T_OS -> ready m ->
  acc_act (st (gs m)) <> SOFTMAX -> (nhwc_in_place = false -> nhwc_col <> 0) ->
  (systolic_able = true -> get_accelerator_mode (ck_accelerator_mode k) = T_CPU /\ int_offsets p N mg Yd) ->
  wp (QLinearConv_nhwc_Compute k c) (fun status m' => status = StatusOK /\
    (forall n h w ch, 0 <= n < N -> 0 <= h < height_col p -> 0 <= w < width_col p -> 0 <= ch < M ->
       mem_int 1 (dram m') (Yd + y_offset k p mg n h w ch) =
       s8 (default 0 (qconv_value k p mg (t_data (cx_X c)) (t_data (cx_W c)) (bias_data (cx_B c)) scale (dram m) n h w ch))) /\
    mem_differ (nhwc_scratch k p N mg Yd nhwc_col) (dram m) (dram m')) m.
Proof. intros Hc Hmode Hrd Hact Hcol Hable. apply (wp_QLinearConv_nhwc (dram m) Hc); [done..|]. intros m' Hd Ho. by split_and!. Qed.
End call.

(** ** Witness: two groups on the accelerator *)

Definition plain_attrs (group : Z) (strides pads : list Z) : ConvAttributes := {|
  ca_auto_pad := NOTSET; ca_group := group; ca_kernel_shape_specified := false; ca_strides := strides; ca_pads := pads;
  ca_dilations := []; ca_kernel_shape_ := [] |}.

Definition small_kernel : conv_kernel := {|
  ck_conv_attrs_ := plain_attrs 2 [1; 1] [1; 1; 1; 1]; ck_pool_attrs_ := no_pool; ck_fused_relu_ := true; ck_accelerator_mode := 2 |}.

(** Scales of about 0.743, the bytes 3c to 3f. *)
Definition small_context : conv_context :=
  let at_ s a := {| t_shape := s; t_data := a |} in
  {| cx_X := at_ [1; 2; 2; 2] 0x1001; cx_X_scale := at_ [] 0x103c; cx_X_zero_point := at_ [] 0x1000;
     cx_W := at_ [2; 2; 1; 2] 0x1010; cx_W_scale := at_ [] 0x103c; cx_W_zero_point := at_ [1] 0x1000;
     cx_Y_scale := at_ [] 0x103c; cx_Y_zero_point := at_ [] 0x1000; cx_B := None;
     cx_output := fun _ => 0x1080; cx_pre_pool := fun _ => 0; cx_alloc := fun _ => 0x10a0; cx_new_int := fun _ => 0 |}.

Definition small_scale : float32 :=
  Eval vm_compute in f32_div (f32_mul (float_at (dram demo) (cx_X_scale small_context)) (float_at (dram demo) (cx_W_scale small_context)))
    (float_at (dram demo) (cx_Y_scale small_context)).

Lemma small_nhwc_ready : nhwc_ready small_kernel small_patch 1 1 0x1001 0x1010 0 0x1080 0x10a0 small_scale (dram demo).
Proof.
  split; try done.
  - by left.
  - intros _. vm_compute. intuition discriminate.
  - intros size a [o Ho|o Ho|]; [..|done]; pose proof (Z.lt_le_trans o _ 8 (proj2 Ho) ltac:(by vm_compute)); apply flat_mem_readable; simpl; lia.
  - intros o Ho. pose proof (Z.lt_le_trans o _ 18 (proj2 Ho) ltac:(by vm_compute)). apply flat_mem_writable; simpl; lia.
  - intros o _ Ho. pose proof (Z.lt_le_trans o _ 72 (proj2 Ho) ltac:(by vm_compute)). split; [apply flat_mem_writable|apply flat_mem_readable]; simpl; lia.
  - vm_compute. intuition discriminate.
  - intros _. vm_compute. intuition discriminate.
  - intros n h w ch Hn Hh Hw Hch.
    apply (by_evaluation (fun e : pos4 => is_Some (qconv_value small_kernel small_patch 1 0x1001 0x1010 0 small_scale (dram demo) e.1.1 e.1.2 e.2.1 e.2.2))
      (fun e : pos4 => defined (qconv_value small_kernel small_patch 1 0x1001 0x1010 0 small_scale (dram demo) e.1.1 e.1.2 e.2.1 e.2.2)) (quads 1 3 3 2)
      ltac:(intros e; apply defined_is_Some) ltac:(by vm_compute) ((n, h), (w, ch))).
    rewrite elem_of_quads, !elem_of_pairs. done.
Qed.

Lemma small_nhwc_call : nhwc_call small_kernel small_context small_patch 1 1 small_scale (dram demo).
Proof.
  assert (forall a size, 0x1000 <= a -> a + size <= 0x1100 -> mem_readable size (dram demo) a) as Hrd
    by (intros a size Ha Hs; apply flat_mem_readable; simpl; lia).
  split; try done.
  - unfold zero_point_ok, scalar_ok. split_and!; first [apply Hrd; simpl; lia | by vm_compute].
  - unfold scale_ok, scalar_ok. split_and!; first [apply Hrd; simpl; lia | by vm_compute].
  - apply small_nhwc_ready.
Qed.

Lemma qlinearconv_nhwc_correct_witness :
  wp (QLinearConv_nhwc_Compute (H0 := zero_rand) small_kernel small_context) (fun status m' => status = StatusOK /\
    mem_int 1 (dram m') (0x1080 + 1) = 34) demo.
Proof.
  eapply wp_mono; [apply (qlinearconv_nhwc_correct (H1 := zero_rand) small_kernel small_context small_patch 1 1 small_scale demo
    small_nhwc_call ltac:(done) demo_ready ltac:(done) ltac:(done) ltac:(done))|].
  intros status m' (-> & Hv & _). split; [done|].
  etransitivity; [exact (Hv 0 0 0 1 ltac:(done) ltac:(done) ltac:(done) ltac:(done))|]. by vm_compute.
Defined.
