(* ===== verification/NchwImageSpec.v ===== *)
(** * NchwImageSpec: the images and groups of [QLinearConv]

    For every group of every image the NCHW kernel fills the column buffer with the
    patches of the group's channels, repeats the bias of each output channel over a
    matrix and multiplies the weights by the patches: the result is a grouped
    convolution, stored one group after the other. *)

From S2P Require Import Prelude Effects Float32 Params State Dram Fill Scaling Norm Config Move MoveSpec Compute LoopWs LoopConv Counters Dispatch Invariant Isa IsaSpec Issue LoopWsSpec MatmulCpu MatmulCpuSpec Matmul MatmulSpec Resadd ResaddSpec MatmulWsSpec ConvCpu ConvCpuSpec Conv Systolic SystolicSpec StridedSpec Tensor Buffer ConvHelper ConvHelperSpec Regions ConvAttributes Im2col Im2colSpec QLinearConv.

(** ** The matrix of biases *)

Section splat.
Context {mem : Type} `{MmuLaws mem}.
Context (dimI dimJ matrix_bias bias_data : Z).
Implicit Types (d : mem) (m : machine mem).

Record splat_ready d : Prop := {
  sp_dims : 0 <= dimI /\ 0 <= dimJ /\ dimI * dimJ < 2 ^ 31;
  sp_matrix : range_ok matrix_bias (dimI * dimJ * 4);
  sp_data : range_ok bias_data (dimI * 4);
  sp_apart : apart matrix_bias (dimI * dimJ * 4) bias_data (dimI * 4);
  sp_read : mem_readable (dimI * 4) d bias_data;
  sp_write : mem_writable (dimI * dimJ * 4) d matrix_bias }.

Definition splat_filled d i j d' : Prop :=
  mem_differ (span (dimI * dimJ * 4) matrix_bias) d d' /\
  forall i' j', 0 <= i' -> 0 <= j' < dimJ -> i' * dimJ + j' < i * dimJ + j -> mem_int 4 d' (matrix_bias + (i' * dimJ + j') * 4) = mem_int 4 d (bias_data + i' * 4).

Lemma wp_splat_bias Q m : splat_ready (dram m) ->
  (forall m', gs m' = gs m -> rand_pos m' = rand_pos m -> splat_filled (dram m) dimI 0 (dram m') -> Q tt m') ->
  wp (splat_bias dimI dimJ matrix_bias bias_data) Q m.
Proof.
  intros [(HI & HJ & Hp) Hm Hb Ha Hrd Hw] HQ. unfold splat_bias. set (inv := fun i j m' => gs m' = gs m /\ rand_pos m' = rand_pos m /\ splat_filled (dram m) i j (dram m')).
  apply (wp_for_range (fun i m' => inv i 0 m')).
  - split_and!; [done..|]. split; [apply mem_differ_refl|]. intros i' j' Hi' Hj'. nia.
  - intros i m1 Hi (Hg1 & Hp1 & Hd1 & Hv1). apply wp_bind. unfold load_acc, sizeof_acc_t.
    assert (mem_int 4 (dram m1) (bias_data + i * 4) = mem_int 4 (dram m) (bias_data + i * 4)) as Eb.
    { eapply mem_int_differ; [exact Hd1|]. intros o Ho Hs. unfold range_ok, apart in *. apply span_plain in Hs; lia. }
    apply wp_read_from_dram; [lia|eapply (mem_readable_sub (bias_data, dimI * 4)); [eapply mem_readable_differ; [exact Hd1|done]|split; cbn; lia]|].
    rewrite Eb.
    apply (wp_for_range (fun j m' => inv i j m')); [done| |].
    + intros j m2 Hj (Hg2 & Hp2 & Hd2 & Hv2). pose proof (radix_bound _ _ _ _ Hi Hj) as Hk.
      assert (s32 (i * dimJ) = i * dimJ) as -> by (apply wrap_s_id; unfold in_s; nia).
      replace (matrix_bias + i * dimJ * 4 + j * 4) with (matrix_bias + (i * dimJ + j) * 4) by ring.
      apply wp_write_to_dram; [lia|eapply (mem_writable_sub (matrix_bias, dimI * dimJ * 4)); [eapply mem_writable_differ; [exact Hd2|done]|split; cbn; lia]|].
      intros d' Hd' Hbytes. split_and!; [done..|]. cbn [dram]. split.
      * eapply mem_differ_trans; [exact Hd2|]. eapply mem_differ_weaken; [exact Hd'|]. intros b. by apply word_span.
      * intros i' j' Hi' Hj' Hlt. destruct (decide (i' * dimJ + j' = i * dimJ + j)) as [E|N].
        -- apply block_row_inj in E as [-> ->]; [|done..]. rewrite (mem_int_written 4 _ _ _ ltac:(lia) Hbytes). apply wrap_s_id; [lia|]. by apply (mem_int_range 4).
        -- rewrite (word_other matrix_bias (dimI * dimJ) Hm (dram m2) d' (i * dimJ + j)) by (done || nia). apply Hv2; [done..|lia].
    + intros m2 (Hg2 & Hp2 & Hd2 & Hv2). rewrite Z.max_r in Hv2 by lia. split_and!; [done..|]. split; [done|].
      intros i' j' Hi' Hj' Hlt. apply Hv2; [done..|lia].
  - intros m1 (Hg1 & Hp1 & Hd1 & Hv1). rewrite Z.max_r in Hv1 by lia. by apply HQ.
Qed.
End splat.

(** ** One group of one image *)

Section nchw_kernel.
Context {mem : Type} `{MmuLaws mem} `{Rand}.
Context (k : conv_kernel) (c : conv_context) (p : patch_args) (N mg Xd Wd Bd Yd col : Z) (scale : float32).
Implicit Types (d : mem) (m : machine mem).
Notation group := (ca_group (ck_conv_attrs_ k)).
Notation cg := (pt_channels p).
Notation M := (group * mg).
Notation kh := (pt_kernel_h p).
Notation kw := (pt_kernel_w p).
Notation HC := (height_col p).
Notation WC := (width_col p).
Notation K := (cg * (kh * kw)).
Notation OS := (HC * WC).
Notation XO := (cg * (pt_height p * pt_width p)).
Notation bm := (cx_new_int c (mg * OS)).

(** Output channel [i] of group [g] at [(h, w)] of image [n]: the bias and, over the
    channels of the group and the kernel, the products of weights (in OIHW order) and
    image. *)
Definition oihw_sum d (n g i h w : Z) : Z :=
  s32 ((if Bd =? 0 then 0 else mem_int 4 d (Bd + (g * mg + i) * 4)) +
       Zsum (fun ch => Zsum (fun r => Zsum (fun s =>
         mem_int 1 d (Wd + ((((g * mg + i) * cg + ch) * kh + r) * kw + s)) * nchw_value p (Xd + (n * group + g) * XO) 0 d ch r s h w) kw) kh) cg).
Definition oihw_value d (n g i h w : Z) : option Z := scale_and_sat (oihw_sum d n g i h w) (b2z (ck_fused_relu_ k)) scale 0.

Definition nchw_y_offset (n ch h w : Z) : Z := ((n * M + ch) * HC + h) * WC + w.

(** A 1 x 1 kernel without stride or padding. *)
Definition pointwise_patch : Prop := kh = 1 /\ kw = 1 /\ pt_pad_t p = 0 /\ pt_pad_l p = 0 /\ pt_pad_b p = 0 /\ pt_pad_r p = 0 /\
  pt_stride_h p = 1 /\ pt_stride_w p = 1.

Definition r_image : region := (Xd, N * group * XO).
Definition r_weights : region := (Wd, M * K).
Definition r_bias : region := (Bd, M * 4).
Definition r_out : region := (Yd, N * group * (mg * OS)).
Definition r_cols : region := (col, K * OS).
Definition r_biases : region := (bm, mg * OS * 4).
Definition cols_written : list region := if col =? 0 then [] else [r_cols].
Definition biases_written : list region := if Bd =? 0 then [] else [r_biases].
Definition nchw_written : list region := r_out :: cols_written ++ biases_written.
Definition nchw_read : list region := r_image :: r_weights :: if Bd =? 0 then [] else [r_bias].

Record nchw_images_ready d : Prop := {
  ni_patch : patch_ok p 1;
  ni_image : 1 <= pt_height p /\ 1 <= pt_width p;
  ni_sizes : 0 <= N < 2 ^ 31 /\ 1 <= group < 2 ^ 31 /\ 1 <= mg <= 2 ^ 30 /\ K <= 2 ^ 30 /\ OS <= 2 ^ 30 /\ mg * OS < 2 ^ 31;
  ni_ok : Forall region_ok (nchw_written ++ nchw_read);
  ni_operands : Forall (fun r => Forall (region_apart r) nchw_written) nchw_read;
  ni_buffers : Forall (region_apart r_out) (cols_written ++ biases_written) /\ Forall (fun r => Forall (region_apart r) biases_written) cols_written;
  ni_readable : Forall (fun r => mem_readable (snd r) d (fst r)) (nchw_read ++ cols_written ++ biases_written);
  ni_writable : Forall (fun r => mem_writable (snd r) d (fst r)) nchw_written;
  ni_in_place : col = 0 -> pointwise_patch;
  ni_scale : is_binary32 scale = true;
  ni_value n g i h w : 0 <= n < N -> 0 <= g < group -> 0 <= i < mg -> 0 <= h < HC -> 0 <= w < WC -> is_Some (oihw_value d n g i h w) }.

Section run.
Context (d : mem) (Hr : nchw_images_ready d).

Lemma written_ok r : r ∈ nchw_written -> region_ok r.
Proof. pose proof (ni_ok d Hr) as Ho. rewrite Forall_app, !Forall_forall in Ho. apply Ho. Qed.
Lemma read_ok r : r ∈ nchw_read -> region_ok r.
Proof. pose proof (ni_ok d Hr) as Ho. rewrite Forall_app, !Forall_forall in Ho. apply Ho. Qed.
Lemma read_apart r r' : r ∈ nchw_read -> r' ∈ nchw_written -> region_apart r r'.
Proof. intros Hin Hin'. pose proof (ni_operands d Hr) as Ho. rewrite Forall_forall in Ho. specialize (Ho r Hin). rewrite Forall_forall in Ho. by apply Ho. Qed.
Lemma written_writable r size a d' : mem_differ (in_regions nchw_written) d d' -> r ∈ nchw_written -> covers r size a -> mem_writable size d' a.
Proof.
  intros Hd Hin Hc. eapply mem_writable_differ; [done|]. eapply mem_writable_sub; [|done]. pose proof (ni_writable d Hr) as Hw.
  rewrite Forall_forall in Hw. by apply Hw.
Qed.
Lemma cols_in : col <> 0 -> r_cols ∈ cols_written /\ r_cols ∈ nchw_written.
Proof. unfold nchw_written, cols_written. intros Hc%Z.eqb_neq. rewrite Hc. set_solver. Qed.
Lemma biases_in : Bd <> 0 -> r_biases ∈ biases_written /\ r_biases ∈ nchw_written /\ r_bias ∈ nchw_read.
Proof. unfold nchw_written, biases_written, nchw_read. intros Hc%Z.eqb_neq. rewrite Hc. set_solver. Qed.
Lemma cols_sub : cols_written ⊆ nchw_written.
Proof. intros r Hin. right. apply elem_of_app. by left. Qed.
Lemma biases_sub : biases_written ⊆ nchw_written.
Proof. intros r Hin. right. apply elem_of_app. by right. Qed.
Lemma out_in : r_out ∈ nchw_written.
Proof. left. Qed.
Lemma image_in : r_image ∈ nchw_read /\ r_weights ∈ nchw_read.
Proof. unfold nchw_read. set_solver. Qed.

Lemma nchw_kept r size a d' : mem_differ (in_regions nchw_written) d d' -> r ∈ nchw_read -> 1 <= size -> covers r size a ->
  mem_readable size d' a /\ mem_int size d' a = mem_int size d a.
Proof.
  intros Hd Hin Hs Hc. pose proof (ni_readable d Hr) as [Hacc _]%Forall_app. rewrite Forall_forall in Hacc. split.
  - eapply mem_readable_differ; [done|]. eapply mem_readable_sub; [by apply Hacc|done].
  - eapply (regions_kept nchw_written r); try done; [| |by apply read_ok]; apply Forall_forall; auto using written_ok, read_apart.
Qed.

Lemma in_place_dims : col = 0 -> kh = 1 /\ kw = 1 /\ HC = pt_height p /\ WC = pt_width p.
Proof.
  intros Hc. destruct (ni_in_place d Hr Hc) as (K1 & K2 & P1 & P2 & P3 & P4 & S1 & S2). unfold height_col, width_col, dkernel_h, dkernel_w.
  rewrite K1, K2, P1, P2, P3, P4, S1, S2, !Z.quot_1_r. lia.
Qed.

Lemma nchw_sizes_pos : 1 <= K /\ 1 <= OS /\ 1 <= M /\ 1 <= kh /\ 1 <= kw /\ 1 <= cg /\ 1 <= HC /\ 1 <= WC /\ 1 <= XO.
Proof.
  destruct (im_kernel _ _ (ni_patch d Hr)) as [? ?], (im_channels _ _ (ni_patch d Hr)) as (_ & Hc & _), (ni_image d Hr), (ni_sizes d Hr) as (_ & ? & ? & _).
  unfold group_channels in Hc. rewrite Z.quot_1_r in Hc.
  destruct (height_col_pos _ _ (ni_patch d Hr)) as [? _], (width_col_pos _ _ (ni_patch d Hr)) as [? _].
  split_and!; try lia; repeat apply mul_pos; lia.
Qed.

(** Tile [t = n * group + g] of the input. *)
Section tile.
Context (n g : Z) (Hn : 0 <= n < N) (Hg : 0 <= g < group).
Notation t := (n * group + g).
Notation X := (Xd + t * XO).
Notation Y := (Yd + t * (mg * OS)).
Notation P := (if col =? 0 then X else col).

Lemma tile_bound : 0 <= t < N * group.
Proof. by apply radix_bound. Qed.

Lemma tile_image o size : 1 <= size -> 0 <= o -> o + size <= XO -> covers r_image size (X + o).
Proof.
  intros Hs Ho Hle. pose proof tile_bound. unfold covers, r_image. cbn [fst snd].
  pose proof (radix_bound t (o + size - 1) (N * group) XO ltac:(lia) ltac:(lia)).
  pose proof (radix_bound t o (N * group) XO ltac:(lia) ltac:(lia)). lia.
Qed.

Lemma tile_out o size : 1 <= size -> 0 <= o -> o + size <= mg * OS -> covers r_out size (Y + o).
Proof.
  intros Hs Ho Hle. pose proof tile_bound. unfold covers, r_out. cbn [fst snd].
  pose proof (radix_bound t (o + size - 1) (N * group) (mg * OS) ltac:(lia) ltac:(lia)).
  pose proof (radix_bound t o (N * group) (mg * OS) ltac:(lia) ltac:(lia)). lia.
Qed.

(** The patches of the tile, in the column buffer or in place. *)
Definition tile_patches d' : Prop := forall ch r s h w, 0 <= ch < cg -> 0 <= r < kh -> 0 <= s < kw -> 0 <= h < HC -> 0 <= w < WC ->
  mem_int 1 d' (P + nchw_offset p ch r s h w) = nchw_value p X 0 d ch r s h w.

Lemma nchw_value_kept ch r s h w d' : mem_differ (in_regions nchw_written) d d' -> 0 <= ch < cg ->
  nchw_value p X 0 d' ch r s h w = nchw_value p X 0 d ch r s h w.
Proof.
  intros Hd Hc. unfold nchw_value, inside. destruct (_ && _) eqn:E; [|done].
  apply (nchw_kept r_image); [done|left|lia|]. unfold nchw_pixel. apply tile_image; [lia| |].
  - assert (0 <= (ch * pt_height p + tap_row p h r) * pt_width p + tap_col p w s < cg * pt_height p * pt_width p) by (repeat apply radix_bound; lia). lia.
  - assert (0 <= (ch * pt_height p + tap_row p h r) * pt_width p + tap_col p w s < cg * pt_height p * pt_width p) by (repeat apply radix_bound; lia). lia.
Qed.

Lemma patches_pointwise d' : col = 0 -> mem_differ (in_regions nchw_written) d d' -> tile_patches d'.
Proof.
  intros Hc Hd ch r s h w Hch Hrr Hs Hh Hw. destruct (ni_in_place d Hr Hc) as (K1 & K2 & P1 & P2 & P3 & P4 & S1 & S2).
  destruct (in_place_dims Hc) as (_ & _ & EH & EW).
  assert (r = 0 /\ s = 0) as [-> ->] by lia. rewrite <- (nchw_value_kept _ _ _ _ _ d') by done. rewrite Hc. cbn [Z.eqb]. cbv iota.
  unfold nchw_value, tap_row, tap_col, inside. rewrite P1, P2, S1, S2.
  assert ((0 <=? h * 1 - 0 + 0 * pt_dilation_h p) && (h * 1 - 0 + 0 * pt_dilation_h p <? pt_height p) &&
    ((0 <=? w * 1 - 0 + 0 * pt_dilation_w p) && (w * 1 - 0 + 0 * pt_dilation_w p <? pt_width p)) = true) as -> by lia.
  f_equal. unfold nchw_offset, nchw_pixel. rewrite K1, K2, EH, EW. ring.
Qed.

Lemma nchw_size_eq : nchw_size p = K * OS.
Proof. unfold nchw_size. ring. Qed.

Lemma tile_im2col_ready d' : col <> 0 -> mem_differ (in_regions nchw_written) d d' -> nchw_ready p X col d'.
Proof.
  intros Hc Hd. destruct (cols_in Hc) as [_ Hin], image_in as [Him _]. destruct (written_ok _ Hin), (read_ok _ Him). pose proof (read_apart _ _ Him Hin) as Ha.
  unfold region_apart, apart in Ha. cbn [r_cols r_image fst snd] in *. split; rewrite ?nchw_size_eq.
  - apply Hr.
  - apply Hr.
  - unfold buffer. lia.
  - intros o Ho. apply (nchw_kept r_image _ _ d'); [done|done|lia|]. apply tile_image; lia.
  - intros o Ho. eapply (written_writable r_cols); [done..|]. split; cbn [r_cols fst snd]; lia.
  - intros o Ho Hs. pose proof (tile_image o 1 ltac:(lia) ltac:(lia) ltac:(lia)) as [? ?]. cbn [r_image fst snd] in *. apply span_plain in Hs; lia.
Qed.

(** The column buffer is filled. *)
Context (C : Z) (input_shape output_shape : shape) (shp : conv_shape).
Context (Hrank : length (cs_kernel_shape shp) = 2%nat) (Hpt : forall m, patch_of (Z.quot C group) input_shape shp m = (Ok p, m)).

Definition running m : Prop := ready m /\ acc_act (st (gs m)) <> SOFTMAX /\ mem_differ (in_regions nchw_written) d (dram m).

Lemma running_next m m' l : running m -> gs m' = gs m -> mem_differ (in_regions l) (dram m) (dram m') -> l ⊆ nchw_written -> running m'.
Proof.
  intros (Hrd & Hact & Hd) Eg Hd' Hl. split_and!; [unfold ready, mwf; by rewrite Eg|by rewrite Eg|]. eapply mem_differ_trans; [exact Hd|].
  eapply mem_differ_weaken; [exact Hd'|]. intros b (r & Hin & Hs). exists r. auto.
Qed.

Lemma wp_tile_patches Q m : running m ->
  (forall m', running m' -> mem_differ (in_regions cols_written) (dram m) (dram m') -> tile_patches (dram m') -> Q tt m') ->
  wp (when (negb (col =? 0)) (nchw_patches C group input_shape output_shape shp K X col 0)) Q m.
Proof.
  intros Hrun HQ. pose proof Hrun as (Hrd & Hact & Hd). apply wp_when; intros Hc.
  - assert (col <> 0) as Hc' by lia. destruct (cols_in Hc') as [Hin _]. unfold nchw_patches. rewrite Hrank. cbn [Nat.eqb].
    apply wp_bind. unfold wp at 1. rewrite Hpt. pose proof (tile_im2col_ready (dram m) Hc' Hd) as Hir.
    apply (wp_Im2col_NCHW p X col 0 (dram m) Hir m); [split_and!; [done..|apply mem_differ_refl]|done|].
    intros m' (Eg & _ & Hd') [_ Hv]. rewrite nchw_size_eq in Hd'.
    assert (mem_differ (in_regions cols_written) (dram m) (dram m')) as Hcol.
    { eapply mem_differ_weaken; [exact Hd'|]. intros b Hb. by exists r_cols. }
    apply HQ; [by eapply running_next, cols_sub|done|].
    intros ch r s h w Hch Hrr Hs Hh Hw. apply Z.eqb_neq in Hc' as ->. rewrite Hv by (by apply nchw_offset_bound).
    rewrite nchw_at_offset by done. rewrite nchw_value_kept by done. unfold nchw_value. destruct (_ && _); [unfold mem_int|]; by rewrite wrap_s_wrap_s.
  - apply HQ; [done|apply mem_differ_refl|]. apply patches_pointwise; [lia|done].
Qed.

(** The matrix of biases. *)
Definition tile_biases d' : Prop := forall i j, Bd <> 0 -> 0 <= i < mg -> 0 <= j < OS ->
  mem_int 4 d' (bm + (i * OS + j) * 4) = mem_int 4 d (Bd + (g * mg + i) * 4).

Lemma bias_covers i n' : 0 <= i -> 1 <= n' -> i + n' <= mg -> covers r_bias (n' * 4) (Bd + (g * mg + i) * 4).
Proof.
  intros Hi Hn' Hle. unfold covers, r_bias. cbn [fst snd]. pose proof (radix_bound g (i + n' - 1) group mg ltac:(lia) ltac:(lia)).
  pose proof (radix_bound g i group mg ltac:(lia) ltac:(lia)). lia.
Qed.

Lemma tile_splat_ready d' : Bd <> 0 -> mem_differ (in_regions nchw_written) d d' -> splat_ready mg OS bm (Bd + g * mg * sizeof_acc_t) d'.
Proof.
  intros Hb Hd. destruct (biases_in Hb) as (_ & Hw & Hin), (ni_sizes d Hr) as (_ & _ & ? & _ & ? & ?), nchw_sizes_pos as (_ & ? & _).
  pose proof (bias_covers 0 mg ltac:(lia) ltac:(lia) ltac:(lia)) as Hc.
  replace (Bd + (g * mg + 0) * 4) with (Bd + g * mg * sizeof_acc_t) in Hc by (unfold sizeof_acc_t; ring).
  destruct (written_ok _ Hw), (read_ok _ Hin). pose proof (read_apart _ _ Hin Hw) as Ha. unfold region_apart, apart in Ha. pose proof Hc as [? ?].
  cbn [r_biases r_bias fst snd] in *. split.
  - lia.
  - unfold range_ok. lia.
  - unfold range_ok. lia.
  - unfold apart. lia.
  - eapply (nchw_kept r_bias); [done..|lia|done].
  - eapply (written_writable r_biases); [done..|]. split; cbn [r_biases fst snd]; lia.
Qed.

Lemma wp_tile_biases (cont : Z -> Effects.M (machine mem) unit) Q m : running m -> tile_patches (dram m) ->
  (forall m', running m' -> mem_differ (in_regions biases_written) (dram m) (dram m') -> tile_patches (dram m') -> tile_biases (dram m') ->
     wp (cont (if Bd =? 0 then 0 else bm)) Q m') ->
  wp (b ← (if Bd =? 0 then mret 0
    else let matrix_bias := bm in splat_bias mg OS matrix_bias (Bd + g * mg * sizeof_acc_t) ;; mret matrix_bias); cont b) Q m.
Proof.
  intros Hrun Hp HQ. pose proof Hrun as (Hrd & Hact & Hd). destruct (Z.eqb_spec Bd 0) as [Hz|Hz].
  { apply wp_bind, wp_ret. apply HQ; [done|apply mem_differ_refl|done|]. by intros i j Hb. }
  destruct (biases_in Hz) as (Hin & Hw & _). apply wp_bind, wp_bind, wp_splat_bias; [by apply tile_splat_ready|].
  intros m' Hg' _ [Hd' Hv]. apply wp_ret.
  assert (mem_differ (in_regions biases_written) (dram m) (dram m')) as Hbm.
  { eapply mem_differ_weaken; [exact Hd'|]. intros b Hb. by exists r_biases. }
  assert (running m') as Hrun' by by eapply running_next, biases_sub.
  apply HQ; [done..| |].
  - destruct (Z.eq_dec col 0) as [Hc|Hc]; [apply patches_pointwise; [done|apply Hrun']|].
    intros ch r s h w Hch Hrr Hs Hh Hw'. rewrite <- Hp by done. destruct (cols_in Hc) as [Hcin Hcw].
    pose proof (nchw_offset_bound p _ _ _ _ _ Hch Hrr Hs Hh Hw') as Hb. rewrite nchw_size_eq in Hb.
    apply Z.eqb_neq in Hc as ->. eapply (regions_kept biases_written r_cols); [done|..|by apply written_ok|lia|split; cbn [r_cols fst snd]; lia].
    + apply Forall_forall. intros r' Hr'. by apply written_ok, biases_sub.
    + destruct (ni_buffers d Hr) as [_ Hb']. rewrite Forall_forall in Hb'. by apply Hb'.
  - intros i j _ Hi Hj. rewrite Hv; [|lia|done|nia].
    replace (Bd + g * mg * sizeof_acc_t + i * 4) with (Bd + (g * mg + i) * 4) by (unfold sizeof_acc_t; ring).
    eapply (nchw_kept r_bias); [exact Hd|by destruct (biases_in Hz) as (_ & _ & ?)|lia|]. apply (bias_covers i 1); lia.
Qed.

(** The product of weights and patches is the convolution. *)
Notation bias := (if Bd =? 0 then 0 else bm).
Notation Wg := (Wd + g * (mg * K)).

Lemma weight_covers i o size : 0 <= i < mg -> 1 <= size -> 0 <= o -> o + size <= K -> covers r_weights size (Wg + (i * K + o)).
Proof.
  intros Hi Hs Ho Hle. unfold covers, r_weights. cbn [fst snd]. pose proof (radix_bound i o mg K Hi ltac:(lia)).
  pose proof (radix_bound i (o + size - 1) mg K Hi ltac:(lia)). pose proof (radix_bound g (i * K + o) group (mg * K) Hg ltac:(lia)).
  pose proof (radix_bound g (i * K + (o + size - 1)) group (mg * K) Hg ltac:(lia)). lia.
Qed.

Lemma tile_multiply_value i h w d' : mem_differ (in_regions nchw_written) d d' -> tile_patches d' -> tile_biases d' ->
  0 <= i < mg -> 0 <= h < HC -> 0 <= w < WC ->
  multiply_value (ck_fused_relu_ k) OS K Wg P bias scale d' i (h * WC + w) = oihw_value d n g i h w.
Proof.
  intros Hd Hp Hb Hi Hh Hw. pose proof (radix_bound h w HC WC Hh Hw) as Hj. unfold multiply_value, oihw_value. f_equal.
  unfold multiply_sum, oihw_sum. f_equal. f_equal.
  - destruct (Z.eqb_spec Bd 0) as [Hz|Hz]; [done|]. destruct (biases_in Hz) as (_ & Hin & _). destruct (written_ok _ Hin) as [Hpos _].
    cbn [r_biases fst] in Hpos. assert ((bm =? 0) = false) as -> by lia. by apply Hb.
  - destruct nchw_sizes_pos as (_ & _ & _ & ? & ? & ? & _). rewrite Zsum_blocks by lia. apply Zsum_ext. intros ch Hch.
    rewrite Zsum_blocks by lia. apply Zsum_ext. intros r Hrr. apply Zsum_ext. intros s Hs. f_equal.
    + assert (0 <= ch * (kh * kw) + (r * kw + s) < K) by (repeat apply radix_bound; done).
      replace (Wg + i * K + (ch * (kh * kw) + (r * kw + s))) with (Wg + (i * K + (ch * (kh * kw) + (r * kw + s)))) by ring.
      etransitivity; [eapply (nchw_kept r_weights); [exact Hd|apply image_in|lia|apply weight_covers; lia]|]. f_equal. ring.
    + rewrite <- Hp by done. f_equal. unfold nchw_offset. ring.
Qed.

Lemma tile_patch_access o d' : mem_differ (in_regions nchw_written) d d' -> 0 <= o < K * OS -> mem_readable 1 d' (P + o).
Proof.
  intros Hd Ho. destruct (Z.eqb_spec col 0) as [Hc|Hc].
  - destruct (in_place_dims Hc) as (K1 & K2 & EH & EW).
    rewrite K1, K2, EH, EW in Ho. eapply (nchw_kept r_image); [exact Hd|apply image_in|lia|]. apply tile_image; lia.
  - eapply mem_readable_differ; [done|]. eapply (mem_readable_sub r_cols); [|split; cbn [r_cols fst snd]; lia].
    pose proof (ni_readable d Hr) as Ha. rewrite Forall_forall in Ha. apply Ha. apply elem_of_app. right. apply elem_of_app. left. by apply cols_in.
Qed.

Lemma tile_patch_place : range_ok P (K * OS) /\ apart Y (mg * OS) P (K * OS).
Proof.
  destruct nchw_sizes_pos as (? & ? & _), (ni_sizes d Hr) as (_ & _ & ? & _). assert (1 <= mg * OS) by (apply mul_pos; lia).
  pose proof (tile_out 0 (mg * OS) ltac:(lia) ltac:(lia) ltac:(lia)) as [Y1 Y2]. destruct (written_ok _ out_in).
  unfold range_ok, apart. destruct (Z.eqb_spec col 0) as [Hc|Hc].
  - destruct (in_place_dims Hc) as (K1 & K2 & EH & EW).
    assert (K * OS = XO) as -> by (rewrite K1, K2, EH, EW; ring). destruct image_in as [Him _]. destruct (read_ok _ Him).
    pose proof (read_apart _ _ Him out_in) as Ha. pose proof (tile_image 0 XO ltac:(by destruct nchw_sizes_pos as (_ & _ & _ & _ & _ & _ & _ & _ & ?)) ltac:(lia) ltac:(lia)) as [? ?].
    unfold region_apart, apart in Ha. cbn [r_image r_out fst snd] in *. lia.
  - destruct (cols_in Hc) as [Hin Hw]. destruct (written_ok _ Hw). destruct (ni_buffers d Hr) as [Hb _]. rewrite Forall_forall in Hb.
    specialize (Hb r_cols ltac:(apply elem_of_app; by left)). unfold region_apart, apart in Hb. cbn [r_cols r_out fst snd] in *. lia.
Qed.

Lemma tile_multiply_ready d' : mem_differ (in_regions nchw_written) d d' -> tile_patches d' -> tile_biases d' ->
  multiply_ready (ck_fused_relu_ k) mg OS K Wg P Y bias scale d'.
Proof.
  intros Hd Hp Hb. destruct nchw_sizes_pos as (? & ? & _ & ? & ? & ? & ? & ? & _), (ni_sizes d Hr) as (_ & ? & ? & ? & ? & ?), tile_patch_place as [HP1 HP2].
  assert (1 <= mg * OS /\ 1 <= mg * K) as [? ?] by (split; apply mul_pos; lia).
  pose proof (tile_out 0 (mg * OS) ltac:(lia) ltac:(lia) ltac:(lia)) as [Y1 Y2]. destruct (written_ok _ out_in).
  destruct image_in as [_ Hwin]. destruct (read_ok _ Hwin). pose proof (read_apart _ _ Hwin out_in) as Ha.
  pose proof (weight_covers 0 0 1 ltac:(lia) ltac:(lia) ltac:(lia) ltac:(lia)) as [W1 _].
  pose proof (weight_covers (mg - 1) (K - 1) 1 ltac:(lia) ltac:(lia) ltac:(lia) ltac:(lia)) as [_ W2].
  unfold region_apart, apart in Ha. cbn [r_out r_weights fst snd] in *.
  assert (Wg + mg * K <= Wd + M * K) as W3 by lia.
  split; try lia; try done.
  - unfold range_ok. lia.
  - unfold range_ok. lia.
  - destruct (Z.eqb_spec Bd 0) as [Hz|Hz]; [by left|right]. destruct (biases_in Hz) as (_ & Hin & _). by destruct (written_ok _ Hin).
  - intros o Ho. eapply (nchw_kept r_weights); [exact Hd|done|lia|]. split; cbn [r_weights fst snd]; lia.
  - intros o Ho. by apply tile_patch_access.
  - intros o Hb0 Ho. destruct (Z.eqb_spec Bd 0) as [Hz|Hz]; [done|]. destruct (biases_in Hz) as (Hin & _).
    eapply mem_readable_differ; [exact Hd|]. eapply (mem_readable_sub r_biases); [|split; cbn [r_biases fst snd]; lia].
    pose proof (ni_readable d Hr) as Hacc. rewrite Forall_forall in Hacc. apply Hacc. apply elem_of_app. right. apply elem_of_app. by right.
  - intros o Ho. eapply (written_writable r_out); [exact Hd|apply out_in|]. apply tile_out; lia.
  - split_and!; [unfold apart; lia|exact HP2|]. intros Hb0. destruct (Z.eqb_spec Bd 0) as [Hz|Hz]; [done|]. destruct (biases_in Hz) as (Hin & _).
    destruct (ni_buffers d Hr) as [Hbuf _]. rewrite Forall_forall in Hbuf. specialize (Hbuf r_biases ltac:(apply elem_of_app; by right)).
    unfold region_apart, apart in *. cbn [r_biases r_out fst snd] in *. lia.
  - apply Hr.
  - intros i j Hi Hj. destruct (radix_split j HC WC ltac:(lia) Hj) as [Hh Hw]. replace j with (j / WC * WC + (j - j / WC * WC)) by lia.
    rewrite tile_multiply_value by (done || lia). apply (ni_value d Hr); try done; lia.
Qed.

(** The outputs of the tiles before [t'] . *)
Definition tiles_hold (t' : Z) d' : Prop := forall n' g' i h w, 0 <= n' -> 0 <= g' < group -> n' * group + g' < t' -> 0 <= i < mg -> 0 <= h < HC -> 0 <= w < WC ->
  mem_int 1 d' (Yd + nchw_y_offset n' (g' * mg + i) h w) = s8 (default 0 (oihw_value d n' g' i h w)).

Lemma y_offset_tile n' g' i h w : 0 <= i < mg -> 0 <= h < HC -> 0 <= w < WC ->
  nchw_y_offset n' (g' * mg + i) h w = (n' * group + g') * (mg * OS) + (i * OS + (h * WC + w)) /\ 0 <= i * OS + (h * WC + w) < mg * OS.
Proof. intros Hi Hh Hw. split; [unfold nchw_y_offset; ring|]. by repeat apply radix_bound. Qed.

(** Earlier tiles survive the buffers and the result of this one. *)
Lemma tiles_kept d1 d2 l : mem_differ (in_regions l) d1 d2 -> Forall region_ok l -> Forall (region_apart (Yd, t * (mg * OS))) l ->
  tiles_hold t d1 -> tiles_hold t d2.
Proof.
  intros Hd Hok Hap Ht n' g' i h w Hn' Hg' Hlt Hi Hh Hw. rewrite <- Ht by done. destruct (y_offset_tile n' g' i h w Hi Hh Hw) as [-> Hb].
  pose proof (radix_bound (n' * group + g') (i * OS + (h * WC + w)) t (mg * OS) ltac:(nia) Hb).
  pose proof tile_bound. destruct (written_ok _ out_in) as [? ?]. cbn [r_out fst snd] in *.
  assert (t * (mg * OS) <= N * group * (mg * OS)) by (apply Z.mul_le_mono_nonneg_r; nia).
  eapply (regions_kept l (Yd, t * (mg * OS))); [done..| |lia|split; cbn; lia]. split; cbn; lia.
Qed.

Lemma wp_tile Q m : get_accelerator_mode (ck_accelerator_mode k) <> T_OS -> running m -> tiles_hold t (dram m) ->
  (forall m', running m' -> tiles_hold (t + 1) (dram m') -> Q tt m') ->
  wp (nchw_group k c C M input_shape output_shape shp OS K (mg * K) mg Wd Bd col 0 scale X Y g) Q m.
Proof.
  intros Hmode Hrun Ht HQ. destruct (ni_sizes d Hr) as (? & ? & ? & ? & ? & ?), nchw_sizes_pos as (? & ? & ? & ? & ? & ? & ? & ? & _).
  unfold nchw_group. rewrite (Z.mul_comm group mg), Z.quot_mul by lia.
  rewrite (wrap_s_id 32 mg), (wrap_s_id 32 OS), (wrap_s_id 32 K), (wrap_s_id 32 (mg * OS)) by (done || unfold in_s; lia).
  assert (0 <= t * (mg * OS) <= N * group * (mg * OS)) as Htb by (pose proof tile_bound; split; [nia|apply Z.mul_le_mono_nonneg_r; nia]).
  assert (forall r, r ∈ cols_written ++ biases_written -> region_apart (Yd, t * (mg * OS)) r) as Hap.
  { intros r Hin. destruct (ni_buffers d Hr) as [Hb _]. rewrite Forall_forall in Hb. specialize (Hb r Hin).
    unfold region_apart, apart in *. cbn [r_out fst snd] in *. lia. }
  apply wp_bind, wp_tile_patches; [done|]. intros m1 Hrun1 Hd1 Hp1.
  assert (tiles_hold t (dram m1)) as Ht1.
  { eapply tiles_kept; [exact Hd1|..|exact Ht]; apply Forall_forall; intros r Hin; [by apply written_ok, cols_sub|apply Hap, elem_of_app; by left]. }
  apply wp_tile_biases; [done..|]. intros m2 Hrun2 Hd2 Hp2 Hb2.
  assert (tiles_hold t (dram m2)) as Ht2.
  { eapply tiles_kept; [exact Hd2|..|exact Ht1]; apply Forall_forall; intros r Hin; [by apply written_ok, biases_sub|apply Hap, elem_of_app; by right]. }
  pose proof Hrun2 as (Hrd2 & Hact2 & Hdd2). apply wp_SystolicMultiply; [done..|by apply tile_multiply_ready|].
  intros m3 Hrd3 Hact3 [Hd3 Hv3]. assert (1 <= mg * OS) as Hmo by (apply mul_pos; lia).
  assert (mem_differ (in_regions [(Y, mg * OS)]) (dram m2) (dram m3)) as Hd3'.
  { eapply mem_differ_weaken; [exact Hd3|]. intros b (e & [He1 He2]%elem_of_pairs & i & Hi & ->). exists (Y, mg * OS). split; [left|].
    exists (fst e * OS + snd e). split; [by apply radix_bound|]. cbn [fst]. f_equal. lia. }
  pose proof (tile_out 0 (mg * OS) ltac:(lia) ltac:(lia) ltac:(lia)) as Hcov. destruct (written_ok _ out_in). cbn [r_out fst snd] in *. destruct Hcov as [? ?]. cbn [r_out fst snd] in *.
  assert (tiles_hold t (dram m3)) as Ht3.
  { eapply tiles_kept; [exact Hd3'|..|exact Ht2]; apply Forall_singleton; unfold region_ok, range_ok, region_apart, apart; cbn [fst snd]; lia. }
  apply HQ; [split_and!; [done..|]|].
  - eapply mem_differ_trans; [exact Hdd2|]. eapply mem_differ_weaken; [exact Hd3'|]. intros b (r & ->%list_elem_of_singleton & Hs).
    eapply (in_regions_span nchw_written r_out); [apply out_in|..|exact Hs]; [split; cbn [r_out fst snd]; lia|cbn; lia].
  - intros n' g' i h w Hn' Hg' Hlt Hi Hh Hw. destruct (decide (n' * group + g' = t)) as [E|Hne].
    + apply block_row_inj in E as [-> ->]; [|done..]. destruct (y_offset_tile n g i h w Hi Hh Hw) as [-> Hb].
      assert ((i, h * WC + w) ∈ pairs mg OS) as Hin by (apply elem_of_pairs; cbn; split; [done|by apply radix_bound]).
      specialize (Hv3 _ Hin). cbn [fst snd] in Hv3. rewrite tile_multiply_value in Hv3 by done. etransitivity; [|exact Hv3]. f_equal. ring.
    + apply Ht3; try done. lia.
Qed.
End tile.

(** All tiles. *)
Lemma wp_nchw_images C input_shape output_shape shp Q m : length (cs_kernel_shape shp) = 2%nat ->
  (forall m, patch_of (Z.quot C group) input_shape shp m = (Ok p, m)) ->
  get_accelerator_mode (ck_accelerator_mode k) <> T_OS -> ready m -> acc_act (st (gs m)) <> SOFTMAX -> dram m = d ->
  (forall m', running m' -> tiles_hold (N * group) (dram m') -> Q tt m') ->
  wp (nchw_images k c N C M input_shape output_shape shp OS K XO (mg * OS) (mg * K) mg Xd Wd Bd Yd col 0 scale) Q m.
Proof.
  intros Hrank Hpt Hmode Hrd Hact Hm HQ. unfold nchw_images, fold_int. destruct (ni_sizes d Hr) as (? & ? & _).
  set (acc := fun t => (Xd + t * XO, Yd + t * (mg * OS))).
  apply wp_bind, wp_bind. apply (wp_fold_range (fun n a m' => a = acc (n * group) /\ running m' /\ tiles_hold (n * group) (dram m'))).
  - split_and!; [unfold acc; f_equal; ring|split_and!; [done..|rewrite Hm; apply mem_differ_refl]|]. intros n' g' i h w Hn' Hg'. nia.
  - intros n a m1 Hn (-> & Hrun1 & Ht1). apply wp_bind.
    apply (wp_fold_range (fun g a m' => a = acc (n * group + g) /\ running m' /\ tiles_hold (n * group + g) (dram m'))).
    + by rewrite Z.add_0_r.
    + intros g a m2 Hg (-> & Hrun2 & Ht2). apply wp_bind, wp_tile; [done..|]. intros m3 Hrun3 Ht3. apply wp_ret.
      split_and!; [unfold acc; f_equal; ring|done|]. by rewrite Z.add_assoc.
    + intros a m2 (-> & Hrun2 & Ht2). rewrite Z.max_r in * by lia. apply wp_bind, wp_check; [lia|]. apply wp_ret.
      replace ((n + 1) * group) with (n * group + group) by ring. done.
  - intros a m1 (-> & Hrun1 & Ht1). rewrite Z.max_r in * by lia. apply wp_bind, wp_check; [lia|]. by apply wp_ret, wp_ret, HQ.
Qed.
End run.
End nchw_kernel.
