(* ===== verification/NchwSpec.v ===== *)
(** * NchwSpec: [QLinearConv::Compute] is a grouped convolution

    The whole NCHW kernel on two-dimensional images, and its agreement with the NHWC
    kernel: on the same image, weights and bias, each in its own layout, both store
    the same numbers. *)

From S2P Require Import Prelude Effects Float32 Params State Dram Fill Scaling Norm Config Move MoveSpec Compute LoopWs LoopConv Counters Dispatch Invariant Isa IsaSpec Issue LoopWsSpec MatmulCpu MatmulCpuSpec Matmul MatmulSpec Resadd ResaddSpec MatmulWsSpec ConvCpu ConvCpuSpec Conv Systolic SystolicSpec StridedSpec Tensor Buffer ConvHelper ConvHelperSpec Regions ConvAttributes Im2col Im2colSpec QLinearConv ConvCallSpec QLinearConvSpec ConvPathSpec NhwcSpec NchwImageSpec.

Section call.
Context {mem : Type} `{MmuLaws mem} `{Rand} `{!EigenCols mem}.
Context (k : conv_kernel) (c : conv_context) (p : patch_args) (N mg : Z) (scale : float32).
Implicit Types (d : mem) (m : machine mem).
Notation attrs := (ck_conv_attrs_ k).
Notation group := (ca_group (ck_conv_attrs_ k)).
Notation cg := (pt_channels p).
Notation M := (group * mg).
Notation kh := (pt_kernel_h p).
Notation kw := (pt_kernel_w p).
Notation OS := (height_col p * width_col p).
Notation K := (cg * (kh * kw)).

Definition nchw_dims : shape := [N; M; height_col p; width_col p].
Definition nchw_in_place : bool := (kh * kw =? 1) && HasStridesOneAndNoPadding attrs.
Definition nchw_col : Z := if nchw_in_place then 0 else cx_alloc c (K * OS).
Notation Yd := (cx_output c nchw_dims).
Notation Xd := (t_data (cx_X c)).
Notation Wd := (t_data (cx_W c)).
Notation Bd := (bias_data (cx_B c)).

Record nchw_call d : Prop := {
  ca_X : t_shape (cx_X c) = [N; group * cg; pt_height p; pt_width p];
  ca_W : t_shape (cx_W c) = [M; cg; kh; kw];
  ca_B : match cx_B c with Some b => t_shape b = [M] | None => True end;
  ca_attrs : attrs_ok attrs p N M;
  ca_zero_points : zero_point_ok d (cx_X_zero_point c) /\ zero_point_ok d (cx_W_zero_point c) /\ zero_point_ok d (cx_Y_zero_point c);
  ca_scales : scale_ok d (cx_X_scale c) /\ scale_ok d (cx_W_scale c) /\ scale_ok d (cx_Y_scale c);
  ca_scale : scale = f32_div (f32_mul (float_at d (cx_X_scale c)) (float_at d (cx_W_scale c))) (float_at d (cx_Y_scale c));
  ca_sizes : 1 <= N /\ M < 2 ^ 31 /\ N * (M * OS) < 2 ^ 63 /\ M * K < 2 ^ 63;
  ca_ready : nchw_images_ready k c p N mg Xd Wd Bd Yd nchw_col scale d }.

Section run.
Context (d : mem) (Hc : nchw_call d).

Lemma nchw_bounds : 1 <= N /\ 1 <= M /\ 1 <= group /\ 1 <= mg /\ 1 <= cg /\ 1 <= kh < 2 ^ 31 /\ 1 <= kw < 2 ^ 31 /\ 1 <= height_col p < 2 ^ 31 /\
  1 <= width_col p < 2 ^ 31 /\ 1 <= pt_height p < 2 ^ 31 /\ 1 <= pt_width p < 2 ^ 31.
Proof.
  pose proof (ca_ready d Hc) as Hr. pose proof (nchw_sizes_pos _ _ _ _ _ _ _ _ _ _ _ d Hr) as (? & ? & ? & ? & ? & ? & ? & ? & _).
  destruct (ni_sizes _ _ _ _ _ _ _ _ _ _ _ d Hr) as (? & ? & ? & HK & HO & _), (ni_image _ _ _ _ _ _ _ _ _ _ _ d Hr), (ca_sizes d Hc) as (? & _).
  pose proof (ni_patch _ _ _ _ _ _ _ _ _ _ _ d Hr) as Hp. destruct (im_pads _ _ Hp) as (? & ? & ? & ?), (im_steps _ _ Hp) as (? & ? & _), (im_fits_h _ _ Hp), (im_fits_w _ _ Hp).
  pose proof (mul_pos kh kw ltac:(lia) ltac:(lia)). pose proof (le_mul_r (kh * kw) cg ltac:(lia) ltac:(lia)).
  pose proof (le_mul_l kh kw ltac:(lia) ltac:(lia)). pose proof (le_mul_r kw kh ltac:(lia) ltac:(lia)).
  pose proof (le_mul_l (height_col p) (width_col p) ltac:(lia) ltac:(lia)). pose proof (le_mul_r (width_col p) (height_col p) ltac:(lia) ltac:(lia)). lia.
Qed.

Lemma nchw_in_place_pointwise : nchw_in_place = true -> pointwise_patch p.
Proof. destruct nchw_bounds as (_ & _ & _ & _ & _ & ? & ? & _). apply (in_place_attrs attrs p N M); [apply Hc|lia|lia]. Qed.

Lemma wp_nchw_run Q m : get_accelerator_mode (ck_accelerator_mode k) <> T_OS -> ready m -> acc_act (st (gs m)) <> SOFTMAX -> dram m = d ->
  (forall m', mem_differ (in_regions (nchw_written k c p N mg Bd Yd nchw_col)) d (dram m') ->
     tiles_hold k p mg Xd Wd Bd Yd scale d (N * group) (dram m') -> Q StatusOK m') ->
  wp (nchw_run k c N (group * cg) M 0 scale [pt_height p; pt_width p] (patch_shape p N M)) Q m.
Proof.
  intros Hmode Hrd Hact Hm HQ. pose proof (ca_ready d Hc) as Hr. destruct nchw_bounds as (? & ? & ? & ? & ? & ? & ? & ? & ? & ? & ?), (ca_sizes d Hc) as (_ & HM & Hsz & HMK).
  unfold nchw_run. cbn [patch_shape cs_Y_dims cs_kernel_shape t_shape t_data]. unfold Slice. apply wp_bind, wp_bind, wp_enforce; [done|]. apply wp_ret.
  cbn [length take drop Nat.sub]. apply wp_bind, wp_Size_quad; [lia..|]. pose proof (mul_pos OS M) as HOM.
  pose proof (mul_pos (height_col p) (width_col p) ltac:(lia) ltac:(lia)). pose proof (mul_pos M OS ltac:(lia) ltac:(lia)). pose proof (mul_pos N (M * OS) ltac:(lia) ltac:(lia)).
  assert ((N * (M * OS) =? 0) = false) as -> by lia. apply wp_bind, wp_Size_pair; [lia..|]. apply wp_bind, wp_Size_pair; [lia..|].
  apply wp_bind, wp_Size_pair; [lia..|]. wp_get. rewrite (ca_W d Hc). apply wp_bind, wp_Size_quad; [lia..|].
  apply wp_bind, wp_check; [lia|]. fold nchw_dims.
  rewrite (Z.mul_comm group cg), Z.quot_mul by lia.
  assert (wp (if negb (kh * kw =? 1) || negb (HasStridesOneAndNoPadding attrs)
    then enforce ((0 <=? K * OS) && (K * OS <? 2 ^ 64)) ;; mret (cx_alloc c (K * OS)) else mret 0) (fun v m' => v = nchw_col /\ m' = m) m) as Hbuf.
  { rewrite <- negb_andb. fold nchw_in_place. unfold nchw_col. destruct nchw_in_place; cbn [negb]; [by apply wp_ret|].
    apply wp_bind, wp_enforce; [|by apply wp_ret]. destruct (ni_sizes _ _ _ _ _ _ _ _ _ _ _ d Hr) as (_ & _ & _ & HK & HO & _).
    pose proof (mul_pos kh kw ltac:(lia) ltac:(lia)). pose proof (mul_pos cg (kh * kw) ltac:(lia) ltac:(lia)).
    assert (K * OS <= 2 ^ 30 * 2 ^ 30) by (apply Z.mul_le_mono_nonneg; lia). lia. }
  apply wp_bind. eapply wp_mono; [exact Hbuf|]. intros v m' [-> ->].
  replace (Z.quot (Z.quot (N * (M * OS)) N) group) with (mg * OS).
  2: { rewrite (Z.mul_comm N), Z.quot_mul by lia. replace (M * OS) with (mg * OS * group) by ring. by rewrite Z.quot_mul by lia. }
  replace (Z.quot (M * K) group) with (mg * K) by (replace (M * K) with (mg * K * group) by ring; by rewrite Z.quot_mul by lia).
  replace (Z.quot M group) with mg by (rewrite Z.mul_comm, Z.quot_mul; lia).
  apply wp_bind. apply (wp_nchw_images k c p N mg Xd Wd Bd Yd nchw_col scale d Hr); [done| |done..|].
  - intros m1. rewrite Z.quot_mul by lia. apply patch_of_shape.
  - intros m1 (_ & _ & Hd1) Ht. apply wp_ret. by apply HQ.
Qed.

Lemma wp_QLinearConv Q m : get_accelerator_mode (ck_accelerator_mode k) <> T_OS -> ready m -> acc_act (st (gs m)) <> SOFTMAX -> dram m = d ->
  (forall m', mem_differ (in_regions (nchw_written k c p N mg Bd Yd nchw_col)) d (dram m') ->
     tiles_hold k p mg Xd Wd Bd Yd scale d (N * group) (dram m') -> Q StatusOK m') ->
  wp (QLinearConv_Compute k c) Q m.
Proof.
  intros Hmode Hrd Hact Hm HQ. destruct nchw_bounds as (? & ? & ? & ? & ? & ? & ? & ? & ? & ? & ?), (ca_sizes d Hc) as (_ & HM & _).
  unfold QLinearConv_Compute. apply wp_bind, (wp_validate_zero_points d); [apply Hc|done|].
  apply wp_bind, (wp_validate_scales d); [apply Hc|done|]. rewrite <- (ca_scale d Hc).
  rewrite (ca_X d Hc), (ca_W d Hc). do 3 wp_get. apply wp_bind. unfold ValidateInputShape. cbn [length Nat.eqb negb].
  do 3 wp_get. rewrite (Z.mul_comm group cg), Z.eqb_refl. cbn [negb]. apply wp_bind, wp_check; [lia|].
  rewrite (Z.mul_comm group mg), Z.rem_mul, (Z.mul_comm mg group), (Z.mul_comm cg group) by lia. cbn [Z.eqb negb]. apply wp_ret.
  rewrite bool_decide_true by done. cbn [negb]. apply wp_bind, wp_validate_bias; [apply Hc|lia|].
  unfold return_if_error. apply wp_bind, (wp_kernel_shape attrs p N M); [apply Hc|].
  unfold Slice. apply wp_bind, wp_bind, wp_enforce; [done|]. apply wp_ret. cbn [length take drop Nat.sub].
  apply wp_bind, (wp_infer_conv attrs p N M 1); [apply Hc|apply (ca_ready d Hc)|]. by apply wp_nchw_run.
Qed.
End run.

(** C5: the NCHW kernel.  In CPU and in weight-stationary mode, for any number of groups,
    any strides, padding and dilation of a two-dimensional convolution, the kernel
    validates its inputs, infers the shapes and returns [OK]; every output element then
    holds the scaled, saturated and (if fused) rectified 32-bit sum of the bias and, over
    the channels of its group and the kernel, of the products of weights and image, with
    zero outside of the image; only the output, the column buffer and the matrix of
    biases change. *)
Theorem qlinearconv_correct m : nchw_call (dram m) -> get_accelerator_mode (ck_accelerator_mode k) <> T_OS -> ready m ->
  acc_act (st (gs m)) <> SOFTMAX ->
  wp (QLinearConv_Compute k c) (fun status m' => status = StatusOK /\
    (forall n g i h w, 0 <= n < N -> 0 <= g < group -> 0 <= i < mg -> 0 <= h < height_col p -> 0 <= w < width_col p ->
       mem_int 1 (dram m') (Yd + nchw_y_offset k p mg n (g * mg + i) h w) = s8 (default 0 (oihw_value k p mg Xd Wd Bd scale (dram m) n g i h w))) /\
    mem_differ (in_regions (nchw_written k c p N mg Bd Yd nchw_col)) (dram m) (dram m')) m.
Proof.
  intros Hc Hmode Hrd Hact. apply (wp_QLinearConv (dram m) Hc); [done..|]. intros m' Hd Ht. split_and!; [done| |done].
  intros n g i h w Hn Hg Hi Hh Hw. apply Ht; try done; [lia|]. by apply radix_bound.
Qed.
End call.

(** ** Witness: two groups with a bias, on the accelerator *)

Definition group_patch : patch_args := {|
  pt_channels := 1; pt_height := 2; pt_width := 2; pt_kernel_h := 2; pt_kernel_w := 2; pt_dilation_h := 1; pt_dilation_w := 1;
  pt_pad_t := 1; pt_pad_l := 1; pt_pad_b := 1; pt_pad_r := 1; pt_stride_h := 1; pt_stride_w := 1 |}.

Definition nchw_context : conv_context :=
  let at_ s a := {| t_shape := s; t_data := a |} in
  {| cx_X := at_ [1; 2; 2; 2] 0x1001; cx_X_scale := at_ [] 0x103c; cx_X_zero_point := at_ [] 0x1000;
     cx_W := at_ [2; 1; 2; 2] 0x1010; cx_W_scale := at_ [] 0x103c; cx_W_zero_point := at_ [1] 0x1000;
     cx_Y_scale := at_ [] 0x103c; cx_Y_zero_point := at_ [] 0x1000; cx_B := Some (at_ [2] 0x1020);
     cx_output := fun _ => 0x1080; cx_pre_pool := fun _ => 0; cx_alloc := fun _ => 0x10a0; cx_new_int := fun _ => 0x10c8 |}.

Lemma demo_readable size a : 0x1000 <= a -> a + size <= 0x1100 -> mem_readable size (dram demo) a.
Proof. intros Ha Hs. apply flat_mem_readable; simpl; lia. Qed.
Lemma demo_writable size a : 0x1000 <= a -> a + size <= 0x1100 -> mem_writable size (dram demo) a.
Proof. intros Ha Hs. apply flat_mem_writable; simpl; lia. Qed.

Lemma nchw_images_demo : nchw_images_ready small_kernel nchw_context group_patch 1 1 0x1001 0x1010 0x1020 0x1080 0x10a0 small_scale (dram demo).
Proof.
  split.
  - split; by vm_compute.
  - by vm_compute.
  - by vm_compute.
  - repeat apply Forall_cons_2; try apply Forall_nil_2; by vm_compute.
  - repeat apply Forall_cons_2; try apply Forall_nil_2; vm_compute; intuition discriminate.
  - split; repeat apply Forall_cons_2; try apply Forall_nil_2; vm_compute; intuition discriminate.
  - repeat apply Forall_cons_2; try apply Forall_nil_2; apply demo_readable; by vm_compute.
  - repeat apply Forall_cons_2; try apply Forall_nil_2; apply demo_writable; by vm_compute.
  - done.
  - by vm_compute.
  - intros n g i h w Hn Hg Hi Hh Hw.
    replace n with 0 by lia.
    apply (by_evaluation (fun e : pos4 => is_Some (oihw_value small_kernel group_patch 1 0x1001 0x1010 0x1020 small_scale (dram demo) 0 e.1.1 e.1.2 e.2.1 e.2.2))
      (fun e : pos4 => defined (oihw_value small_kernel group_patch 1 0x1001 0x1010 0x1020 small_scale (dram demo) 0 e.1.1 e.1.2 e.2.1 e.2.2)) (quads 2 1 3 3)
      ltac:(intros e; apply defined_is_Some) ltac:(by vm_compute) ((g, i), (h, w))).
    rewrite elem_of_quads, !elem_of_pairs. done.
Qed.

Lemma nchw_call_demo : nchw_call small_kernel nchw_context group_patch 1 1 small_scale (dram demo).
Proof.
  split; try done.
  - unfold zero_point_ok, scalar_ok. split_and!; first [apply demo_readable; simpl; lia | by vm_compute].
  - unfold scale_ok, scalar_ok. split_and!; first [apply demo_readable; simpl; lia | by vm_compute].
  - apply nchw_images_demo.
Qed.

Lemma qlinearconv_correct_witness :
  wp (QLinearConv_Compute (H0 := zero_rand) small_kernel nchw_context) (fun status m' => status = StatusOK /\
    mem_int 1 (dram m') (0x1080 + 9) = 127) demo.
Proof.
  eapply wp_mono; [apply (qlinearconv_correct (H1 := zero_rand) small_kernel nchw_context group_patch 1 1 small_scale demo
    nchw_call_demo ltac:(done) demo_ready ltac:(done))|].
  intros status m' (-> & Hv & _). split; [done|].
  etransitivity; [exact (Hv 0 1 0 0 0 ltac:(done) ltac:(done) ltac:(done) ltac:(done) ltac:(done))|]. by vm_compute.
Defined.
