(* ===== verification/LayoutSpec.v ===== *)
(** * LayoutSpec: the NHWC and the NCHW kernel compute the same convolution

    The transformation of the graph to NHWC replaces one kernel by the other and
    reorders the weights.  On an image, weights and a bias that hold the same numbers
    in the two layouts, the kernels store the same numbers. *)

From S2P Require Import Prelude Effects Float32 Params State Dram Fill Scaling Norm Config Move MoveSpec Compute LoopWs LoopConv Counters Dispatch Invariant Isa IsaSpec Issue LoopWsSpec MatmulCpu MatmulCpuSpec Matmul MatmulSpec Resadd ResaddSpec MatmulWsSpec ConvCpu ConvCpuSpec Conv Systolic SystolicSpec StridedSpec Tensor Buffer ConvHelper ConvHelperSpec Regions ConvAttributes Im2col Im2colSpec QLinearConv ConvCallSpec QLinearConvSpec ConvPathSpec NhwcSpec NchwImageSpec NchwSpec.

Lemma Zsum_swap f n k : Zsum (fun a => Zsum (fun b => f a b) k) n = Zsum (fun b => Zsum (fun a => f a b) n) k.
Proof.
  unfold Zsum at 1 4. induction (Z.to_nat n) as [|i IH]; cbn [sum_nat].
  - symmetry. by apply Zsum_zero.
  - rewrite IH, <- Zsum_add. done.
Qed.

(** The geometry for another number of channels. *)
Definition with_channels (p : patch_args) (n : Z) : patch_args := {|
  pt_channels := n; pt_height := pt_height p; pt_width := pt_width p; pt_kernel_h := pt_kernel_h p; pt_kernel_w := pt_kernel_w p;
  pt_dilation_h := pt_dilation_h p; pt_dilation_w := pt_dilation_w p; pt_pad_t := pt_pad_t p; pt_pad_l := pt_pad_l p;
  pt_pad_b := pt_pad_b p; pt_pad_r := pt_pad_r p; pt_stride_h := pt_stride_h p; pt_stride_w := pt_stride_w p |}.

Section agree.
Context {mem : Type} `{MmuLaws mem} `{Rand} `{!EigenCols mem}.
Context (k1 k2 : conv_kernel) (c1 c2 : conv_context) (p : patch_args) (N mg cg : Z) (scale : float32).
Implicit Types (d : mem) (m : machine mem).
Notation group := (ca_group (ck_conv_attrs_ k1)).
Notation p1 := (with_channels p (group * cg)).
Notation p2 := (with_channels p cg).
Notation kh := (pt_kernel_h p).
Notation kw := (pt_kernel_w p).
Notation M := (group * mg).

(** The same numbers: the image in NHWC and in NCHW order, the weights in HWIO and in
    OIHW order, the bias. *)
Record same_data (X1 W1 B1 X2 W2 B2 : Z) d : Prop := {
  sm_image n g ch h w : 0 <= n < N -> 0 <= g < group -> 0 <= ch < cg -> 0 <= h < pt_height p -> 0 <= w < pt_width p ->
    mem_int 1 d (X1 + (((n * pt_height p + h) * pt_width p + w) * (group * cg) + (g * cg + ch))) =
    mem_int 1 d (X2 + (((n * (group * cg) + (g * cg + ch)) * pt_height p + h) * pt_width p + w));
  sm_weights r s ch o : 0 <= r < kh -> 0 <= s < kw -> 0 <= ch < cg -> 0 <= o < M ->
    mem_int 1 d (W1 + (((r * kw + s) * cg + ch) * M + o)) = mem_int 1 d (W2 + (((o * cg + ch) * kh + r) * kw + s));
  sm_bias : (B1 = 0 <-> B2 = 0) /\ forall o, B1 <> 0 -> 0 <= o < M -> mem_int 4 d (B1 + o * 4) = mem_int 4 d (B2 + o * 4) }.

Context (Hgroup : ca_group (ck_conv_attrs_ k2) = group) (Hrelu : ck_fused_relu_ k2 = ck_fused_relu_ k1) (Hmg : 1 <= mg) (Hgp : 1 <= group).

Lemma layout_channels : group_channels p1 group = cg.
Proof. unfold group_channels. cbn [with_channels pt_channels]. rewrite Z.mul_comm, Z.quot_mul; lia. Qed.

Lemma layout_patch X1 W1 B1 X2 W2 B2 d n g ch r s h w : same_data X1 W1 B1 X2 W2 B2 d -> 0 <= n < N -> 0 <= g < group -> 0 <= ch < cg ->
  patch_value p1 (X1 + n * (pt_height p * pt_width p * (group * cg))) group 0 d h w g r s ch =
  nchw_value p2 (X2 + (n * group + g) * (cg * (pt_height p * pt_width p))) 0 d ch r s h w.
Proof.
  intros Hs Hn Hg Hch. unfold patch_value, nchw_value. rewrite layout_channels. cbn [with_channels pt_height pt_width].
  change (tap_row p1) with (tap_row p2). change (tap_col p1) with (tap_col p2).
  destruct (inside _ _ && inside _ _) eqn:E; [|done]. unfold inside in E.
  unfold im_offset, nchw_pixel. cbn [with_channels pt_height pt_width pt_channels].
  etransitivity; [|etransitivity; [apply (sm_image _ _ _ _ _ _ d Hs n g ch (tap_row p2 h r) (tap_col p2 w s)); lia|]]; f_equal; ring.
Qed.

Lemma layout_value X1 W1 B1 X2 W2 B2 d n g i h w : same_data X1 W1 B1 X2 W2 B2 d -> 0 <= n < N -> 0 <= g < group -> 0 <= i < mg ->
  qconv_value k1 p1 mg X1 W1 B1 scale d n h w (g * mg + i) = oihw_value k2 p2 mg X2 W2 B2 scale d n g i h w.
Proof.
  intros Hs Hn Hg Hi. pose proof (radix_bound g i group mg Hg Hi) as Ho. unfold qconv_value, oihw_value. rewrite Hrelu. f_equal.
  unfold qconv_sum, oihw_sum. rewrite layout_channels, Hgroup, radix_div by done. cbn [with_channels pt_height pt_width pt_channels pt_kernel_h pt_kernel_w].
  f_equal. f_equal.
  - destruct (sm_bias _ _ _ _ _ _ d Hs) as [[Ha Hb] Hv]. destruct (Z.eqb_spec B1 0) as [E|E], (Z.eqb_spec B2 0) as [E'|E']; [done|tauto|tauto|by apply Hv].
  - etransitivity; [apply Zsum_ext; intros r Hr; apply Zsum_swap|]. etransitivity; [apply Zsum_swap|].
    apply Zsum_ext. intros ch Hch. apply Zsum_ext. intros r Hr. apply Zsum_ext. intros s Hs'. rewrite Z.mul_comm. f_equal.
    + etransitivity; [apply (sm_weights _ _ _ _ _ _ d Hs); done|]. done.
    + by eapply layout_patch.
Qed.

Notation Y1 := (cx_output c1 (nhwc_dims k1 p1 N mg)).
Notation Y2 := (cx_output c2 (nchw_dims k2 p2 N mg)).

(** C6: the two kernels agree.  Run on the same memory, on a convolution without
    fused pooling, the NHWC and the NCHW kernel both return [OK], and every output element
    is the same number in the two layouts.  Each kernel is in CPU or weight-stationary
    mode and multiplies columns or, for a 1 x 1 kernel, its input in place; the NHWC
    kernel may also call the provider's convolution routine if it is in CPU mode.  The
    one path left out is that routine in weight-stationary mode (square ungrouped
    convolutions of the NHWC kernel). *)
Theorem conv_layouts_agree m : nhwc_call k1 c1 p1 N mg scale (dram m) -> nchw_call k2 c2 p2 N mg scale (dram m) ->
  same_data (t_data (cx_X c1)) (t_data (cx_W c1)) (bias_data (cx_B c1)) (t_data (cx_X c2)) (t_data (cx_W c2)) (bias_data (cx_B c2)) (dram m) ->
  get_accelerator_mode (ck_accelerator_mode k1) <> T_OS -> get_accelerator_mode (ck_accelerator_mode k2) <> T_OS ->
  ready m -> acc_act (st (gs m)) <> SOFTMAX -> (nhwc_in_place k1 p1 = false -> nhwc_col k1 c1 p1 <> 0) ->
  (systolic_able k1 p1 = true -> get_accelerator_mode (ck_accelerator_mode k1) = T_CPU /\ int_offsets p1 N mg Y1) ->
  wp (QLinearConv_nhwc_Compute k1 c1) (fun status1 m1 =>
    wp (QLinearConv_Compute k2 c2) (fun status2 m2 => status1 = StatusOK /\ status2 = StatusOK /\
      forall n h w o, 0 <= n < N -> 0 <= h < height_col p -> 0 <= w < width_col p -> 0 <= o < M ->
        mem_int 1 (dram m1) (Y1 + y_offset k1 p1 mg n h w o) = mem_int 1 (dram m2) (Y2 + nchw_y_offset k2 p2 mg n o h w)) m) m.
Proof.
  intros Hc1 Hc2 Hs Hm1 Hm2 Hrd Hact Hcol Hable. apply (wp_QLinearConv_nhwc k1 c1 p1 N mg scale (dram m) Hc1); [done..|]. intros m1 _ Ho1.
  apply (wp_QLinearConv k2 c2 p2 N mg scale (dram m) Hc2); [done..|]. intros m2 _ Ho2. split_and!; [done..|]. intros n h w o Hn Hh Hw Ho.
  rewrite Ho1 by done. destruct (radix_split o group mg Hmg Ho) as [Hg Hi]. set (g := o / mg) in *.
  replace o with (g * mg + (o - g * mg)) by lia. rewrite (layout_value _ _ _ _ _ _ _ _ _ _ _ _ Hs) by (done || lia). symmetry.
  apply Ho2; rewrite ?Hgroup; try done; [lia|by apply radix_bound|lia].
Qed.
End agree.

(** ** Witness: four channels in two groups, a 2 x 1 kernel on a 2 x 2 image *)

Definition twin_patch : patch_args := {|
  pt_channels := 0; pt_height := 2; pt_width := 2; pt_kernel_h := 2; pt_kernel_w := 1; pt_dilation_h := 1; pt_dilation_w := 1;
  pt_pad_t := 1; pt_pad_l := 0; pt_pad_b := 0; pt_pad_r := 0; pt_stride_h := 1; pt_stride_w := 1 |}.
Definition twin_kernel : conv_kernel := {|
  ck_conv_attrs_ := plain_attrs 2 [1; 1] [1; 0; 0; 0]; ck_pool_attrs_ := no_pool; ck_fused_relu_ := false; ck_accelerator_mode := 2 |}.

(** Each number is in memory twice: the image in NHWC order at 0x1010 and in NCHW order
    at 0x1020, the weights in HWIO order at 0x1030 and in OIHW order at 0x1038. *)
Definition twin_pixel (ch pos : Z) : Z := (3 * ch + 5 * pos - 9) mod 256.
Definition twin_weight (o ch r : Z) : Z := (2 * o - 3 * ch + r) mod 256.
Definition twin_bytes : list Z := Eval vm_compute in
  replicate 16 0 ++ ((fun q => twin_pixel q.2 q.1) <$> pairs 4 4) ++ ((fun q => twin_pixel q.1 q.2) <$> pairs 4 4) ++
  ((fun q => twin_weight q.2 (q.1 mod 2) (q.1 / 2)) <$> pairs 4 2) ++ ((fun q => twin_weight (q.1 / 2) (q.1 mod 2) q.2) <$> pairs 4 2) ++
  [5; 0; 0; 0; 251; 255; 255; 255] ++ [0x3c; 0x3d; 0x3e; 0x3f] ++ replicate 180 0.
Definition twin : machine flat_mem := Machine demo_state (flat_fill 0x1000 twin_bytes flat_empty) 0.

Definition twin_context (X W : Tensor) (Y : Z) : conv_context :=
  let at_ s a := {| t_shape := s; t_data := a |} in
  {| cx_X := X; cx_X_scale := at_ [] 0x1048; cx_X_zero_point := at_ [] 0x1000;
     cx_W := W; cx_W_scale := at_ [] 0x1048; cx_W_zero_point := at_ [1] 0x1000;
     cx_Y_scale := at_ [] 0x1048; cx_Y_zero_point := at_ [] 0x1000; cx_B := Some (at_ [2] 0x1040);
     cx_output := fun _ => Y; cx_pre_pool := fun _ => 0; cx_alloc := fun _ => 0x10a0; cx_new_int := fun _ => 0x10c8 |}.

Notation twin_nhwc := (twin_context {| t_shape := [1; 2; 2; 4]; t_data := 0x1010 |} {| t_shape := [2; 1; 2; 2]; t_data := 0x1030 |} 0x1080).
Notation twin_nchw := (twin_context {| t_shape := [1; 4; 2; 2]; t_data := 0x1020 |} {| t_shape := [2; 2; 2; 1]; t_data := 0x1038 |} 0x1090).
Notation twin_p1 := (with_channels twin_patch (2 * 2)).
Notation twin_p2 := (with_channels twin_patch 2).

Lemma twin_length : Z.of_nat (length twin_bytes) = 256.
Proof. by vm_compute. Qed.
Lemma twin_readable size a : 0x1000 <= a -> a + size <= 0x1100 -> mem_readable size (dram twin) a.
Proof. intros Ha Hs. apply flat_mem_readable; rewrite ?twin_length; lia. Qed.
Lemma twin_writable size a : 0x1000 <= a -> a + size <= 0x1100 -> mem_writable size (dram twin) a.
Proof. intros Ha Hs. apply flat_mem_writable; rewrite ?twin_length; lia. Qed.
Lemma twin_ready : ready twin.
Proof. split; [exact (proj1 demo_ready : wf demo_state)|done]. Qed.

Lemma twin_nhwc_ready : nhwc_ready twin_kernel twin_p1 1 1 0x1010 0x1030 0x1040 0x1080 0x10a0 small_scale (dram twin).
Proof.
  split; try done.
  - by right.
  - intros _. vm_compute. intuition discriminate.
  - intros size a [o Ho|o Ho|o _ Ho]; [pose proof (Z.lt_le_trans o _ 16 (proj2 Ho) ltac:(by vm_compute))|
      pose proof (Z.lt_le_trans o _ 8 (proj2 Ho) ltac:(by vm_compute))|pose proof (Z.lt_le_trans o _ 2 (proj2 Ho) ltac:(by vm_compute))]; apply twin_readable; lia.
  - intros o Ho. pose proof (Z.lt_le_trans o _ 8 (proj2 Ho) ltac:(by vm_compute)). apply twin_writable; lia.
  - intros o _ Ho. pose proof (Z.lt_le_trans o _ 32 (proj2 Ho) ltac:(by vm_compute)). split; [apply twin_writable|apply twin_readable]; lia.
  - vm_compute. intuition discriminate.
  - intros _. vm_compute. intuition discriminate.
  - intros n h w ch Hn Hh Hw Hch.
    apply (by_evaluation (fun e : pos4 => is_Some (qconv_value twin_kernel twin_p1 1 0x1010 0x1030 0x1040 small_scale (dram twin) e.1.1 e.1.2 e.2.1 e.2.2))
      (fun e : pos4 => defined (qconv_value twin_kernel twin_p1 1 0x1010 0x1030 0x1040 small_scale (dram twin) e.1.1 e.1.2 e.2.1 e.2.2)) (quads 1 2 2 2)
      ltac:(intros e; apply defined_is_Some) ltac:(by vm_compute) ((n, h), (w, ch))).
    rewrite elem_of_quads, !elem_of_pairs. done.
Qed.

Lemma twin_scalars : (zero_point_ok (dram twin) (cx_X_zero_point twin_nhwc) /\ zero_point_ok (dram twin) (cx_W_zero_point twin_nhwc) /\
    zero_point_ok (dram twin) (cx_Y_zero_point twin_nhwc)) /\
  scale_ok (dram twin) (cx_X_scale twin_nhwc) /\ scale_ok (dram twin) (cx_W_scale twin_nhwc) /\ scale_ok (dram twin) (cx_Y_scale twin_nhwc).
Proof. unfold zero_point_ok, scale_ok, scalar_ok. split_and!; first [apply twin_readable; simpl; lia | by vm_compute]. Qed.

Lemma twin_nhwc_call : nhwc_call twin_kernel twin_nhwc twin_p1 1 1 small_scale (dram twin).
Proof. split; [done|done|done|split; by vm_compute|apply twin_scalars|apply twin_scalars|by vm_compute|by vm_compute|done|apply twin_nhwc_ready]. Qed.

Lemma twin_nchw_ready : nchw_images_ready twin_kernel twin_nchw twin_p2 1 1 0x1020 0x1038 0x1040 0x1090 0x10a0 small_scale (dram twin).
Proof.
  split.
  - split; by vm_compute.
  - by vm_compute.
  - by vm_compute.
  - repeat apply Forall_cons_2; try apply Forall_nil_2; by vm_compute.
  - repeat apply Forall_cons_2; try apply Forall_nil_2; vm_compute; intuition discriminate.
  - split; repeat apply Forall_cons_2; try apply Forall_nil_2; vm_compute; intuition discriminate.
  - repeat apply Forall_cons_2; try apply Forall_nil_2; apply twin_readable; by vm_compute.
  - repeat apply Forall_cons_2; try apply Forall_nil_2; apply twin_writable; by vm_compute.
  - done.
  - by vm_compute.
  - intros n g i h w Hn Hg Hi Hh Hw. replace n with 0 by lia.
    apply (by_evaluation (fun e : pos4 => is_Some (oihw_value twin_kernel twin_p2 1 0x1020 0x1038 0x1040 small_scale (dram twin) 0 e.1.1 e.1.2 e.2.1 e.2.2))
      (fun e : pos4 => defined (oihw_value twin_kernel twin_p2 1 0x1020 0x1038 0x1040 small_scale (dram twin) 0 e.1.1 e.1.2 e.2.1 e.2.2)) (quads 2 1 2 2)
      ltac:(intros e; apply defined_is_Some) ltac:(by vm_compute) ((g, i), (h, w))).
    rewrite elem_of_quads, !elem_of_pairs. done.
Qed.

Lemma twin_nchw_call : nchw_call twin_kernel twin_nchw twin_p2 1 1 small_scale (dram twin).
Proof. split; [done|done|done|split; by vm_compute|apply twin_scalars|apply twin_scalars|by vm_compute|by vm_compute|apply twin_nchw_ready]. Qed.

Lemma twin_same_data : same_data twin_kernel twin_patch 1 1 2 0x1010 0x1030 0x1040 0x1020 0x1038 0x1040 (dram twin).
Proof.
  split; [| |done].
  - intros n g ch h w Hn Hg Hch Hh Hw. replace n with 0 by lia. pose (img e := (mem_int 1 (dram twin) (0x1010 + ((e.2.1 * 2 + e.2.2) * 4 + (e.1.1 * 2 + e.1.2))),
      mem_int 1 (dram twin) (0x1020 + (((e.1.1 * 2 + e.1.2) * 2 + e.2.1) * 2 + e.2.2)))).
    apply (by_evaluation (fun e : pos4 => (img e).1 = (img e).2) (fun e => (img e).1 =? (img e).2) (quads 2 2 2 2)
      ltac:(intros e; apply Z.eqb_eq) ltac:(by vm_compute) ((g, ch), (h, w))). rewrite elem_of_quads, !elem_of_pairs. done.
  - intros r s ch o Hr Hs Hch Ho. pose (wgt e := (mem_int 1 (dram twin) (0x1030 + (((e.1.1 * 1 + e.1.2) * 2 + e.2.1) * 2 + e.2.2)),
      mem_int 1 (dram twin) (0x1038 + (((e.2.2 * 2 + e.2.1) * 2 + e.1.1) * 1 + e.1.2)))).
    apply (by_evaluation (fun e : pos4 => (wgt e).1 = (wgt e).2) (fun e => (wgt e).1 =? (wgt e).2) (quads 2 1 2 2)
      ltac:(intros e; apply Z.eqb_eq) ltac:(by vm_compute) ((r, s), (ch, o))). rewrite elem_of_quads, !elem_of_pairs. done.
Qed.

(** The second channel at the left of the second row: element 5 of one output, element 6
    of the other. *)
Lemma conv_layouts_agree_witness :
  wp (QLinearConv_nhwc_Compute (H0 := zero_rand) twin_kernel twin_nhwc) (fun _ m1 =>
    wp (QLinearConv_Compute (H0 := zero_rand) twin_kernel twin_nchw) (fun _ m2 =>
      mem_int 1 (dram m1) (0x1080 + 5) = mem_int 1 (dram m2) (0x1090 + 6)) twin) twin.
Proof.
  eapply wp_mono; [exact (conv_layouts_agree (H1 := zero_rand) twin_kernel twin_kernel twin_nhwc twin_nchw twin_patch 1 1 2 small_scale eq_refl eq_refl
    ltac:(lia) ltac:(by vm_compute) twin twin_nhwc_call twin_nchw_call twin_same_data ltac:(done) ltac:(done) twin_ready ltac:(done) ltac:(done) ltac:(done))|].
  intros s1 m1 Hm. cbv beta in Hm. refine (wp_mono _ _ _ _ Hm _). intros s2 m2 (_ & _ & Hv).
  exact (Hv 0 1 0 1 ltac:(clear; by vm_compute) ltac:(clear; by vm_compute) ltac:(clear; by vm_compute) ltac:(clear; by vm_compute)).
Defined.
