(* ===== verification/QLinearMatMul.v ===== *)
(** * QLinearMatMul: the quantized matrix product

    [MatMulComputeHelper] of providers/cpu/math/matmul_helper.h, which infers the shape
    of a product with broadcasting in the manner of numpy and lists the matrices to
    multiply, and [QLinearMatMul::Compute] of
    providers/systolic/math/quantize_linear_matmul.cc. *)

From S2P Require Import Prelude Effects Float32 Params State Dram Scaling Isa MatmulCpu Matmul ConvCpu Conv Systolic Tensor ConvHelper ConvAttributes Im2col QLinearConv.

(** The members of the helper that its users read. *)
Record matmul_helper := {
  mh_output_shape : shape; mh_M : Z; mh_N : Z; mh_K : Z;
  mh_left_offsets : list Z; mh_right_offsets : list Z; mh_output_offsets : list Z }.

(** [ORT_RETURN_IF_NOT(b, ...)] before the rest [k] of a function that returns a status. *)
Definition return_if_not {S A} (b : bool) (k : M S (result A)) : M S (result A) := if b then k else mret (Err FAIL).

Section helper.
Context {S : Type}.

(** [TensorShape::SizeToDimension(dimension)] *)
Definition SizeToDimension (s : shape) (dimension : nat) : M S Z :=
  enforce (dimension <=? length s)%nat ;; size_helper 1 (take dimension s).

(** [TensorShapeCopyDims(shape, &dims[at], num_dims)] *)
Definition TensorShapeCopyDims (s : shape) (dims : list Z) (at_ num_dims : nat) : M S (list Z) :=
  let n := Nat.min num_dims (length s) in
  check (at_ + n <=? length dims)%nat Undefined ;;
  mret (take at_ dims ++ take n s ++ drop (at_ + n) dims).

(** One broadcast dimension: of the operands and the result, with its stride in
    matrices. *)
Record broadcast_dim := {
  bd_left : Z; bd_right : Z; bd_output : Z; bd_left_stride : Z; bd_right_stride : Z; bd_output_stride : Z }.

(** The loop of [ComputeBroadcastOffsets] from the last dimension to the first. *)
Fixpoint broadcast_strides (left_padded_dims right_padded_dims : list Z) : list broadcast_dim :=
  match left_padded_dims, right_padded_dims with
  | l :: ls, r :: rs =>
      let dims := broadcast_strides ls rs in
      let stride f g := match dims with [] => 1 | b :: _ => f b * g b end in
      {| bd_left := l; bd_right := r; bd_output := Z.max l r;
         bd_left_stride := stride bd_left_stride bd_left; bd_right_stride := stride bd_right_stride bd_right;
         bd_output_stride := stride bd_output_stride bd_output |} :: dims
  | _, _ => []
  end.

(** The three vectors of offsets. *)
Definition offsets : Type := list Z * list Z * list Z.

Definition store_offsets (left_mat_size right_mat_size output_mat_size idx_left idx_right idx_out : Z) (v : offsets) : M S offsets :=
  let '(left_offsets, right_offsets, output_offsets) := v in
  left_offsets ← arr_set left_offsets idx_out (idx_left * left_mat_size);
  right_offsets ← arr_set right_offsets idx_out (idx_right * right_mat_size);
  output_offsets ← arr_set output_offsets idx_out (idx_out * output_mat_size);
  mret (left_offsets, right_offsets, output_offsets).

Fixpoint RecursiveFill (left_mat_size right_mat_size output_mat_size : Z) (dims : list broadcast_dim)
    (idx_left idx_right idx_out : Z) (v : offsets) : M S offsets :=
  match dims with
  | [] => store_offsets left_mat_size right_mat_size output_mat_size idx_left idx_right idx_out v
  | b :: dims' =>
      fold_int (bd_output b) (fun v i =>
        RecursiveFill left_mat_size right_mat_size output_mat_size dims'
          (idx_left + i * (if bd_left b =? 1 then 0 else bd_left_stride b))
          (idx_right + i * (if bd_right b =? 1 then 0 else bd_right_stride b))
          (idx_out + i * bd_output_stride b) v) v
  end.

(** [ComputeBroadcastOffsets]; [std::vector::resize] throws on a size above its maximum. *)
Definition ComputeBroadcastOffsets (left_padded_dims right_padded_dims : list Z) (M_ N_ K_ : Z) : M S offsets :=
  let num_broadcasted_dims := (length left_padded_dims - 2)%nat in
  match broadcast_strides (take num_broadcasted_dims left_padded_dims) (take num_broadcasted_dims right_padded_dims) with
  | [] => mret ([0], [0], [0])
  | (b :: _) as dims =>
      let num_offsets := bd_output b * bd_output_stride b in
      enforce ((0 <=? num_offsets) && (num_offsets <? 2 ^ 60)) ;;
      let zeros := replicate (Z.to_nat num_offsets) 0 in
      RecursiveFill (M_ * K_) (K_ * N_) (M_ * N_) dims 0 0 0 (zeros, zeros, zeros)
  end.

(** The padded dimensions. *)
Definition padded_dims (left_shape right_shape : shape) (transa : bool) : M S (list Z * list Z) :=
  let left_num_dims := length left_shape in
  let right_num_dims := length right_shape in
  let num_input_dims := Nat.max left_num_dims right_num_dims in
  let num_dims_with_pad := (num_input_dims + (if right_num_dims =? 1 then 1 else 0))%nat in
  let ones := replicate num_dims_with_pad 1 in
  let l := Z.of_nat left_num_dims in
  let n := Z.of_nat num_dims_with_pad in
  if (right_num_dims =? 1)%nat then
    r0 ← arr_get right_shape 0;
    right_padded_dims ← arr_set ones (n - 2) r0;
    if (2 <=? num_input_dims)%nat then
      left_padded_dims ← TensorShapeCopyDims left_shape ones 0 (left_num_dims - 2);
      v ← arr_get left_shape (if transa then l - 1 else l - 2);
      left_padded_dims ← arr_set left_padded_dims (n - 3) v;
      v ← arr_get left_shape (if transa then l - 2 else l - 1);
      left_padded_dims ← arr_set left_padded_dims (n - 1) v;
      mret (left_padded_dims, right_padded_dims)
    else
      left_padded_dims ← TensorShapeCopyDims left_shape ones (num_dims_with_pad - left_num_dims) left_num_dims;
      mret (left_padded_dims, right_padded_dims)
  else
    left_padded_dims ← TensorShapeCopyDims left_shape ones (num_dims_with_pad - left_num_dims) left_num_dims;
    right_padded_dims ← TensorShapeCopyDims right_shape ones (num_dims_with_pad - right_num_dims) right_num_dims;
    mret (left_padded_dims, right_padded_dims).

(** The broadcast of all output dimensions but the last two. *)
Fixpoint broadcast_dims (left_padded_dims right_padded_dims : list Z) : result (list Z) :=
  match left_padded_dims, right_padded_dims with
  | l :: ls, r :: rs =>
      let d := Z.max l r in
      if negb (l =? d) && negb (l =? 1) || negb (r =? d) && negb (r =? 1) then Err FAIL
      else match broadcast_dims ls rs with Val ds => Val (d :: ds) | Err e => Err e end
  | _, _ => Val []
  end.

(** The general case of [Compute]. *)
Definition helper_general (left_shape right_shape : shape) (transa transb : bool) : M S (result matmul_helper) :=
  let left_num_dims := length left_shape in
  let right_num_dims := length right_shape in
  let l := Z.of_nat left_num_dims in
  let r := Z.of_nat right_num_dims in
  let has_1D_input := ((left_num_dims =? 1) || (right_num_dims =? 1))%nat in
  let num_input_dims := Nat.max left_num_dims right_num_dims in
  let num_output_dims := (num_input_dims - (if has_1D_input then 1 else 0))%nat in
  padded ← padded_dims left_shape right_shape transa;
  let '(left_padded_dims, right_padded_dims) := padded in
  let num_dims_with_pad := length left_padded_dims in
  return_if_error Err (mret (broadcast_dims (take (num_dims_with_pad - 2) left_padded_dims) (take (num_dims_with_pad - 2) right_padded_dims)))
  (fun output_dims =>
    M_ ← (if has_1D_input then mret 1 else arr_get left_shape (if transa then l - 1 else l - 2));
    K_ ← arr_get left_shape (if transa then l - 2 else l - 1);
    N_ ← (if (right_num_dims =? 1)%nat then mret 1 else arr_get right_shape (if transb then r - 2 else r - 1));
    let finish output_dims :=
      v ← ComputeBroadcastOffsets left_padded_dims right_padded_dims M_ N_ K_;
      let '(left_offsets, right_offsets, output_offsets) := v in
      mret (Val {| mh_output_shape := output_dims; mh_M := M_; mh_N := N_; mh_K := K_;
                   mh_left_offsets := left_offsets; mh_right_offsets := right_offsets; mh_output_offsets := output_offsets |}) in
    if negb has_1D_input then
      k ← arr_get right_shape (if transb then r - 1 else r - 2);
      return_if_not (K_ =? k)
        (return_if_not (num_dims_with_pad =? num_output_dims)%nat (finish (output_dims ++ [M_; N_])))
    else if (num_output_dims =? 0)%nat then
      return_if_not ((M_ =? 1) && (N_ =? 1)) (finish [])
    else if (left_num_dims =? 1)%nat then
      return_if_not (num_dims_with_pad - 1 =? num_output_dims)%nat
        (k ← arr_get right_shape (if transb then r - 1 else r - 2);
         return_if_not (K_ =? k) (finish (output_dims ++ [N_])))
    else
      return_if_not (num_dims_with_pad - 2 =? num_output_dims)%nat
        (k ← arr_get right_shape 0;
         return_if_not (K_ =? k) (finish output_dims))).

(** The right operand is one matrix: the left one is flattened to two dimensions. *)
Definition helper_flat (left_shape right_shape : shape) (transb : bool) : M S (result matmul_helper) :=
  let l := Z.of_nat (length left_shape) in
  let r := Z.of_nat (length right_shape) in
  M_ ← SizeToDimension left_shape (length left_shape - 1);
  K_ ← arr_get left_shape (l - 1);
  N_ ← arr_get right_shape (if transb then r - 2 else r - 1);
  output_shape ← arr_set left_shape (l - 1) N_;
  k1 ← arr_get right_shape (r - 2);
  k2 ← arr_get right_shape (r - 1);
  return_if_not ((K_ =? k1) || transb && (K_ =? k2))
    (mret (Val {| mh_output_shape := output_shape; mh_M := M_; mh_N := N_; mh_K := K_;
                  mh_left_offsets := [0]; mh_right_offsets := [0]; mh_output_offsets := [0] |})).

(** [MatMulComputeHelper::Compute] *)
Definition helper_Compute (left_shape right_shape : shape) (transa transb : bool) : M S (result matmul_helper) :=
  let left_num_dims := length left_shape in
  let right_num_dims := length right_shape in
  return_if_not ((1 <=? left_num_dims) && (1 <=? right_num_dims))%nat
    (flat ← (if negb transa && (2 <=? left_num_dims)%nat && (2 <=? right_num_dims)%nat && (right_num_dims <=? left_num_dims)%nat
       then size ← SizeToDimension right_shape (right_num_dims - 1);
            k ← arr_get right_shape (Z.of_nat right_num_dims - 2);
            mret (size =? k)
       else mret false);
     if flat : bool then helper_flat left_shape right_shape transb else helper_general left_shape right_shape transa transb).
End helper.

(** ** The kernel *)

(** The inputs 0 to 7 of the node and the address of the output. *)
Record matmul_context := {
  mx_a : Tensor; mx_a_scale : Tensor; mx_a_offset : Tensor; mx_b : Tensor; mx_b_scale : Tensor; mx_b_offset : Tensor;
  mx_y_scale : Tensor; mx_y_offset : Tensor; mx_output : shape -> Z }.

Section kernel.
Context {mem : Type} `{Mmu mem} `{Rand}.

Definition QLinearMatMul_Compute (accelerator_mode : Z) (c : matmul_context) : M (machine mem) Status :=
  return_if_error id (helper_Compute (t_shape (mx_a c)) (t_shape (mx_b c)) false false) (fun helper =>
    let y := mx_output c (mh_output_shape helper) in
    size ← Size (mh_output_shape helper);
    if size =? 0 then mret StatusOK
    else
      _ ← validate_zero_points (mx_a_offset c) (mx_b_offset c) (mx_y_offset c);
      real_multiplier ← validate_scales (mx_a_scale c) (mx_b_scale c) (mx_y_scale c);
      for_range 0 (Z.of_nat (length (mh_output_offsets helper))) (fun i =>
        left_offset ← arr_get (mh_left_offsets helper) i;
        right_offset ← arr_get (mh_right_offsets helper) i;
        output_offset ← arr_get (mh_output_offsets helper) i;
        SystolicMultiply accelerator_mode false (s32 (mh_M helper)) (s32 (mh_N helper)) (s32 (mh_K helper))
          (t_data (mx_a c) + left_offset) (t_data (mx_b c) + right_offset) (y + output_offset) real_multiplier 0) ;;
      mret StatusOK).
End kernel.
