(* ===== verification/QLinearMatMulSpec.v ===== *)
(** * QLinearMatMulSpec: the quantized matrix product broadcasts and multiplies

    The offsets that [MatMulComputeHelper] lists are those of numpy's broadcasting, and
    the kernel stores, for every position of the broadcast dimensions, the product of
    the matrices that broadcasting pairs there. *)

From S2P Require Import Prelude Effects Float32 Params State Dram Fill Scaling Norm Config Move MoveSpec Compute LoopWs LoopConv Counters Dispatch Invariant Isa IsaSpec Issue LoopWsSpec MatmulCpu MatmulCpuSpec Matmul MatmulSpec Resadd ResaddSpec MatmulWsSpec ConvCpu ConvCpuSpec Conv Systolic SystolicSpec StridedSpec Tensor Buffer ConvHelper ConvHelperSpec Regions ConvAttributes Im2col Im2colSpec Positions QLinearConv ConvCallSpec QLinearMatMul.

(** ** The offsets *)

(** The number of matrices, and the index of matrix [q] of the result in each operand. *)
Definition batch_count (dims : list broadcast_dim) : Z :=
  match dims with [] => 1 | b :: _ => bd_output b * bd_output_stride b end.
Fixpoint left_index (dims : list broadcast_dim) (q : Z) : Z :=
  match dims with
  | [] => 0
  | b :: dims' => q / bd_output_stride b * (if bd_left b =? 1 then 0 else bd_left_stride b) + left_index dims' (q mod bd_output_stride b)
  end.
Fixpoint right_index (dims : list broadcast_dim) (q : Z) : Z :=
  match dims with
  | [] => 0
  | b :: dims' => q / bd_output_stride b * (if bd_right b =? 1 then 0 else bd_right_stride b) + right_index dims' (q mod bd_output_stride b)
  end.

Fixpoint strides_ok (dims : list broadcast_dim) : Prop :=
  match dims with
  | [] => True
  | b :: dims' => bd_output_stride b = batch_count dims' /\ 1 <= bd_output b < 2 ^ 31 /\ strides_ok dims'
  end.

Lemma batch_count_pos dims : strides_ok dims -> 1 <= batch_count dims.
Proof.
  induction dims as [|b dims IH]; cbn [strides_ok batch_count]; [lia|]. intros (-> & Hb & Hs). apply mul_pos; [lia|auto].
Qed.

Section fill.
Context (lsz rsz osz : Z).

(** Entries [io], ..., [io + n - 1] are those of matrices [0], ..., [n - 1]; the others
    are as they were. *)
Definition entry (v : offsets) (k : Z) (l r o : Z) : Prop :=
  v.1.1 !! Z.to_nat k = Some l /\ v.1.2 !! Z.to_nat k = Some r /\ v.2 !! Z.to_nat k = Some o.
Definition same_length (v : offsets) (n : Z) : Prop :=
  Z.of_nat (length v.1.1) = n /\ Z.of_nat (length v.1.2) = n /\ Z.of_nat (length v.2) = n.
Definition offsets_filled (dims : list broadcast_dim) (il ir io n total : Z) (v v' : offsets) : Prop :=
  same_length v' total /\
  (forall q, 0 <= q < n -> entry v' (io + q) ((il + left_index dims q) * lsz) ((ir + right_index dims q) * rsz) ((io + q) * osz)) /\
  (forall k l r o, 0 <= k -> (k < io \/ io + n <= k) -> entry v k l r o -> entry v' k l r o).

Lemma wp_store_offsets {St} il ir io total v Q (s : St) : 0 <= io < total -> same_length v total ->
  (forall v', offsets_filled [] il ir io 1 total v v' -> Q v' s) ->
  wp (store_offsets lsz rsz osz il ir io v) Q s.
Proof.
  intros Hio (L1 & L2 & L3) HQ. destruct v as [[l r] o]. cbn [fst snd] in *. unfold store_offsets, arr_set.
  apply wp_bind, wp_bind, wp_check; [lia|]. apply wp_ret. apply wp_bind, wp_bind, wp_check; [lia|]. apply wp_ret.
  apply wp_bind, wp_bind, wp_check; [lia|]. apply wp_ret, wp_ret, HQ. split_and!.
  - unfold same_length. cbn [fst snd]. by rewrite !length_insert.
  - intros q Hq. replace q with 0 by lia. unfold entry. cbn [fst snd left_index right_index]. rewrite !Z.add_0_r.
    split_and!; apply list_lookup_insert_eq; lia.
  - intros k a b c Hk Hne (E1 & E2 & E3). unfold entry. cbn [fst snd] in *. rewrite !list_lookup_insert_ne by lia. done.
Qed.

Lemma wp_RecursiveFill {St} dims il ir io total v Q (s : St) : strides_ok dims -> 0 <= io -> io + batch_count dims <= total -> same_length v total ->
  (forall v', offsets_filled dims il ir io (batch_count dims) total v v' -> Q v' s) ->
  wp (RecursiveFill lsz rsz osz dims il ir io v) Q s.
Proof.
  revert il ir io v Q. induction dims as [|b dims IH]; intros il ir io v Q Hs Hio Hle Hlen HQ.
  { cbn [batch_count] in *. apply (wp_store_offsets _ _ _ total); [lia|done|done]. }
  cbn [RecursiveFill strides_ok batch_count] in *. destruct Hs as (Es & Hb & Hs). pose proof (batch_count_pos _ Hs) as Hn. rewrite Es in *.
  set (n := batch_count dims) in *. unfold fold_int. apply wp_bind.
  apply (wp_fold_range (fun i v' s' => s' = s /\ offsets_filled (b :: dims) il ir io (i * n) total v v')).
  - split; [done|]. split_and!; [done| |by intros]. intros q Hq. lia.
  - intros i v1 s1 Hi (-> & L1 & F1 & U1). assert ((i + 1) * n <= bd_output b * n) by (apply Z.mul_le_mono_nonneg_r; lia).
    assert (0 <= i * n) by (apply Z.mul_nonneg_nonneg; lia). apply IH; [done|lia|lia|done|].
    intros v2 (L2 & F2 & U2). split; [done|]. split_and!; [done| |].
    + intros q Hq. destruct (decide (q < i * n)) as [Hlt|Hge].
      * apply U2; [lia|lia|]. apply F1. lia.
      * assert (q / n = i /\ q mod n = q - i * n) as [E1 E2].
        { split; symmetry; [apply (Z.div_unique _ _ _ (q - i * n))|apply (Z.mod_unique _ _ i)]; lia. }
        specialize (F2 (q - i * n) ltac:(lia)). cbn [left_index right_index]. rewrite Es. fold n. rewrite E1, E2.
        replace (io + q) with (io + i * n + (q - i * n)) by lia. rewrite !Z.add_assoc. exact F2.
    + intros k l r o Hk Hne He. apply U2; [done|lia|]. apply U1; [done|lia|done].
  - intros v1 s1 (-> & F). rewrite Z.max_r in F by lia. apply wp_bind, wp_check; [lia|]. by apply wp_ret, HQ.
Qed.
End fill.

(** ** Broadcasting *)

(** Two dimensions can be broadcast: they are equal or one of them is 1. *)
Definition compatible (l r : Z) : Prop := 1 <= l < 2 ^ 31 /\ 1 <= r < 2 ^ 31 /\ (l = r \/ l = 1 \/ r = 1).
Notation outs ls rs := (zip_with Z.max ls rs).

(** The position in an operand: its dimensions of size 1 are repeated. *)
Definition clamp (ls pos : list Z) : list Z := zip_with (fun l x => if l =? 1 then 0 else x) ls pos.

Lemma horner_shift dims pos a : length dims = length pos -> horner dims pos a = a * shape_size dims + horner dims pos 0.
Proof.
  unfold horner. revert pos a. induction dims as [|n dims IH]; intros [|x pos] a Hl; cbn in *; try lia.
  fold (shape_size dims). rewrite IH, (IH pos (0 * n + x)) by lia. ring.
Qed.

Lemma horner_cons n x dims pos : length dims = length pos -> horner (n :: dims) (x :: pos) 0 = x * shape_size dims + horner dims pos 0.
Proof. intros Hl. change (horner (n :: dims) (x :: pos) 0) with (horner dims pos (0 * n + x)). rewrite horner_shift by done. ring. Qed.

Lemma compatible_pos ls rs : Forall2 compatible ls rs -> all_pos ls /\ all_pos rs /\ all_pos (outs ls rs).
Proof.
  unfold all_pos. induction 1 as [|l r ls' rs' (H1 & H2 & _) _ (I1 & I2 & I3)]; [done|]. split_and!; constructor; done || lia.
Qed.

Lemma broadcast_strides_ok ls rs : Forall2 compatible ls rs ->
  strides_ok (broadcast_strides ls rs) /\ batch_count (broadcast_strides ls rs) = shape_size (outs ls rs) /\
  match broadcast_strides ls rs with
  | [] => shape_size ls = 1 /\ shape_size rs = 1
  | b :: _ => bd_left_stride b * bd_left b = shape_size ls /\ bd_right_stride b * bd_right b = shape_size rs
  end.
Proof.
  induction 1 as [|l r ls rs (Hl & Hr & Hlr) _ (IHs & IHc & IHd)]; [done|]. cbn [broadcast_strides strides_ok batch_count zip_with].
  unfold shape_size in *. cbn [foldr] in *. destruct (broadcast_strides ls rs) as [|b dims] eqn:E; cbn [bd_output_stride bd_output bd_left_stride bd_left bd_right_stride bd_right batch_count] in *.
  - destruct IHd as [I1 I2]. rewrite <- IHc, I1, I2. split_and!; lia || done.
  - destruct IHd as [I1 I2]. rewrite I1, I2, <- IHc. split_and!; try lia || done.
Qed.

Lemma batch_index ls rs pos : Forall2 compatible ls rs -> in_dims (outs ls rs) pos ->
  left_index (broadcast_strides ls rs) (horner (outs ls rs) pos 0) = horner ls (clamp ls pos) 0 /\
  right_index (broadcast_strides ls rs) (horner (outs ls rs) pos 0) = horner rs (clamp rs pos) 0.
Proof.
  intros Hc. revert pos. induction Hc as [|l r ls rs (Hl & Hr & Hlr) Hc IH]; intros pos Hp; cbn [zip_with] in Hp.
  { by inv Hp. }
  inv Hp as [|? x ? pos' Hx Hp']. pose proof (Forall2_length _ _ _ Hc) as Hll. pose proof (Forall2_length _ _ _ Hp') as Hlp.
  rewrite length_zip_with in Hlp. destruct (in_dims_unrank _ _ Hp') as [Hb _]. cbn [zip_with clamp]. rewrite !horner_cons.
  2-4: rewrite ?length_zip_with; unfold clamp; rewrite ?length_zip_with; lia.
  destruct (broadcast_strides_ok ls rs Hc) as (_ & Ec & Ed). cbn [broadcast_strides left_index right_index bd_output_stride bd_left bd_right bd_left_stride bd_right_stride].
  assert ((match broadcast_strides ls rs with [] => 1 | b :: _ => bd_output_stride b * bd_output b end) = shape_size (outs ls rs)) as ->
    by (rewrite <- Ec; unfold batch_count; destruct (broadcast_strides ls rs); [done|ring]).
  rewrite radix_div, radix_mod by done. destruct (IH pos' Hp') as [-> ->].
  destruct (broadcast_strides ls rs) as [|b dims]; destruct Ed as [E1 E2].
  all: rewrite E1, E2; split; f_equal; destruct (_ =? 1); ring.
Qed.

(** ** The helper *)

Lemma shape_size_app a b : shape_size (a ++ b) = shape_size a * shape_size b.
Proof. unfold shape_size. induction a as [|n a IH]; cbn; [|rewrite IH]; ring. Qed.

Lemma shape_size_take k s : all_pos s -> shape_size (take k s) <= shape_size s.
Proof.
  intros Hs. pose proof (take_drop k s) as E. rewrite <- E at 2. rewrite shape_size_app. rewrite <- E in Hs. apply Forall_app in Hs as [H1 H2].
  pose proof (shape_size_pos _ H1). pose proof (shape_size_pos _ H2). apply le_mul_l; lia.
Qed.

Lemma wp_Size_pos {St} s Q (st : St) : all_pos s -> shape_size s < 2 ^ 63 -> Q (shape_size s) st -> wp (Size s) Q st.
Proof.
  intros Hs Hlt HQ. apply wp_Size; [eapply Forall_impl; [exact Hs|]; cbn; lia| |done]. intros k. pose proof (shape_size_take k s Hs). lia.
Qed.

Lemma wp_arr_get_app {St A} (l k : list A) i x Q (s : St) : i = Z.of_nat (length l) -> Q x s -> wp (arr_get (l ++ x :: k) i) Q s.
Proof. intros -> HQ. eapply wp_arr_get; [lia| |exact HQ]. rewrite Nat2Z.id, lookup_app_r, Nat.sub_diag by done. done. Qed.

Section helper_spec.
Context {St : Type} (lb rb : list Z) (M N K : Z).
Implicit Types (s : St).
Notation nb := (Nat.max (length lb) (length rb)).

(** The broadcast dimensions, padded with ones in front. *)
Definition pad_front (n : nat) (l : list Z) : list Z := replicate (n - length l) 1 ++ l.
Notation lp := (pad_front nb lb).
Notation rp := (pad_front nb rb).

Lemma wp_copy_front n l Q s : (length l <= n)%nat -> Q (pad_front n l) s ->
  wp (TensorShapeCopyDims l (replicate n 1) (n - length l) (length l)) Q s.
Proof.
  intros Hl HQ. unfold TensorShapeCopyDims. cbv zeta. rewrite Nat.min_id. apply wp_bind, wp_check; [apply Nat.leb_le; rewrite length_replicate; lia|]. apply wp_ret.
  rewrite take_replicate, firstn_all, drop_replicate. replace (n - (n - length l + length l))%nat with 0%nat by lia.
  rewrite Nat.min_l by lia. cbn [replicate]. by rewrite app_nil_r.
Qed.

Lemma pad_front_app n l a b : pad_front (S (S n)) (l ++ [a; b]) = pad_front n l ++ [a; b].
Proof. unfold pad_front. rewrite length_app. cbn [length]. replace (S (S n) - (length l + 2))%nat with (n - length l)%nat by lia. by rewrite app_assoc. Qed.

Lemma length_pad_front n l : (length l <= n)%nat -> length (pad_front n l) = n.
Proof. intros Hl. unfold pad_front. rewrite length_app, length_replicate. lia. Qed.

Lemma broadcast_dims_outs ls rs : Forall2 compatible ls rs -> broadcast_dims ls rs = Val (outs ls rs).
Proof.
  induction 1 as [|l r ls rs (Hl & Hr & Hlr) _ IH]; [done|]. cbn. rewrite IH.
  assert ((negb (l =? l `max` r) && negb (l =? 1) || negb (r =? l `max` r) && negb (r =? 1)) = false) as -> by lia. done.
Qed.

Context (Hc : Forall2 compatible lp rp) (HM : 1 <= M) (HN : 1 <= N) (HK : 1 <= K).
Context (Hl63 : shape_size lp * (M * K) < 2 ^ 60) (Hr63 : shape_size rp * (K * N) < 2 ^ 60) (Ho63 : shape_size (outs lp rp) * (M * N) < 2 ^ 60).

(** What the helper gives for a stack of matrices. *)
Record stack (h : matmul_helper) : Prop := {
  sk_dims : mh_M h = M /\ mh_N h = N /\ mh_K h = K;
  sk_shape : mh_output_shape h = outs lp rp ++ [M; N];
  sk_count : Z.of_nat (length (mh_output_offsets h)) = shape_size (outs lp rp);
  sk_entry pos : in_dims (outs lp rp) pos ->
    entry (mh_left_offsets h, mh_right_offsets h, mh_output_offsets h) (horner (outs lp rp) pos 0)
      (horner lp (clamp lp pos) 0 * (M * K)) (horner rp (clamp rp pos) 0 * (K * N)) (horner (outs lp rp) pos 0 * (M * N)) }.

(** And when the right operand is a single matrix. *)
Record flat (h : matmul_helper) : Prop := {
  fl_left : lp = lb; fl_right : Forall (fun r => r = 1) rp;
  fl_dims : mh_M h = shape_size lb * M /\ mh_N h = N /\ mh_K h = K;
  fl_shape : mh_output_shape h = lb ++ [M; N];
  fl_offsets : mh_left_offsets h = [0] /\ mh_right_offsets h = [0] /\ mh_output_offsets h = [0] }.

Lemma wp_broadcast_offsets Q s :
  (forall v, same_length v (shape_size (outs lp rp)) ->
     (forall pos, in_dims (outs lp rp) pos -> entry v (horner (outs lp rp) pos 0)
        (horner lp (clamp lp pos) 0 * (M * K)) (horner rp (clamp rp pos) 0 * (K * N)) (horner (outs lp rp) pos 0 * (M * N))) -> Q v s) ->
  wp (ComputeBroadcastOffsets (lp ++ [M; K]) (rp ++ [K; N]) M N K) Q s.
Proof.
  intros HQ. unfold ComputeBroadcastOffsets. rewrite length_app. cbn [length]. rewrite length_pad_front by lia.
  replace (nb + 2 - 2)%nat with nb by lia. rewrite !take_app_length' by (rewrite length_pad_front; lia).
  destruct (broadcast_strides_ok lp rp Hc) as (Hs & Ecount & _). destruct (compatible_pos _ _ Hc) as (_ & _ & Hop). pose proof (shape_size_pos _ Hop) as Hos.
  assert (forall pos, in_dims (outs lp rp) pos -> left_index (broadcast_strides lp rp) (horner (outs lp rp) pos 0) = horner lp (clamp lp pos) 0 /\
    right_index (broadcast_strides lp rp) (horner (outs lp rp) pos 0) = horner rp (clamp rp pos) 0) as Hidx by (intros; by apply batch_index).
  assert (shape_size (outs lp rp) < 2 ^ 60) by (pose proof (mul_pos M N HM HN); pose proof (le_mul_l (shape_size (outs lp rp)) (M * N) ltac:(lia) ltac:(lia)); lia).
  destruct (broadcast_strides lp rp) as [|b dims] eqn:Eb.
  - cbn [batch_count] in Ecount. apply wp_ret, HQ; [by rewrite <- Ecount|]. intros pos Hp. destruct (in_dims_unrank _ _ Hp) as [Hb _].
    rewrite <- Ecount in Hb. destruct (Hidx pos Hp) as [E1 E2]. cbn in E1, E2. rewrite <- E1, <- E2.
    replace (horner (outs lp rp) pos 0) with 0 by lia. unfold entry. by rewrite !Z.mul_0_l.
  - rewrite <- Eb in *. cbn [batch_count] in Ecount. assert (bd_output b * bd_output_stride b = shape_size (outs lp rp)) as Eo by (by rewrite Eb in Ecount).
    rewrite Eo. apply wp_bind, wp_enforce; [lia|]. set (zeros := replicate _ 0).
    apply (wp_RecursiveFill (M * K) (K * N) (M * N) _ 0 0 0 (shape_size (outs lp rp))); [done|lia|rewrite Ecount; lia| |].
    { unfold same_length, zeros. cbn [fst snd]. rewrite length_replicate. lia. }
    intros v (Hl & He & _). apply HQ; [done|]. intros pos Hp. destruct (in_dims_unrank _ _ Hp) as [Hb _]. rewrite Ecount in He.
    specialize (He _ Hb). destruct (Hidx pos Hp) as [E1 E2]. rewrite E1, E2, !Z.add_0_l in He. exact He.
Qed.

Notation left := (lb ++ [M; K]).
Notation right := (rb ++ [K; N]).

(** The general case, up to the comparison of the inner dimensions. *)
Lemma wp_helper_general_to K' Q s :
  wp (return_if_not (K =? K')
    (v ← ComputeBroadcastOffsets (lp ++ [M; K]) (rp ++ [K'; N]) M N K;
     let '(left_offsets, right_offsets, output_offsets) := v in
     mret (Val {| mh_output_shape := outs lp rp ++ [M; N]; mh_M := M; mh_N := N; mh_K := K;
                  mh_left_offsets := left_offsets; mh_right_offsets := right_offsets; mh_output_offsets := output_offsets |}))) Q s ->
  wp (helper_general left (rb ++ [K'; N]) false false) Q s.
Proof.
  intros HQ. unfold helper_general, padded_dims. pose proof (length_app lb [M; K]) as Hll. pose proof (length_app rb [K'; N]) as Hlr. cbn [length] in Hll, Hlr.
  rewrite (proj2 (Nat.eqb_neq (length (rb ++ [K'; N])) 1)), (proj2 (Nat.eqb_neq (length left) 1)) by lia. cbn [orb negb].
  replace (Nat.max (length left) (length (rb ++ [K'; N])) + 0)%nat with (S (S nb)) by lia.
  apply wp_bind, wp_bind, wp_copy_front; [lia|]. apply wp_bind, wp_copy_front; [lia|].
  apply wp_ret. cbv beta iota. rewrite !pad_front_app.
  assert (length (lp ++ [M; K]) = nb + 2)%nat as -> by (rewrite length_app, length_pad_front by lia; done). replace (nb + 2 - 2)%nat with nb by lia.
  rewrite !take_app_length' by (rewrite length_pad_front; lia). rewrite broadcast_dims_outs by done.
  unfold return_if_error. apply wp_bind, wp_ret. apply wp_bind, wp_arr_get_app; [lia|].
  apply wp_bind. replace left with ((lb ++ [M]) ++ [K]) by by rewrite <- app_assoc. apply wp_arr_get_app; [rewrite !length_app; cbn [length]; lia|].
  apply wp_bind. replace (rb ++ [K'; N]) with ((rb ++ [K']) ++ [N]) at 1 by by rewrite <- app_assoc. apply wp_arr_get_app; [rewrite !length_app; cbn [length]; lia|].
  apply wp_bind, wp_arr_get_app; [lia|]. rewrite (proj2 (Nat.eqb_eq (nb + 2) _)) by (rewrite !length_app; cbn [length]; lia).
  unfold return_if_not in *. exact HQ.
Qed.

Lemma wp_helper_flat_to K' Q s : (length rb <= length lb)%nat ->
  wp (return_if_not (K =? K')
    (mret (Val {| mh_output_shape := lb ++ [M; N]; mh_M := shape_size lb * M; mh_N := N; mh_K := K;
                  mh_left_offsets := [0]; mh_right_offsets := [0]; mh_output_offsets := [0] |}))) Q s ->
  wp (helper_flat left (rb ++ [K'; N]) false) Q s.
Proof.
  intros Hlen HQ. destruct (compatible_pos _ _ Hc) as (Hlp & _ & _). assert (lp = lb) as El by (unfold pad_front; by replace (nb - length lb)%nat with 0%nat by lia).
  pose proof Hl63 as Hsize. rewrite El in Hlp, Hsize. unfold helper_flat. rewrite !length_app. cbn [length]. apply wp_bind. unfold SizeToDimension.
  apply wp_bind, wp_enforce; [apply Nat.leb_le; rewrite !length_app; cbn [length]; lia|]. replace left with ((lb ++ [M]) ++ [K]) by by rewrite <- app_assoc.
  rewrite take_app_length' by (rewrite !length_app; cbn [length]; lia). fold (Size (S := St) (lb ++ [M])).
  pose proof (shape_size_pos _ Hlp). pose proof (mul_pos M K HM HK). pose proof (mul_pos (shape_size lb) M ltac:(lia) HM).
  pose proof (le_mul_l (shape_size lb * M) K ltac:(lia) ltac:(lia)).
  apply wp_Size_pos; [apply Forall_app; split; [done|by constructor]|rewrite shape_size_app; cbn; lia|].
  apply wp_bind, wp_arr_get_app; [rewrite !length_app; cbn [length]; lia|]. apply wp_bind.
  replace (rb ++ [K'; N]) with ((rb ++ [K']) ++ [N]) at 1 by by rewrite <- app_assoc.
  apply wp_arr_get_app; [rewrite !length_app; cbn [length]; lia|]. apply wp_bind. unfold arr_set.
  apply wp_bind, wp_check; [rewrite !length_app; cbn [length]; apply andb_true_intro; split; [apply Z.leb_le|apply Z.ltb_lt]; lia|]. apply wp_ret.
  apply wp_bind, wp_arr_get_app; [lia|]. apply wp_bind. replace (rb ++ [K'; N]) with ((rb ++ [K']) ++ [N]) by by rewrite <- app_assoc.
  apply wp_arr_get_app; [rewrite !length_app; cbn [length]; lia|]. cbn [andb]. rewrite orb_false_r.
  rewrite insert_app_r_alt by (rewrite !length_app; cbn [length]; lia). rewrite length_app, shape_size_app. cbn [length shape_size foldr].
  replace (Z.to_nat (Z.of_nat (length lb + 2) - 1) - (length lb + 1))%nat with 0%nat by lia. cbn [insert list_insert]. rewrite <- app_assoc, Z.mul_1_r. exact HQ.
Qed.

Lemma pad_front_size : shape_size rp = shape_size rb /\ all_pos rb.
Proof.
  destruct (compatible_pos _ _ Hc) as (_ & Hrp & _). unfold pad_front in *. apply Forall_app in Hrp as [_ Hrb]. split; [|done].
  rewrite shape_size_app. replace (shape_size (replicate (nb - length rb) 1)) with 1; [lia|]. generalize (nb - length rb)%nat as n.
  induction n as [|n IH]; [done|]. cbn in *. fold (shape_size (replicate n 1)). lia.
Qed.

(** The whole computation: it takes one of the two cases. *)
Lemma wp_helper_Compute_to K' Q s : 1 <= K' -> shape_size rb * (K' * N) < 2 ^ 60 ->
  wp (helper_general left (rb ++ [K'; N]) false false) Q s ->
  ((length rb <= length lb)%nat -> shape_size rb = 1 -> wp (helper_flat left (rb ++ [K'; N]) false) Q s) ->
  wp (helper_Compute left (rb ++ [K'; N]) false false) Q s.
Proof.
  intros HK' Hsz Hgen Hflat. unfold helper_Compute, return_if_not. rewrite !length_app. cbn [length].
  assert (((1 <=? length lb + 2) && (1 <=? length rb + 2))%nat = true) as -> by (rewrite !(proj2 (Nat.leb_le _ _)) by lia; done).
  cbn [negb andb]. rewrite (proj2 (Nat.leb_le 2 (length lb + 2))), (proj2 (Nat.leb_le 2 (length rb + 2))) by lia. cbn [andb].
  destruct pad_front_size as [_ Hrb]. pose proof (shape_size_pos rb Hrb). pose proof (mul_pos K' N HK' HN). pose proof (mul_pos (shape_size rb) K' ltac:(lia) HK').
  pose proof (le_mul_l (shape_size rb * K') N ltac:(lia) HN).
  destruct (length rb + 2 <=? length lb + 2)%nat eqn:El; [|by apply wp_bind, wp_ret].
  apply Nat.leb_le in El. apply wp_bind, wp_bind. unfold SizeToDimension.
  apply wp_bind, wp_enforce; [apply Nat.leb_le; rewrite !length_app; cbn [length]; lia|].
  replace (rb ++ [K'; N]) with ((rb ++ [K']) ++ [N]) at 1 by by rewrite <- app_assoc.
  rewrite take_app_length' by (rewrite !length_app; cbn [length]; lia). fold (Size (S := St) (rb ++ [K'])).
  apply wp_Size_pos; [apply Forall_app; split; [done|by constructor]|rewrite shape_size_app; cbn; lia|].
  apply wp_bind, wp_arr_get_app; [lia|]. apply wp_ret. rewrite shape_size_app. cbn [shape_size foldr]. rewrite Z.mul_1_r.
  destruct (Z.eqb_spec (shape_size rb * K') K') as [E|E]; [apply Hflat; [lia|nia]|done].
Qed.

Lemma wp_helper_Compute Q s : (forall h, stack h \/ flat h -> Q (Val h) s) -> wp (helper_Compute left right false false) Q s.
Proof.
  intros HQ. destruct pad_front_size as [Esz Hrb]. apply wp_helper_Compute_to; [done|by rewrite <- Esz| |].
  - apply wp_helper_general_to. unfold return_if_not. rewrite Z.eqb_refl. apply wp_bind, wp_broadcast_offsets.
    intros [[vl vr] vo] (L1 & L2 & L3) He. apply wp_ret, HQ. left. split; [done|done|done|exact He].
  - intros Hlen Hone. apply wp_helper_flat_to; [done|]. unfold return_if_not. rewrite Z.eqb_refl. apply wp_ret, HQ. right. split; try done.
    + unfold pad_front. by replace (nb - length lb)%nat with 0%nat by lia.
    + unfold pad_front. apply Forall_app. split; [by apply Forall_replicate|]. clear -Hrb Hone. induction Hrb as [|r rb Hr Hrb IH]; [done|].
      cbn in Hone. fold (shape_size rb) in Hone. pose proof (shape_size_pos _ Hrb). constructor; [nia|]. apply IH. nia.
Qed.
End helper_spec.

(** ** The batches *)

Section batches.
Context {mem : Type} `{MmuLaws mem} `{Rand}.
Context (mode rows N K T L R A B Y : Z) (lo ro : Z -> Z) (scale : float32).
Implicit Types (d : mem) (m : machine mem).

(** Element [(i, j)] of batch [t]. *)
Definition batch_value d (t i j : Z) : option Z :=
  multiply_value false N K (A + lo t * (rows * K)) (B + ro t * (K * N)) 0 scale d i j.

Record batches_ready d : Prop := {
  bt_dims : 1 <= rows <= 2 ^ 30 /\ 1 <= N <= 2 ^ 30 /\ 1 <= K <= 2 ^ 30;
  bt_index t : 0 <= t < T -> 0 <= lo t < L /\ 0 <= ro t < R;
  bt_a : range_ok A (L * (rows * K)) /\ mem_readable (L * (rows * K)) d A;
  bt_b : range_ok B (R * (K * N)) /\ mem_readable (R * (K * N)) d B;
  bt_y : range_ok Y (T * (rows * N)) /\ mem_writable (T * (rows * N)) d Y;
  bt_apart : apart Y (T * (rows * N)) A (L * (rows * K)) /\ apart Y (T * (rows * N)) B (R * (K * N));
  bt_scale : is_binary32 scale = true;
  bt_value t i j : 0 <= t < T -> 0 <= i < rows -> 0 <= j < N -> is_Some (batch_value d t i j) }.

Section run.
Context (d : mem) (Hr : batches_ready d).

(** Batch [x] of [n], of [size] bytes each. *)
Lemma batch_covers base n x size : 0 <= x < n -> 1 <= size -> covers (base, n * size) size (base + x * size).
Proof.
  intros Hx Hs. pose proof (radix_bound x 0 n size Hx ltac:(lia)). pose proof (radix_bound x (size - 1) n size Hx ltac:(lia)).
  split; cbn [fst snd]; lia.
Qed.

Lemma batch_kept r size a d' : mem_differ (span (T * (rows * N)) Y) d d' -> r = (A, L * (rows * K)) \/ r = (B, R * (K * N)) -> 1 <= size -> covers r size a ->
  mem_readable size d' a /\ mem_int size d' a = mem_int size d a.
Proof.
  intros Hd Hin Hs Hc. destruct (bt_a d Hr) as [RA MA], (bt_b d Hr) as [RB MB], (bt_y d Hr) as [RY _], (bt_apart d Hr) as [PA PB]. split.
  - eapply mem_readable_differ; [done|]. eapply mem_readable_sub; [|done]. by destruct Hin as [-> | ->].
  - apply (regions_kept [(Y, T * (rows * N))] r); try done.
    + eapply mem_differ_weaken; [exact Hd|]. intros b Hb. exists (Y, T * (rows * N)). split; [left|done].
    + by apply Forall_singleton.
    + apply Forall_singleton. unfold region_apart, apart in *. destruct Hin as [-> | ->]; cbn [fst snd]; lia.
    + by destruct Hin as [-> | ->].
Qed.

Lemma batch_value_kept d' t i j : mem_differ (span (T * (rows * N)) Y) d d' -> 0 <= t < T -> 0 <= i < rows -> 0 <= j < N ->
  multiply_value false N K (A + lo t * (rows * K)) (B + ro t * (K * N)) 0 scale d' i j = batch_value d t i j.
Proof.
  intros Hd Ht Hi Hj. unfold batch_value, multiply_value, multiply_sum. f_equal. f_equal. f_equal. apply Zsum_ext. intros k Hk.
  destruct (bt_index d Hr t Ht) as [Hlo Hro], (bt_dims d Hr) as (? & ? & ?).
  pose proof (radix_bound i k rows K Hi Hk). pose proof (radix_bound k j K N Hk Hj).
  pose proof (radix_bound (lo t) (i * K + k) L (rows * K) Hlo ltac:(lia)). pose proof (radix_bound (ro t) (k * N + j) R (K * N) Hro ltac:(lia)).
  f_equal; (eapply batch_kept; [exact Hd| |lia|]); [by left|split; cbn [fst snd]; lia|by right|split; cbn [fst snd]; lia].
Qed.

Lemma batch_ready d' t : mem_differ (span (T * (rows * N)) Y) d d' -> 0 <= t < T ->
  multiply_ready false rows N K (A + lo t * (rows * K)) (B + ro t * (K * N)) (Y + t * (rows * N)) 0 scale d'.
Proof.
  intros Hd Ht. destruct (bt_index d Hr t Ht) as [Hlo Hro], (bt_dims d Hr) as (? & ? & ?).
  pose proof (mul_pos rows K ltac:(lia) ltac:(lia)). pose proof (mul_pos K N ltac:(lia) ltac:(lia)). pose proof (mul_pos rows N ltac:(lia) ltac:(lia)).
  pose proof (batch_covers A L (lo t) (rows * K) Hlo ltac:(lia)) as CA. pose proof (batch_covers B R (ro t) (K * N) Hro ltac:(lia)) as CB.
  pose proof (batch_covers Y T t (rows * N) Ht ltac:(lia)) as CY. pose proof CA as [? ?]. pose proof CB as [? ?]. pose proof CY as [? ?].
  destruct (bt_a d Hr) as [[? ?] _], (bt_b d Hr) as [[? ?] _], (bt_y d Hr) as [[? ?] MY], (bt_apart d Hr) as [PA PB]. unfold apart in *. cbn [fst snd] in *.
  split; try lia.
  - unfold range_ok. lia.
  - unfold range_ok. lia.
  - unfold range_ok. lia.
  - intros k Hk. eapply batch_kept; [exact Hd|by left|lia|]. split; cbn [fst snd]; lia.
  - intros k Hk. eapply batch_kept; [exact Hd|by right|lia|]. split; cbn [fst snd]; lia.
  - intros k Hk. eapply mem_writable_differ; [exact Hd|]. eapply (mem_writable_sub (Y, T * (rows * N))); [done|]. split; cbn [fst snd]; lia.
  - split_and!; [unfold apart; lia|unfold apart; lia|done].
  - apply Hr.
  - intros i j Hi Hj. rewrite batch_value_kept by done. by apply (bt_value d Hr).
Qed.

(** The results of the batches before [t]. *)
Definition batches_hold (t : Z) d' : Prop := forall t' i j, 0 <= t' < t -> 0 <= i < rows -> 0 <= j < N ->
  mem_int 1 d' (Y + (t' * (rows * N) + (i * N + j))) = s8 (default 0 (batch_value d t' i j)).

Lemma wp_batches los ros oos Q m : get_accelerator_mode mode <> T_OS -> ready m -> acc_act (st (gs m)) <> SOFTMAX -> dram m = d -> 0 <= T ->
  (forall t, 0 <= t < T -> entry (los, ros, oos) t (lo t * (rows * K)) (ro t * (K * N)) (t * (rows * N))) ->
  (forall m', mem_differ (span (T * (rows * N)) Y) d (dram m') -> batches_hold T (dram m') -> Q tt m') ->
  wp (for_range 0 T (fun i =>
    left_offset ← arr_get los i; right_offset ← arr_get ros i; output_offset ← arr_get oos i;
    SystolicMultiply mode false rows N K (A + left_offset) (B + right_offset) (Y + output_offset) scale 0)) Q m.
Proof.
  intros Hmode Hrd Hact Hm HT He HQ.
  apply (wp_for_range (fun t m' => ready m' /\ acc_act (st (gs m')) <> SOFTMAX /\ mem_differ (span (T * (rows * N)) Y) d (dram m') /\ batches_hold t (dram m'))).
  - split_and!; [done..|rewrite Hm; apply mem_differ_refl|]. intros t' i j Ht'. lia.
  - intros t m1 Ht (Hrd1 & Hact1 & Hd1 & Hb1). destruct (He t Ht) as (E1 & E2 & E3). cbn [fst snd] in *.
    do 3 (apply wp_bind; eapply wp_arr_get; [lia|done|]). apply wp_SystolicMultiply; [done..|by apply batch_ready|].
    intros m2 Hrd2 Hact2 [Hd2 Hv2]. destruct (bt_dims d Hr) as (? & ? & ?), (bt_y d Hr) as [[? ?] _].
    pose proof (mul_pos rows N ltac:(lia) ltac:(lia)).
    pose proof (batch_covers Y T t (rows * N) Ht ltac:(lia)) as [C1 C2]. cbn [fst snd] in *.
    assert (mem_differ (span (rows * N) (Y + t * (rows * N))) (dram m1) (dram m2)) as Hd2'.
    { eapply mem_differ_weaken; [exact Hd2|]. intros b (e & [He1 He2]%elem_of_pairs & i & Hi & ->). exists (fst e * N + snd e).
      split; [by apply radix_bound|]. f_equal. lia. }
    split_and!; [done..| |].
    + eapply mem_differ_trans; [exact Hd1|]. eapply mem_differ_weaken; [exact Hd2'|]. intros b (i & Hi & ->). exists (t * (rows * N) + i).
      split; [lia|]. f_equal. lia.
    + intros t' i j Ht' Hi Hj. pose proof (radix_bound i j rows N Hi Hj). destruct (decide (t' = t)) as [->|Hne].
      * assert ((i, j) ∈ pairs rows N) as Hin by (by apply elem_of_pairs). specialize (Hv2 _ Hin). cbn [fst snd] in Hv2.
        rewrite batch_value_kept in Hv2 by done. etransitivity; [|exact Hv2]. f_equal. ring.
      * rewrite <- Hb1 by (done || lia). eapply mem_int_differ; [exact Hd2'|]. intros x Hx Hs. replace x with 0 in Hs by lia.
        pose proof (radix_bound t' (i * N + j) t (rows * N) ltac:(lia) ltac:(lia)). apply span_plain in Hs; lia.
  - intros m1 (_ & _ & Hd1 & Hb1). rewrite Z.max_r in Hb1 by lia. by apply HQ.
Qed.
End run.
End batches.

(** ** The kernel *)

Lemma clamp_in_dims ls rs pos : Forall2 compatible ls rs -> in_dims (outs ls rs) pos -> in_dims ls (clamp ls pos) /\ in_dims rs (clamp rs pos).
Proof.
  intros Hc. revert pos. induction Hc as [|l r ls rs (Hl & Hr & Hlr) Hc IH]; intros pos Hp; cbn [zip_with] in Hp; inv Hp; [by split; constructor|].
  destruct (IH _ ltac:(eassumption)) as [I1 I2]. unfold clamp. cbn [zip_with]. split; constructor; try done;
    (destruct (Z.eqb_spec l 1), (Z.eqb_spec r 1)); lia.
Qed.

(** Against ones, broadcasting does nothing. *)
Lemma broadcast_ones ls rs pos : Forall2 compatible ls rs -> Forall (fun r => r = 1) rs -> in_dims (outs ls rs) pos ->
  outs ls rs = ls /\ clamp ls pos = pos /\ horner rs (clamp rs pos) 0 = 0.
Proof.
  intros Hc. revert pos. induction Hc as [|l r ls rs (Hl & Hr & Hlr) Hc IH]; intros pos Ho Hp; cbn [zip_with] in Hp; inv Hp; [done|].
  apply Forall_cons in Ho as [-> Ho]. destruct (IH _ Ho ltac:(eassumption)) as (E1 & E2 & E3). cbn [zip_with clamp]. split_and!.
  - rewrite E1. f_equal. lia.
  - unfold clamp in E2. rewrite E2. f_equal. destruct (Z.eqb_spec l 1); lia.
  - rewrite horner_cons.
    + unfold clamp in E3. cbn [Z.eqb Pos.eqb]. by rewrite E3.
    + pose proof (Forall2_length _ _ _ Hc) as Hll. match goal with H : Forall2 _ (zip_with _ _ _) _ |- _ => apply Forall2_length in H; rewrite length_zip_with in H end.
      rewrite length_zip_with. lia.
Qed.

Section kernel.
Context {mem : Type} `{MmuLaws mem} `{Rand}.
Context (mode : Z) (c : matmul_context) (lb rb : list Z) (M N K : Z) (scale : float32).
Implicit Types (d : mem) (m : machine mem).
Notation nb := (Nat.max (length lb) (length rb)).
Notation lp := (pad_front nb lb).
Notation rp := (pad_front nb rb).
Notation os := (outs lp rp).
Notation A := (t_data (mx_a c)).
Notation B := (t_data (mx_b c)).
Notation Y := (mx_output c (os ++ [M; N])).

(** Element [(i, j)] at position [pos] of the broadcast dimensions: the product of row
    [i] of the left and column [j] of the right matrix that broadcasting pairs there. *)
Definition product_value d (pos : list Z) (i j : Z) : option Z :=
  scale_and_sat (s32 (Zsum (fun k =>
    mem_int 1 d (A + ((horner lp (clamp lp pos) 0 * M + i) * K + k)) *
    mem_int 1 d (B + ((horner rp (clamp rp pos) 0 * K + k) * N + j))) K)) 0 scale 0.

Record matmul_call d : Prop := {
  mc_a : t_shape (mx_a c) = lb ++ [M; K];
  mc_b : t_shape (mx_b c) = rb ++ [K; N];
  mc_broadcast : Forall2 compatible lp rp;
  mc_dims : 1 <= M /\ 1 <= N <= 2 ^ 30 /\ 1 <= K <= 2 ^ 30 /\ shape_size os * M <= 2 ^ 30;
  mc_sizes : shape_size lp * (M * K) < 2 ^ 60 /\ shape_size rp * (K * N) < 2 ^ 60 /\ shape_size os * (M * N) < 2 ^ 60;
  mc_zero_points : zero_point_ok d (mx_a_offset c) /\ zero_point_ok d (mx_b_offset c) /\ zero_point_ok d (mx_y_offset c);
  mc_scales : scale_ok d (mx_a_scale c) /\ scale_ok d (mx_b_scale c) /\ scale_ok d (mx_y_scale c);
  mc_scale : scale = f32_div (f32_mul (float_at d (mx_a_scale c)) (float_at d (mx_b_scale c))) (float_at d (mx_y_scale c));
  mc_left : range_ok A (shape_size lp * (M * K)) /\ mem_readable (shape_size lp * (M * K)) d A;
  mc_right : range_ok B (shape_size rp * (K * N)) /\ mem_readable (shape_size rp * (K * N)) d B;
  mc_out : range_ok Y (shape_size os * (M * N)) /\ mem_writable (shape_size os * (M * N)) d Y;
  mc_apart : apart Y (shape_size os * (M * N)) A (shape_size lp * (M * K)) /\ apart Y (shape_size os * (M * N)) B (shape_size rp * (K * N));
  mc_binary : is_binary32 scale = true;
  mc_value pos i j : in_dims os pos -> 0 <= i < M -> 0 <= j < N -> is_Some (product_value d pos i j) }.

Section run.
Context (d : mem) (Hc : matmul_call d).

Lemma product_batch rows lo ro t i' pos i j : 
  lo t * rows + i' = horner lp (clamp lp pos) 0 * M + i -> ro t = horner rp (clamp rp pos) 0 ->
  batch_value rows N K A B lo ro scale d t i' j = product_value d pos i j.
Proof.
  intros E1 E2. unfold batch_value, multiply_value, multiply_sum, product_value. cbn [b2z Z.eqb]. rewrite Z.add_0_l. f_equal. f_equal. apply Zsum_ext.
  intros k Hk. rewrite <- E1, <- E2. f_equal; f_equal; ring.
Qed.

Definition products_hold d' : Prop := forall pos i j, in_dims os pos -> 0 <= i < M -> 0 <= j < N ->
  mem_int 1 d' (Y + ((horner os pos 0 * M + i) * N + j)) = s8 (default 0 (product_value d pos i j)).

(** A stack of matrices. *)
Lemma stack_ready : let lo t := horner lp (clamp lp (unrank os t)) 0 in let ro t := horner rp (clamp rp (unrank os t)) 0 in
  batches_ready M N K (shape_size os) (shape_size lp) (shape_size rp) A B Y lo ro scale d.
Proof.
  destruct (compatible_pos _ _ (mc_broadcast d Hc)) as (Hlp & Hrp & Hop), (mc_dims d Hc) as (? & ? & ? & ?). pose proof (shape_size_pos _ Hop).
  pose proof (le_mul_r M (shape_size os) ltac:(lia) ltac:(lia)). split; try apply Hc; [lia| |].
  - intros t Ht. destruct (clamp_in_dims lp rp (unrank os t) (mc_broadcast d Hc) ltac:(by apply unrank_in_dims)) as [H1' H2'].
    pose proof (horner_bound lp _ 0 1 H1' ltac:(lia)). pose proof (horner_bound rp _ 0 1 H2' ltac:(lia)). lia.
  - intros t i j Ht Hi Hj. rewrite (product_batch _ _ _ _ _ (unrank os t) i) by done. apply (mc_value d Hc); [by apply unrank_in_dims|done..].
Qed.

(** One product. *)
Lemma flat_ready : lp = lb -> Forall (fun r => r = 1) rp ->
  batches_ready (shape_size lb * M) N K 1 1 1 A B Y (fun _ => 0) (fun _ => 0) scale d.
Proof.
  intros El Hones. pose proof (mc_broadcast d Hc) as Hb. destruct (compatible_pos _ _ Hb) as (Hlp & Hrp & Hop), (mc_dims d Hc) as (? & ? & ? & ?).
  pose proof (shape_size_pos _ Hlp). assert (os = lb) as Eo.
  { destruct (broadcast_ones lp rp (unrank os 0) Hb Hones ltac:(by apply unrank_in_dims)) as [E _]. congruence. }
  assert (shape_size rp = 1) as Er by (clear -Hones; induction Hones as [|r l -> _ IH]; [done|cbn; fold (shape_size l); lia]).
  destruct (mc_left d Hc) as [RA MA], (mc_right d Hc) as [RB MB], (mc_out d Hc) as [RY MY], (mc_apart d Hc) as [PA PB].
  pose proof (mc_value d Hc) as Hv. rewrite Er, ?Z.mul_1_l in *. rewrite El, Eo, ?Z.mul_assoc in *.
  pose proof (mul_pos (shape_size lb) M ltac:(lia) ltac:(lia)).
  split; rewrite ?Z.mul_1_l, ?Z.mul_assoc; try done; [apply Hc|]. intros t i' j Ht Hi Hj.
  destruct (radix_split i' (shape_size lb) M ltac:(lia) Hi) as [Hq Hrem]. pose proof (unrank_in_dims lb (i' / M) Hlp) as Hpos.
  destruct (broadcast_ones lb rp (unrank lb (i' / M)) Hb Hones ltac:(by rewrite Eo)) as (_ & Ec & Ez).
  rewrite (product_batch _ _ _ _ _ (unrank lb (i' / M)) (i' - i' / M * M)); [apply Hv; [done|lia|done]| |by rewrite Ez].
  rewrite El, Ec, horner_unrank by done. lia.
Qed.

Lemma wp_QLinearMatMul Q m : get_accelerator_mode mode <> T_OS -> ready m -> acc_act (st (gs m)) <> SOFTMAX -> dram m = d ->
  (forall m', mem_differ (span (shape_size os * (M * N)) Y) d (dram m') -> products_hold (dram m') -> Q StatusOK m') ->
  wp (QLinearMatMul_Compute mode c) Q m.
Proof.
  intros Hmode Hrd Hact Hm HQ. pose proof (mc_broadcast d Hc) as Hb. destruct (compatible_pos _ _ Hb) as (Hlp & Hrp & Hop), (mc_dims d Hc) as (? & ? & ? & ?), (mc_sizes d Hc) as (? & ? & ?).
  pose proof (shape_size_pos _ Hop). pose proof (shape_size_pos _ Hlp). pose proof (mul_pos M N ltac:(lia) ltac:(lia)). pose proof (mul_pos (shape_size os) (M * N) ltac:(lia) ltac:(lia)).
  pose proof (le_mul_r M (shape_size os) ltac:(lia) ltac:(lia)).
  unfold QLinearMatMul_Compute, return_if_error. rewrite (mc_a d Hc), (mc_b d Hc). apply wp_bind, wp_helper_Compute; [done|lia..|]. intros h Hh.
  assert (mh_output_shape h = os ++ [M; N]) as Eshape.
  { destruct Hh as [Hh|Hh]; [apply Hh|]. destruct (broadcast_ones lp rp (unrank os 0) Hb (fl_right _ _ _ _ _ _ Hh) ltac:(by apply unrank_in_dims)) as [-> _].
    rewrite (fl_shape _ _ _ _ _ _ Hh). by rewrite (fl_left _ _ _ _ _ _ Hh). }
  rewrite Eshape. apply wp_bind, wp_Size_pos; [apply Forall_app; split; [done|repeat constructor; lia]|rewrite shape_size_app; cbn; lia|].
  rewrite shape_size_app. cbn [shape_size foldr]. rewrite Z.mul_1_r. assert ((shape_size os * (M * N) =? 0) = false) as -> by lia.
  apply wp_bind, (wp_validate_zero_points d); [apply Hc|done|]. apply wp_bind, (wp_validate_scales d); [apply Hc|done|]. rewrite <- (mc_scale d Hc).
  apply wp_bind. destruct Hh as [[(-> & -> & ->) _ Hcount Hentry]|[El Hones (-> & -> & ->) _ (-> & -> & ->)]].
  - rewrite !(wrap_s_id 32) by (done || unfold in_s; lia). rewrite Hcount. eapply wp_batches; [apply stack_ready|done..|lia| |].
    + intros t Ht. pose proof (Hentry (unrank os t) ltac:(by apply unrank_in_dims)) as He. by rewrite horner_unrank in He.
    + intros m' Hd Hv. apply wp_ret, HQ; [done|]. intros pos i j Hp Hi Hj. destruct (in_dims_unrank _ _ Hp) as [Ht Eu].
      specialize (Hv (horner os pos 0) i j Ht Hi Hj). rewrite (product_batch _ _ _ _ _ pos i) in Hv by (by rewrite Eu). etransitivity; [|exact Hv].
      f_equal. ring.
  - destruct (broadcast_ones lp rp (unrank os 0) Hb Hones ltac:(by apply unrank_in_dims)) as [Eo' _].
    assert (os = lb) as Eo by congruence. clear Eo'. rewrite Eo in *.
    pose proof (mul_pos (shape_size lb) M ltac:(lia) ltac:(lia)). rewrite !(wrap_s_id 32) by (done || unfold in_s; lia).
    cbn [length Z.of_nat Pos.of_succ_nat]. pose proof (flat_ready El Hones) as Hfr. rewrite Eo in Hfr. eapply wp_batches; [exact Hfr|done..| |].
    + intros t Ht. replace t with 0 by lia. unfold entry. by rewrite !Z.mul_0_l.
    + intros m' Hd Hv. rewrite Z.mul_1_l, <- Z.mul_assoc in Hd. apply wp_ret, HQ; [done|]. intros pos i j Hp Hi Hj. rewrite Eo in *.
      destruct (broadcast_ones lp rp pos Hb Hones ltac:(by rewrite Eo)) as (_ & Ec & Ez). destruct (in_dims_unrank _ _ Hp) as [Ht _].
      specialize (Hv 0 (horner lb pos 0 * M + i) j ltac:(lia) ltac:(by apply radix_bound) Hj).
      rewrite (product_batch _ _ _ _ _ pos i) in Hv; [etransitivity; [|exact Hv]; f_equal; ring| |by rewrite Ez]. rewrite Ec, El. ring.
Qed.
End run.

(** C7: the quantized matrix product.  For operands of any rank from two on whose leading
    dimensions can be broadcast (padded with ones in front), in CPU and in
    weight-stationary mode, the kernel returns [OK] and stores, at every position of the
    broadcast dimensions, the scaled and saturated product of the two matrices that
    numpy's broadcasting pairs there, whether the helper lists one product per position
    or flattens the left operand for a single one; no other byte changes. *)
Theorem qlinear_matmul_correct m : matmul_call (dram m) -> get_accelerator_mode mode <> T_OS -> ready m -> acc_act (st (gs m)) <> SOFTMAX ->
  wp (QLinearMatMul_Compute mode c) (fun status m' => status = StatusOK /\
    (forall pos i j, in_dims os pos -> 0 <= i < M -> 0 <= j < N ->
       mem_int 1 (dram m') (Y + ((horner os pos 0 * M + i) * N + j)) = s8 (default 0 (product_value (dram m) pos i j))) /\
    mem_differ (span (shape_size os * (M * N)) Y) (dram m) (dram m')) m.
Proof. intros Hc Hmode Hrd Hact. apply (wp_QLinearMatMul (dram m) Hc); [done..|]. intros m' Hd Hv. by split_and!. Qed.
End kernel.

(** ** Mismatches *)

(** Dimensions are always broadcast against ones. *)
Lemma broadcast_against_ones ls : Forall (fun l => 1 <= l) ls ->
  broadcast_dims ls (replicate (length ls) 1) = Val ls /\ broadcast_dims (replicate (length ls) 1) ls = Val ls.
Proof.
  induction 1 as [|l ls Hl _ [IH1 IH2]]; [done|]. cbn. rewrite IH1, IH2.
  replace (Z.max l 1) with l by lia. replace (Z.max 1 l) with l by lia. rewrite !Z.eqb_refl. cbn. by rewrite andb_false_r.
Qed.

Section mismatch.
Context {St : Type}.
Implicit Types s : St.

(** A vector on the left. *)
Lemma wp_helper_left_vector rb K K' N Q s : Forall (fun r => 1 <= r) rb -> K <> K' -> Q (Err FAIL) s ->
  wp (helper_Compute [K] (rb ++ [K'; N]) false false) Q s.
Proof.
  intros Hrb Hne HQ. pose proof (length_app rb [K'; N]) as Hlr. cbn [length] in Hlr.
  unfold helper_Compute, return_if_not. rewrite (proj2 (Nat.leb_le 1 (length (rb ++ [K'; N])))) by lia. cbn [length Nat.leb andb negb].
  apply wp_bind, wp_ret. unfold helper_general, padded_dims. cbn [length].
  rewrite (proj2 (Nat.eqb_neq (length (rb ++ [K'; N])) 1)) by lia. cbn [Nat.eqb orb negb].
  replace (Nat.max 1 (length (rb ++ [K'; N])) + 0)%nat with (length rb + 2)%nat by lia.
  apply wp_bind, wp_bind, (wp_copy_front _ [K]); [cbn; lia|]. apply wp_bind, wp_copy_front; [lia|]. apply wp_ret. rewrite Hlr.
  assert (pad_front (length rb + 2) [K] = replicate (length rb) 1 ++ [1; K]) as ->.
  { unfold pad_front. cbn [length]. replace (length rb + 2 - 1)%nat with (length rb + 1)%nat by lia. rewrite replicate_add, <- app_assoc. done. }
  assert (pad_front (length rb + 2) (rb ++ [K'; N]) = rb ++ [K'; N]) as -> by (unfold pad_front; by rewrite Hlr, Nat.sub_diag).
  rewrite length_app, length_replicate. cbn [length]. rewrite Nat.add_sub, !take_app_length' by (by rewrite ?length_replicate).
  destruct (broadcast_against_ones rb Hrb) as [_ ->]. unfold return_if_error. apply wp_bind, wp_ret. apply wp_bind, wp_ret.
  apply wp_bind. eapply wp_arr_get; [done..|]. replace (rb ++ [K'; N]) with ((rb ++ [K']) ++ [N]) at 1 by by rewrite <- app_assoc.
  apply wp_bind, wp_arr_get_app; [rewrite !length_app; cbn [length]; lia|].
  rewrite (proj2 (Nat.eqb_neq (Nat.max 1 (length rb + 2) - 1) 0)) by lia. unfold return_if_not.
  rewrite (proj2 (Nat.eqb_eq (length rb + 2 - 1) _)) by lia. apply wp_bind, wp_arr_get_app; [lia|].
  rewrite (proj2 (Z.eqb_neq K K')) by done. by apply wp_ret.
Qed.

Lemma wp_arr_put (l : list Z) (i : nat) j y Q s : (i < length l)%nat -> j = Z.of_nat i -> Q (<[i := y]> l) s -> wp (arr_set l j y) Q s.
Proof. intros Hi -> HQ. unfold arr_set. apply wp_bind, wp_check; [lia|]. apply wp_ret. by rewrite Nat2Z.id. Qed.

(** A vector on the right. *)
Lemma wp_helper_right_vector lb M K K' Q s : Forall (fun l => 1 <= l) lb -> 1 <= M -> K <> K' -> Q (Err FAIL) s ->
  wp (helper_Compute (lb ++ [M; K]) [K'] false false) Q s.
Proof.
  intros Hlb HM Hne HQ. pose proof (length_app lb [M; K]) as Hll. cbn [length] in Hll.
  unfold helper_Compute, return_if_not. rewrite (proj2 (Nat.leb_le 1 (length (lb ++ [M; K])))) by lia. cbn [length Nat.leb andb negb].
  rewrite andb_false_r. apply wp_bind, wp_ret. unfold helper_general, padded_dims. cbn [length Nat.eqb].
  rewrite Hll, (proj2 (Nat.eqb_neq (length lb + 2) 1)) by lia. cbn [orb negb].
  replace (Nat.max (length lb + 2) 1) with (length lb + 2)%nat by lia. rewrite (proj2 (Nat.leb_le 2 (length lb + 2))) by lia.
  apply wp_bind, wp_bind. eapply wp_arr_get; [done..|]. replace (length lb + 2 + 1)%nat with (length lb + 3)%nat by lia.
  apply wp_bind, (wp_arr_put _ (length lb + 1)); [rewrite length_replicate; lia|lia|]. apply wp_bind. unfold TensorShapeCopyDims. rewrite Hll.
  replace (Nat.min (length lb + 2 - 2) (length lb + 2)) with (length lb) by lia. rewrite length_replicate.
  apply wp_bind, wp_check; [apply Nat.leb_le; lia|]. apply wp_ret. rewrite take_0. cbn [app Nat.add]. rewrite take_app_length, drop_replicate.
  replace (length lb + 3 - length lb)%nat with 3%nat by lia. cbn [replicate].
  apply wp_bind, wp_arr_get_app; [lia|]. apply wp_bind, (wp_arr_put _ (length lb + 0)); [rewrite length_app; cbn [length]; lia|lia|].
  rewrite insert_app_r. cbn [insert list_insert].
  apply wp_bind. replace (lb ++ [M; K]) with ((lb ++ [M]) ++ [K]) at 1 by by rewrite <- app_assoc.
  apply wp_arr_get_app; [rewrite length_app; cbn [length]; lia|].
  apply wp_bind, (wp_arr_put _ (length lb + 2)); [rewrite length_app; cbn [length]; lia|lia|]. rewrite insert_app_r. cbn [insert list_insert].
  apply wp_ret. rewrite length_app. cbn [length]. replace (length lb + 3 - 2)%nat with (length lb + 1)%nat by lia.
  assert (take (length lb + 1) (lb ++ [M; 1; K]) = lb ++ [M]) as -> by (by rewrite take_app_add).
  rewrite take_insert_ge by lia. rewrite take_replicate, Nat.min_l by lia. replace (length lb + 1)%nat with (length (lb ++ [M])) by (by rewrite length_app).
  destruct (broadcast_against_ones (lb ++ [M])) as [-> _]; [apply Forall_app; by repeat constructor|].
  unfold return_if_error. apply wp_bind, wp_ret. apply wp_bind, wp_ret.
  apply wp_bind. replace (lb ++ [M; K]) with ((lb ++ [M]) ++ [K]) at 1 by by rewrite <- app_assoc.
  apply wp_arr_get_app; [rewrite length_app; cbn [length]; lia|]. apply wp_bind, wp_ret.
  rewrite (proj2 (Nat.eqb_neq (length lb + 2 - 1) 0)) by lia. unfold return_if_not.
  rewrite (proj2 (Nat.eqb_eq _ (length lb + 2 - 1))) by (rewrite length_app; cbn [length]; lia). apply wp_bind. eapply wp_arr_get; [done..|].
  rewrite (proj2 (Z.eqb_neq K K')) by done. by apply wp_ret.
Qed.

(** Two matrices, or stacks of matrices that can be broadcast. *)
Lemma wp_helper_stacks lb rb M K K' N Q s : let nb := Nat.max (length lb) (length rb) in
  Forall2 compatible (pad_front nb lb) (pad_front nb rb) -> 1 <= M -> 1 <= K -> 1 <= K' -> 1 <= N -> K <> K' ->
  shape_size lb * (M * K) < 2 ^ 60 -> shape_size rb * (K' * N) < 2 ^ 60 -> Q (Err FAIL) s ->
  wp (helper_Compute (lb ++ [M; K]) (rb ++ [K'; N]) false false) Q s.
Proof.
  intros nb Hc HM HK HK' HN Hne Hl Hr HQ. assert ((K =? K') = false) as E by lia.
  apply (wp_helper_Compute_to lb rb M N K Hc); [done..| |].
  - apply wp_helper_general_to; [done|]. unfold return_if_not. rewrite E. by apply wp_ret.
  - intros Hlen _. assert (pad_front nb lb = lb) as El by (unfold pad_front, nb; by replace (Nat.max (length lb) (length rb) - length lb)%nat with 0%nat by lia).
    apply wp_helper_flat_to; [done..|by fold nb; rewrite El|done|]. unfold return_if_not. rewrite E. by apply wp_ret.
Qed.
End mismatch.

(** Shapes of two operands, not both vectors, whose inner dimensions differ. *)
Inductive inner_mismatch : shape -> shape -> Prop :=
| mm_stacks lb rb M K K' N : let nb := Nat.max (length lb) (length rb) in
    Forall2 compatible (pad_front nb lb) (pad_front nb rb) -> 1 <= M -> 1 <= K -> 1 <= K' -> 1 <= N -> K <> K' ->
    shape_size lb * (M * K) < 2 ^ 60 -> shape_size rb * (K' * N) < 2 ^ 60 -> inner_mismatch (lb ++ [M; K]) (rb ++ [K'; N])
| mm_left_vector rb K K' N : Forall (fun r => 1 <= r) rb -> K <> K' -> inner_mismatch [K] (rb ++ [K'; N])
| mm_right_vector lb M K K' : Forall (fun l => 1 <= l) lb -> 1 <= M -> K <> K' -> inner_mismatch (lb ++ [M; K]) [K'].

(** C35: inner dimensions that differ are refused.  For matrices, stacks of matrices
    that can be broadcast, and a vector with a matrix or a stack on either side, the
    kernel returns the status [FAIL] when the inner dimensions of its operands differ,
    and leaves the machine and all of memory as they were.  (Two vectors are the
    exception, see [dot_product_unchecked].) *)
Theorem matmul_mismatch {mem : Type} `{Mmu mem} `{Rand} mode c (m : machine mem) :
  inner_mismatch (t_shape (mx_a c)) (t_shape (mx_b c)) -> QLinearMatMul_Compute mode c m = (Ok FAIL, m).
Proof.
  intros Hmm. assert (wp (QLinearMatMul_Compute mode c) (fun r m' => r = FAIL /\ m' = m) m) as Hw.
  { unfold QLinearMatMul_Compute, return_if_error. apply wp_bind.
    destruct Hmm; [apply wp_helper_stacks|apply wp_helper_left_vector|apply wp_helper_right_vector]; try done; by apply wp_ret. }
  unfold wp in Hw. destruct (QLinearMatMul_Compute mode c m) as [[r|f] m']; [by destruct Hw as [-> ->]|done].
Qed.

(** The product of two vectors is accepted whatever their lengths: the case of a scalar
    result does not compare them. *)
Theorem dot_product_unchecked {St} a b (s : St) :
  helper_Compute [a] [b] false false s =
  (Ok (Val {| mh_output_shape := []; mh_M := 1; mh_N := 1; mh_K := a; mh_left_offsets := [0]; mh_right_offsets := [0]; mh_output_offsets := [0] |}), s).
Proof. reflexivity. Qed.

(** With a transposed right operand [[N, K']] a left operand whose inner dimension is [N] is accepted. *)
Lemma transb_unchecked {St} m n k (s : St) : 0 <= m -> 0 <= n -> m < 2 ^ 63 -> n < 2 ^ 63 ->
  helper_Compute [m; n] [n; k] false true s =
  (Ok (Val {| mh_output_shape := [m; n]; mh_M := m; mh_N := n; mh_K := n; mh_left_offsets := [0]; mh_right_offsets := [0]; mh_output_offsets := [0] |}), s).
Proof.
  intros Hm Hn Hm' Hn'.
  assert (forall x y Q, 0 <= x < 2 ^ 63 -> Q x s -> wp (SizeToDimension [x; y] 1) Q s) as Hsize.
  { intros x y Q Hx HQ. unfold SizeToDimension. apply wp_bind, wp_enforce; [done|]. fold (Size (S := St) [x]). apply wp_Size.
    - apply Forall_singleton. lia.
    - unfold shape_size. intros [|[|j]]; cbn [take foldr]; lia.
    - change (shape_size (take 1 [x; y])) with (x * 1). by rewrite Z.mul_1_r. }
  assert (wp (helper_Compute [m; n] [n; k] false true) (fun r s' => s' = s /\
    r = Val {| mh_output_shape := [m; n]; mh_M := m; mh_N := n; mh_K := n; mh_left_offsets := [0]; mh_right_offsets := [0]; mh_output_offsets := [0] |}) s) as Hw.
  { unfold helper_Compute, return_if_not. cbn [length Nat.leb negb andb]. apply wp_bind, wp_bind, Hsize; [done|]. wp_get. apply wp_ret. rewrite Z.eqb_refl.
    unfold helper_flat. apply wp_bind, Hsize; [done|]. do 2 wp_get. apply wp_bind. unfold arr_set. apply wp_bind, wp_check; [done|]. apply wp_ret.
    do 2 wp_get. unfold return_if_not. rewrite Z.eqb_refl. cbn [orb]. by apply wp_ret. }
  unfold wp in Hw. destruct (helper_Compute _ _ _ _ s) as [[r|f] s']; [by destruct Hw as [-> ->]|done].
Qed.

(** ** Witnesses: a matrix times a stack of two *)

Definition stack_context : matmul_context :=
  let at_ s a := {| t_shape := s; t_data := a |} in
  {| mx_a := at_ [1; 2; 2] 0x1001; mx_a_scale := at_ [] 0x103c; mx_a_offset := at_ [] 0x1000;
     mx_b := at_ [2; 2; 2] 0x1008; mx_b_scale := at_ [] 0x103c; mx_b_offset := at_ [] 0x1000;
     mx_y_scale := at_ [] 0x103c; mx_y_offset := at_ [] 0x1000; mx_output := fun _ => 0x1080 |}.

Definition stack_scale : float32 :=
  Eval vm_compute in f32_div (f32_mul (float_at (dram demo) (mx_a_scale stack_context)) (float_at (dram demo) (mx_b_scale stack_context)))
    (float_at (dram demo) (mx_y_scale stack_context)).

Lemma stack_call : matmul_call stack_context [1] [2] 2 2 2 stack_scale (dram demo).
Proof.
  assert (forall a size, 0x1000 <= a -> a + size <= 0x1100 -> mem_readable size (dram demo) a) as Hrd
    by (intros a size Ha Hs; apply flat_mem_readable; simpl; lia).
  split.
  - done.
  - done.
  - constructor; [unfold compatible; lia|constructor].
  - by vm_compute.
  - by vm_compute.
  - unfold zero_point_ok, scalar_ok. split_and!; first [apply Hrd; simpl; lia | by vm_compute].
  - unfold scale_ok, scalar_ok. split_and!; first [apply Hrd; simpl; lia | by vm_compute].
  - by vm_compute.
  - split; [by vm_compute|apply Hrd; by vm_compute].
  - split; [by vm_compute|apply Hrd; by vm_compute].
  - split; [by vm_compute|]. apply flat_mem_writable; by vm_compute.
  - vm_compute. intuition discriminate.
  - by vm_compute.
  - intros pos i j Hp Hi Hj. inv Hp as [|? x ? pos' Hx Hp']. inv Hp'.
    apply (by_evaluation (fun e : Z * (Z * Z) => is_Some (product_value stack_context [1] [2] 2 2 2 stack_scale (dram demo) [e.1] e.2.1 e.2.2))
      (fun e : Z * (Z * Z) => defined (product_value stack_context [1] [2] 2 2 2 stack_scale (dram demo) [e.1] e.2.1 e.2.2))
      (concat ((fun x => (fun q => (x, q)) <$> pairs 2 2) <$> seqZ 0 2)) ltac:(intros e; apply defined_is_Some) ltac:(by vm_compute) (x, (i, j))).
    apply list_elem_of_In, in_concat. exists ((fun q => (x, q)) <$> pairs 2 2). rewrite <- !list_elem_of_In. split.
    + apply list_elem_of_fmap. exists x. split; [done|]. apply elem_of_seqZ. cbn in Hx. lia.
    + apply list_elem_of_fmap. exists (i, j). split; [done|]. by apply elem_of_pairs.
Qed.

Lemma qlinear_matmul_correct_witness :
  wp (QLinearMatMul_Compute (H0 := zero_rand) 2 stack_context) (fun status m' => status = StatusOK /\ mem_int 1 (dram m') (0x1080 + 4) = 30) demo.
Proof.
  eapply wp_mono; [apply (qlinear_matmul_correct (H1 := zero_rand) 2 stack_context [1] [2] 2 2 2 stack_scale demo stack_call ltac:(done) demo_ready ltac:(done))|].
  intros status m' (-> & Hv & _). split; [done|].
  etransitivity; [exact (Hv [1] 0 0 ltac:(repeat constructor; cbn; lia) ltac:(lia) ltac:(lia))|]. by vm_compute.
Defined.

(** A stack of matrices times a matrix, and times a vector. *)
Definition mismatch_context (a b : shape) : matmul_context :=
  let at_ s a := {| t_shape := s; t_data := a |} in
  {| mx_a := at_ a 0x1001; mx_a_scale := at_ [] 0x103c; mx_a_offset := at_ [] 0x1000;
     mx_b := at_ b 0x1008; mx_b_scale := at_ [] 0x103c; mx_b_offset := at_ [] 0x1000;
     mx_y_scale := at_ [] 0x103c; mx_y_offset := at_ [] 0x1000; mx_output := fun _ => 0x1080 |}.

Lemma matmul_mismatch_witness :
  QLinearMatMul_Compute (H0 := zero_rand) 2 (mismatch_context [3; 2; 4] [5; 7]) demo = (Ok FAIL, demo) /\
  QLinearMatMul_Compute (H0 := zero_rand) 2 (mismatch_context [3; 2; 4] [5]) demo = (Ok FAIL, demo).
Proof.
  split.
  - apply (matmul_mismatch (H0 := zero_rand) 2 (mismatch_context [3; 2; 4] [5; 7]) demo).
    apply (mm_stacks [3] [] 2 4 5 7); first [lia | constructor; [unfold compatible; lia|constructor] | by vm_compute].
  - apply (matmul_mismatch (H0 := zero_rand) 2 (mismatch_context [3; 2; 4] [5]) demo).
    apply (mm_right_vector [3] 2 4 5); [by repeat constructor|lia..].
Defined.
