(* ===== verification/Graph.v ===== *)
(** * Graph: the part of ONNX Runtime's graph that the layout transformation works on

    [core/graph/graph.cc], [graph.h] and [graph_utils.cc]: nodes, their arguments, the
    edges between them, constant initializers, and the operations that generate names,
    add and remove nodes, edges and initializers.

    A [NodeArg*] is the name of the argument: a graph owns one [NodeArg] per name.  A
    [Node&] is the index of the node.  The graph is a main graph ([parent_graph_] is
    null); the flags that record that the graph has to be resolved again, node
    descriptions and domains are left out. *)

From stdpp Require Import strings pretty.
From S2P Require Import Prelude Effects Tensor.


(** ** Data *)

(** [TypeProto]: the element type and the shape of a tensor, dense or sparse; a dimension
    without a value is [None].  Sequences, maps and opaque types have no shape. *)
Inductive TypeProto :=
  | TensorType (elem_type : Z) (tensor_shape : option (list (option Z)))
  | SparseTensorType (elem_type : Z) (tensor_shape : option (list (option Z)))
  | OtherType.

(** [AttributeProto]: the field that is set. *)
Inductive AttributeProto :=
  | attr_i (i : Z)
  | attr_s (s : string)
  | attr_ints (ints : list Z)
  | attr_other.

Abbreviation NodeAttributes := (gmap string AttributeProto).

(** [Node::EdgeEnd]: the node at the other end, the output slot of the source and the
    input slot of the destination. *)
Abbreviation EdgeEnd := (nat * nat * nat)%type.

Record Node := {
  node_Name : string;
  op_type_ : string;
  input_defs : list string;
  output_defs : list string;
  implicit_input_defs : list string;
  attributes_ : NodeAttributes;
  execution_provider_type_ : string;
  input_edges : gset EdgeEnd;
  output_edges : gset EdgeEnd }.
#[export] Instance Node_eta : Eta Node := fun n => Build_Node (node_Name n) (op_type_ n) (input_defs n) (output_defs n)
  (implicit_input_defs n) (attributes_ n) (execution_provider_type_ n) (input_edges n) (output_edges n).

(** [TensorProto] with its data inside the model: the elements, given as raw bytes or in
    the field of the type. *)
Record TensorProto := { tp_name : string; tp_data_type : Z; tp_dims : list Z; tp_raw : bool; tp_data : list Z }.

Definition TensorProto_DataType_FLOAT : Z := 1.
Definition TensorProto_DataType_INT8 : Z := 3.

Record Graph := {
  nodes_ : list (option Node);
  num_of_nodes_ : Z;
  node_args_ : gmap string (option TypeProto);
  name_generator_ : Z;
  generated_node_names_ : gset string;
  generated_node_arg_names_ : gset string;
  name_to_initial_tensor_ : gmap string TensorProto;
  graph_inputs_including_initializers_ : list string;
  graph_outputs_ : list string;
  ir_version_ : Z;
  is_loaded_from_model_file_ : bool }.
#[export] Instance Graph_eta : Eta Graph := fun g => Build_Graph (nodes_ g) (num_of_nodes_ g) (node_args_ g) (name_generator_ g)
  (generated_node_names_ g) (generated_node_arg_names_ g) (name_to_initial_tensor_ g) (graph_inputs_including_initializers_ g)
  (graph_outputs_ g) (ir_version_ g) (is_loaded_from_model_file_ g).

(** ** Nodes *)

Definition graph_node (g : Graph) (i : nat) : option Node := mjoin (nodes_ g !! i).

(** [*graph.GetNode(index)]; dereferencing the null pointer of a removed node is
    undefined. *)
Definition GetNode (node_index : nat) : M Graph Node :=
  g ← gets id;
  check (bool_decide (node_index < length (nodes_ g))%nat) EnforceFailed ;;
  of_option Undefined (graph_node g node_index).

(** A store through a [Node&]. *)
Definition update_node (node_index : nat) (f : Node -> Node) : M Graph unit :=
  modify (fun g => g <| nodes_ := alter (option_map f) node_index (nodes_ g) |>).

(** [node.AddAttribute(attr_name, value)] *)
Definition AddAttribute (node_index : nat) (attr_name : string) (value : AttributeProto) : M Graph unit :=
  update_node node_index (fun n => n <| attributes_ := <[attr_name := value]> (attributes_ n) |>).

(** [graph_utils::GetNodeAttribute] *)
Definition GetNodeAttribute (n : Node) (attr_name : string) : option AttributeProto := attributes_ n !! attr_name.

(** [graph_utils::GetRepeatedNodeAttributeValues<int64_t>]: the values, when the
    attribute is there. *)
Definition GetRepeatedNodeAttributeValues (n : Node) (attr_name : string) : option (list Z) :=
  match GetNodeAttribute n attr_name with
  | Some (attr_ints l) => Some l
  | Some _ => Some []
  | None => None
  end.

(** ** Names *)

(** The loop of the two generators: as long as the name is used, the next one with a
    number appended is tried. *)
Fixpoint generate_name (fuel : nat) (used : string -> bool) (base_name new_name : string) (name_generator : Z) : option (string * Z) :=
  if used new_name then
    match fuel with
    | O => None
    | S fuel' => generate_name fuel' used base_name (base_name +:+ "_token_" +:+ pretty name_generator) (s32 (name_generator + 1))
    end
  else Some (new_name, name_generator).

Definition arg_name_used (g : Graph) (name : string) : bool :=
  bool_decide (name ∈ dom (node_args_ g)) || bool_decide (name ∈ generated_node_arg_names_ g).

Definition GenerateNodeArgName (base_name : string) : M Graph string :=
  g ← gets id;
  p ← of_option LoopWraps (generate_name (S (size (node_args_ g) + size (generated_node_arg_names_ g)))
        (arg_name_used g) base_name base_name (name_generator_ g));
  modify (fun g => (g <| name_generator_ := snd p |>)
    <| generated_node_arg_names_ := {[ fst p ]} ∪ generated_node_arg_names_ g |>) ;;
  mret (fst p).

Definition node_name_used (g : Graph) (name : string) : bool :=
  existsb (fun o => match o with Some n => bool_decide (node_Name n = name) | None => false end) (nodes_ g)
  || bool_decide (name ∈ generated_node_names_ g).

Definition GenerateNodeName (base_name : string) : M Graph string :=
  g ← gets id;
  p ← of_option LoopWraps (generate_name (S (length (nodes_ g) + size (generated_node_names_ g)))
        (node_name_used g) base_name base_name (name_generator_ g));
  modify (fun g => (g <| name_generator_ := snd p |>)
    <| generated_node_names_ := {[ fst p ]} ∪ generated_node_names_ g |>) ;;
  mret (fst p).

(** ** Arguments and initializers *)

Definition GetOrCreateNodeArg (name : string) (p_arg_type : option TypeProto) : M Graph string :=
  g ← gets id;
  match node_args_ g !! name with
  | Some _ => mret name
  | None => modify (fun g => g <| node_args_ := <[name := p_arg_type]> (node_args_ g) |>) ;; mret name
  end.

(** [node_arg->TypeAsProto()] *)
Definition TypeAsProto (g : Graph) (node_arg : string) : option TypeProto := mjoin (node_args_ g !! node_arg).

(** [node_arg->Shape()] *)
Definition arg_Shape (g : Graph) (node_arg : string) : option (list (option Z)) :=
  match TypeAsProto g node_arg with Some (TensorType _ s) => s | Some (SparseTensorType _ s) => s | _ => None end.

(** [node_arg->ClearShape()] *)
Definition ClearShape (node_arg : string) : M Graph unit :=
  modify (fun g => g <| node_args_ := alter (option_map (fun t => match t with TensorType e _ => TensorType e None | SparseTensorType e _ => SparseTensorType e None | OtherType => OtherType end))
    node_arg (node_args_ g) |>).

Definition GetInitializedTensor (g : Graph) (tensor_name : string) : option TensorProto := name_to_initial_tensor_ g !! tensor_name.

Definition CanOverrideInitializer (g : Graph) : bool := 4 <=? ir_version_ g.

Definition GetConstantInitializer (g : Graph) (initializer_name : string) : option TensorProto :=
  match GetInitializedTensor g initializer_name with
  | Some t =>
    if CanOverrideInitializer g && bool_decide (initializer_name ∈ graph_inputs_including_initializers_ g) then None else Some t
  | None => None
  end.

(** [graph_utils::NodeArgIsConstant] *)
Definition NodeArgIsConstant (g : Graph) (node_arg : string) : bool := bool_decide (is_Some (GetConstantInitializer g node_arg)).

(** A tensor under a name that exists is refused: it cannot be the same object. *)
Definition AddInitializedTensor (tensor : TensorProto) : M Graph unit :=
  g ← gets id;
  check (bool_decide (name_to_initial_tensor_ g !! tp_name tensor = None)) EnforceFailed ;;
  modify (fun g => g <| name_to_initial_tensor_ := <[tp_name tensor := tensor]> (name_to_initial_tensor_ g) |>) ;;
  when (negb (is_loaded_from_model_file_ g) && bool_decide (node_args_ g !! tp_name tensor = None))
    (GetOrCreateNodeArg (tp_name tensor) (Some (TensorType (tp_data_type tensor) None)) ;; mret tt).

(** [graph_utils::AddInitializer] *)
Definition AddInitializer (new_initializer : TensorProto) : M Graph string :=
  g ← gets id;
  check (bool_decide (GetInitializedTensor g (tp_name new_initializer) = None)) EnforceFailed ;;
  AddInitializedTensor new_initializer ;;
  GetOrCreateNodeArg (tp_name new_initializer) (Some (TensorType (tp_data_type new_initializer) (Some (Some <$> tp_dims new_initializer)))).

(** ** Nodes and edges *)

Definition AllocateNode (n : Node) : M Graph nat :=
  g ← gets id;
  check (Z.of_nat (length (nodes_ g)) <? 2 ^ 31 - 1) EnforceFailed ;;
  modify (fun g => (g <| nodes_ := nodes_ g ++ [Some n] |>) <| num_of_nodes_ := num_of_nodes_ g + 1 |>) ;;
  mret (length (nodes_ g)).

(** [AddNode] with [Node::Init]; the arguments it names are created when they are new. *)
Definition AddNode (name op_type : string) (input_args output_args : list string) (attributes : NodeAttributes) : M Graph nat :=
  for_list (fun a => g ← gets id; GetOrCreateNodeArg a (TypeAsProto g a) ;; mret tt) input_args ;;
  for_list (fun a => g ← gets id; GetOrCreateNodeArg a (TypeAsProto g a) ;; mret tt) output_args ;;
  AllocateNode {|
    node_Name := name; op_type_ := op_type; input_defs := input_args; output_defs := output_args;
    implicit_input_defs := []; attributes_ := attributes; execution_provider_type_ := "";
    input_edges := ∅; output_edges := ∅ |}.

Definition RemoveEdge (src_node_index dst_node_index src_arg_slot dst_arg_slot : nat) : M Graph unit :=
  g ← gets id;
  src ← of_option EnforceFailed (graph_node g src_node_index);
  dst ← of_option EnforceFailed (graph_node g dst_node_index);
  src_arg ← of_option EnforceFailed (output_defs src !! src_arg_slot);
  dst_arg ← of_option EnforceFailed
    (if bool_decide (dst_arg_slot < length (input_defs dst))%nat then input_defs dst !! dst_arg_slot
     else implicit_input_defs dst !! (dst_arg_slot - length (input_defs dst))%nat);
  check (bool_decide (src_arg = dst_arg)) EnforceFailed ;;
  update_node dst_node_index (fun n => n <| input_edges := input_edges n ∖ {[ (src_node_index, src_arg_slot, dst_arg_slot) ]} |>) ;;
  update_node src_node_index (fun n => n <| output_edges := output_edges n ∖ {[ (dst_node_index, src_arg_slot, dst_arg_slot) ]} |>).

(** [GraphEdge::GetNodeOutputEdges(node, index)]: the edges of an output.
    [CreateGraphEdge] looks up the name of the output. *)
Definition GetNodeOutputEdges (node : Node) (index : nat) : M Graph (list EdgeEnd) :=
  let edges := filter (fun e : EdgeEnd => e.1.2 = index) (elements (output_edges node)) in
  check (bool_decide (edges = [] \/ index < length (output_defs node))%nat) EnforceFailed ;;
  mret edges.

(** [graph_utils::RemoveNodeOutputEdges(graph, node, output_idx)] with
    [GraphEdge::RemoveGraphEdges] *)
Definition RemoveNodeOutputEdges (node_index output_idx : nat) : M Graph nat :=
  node ← GetNode node_index;
  edges ← GetNodeOutputEdges node output_idx;
  for_list (fun e : EdgeEnd => RemoveEdge node_index e.1.1 e.1.2 e.2) edges ;;
  mret (length edges).

Definition RemoveNode (p_index : nat) : M Graph bool :=
  g ← gets id;
  check (bool_decide (p_index < length (nodes_ g))%nat) EnforceFailed ;;
  match graph_node g p_index with
  | None => mret false
  | Some node =>
    check (bool_decide (size (output_edges node) = 0%nat)) EnforceFailed ;;
    for_list (fun e : EdgeEnd => RemoveEdge e.1.1 p_index e.1.2 e.2) (elements (input_edges node)) ;;
    modify (fun g => (g <| nodes_ := <[p_index := None]> (nodes_ g) |>) <| num_of_nodes_ := num_of_nodes_ g - 1 |>) ;;
    mret true
  end.

(** [graph.GetNodeOutputsInGraphOutputs(node)] *)
Definition GetNodeOutputsInGraphOutputs (g : Graph) (node : Node) : list nat :=
  List.filter (fun i => match output_defs node !! i with Some a => bool_decide (a ∈ graph_outputs_ g) | None => false end)
    (seq 0 (length (output_defs node))).
