(* ===== verification/NhwcTransformer.v ===== *)
(** * NhwcTransformer: the transformation of a graph to NHWC layout

    [core/optimizer/systolic_nhwc_transformer.cc].  Convolutions become nodes that read
    and write images in NHWC order, with their weights reordered; nodes that do not care
    about the layout are rewired; max pooling is fused into the convolution before it or
    becomes a node of its own; where a tensor is still needed in NCHW order a transposition
    is inserted at the end.

    The order in which a hash map is traversed is not specified; it is a parameter.
    Messages of the logger are left out. *)

From stdpp Require Import strings pretty.
From S2P Require Import Prelude Effects Tensor Graph.

(** ** State *)

Record NhwcArgument := {
  output_node_ : nat;
  nhwc_arg_ : string;
  starting_original_uses_ : Z;
  remaining_original_uses_ : Z }.
#[export] Instance NhwcArgument_eta : Eta NhwcArgument := fun a =>
  Build_NhwcArgument (output_node_ a) (nhwc_arg_ a) (starting_original_uses_ a) (remaining_original_uses_ a).

Definition make_NhwcArgument (output_node : nat) (output_nhwc_arg : string) (original_uses : Z) : NhwcArgument := {|
  output_node_ := output_node; nhwc_arg_ := output_nhwc_arg;
  starting_original_uses_ := original_uses; remaining_original_uses_ := original_uses |}.

Record Transformer := {
  graph_ : Graph;
  pretraining_pass_ : bool;
  removed_nodes_ : list nat;
  nhwc_args_ : gmap string NhwcArgument;
  reorder_inputs_ : gmap string string;
  filters_transposed : gmap string string }.
#[export] Instance Transformer_eta : Eta Transformer := fun t =>
  Build_Transformer (graph_ t) (pretraining_pass_ t) (removed_nodes_ t) (nhwc_args_ t) (reorder_inputs_ t) (filters_transposed t).

Definition make_Transformer (graph : Graph) (pretraining_pass : bool) : Transformer := {|
  graph_ := graph; pretraining_pass_ := pretraining_pass; removed_nodes_ := [];
  nhwc_args_ := ∅; reorder_inputs_ := ∅; filters_transposed := ∅ |}.

(** An operation on the graph. *)
Definition on_graph {A} (m : M Graph A) : M Transformer A := fun t => let '(o, g) := m (graph_ t) in (o, t <| graph_ := g |>).

(** The order of [for (auto& x : map)] for an [unordered_map]. *)
Class HashOrder := hash_order : gmap string NhwcArgument -> list (string * NhwcArgument).
Class HashOrderLaw `{HashOrder} := hash_order_perm m : hash_order m ≡ₚ map_to_list m.

(** [nhwc_args_[key]->remaining_original_uses_--] *)
Definition consume_use (key : string) : M Transformer unit :=
  modify (fun t => t <| nhwc_args_ := alter (fun a => a <| remaining_original_uses_ := u64 (remaining_original_uses_ a - 1) |>) key (nhwc_args_ t) |>).

(** [node.MutableInputDefs()[idx] = arg] for a valid index *)
Definition set_input_def (node_index idx : nat) (arg : string) : M Graph unit :=
  update_node node_index (fun n => n <| input_defs := <[idx := arg]> (input_defs n) |>).

Definition set_output_def (node_index idx : nat) (arg : string) : M Graph unit :=
  update_node node_index (fun n => n <| output_defs := <[idx := arg]> (output_defs n) |>).

Definition SetExecutionProviderType (node_index : nat) (provider : string) : M Graph unit :=
  update_node node_index (fun n => n <| execution_provider_type_ := provider |>).

Definition kCpuExecutionProvider : string := "CPUExecutionProvider".
Definition kSystolicExecutionProvider : string := "SystolicExecutionProvider".

(** ** Attributes *)

(** [IsAttributeUnsetOrWithExpectedValue] for a string *)
Definition attribute_unset_or_s (node : Node) (attr_name expected_value : string) : bool :=
  match GetNodeAttribute node attr_name with Some (attr_s s) => bool_decide (s = expected_value) | _ => true end.

(** [IsAttributeUnsetOrWithExpectedValue] for an integer *)
Definition attribute_unset_or_i (node : Node) (attr_name : string) (expected_value : Z) : bool :=
  match GetNodeAttribute node attr_name with Some (attr_i i) => i =? expected_value | _ => true end.

(** [IsAttributeUnsetOrWithExpectedValues] *)
Definition attribute_unset_or_ints (node : Node) (attr_name : string) (expected_values : list Z) : bool :=
  match GetNodeAttribute node attr_name with
  | Some (attr_ints []) => true
  | Some (attr_ints l) => bool_decide (l = expected_values)
  | _ => true
  end.

(** ** Weights *)

(** [v[i]] and [v[i] = x] for a vector; an index out of range is undefined. *)
Definition vector_get {S} (v : list Z) (i : Z) : M S Z :=
  of_option Undefined (if 0 <=? i then v !! Z.to_nat i else None).
Definition vector_put {S} (v : list Z) (i x : Z) : M S (list Z) :=
  check ((0 <=? i) && (i <? Z.of_nat (length v))) Undefined ;; mret (<[Z.to_nat i := x]> v).

Definition OcIcHW_to_HWIO {S} (OC IC H W : Z) (oihw_input hwio_output : list Z) : M S (list Z) :=
  fold_range 0 (s32 (H * W)) (fun out k =>
    fold_range 0 IC (fun out ic =>
      fold_range 0 OC (fun out oc =>
        v ← vector_get oihw_input (s32 (oc * H * W * IC + ic * H * W + k));
        vector_put out (s32 (k * IC * OC + ic * OC + oc)) v) out) out) hwio_output.

(** The elements of [Initializer conv_W{proto}]: raw bytes are taken as they are, typed
    data has to have as many elements as the dimensions say. *)
Definition initializer_data (t : TensorProto) : M Graph (list Z) :=
  if tp_raw t then mret (tp_data t)
  else
    check (s64 (shape_size (tp_dims t)) =? Z.of_nat (length (tp_data t))) EnforceFailed ;;
    mret (if tp_data_type t =? TensorProto_DataType_INT8 then s8 <$> tp_data t else tp_data t).

(** [OcIcHW_to_HWIO] on an initializer, and the new initializer. *)
Definition reorder_filter (w_arg : string) (conv_W : TensorProto) : M Graph string :=
  data ← initializer_data conv_W;
  let size_ := s64 (shape_size (tp_dims conv_W)) in
  check (0 <=? size_) EnforceFailed ;;
  match tp_dims conv_W with
  | [d0; d1; d2; d3] =>
    let OC := s32 d0 in let IC := s32 d1 in let H := s32 d2 in let W := s32 d3 in
    reordered_filter ← OcIcHW_to_HWIO OC IC H W data (replicate (Z.to_nat size_) 0);
    name ← GenerateNodeArgName (w_arg +:+ "_nhwc");
    AddInitializer {| tp_name := name; tp_data_type := tp_data_type conv_W; tp_dims := [H; W; IC; OC]; tp_raw := true; tp_data := reordered_filter |}
  | _ => fail Undefined
  end.

(** ** Bookkeeping *)

Definition ShouldTransform (t : Transformer) (node : Node) : bool :=
  pretraining_pass_ t || bool_decide (execution_provider_type_ node = kSystolicExecutionProvider).

Definition RemoveOutputEdges (node_index idx : nat) : M Graph Z :=
  output_edges_count ← RemoveNodeOutputEdges node_index idx;
  node ← GetNode node_index;
  g ← gets id;
  mret (Z.of_nat output_edges_count + if bool_decide (idx ∈ GetNodeOutputsInGraphOutputs g node) then 1 else 0).

Definition create_output (node_index nhwc_index : nat) (basename : string) (idx : nat) : M Transformer unit :=
  original_uses ← on_graph (RemoveOutputEdges node_index idx);
  nhwc_node ← on_graph (GetNode nhwc_index);
  output_original_arg ← of_option Undefined (output_defs nhwc_node !! idx);
  name ← on_graph (GenerateNodeArgName (basename +:+ "_nhwc_" +:+ pretty idx));
  output_nhwc_arg ← on_graph (GetOrCreateNodeArg name None);
  modify (fun t => t <| nhwc_args_ := <[output_original_arg := make_NhwcArgument nhwc_index output_nhwc_arg original_uses]> (nhwc_args_ t) |>) ;;
  on_graph (set_output_def nhwc_index idx output_nhwc_arg).

Definition CreateNhwcArgument (node_index nhwc_index : nat) (basename : string) : M Transformer unit :=
  nhwc_node ← on_graph (GetNode nhwc_index);
  for_list (create_output node_index nhwc_index basename) (seq 0 (length (output_defs nhwc_node))).

Definition FuseNhwcArgument (node_index : nat) (nhwc_arg : NhwcArgument) : M Transformer unit :=
  original_uses ← on_graph (RemoveOutputEdges node_index 0);
  node ← on_graph (GetNode node_index);
  output_original_arg ← of_option Undefined (output_defs node !! 0%nat);
  nhwc_node ← on_graph (GetNode (output_node_ nhwc_arg));
  output_nhwc_arg ← of_option Undefined (output_defs nhwc_node !! 0%nat);
  modify (fun t => t <| nhwc_args_ := <[output_original_arg := make_NhwcArgument (output_node_ nhwc_arg) output_nhwc_arg original_uses]> (nhwc_args_ t) |>).

Definition perm_attr (perm : list Z) : AttributeProto := attr_ints perm.

Definition InsertReorderInput (node_index : nat) : M Transformer unit :=
  node ← on_graph (GetNode node_index);
  input_original_arg ← of_option Undefined (input_defs node !! 0%nat);
  t ← gets id;
  match reorder_inputs_ t !! input_original_arg with
  | None =>
    name ← on_graph (GenerateNodeArgName "NHWCreorder");
    input_nhwc_arg ← on_graph (GetOrCreateNodeArg name None);
    modify (fun t => t <| reorder_inputs_ := <[input_original_arg := input_nhwc_arg]> (reorder_inputs_ t) |>) ;;
    node_name ← on_graph (GenerateNodeName "ReorderToNHWC");
    reorder ← on_graph (AddNode node_name "Transpose" [input_original_arg] [input_nhwc_arg] ∅);
    on_graph (AddAttribute reorder "perm" (perm_attr [0; 2; 3; 1])) ;;
    on_graph (SetExecutionProviderType reorder kCpuExecutionProvider) ;;
    on_graph (set_input_def node_index 0 input_nhwc_arg)
  | Some input_nhwc_arg => on_graph (set_input_def node_index 0 input_nhwc_arg)
  end.

(** [graph_.AddNode(...)] of a replacement, [nhwc_node], with the provider of the node *)
Definition add_replacement (node : Node) : M Graph nat :=
  nhwc_node_name ← GenerateNodeName (node_Name node +:+ "_nhwc");
  nhwc_index ← AddNode nhwc_node_name (op_type_ node +:+ "_nhwc") (input_defs node) (output_defs node) (attributes_ node);
  SetExecutionProviderType nhwc_index (execution_provider_type_ node) ;;
  mret nhwc_index.

Definition remove_later (node_index : nat) : M Transformer unit :=
  modify (fun t => t <| removed_nodes_ := node_index :: removed_nodes_ t |>).

(** ** The transformations *)

(** The weights of a convolution when they can be reordered: constant, of the type, of
    four dimensions. *)
Definition conv_weights (g : Graph) (ONNX_T : Z) (w_arg : string) : option TensorProto :=
  if NodeArgIsConstant g w_arg then
    match GetInitializedTensor g w_arg with
    | Some W => if (tp_data_type W =? ONNX_T) && (Z.of_nat (length (tp_dims W)) =? 4) then Some W else None
    | None => None
    end
  else None.

Definition TransformConv (ONNX_T : Z) (node_index weightIdx biasIdx : nat) : M Transformer unit :=
  node ← on_graph (GetNode node_index);
  t ← gets id;
  if negb (ShouldTransform t node) then mret tt
  else
    w_arg ← of_option Undefined (input_defs node !! weightIdx);
    match conv_weights (graph_ t) ONNX_T w_arg with
    | None => mret tt
    | Some conv_W =>
      nhwc_conv_W_arg ← match filters_transposed t !! w_arg with
        | Some a => mret a
        | None =>
          a ← on_graph (reorder_filter w_arg conv_W);
          modify (fun t => t <| filters_transposed := <[w_arg := a]> (filters_transposed t) |>) ;;
          mret a
        end;
      nhwc_index ← on_graph (add_replacement node);
      on_graph (set_input_def nhwc_index weightIdx nhwc_conv_W_arg) ;;
      when (bool_decide (length (input_defs node) = biasIdx + 1)%nat)
        (b ← of_option Undefined (input_defs node !! biasIdx); on_graph (set_input_def nhwc_index biasIdx b)) ;;
      input ← of_option Undefined (input_defs node !! 0%nat);
      t ← gets id;
      match nhwc_args_ t !! input with
      | None => InsertReorderInput nhwc_index
      | Some nhwc_input => on_graph (set_input_def nhwc_index 0 (nhwc_arg_ nhwc_input)) ;; consume_use input
      end ;;
      out ← of_option Undefined (output_defs node !! 0%nat);
      CreateNhwcArgument node_index nhwc_index out ;;
      remove_later node_index
    end.

Definition TransformPassThrough (node_index : nat) : M Transformer unit :=
  node ← on_graph (GetNode node_index);
  t ← gets id;
  if negb (ShouldTransform t node) then mret tt
  else
    input ← of_option Undefined (input_defs node !! 0%nat);
    match nhwc_args_ t !! input with
    | None => mret tt
    | Some nhwc_input =>
      on_graph (set_input_def node_index 0 (nhwc_arg_ nhwc_input)) ;;
      consume_use input ;;
      out ← of_option Undefined (output_defs node !! 0%nat);
      CreateNhwcArgument node_index node_index out
    end.

(** [utils::GetTensorShapeFromTensorShapeProto]: an unknown dimension is -1. *)
Definition GetTensorShapeFromTensorShapeProto (s : list (option Z)) : shape := (fun d => default (-1) d) <$> s.

Definition TransformQLinearAdd (node_index : nat) : M Transformer unit :=
  node ← on_graph (GetNode node_index);
  t ← gets id;
  if negb (ShouldTransform t node) then mret tt
  else
    tensor1 ← of_option Undefined (input_defs node !! 0%nat);
    tensor2 ← of_option Undefined (input_defs node !! 3%nat);
    match nhwc_args_ t !! tensor1, nhwc_args_ t !! tensor2 with
    | Some nhwc_input1, Some nhwc_input2 =>
      match arg_Shape (graph_ t) tensor1, arg_Shape (graph_ t) tensor2 with
      | Some s1, Some _ =>
        (* [shape2] is built from [tensor1] as well, and a mismatch is only logged;
           what is left of the test is that [Size] may throw *)
        Size (GetTensorShapeFromTensorShapeProto s1) ;;
        on_graph (set_input_def node_index 0 (nhwc_arg_ nhwc_input1)) ;;
        on_graph (set_input_def node_index 3 (nhwc_arg_ nhwc_input2)) ;;
        consume_use tensor1 ;;
        consume_use tensor2 ;;
        out ← of_option Undefined (output_defs node !! 0%nat);
        CreateNhwcArgument node_index node_index out
      | _, _ => mret tt
      end
    | _, _ => mret tt
    end.

(** The attributes of a pooling that is fused.  The braces of the call for [dilations]
    make a [std::string] of two characters, so that the overload for strings is the one
    that is called. *)
Definition pool_attributes_ok (node : Node) : bool :=
  match GetRepeatedNodeAttributeValues node "kernel_shape" with
  | Some kernel_shape => (length kernel_shape =? 2)%nat
  | None => false
  end
  && attribute_unset_or_s node "auto_pad" "NOTSET"
  && attribute_unset_or_i node "ceil_mode" 0
  && attribute_unset_or_s node "dilations" (String (Ascii.ascii_of_nat 1) (String (Ascii.ascii_of_nat 1) ""))
  && attribute_unset_or_i node "storage_order" 0.

Definition FuseMaxPoolWithConv (node_index : nat) : M Transformer bool :=
  node ← on_graph (GetNode node_index);
  if negb (length (output_defs node) =? 1)%nat then mret false
  else
    input ← of_option Undefined (input_defs node !! 0%nat);
    t ← gets id;
    match nhwc_args_ t !! input with
    | None => mret false
    | Some nhwc_input =>
      conv ← on_graph (GetNode (output_node_ nhwc_input));
      if negb (bool_decide (op_type_ conv = "QLinearConv_nhwc")) || (1 <? starting_original_uses_ nhwc_input) then mret false
      else
        on_graph (set_input_def node_index 0 (nhwc_arg_ nhwc_input)) ;;
        consume_use input ;;
        if negb (pool_attributes_ok node) then mret false
        else
          let kernel_shape := default [] (GetRepeatedNodeAttributeValues node "kernel_shape") in
          let pads := default [0; 0; 0; 0] (GetRepeatedNodeAttributeValues node "pads") in
          let strides := default [1; 1] (GetRepeatedNodeAttributeValues node "strides") in
          on_graph (AddAttribute (output_node_ nhwc_input) "maxpool" (attr_i 1)) ;;
          on_graph (AddAttribute (output_node_ nhwc_input) "pool_kernel_shape" (attr_ints kernel_shape)) ;;
          on_graph (AddAttribute (output_node_ nhwc_input) "pool_pads" (attr_ints pads)) ;;
          on_graph (AddAttribute (output_node_ nhwc_input) "pool_strides" (attr_ints strides)) ;;
          out ← of_option Undefined (output_defs node !! 0%nat);
          on_graph (ClearShape out) ;;
          FuseNhwcArgument node_index nhwc_input ;;
          remove_later node_index ;;
          mret true
    end.

Definition TransformMaxPool (node_index : nat) : M Transformer unit :=
  t ← gets id;
  fused ← (if pretraining_pass_ t then mret false else FuseMaxPoolWithConv node_index);
  if fused : bool then mret tt
  else
    node ← on_graph (GetNode node_index);
    input ← of_option Undefined (input_defs node !! 0%nat);
    t ← gets id;
    match nhwc_args_ t !! input with
    | None => mret tt
    | Some nhwc_input =>
      match TypeAsProto (graph_ t) input with
      | Some (TensorType elem_type _) =>
        if negb (elem_type =? TensorProto_DataType_FLOAT) then mret tt
        else if negb (attribute_unset_or_i node "storage_order" 0) then mret tt
        else if negb (attribute_unset_or_i node "ceil_mode" 0) then mret tt
        else
          nhwc_index ← on_graph (add_replacement node);
          on_graph (set_input_def nhwc_index 0 (nhwc_arg_ nhwc_input)) ;;
          consume_use input ;;
          out ← of_option Undefined (output_defs node !! 0%nat);
          CreateNhwcArgument node_index nhwc_index out ;;
          remove_later node_index
      | _ => mret tt
      end
    end.

Definition Transform (node_index : nat) : M Transformer unit :=
  node ← on_graph (GetNode node_index);
  if bool_decide (op_type_ node = "QLinearConv") then TransformConv TensorProto_DataType_INT8 node_index 3 8
  else if bool_decide (op_type_ node = "Conv") then TransformConv TensorProto_DataType_FLOAT node_index 1 2
  else if bool_decide (size (input_edges node) = 0%nat) && negb (bool_decide (length (input_defs node) = 0%nat)) then
    if bool_decide (op_type_ node = "QLinearRelu" \/ op_type_ node = "Relu") then TransformPassThrough node_index
    else if bool_decide (op_type_ node = "QLinearAdd") then TransformQLinearAdd node_index
    else if bool_decide (op_type_ node = "MaxPool") then TransformMaxPool node_index
    else mret tt
  else mret tt.

Section finalize.
Context `{HashOrder}.

(** A transposition back to NCHW for an output that is still used in that order. *)
Definition reorder_output (p : string * NhwcArgument) : M Graph unit :=
  if 0 <? remaining_original_uses_ (snd p) then
    name ← GenerateNodeName "ReorderToNCHW";
    reorder ← AddNode name "Transpose" [nhwc_arg_ (snd p)] [fst p] ∅;
    SetExecutionProviderType reorder kCpuExecutionProvider ;;
    AddAttribute reorder "perm" (perm_attr [0; 3; 1; 2])
  else mret tt.

Definition Finalize (modified : bool) : M Transformer bool :=
  t ← gets id;
  for_list (fun p => on_graph (reorder_output p)) (hash_order (nhwc_args_ t)) ;;
  for_list (fun i => on_graph (RemoveNode i ;; mret tt)) (removed_nodes_ t) ;;
  mret (match removed_nodes_ t with [] => modified | _ => true end).

(** [ApplyImpl] on a graph whose nodes hold no graphs of their own; the order of the nodes
    is the one [GraphViewer] returns. *)
Definition ApplyImpl (order : list nat) (modified : bool) : M Transformer bool :=
  for_list Transform order ;;
  Finalize modified.
End finalize.
