(* ===== verification/GraphSpec.v ===== *)
(** * GraphSpec: the operations on graphs

    The generators of names end with a name that is new; rules for the operations that
    the layout transformation calls. *)

From stdpp Require Import strings pretty.
From S2P Require Import Prelude Effects Tensor Graph.

(** ** Names *)

Lemma wrap_s_inj w a b : 0 < w -> Z.abs (a - b) < 2 ^ w -> wrap_s w a = wrap_s w b -> a = b.
Proof.
  intros Hw Hab E. unfold wrap_s in E. assert ((a + 2 ^ (w - 1)) mod 2 ^ w = (b + 2 ^ (w - 1)) mod 2 ^ w) as E' by lia.
  assert (0 < 2 ^ w) by (apply Z.pow_pos_nonneg; lia). apply Z.cong_iff_0 in E'.
  apply Z.mod_divide in E' as [k Hk]; [|lia]. destruct (Z.eq_dec k 0); [nia|]. exfalso. nia.
Qed.

Section generate.
Context (used : string -> bool) (U : list string) (base_name : string) (gen : Z).
Context (HU : forall n, used n = true -> n ∈ U).

Definition token (j : nat) : string := base_name +:+ "_token_" +:+ pretty (s32 (gen + Z.of_nat j)).

Lemma token_inj i j : Z.of_nat i < 2 ^ 32 -> Z.of_nat j < 2 ^ 32 -> token i = token j -> i = j.
Proof.
  intros Hi Hj E. unfold token in E. apply (inj (String.append base_name)), (inj (String.append "_token_")), (inj pretty) in E.
  apply wrap_s_inj in E; lia.
Qed.

(** As many different names as were tried are used. *)
Lemma tokens_bound k : Z.of_nat k <= 2 ^ 32 -> (forall j, (j < k)%nat -> token j ∈ U) -> (k <= length U)%nat.
Proof.
  intros Hk Hin. transitivity (length (token <$> seq 0 k)); [by rewrite length_fmap, length_seq|]. apply (NoDup_incl_length (l' := U)).
  - apply base.NoDup_ListNoDup. apply NoDup_fmap_2_strong; [|apply NoDup_seq].
    intros x y Hx%elem_of_seq Hy%elem_of_seq. apply token_inj; lia.
  - intros x Hx. apply list_elem_of_In. apply list_elem_of_In, list_elem_of_fmap in Hx as (j & -> & Hj%elem_of_seq).
    apply Hin. lia.
Qed.

Lemma generate_tokens fuel k : (forall j, (j < k)%nat -> token j ∈ U) -> Z.of_nat (k + fuel) < 2 ^ 32 -> (length U <= k + fuel)%nat ->
  exists n g, generate_name fuel used base_name (token k) (s32 (gen + Z.of_nat k + 1)) = Some (n, g) /\ used n = false /\ in_s 32 g.
Proof.
  revert k. induction fuel as [|fuel IH]; intros k Hin Hk Hs; simpl; (destruct (used (token k)) eqn:E;
    [|eexists _, _; split_and!; [done|done|apply wrap_s_range; lia]]).
  - exfalso. assert (S k <= length U)%nat; [|lia]. apply tokens_bound; [lia|]. intros j Hj. destruct (decide (j = k)) as [->|]; [by apply HU|apply Hin; lia].
  - replace (s32 (s32 (gen + Z.of_nat k + 1) + 1)) with (s32 (gen + Z.of_nat (S k) + 1)) by (rewrite wrap_s_add_l by lia; f_equal; lia).
    replace (base_name +:+ _) with (token (S k)) by (unfold token; do 4 f_equal; lia).
    apply IH; [|lia..]. intros j Hj. destruct (decide (j = k)) as [->|]; [by apply HU|apply Hin; lia].
Qed.

(** The loop ends with a name that is not in use when the names in use are fewer than
    the passes allowed, and these not more than the values of the counter. *)
Lemma generate_name_runs fuel : in_s 32 gen -> (length U < fuel)%nat -> Z.of_nat fuel <= 2 ^ 32 ->
  exists n g, generate_name fuel used base_name base_name gen = Some (n, g) /\ used n = false /\ in_s 32 g.
Proof.
  intros Hg Hs Hf. destruct fuel as [|fuel]; [lia|]. simpl. destruct (used base_name) eqn:E; [|eexists _, _; by split_and!].
  replace (pretty gen) with (pretty (s32 (gen + Z.of_nat 0))) by (change (Z.of_nat 0) with 0; rewrite Z.add_0_r, wrap_s_id; [done|lia|done]).
  replace (s32 (gen + 1)) with (s32 (gen + Z.of_nat 0 + 1)) by (f_equal; lia). apply (generate_tokens fuel 0); [intros j Hj; lia|lia..].
Qed.
End generate.

(** The names of a graph are fewer than the values of the counter. *)
Definition names_bounded (g : Graph) : Prop :=
  in_s 32 (name_generator_ g) /\ Z.of_nat (size (node_args_ g) + size (generated_node_arg_names_ g)) < 2 ^ 32 - 1 /\
  Z.of_nat (length (nodes_ g) + size (generated_node_names_ g)) < 2 ^ 32 - 1.

Lemma length_omap {A B} (f : A -> option B) l : (length (omap f l) <= length l)%nat.
Proof. induction l as [|x l IH]; csimpl; [done|]. case_match; csimpl; lia. Qed.

Lemma wp_GenerateNodeArgName base_name (Q : string -> Graph -> Prop) g : names_bounded g ->
  (forall name gen, name ∉ dom (node_args_ g) -> name ∉ generated_node_arg_names_ g -> in_s 32 gen ->
    Q name ((g <| name_generator_ := gen |>) <| generated_node_arg_names_ := {[ name ]} ∪ generated_node_arg_names_ g |>)) ->
  wp (GenerateNodeArgName base_name) Q g.
Proof.
  intros (Hg & Hs & _) HQ. unfold GenerateNodeArgName.
  destruct (generate_name_runs (arg_name_used g) (elements (dom (node_args_ g)) ++ elements (generated_node_arg_names_ g)) base_name (name_generator_ g))
    with (fuel := S (size (node_args_ g) + size (generated_node_arg_names_ g))) as (n & gen & E & Hn & Hgen); [|done| |lia|].
  - intros n. unfold arg_name_used. rewrite orb_true_iff, !bool_decide_eq_true, elem_of_app, !elem_of_elements. done.
  - rewrite length_app. change (length (elements (dom (node_args_ g)))) with (size (dom (node_args_ g))).
    change (length (elements (generated_node_arg_names_ g))) with (size (generated_node_arg_names_ g)). rewrite size_dom. lia.
  - apply wp_bind, wp_gets, wp_bind. unfold id. rewrite E. apply wp_ret, wp_bind, wp_modify, wp_ret. simpl.
    unfold arg_name_used in Hn. rewrite orb_false_iff, !bool_decide_eq_false in Hn. destruct Hn; by apply HQ.
Qed.

Lemma wp_GenerateNodeName base_name (Q : string -> Graph -> Prop) g : names_bounded g ->
  (forall name gen, in_s 32 gen ->
    Q name ((g <| name_generator_ := gen |>) <| generated_node_names_ := {[ name ]} ∪ generated_node_names_ g |>)) ->
  wp (GenerateNodeName base_name) Q g.
Proof.
  intros (Hg & _ & Hs) HQ. unfold GenerateNodeName.
  destruct (generate_name_runs (node_name_used g) (omap (fun o => node_Name <$> o) (nodes_ g) ++ elements (generated_node_names_ g)) base_name (name_generator_ g))
    with (fuel := S (length (nodes_ g) + size (generated_node_names_ g))) as (n & gen & E & Hn & Hgen); [|done| |lia|].
  - intros n. unfold node_name_used. rewrite orb_true_iff, bool_decide_eq_true, elem_of_app, elem_of_elements, existsb_exists.
    intros [(o & Ho & Hn)|]; [left|by right]. apply list_elem_of_omap. exists o. split; [by apply list_elem_of_In|].
    destruct o as [m|]; [|done]. apply bool_decide_eq_true in Hn as <-. done.
  - rewrite length_app. change (length (elements (generated_node_names_ g))) with (size (generated_node_names_ g)).
    pose proof (length_omap (fun o => node_Name <$> o) (nodes_ g)). lia.
  - apply wp_bind, wp_gets, wp_bind. unfold id. rewrite E. apply wp_ret, wp_bind, wp_modify, wp_ret. simpl. by apply HQ.
Qed.

(** C39: the generator of argument names ends and never repeats a name: of two calls, with
    whatever bases and even when nothing was created in between, each returns a name that
    no argument has, and the two names differ. *)
Theorem generated_names_fresh base1 base2 g : names_bounded g ->
  Z.of_nat (size (node_args_ g) + size (generated_node_arg_names_ g)) < 2 ^ 32 - 2 ->
  wp (n1 ← GenerateNodeArgName base1; n2 ← GenerateNodeArgName base2; mret (n1, n2))
    (fun p g' => (fst p ∉ dom (node_args_ g)) /\ (snd p ∉ dom (node_args_ g)) /\ fst p <> snd p /\ node_args_ g' = node_args_ g) g.
Proof.
  intros Hg Hs. apply wp_bind, wp_GenerateNodeArgName; [done|]. intros n1 gen1 Hn1 Hu1 Hgen1.
  apply wp_bind, wp_GenerateNodeArgName.
  - destruct Hg as (_ & _ & ?). split_and!; [done| |done]. cbn. rewrite size_union_alt, size_singleton.
    pose proof (subseteq_size (generated_node_arg_names_ g ∖ {[ n1 ]}) (generated_node_arg_names_ g) ltac:(set_solver)). lia.
  - intros n2 gen2 Hn2 Hu2 _. apply wp_ret. cbn in *. set_solver.
Qed.

(** A graph with arguments [args] and nothing else. *)
Definition args_graph (args : list string) : Graph := {|
  nodes_ := []; num_of_nodes_ := 0; node_args_ := list_to_map ((fun x => (x, None)) <$> args); name_generator_ := 0; generated_node_names_ := ∅;
  generated_node_arg_names_ := ∅; name_to_initial_tensor_ := ∅; graph_inputs_including_initializers_ := []; graph_outputs_ := []; ir_version_ := 4;
  is_loaded_from_model_file_ := false |}.

Lemma generated_names_fresh_witness :
  wp (n1 ← GenerateNodeArgName "x"; n2 ← GenerateNodeArgName "x"; mret (n1, n2))
    (fun p g' => (fst p ∉ dom (node_args_ (args_graph ["x"; "y"]))) /\ (snd p ∉ dom (node_args_ (args_graph ["x"; "y"]))) /\ fst p <> snd p /\
      node_args_ g' = node_args_ (args_graph ["x"; "y"])) (args_graph ["x"; "y"]).
Proof. apply (generated_names_fresh "x" "x" (args_graph ["x"; "y"])); [split_and!; vm_compute; (done || split; done)|vm_compute; reflexivity]. Defined.
