(* ===== verification/FilterSpec.v ===== *)
(** * FilterSpec: the weights of a convolution in NHWC order *)

From stdpp Require Import strings pretty.
From S2P Require Import Prelude Effects Tensor Graph GraphSpec NhwcTransformer LayoutGraph.

Lemma digit_inj B a b a' b' : 0 <= b < B -> 0 <= b' < B -> a * B + b = a' * B + b' -> a = a' /\ b = b'.
Proof. intros Hb Hb' E. assert (a = a') as -> by nia. lia. Qed.

Lemma digit_below a b A B : 0 <= a < A -> 0 <= b < B -> 0 <= a * B + b < A * B.
Proof. nia. Qed.

Section reorder.
Context (OC IC H W : Z).
Notation N := (OC * IC * H * W).

Definition hwio (k ic oc : Z) : Z := (k * IC + ic) * OC + oc.
Definition oihw (k ic oc : Z) : Z := (oc * IC + ic) * (H * W) + k.

Lemma hwio_bound k ic oc : 0 <= k < H * W -> 0 <= ic < IC -> 0 <= oc < OC -> 0 <= hwio k ic oc < N.
Proof. intros Hk Hi Ho. pose proof (digit_below _ _ _ _ (digit_below _ _ _ _ Hk Hi) Ho). unfold hwio. replace N with (H * W * IC * OC) by ring. lia. Qed.

Lemma oihw_bound k ic oc : 0 <= k < H * W -> 0 <= ic < IC -> 0 <= oc < OC -> 0 <= oihw k ic oc < N.
Proof. intros Hk Hi Ho. pose proof (digit_below _ _ _ _ (digit_below _ _ _ _ Ho Hi) Hk). unfold oihw. replace N with (OC * IC * (H * W)) by ring. lia. Qed.

Lemma hwio_inj k ic oc k' ic' oc' : 0 <= ic < IC -> 0 <= oc < OC -> 0 <= ic' < IC -> 0 <= oc' < OC ->
  hwio k ic oc = hwio k' ic' oc' -> k = k' /\ ic = ic' /\ oc = oc'.
Proof.
  unfold hwio. intros H1 H2 H3 H4 [E ->]%digit_inj; [|done..]. by apply digit_inj in E as [-> ->].
Qed.

Context {S : Type} (input : list Z).
Context (HOC : 0 <= OC) (HIC : 0 <= IC) (HH : 0 <= H) (HW : 0 <= W).
Context (HN : N < 2 ^ 31) (HHW : H * W < 2 ^ 31) (Hlen : Z.of_nat (length input) = N).

(** The positions below [c] are filled. *)
Definition filled (c : Z) (out : list Z) : Prop := Z.of_nat (length out) = N /\ forall k ic oc, 0 <= k < H * W -> 0 <= ic < IC -> 0 <= oc < OC ->
  hwio k ic oc < c -> out !! Z.to_nat (hwio k ic oc) = input !! Z.to_nat (oihw k ic oc).

Lemma wp_put k ic oc out (s : S) (Q : list Z -> S -> Prop) : 0 <= k < H * W -> 0 <= ic < IC -> 0 <= oc < OC -> filled (hwio k ic oc) out ->
  (forall out', filled (hwio k ic oc + 1) out' -> Q out' s) ->
  wp (v ← vector_get input (s32 (oc * H * W * IC + ic * H * W + k)); vector_put out (s32 (k * IC * OC + ic * OC + oc)) v) Q s.
Proof using HN Hlen.
  intros Hk Hi Ho [Hl Hf] HQ. pose proof (hwio_bound k ic oc Hk Hi Ho) as Hb. pose proof (oihw_bound k ic oc Hk Hi Ho) as Hb'.
  replace (oc * H * W * IC + ic * H * W + k) with (oihw k ic oc) by (unfold oihw; ring). replace (k * IC * OC + ic * OC + oc) with (hwio k ic oc) by (unfold hwio; ring).
  rewrite !wrap_s_id by (unfold in_s; lia). destruct (lookup_lt_is_Some_2 input (Z.to_nat (oihw k ic oc))) as [v Hv]; [lia|].
  apply wp_bind. unfold vector_get. rewrite (proj2 (Z.leb_le 0 _)), Hv by lia. apply wp_ret. unfold vector_put. apply wp_bind, wp_check; [lia|]. apply wp_ret, HQ. split; [by rewrite length_insert|].
  intros k' ic' oc' Hk' Hi' Ho' Hlt. pose proof (hwio_bound k' ic' oc' Hk' Hi' Ho') as Hb2. destruct (decide (hwio k' ic' oc' = hwio k ic oc)) as [E|E].
  - apply hwio_inj in E as (-> & -> & ->); [|done..]. rewrite list_lookup_insert_eq; [by rewrite Hv|lia].
  - rewrite list_lookup_insert_ne by lia. apply Hf; [done..|lia].
Qed.

Lemma wp_OcIcHW_to_HWIO out (s : S) (Q : list Z -> S -> Prop) : Z.of_nat (length out) = N -> (forall out', filled N out' -> Q out' s) ->
  wp (OcIcHW_to_HWIO OC IC H W input out) Q s.
Proof using All.
  intros Hout HQ. unfold OcIcHW_to_HWIO. rewrite wrap_s_id by (unfold in_s; nia).
  apply (wp_fold_range (fun k out s' => s' = s /\ filled (k * IC * OC) out)).
  - split; [done|]. split; [done|]. intros k ic oc Hk Hi Ho Hlt. pose proof (hwio_bound k ic oc Hk Hi Ho). lia.
  - intros k out1 ? Hk [-> Hf]. apply (wp_fold_range (fun ic out s' => s' = s /\ filled ((k * IC + ic) * OC) out)).
    + split; [done|]. by replace ((k * IC + 0) * OC) with (k * IC * OC) by ring.
    + intros ic out2 ? Hi [-> Hf2]. apply (wp_fold_range (fun oc out s' => s' = s /\ filled (hwio k ic oc) out)).
      * split; [done|]. unfold hwio. by rewrite Z.add_0_r.
      * intros oc out3 ? Ho [-> Hf3]. apply wp_put; [done..|]. intros out' Hf'. split; [done|]. unfold hwio in *. by rewrite Z.add_assoc.
      * intros out3 s3 [-> Hf3]. split; [done|]. replace ((k * IC + (ic + 1)) * OC) with (hwio k ic (Z.max 0 OC)); [done|]. unfold hwio. rewrite Z.max_r by done. ring.
    + intros out2 s2 [-> Hf2]. split; [done|]. replace ((k + 1) * IC * OC) with ((k * IC + Z.max 0 IC) * OC); [done|]. rewrite Z.max_r by done. ring.
  - intros out1 s1 [-> Hf]. apply HQ. rewrite Z.max_r in Hf by nia. by replace N with (H * W * IC * OC) by ring.
Qed.
End reorder.

(** Weights that can be reordered: four dimensions, all elements there, fewer than an
    [int] counts. *)
Definition weights_ok (T : TensorProto) : Prop :=
  exists OC IC H W, tp_dims T = [OC; IC; H; W] /\ 0 <= OC /\ 0 <= IC /\ 0 <= H /\ 0 <= W /\ OC < 2 ^ 31 /\ IC < 2 ^ 31 /\ H < 2 ^ 31 /\ W < 2 ^ 31 /\
    OC * IC * H * W < 2 ^ 31 /\ H * W < 2 ^ 31 /\ Z.of_nat (length (tp_data T)) = OC * IC * H * W.

Lemma initializer_data_elems T Q g : weights_ok T -> Q (tp_elems T) g -> wp (initializer_data T) Q g.
Proof.
  intros (OC & IC & H & W & Ed & ? & ? & ? & ? & ? & ? & ? & ? & HN & ? & Hl) HQ. unfold initializer_data, tp_elems in *. destruct (tp_raw T); [by apply wp_ret|].
  apply wp_bind, wp_check; [|by apply wp_ret]. rewrite Ed, Hl. unfold shape_size. simpl. replace (OC * (IC * (H * (W * 1)))) with (OC * IC * H * W) by ring.
  rewrite wrap_s_id; [lia|lia|unfold in_s; nia].
Qed.

Lemma length_elems T : length (tp_elems T) = length (tp_data T).
Proof. unfold tp_elems. repeat case_match; by rewrite ?length_fmap. Qed.

(** The graph after the reordered weights have been added. *)
Definition with_filter (w' : string) (T' : TensorProto) (ty : option TypeProto) (gen : Z) (g : Graph) : Graph :=
  (((g <| name_generator_ := gen |>) <| generated_node_arg_names_ := {[ w' ]} ∪ generated_node_arg_names_ g |>)
    <| name_to_initial_tensor_ := <[w' := T']> (name_to_initial_tensor_ g) |>) <| node_args_ := <[w' := ty]> (node_args_ g) |>.

Lemma wp_AddInitializer T (Q : string -> Graph -> Prop) g : tp_name T ∉ dom (node_args_ g) -> tp_name T ∉ dom (name_to_initial_tensor_ g) ->
  (forall ty, Q (tp_name T) ((g <| name_to_initial_tensor_ := <[tp_name T := T]> (name_to_initial_tensor_ g) |>) <| node_args_ := <[tp_name T := ty]> (node_args_ g) |>)) ->
  wp (AddInitializer T) Q g.
Proof.
  intros Ha Hi HQ. unfold AddInitializer, AddInitializedTensor, GetInitializedTensor, GetOrCreateNodeArg. apply not_elem_of_dom in Ha, Hi.
  apply wp_bind, wp_gets, wp_bind, wp_check; [by apply bool_decide_true|]. apply wp_bind, wp_bind, wp_gets, wp_bind, wp_check; [by apply bool_decide_true|].
  apply wp_bind, wp_modify. unfold id. rewrite bool_decide_true, andb_true_r by done. destruct (negb (is_loaded_from_model_file_ g)); cbn [when].
  - apply wp_bind, wp_bind, wp_gets. cbn. rewrite Ha. apply wp_bind, wp_modify, wp_ret, wp_ret, wp_bind, wp_gets. cbn. rewrite lookup_insert_eq. apply wp_ret. apply HQ.
  - apply wp_ret, wp_bind, wp_gets. cbn. rewrite Ha. apply wp_bind, wp_modify, wp_ret. apply HQ.
Qed.

Lemma wp_reorder_filter w T (Q : string -> Graph -> Prop) g : names_bounded g -> (forall x, x ∈ dom (name_to_initial_tensor_ g) -> x ∈ dom (node_args_ g)) -> weights_ok T ->
  (forall w' T' ty gen, w' ∉ dom (node_args_ g) -> in_s 32 gen -> reordered_weights T T' -> Q w' (with_filter w' T' ty gen g)) ->
  wp (reorder_filter w T) Q g.
Proof.
  intros Hb Hin HT HQ. unfold reorder_filter. apply wp_bind, initializer_data_elems; [done|]. pose proof (length_elems T) as Hel.
  destruct HT as (OC & IC & H & W & Ed & HOC & HIC & HH & HW & ? & ? & ? & ? & HN & HHW & Hl). rewrite Ed.
  assert (s64 (shape_size [OC; IC; H; W]) = OC * IC * H * W) as Es.
  { unfold shape_size. simpl. replace (OC * (IC * (H * (W * 1)))) with (OC * IC * H * W) by ring. apply wrap_s_id; [lia|]. unfold in_s. nia. }
  rewrite Es. apply wp_bind, wp_check; [nia|]. rewrite !wrap_s_id by (unfold in_s; lia). apply wp_bind, wp_OcIcHW_to_HWIO; [done..|lia| |].
  { rewrite length_replicate. nia. }
  intros out [Hol Hf]. apply wp_bind, wp_GenerateNodeArgName; [done|]. intros w' gen Hw' _ Hgen. apply wp_AddInitializer; [done|cbn; intros Hx; by apply Hw', Hin|].
  intros ty. apply (HQ w' _ ty gen); [done..|]. exists OC, IC, H, W. cbn. split_and!; try done.
  intros oc ic h k Ho Hi Hh Hk. pose proof (digit_below h k H W Hh Hk) as Hhk. specialize (Hf (h * W + k) ic oc Hhk Hi Ho). unfold hwio, oihw in Hf.
  rewrite Hf; [do 2 f_equal; ring|]. pose proof (hwio_bound OC IC H W (h * W + k) ic oc Hhk Hi Ho). unfold hwio in *. lia.
Qed.

(** C38: the weights of a convolution are all there after the reordering.  For weights of
    four dimensions with all their elements, [OcIcHW_to_HWIO] (with the initializer around
    it) returns, the new initializer has a name that was not used, the reversed dimensions
    and as many elements, and holds at height, width, input and output channel the weight
    that stood at output and input channel, height and width. *)
Theorem filter_reordered w T g : names_bounded g -> (forall x, x ∈ dom (name_to_initial_tensor_ g) -> x ∈ dom (node_args_ g)) -> weights_ok T ->
  wp (reorder_filter w T) (fun w' g' => (w' ∉ dom (node_args_ g)) /\ exists T', name_to_initial_tensor_ g' = <[w' := T']> (name_to_initial_tensor_ g) /\
    reordered_weights T T' /\ nodes_ g' = nodes_ g) g.
Proof. intros Hb Hi HT. apply wp_reorder_filter; [done..|]. intros w' T' ty gen Hw _ HR. split; [done|]. by exists T'. Qed.

Definition sample_filter : TensorProto := {| tp_name := "w"; tp_data_type := TensorProto_DataType_INT8; tp_dims := [2; 1; 1; 2]; tp_raw := true; tp_data := [5; 2; 3; 4] |}.

Lemma filter_reordered_witness :
  wp (reorder_filter "w" sample_filter) (fun w' g' => (w' ∉ dom (node_args_ (args_graph ["w"]))) /\ exists T', name_to_initial_tensor_ g' = <[w' := T']> ∅ /\
    reordered_weights sample_filter T' /\ nodes_ g' = []) (args_graph ["w"]).
Proof.
  apply (filter_reordered "w" sample_filter (args_graph ["w"])).
  - split_and!; vm_compute; (done || split; done).
  - intros x Hx. cbn in Hx. by rewrite dom_empty in Hx.
  - exists 2, 1, 1, 2. cbn. split_and!; (done || lia).
Defined.
