(* ===== verification/LayoutSteps.v ===== *)
(** * LayoutSteps: the steps of the layout transformation lose no behaviour

    A solution of the graph after a step gives one of the graph before it: the arguments
    that the step replaced by NHWC variants get the values of these in NCHW order. *)

From stdpp Require Import strings pretty.
From S2P Require Import Prelude Effects Tensor Graph NhwcTransformer LayoutGraph.

Section refinement.
Context {V : Type} `{TensorLaws V}.
Context (names0 : gset string) (O I : list string) (pooled : string -> Prop).
Notation linv := (linv names0 O I pooled).

Definition refines (a a' : lstate) : Prop :=
  forall σ', lsat a' σ' -> exists σ, lsat a σ /\ forall x, x ∈ O \/ x ∈ I -> σ x = σ' x.

Lemma refines_refl a : refines a a.
Proof. intros σ Hσ. by exists σ. Qed.

Lemma refines_trans a b c : refines a b -> refines b c -> refines a c.
Proof.
  intros Hab Hbc σ Hσ. destruct (Hbc σ Hσ) as (σ1 & H1 & E1). destruct (Hab σ1 H1) as (σ2 & H2 & E2).
  exists σ2. split; [done|]. intros x Hx. by rewrite E2, E1.
Qed.

(** NHWC arguments hold images. *)
Lemma value_image a σ x : lsat a σ -> nhwc_value names0 (ls_nodes a) x -> image (σ x).
Proof.
  intros Hs Hx. induction Hx as [i n x Hi Hop Hx _|i n x y Hi Hop Hy _ IH Hx _|i n x y z Hi Hop Hy Hz _ IHy _ IHz Hx _];
    pose proof (sat_nodes a σ Hs i n Hi) as Hn; unfold node_sat in Hn; apply (list_elem_of_fmap_2 σ) in Hx;
    refine (proj1 (Forall_forall _ _) _ _ Hx).
  - destruct Hop as [(op & wi & Hk & E)|E]; rewrite E in Hn; [by eapply conv_image|by eapply pool_image].
  - destruct (nd_ins n) as [|y' ins]; [done|]. injection Hy as ->. by eapply relu_image.
  - rewrite Hop in Hn. apply (add_image _ _ _ (σ y) (σ z)) in Hn; [done|by rewrite list_lookup_fmap, Hy|by rewrite list_lookup_fmap, Hz|done..].
Qed.

(** ** A node is replaced by its NHWC variant *)

Record converted (a a' : lstate) (i i' : nat) (n n' : ndef) : Prop := {
  cv_node : ls_nodes a !! i = Some n;
  cv_index : i' = i \/ ls_nodes a !! i' = None;
  cv_nodes : ls_nodes a' = <[i' := n']> (delete i (ls_nodes a));
  cv_length : length (nd_outs n') = length (nd_outs n);
  cv_outs k x : nd_outs n !! k = Some x -> exists e, ls_ents a' !! x = Some e /\ nd_outs n' !! k = Some (nhwc_arg_ e);
  cv_ents x e : ls_ents a !! x = Some e -> exists e', ls_ents a' !! x = Some e' /\ nhwc_arg_ e' = nhwc_arg_ e;
  cv_cons : ls_cons a' = ls_cons a }.

(** The values in NCHW order. *)
Definition back (a' : lstate) (σ : string -> V) (x : string) : V :=
  match ls_ents a' !! x with Some e => nchw (σ (nhwc_arg_ e)) | None => σ x end.

Lemma back_used a' σ x : linv a' -> lsat a' σ -> (exists i p, reads a' i p x) \/ x ∈ O -> back a' σ x = σ x.
Proof.
  intros Ha Hs Hx. unfold back. destruct (ls_ents a' !! x) as [e|] eqn:He; [|done]. symmetry. eapply sat_ents; [done..|].
  destruct Hx as [(i & p & Hr)|Hx]; [by eapply uses_zero|by eapply output_live].
Qed.

Lemma back_new a' σ x : linv a' -> x ∉ names0 -> back a' σ x = σ x.
Proof. intros Ha Hx. unfold back. destruct (ls_ents a' !! x) as [e|] eqn:He; [|done]. by destruct (inv_key _ _ _ _ a' Ha x e He). Qed.

Lemma back_produced a' σ x i p : linv a' -> produces a' i p x -> back a' σ x = σ x.
Proof. intros Ha Hx. unfold back. destruct (ls_ents a' !! x) as [e|] eqn:He; [|done]. by destruct (inv_key_dead _ _ _ _ a' Ha x e i p He). Qed.

Lemma fmap_back f g (l : list string) : (forall p x, l !! p = Some x -> f x = g x) -> f <$> l = (g <$> l : list V).
Proof. intros Hl. apply list_eq. intros p. rewrite !list_lookup_fmap. destruct (l !! p) eqn:E; simpl; [by rewrite (Hl p)|done]. Qed.

Lemma converted_other a a' i i' n n' j m : converted a a' i i' n n' -> j <> i -> ls_nodes a !! j = Some m -> ls_nodes a' !! j = Some m.
Proof.
  intros Hc Hj Hm. rewrite (cv_nodes _ _ _ _ _ _ Hc), lookup_insert_ne, lookup_delete_ne; [done..|].
  destruct (cv_index _ _ _ _ _ _ Hc) as [->|]; congruence.
Qed.

Lemma converted_refines a a' i i' n n' : linv a -> linv a' -> converted a a' i i' n n' ->
  (forall σ, lsat a' σ -> node_sat σ n' -> op_rel (nd_op n) (nd_attrs n) (back a' σ <$> nd_ins n) (nchw <$> (σ <$> nd_outs n'))) ->
  refines a a'.
Proof.
  intros Ha Ha' Hc Hsem σ Hσ. exists (back a' σ). split.
  - split.
    + intros j m Hj. destruct (decide (j = i)) as [->|Hne].
      * rewrite (cv_node _ _ _ _ _ _ Hc) in Hj. injection Hj as <-. unfold node_sat.
        replace (back a' σ <$> nd_outs n) with (nchw <$> (σ <$> nd_outs n')).
        -- apply Hsem; [done|]. eapply sat_nodes; [done|]. by rewrite (cv_nodes _ _ _ _ _ _ Hc), lookup_insert_eq.
        -- apply list_eq. intros k. rewrite !list_lookup_fmap. destruct (nd_outs n !! k) as [x|] eqn:Hx.
           ++ destruct (cv_outs _ _ _ _ _ _ Hc k x Hx) as (e & He & ->). simpl. unfold back. by rewrite He.
           ++ apply lookup_ge_None in Hx. rewrite (proj2 (lookup_ge_None _ _)); [done|]. by rewrite (cv_length _ _ _ _ _ _ Hc).
      * pose proof (converted_other a a' i i' n n' j m Hc Hne Hj) as Hj'. pose proof (sat_nodes a' σ Hσ j m Hj') as Hm. unfold node_sat in *.
        rewrite (fmap_back (back a' σ) σ (nd_ins m)), (fmap_back (back a' σ) σ (nd_outs m)); [done|..]; intros p x Hx.
        -- eapply back_produced; [done|]. exists m. eauto.
        -- apply back_used; [done..|]. left. exists j, p, m. eauto.
    + intros x e He Hr. destruct (cv_ents _ _ _ _ _ _ Hc x e He) as (e' & He' & E). unfold back at 1. rewrite He', E.
      rewrite back_new; [done..|]. exact (eo_new _ _ _ _ _ (inv_ent _ _ _ _ a Ha x e He Hr)).
    + intros w T HT. rewrite <- (cv_cons _ _ _ _ _ _ Hc) in HT. rewrite <- (sat_cons a' σ Hσ w T HT). unfold back.
      rewrite (inv_ext_key _ _ _ _ a' Ha' w); [done|]. right. by apply elem_of_dom_2 in HT.
  - intros x [Hx|Hx].
    + apply back_used; auto.
    + unfold back. rewrite (inv_ext_key _ _ _ _ a' Ha' x); [done|by left].
Qed.

(** ** Nodes and initializers are added *)

Lemma extended_refines a a' : (forall i n, ls_nodes a !! i = Some n -> ls_nodes a' !! i = Some n) -> ls_ents a' = ls_ents a ->
  (forall w T, ls_cons a !! w = Some T -> ls_cons a' !! w = Some T) -> refines a a'.
Proof.
  intros Hn He Hc σ Hσ. exists σ. split; [|done]. split.
  - intros i n Hi. eapply sat_nodes; eauto.
  - intros x e Hx. rewrite <- He in Hx. by eapply sat_ents.
  - intros w T Hw. eapply sat_cons; eauto.
Qed.

(** ** A pooling is fused into the convolution before it *)

Definition with_attrs (n : ndef) (attrs : NodeAttributes) : ndef :=
  {| nd_op := nd_op n; nd_ins := nd_ins n; nd_outs := nd_outs n; nd_attrs := attrs |}.

Definition used_once (e : NhwcArgument) : NhwcArgument := e <| remaining_original_uses_ := u64 (remaining_original_uses_ e - 1) |>.

Record fused (a a' : lstate) (i : nat) (nc np : ndef) (x z : string) (e : NhwcArgument) (uses : Z) : Prop := {
  fu_pool : ls_nodes a !! i = Some np;
  fu_np : nd_op np = "MaxPool" /\ nd_ins np = [x] /\ nd_outs np = [z] /\ plain_pool (nd_attrs np);
  fu_conv : ls_nodes a !! output_node_ e = Some nc;
  fu_nc : nd_op nc = "QLinearConv_nhwc" /\ nd_outs nc = [nhwc_arg_ e] /\ nd_attrs nc !! "maxpool" = None;
  fu_ent : ls_ents a !! x = Some e;
  fu_once : starting_original_uses_ e <= 1;
  fu_nodes : ls_nodes a' = delete i (<[output_node_ e := with_attrs nc (fused_attrs (nd_attrs nc) (nd_attrs np))]> (ls_nodes a));
  fu_ents : ls_ents a' = <[z := make_NhwcArgument (output_node_ e) (nhwc_arg_ e) uses]> (<[x := used_once e]> (ls_ents a));
  fu_cons : ls_cons a' = ls_cons a }.

Section fuse.
Context (a a' : lstate) (i : nat) (nc np : ndef) (x z : string) (e : NhwcArgument) (uses : Z).
Context (HO : forall w, w ∈ O -> w ∈ names0).
Context (Ha : linv a) (Ha' : linv a') (Hf : fused a a' i nc np x z e uses).
Notation c := (output_node_ e).
Notation na := (nhwc_arg_ e).

Lemma fu_remaining : remaining_original_uses_ e = 1 /\ starting_original_uses_ e = 1.
Proof using Ha Hf.
  destruct Hf as [Hi (_ & Ein & _) _ _ He Hs _ _ _]. pose proof (inv_key _ _ _ _ a Ha x e He) as (_ & Hr & _).
  assert (0 < remaining_original_uses_ e); [|lia]. eapply (uses_zero _ _ _ _ a x e i 0); [done..|]. exists np. by rewrite Ein.
Qed.

Lemma fu_ok : ent_ok names0 pooled a x e.
Proof using Ha Hf. pose proof fu_remaining as [Hr _]. eapply inv_ent; [done|apply (fu_ent _ _ _ _ _ _ _ _ _ Hf)|lia]. Qed.

Lemma fu_unread j p : ~ reads a j p na.
Proof using Ha Hf. pose proof fu_remaining as [Hr Hs]. apply (eo_unread _ _ _ _ _ fu_ok). lia. Qed.

Lemma fu_index : c <> i.
Proof using Hf. destruct Hf as [Hi (E & _) Hc (E' & _) _ _ _ _ _]. intros Ec. rewrite Ec, Hi in Hc. injection Hc as <-. rewrite E in E'. done. Qed.

Lemma fu_new_key : ls_ents a !! z = None.
Proof using Ha Hf.
  destruct Hf as [Hi (_ & _ & Eo & _) _ _ _ _ _ _ _]. destruct (ls_ents a !! z) as [f|] eqn:E; [|done].
  exfalso. eapply (inv_key_dead _ _ _ _ a Ha z f i 0 E). exists np. by rewrite Eo.
Qed.

Lemma fu_xz : x <> z.
Proof using Ha Hf. intros Exz. pose proof fu_new_key as E. rewrite <- Exz, (fu_ent _ _ _ _ _ _ _ _ _ Hf) in E. done. Qed.

Lemma fu_dead : remaining_original_uses_ (used_once e) = 0 /\ ls_ents a' !! x = Some (used_once e).
Proof using Ha Hf.
  split; [cbn; by rewrite (proj1 fu_remaining)|]. rewrite (fu_ents _ _ _ _ _ _ _ _ _ Hf), lookup_insert_ne, lookup_insert_eq; [done|].
  apply not_eq_sym, fu_xz.
Qed.

Lemma fu_z : ls_ents a' !! z = Some (make_NhwcArgument c na uses).
Proof using Hf. by rewrite (fu_ents _ _ _ _ _ _ _ _ _ Hf), lookup_insert_eq. Qed.

Lemma fu_z_produced : produces a i 0 z.
Proof using Hf. destruct Hf as [Hi (_ & _ & Eo & _) _ _ _ _ _ _ _]. exists np. by rewrite Eo. Qed.

Lemma fu_na_produced : produces a c 0 na.
Proof using Hf. destruct Hf as [_ _ Hc (_ & Eo & _) _ _ _ _ _]. exists nc. by rewrite Eo. Qed.

Lemma fu_reads j p w : j <> i -> reads a j p w -> reads a' j p w.
Proof using Hf.
  intros Hj (m & Hm & Hp). unfold reads. rewrite (fu_nodes _ _ _ _ _ _ _ _ _ Hf), lookup_delete_ne by done.
  destruct (decide (j = c)) as [->|Hc]; [|rewrite lookup_insert_ne by done; eauto].
  rewrite lookup_insert_eq. eexists. split; [done|]. rewrite (fu_conv _ _ _ _ _ _ _ _ _ Hf) in Hm. by injection Hm as ->.
Qed.

(** The values before: the convolution without its pooling. *)
Definition unpool (σ : string -> V) (y : V) (w : string) : V :=
  if decide (w = na) then y else if decide (w = x) then nchw y else if decide (w = z) then nchw (σ na) else σ w.

Lemma unpool_used σ y w : lsat a' σ -> (exists j p, j <> i /\ reads a j p w) \/ w ∈ O -> unpool σ y w = σ w.
Proof using Ha Ha' Hf HO.
  intros Hs Hw. unfold unpool. destruct (decide (w = na)) as [->|_].
  { destruct Hw as [(j & p & _ & Hr)|Hw]; [by apply fu_unread in Hr|]. by apply HO in Hw; apply (eo_new _ _ _ _ _ fu_ok) in Hw. }
  assert (forall f, ls_ents a' !! w = Some f -> 0 < remaining_original_uses_ f) as Hlive.
  { intros f Hf'. destruct Hw as [(j & p & Hj & Hr)|Hw]; [eapply uses_zero; eauto using fu_reads|by eapply output_live]. }
  destruct (decide (w = x)) as [->|_]; [destruct fu_dead as [E Hx]; apply Hlive in Hx; lia|].
  destruct (decide (w = z)) as [->|_]; [|done]. symmetry. pose proof (sat_ents a' σ Hs z _ fu_z) as E. apply E. by apply Hlive, fu_z.
Qed.

Lemma unpool_other σ y w : w <> na -> w <> x -> w <> z -> unpool σ y w = σ w.
Proof using. intros. unfold unpool. by rewrite !decide_False. Qed.

Lemma unpool_produced σ y j p w : j <> i -> j <> c -> produces a j p w -> unpool σ y w = σ w.
Proof using Ha Hf.
  intros Hi Hc Hp. apply unpool_other; intros ->.
  - by destruct (inv_ssa _ _ _ _ a Ha _ _ _ _ _ Hp fu_na_produced).
  - by apply (inv_key_dead _ _ _ _ a Ha x e j p (fu_ent _ _ _ _ _ _ _ _ _ Hf)).
  - by destruct (inv_ssa _ _ _ _ a Ha _ _ _ _ _ Hp fu_z_produced).
Qed.

Lemma unpool_ext σ y w : w ∈ I \/ w ∈ dom (ls_cons a) -> unpool σ y w = σ w.
Proof using Ha Hf.
  intros Hw. apply unpool_other; intros ->.
  - by apply (inv_ext _ _ _ _ a Ha c 0 na Hw), fu_na_produced.
  - apply (inv_ext_key _ _ _ _ a Ha) in Hw. by rewrite (fu_ent _ _ _ _ _ _ _ _ _ Hf) in Hw.
  - by apply (inv_ext _ _ _ _ a Ha i 0 z Hw), fu_z_produced.
Qed.

Lemma unpool_na σ y : unpool σ y na = y.
Proof using. unfold unpool. by rewrite decide_True. Qed.

Lemma unpool_x σ y : unpool σ y x = nchw y.
Proof using Ha Hf.
  unfold unpool. rewrite decide_False, decide_True; [done..|]. intros E. apply (eo_new _ _ _ _ _ fu_ok). rewrite <- E.
  apply (inv_key _ _ _ _ a Ha x e (fu_ent _ _ _ _ _ _ _ _ _ Hf)).
Qed.

Lemma unpool_z σ y : unpool σ y z = nchw (σ na).
Proof using Ha Ha' Hf.
  unfold unpool. rewrite decide_False, decide_False, decide_True; [done..| |].
  - apply not_eq_sym, fu_xz.
  - intros E. apply (eo_new _ _ _ _ _ fu_ok). rewrite <- E. apply (inv_key _ _ _ _ a' Ha' z _ fu_z).
Qed.

Lemma unpool_ents σ y v f : lsat a' σ -> ls_ents a !! v = Some f -> 0 < remaining_original_uses_ f -> unpool σ y v = nchw (unpool σ y (nhwc_arg_ f)).
Proof using Ha Ha' Hf.
  intros Hs Hv Hr. destruct (decide (v = x)) as [->|Hvx].
  - rewrite (fu_ent _ _ _ _ _ _ _ _ _ Hf) in Hv. injection Hv as <-. by rewrite unpool_na, unpool_x.
  - pose proof (inv_ent _ _ _ _ a Ha v f Hv Hr) as Hok. pose proof (inv_key _ _ _ _ a Ha v f Hv) as (Hv0 & _).
    pose proof (inv_key _ _ _ _ a' Ha' z _ fu_z) as (Hz0 & _). pose proof (inv_key _ _ _ _ a Ha x e (fu_ent _ _ _ _ _ _ _ _ _ Hf)) as (Hx0 & _).
    assert (v <> z) as Hvz by (intros ->; by rewrite fu_new_key in Hv).
    pose proof (eo_new _ _ _ _ _ Hok) as Hnew. pose proof (eo_new _ _ _ _ _ fu_ok) as Hnew'. rewrite !unpool_other; try congruence.
    + apply (sat_ents a' σ Hs v f); [|done]. by rewrite (fu_ents _ _ _ _ _ _ _ _ _ Hf), !lookup_insert_ne.
    + intros E. apply Hvx. pose proof fu_remaining as [? _]. eapply (inv_inj _ _ _ _ a Ha v f x e Hv (fu_ent _ _ _ _ _ _ _ _ _ Hf)); [done|lia|done].
Qed.

Lemma fused_refines : refines a a'.
Proof using All.
  intros σ Hσ. pose proof (fu_nc _ _ _ _ _ _ _ _ _ Hf) as (Eop & Eouts & Emax). pose proof (fu_np _ _ _ _ _ _ _ _ _ Hf) as (Pop & Pin & Pout & Hplain).
  assert (node_sat σ (with_attrs nc (fused_attrs (nd_attrs nc) (nd_attrs np)))) as Hc.
  { eapply (sat_nodes a' σ Hσ c). rewrite (fu_nodes _ _ _ _ _ _ _ _ _ Hf), lookup_delete_ne, lookup_insert_eq; [done|]. apply not_eq_sym, fu_index. }
  unfold node_sat in Hc. cbn [with_attrs nd_op nd_ins nd_outs nd_attrs] in Hc. rewrite Eop, Eouts in Hc.
  destruct (fused_pool _ _ _ _ Emax Hplain Hc) as (y & Hy & Hp). exists (unpool σ y). split; [split|].
  - intros j m Hj. unfold node_sat. destruct (decide (j = i)) as [->|Hji].
    { rewrite (fu_pool _ _ _ _ _ _ _ _ _ Hf) in Hj. injection Hj as <-. rewrite Pop, Pin, Pout. simpl. by rewrite unpool_x, unpool_z. }
    rewrite (fmap_back (unpool σ y) σ (nd_ins m)) by (intros p w Hw; apply unpool_used; [done|]; left; exists j, p; split; [done|]; exists m; eauto).
    destruct (decide (j = c)) as [->|Hjc].
    { rewrite (fu_conv _ _ _ _ _ _ _ _ _ Hf) in Hj. injection Hj as <-. rewrite Eop, Eouts. simpl. by rewrite unpool_na. }
    rewrite (fmap_back (unpool σ y) σ (nd_outs m)) by (intros p w Hw; eapply unpool_produced; eauto; exists m; eauto).
    eapply (sat_nodes a' σ Hσ j). by rewrite (fu_nodes _ _ _ _ _ _ _ _ _ Hf), lookup_delete_ne, lookup_insert_ne.
  - intros v f Hv Hr. by apply unpool_ents.
  - intros w T HT. rewrite unpool_ext by (right; by apply elem_of_dom_2 in HT). apply (sat_cons a' σ Hσ). by rewrite (fu_cons _ _ _ _ _ _ _ _ _ Hf).
  - intros w [Hw|Hw]; [apply unpool_used; auto|apply unpool_ext; auto].
Qed.
End fuse.
End refinement.
