(* ===== verification/LayoutInvariant.v ===== *)
(** * LayoutInvariant: the steps of the layout transformation keep its invariant

    Each change the transformation makes to the graph, as a function on the view of
    [LayoutGraph], and the proof that it keeps [linv]. *)

From stdpp Require Import strings pretty.
From S2P Require Import Prelude Effects Tensor Graph NhwcTransformer LayoutGraph LayoutSteps.

Definition transpose_def (x b : string) : ndef :=
  {| nd_op := "Transpose"; nd_ins := [x]; nd_outs := [b]; nd_attrs := {[ "perm" := perm_attr [0; 2; 3; 1] ]} |}.

(** The reordered weights [T'] of [w], under the new name [w']. *)
Definition add_filter (w w' : string) (T' : TensorProto) (a : lstate) : lstate := {|
  ls_nodes := ls_nodes a; ls_ents := ls_ents a; ls_reord := ls_reord a; ls_filt := <[w := w']> (ls_filt a);
  ls_cons := <[w' := T']> (ls_cons a); ls_names := {[ w' ]} ∪ ls_names a |}.

(** A transposition of [x] to the new argument [b]. *)
Definition add_transpose (j : nat) (x b : string) (a : lstate) : lstate := {|
  ls_nodes := <[j := transpose_def x b]> (ls_nodes a); ls_ents := ls_ents a; ls_reord := <[x := b]> (ls_reord a); ls_filt := ls_filt a;
  ls_cons := ls_cons a; ls_names := {[ b ]} ∪ ls_names a |}.

Lemma reads_insert a a' j n i p x : ls_nodes a !! j = None -> ls_nodes a' = <[j := n]> (ls_nodes a) ->
  reads a' i p x <-> reads a i p x \/ (i = j /\ nd_ins n !! p = Some x).
Proof.
  intros Hj E. unfold reads. rewrite E. destruct (decide (i = j)) as [->|Hi].
  - rewrite lookup_insert_eq, Hj. naive_solver.
  - rewrite lookup_insert_ne by done. naive_solver.
Qed.

Lemma produces_insert a a' j n i p x : ls_nodes a !! j = None -> ls_nodes a' = <[j := n]> (ls_nodes a) ->
  produces a' i p x <-> produces a i p x \/ (i = j /\ nd_outs n !! p = Some x).
Proof.
  intros Hj E. unfold produces. rewrite E. destruct (decide (i = j)) as [->|Hi].
  - rewrite lookup_insert_eq, Hj. naive_solver.
  - rewrite lookup_insert_ne by done. naive_solver.
Qed.

(** The slots in [P] of node [i] no longer read; the node moves to [i']. *)
Lemma filter_out_length {A} `{EqDecision A} (L R : list A) : NoDup L -> (forall x, x ∈ L -> x ∈ R) ->
  (length (filter (fun x => x ∉ L) R) + length L <= length R)%nat.
Proof.
  intros HL Hin. transitivity (length (filter (fun x => x ∉ L) R) + length (filter (fun x => ~ (x ∉ L)) R))%nat.
  - apply Nat.add_le_mono_l. apply NoDup_incl_length; [by apply base.NoDup_ListNoDup|]. intros x Hx%list_elem_of_In. apply list_elem_of_In, list_elem_of_filter. auto.
  - rewrite <- length_app. apply Nat.eq_le_incl, Permutation_length, filter_app_complement.
Qed.

Definition moved (i i' : nat) (s : nat * nat) : nat * nat := if decide (fst s = i) then (i', snd s) else s.

Record reshaped (names0 : gset string) (a : lstate) (i i' : nat) (n n' : ndef) (E' : gmap string NhwcArgument) : Prop := {
  rs_node : ls_nodes a !! i = Some n;
  rs_index : i' = i \/ ls_nodes a !! i' = None;
  rs_outs : nd_outs n' = nd_outs n;
  rs_old o : o ∈ nd_outs n -> o ∈ names0;
  rs_ins p y : nd_ins n' !! p = Some y -> nd_ins n !! p = Some y \/ ((y ∉ names0) /\ y ∈ ls_names a /\
    forall x e', E' !! x = Some e' -> 0 < remaining_original_uses_ e' -> nhwc_arg_ e' = y -> remaining_original_uses_ e' < starting_original_uses_ e');
  rs_ents x e' : E' !! x = Some e' -> exists e P, ls_ents a !! x = Some e /\ output_node_ e' = output_node_ e /\ nhwc_arg_ e' = nhwc_arg_ e /\
    starting_original_uses_ e' = starting_original_uses_ e /\ NoDup P /\ remaining_original_uses_ e' = remaining_original_uses_ e - Z.of_nat (length P) /\
    forall p, p ∈ P -> nd_ins n !! p = Some x /\ nd_ins n' !! p <> Some x }.

Definition reshape (i i' : nat) (n' : ndef) (E' : gmap string NhwcArgument) (a : lstate) : lstate := {|
  ls_nodes := <[i' := n']> (delete i (ls_nodes a)); ls_ents := E'; ls_reord := ls_reord a; ls_filt := ls_filt a; ls_cons := ls_cons a; ls_names := ls_names a |}.

(** The outputs of node [i] get NHWC variants: [l] lists the old name, the new one and the
    uses of each output. *)
Abbreviation created := (list (string * (string * Z))) (only parsing).
Definition old_outs (l : created) : list string := fst <$> l.
Definition new_outs (l : created) : list string := (fun t => fst (snd t)) <$> l.

Fixpoint create_ents (i : nat) (l : created) (E : gmap string NhwcArgument) : gmap string NhwcArgument :=
  match l with
  | [] => E
  | (x, (o, u)) :: l' => create_ents i l' (<[x := make_NhwcArgument i o u]> E)
  end.

Definition with_outs (n : ndef) (outs : list string) : ndef :=
  {| nd_op := nd_op n; nd_ins := nd_ins n; nd_outs := outs; nd_attrs := nd_attrs n |}.

Definition create (i : nat) (l : created) (a : lstate) : lstate := {|
  ls_nodes := alter (fun n => with_outs n (new_outs l)) i (ls_nodes a); ls_ents := create_ents i l (ls_ents a); ls_reord := ls_reord a;
  ls_filt := ls_filt a; ls_cons := ls_cons a; ls_names := list_to_set (new_outs l) ∪ ls_names a |}.

Lemma create_ents_old i l E x : x ∉ old_outs l -> create_ents i l E !! x = E !! x.
Proof.
  revert E. induction l as [|[y [o u]] l IH]; intros E Hx; simpl; [done|]. apply not_elem_of_cons in Hx as [Hne Hx].
  rewrite IH by done. by apply lookup_insert_ne.
Qed.

Lemma create_ents_new i l E x o u : NoDup (old_outs l) -> (x, (o, u)) ∈ l -> create_ents i l E !! x = Some (make_NhwcArgument i o u).
Proof.
  revert E. induction l as [|[y [o' u']] l IH]; intros E Hnd Hx; simpl; [by apply not_elem_of_nil in Hx|]. apply NoDup_cons in Hnd as [Hy Hnd].
  apply elem_of_cons in Hx as [[= -> -> ->]|Hx]; [|by apply IH]. by rewrite create_ents_old, lookup_insert_eq.
Qed.

Lemma create_ents_inv i l E x e : NoDup (old_outs l) -> create_ents i l E !! x = Some e ->
  (exists o u, (x, (o, u)) ∈ l /\ e = make_NhwcArgument i o u) \/ ((x ∉ old_outs l) /\ E !! x = Some e).
Proof.
  intros Hnd He. destruct (decide (x ∈ old_outs l)) as [Hx|Hx]; [left|right; by rewrite create_ents_old in He].
  pose proof Hx as ([y [o u]] & -> & Ht)%list_elem_of_fmap. exists o, u. split; [done|]. simpl in He.
  rewrite (create_ents_new i l E y o u) in He by done. by injection He.
Qed.

(** The pooling at node [i], of [x] to [z], goes into the convolution that makes [x]. *)
Definition fuse (i : nat) (nc np : ndef) (x z : string) (e : NhwcArgument) (uses : Z) (a : lstate) : lstate := {|
  ls_nodes := delete i (<[output_node_ e := with_attrs nc (fused_attrs (nd_attrs nc) (nd_attrs np))]> (ls_nodes a));
  ls_ents := <[z := make_NhwcArgument (output_node_ e) (nhwc_arg_ e) uses]> (<[x := used_once e]> (ls_ents a));
  ls_reord := ls_reord a; ls_filt := ls_filt a; ls_cons := ls_cons a; ls_names := ls_names a |}.

Section steps.
Context (names0 : gset string) (O I : list string) (pooled : string -> Prop).
Context (HI : forall x, x ∈ I -> x ∈ names0).
Notation linv := (linv names0 O I pooled).
Notation ent_ok := (ent_ok names0 pooled).
Notation nhwc_value := (nhwc_value names0).

Lemma linv_add_filter a w w' T T' : linv a -> w' ∉ ls_names a -> ls_cons a !! w = Some T -> reordered_weights T T' ->
  linv (add_filter w w' T' a).
Proof using HI.
  intros Ha Hw' HT HW. pose proof (inv_names0 _ _ _ _ a Ha) as Hn0.
  assert (forall x, x ∈ dom (<[w' := T']> (ls_cons a)) -> x = w' \/ x ∈ dom (ls_cons a)) as Hdom by (intros x; rewrite dom_insert; set_solver).
  split; cbn [add_filter ls_nodes ls_ents ls_reord ls_filt ls_cons ls_names].
  - intros i p x Hr. apply elem_of_union_r. by apply (inv_reads _ _ _ _ a Ha i p).
  - intros i p x Hr. apply elem_of_union_r. by apply (inv_produces _ _ _ _ a Ha i p).
  - set_solver.
  - exact (inv_ssa _ _ _ _ a Ha).
  - intros i p x [Hx|Hx]; [apply (inv_ext _ _ _ _ a Ha); auto|]. apply Hdom in Hx as [->|Hx]; [|apply (inv_ext _ _ _ _ a Ha); auto].
    intros Hp. by apply (inv_produces _ _ _ _ a Ha) in Hp.
  - intros x [Hx|Hx]; [apply (inv_ext_key _ _ _ _ a Ha); auto|]. apply Hdom in Hx as [->|Hx]; [|apply (inv_ext_key _ _ _ _ a Ha); auto].
    destruct (ls_ents a !! w') as [e|] eqn:E; [|done]. apply (inv_key _ _ _ _ a Ha) in E as [? _]. set_solver.
  - intros x Hx. apply Hdom in Hx as [->|Hx]; [set_solver|]. apply elem_of_union_r. by apply (inv_cons _ _ _ _ a Ha).
  - exact (inv_key _ _ _ _ a Ha).
  - exact (inv_key_dead _ _ _ _ a Ha).
  - intros x e He. apply elem_of_union_r. by apply (inv_arg _ _ _ _ a Ha x e).
  - intros x e He Hr. destruct (inv_ent _ _ _ _ a Ha x e He Hr) as [? ? ? ?]. by split.
  - exact (inv_inj _ _ _ _ a Ha).
  - exact (inv_uses _ _ _ _ a Ha).
  - exact (inv_reord _ _ _ _ a Ha).
  - intros v v' Hv. assert (w <> w') as Hne by (intros ->; apply Hw', (inv_cons _ _ _ _ a Ha); by apply elem_of_dom_2 in HT).
    destruct (decide (v = w)) as [->|Hvw].
    + rewrite lookup_insert_eq in Hv. injection Hv as <-. split; [set_solver|]. exists T, T'. by rewrite lookup_insert_ne, lookup_insert_eq.
    + rewrite lookup_insert_ne in Hv by done. destruct (inv_filt _ _ _ _ a Ha v v' Hv) as (Hnew & S & S' & HS & HS' & HR). split; [done|].
      exists S, S'. rewrite !lookup_insert_ne; [done|..]; intros <-; apply Hw', (inv_cons _ _ _ _ a Ha); by eapply elem_of_dom_2.
Qed.

Lemma linv_add_transpose a j x b : linv a -> ls_nodes a !! j = None -> b ∉ ls_names a -> x ∈ names0 -> ls_ents a !! x = None ->
  linv (add_transpose j x b a).
Proof using HI.
  intros Ha Hj Hb Hx Hex. pose proof (inv_names0 _ _ _ _ a Ha) as Hn0.
  assert (forall i p y, reads (add_transpose j x b a) i p y <-> reads a i p y \/ (i = j /\ [x] !! p = Some y)) as Hrd
    by (intros; by apply (reads_insert a _ j (transpose_def x b))).
  assert (forall i p y, produces (add_transpose j x b a) i p y <-> produces a i p y \/ (i = j /\ [b] !! p = Some y)) as Hpr
    by (intros; by apply (produces_insert a _ j (transpose_def x b))).
  assert (forall p (y z : string), [y] !! p = Some z -> p = 0%nat /\ y = z) as H1 by (intros p y z E; apply list_lookup_singleton_Some in E; naive_solver).
  split; cbn [add_transpose ls_ents ls_reord ls_filt ls_cons ls_names].
  - intros i p y [Hr|[_ [_ <-]%H1]]%Hrd; [|set_solver]. apply elem_of_union_r. by apply (inv_reads _ _ _ _ a Ha i p).
  - intros i p y [Hr|[_ [_ <-]%H1]]%Hpr; [|set_solver]. apply elem_of_union_r. by apply (inv_produces _ _ _ _ a Ha i p).
  - set_solver.
  - intros i p k q y [Hp|[-> [-> <-]%H1]]%Hpr [Hq|[-> [-> E]%H1]]%Hpr.
    + by apply (inv_ssa _ _ _ _ a Ha _ _ _ _ y).
    + subst y. by apply (inv_produces _ _ _ _ a Ha) in Hp.
    + by apply (inv_produces _ _ _ _ a Ha) in Hq.
    + done.
  - intros i p y Hy [Hp|[_ [_ <-]%H1]]%Hpr; [by apply (inv_ext _ _ _ _ a Ha i p y)|].
    destruct Hy as [Hy|Hy]; [apply HI in Hy; set_solver|by apply (inv_cons _ _ _ _ a Ha) in Hy].
  - exact (inv_ext_key _ _ _ _ a Ha).
  - intros y Hy. apply elem_of_union_r. by apply (inv_cons _ _ _ _ a Ha).
  - exact (inv_key _ _ _ _ a Ha).
  - intros y e i p He [Hp|[_ [_ <-]%H1]]%Hpr; [by apply (inv_key_dead _ _ _ _ a Ha y e i p)|]. apply (inv_key _ _ _ _ a Ha) in He as [? _]. set_solver.
  - intros y e He. apply elem_of_union_r. by apply (inv_arg _ _ _ _ a Ha y e).
  - intros y e He Hr. destruct (inv_ent _ _ _ _ a Ha y e He Hr) as [Hnew (n & Hn & Hin & Hop) Hun Hv]. split; [done| |..].
    + exists n. cbn. rewrite lookup_insert_ne by congruence. done.
    + intros E i p [Hi|[_ [_ Ex]%H1]]%Hrd; [by eapply Hun|congruence].
    + apply (nhwc_value_mono _ _ _ _ Hv). intros i m Hi _. exists m. cbn. rewrite lookup_insert_ne by congruence. done.
  - exact (inv_inj _ _ _ _ a Ha).
  - intros y e He. destruct (inv_uses _ _ _ _ a Ha y e He) as (R & HR & Hin). exists R. split; [done|].
    intros i p [Hr|[_ [_ <-]%H1]]%Hrd; [by apply Hin|]. by rewrite He in Hex.
  - intros y c Hy. cbn. destruct (decide (y = x)) as [->|Hyx].
    + rewrite lookup_insert_eq in Hy. injection Hy as <-. split; [set_solver|]. exists j. by rewrite lookup_insert_eq.
    + rewrite lookup_insert_ne in Hy by done. destruct (inv_reord _ _ _ _ a Ha y c Hy) as (Hc & i & Hi). split; [done|]. exists i.
      rewrite lookup_insert_ne; [done|congruence].
  - exact (inv_filt _ _ _ _ a Ha).
Qed.

Section reshape.
Context (a : lstate) (i i' : nat) (n n' : ndef) (E' : gmap string NhwcArgument).
Context (Ha : linv a) (Hs : reshaped names0 a i i' n n' E').
Notation a' := (reshape i i' n' E' a).

Lemma rs_lookup k m : ls_nodes a' !! k = Some m -> (k = i' /\ m = n') \/ (k <> i /\ k <> i' /\ ls_nodes a !! k = Some m).
Proof.
  cbn. destruct (decide (k = i')) as [->|Hk]; [rewrite lookup_insert_eq; intros [= <-]; by left|].
  rewrite lookup_insert_ne by done. intros [Hi Hm]%lookup_delete_Some. right. done.
Qed.

Lemma rs_keep k m : ls_nodes a !! k = Some m -> (exists o, o ∈ nd_outs m /\ (o ∉ names0)) -> ls_nodes a' !! k = Some m.
Proof.
  intros Hk (o & Ho & Hnew). assert (k <> i) as Hki.
  { intros ->. rewrite (rs_node _ _ _ _ _ _ _ Hs) in Hk. injection Hk as <-. by apply Hnew, (rs_old _ _ _ _ _ _ _ Hs). }
  cbn. rewrite lookup_insert_ne, lookup_delete_ne; [done..|]. destruct (rs_index _ _ _ _ _ _ _ Hs) as [->|]; congruence.
Qed.

Lemma rs_reads k p y : reads a' k p y -> (k = i' /\ nd_ins n' !! p = Some y) \/ (k <> i /\ reads a k p y).
Proof. intros (m & [[-> ->]|(Hi & _ & Hm)]%rs_lookup & Hp); [by left|]. right. split; [done|]. by exists m. Qed.

Lemma rs_produces k p y : produces a' k p y -> exists j, produces a j p y /\ ((k = i' /\ j = i) \/ (k <> i /\ k <> i' /\ j = k)).
Proof.
  intros (m & [[-> ->]|(Hi & Hi' & Hm)]%rs_lookup & Hp).
  - exists i. split; [|by left]. exists n. split; [exact (rs_node _ _ _ _ _ _ _ Hs)|]. by rewrite <- (rs_outs _ _ _ _ _ _ _ Hs).
  - exists k. split; [by exists m|]. by right.
Qed.

Lemma rs_uses x e' : E' !! x = Some e' -> uses_bound O a' x (remaining_original_uses_ e').
Proof.
  intros He'. destruct (rs_ents _ _ _ _ _ _ _ Hs x e' He') as (e & P & He & _ & _ & _ & HP & Er & Hslots).
  destruct (inv_uses _ _ _ _ a Ha x e He) as (R & HR & Hin). set (L := (fun p => (i, p)) <$> P).
  exists (moved i i' <$> filter (fun s => s ∉ L) R). split.
  - rewrite length_fmap. pose proof (filter_out_length L R) as Hlen. assert (length L = length P) as EL by apply length_fmap. rewrite EL in Hlen.
    enough (length (filter (λ s, s ∉ L) R) + length P <= length R)%nat by lia. apply Hlen.
    + apply NoDup_fmap_2; [|done]. by intros ?? [= ?].
    + intros s (p & -> & Hp)%list_elem_of_fmap. apply Hin. exists n. split; [exact (rs_node _ _ _ _ _ _ _ Hs)|by apply Hslots].
  - intros k p [[-> Hp]|[Hk Hr]]%rs_reads; apply list_elem_of_fmap.
    + exists (i, p). split; [unfold moved; simpl; by rewrite decide_True|]. apply list_elem_of_filter. split.
      * intros (q & [= <-] & Hq)%list_elem_of_fmap. by apply Hslots in Hq as [_ Hq].
      * apply Hin. exists n. split; [exact (rs_node _ _ _ _ _ _ _ Hs)|]. destruct (rs_ins _ _ _ _ _ _ _ Hs p x Hp) as [|[Hnew _]]; [done|].
        by apply (inv_key _ _ _ _ a Ha) in He as [? _].
    + exists (k, p). split; [unfold moved; simpl; by rewrite decide_False|]. apply list_elem_of_filter. split; [|by apply Hin].
      intros (q & [= -> _] & _)%list_elem_of_fmap. done.
Qed.

Lemma rs_ent_ok x e' : E' !! x = Some e' -> 0 < remaining_original_uses_ e' -> ent_ok a' x e'.
Proof.
  intros He' Hr. destruct (rs_ents _ _ _ _ _ _ _ Hs x e' He') as (e & P & He & E1 & E2 & E3 & HP & Er & Hslots).
  destruct (inv_ent _ _ _ _ a Ha x e He) as [Hnew (m & Hm & Hin & Hop) Hun Hv]; [lia|].
  pose proof (inv_key _ _ _ _ a Ha x e He) as (_ & Hle & _). split; rewrite ?E1, ?E2; [done| | |].
  - exists m. split; [apply rs_keep; eauto|done].
  - intros Eu k p [[-> Hp]|[_ Hk]]%rs_reads; [|eapply Hun; [lia|done]].
    destruct (rs_ins _ _ _ _ _ _ _ Hs p _ Hp) as [Hp'|(_ & _ & Hlt)]; [|specialize (Hlt x e' He' Hr E2); lia].
    eapply Hun; [lia|]. exists n. split; [exact (rs_node _ _ _ _ _ _ _ Hs)|done].
  - apply (nhwc_value_mono _ _ _ _ Hv). intros k m' Hk Ho. exists m'. split; [by apply rs_keep|done].
Qed.

Lemma linv_reshape : linv a'.
Proof.
  split; cbn [reshape ls_reord ls_filt ls_cons ls_names ls_ents].
  - intros k p y [[-> Hp]|[_ Hr]]%rs_reads; [|by eapply (inv_reads _ _ _ _ a Ha)].
    destruct (rs_ins _ _ _ _ _ _ _ Hs p y Hp) as [Hp'|(_ & Hy & _)]; [|done]. eapply (inv_reads _ _ _ _ a Ha i p). exists n.
    split; [exact (rs_node _ _ _ _ _ _ _ Hs)|done].
  - intros k p y (j & Hp & _)%rs_produces. by eapply (inv_produces _ _ _ _ a Ha).
  - exact (inv_names0 _ _ _ _ a Ha).
  - intros k p l q y (j & Hp & Hj)%rs_produces (j2 & Hq & Hj2)%rs_produces. destruct (inv_ssa _ _ _ _ a Ha _ _ _ _ _ Hp Hq) as [-> ->].
    split; [|done]. destruct Hj as [[-> ->]|(H1 & H2 & ->)], Hj2 as [[-> E]|(H3 & H4 & E)]; congruence.
  - intros k p y Hy (j & Hp & _)%rs_produces. by eapply (inv_ext _ _ _ _ a Ha).
  - intros y Hy. destruct (E' !! y) as [e'|] eqn:He'; [|done]. destruct (rs_ents _ _ _ _ _ _ _ Hs y e' He') as (e & P & He & _).
    by rewrite (inv_ext_key _ _ _ _ a Ha y Hy) in He.
  - exact (inv_cons _ _ _ _ a Ha).
  - intros y e' He'. destruct (rs_ents _ _ _ _ _ _ _ Hs y e' He') as (e & P & He & _ & _ & E3 & _ & Er & _).
    destruct (inv_key _ _ _ _ a Ha y e He) as (? & ? & ?). split; [done|]. rewrite E3. split; [|done]. split; [|lia].
    destruct (rs_uses y e' He') as (R & HR & _). unfold output_use in HR. case_bool_decide; lia.
  - intros y e' k p He' (j & Hp & _)%rs_produces. destruct (rs_ents _ _ _ _ _ _ _ Hs y e' He') as (e & P & He & _). by eapply (inv_key_dead _ _ _ _ a Ha).
  - intros y e' He'. destruct (rs_ents _ _ _ _ _ _ _ Hs y e' He') as (e & P & He & _ & -> & _). by eapply (inv_arg _ _ _ _ a Ha).
  - exact rs_ent_ok.
  - intros y e' z f' He' Hf' Hr Hr' E. destruct (rs_ents _ _ _ _ _ _ _ Hs y e' He') as (e & P & He & _ & E2 & _ & _ & Er & _).
    destruct (rs_ents _ _ _ _ _ _ _ Hs z f' Hf') as (f & P' & Hf & _ & F2 & _ & _ & Fr & _).
    apply (inv_inj _ _ _ _ a Ha y e z f He Hf); [lia|lia|congruence].
  - exact rs_uses.
  - intros y b Hy. destruct (inv_reord _ _ _ _ a Ha y b Hy) as (Hb & k & Hk). split; [done|]. exists k. apply rs_keep; [done|]. exists b.
    split; [by apply list_elem_of_singleton|done].
  - exact (inv_filt _ _ _ _ a Ha).
Qed.
End reshape.

Section create.
Context (a : lstate) (i : nat) (n : ndef) (l : created).
Context (Ha : linv a) (Hn : ls_nodes a !! i = Some n) (Houts : nd_outs n = old_outs l) (Hold : forall x, x ∈ old_outs l -> x ∈ names0).
Context (Hnd : NoDup (new_outs l)) (Hfresh : forall o, o ∈ new_outs l -> o ∉ ls_names a).
Context (Huses : forall x o u, (x, (o, u)) ∈ l -> uses_bound O a x u /\ 0 <= u < 2 ^ 64).
Context (Hval : forall o, o ∈ new_outs l -> nhwc_value (ls_nodes (create i l a)) o).
Context (Hconv : nd_op n = "QLinearConv_nhwc" -> length l = 1%nat /\ nd_attrs n !! "maxpool" = None).
Notation a' := (create i l a).
Notation n' := (with_outs n (new_outs l)).

Lemma cr_old_nodup : NoDup (old_outs l).
Proof using Ha Hn Houts.
  apply NoDup_alt. intros p q x Hp Hq. rewrite <- Houts in Hp, Hq.
  by destruct (inv_ssa _ _ _ _ a Ha i p i q x ltac:(by exists n) ltac:(by exists n)).
Qed.

Lemma cr_node : ls_nodes a' !! i = Some n'.
Proof using Hn. cbn. by rewrite lookup_alter_eq, Hn. Qed.

Lemma cr_other k : k <> i -> ls_nodes a' !! k = ls_nodes a !! k.
Proof using. intros Hk. cbn. by apply lookup_alter_ne. Qed.

Lemma cr_reads k p y : reads a' k p y <-> reads a k p y.
Proof using Hn.
  unfold reads. destruct (decide (k = i)) as [->|Hk]; [|by rewrite cr_other]. rewrite cr_node, Hn.
  split; intros (m & [= <-] & Hp); eexists; (split; [done|]); done.
Qed.

Lemma cr_produces k p y : produces a' k p y -> (k = i /\ new_outs l !! p = Some y) \/ (k <> i /\ produces a k p y).
Proof using Hn.
  unfold produces. destruct (decide (k = i)) as [->|Hk]; [rewrite cr_node|rewrite cr_other by done]; intros (m & Hm & Hp); [left|right; eauto].
  injection Hm as <-. done.
Qed.

Lemma cr_new_names o : o ∈ new_outs l -> o ∉ names0.
Proof using Ha Hfresh. intros Ho Hn0. by apply (Hfresh o Ho), (inv_names0 _ _ _ _ a Ha). Qed.

Lemma cr_mem x o u : (x, (o, u)) ∈ l -> x ∈ old_outs l /\ o ∈ new_outs l.
Proof using. intros Hx. split; apply list_elem_of_fmap; by exists (x, (o, u)). Qed.

Lemma cr_old_key x : x ∈ old_outs l -> ls_ents a !! x = None.
Proof using Ha Hn Houts.
  intros [p Hp]%list_elem_of_lookup. destruct (ls_ents a !! x) as [e|] eqn:He; [|done]. exfalso.
  apply (inv_key_dead _ _ _ _ a Ha x e i p He). exists n. by rewrite Houts.
Qed.

Lemma cr_ents x e : ls_ents a' !! x = Some e ->
  (exists o u, (x, (o, u)) ∈ l /\ e = make_NhwcArgument i o u) \/ ((x ∉ old_outs l) /\ ls_ents a !! x = Some e).
Proof using Ha Hn Houts. apply create_ents_inv, cr_old_nodup. Qed.

Lemma cr_ent_ok x e : ls_ents a' !! x = Some e -> 0 < remaining_original_uses_ e -> ent_ok a' x e.
Proof using All.
  intros [(o & u & Hl & ->)|[Hx He]]%cr_ents Hr.
  - destruct (cr_mem x o u Hl) as [Hxo Ho]. split; cbn [make_NhwcArgument nhwc_arg_ output_node_].
    + by apply cr_new_names.
    + exists n'. split; [exact cr_node|]. split; [done|]. intros Hop. destruct (Hconv Hop) as [Hlen Hmax]. split; [|by left]. cbn.
      destruct l as [|t [|]]; try done. apply list_elem_of_singleton in Hl. by subst t.
    + intros _ k p Hk%cr_reads. by apply (Hfresh o Ho), (inv_reads _ _ _ _ a Ha k p).
    + by apply Hval.
  - destruct (inv_ent _ _ _ _ a Ha x e He Hr) as [Hnew (m & Hm & Hin & Hop) Hun Hv].
    assert (forall k m, ls_nodes a !! k = Some m -> (exists o, o ∈ nd_outs m /\ (o ∉ names0)) -> ls_nodes a' !! k = Some m) as Hkeep.
    { intros k m' Hk (o & Ho & Hno). rewrite cr_other; [done|]. intros ->. rewrite Hn in Hk. injection Hk as <-. apply Hno, Hold. by rewrite <- Houts. }
    split; [done| |..].
    + exists m. split; [apply Hkeep; eauto|done].
    + intros E k p Hk%cr_reads. by eapply Hun.
    + apply (nhwc_value_mono _ _ _ _ Hv). intros k m' Hk Ho. exists m'. split; [by apply Hkeep|done].
Qed.

Lemma cr_new_old x o u y e : (x, (o, u)) ∈ l -> ls_ents a !! y = Some e -> o <> nhwc_arg_ e.
Proof using Ha Hfresh. intros Hl He ->. apply cr_mem in Hl as [_ Ho]. by apply (Hfresh _ Ho), (inv_arg _ _ _ _ a Ha y e). Qed.

Lemma cr_inj x o u y u' : (x, (o, u)) ∈ l -> (y, (o, u')) ∈ l -> x = y.
Proof using Hnd.
  intros [p Hp]%list_elem_of_lookup [q Hq]%list_elem_of_lookup. rewrite NoDup_alt in Hnd.
  assert (p = q) as <- by (apply (Hnd p q o); unfold new_outs; rewrite list_lookup_fmap; [rewrite Hp|rewrite Hq]; done). congruence.
Qed.

Lemma linv_create : linv a'.
Proof using All.
  split; cbn [create ls_reord ls_filt ls_cons ls_names].
  - intros k p y Hk%cr_reads. apply elem_of_union_r. by apply (inv_reads _ _ _ _ a Ha k p).
  - intros k p y [[_ Hp]|[_ Hk]]%cr_produces; apply elem_of_union; [left|right; by apply (inv_produces _ _ _ _ a Ha k p)].
    apply elem_of_list_to_set. by apply list_elem_of_lookup_2 in Hp.
  - pose proof (inv_names0 _ _ _ _ a Ha). set_solver.
  - intros k p j q y [[-> Hp]|[Hk Hp]]%cr_produces [[-> Hq]|[Hj Hq]]%cr_produces.
    + split; [done|]. rewrite NoDup_alt in Hnd. by eapply Hnd.
    + exfalso. apply list_elem_of_lookup_2 in Hp. by apply (Hfresh y Hp), (inv_produces _ _ _ _ a Ha j q).
    + exfalso. apply list_elem_of_lookup_2 in Hq. by apply (Hfresh y Hq), (inv_produces _ _ _ _ a Ha k p).
    + by apply (inv_ssa _ _ _ _ a Ha k p j q y).
  - intros k p y Hy [[-> Hp]|[_ Hp]]%cr_produces; [|by apply (inv_ext _ _ _ _ a Ha k p y)]. apply list_elem_of_lookup_2 in Hp.
    destruct Hy as [Hy|Hy]; [by apply (cr_new_names y Hp), HI|by apply (Hfresh y Hp), (inv_cons _ _ _ _ a Ha)].
  - intros y Hy. destruct (ls_ents a' !! y) as [e|] eqn:He; [exfalso|done]. apply cr_ents in He as [(o & u & Hl & ->)|[_ He]].
    + apply cr_mem in Hl as [[p Hp]%list_elem_of_lookup _]. apply (inv_ext _ _ _ _ a Ha i p y Hy). exists n. by rewrite Houts.
    + by rewrite (inv_ext_key _ _ _ _ a Ha y Hy) in He.
  - intros y Hy. apply elem_of_union_r. by apply (inv_cons _ _ _ _ a Ha).
  - intros y e [(o & u & Hl & ->)|[_ He]]%cr_ents; [|by apply (inv_key _ _ _ _ a Ha)]. cbn. destruct (cr_mem y o u Hl) as [Hy _].
    destruct (Huses y o u Hl) as [_ Hu]. split; [by apply Hold|lia].
  - intros y e k p [(o & u & Hl & ->)|[_ He]]%cr_ents [[-> Hp]|[Hk Hp]]%cr_produces.
    + apply cr_mem in Hl as [Hy _]. apply list_elem_of_lookup_2 in Hp. by apply (cr_new_names y Hp), Hold.
    + apply cr_mem in Hl as [[q Hq]%list_elem_of_lookup _]. apply Hk. eapply (inv_ssa _ _ _ _ a Ha k p i q y Hp). exists n. by rewrite Houts.
    + apply list_elem_of_lookup_2 in Hp. apply (cr_new_names y Hp). by apply (inv_key _ _ _ _ a Ha y e).
    + by apply (inv_key_dead _ _ _ _ a Ha y e k p).
  - intros y e [(o & u & Hl & ->)|[_ He]]%cr_ents; apply elem_of_union; [left|right; by apply (inv_arg _ _ _ _ a Ha y e)].
    apply elem_of_list_to_set. by apply cr_mem in Hl as [_ Ho].
  - exact cr_ent_ok.
  - intros y e z f [(o & u & Hl & ->)|[_ He]]%cr_ents [(o' & u' & Hl' & ->)|[_ Hf]]%cr_ents Hr Hr' E; cbn in E.
    + subst o'. by eapply cr_inj.
    + by destruct (cr_new_old y o u z f Hl Hf).
    + by destruct (cr_new_old z o' u' y e Hl' He).
    + by apply (inv_inj _ _ _ _ a Ha y e z f).
  - intros y e He. assert (exists R, Z.of_nat (length R) + output_use O y <= remaining_original_uses_ e /\ forall k p, reads a k p y -> (k, p) ∈ R) as (R & HR & Hin).
    { apply cr_ents in He as [(o & u & Hl & ->)|[_ He]]; [by apply (Huses y o u Hl)|by apply (inv_uses _ _ _ _ a Ha)]. }
    exists R. split; [done|]. intros k p Hk%cr_reads. by apply Hin.
  - intros y b Hy. destruct (inv_reord _ _ _ _ a Ha y b Hy) as (Hb & k & Hk). split; [done|]. exists k. rewrite <- Hk. apply cr_other.
    intros ->. rewrite Hn in Hk. injection Hk as En. apply Hb, Hold. rewrite <- Houts, En. by apply list_elem_of_singleton.
  - exact (inv_filt _ _ _ _ a Ha).
Qed.
End create.

Section fuse.
Context (a : lstate) (i : nat) (nc np : ndef) (x z : string) (e : NhwcArgument) (uses : Z).
Notation a' := (fuse i nc np x z e uses a).
Context (Ha : linv a) (Hf : fused a a' i nc np x z e uses) (Hz : pooled z) (Hz0 : z ∈ names0) (Hu : uses_bound O a z uses) (Hr : 0 <= uses < 2 ^ 64).
Notation c := (output_node_ e).
Notation na := (nhwc_arg_ e).

Lemma fz_lookup k m : ls_nodes a' !! k = Some m -> k <> i /\ exists m0, ls_nodes a !! k = Some m0 /\
  nd_op m = nd_op m0 /\ nd_ins m = nd_ins m0 /\ nd_outs m = nd_outs m0 /\ (k <> c -> m = m0).
Proof using Hf.
  cbn. intros [Hk Hm]%lookup_delete_Some. split; [done|]. destruct (decide (k = c)) as [->|Hc].
  - rewrite lookup_insert_eq in Hm. injection Hm as <-. exists nc. split; [exact (fu_conv _ _ _ _ _ _ _ _ _ Hf)|done].
  - rewrite lookup_insert_ne in Hm by done. by exists m.
Qed.

Lemma fz_reads k p y : reads a' k p y -> k <> i /\ reads a k p y.
Proof using Hf. intros (m & (Hk & m0 & Hm & _ & E & _)%fz_lookup & Hp). split; [done|]. exists m0. by rewrite <- E. Qed.

Lemma fz_produces k p y : produces a' k p y -> k <> i /\ produces a k p y.
Proof using Hf. intros (m & (Hk & m0 & Hm & _ & _ & E & _)%fz_lookup & Hp). split; [done|]. exists m0. by rewrite <- E. Qed.

(** A node with a new output stays, perhaps with other attributes. *)
Lemma fz_keep k m : ls_nodes a !! k = Some m -> (exists o, o ∈ nd_outs m /\ (o ∉ names0)) -> exists m', ls_nodes a' !! k = Some m' /\
  nd_op m' = nd_op m /\ nd_ins m' = nd_ins m /\ nd_outs m' = nd_outs m /\ (k <> c -> m' = m).
Proof using Hf Hz0.
  intros Hk (o & Ho & Hnew). assert (k <> i) as Hki.
  { intros ->. rewrite (fu_pool _ _ _ _ _ _ _ _ _ Hf) in Hk. injection Hk as <-. destruct (fu_np _ _ _ _ _ _ _ _ _ Hf) as (_ & _ & E & _).
    rewrite E in Ho. apply list_elem_of_singleton in Ho as ->. done. }
  cbn. rewrite lookup_delete_ne by done. destruct (decide (k = c)) as [->|Hc].
  - rewrite lookup_insert_eq. rewrite (fu_conv _ _ _ _ _ _ _ _ _ Hf) in Hk. injection Hk as <-. by eexists.
  - rewrite lookup_insert_ne by done. by exists m.
Qed.

Lemma fz_value y : nhwc_value (ls_nodes a) y -> nhwc_value (ls_nodes a') y.
Proof using Hf Hz0.
  intros Hy. apply (nhwc_value_mono _ _ _ _ Hy). intros k m Hk Ho. destruct (fz_keep k m Hk Ho) as (m' & Hm' & E1 & E2 & E3 & _). by exists m'.
Qed.

Lemma fz_ents v f : ls_ents a' !! v = Some f -> (v = z /\ f = make_NhwcArgument c na uses) \/ (v = x /\ v <> z /\ f = used_once e) \/
  (v <> x /\ v <> z /\ ls_ents a !! v = Some f).
Proof using.
  cbn. destruct (decide (v = z)) as [->|Hvz]; [rewrite lookup_insert_eq; intros [= <-]; auto|]. rewrite lookup_insert_ne by done.
  destruct (decide (v = x)) as [->|Hvx]; [rewrite lookup_insert_eq; intros [= <-]; auto|]. rewrite lookup_insert_ne by done. auto.
Qed.

Lemma fz_dead : remaining_original_uses_ (used_once e) = 0.
Proof using Ha Hf. by apply (fu_dead names0 O I pooled a a' i nc np x z e uses). Qed.

Lemma fz_key v f : ls_ents a' !! v = Some f -> v ∈ names0 /\ 0 <= remaining_original_uses_ f <= starting_original_uses_ f /\ starting_original_uses_ f < 2 ^ 64.
Proof using Ha Hf Hz0 Hr.
  intros [[-> ->]|[(-> & _ & ->)|(_ & _ & He)]]%fz_ents; [cbn; split; [done|lia]| |by apply (inv_key _ _ _ _ a Ha)].
  destruct (inv_key _ _ _ _ a Ha x e (fu_ent _ _ _ _ _ _ _ _ _ Hf)) as (? & ? & ?). split; [done|]. rewrite fz_dead.
  change (starting_original_uses_ (used_once e)) with (starting_original_uses_ e). lia.
Qed.

Lemma fz_key_dead v f k p : ls_ents a' !! v = Some f -> ~ produces a' k p v.
Proof using Ha Hf.
  intros [[-> _]|[(-> & _)|(_ & _ & He)]]%fz_ents (Hk & Hp)%fz_produces.
  - by destruct (inv_ssa _ _ _ _ a Ha _ _ _ _ _ Hp (fu_z_produced a a' i nc np x z e uses Hf)).
  - by apply (inv_key_dead _ _ _ _ a Ha x e k p (fu_ent _ _ _ _ _ _ _ _ _ Hf)).
  - by apply (inv_key_dead _ _ _ _ a Ha v f k p).
Qed.

Lemma fz_ent_ok v f : ls_ents a' !! v = Some f -> 0 < remaining_original_uses_ f -> ent_ok a' v f.
Proof using All.
  pose proof (fu_ok names0 O I pooled a a' i nc np x z e uses Ha Hf) as Hok. intros [[-> ->]|[(-> & _ & ->)|(Hvx & Hvz & He)]]%fz_ents Hpos.
  - split; cbn [make_NhwcArgument nhwc_arg_ output_node_].
    + exact (eo_new _ _ _ _ _ Hok).
    + exists (with_attrs nc (fused_attrs (nd_attrs nc) (nd_attrs np))). destruct (fu_nc _ _ _ _ _ _ _ _ _ Hf) as (_ & Eo & _). cbn. rewrite Eo.
      rewrite lookup_delete_ne, lookup_insert_eq; [|apply not_eq_sym, (fu_index a a' i nc np x z e uses Hf)]. split_and!; [done|by apply list_elem_of_singleton|auto].
    + intros _ k p (_ & Hk)%fz_reads. by apply (fu_unread names0 O I pooled a a' i nc np x z e uses Ha Hf k p).
    + by apply fz_value, (eo_value _ _ _ _ _ Hok).
  - rewrite fz_dead in Hpos. done.
  - destruct (inv_ent _ _ _ _ a Ha v f He Hpos) as [Hnew (m & Hm & Hin & Hop) Hun Hv]. split; [done| | |by apply fz_value].
    + destruct (fz_keep (output_node_ f) m Hm) as (m' & Hm' & E1 & E2 & E3 & E4); [by eexists|]. exists m'. split; [done|]. rewrite E3. split; [done|].
      rewrite E4; [done|]. intros Ec. apply Hvx. rewrite Ec, (fu_conv _ _ _ _ _ _ _ _ _ Hf) in Hm. injection Hm as <-.
      destruct (fu_nc _ _ _ _ _ _ _ _ _ Hf) as (_ & Eo & _). rewrite Eo in Hin. apply list_elem_of_singleton in Hin.
      pose proof (fu_remaining names0 O I pooled a a' i nc np x z e uses Ha Hf) as [? _].
      apply (inv_inj _ _ _ _ a Ha v f x e He (fu_ent _ _ _ _ _ _ _ _ _ Hf)); [done|lia|done].
    + intros E k p (_ & Hk)%fz_reads. by eapply Hun.
Qed.

Lemma fz_uses v f : ls_ents a' !! v = Some f -> uses_bound O a' v (remaining_original_uses_ f).
Proof using All.
  intros [[-> ->]|[(-> & _ & ->)|(_ & _ & He)]]%fz_ents.
  - destruct Hu as (R & HR & Hin). exists R. split; [done|]. intros k p (_ & Hk)%fz_reads. by apply Hin.
  - destruct (inv_uses _ _ _ _ a Ha x e (fu_ent _ _ _ _ _ _ _ _ _ Hf)) as (R & HR & Hin). exists (filter (fun s => s ∉ [(i, 0%nat)]) R). split.
    + pose proof (filter_out_length [(i, 0%nat)] R (NoDup_singleton _)) as Hlen. simpl in Hlen. rewrite fz_dead.
      pose proof (fu_remaining names0 O I pooled a a' i nc np x z e uses Ha Hf) as [? _]. enough (length (filter (λ s, s ∉ [(i, 0%nat)]) R) + 1 <= length R)%nat by lia.
      apply Hlen. intros s ->%list_elem_of_singleton. apply Hin. exists np. destruct (fu_np _ _ _ _ _ _ _ _ _ Hf) as (_ & -> & _).
      split; [exact (fu_pool _ _ _ _ _ _ _ _ _ Hf)|done].
    + intros k p (Hk & Hr')%fz_reads. apply list_elem_of_filter. split; [|by apply Hin]. intros [= -> _]%list_elem_of_singleton. done.
  - destruct (inv_uses _ _ _ _ a Ha v f He) as (R & HR & Hin). exists R. split; [done|]. intros k p (_ & Hk)%fz_reads. by apply Hin.
Qed.

Lemma fz_inj v f w g : ls_ents a' !! v = Some f -> ls_ents a' !! w = Some g -> 0 < remaining_original_uses_ f -> 0 < remaining_original_uses_ g ->
  nhwc_arg_ f = nhwc_arg_ g -> v = w.
Proof using Ha Hf.
  pose proof (fu_remaining names0 O I pooled a a' i nc np x z e uses Ha Hf) as [He _]. pose proof (fu_ent _ _ _ _ _ _ _ _ _ Hf) as Hx.
  intros [[-> ->]|[(-> & _ & ->)|(Hv & _ & Hv')]]%fz_ents [[-> ->]|[(-> & _ & ->)|(Hw & _ & Hw')]]%fz_ents Hp Hq E; rewrite ?fz_dead in *; try done.
  - destruct Hw. symmetry. apply (inv_inj _ _ _ _ a Ha x e w g Hx Hw'); [lia|done..].
  - destruct Hv. apply (inv_inj _ _ _ _ a Ha v f x e Hv' Hx); [done|lia|done].
  - by apply (inv_inj _ _ _ _ a Ha v f w g).
Qed.

Lemma linv_fuse : linv a'.
Proof using All.
  split; cbn [fuse ls_reord ls_filt ls_cons ls_names].
  - intros k p y (_ & Hk)%fz_reads. by apply (inv_reads _ _ _ _ a Ha k p).
  - intros k p y (_ & Hk)%fz_produces. by apply (inv_produces _ _ _ _ a Ha k p).
  - exact (inv_names0 _ _ _ _ a Ha).
  - intros k p j q y (_ & Hk)%fz_produces (_ & Hj)%fz_produces. by apply (inv_ssa _ _ _ _ a Ha k p j q y).
  - intros k p y Hy (_ & Hk)%fz_produces. by apply (inv_ext _ _ _ _ a Ha k p y).
  - intros y Hy. destruct (ls_ents a' !! y) as [f|] eqn:He; [exfalso|done]. apply fz_ents in He as [[-> _]|[(-> & _)|(_ & _ & He)]].
    + apply (inv_ext _ _ _ _ a Ha i 0 z Hy), (fu_z_produced a a' i nc np x z e uses Hf).
    + pose proof (fu_ent _ _ _ _ _ _ _ _ _ Hf) as He. by rewrite (inv_ext_key _ _ _ _ a Ha x Hy) in He.
    + by rewrite (inv_ext_key _ _ _ _ a Ha y Hy) in He.
  - exact (inv_cons _ _ _ _ a Ha).
  - exact fz_key.
  - exact fz_key_dead.
  - intros v f [[-> ->]|[(-> & _ & ->)|(_ & _ & He)]]%fz_ents; [| |by apply (inv_arg _ _ _ _ a Ha v f)];
      apply (inv_arg _ _ _ _ a Ha x e (fu_ent _ _ _ _ _ _ _ _ _ Hf)).
  - exact fz_ent_ok.
  - exact fz_inj.
  - exact fz_uses.
  - intros y b Hy. destruct (inv_reord _ _ _ _ a Ha y b Hy) as (Hb & k & Hk). split; [done|]. exists k.
    destruct (fz_keep k _ Hk) as (m' & Hm' & _ & _ & _ & E); [exists b; split; [by apply list_elem_of_singleton|done]|].
    rewrite E in Hm'; [done|]. intros ->. rewrite (fu_conv _ _ _ _ _ _ _ _ _ Hf) in Hk. injection Hk as En.
    destruct (fu_nc _ _ _ _ _ _ _ _ _ Hf) as (Eop & _). by rewrite En in Eop.
  - exact (inv_filt _ _ _ _ a Ha).
Qed.
End fuse.
End steps.
