(* ===== verification/LayoutConvert.v ===== *)
(** * LayoutConvert: replacing a node by its NHWC variant

    The two halves of a conversion, rewiring the inputs and renaming the outputs, put
    together: the invariant is kept and no behaviour is lost, for each operator that the
    transformation converts. *)

From stdpp Require Import strings pretty.
From S2P Require Import Prelude Effects Tensor Graph NhwcTransformer LayoutGraph LayoutSteps LayoutInvariant.

Section convert.
Context {V : Type} `{TensorLaws V}.
Context (names0 : gset string) (O I : list string) (pooled : string -> Prop).
Context (HI : forall x, x ∈ I -> x ∈ names0).
Notation linv := (linv names0 O I pooled).
Notation nhwc_value := (nhwc_value names0).

(** A node whose outputs are images in NHWC order. *)
Definition nhwc_node (N : gmap nat ndef) (n : ndef) : Prop :=
  ((exists op wi, conv_kind op wi /\ nd_op n = op +:+ "_nhwc") \/ nd_op n = "MaxPool_nhwc") \/
  (relu_kind (nd_op n) /\ exists y, nd_ins n !! 0%nat = Some y /\ nhwc_value N y) \/
  (nd_op n = "QLinearAdd" /\ exists y z, nd_ins n !! 0%nat = Some y /\ nd_ins n !! 3%nat = Some z /\ nhwc_value N y /\ nhwc_value N z).

(** What a conversion is given: the rewired node [n'], the entries after its uses are
    taken off, and the new outputs [l]. *)
Record conversion (a : lstate) (i i' : nat) (n n' : ndef) (E' : gmap string NhwcArgument) (l : created) : Prop := {
  cn_shape : reshaped names0 a i i' n n' E';
  cn_ents x e : ls_ents a !! x = Some e -> exists e', E' !! x = Some e' /\ nhwc_arg_ e' = nhwc_arg_ e;
  cn_outs : nd_outs n = old_outs l;
  cn_nodup : NoDup (new_outs l);
  cn_fresh o : o ∈ new_outs l -> o ∉ ls_names a;
  cn_uses x o u : (x, (o, u)) ∈ l -> uses_bound O (reshape i i' n' E' a) x u /\ 0 <= u < 2 ^ 64;
  cn_op : nhwc_node (ls_nodes a) n';
  cn_conv : nd_op n' = "QLinearConv_nhwc" -> length l = 1%nat /\ nd_attrs n' !! "maxpool" = None }.

Definition convert (i i' : nat) (n' : ndef) (E' : gmap string NhwcArgument) (l : created) (a : lstate) : lstate :=
  create i' l (reshape i i' n' E' a).

Section one.
Context (a : lstate) (i i' : nat) (n n' : ndef) (E' : gmap string NhwcArgument) (l : created).
Context (Ha : linv a) (Hc : conversion a i i' n n' E' l).
Notation a1 := (reshape i i' n' E' a).
Notation a2 := (convert i i' n' E' l a).

Lemma cn_reshaped_node : ls_nodes a1 !! i' = Some n'.
Proof. cbn. by rewrite lookup_insert_eq. Qed.

Lemma cn_old x : x ∈ old_outs l -> x ∈ names0.
Proof using Hc. rewrite <- (cn_outs _ _ _ _ _ _ _ Hc). apply (rs_old _ _ _ _ _ _ _ (cn_shape _ _ _ _ _ _ _ Hc)). Qed.

Lemma cn_node : ls_nodes a2 !! i' = Some (with_outs n' (new_outs l)).
Proof. unfold convert. cbn. by rewrite lookup_alter_eq, lookup_insert_eq. Qed.

(** NHWC arguments stay such. *)
Lemma cn_value y : nhwc_value (ls_nodes a) y -> nhwc_value (ls_nodes a2) y.
Proof using Hc.
  intros Hy. apply (nhwc_value_mono _ _ _ _ Hy). intros k m Hk Ho. exists m. split; [|done]. pose proof (cn_shape _ _ _ _ _ _ _ Hc) as Hs.
  pose proof (rs_keep names0 a i i' n n' E' Hs k m Hk Ho) as Hk'. unfold convert. rewrite <- Hk'. apply cr_other.
  intros ->. rewrite cn_reshaped_node in Hk'. injection Hk' as <-. destruct Ho as (o & Ho & Hnew). apply Hnew, (rs_old _ _ _ _ _ _ _ Hs).
  by rewrite <- (rs_outs _ _ _ _ _ _ _ Hs).
Qed.

Lemma cn_values o : o ∈ new_outs l -> nhwc_value (ls_nodes a2) o.
Proof using Ha Hc.
  intros Ho. assert (o ∉ names0) as Hnew by (intros Hn0; by apply (cn_fresh _ _ _ _ _ _ _ Hc o Ho), (inv_names0 _ _ _ _ a Ha)).
  destruct (cn_op _ _ _ _ _ _ _ Hc) as [Hop|[(Hop & y & Hy & Hv)|(Hop & y & z & Hy & Hz & Hv & Hw)]].
  - by apply (nv_op _ _ i' _ o cn_node).
  - apply (nv_relu _ _ i' _ o y cn_node); [done..|by apply cn_value|done|done].
  - apply (nv_add _ _ i' _ o y z cn_node); [done..|by apply cn_value|by apply cn_value|done|done].
Qed.

Lemma linv_convert : linv a2.
Proof using HI Ha Hc.
  pose proof (cn_shape _ _ _ _ _ _ _ Hc) as Hs. pose proof (linv_reshape names0 O I pooled a i i' n n' E' Ha Hs) as Ha1.
  apply (linv_create names0 O I pooled HI a1 i' n' l Ha1 cn_reshaped_node).
  - rewrite (rs_outs _ _ _ _ _ _ _ Hs). apply (cn_outs _ _ _ _ _ _ _ Hc).
  - apply cn_old.
  - apply (cn_nodup _ _ _ _ _ _ _ Hc).
  - apply (cn_fresh _ _ _ _ _ _ _ Hc).
  - apply (cn_uses _ _ _ _ _ _ _ Hc).
  - apply cn_values.
  - apply (cn_conv _ _ _ _ _ _ _ Hc).
Qed.

Lemma cn_nodup_old : NoDup (old_outs l).
Proof using Ha Hc.
  apply NoDup_alt. intros p q x Hp Hq. rewrite <- (cn_outs _ _ _ _ _ _ _ Hc) in Hp, Hq. pose proof (rs_node _ _ _ _ _ _ _ (cn_shape _ _ _ _ _ _ _ Hc)) as Hn.
  by destruct (inv_ssa _ _ _ _ a Ha i p i q x ltac:(by exists n) ltac:(by exists n)).
Qed.

Lemma cn_key x e : ls_ents a !! x = Some e -> exists e', ls_ents a2 !! x = Some e' /\ nhwc_arg_ e' = nhwc_arg_ e.
Proof using Ha Hc.
  intros He. destruct (cn_ents _ _ _ _ _ _ _ Hc x e He) as (e' & He' & E). exists e'. split; [|done]. unfold convert. cbn. rewrite create_ents_old; [done|].
  rewrite <- (cn_outs _ _ _ _ _ _ _ Hc). intros [p Hp]%list_elem_of_lookup. apply (inv_key_dead _ _ _ _ a Ha x e i p He). exists n.
  split; [exact (rs_node _ _ _ _ _ _ _ (cn_shape _ _ _ _ _ _ _ Hc))|done].
Qed.

Lemma conversion_converted : converted a a2 i i' n (with_outs n' (new_outs l)).
Proof using Ha Hc.
  pose proof (cn_shape _ _ _ _ _ _ _ Hc) as Hs. split.
  - exact (rs_node _ _ _ _ _ _ _ Hs).
  - exact (rs_index _ _ _ _ _ _ _ Hs).
  - unfold convert. cbn. by rewrite alter_insert_eq.
  - cbn. rewrite (cn_outs _ _ _ _ _ _ _ Hc). unfold new_outs, old_outs. by rewrite !length_fmap.
  - intros k x Hx. rewrite (cn_outs _ _ _ _ _ _ _ Hc) in Hx. unfold old_outs in Hx. rewrite list_lookup_fmap in Hx.
    destruct (l !! k) as [[y [o u]]|] eqn:Hk; [|done]. injection Hx as ->. exists (make_NhwcArgument i' o u). split.
    + unfold convert. cbn. apply create_ents_new; [exact cn_nodup_old|by apply list_elem_of_lookup_2 in Hk].
    + cbn. unfold new_outs. by rewrite list_lookup_fmap, Hk.
  - exact cn_key.
  - done.
Qed.

(** The values a rewired input had. *)
Lemma back_entry σ x e : ls_ents a !! x = Some e -> back a2 σ x = nchw (σ (nhwc_arg_ e)).
Proof using Ha Hc. intros He. destruct (cn_key x e He) as (e' & He' & E). unfold back. by rewrite He', E. Qed.

Lemma back_same σ p x : lsat a2 σ -> nd_ins n' !! p = Some x -> back a2 σ x = σ x.
Proof using HI Ha Hc.
  intros Hs Hp. apply (back_used names0 O I pooled); [exact linv_convert|done|]. left. exists i', p. exists (with_outs n' (new_outs l)).
  split; [exact cn_node|done].
Qed.

Lemma convert_refines :
  (forall σ, lsat a2 σ -> op_rel (nd_op n') (nd_attrs n') (σ <$> nd_ins n') (σ <$> new_outs l) ->
    op_rel (nd_op n) (nd_attrs n) (back a2 σ <$> nd_ins n) (nchw <$> (σ <$> new_outs l))) ->
  linv a2 /\ refines O I a a2.
Proof using HI Ha Hc.
  intros Hsem. split; [exact linv_convert|]. apply (converted_refines names0 O I pooled a a2 i i' n (with_outs n' (new_outs l)) Ha linv_convert conversion_converted).
  exact Hsem.
Qed.

(** ** The operators *)

(** An operator that does not see the order, and a pooling: the first input is rewired. *)
Lemma first_input σ x e rest : lsat a2 σ -> ls_ents a !! x = Some e -> nd_ins n = x :: rest -> nd_ins n' = nhwc_arg_ e :: rest ->
  back a2 σ <$> nd_ins n = nchw (σ (nhwc_arg_ e)) :: (σ <$> rest).
Proof using HI Ha Hc.
  intros Hs He En En'. rewrite En. simpl. f_equal; [by apply back_entry|]. apply fmap_back. intros p y Hy.
  apply (back_same σ (S p)); [done|]. by rewrite En'.
Qed.

Lemma relu_step x e rest : relu_kind (nd_op n) -> nd_op n' = nd_op n -> nd_attrs n' = nd_attrs n -> ls_ents a !! x = Some e ->
  nd_ins n = x :: rest -> nd_ins n' = nhwc_arg_ e :: rest -> linv a2 /\ refines O I a a2.
Proof using All.
  intros Hop Eop Ea He En En'. apply convert_refines. intros σ Hs Hn. rewrite (first_input σ x e rest) by done.
  rewrite Eop, Ea, En' in Hn. by apply relu_layout in Hn.
Qed.

Lemma pool_step x e rest : nd_op n = "MaxPool" -> nd_op n' = "MaxPool_nhwc" -> nd_attrs n' = nd_attrs n -> length l = 1%nat -> ls_ents a !! x = Some e ->
  nd_ins n = x :: rest -> nd_ins n' = nhwc_arg_ e :: rest -> linv a2 /\ refines O I a a2.
Proof using All.
  intros Hop Eop Ea Hl He En En'. apply convert_refines. intros σ Hs Hn. rewrite (first_input σ x e rest) by done.
  rewrite Eop, Ea, En' in Hn. rewrite Hop. destruct l as [|t [|]]; try done. by apply pool_layout in Hn.
Qed.

Lemma add_step x1 x2 e1 e2 : nd_op n = "QLinearAdd" -> nd_op n' = nd_op n -> nd_attrs n' = nd_attrs n ->
  nd_ins n !! 0%nat = Some x1 -> nd_ins n !! 3%nat = Some x2 -> ls_ents a !! x1 = Some e1 -> ls_ents a !! x2 = Some e2 ->
  nhwc_value (ls_nodes a) (nhwc_arg_ e1) -> nhwc_value (ls_nodes a) (nhwc_arg_ e2) ->
  nd_ins n' = <[3%nat := nhwc_arg_ e2]> (<[0%nat := nhwc_arg_ e1]> (nd_ins n)) -> linv a2 /\ refines O I a a2.
Proof using All.
  intros Hop Eop Ea H1 H2 He1 He2 Hv1 Hv2 En'. apply convert_refines. intros σ Hs Hn. rewrite Eop, Ea, Hop in Hn. rewrite Hop.
  assert (nd_ins n' !! 0%nat = Some (nhwc_arg_ e1)) as L1 by (rewrite En', list_lookup_insert_ne, list_lookup_insert_eq; [done|by apply lookup_lt_Some in H1|done]).
  assert (nd_ins n' !! 3%nat = Some (nhwc_arg_ e2)) as L2 by (rewrite En', list_lookup_insert_eq; [done|rewrite length_insert; by apply lookup_lt_Some in H2]).
  assert (back a2 σ <$> nd_ins n = <[3%nat := nchw (σ (nhwc_arg_ e2))]> (<[0%nat := nchw (σ (nhwc_arg_ e1))]> (σ <$> nd_ins n'))) as ->.
  { apply list_eq. intros p. rewrite list_lookup_fmap. destruct (decide (p = 3%nat)) as [->|H3]; [|destruct (decide (p = 0%nat)) as [->|H0']].
    - rewrite list_lookup_insert_eq, H2; [simpl; by rewrite (back_entry σ x2 e2)|]. rewrite length_insert, length_fmap. by apply lookup_lt_Some in L2.
    - rewrite list_lookup_insert_ne, list_lookup_insert_eq, H1 by (done || (rewrite length_fmap; by apply lookup_lt_Some in L1)). simpl. by rewrite (back_entry σ x1 e1).
    - rewrite !list_lookup_insert_ne, list_lookup_fmap by done. assert (nd_ins n' !! p = nd_ins n !! p) as E by (by rewrite En', !list_lookup_insert_ne).
      rewrite E. destruct (nd_ins n !! p) as [y|] eqn:Hy; [|done]. simpl. f_equal. by apply (back_same σ p). }
  apply add_layout; try done; [by rewrite list_lookup_fmap, L1|by rewrite list_lookup_fmap, L2|..]; eapply value_image; eauto using cn_value.
Qed.

Lemma conv_step op wi x y w w' W W' : conv_kind op wi -> nd_op n = op -> nd_op n' = op +:+ "_nhwc" -> nd_attrs n' = nd_attrs n -> nd_attrs n !! "maxpool" = None ->
  nd_ins n !! 0%nat = Some x -> nd_ins n !! wi = Some w -> nd_ins n' = <[0%nat := y]> (<[wi := w']> (nd_ins n)) ->
  ls_cons a !! w = Some W -> ls_cons a !! w' = Some W' -> reordered_weights W W' ->
  (exists e, ls_ents a !! x = Some e /\ y = nhwc_arg_ e) \/ (exists k, k <> i /\ ls_nodes a !! k = Some (transpose_def x y)) ->
  linv a2 /\ refines O I a a2.
Proof using All.
  intros Hk Hop Eop Ea Hmax Hx Hw En' HW HW' HR Hin. apply convert_refines. intros σ Hs Hn. rewrite Eop, Ea in Hn. rewrite Hop.
  assert (wi <> 0%nat) as Hwi by (destruct Hk as [[_ ->]|[_ ->]]; done). pose proof linv_convert as Ha2.
  assert (nd_ins n' !! 0%nat = Some y) as L1 by (rewrite En', list_lookup_insert_eq; [done|rewrite length_insert; by apply lookup_lt_Some in Hx]).
  assert (nd_ins n' !! wi = Some w') as L2 by (rewrite En', list_lookup_insert_ne, list_lookup_insert_eq; [done|by apply lookup_lt_Some in Hw|done]).
  assert (back a2 σ x = nchw (σ y)) as Hbx.
  { destruct Hin as [(e & He & ->)|(k & Hki & Hkn)]; [by apply back_entry|]. pose proof conversion_converted as Hcv.
    pose proof (converted_other _ _ _ _ _ _ k _ Hcv Hki Hkn) as Hk2. rewrite (back_used names0 O I pooled a2 σ x Ha2 Hs).
    - apply transpose_to_nhwc. exact (sat_nodes a2 σ Hs k _ Hk2).
    - left. exists k, 0%nat, (transpose_def x y). done. }
  assert (back a2 σ <$> nd_ins n = <[wi := tensor_val W]> (<[0%nat := nchw (σ y)]> (σ <$> nd_ins n'))) as ->.
  { apply list_eq. intros p. rewrite list_lookup_fmap. destruct (decide (p = wi)) as [->|H3]; [|destruct (decide (p = 0%nat)) as [->|H0']].
    - rewrite list_lookup_insert_eq, Hw by (rewrite length_insert, length_fmap; by apply lookup_lt_Some in L2). simpl. f_equal.
      rewrite <- (sat_cons a2 σ Hs w W HW). unfold back. rewrite (inv_ext_key _ _ _ _ a2 Ha2 w); [done|]. right. by apply elem_of_dom_2 in HW.
    - rewrite list_lookup_insert_ne, list_lookup_insert_eq, Hx by (done || (rewrite length_fmap; by apply lookup_lt_Some in L1)). simpl. by rewrite Hbx.
    - rewrite !list_lookup_insert_ne, list_lookup_fmap by done. assert (nd_ins n' !! p = nd_ins n !! p) as E by (by rewrite En', !list_lookup_insert_ne).
      rewrite E. destruct (nd_ins n !! p) as [v|] eqn:Hv; [|done]. simpl. f_equal. by apply (back_same σ p). }
  eapply conv_layout; try done; [by rewrite list_lookup_fmap, L1|rewrite list_lookup_fmap, L2; simpl; f_equal]. exact (sat_cons a2 σ Hs w' W' HW').
Qed.
End one.
End convert.
