(* ===== verification/TransformerState.v ===== *)
(** * TransformerState: the state of the layout transformation

    The view of a state that [LayoutGraph] reasons about, the invariant of what the view
    leaves out (edges, names, sizes), and the rules for the operations on the graph that
    the transformation composes. *)

From stdpp Require Import strings pretty.
From S2P Require Import Prelude Effects Tensor Graph GraphSpec NhwcTransformer LayoutGraph LayoutSteps LayoutInvariant LayoutConvert.

(** ** The view *)

Definition ndef_of (n : Node) : ndef :=
  {| nd_op := op_type_ n; nd_ins := input_defs n; nd_outs := output_defs n; nd_attrs := attributes_ n |}.

Definition view_nodes (X : list nat) (g : Graph) : gmap nat ndef :=
  filter (fun p => p.1 ∉ X) (omap (fun o => ndef_of <$> o) (map_seq 0 (nodes_ g) : gmap nat (option Node))).

(** The initializers that a run cannot override. *)
Definition constants (g : Graph) : gmap string TensorProto :=
  filter (fun p => ~ (CanOverrideInitializer g = true /\ p.1 ∈ graph_inputs_including_initializers_ g)) (name_to_initial_tensor_ g).

(** The graph without the nodes [X] and those that are to be removed. *)
Definition view (X : list nat) (t : Transformer) : lstate := {|
  ls_nodes := view_nodes (X ++ removed_nodes_ t) (graph_ t); ls_ents := nhwc_args_ t; ls_reord := reorder_inputs_ t;
  ls_filt := filters_transposed t; ls_cons := constants (graph_ t); ls_names := dom (node_args_ (graph_ t)) |}.

Lemma view_nodes_lookup X g i : view_nodes X g !! i = if decide (i ∈ X) then None else ndef_of <$> graph_node g i.
Proof.
  unfold view_nodes, graph_node. destruct (decide (i ∈ X)) as [Hi|Hi].
  - apply map_lookup_filter_None. right. intros x _ Hx. by apply Hx.
  - transitivity ((omap (fun o => ndef_of <$> o) (map_seq 0 (nodes_ g) : gmap nat (option Node))) !! i).
    + destruct (omap _ _ !! i) as [n|] eqn:E; [by apply map_lookup_filter_Some|]. apply map_lookup_filter_None. by left.
    + rewrite lookup_omap, lookup_map_seq_0. by destruct (nodes_ g !! i) as [[n|]|].
Qed.

Lemma view_lookup X t i m : ls_nodes (view X t) !! i = Some m <-> (i ∉ X) /\ (i ∉ removed_nodes_ t) /\ exists n, graph_node (graph_ t) i = Some n /\ m = ndef_of n.
Proof.
  cbn. rewrite view_nodes_lookup. destruct (decide (i ∈ X ++ removed_nodes_ t)) as [Hi|Hi]; rewrite elem_of_app in Hi.
  - split; [done|]. tauto.
  - destruct (graph_node (graph_ t) i) as [n|]; simpl; split; [intros [= <-]|intros (_ & _ & n' & [= <-] & ->)|done|intros (_ & _ & n' & ? & _)]; [|done..].
    split; [tauto|]. split; [tauto|]. by exists n.
Qed.

Lemma view_nodes_ext X g g' : (forall i, i ∉ X -> ndef_of <$> graph_node g' i = ndef_of <$> graph_node g i) -> view_nodes X g' = view_nodes X g.
Proof. intros He. apply map_eq. intros i. rewrite !view_nodes_lookup. case_decide; [done|by apply He]. Qed.

Lemma constants_lookup g w T : constants g !! w = Some T <->
  name_to_initial_tensor_ g !! w = Some T /\ ~ (CanOverrideInitializer g = true /\ w ∈ graph_inputs_including_initializers_ g).
Proof. unfold constants. by rewrite map_lookup_filter_Some. Qed.

Lemma GetConstantInitializer_constants g w : GetConstantInitializer g w = constants g !! w.
Proof.
  unfold GetConstantInitializer, GetInitializedTensor. destruct (constants g !! w) as [T|] eqn:E.
  - apply constants_lookup in E as [-> Hn]. destruct (CanOverrideInitializer g && _) eqn:Eb; [|done].
    apply andb_true_iff in Eb as [? ?%bool_decide_eq_true]. tauto.
  - destruct (name_to_initial_tensor_ g !! w) as [T|] eqn:Ew; [|done]. destruct (CanOverrideInitializer g && _) eqn:Eb; [done|].
    assert (constants g !! w = Some T) as E'; [|by rewrite E' in E]. apply constants_lookup. split; [done|]. intros [E1 E2].
    rewrite E1, bool_decide_true in Eb by done. done.
Qed.

(** ** What the view leaves out *)

(** Edges join an output to an input of the same name, and both ends know them. *)
Record edges_ok (g : Graph) : Prop := {
  eo_out i n j p q : graph_node g i = Some n -> (j, p, q) ∈ output_edges n -> exists m x, graph_node g j = Some m /\ (i, p, q) ∈ input_edges m /\
    output_defs n !! p = Some x /\ input_defs m !! q = Some x;
  eo_in j m i p q : graph_node g j = Some m -> (i, p, q) ∈ input_edges m -> exists n, graph_node g i = Some n /\ (j, p, q) ∈ output_edges n }.

(** Every live reader of an output of node [i] has its edge. *)
Definition edges_complete (t : Transformer) (i : nat) : Prop :=
  forall n j m p q x, graph_node (graph_ t) i = Some n -> output_defs n !! p = Some x ->
    graph_node (graph_ t) j = Some m -> j ∉ removed_nodes_ t -> input_defs m !! q = Some x -> (j, p, q) ∈ output_edges n.

Definition graph_size (t : Transformer) : nat :=
  length (nodes_ (graph_ t)) + size (generated_node_names_ (graph_ t)) + size (node_args_ (graph_ t)) +
  size (generated_node_arg_names_ (graph_ t)) + 3 * size (nhwc_args_ t).

Section state.
Context (g0 : Graph) (pre : bool).

(** [C] holds the nodes whose outputs are as they were, [k] what the graph may still grow. *)
Record cinv (C : list nat) (k : nat) (t : Transformer) : Prop := {
  ci_edges : edges_ok (graph_ t);
  ci_live i : i ∈ C -> is_Some (graph_node (graph_ t) i);
  ci_complete i : i ∈ C -> edges_complete t i;
  ci_removed i : i ∈ removed_nodes_ t -> (i ∉ C) /\ exists n, graph_node (graph_ t) i = Some n /\ output_edges n = ∅;
  ci_init w : w ∈ dom (name_to_initial_tensor_ (graph_ t)) -> w ∈ dom (node_args_ (graph_ t));
  ci_names0 : dom (node_args_ g0) ⊆ dom (node_args_ (graph_ t));
  ci_shapes x s : x ∈ dom (node_args_ g0) -> arg_Shape (graph_ t) x = Some s -> arg_Shape g0 x = Some s;
  ci_gen : in_s 32 (name_generator_ (graph_ t));
  ci_size : Z.of_nat (graph_size t + k) < 2 ^ 31 - 1;
  ci_inputs : graph_inputs_including_initializers_ (graph_ t) = graph_inputs_including_initializers_ g0;
  ci_outputs : graph_outputs_ (graph_ t) = graph_outputs_ g0;
  ci_ir : ir_version_ (graph_ t) = ir_version_ g0;
  ci_pre : pretraining_pass_ t = pre;
  ci_few i n : graph_node (graph_ t) i = Some n -> Z.of_nat (size (output_edges n)) < 2 ^ 63 }.

Lemma cinv_bounded C k t : cinv C k t -> names_bounded (graph_ t).
Proof. intros Hc. pose proof (ci_gen _ _ _ Hc). pose proof (ci_size _ _ _ Hc). unfold graph_size, names_bounded in *. split_and!; [done|lia..]. Qed.

Lemma cinv_weaken C k k' t : cinv C k t -> (k' <= k)%nat -> cinv C k' t.
Proof. intros [] Hk. split; try done. lia. Qed.
End state.

Lemma wp_on_graph {A} (m : M Graph A) Q t : wp m (fun a g => Q a (t <| graph_ := g |>)) (graph_ t) -> wp (on_graph m) Q t.
Proof. unfold wp, on_graph. by destruct (m (graph_ t)) as [[a|f] g]. Qed.

Lemma wp_GetNode i n Q g : graph_node g i = Some n -> Q n g -> wp (GetNode i) Q g.
Proof.
  intros Hn HQ. unfold GetNode. apply wp_bind, wp_gets, wp_bind, wp_check.
  - apply bool_decide_eq_true. unfold id, graph_node in *. destruct (nodes_ g !! i) eqn:E; [by apply lookup_lt_Some in E|done].
  - unfold id. rewrite Hn. by apply wp_ret.
Qed.

Lemma graph_node_alter g i f j : graph_node (g <| nodes_ := alter (option_map f) i (nodes_ g) |>) j =
  if decide (j = i) then f <$> graph_node g j else graph_node g j.
Proof.
  unfold graph_node. cbn. destruct (decide (j = i)) as [->|Hj].
  - rewrite list_lookup_alter_eq. by destruct (nodes_ g !! i) as [[n|]|].
  - by rewrite list_lookup_alter_ne by done.
Qed.

Lemma graph_node_app g n j : graph_node (g <| nodes_ := nodes_ g ++ [Some n] |>) j = if decide (j = length (nodes_ g)) then Some n else graph_node g j.
Proof.
  unfold graph_node. cbn. destruct (decide (j = length (nodes_ g))) as [->|Hj]; [by rewrite list_lookup_middle|].
  destruct (decide (j < length (nodes_ g))%nat) as [Hlt|Hge]; [by rewrite lookup_app_l|].
  rewrite !(proj2 (lookup_ge_None _ _)); [done|lia|rewrite length_app; simpl; lia].
Qed.

Lemma graph_node_new g : graph_node g (length (nodes_ g)) = None.
Proof. unfold graph_node. by rewrite (proj2 (lookup_ge_None _ _)). Qed.
