(* ===== verification/TransformerOps.v ===== *)
(** * TransformerOps: rules for the operations of the layout transformation

    Each operation on the state as a function, what it does to the view, and that it keeps
    the invariant of what the view leaves out. *)

From stdpp Require Import strings pretty.
From S2P Require Import Prelude Effects Tensor Graph GraphSpec NhwcTransformer LayoutGraph LayoutSteps LayoutInvariant LayoutConvert TransformerState.

(** ** Operations *)

Definition t_upd (i : nat) (f : Node -> Node) (t : Transformer) : Transformer :=
  t <| graph_ := (graph_ t) <| nodes_ := alter (option_map f) i (nodes_ (graph_ t)) |> |>.
Definition t_node (n : Node) (t : Transformer) : Transformer :=
  t <| graph_ := ((graph_ t) <| nodes_ := nodes_ (graph_ t) ++ [Some n] |>) <| num_of_nodes_ := num_of_nodes_ (graph_ t) + 1 |> |>.
Definition t_gen_arg (name : string) (gen : Z) (t : Transformer) : Transformer :=
  t <| graph_ := ((graph_ t) <| name_generator_ := gen |>) <| generated_node_arg_names_ := {[ name ]} ∪ generated_node_arg_names_ (graph_ t) |> |>.
Definition t_gen_node (name : string) (gen : Z) (t : Transformer) : Transformer :=
  t <| graph_ := ((graph_ t) <| name_generator_ := gen |>) <| generated_node_names_ := {[ name ]} ∪ generated_node_names_ (graph_ t) |> |>.
Definition t_arg (name : string) (ty : option TypeProto) (t : Transformer) : Transformer :=
  t <| graph_ := (graph_ t) <| node_args_ := <[name := ty]> (node_args_ (graph_ t)) |> |>.
Definition t_ents (E : gmap string NhwcArgument) (t : Transformer) : Transformer := t <| nhwc_args_ := E |>.

(** The same on the view. *)
Definition v_alter (i : nat) (f : ndef -> ndef) (a : lstate) : lstate := {|
  ls_nodes := alter f i (ls_nodes a); ls_ents := ls_ents a; ls_reord := ls_reord a; ls_filt := ls_filt a; ls_cons := ls_cons a; ls_names := ls_names a |}.
Definition v_node (i : nat) (n : ndef) (a : lstate) : lstate := {|
  ls_nodes := <[i := n]> (ls_nodes a); ls_ents := ls_ents a; ls_reord := ls_reord a; ls_filt := ls_filt a; ls_cons := ls_cons a; ls_names := ls_names a |}.
Definition v_name (x : string) (a : lstate) : lstate := {|
  ls_nodes := ls_nodes a; ls_ents := ls_ents a; ls_reord := ls_reord a; ls_filt := ls_filt a; ls_cons := ls_cons a; ls_names := {[ x ]} ∪ ls_names a |}.
Definition v_ents (E : gmap string NhwcArgument) (a : lstate) : lstate := {|
  ls_nodes := ls_nodes a; ls_ents := E; ls_reord := ls_reord a; ls_filt := ls_filt a; ls_cons := ls_cons a; ls_names := ls_names a |}.

Lemma lstate_eq a b : ls_nodes a = ls_nodes b -> ls_ents a = ls_ents b -> ls_reord a = ls_reord b -> ls_filt a = ls_filt b ->
  ls_cons a = ls_cons b -> ls_names a = ls_names b -> a = b.
Proof. destruct a, b. simpl. congruence. Qed.

Lemma t_upd_node i f t j : graph_node (graph_ (t_upd i f t)) j = if decide (j = i) then f <$> graph_node (graph_ t) j else graph_node (graph_ t) j.
Proof. apply graph_node_alter. Qed.

Lemma t_node_node n t j : graph_node (graph_ (t_node n t)) j = if decide (j = length (nodes_ (graph_ t))) then Some n else graph_node (graph_ t) j.
Proof. apply graph_node_app. Qed.

Lemma view_upd X i f F t : (forall n, ndef_of (f n) = F (ndef_of n)) -> i ∉ X ++ removed_nodes_ t -> view X (t_upd i f t) = v_alter i F (view X t).
Proof.
  intros HF Hi. apply lstate_eq; try done. apply map_eq. intros j. change (ls_nodes (view X (t_upd i f t))) with (view_nodes (X ++ removed_nodes_ t) (graph_ (t_upd i f t))).
  rewrite view_nodes_lookup, t_upd_node. cbn [v_alter ls_nodes]. destruct (decide (j = i)) as [->|Hj].
  - rewrite lookup_alter_eq. cbn [view ls_nodes]. rewrite view_nodes_lookup. case_decide; [done|].
    destruct (graph_node (graph_ t) i) as [n|]; simpl; [by rewrite HF|done].
  - rewrite lookup_alter_ne by done. cbn [view ls_nodes]. by rewrite view_nodes_lookup.
Qed.

(** A change that the view does not see. *)
Lemma view_upd_same X i f t : (forall n, ndef_of (f n) = ndef_of n) \/ i ∈ X ++ removed_nodes_ t -> view X (t_upd i f t) = view X t.
Proof.
  intros Hf. apply lstate_eq; try done. apply view_nodes_ext. intros j Hj. rewrite t_upd_node. case_decide as E; [|done]. subst j.
  destruct Hf as [Hf|Hi]; [|done]. destruct (graph_node (graph_ t) i); simpl; [by rewrite Hf|done].
Qed.

Lemma view_node X n t : length (nodes_ (graph_ t)) ∉ X ++ removed_nodes_ t ->
  view X (t_node n t) = v_node (length (nodes_ (graph_ t))) (ndef_of n) (view X t).
Proof.
  intros Hi. apply lstate_eq; try done. apply map_eq. intros j. change (ls_nodes (view X (t_node n t))) with (view_nodes (X ++ removed_nodes_ t) (graph_ (t_node n t))).
  rewrite view_nodes_lookup, t_node_node. cbn [v_node ls_nodes]. destruct (decide (j = length (nodes_ (graph_ t)))) as [->|Hj].
  - by rewrite lookup_insert_eq, decide_False.
  - rewrite lookup_insert_ne by done. cbn [view ls_nodes]. by rewrite view_nodes_lookup.
Qed.

Lemma view_arg X x ty t : view X (t_arg x ty t) = v_name x (view X t).
Proof. apply lstate_eq; try done. cbn. by rewrite dom_insert_L. Qed.

Lemma view_ents X E t : view X (t_ents E t) = v_ents E (view X t).
Proof. done. Qed.

(** ** Invariant *)

Section cinv.
Context (g0 : Graph) (pre : bool).
Notation cinv := (cinv g0 pre).

(** No output of a node of [C] has this name. *)
Definition not_made (C : list nat) (t : Transformer) (x : string) : Prop :=
  forall c m, c ∈ C -> graph_node (graph_ t) c = Some m -> x ∉ output_defs m.

Lemma cinv_upd C k t i f : cinv C k t -> (forall n, input_defs (f n) = input_defs n /\ output_defs (f n) = output_defs n /\
  input_edges (f n) = input_edges n /\ output_edges (f n) = output_edges n) -> cinv C k (t_upd i f t).
Proof.
  intros Hc Hf. assert (forall j m', graph_node (graph_ (t_upd i f t)) j = Some m' -> exists m, graph_node (graph_ t) j = Some m /\
    input_defs m' = input_defs m /\ output_defs m' = output_defs m /\ input_edges m' = input_edges m /\ output_edges m' = output_edges m) as Hb.
  { intros j m'. rewrite t_upd_node. case_decide; [|by exists m']. destruct (graph_node (graph_ t) j) as [m|]; [|done]. intros [= <-]. exists m. split; [done|apply Hf]. }
  assert (forall j m, graph_node (graph_ t) j = Some m -> exists m', graph_node (graph_ (t_upd i f t)) j = Some m' /\
    input_defs m' = input_defs m /\ output_defs m' = output_defs m /\ input_edges m' = input_edges m /\ output_edges m' = output_edges m) as Hfw.
  { intros j m Hm. rewrite t_upd_node, Hm. case_decide; [|by exists m]. exists (f m). split; [done|apply Hf]. }
  destruct Hc. split; try done.
  - destruct ci_edges as [Ho Hi]. split.
    + intros a n j p q (n1 & Hn & _ & E2 & _ & E4)%Hb Hj. rewrite E4 in Hj. destruct (Ho a n1 j p q Hn Hj) as (m & x & Hm & H1 & H2 & H3).
      destruct (Hfw j m Hm) as (m' & Hm' & F1 & F2 & F3 & F4). exists m', x. by rewrite F3, F1, E2.
    + intros j m a p q (m1 & Hm & _ & _ & E3 & _)%Hb Hj. rewrite E3 in Hj. destruct (Hi j m1 a p q Hm Hj) as (n & Hn & H1).
      destruct (Hfw a n Hn) as (n' & Hn' & _ & _ & _ & F4). exists n'. by rewrite F4.
  - intros j Hj. destruct (ci_live j Hj) as [m Hm]. destruct (Hfw j m Hm) as (m' & Hm' & _). by exists m'.
  - intros j Hj n a m p q x (n1 & Hn & _ & E2 & _ & E4)%Hb Hp (m1 & Hm & F1 & _)%Hb Hr Hq. rewrite E4. rewrite E2 in Hp. rewrite F1 in Hq. by eapply ci_complete.
  - intros j Hj. destruct (ci_removed j Hj) as (HC & n & Hn & E). split; [done|]. destruct (Hfw j n Hn) as (n' & Hn' & _ & _ & _ & F4). exists n'. by rewrite F4.
  - unfold graph_size in *. cbn. by rewrite length_alter.
  - intros j m (m1 & Hm & _ & _ & _ & E4)%Hb. rewrite E4. by eapply ci_few.
Qed.

(** Rewiring an input that has no edge, to an argument that no node of [C] makes. *)
Lemma cinv_set_in C k t i n p v : cinv C k t -> graph_node (graph_ t) i = Some n -> input_edges n = ∅ -> not_made C t v ->
  cinv C k (t_upd i (fun n => n <| input_defs := <[p := v]> (input_defs n) |>) t).
Proof.
  intros Hc Hn He Hv. set (f := fun n => n <| input_defs := <[p := v]> (input_defs n) |>).
  assert (forall j m', graph_node (graph_ (t_upd i f t)) j = Some m' -> exists m, graph_node (graph_ t) j = Some m /\
    (m' = m \/ (j = i /\ m' = f n))) as Hb.
  { intros j m'. rewrite t_upd_node. case_decide as E; [subst j|by exists m'; auto]. rewrite Hn. intros [= <-]. exists n. auto. }
  assert (forall j m, graph_node (graph_ t) j = Some m -> exists m', graph_node (graph_ (t_upd i f t)) j = Some m' /\
    output_defs m' = output_defs m /\ input_edges m' = input_edges m /\ output_edges m' = output_edges m /\ (input_edges m <> ∅ -> m' = m)) as Hfw.
  { intros j m Hm. rewrite t_upd_node, Hm. case_decide as E; [subst j|by exists m]. rewrite Hn in Hm. injection Hm as <-. by exists (f n). }
  destruct Hc. split; try done.
  - destruct ci_edges as [Ho Hi]. split.
    + intros a m j r q (m1 & Hm & Em)%Hb Hj. assert (output_edges m = output_edges m1 /\ output_defs m = output_defs m1) as [E4 E2].
      { destruct Em as [->|[-> ->]]; [done|]. rewrite Hn in Hm. by injection Hm as <-. }
      rewrite E4 in Hj. destruct (Ho a m1 j r q Hm Hj) as (m2 & x & Hm2 & H1 & H2 & H3).
      destruct (Hfw j m2 Hm2) as (m' & Hm' & _ & F3 & _ & F). exists m', x. rewrite F3, E2. split_and!; try done. rewrite F; [done|]. set_solver.
    + intros j m a r q (m1 & Hm & Em)%Hb Hj. assert (input_edges m = input_edges m1) as E3.
      { destruct Em as [->|[-> ->]]; [done|]. rewrite Hn in Hm. by injection Hm as <-. }
      rewrite E3 in Hj. destruct (Hi j m1 a r q Hm Hj) as (n2 & Hn2 & H1). destruct (Hfw a n2 Hn2) as (n' & Hn' & _ & _ & F4 & _). exists n'. by rewrite F4.
  - intros j Hj. destruct (ci_live j Hj) as [m Hm]. destruct (Hfw j m Hm) as (m' & Hm' & _). by exists m'.
  - intros j Hj n1 a m r q x Hn1 Hp (m1 & Hm & Em)%Hb Hr Hq. destruct (Hb j n1 Hn1) as (n2 & Hn2 & En).
    assert (output_edges n1 = output_edges n2 /\ output_defs n1 = output_defs n2) as [E4 E2].
    { destruct En as [->|[-> ->]]; [done|]. rewrite Hn in Hn2. by injection Hn2 as <-. }
    rewrite E4. rewrite E2 in Hp. apply (ci_complete j Hj n2 a m1 r q x Hn2 Hp Hm Hr). destruct Em as [->|[-> ->]]; [done|]. rewrite Hn in Hm. injection Hm as <-.
    cbn in Hq. apply list_lookup_insert_Some in Hq as [(-> & <- & _)|[_ Hq]]; [|done]. by apply list_elem_of_lookup_2, (Hv j n2 Hj Hn2) in Hp.
  - intros j Hj. destruct (ci_removed j Hj) as (HC & n1 & Hn1 & E). split; [done|]. destruct (Hfw j n1 Hn1) as (n' & Hn' & _ & _ & F4 & _). exists n'. by rewrite F4.
  - unfold graph_size in *. cbn. by rewrite length_alter.
  - intros j m (m1 & Hm & Em)%Hb. assert (output_edges m = output_edges m1) as ->; [|by eapply ci_few].
    destruct Em as [->|[-> ->]]; [done|]. rewrite Hn in Hm. by injection Hm as <-.
Qed.

(** A node without edges that reads nothing made by a node of [C]. *)
Lemma cinv_node C k t n : cinv C (S k) t -> input_edges n = ∅ -> output_edges n = ∅ -> (forall x, x ∈ input_defs n -> not_made C t x) -> cinv C k (t_node n t).
Proof.
  intros Hc Ei Eo Hx. pose proof (graph_node_new (graph_ t)) as Hnew.
  assert (forall j m', graph_node (graph_ (t_node n t)) j = Some m' -> graph_node (graph_ t) j = Some m' \/ m' = n) as Hb.
  { intros j m'. rewrite t_node_node. case_decide; [intros [= <-]; by right|by left]. }
  assert (forall j m, graph_node (graph_ t) j = Some m -> graph_node (graph_ (t_node n t)) j = Some m) as Hfw.
  { intros j m Hm. rewrite t_node_node, decide_False; [done|]. intros ->. by rewrite Hnew in Hm. }
  destruct Hc. split; try done.
  - destruct ci_edges as [Ho Hi]. split.
    + intros a m j p q [Hm| ->]%Hb Hj; [|set_solver]. destruct (Ho a m j p q Hm Hj) as (m2 & x & Hm2 & ?). exists m2, x. auto.
    + intros j m a p q [Hm| ->]%Hb Hj; [|set_solver]. destruct (Hi j m a p q Hm Hj) as (m2 & Hm2 & ?). exists m2. auto.
  - intros j Hj. destruct (ci_live j Hj) as [m Hm]. exists m. auto.
  - intros j Hj n1 a m p q x Hn1 Hp Hm Hr Hq. destruct (ci_live j Hj) as [n2 Hn2]. pose proof (Hfw j n2 Hn2) as E. rewrite Hn1 in E. injection E as ->.
    apply Hb in Hm as [Hm| ->]; [by apply (ci_complete j Hj n2 a m p q x)|]. apply list_elem_of_lookup_2 in Hp, Hq. by destruct (Hx x Hq j n2 Hj Hn2).
  - intros j Hj. destruct (ci_removed j Hj) as (HC & n1 & Hn1 & E). split; [done|]. exists n1. auto.
  - unfold graph_size in *. cbn. rewrite length_app. simpl. lia.
  - intros j m [Hm| ->]%Hb; [by eapply ci_few|]. by rewrite Eo, size_empty.
Qed.

Lemma size_add_le (x : string) (S : gset string) : (size ({[ x ]} ∪ S) <= 1 + size S)%nat.
Proof.
  rewrite size_union_alt, size_singleton. pose proof (subseteq_size (S ∖ {[ x ]}) S ltac:(set_solver)). lia.
Qed.

Lemma size_insert_le {A} (x : string) (v : A) (m : gmap string A) : (size (<[x := v]> m) <= 1 + size m)%nat.
Proof. rewrite map_size_insert. destruct (m !! x); simpl; lia. Qed.

Lemma edges_ok_nodes g g' : nodes_ g' = nodes_ g -> edges_ok g -> edges_ok g'.
Proof. intros E [Ho Hi]. split; unfold graph_node in *; rewrite E; [apply Ho|apply Hi]. Qed.

Lemma cinv_gen_arg C k t name gen : cinv C (S k) t -> in_s 32 gen -> cinv C k (t_gen_arg name gen t).
Proof.
  intros [] Hg. split; try done; [by apply (edges_ok_nodes (graph_ t))|]. unfold graph_size in *. cbn. pose proof (size_add_le name (generated_node_arg_names_ (graph_ t))). lia.
Qed.

Lemma cinv_gen_node C k t name gen : cinv C (S k) t -> in_s 32 gen -> cinv C k (t_gen_node name gen t).
Proof.
  intros [] Hg. split; try done; [by apply (edges_ok_nodes (graph_ t))|]. unfold graph_size in *. cbn. pose proof (size_add_le name (generated_node_names_ (graph_ t))). lia.
Qed.

Lemma cinv_arg C k t name ty : cinv C (S k) t -> name ∉ dom (node_args_ (graph_ t)) -> cinv C k (t_arg name ty t).
Proof.
  intros [] Hn. split; try done.
  - by apply (edges_ok_nodes (graph_ t)).
  - intros w Hw. cbn in *. rewrite dom_insert. apply elem_of_union_r. by apply ci_init.
  - cbn. rewrite dom_insert. set_solver.
  - intros x s Hx Hs. apply ci_shapes; [done|]. unfold arg_Shape, TypeAsProto in *. cbn in Hs. rewrite lookup_insert_ne in Hs; [done|]. set_solver.
  - unfold graph_size in *. cbn. pose proof (size_insert_le name ty (node_args_ (graph_ t))). lia.
Qed.

Lemma cinv_ents C k k' t E : cinv C k t -> (3 * size E + k' <= 3 * size (nhwc_args_ t) + k)%nat -> cinv C k' (t_ents E t).
Proof. intros [] HE. split; try done. unfold graph_size in *. cbn. lia. Qed.

Lemma cinv_tail C k t i : cinv (i :: C) k t -> cinv C k t.
Proof.
  intros []. split; try done.
  - intros j Hj. apply ci_live. by right.
  - intros j Hj. apply ci_complete. by right.
  - intros j Hj. destruct (ci_removed j Hj) as [HC ?]. split; [|done]. intros ?. apply HC. by right.
Qed.

Lemma cinv_remove C k t i n : cinv C k t -> i ∉ C -> graph_node (graph_ t) i = Some n -> output_edges n = ∅ ->
  cinv C k (t <| removed_nodes_ := i :: removed_nodes_ t |>).
Proof.
  intros [] Hi Hn He. split; try done.
  - intros j Hj n1 a m p q x Hn1 Hp Hm Hr Hq. eapply ci_complete; eauto. cbn in Hr. set_solver.
  - intros j [->|Hj]%elem_of_cons; [|by apply ci_removed]. split; [done|]. by exists n.
Qed.

Lemma cinv_set_out C k t i n p v : cinv C k t -> i ∉ C -> graph_node (graph_ t) i = Some n -> (forall j q, (j, p, q) ∉ output_edges n) ->
  cinv C k (t_upd i (fun n => n <| output_defs := <[p := v]> (output_defs n) |>) t).
Proof.
  intros Hc Hi Hn He. set (f := fun n => n <| output_defs := <[p := v]> (output_defs n) |>).
  assert (forall j m', graph_node (graph_ (t_upd i f t)) j = Some m' -> exists m, graph_node (graph_ t) j = Some m /\ input_defs m' = input_defs m /\
    input_edges m' = input_edges m /\ output_edges m' = output_edges m /\ (j <> i -> m' = m) /\ forall r, r <> p -> output_defs m' !! r = output_defs m !! r) as Hb.
  { intros j m'. rewrite t_upd_node. case_decide as E; [subst j|by exists m']. rewrite Hn. intros [= <-]. exists n. split_and!; try done.
    intros r Hr. cbn. by rewrite list_lookup_insert_ne. }
  assert (forall j m, graph_node (graph_ t) j = Some m -> exists m', graph_node (graph_ (t_upd i f t)) j = Some m' /\
    input_defs m' = input_defs m /\ input_edges m' = input_edges m /\ output_edges m' = output_edges m) as Hfw.
  { intros j m Hm. rewrite t_upd_node, Hm. case_decide; [by exists (f m)|by exists m]. }
  destruct Hc. split; try done.
  - destruct ci_edges as [Ho Hi']. split.
    + intros a m j r q Hm' Hj. destruct (Hb a m Hm') as (m1 & Hm & _ & _ & E4 & _ & Er). rewrite E4 in Hj.
      destruct (Ho a m1 j r q Hm Hj) as (m2 & x & Hm2 & H1 & H2 & H3). destruct (Hfw j m2 Hm2) as (m' & Hm2' & F1 & F3 & _). exists m', x.
      rewrite F3, F1. split_and!; try done. destruct (decide (r = p)) as [->|Hr]; [|by rewrite Er].
      destruct (decide (a = i)) as [->|Ha]; [|destruct (Hb a m Hm') as (m3 & Hm3 & _ & _ & _ & Eq & _); rewrite Eq by done; congruence].
      rewrite Hn in Hm. injection Hm as <-. by destruct (He j q).
    + intros j m a r q (m1 & Hm & _ & E3 & _)%Hb Hj. rewrite E3 in Hj. destruct (Hi' j m1 a r q Hm Hj) as (n2 & Hn2 & H1).
      destruct (Hfw a n2 Hn2) as (n' & Hn' & _ & _ & F4). exists n'. by rewrite F4.
  - intros j Hj. destruct (ci_live j Hj) as [m Hm]. destruct (Hfw j m Hm) as (m' & Hm' & _). by exists m'.
  - intros j Hj n1 a m r q x (n2 & Hn2 & _ & _ & _ & Eq & _)%Hb Hp (m1 & Hm & F1 & _)%Hb Hr Hq. rewrite Eq in * by (intros ->; done). rewrite F1 in Hq.
    by apply (ci_complete j Hj n2 a m1 r q x).
  - intros j Hj. destruct (ci_removed j Hj) as (HC & n1 & Hn1 & E). split; [done|]. destruct (Hfw j n1 Hn1) as (n' & Hn' & _ & _ & F4). exists n'. by rewrite F4.
  - unfold graph_size in *. cbn. by rewrite length_alter.
  - intros j m (m1 & Hm & _ & _ & E4 & _)%Hb. rewrite E4. by eapply ci_few.
Qed.
End cinv.
