(* ===== verification/TransformerEdges.v ===== *)
(** * TransformerEdges: taking the edges off an output and giving it an NHWC variant *)

From stdpp Require Import strings pretty.
From S2P Require Import Prelude Effects Tensor Graph GraphSpec NhwcTransformer LayoutGraph LayoutSteps LayoutInvariant LayoutConvert TransformerState TransformerOps.

(** ** Edges *)

(** Node [j] without the edges of node [i] that are in [D]. *)
Definition drop (i : nat) (D : gset EdgeEnd) (j : nat) (m : Node) : Node :=
  {| node_Name := node_Name m; op_type_ := op_type_ m; input_defs := input_defs m; output_defs := output_defs m;
     implicit_input_defs := implicit_input_defs m; attributes_ := attributes_ m; execution_provider_type_ := execution_provider_type_ m;
     input_edges := filter (fun e : EdgeEnd => ~ (e.1.1 = i /\ (j, e.1.2, e.2) ∈ D)) (input_edges m);
     output_edges := if decide (j = i) then output_edges m ∖ D else output_edges m |}.

Definition drop_edges (i : nat) (D : gset EdgeEnd) (g : Graph) : Graph := g <| nodes_ := imap (fun j => option_map (drop i D j)) (nodes_ g) |>.

Lemma drop_edges_node i D g j : graph_node (drop_edges i D g) j = drop i D j <$> graph_node g j.
Proof. unfold graph_node, drop_edges. cbn. rewrite list_lookup_imap. by destruct (nodes_ g !! j) as [[m|]|]. Qed.

Lemma filter_all {A} `{Countable A} (P : A -> Prop) `{!forall x, Decision (P x)} (X : gset A) : (forall x, x ∈ X -> P x) -> filter P X = X.
Proof. intros HP. apply set_eq. intros x. rewrite elem_of_filter. naive_solver. Qed.

Lemma drop_two i D D' j m : drop i D j (drop i D' j m) = drop i (D' ∪ D) j m.
Proof.
  unfold drop. cbn. f_equal.
  - apply set_eq. intros e. rewrite !elem_of_filter, elem_of_union. tauto.
  - case_decide; [|done]. set_solver.
Qed.

Lemma drop_edges_two i D D' g : drop_edges i D (drop_edges i D' g) = drop_edges i (D' ∪ D) g.
Proof.
  unfold drop_edges, set_field. cbn. f_equal. apply list_eq. intros j. rewrite !list_lookup_imap. destruct (nodes_ g !! j) as [[m|]|]; [|done..]. simpl. by rewrite drop_two.
Qed.

Lemma drop_none i D j m : (forall p q, (i, p, q) ∈ input_edges m -> (j, p, q) ∉ D) -> (j = i -> forall e, e ∈ output_edges m -> e ∉ D) -> drop i D j m = m.
Proof.
  intros Hi Ho. unfold drop. rewrite filter_all.
  - case_decide as E; [rewrite (difference_disjoint_L _ D) by (intros e; specialize (Ho E e); set_solver)|]; by destruct m.
  - intros [[a p] q] He [Ha HD]. simpl in *. subst a. by eapply Hi.
Qed.

Lemma wp_RemoveEdge i j p q n m x Q g : graph_node g i = Some n -> graph_node g j = Some m -> output_defs n !! p = Some x -> input_defs m !! q = Some x ->
  Q tt (drop_edges i {[ (j, p, q) ]} g) -> wp (RemoveEdge i j p q) Q g.
Proof.
  intros Hn Hm Hp Hq HQ. unfold RemoveEdge. apply wp_bind, wp_gets, wp_bind. unfold id. rewrite Hn. apply wp_ret, wp_bind. rewrite Hm. apply wp_ret, wp_bind.
  rewrite Hp. apply wp_ret, wp_bind. rewrite bool_decide_true by (by apply lookup_lt_Some in Hq). rewrite Hq. apply wp_ret, wp_bind, wp_check; [by apply bool_decide_true|].
  apply wp_bind, wp_modify, wp_modify. refine (eq_ind _ (Q tt) HQ _ _). unfold drop_edges, set_field. cbn. f_equal. apply list_eq. intros k. rewrite list_lookup_imap.
  assert (forall (X : gset EdgeEnd), filter (fun e : EdgeEnd => ~ (e.1.1 = i /\ (j, e.1.2, e.2) ∈ ({[ (j, p, q) ]} : gset EdgeEnd))) X = X ∖ {[ (i, p, q) ]}) as Hin.
  { intros X. apply set_eq. intros [[a r] s]. rewrite elem_of_filter, elem_of_difference, !elem_of_singleton. simpl. naive_solver. }
  destruct (decide (k = i)) as [->|Hki]; [rewrite list_lookup_alter_eq|rewrite list_lookup_alter_ne by done].
  - destruct (decide (j = i)) as [->|Hji]; [rewrite list_lookup_alter_eq|rewrite list_lookup_alter_ne by done];
      destruct (nodes_ g !! i) as [[a|]|]; simpl; try done; do 2 f_equal; unfold drop; rewrite decide_True by done.
    + by rewrite Hin.
    + rewrite filter_all; [done|]. intros [[b r] s] _. simpl. rewrite elem_of_singleton. naive_solver.
  - destruct (decide (k = j)) as [->|Hkj]; [rewrite list_lookup_alter_eq|rewrite list_lookup_alter_ne by done];
      destruct (nodes_ g !! _) as [[a|]|]; simpl; try done; do 2 f_equal; unfold drop; rewrite decide_False by done.
    + by rewrite Hin.
    + rewrite filter_all; [by destruct a|]. intros [[b r] s] _. simpl. rewrite elem_of_singleton. naive_solver.
Qed.

Lemma wp_RemoveGraphEdges i (L : list EdgeEnd) Q g :
  (forall j p q, (j, p, q) ∈ L -> exists n m x, graph_node g i = Some n /\ graph_node g j = Some m /\ output_defs n !! p = Some x /\ input_defs m !! q = Some x) ->
  Q tt (drop_edges i (list_to_set L) g) -> wp (for_list (fun e : EdgeEnd => RemoveEdge i e.1.1 e.1.2 e.2) L) Q g.
Proof.
  revert g. induction L as [|[[j p] q] L IH]; intros g HL HQ; simpl.
  - apply wp_ret. refine (eq_ind _ (Q tt) HQ _ _). unfold drop_edges, set_field. destruct g. cbn. f_equal. apply list_eq. intros k. rewrite list_lookup_imap.
    destruct (nodes_ !! k) as [[m|]|]; [|done..]. simpl. f_equal. f_equal. apply drop_none; set_solver.
  - destruct (HL j p q) as (n & m & x & Hn & Hm & Hp & Hq); [by left|]. apply wp_bind, (wp_RemoveEdge i j p q n m x); [done..|]. apply IH.
    + intros j' p' q' Hin. destruct (HL j' p' q') as (n' & m' & x' & Hn' & Hm' & Hp' & Hq'); [by right|].
      exists (drop i {[ (j, p, q) ]} i n'), (drop i {[ (j, p, q) ]} j' m'), x'. by rewrite !drop_edges_node, Hn', Hm'.
    + by rewrite drop_edges_two.
Qed.

Definition t_drop (i : nat) (D : gset EdgeEnd) (t : Transformer) : Transformer := t <| graph_ := drop_edges i D (graph_ t) |>.

Lemma view_drop X i D t : view X (t_drop i D t) = view X t.
Proof.
  apply lstate_eq; try done. apply view_nodes_ext. intros j _. cbn. rewrite drop_edges_node. by destruct (graph_node (graph_ t) j).
Qed.

Lemma edges_ok_drop i D g : edges_ok g -> edges_ok (drop_edges i D g).
Proof.
  intros [Ho Hin]. assert (forall j m', graph_node (drop_edges i D g) j = Some m' -> exists m, graph_node g j = Some m /\ m' = drop i D j m) as Hb.
  { intros j m'. rewrite drop_edges_node. destruct (graph_node g j) as [m|]; [|done]. intros [= <-]. by exists m. }
  split.
  - intros a n j p q (n1 & Hn & ->)%Hb Hj. assert ((j, p, q) ∈ output_edges n1 /\ (a = i -> (j, p, q) ∉ D)) as [Hj' HD] by (cbn in Hj; case_decide; set_solver).
    destruct (Ho a n1 j p q Hn Hj') as (m & x & Hm & H1 & H2 & H3). exists (drop i D j m), x. split_and!; [by rewrite drop_edges_node, Hm| |done..]. cbn. apply elem_of_filter.
    split; [|done]. simpl. naive_solver.
  - intros j m a p q (m1 & Hm & ->)%Hb Hj. cbn in Hj. apply elem_of_filter in Hj as [Hj1 Hj]. simpl in Hj1. destruct (Hin j m1 a p q Hm Hj) as (n & Hn & H1).
    exists (drop i D a n). split; [by rewrite drop_edges_node, Hn|]. cbn. case_decide; [|done]. apply elem_of_difference. naive_solver.
Qed.

Lemma cinv_drop g0 pre C k t i D : cinv g0 pre C k t -> i ∉ C -> cinv g0 pre C k (t_drop i D t).
Proof.
  intros [] Hi. assert (forall j m', graph_node (graph_ (t_drop i D t)) j = Some m' -> exists m, graph_node (graph_ t) j = Some m /\ m' = drop i D j m) as Hb.
  { intros j m'. cbn. rewrite drop_edges_node. destruct (graph_node (graph_ t) j) as [m|]; [|done]. intros [= <-]. by exists m. }
  assert (forall j m, graph_node (graph_ t) j = Some m -> graph_node (graph_ (t_drop i D t)) j = Some (drop i D j m)) as Hfw.
  { intros j m Hm. cbn. by rewrite drop_edges_node, Hm. }
  split; try done.
  - by apply edges_ok_drop.
  - intros j Hj. destruct (ci_live j Hj) as [m Hm]. eexists. by apply Hfw.
  - intros j Hj n a m p q x (n1 & Hn & ->)%Hb Hp (m1 & Hm & ->)%Hb Hr Hq. cbn in *. rewrite decide_False by (intros ->; done). by apply (ci_complete j Hj n1 a m1 p q x).
  - intros j Hj. destruct (ci_removed j Hj) as (HC & n & Hn & E). split; [done|]. exists (drop i D j n). split; [by apply Hfw|]. cbn. rewrite E. case_decide; set_solver.
  - unfold graph_size in *. cbn. by rewrite length_imap.
  - intros j m (m1 & Hm & ->)%Hb. pose proof (ci_few j m1 Hm). cbn. case_decide; [|done].
    pose proof (subseteq_size (output_edges m1 ∖ D) (output_edges m1) ltac:(clear; set_solver)). lia.
Qed.

(** ** An output *)

(** The edges of output [p]. *)
Definition slot_edges (p : nat) (n : Node) : gset EdgeEnd := filter (fun e : EdgeEnd => e.1.2 = p) (output_edges n).

Lemma wp_RemoveNodeOutputEdges i p n x Q g : edges_ok g -> graph_node g i = Some n -> output_defs n !! p = Some x ->
  Q (size (slot_edges p n)) (drop_edges i (slot_edges p n) g) -> wp (RemoveNodeOutputEdges i p) Q g.
Proof.
  intros He Hn Hp HQ. unfold RemoveNodeOutputEdges. apply wp_bind, (wp_GetNode i n); [done|]. unfold GetNodeOutputEdges. apply wp_bind, wp_bind, wp_check.
  { apply bool_decide_true. right. by apply lookup_lt_Some in Hp. }
  apply wp_ret, wp_bind. set (L := filter (fun e : EdgeEnd => e.1.2 = p) (elements (output_edges n))).
  assert (list_to_set L = slot_edges p n) as EL.
  { apply set_eq. intros e. unfold slot_edges, L. rewrite elem_of_list_to_set, list_elem_of_filter, elem_of_elements, elem_of_filter. done. }
  assert (length L = size (slot_edges p n)) as Elen.
  { rewrite <- EL. symmetry. apply size_list_to_set. apply NoDup_filter, NoDup_elements. }
  apply wp_RemoveGraphEdges.
  - intros j r q [Hr Hin]%list_elem_of_filter. simpl in Hr. subst r. apply elem_of_elements in Hin. destruct (eo_out g He i n j p q Hn Hin) as (m & y & Hm & _ & Hy & Hq).
    by exists n, m, y.
  - apply wp_ret. by rewrite EL, Elen.
Qed.

Lemma outputs_in_graph g n p x : output_defs n !! p = Some x -> p ∈ GetNodeOutputsInGraphOutputs g n <-> x ∈ graph_outputs_ g.
Proof.
  intros Hp. unfold GetNodeOutputsInGraphOutputs. rewrite list_elem_of_In, filter_In, Hp, bool_decide_eq_true, <- list_elem_of_In, elem_of_seq.
  apply lookup_lt_Some in Hp. split; [tauto|]. intros Hx. split; [lia|done].
Qed.

Lemma wp_RemoveOutputEdges i p n x Q t : edges_ok (graph_ t) -> graph_node (graph_ t) i = Some n -> output_defs n !! p = Some x ->
  Q (Z.of_nat (size (slot_edges p n)) + output_use (graph_outputs_ (graph_ t)) x) (t_drop i (slot_edges p n) t) -> wp (on_graph (RemoveOutputEdges i p)) Q t.
Proof.
  intros He Hn Hp HQ. apply wp_on_graph. unfold RemoveOutputEdges. apply wp_bind, (wp_RemoveNodeOutputEdges i p n x); [done..|].
  apply wp_bind, (wp_GetNode i (drop i (slot_edges p n) i n)); [by rewrite drop_edges_node, Hn|]. apply wp_bind, wp_gets, wp_ret. unfold id.
  refine (eq_ind _ (fun z => Q z _) HQ _ _). unfold output_use.
  rewrite (bool_decide_ext _ _ (outputs_in_graph (drop_edges i (slot_edges p n) (graph_ t)) (drop i (slot_edges p n) i n) p x Hp)). done.
Qed.

Definition set_out (p : nat) (v : string) (n : Node) : Node := n <| output_defs := <[p := v]> (output_defs n) |>.

(** The state after one output has got its variant. *)
Definition t_create (i i' p : nat) (D : gset EdgeEnd) (x o : string) (u gen : Z) (t : Transformer) : Transformer :=
  t_upd i' (set_out p o) (t_ents (<[x := make_NhwcArgument i' o u]> (nhwc_args_ t)) (t_arg o None (t_gen_arg o gen (t_drop i D t)))).

Lemma wp_create_output g0 pre C k i i' p n n' x base Q t : cinv g0 pre C k t -> graph_node (graph_ t) i = Some n -> graph_node (graph_ t) i' = Some n' ->
  output_defs n !! p = Some x -> output_defs n' !! p = Some x ->
  (forall o gen, o ∉ dom (node_args_ (graph_ t)) -> in_s 32 gen ->
    Q tt (t_create i i' p (slot_edges p n) x o (Z.of_nat (size (slot_edges p n)) + output_use (graph_outputs_ (graph_ t)) x) gen t)) ->
  wp (create_output i i' base p) Q t.
Proof.
  intros Hc Hn Hn' Hp Hp' HQ. unfold create_output. apply wp_bind, (wp_RemoveOutputEdges i p n x); [apply (ci_edges _ _ _ _ _ Hc)|done..|].
  apply wp_bind, wp_on_graph, (wp_GetNode i' (drop i (slot_edges p n) i' n')); [cbn; by rewrite drop_edges_node, Hn'|]. apply wp_bind. cbn [drop output_defs]. rewrite Hp'.
  apply wp_ret, wp_bind, wp_on_graph, wp_GenerateNodeArgName.
  { destruct (cinv_bounded _ _ _ _ _ Hc) as (? & ? & ?). split_and!; [done..|]. cbn. by rewrite length_imap. }
  intros o gen Ho _ Hgen. apply wp_bind, wp_on_graph. unfold GetOrCreateNodeArg. apply wp_bind, wp_gets. cbn. change (o ∉ dom (node_args_ (graph_ t))) in Ho. rewrite (proj1 (not_elem_of_dom _ _) Ho).
  apply wp_bind, wp_modify, wp_ret, wp_bind, wp_modify, wp_on_graph, wp_modify. by apply (HQ o gen).
Qed.

Lemma t_create_node i i' p D x o u gen t j : graph_node (graph_ (t_create i i' p D x o u gen t)) j =
  if decide (j = i') then set_out p o <$> (drop i D j <$> graph_node (graph_ t) j) else drop i D j <$> graph_node (graph_ t) j.
Proof.
  unfold t_create. rewrite t_upd_node. change (graph_node (graph_ (t_ents _ _)) j) with (graph_node (drop_edges i D (graph_ t)) j). by rewrite drop_edges_node.
Qed.

Lemma cinv_create g0 pre C k i i' p n n' x o u gen t : cinv g0 pre C (5 + k) t -> i ∉ C -> i' ∉ C -> graph_node (graph_ t) i = Some n -> graph_node (graph_ t) i' = Some n' ->
  i' = i \/ output_edges n' = ∅ -> o ∉ dom (node_args_ (graph_ t)) -> in_s 32 gen -> cinv g0 pre C k (t_create i i' p (slot_edges p n) x o u gen t).
Proof.
  intros Hc Hi Hi' Hn Hn' He Ho Hg. set (D := slot_edges p n). unfold t_create. apply (cinv_set_out g0 pre C k _ i' (drop i D i' n')).
  - apply (cinv_ents g0 pre C (3 + k)).
    + apply cinv_arg; [|done]. apply cinv_gen_arg; [|done]. by apply cinv_drop.
    + change (nhwc_args_ (t_arg _ _ _)) with (nhwc_args_ t). pose proof (size_insert_le x (make_NhwcArgument i' o u) (nhwc_args_ t)). lia.
  - done.
  - change (graph_node (graph_ (t_ents _ _)) i') with (graph_node (drop_edges i D (graph_ t)) i'). by rewrite drop_edges_node, Hn'.
  - intros j q. cbn. case_decide as E.
    + assert (n' = n) as -> by congruence. unfold D, slot_edges. rewrite elem_of_difference, elem_of_filter. simpl. tauto.
    + destruct He as [He| ->]; [done|]. set_solver.
Qed.

Lemma view_create X i i' p D x o u gen t : i' ∉ X ++ removed_nodes_ t ->
  view X (t_create i i' p D x o u gen t) = v_alter i' (fun n => with_outs n (<[p := o]> (nd_outs n))) (v_ents (<[x := make_NhwcArgument i' o u]> (nhwc_args_ t)) (v_name o (view X t))).
Proof.
  intros Hi. unfold t_create. rewrite (view_upd X i' _ (fun n => with_outs n (<[p := o]> (nd_outs n)))); [|done..]. f_equal.
  rewrite view_ents. f_equal. rewrite view_arg. f_equal. change (view X (t_gen_arg o gen (t_drop i D t))) with (view X (t_drop i D t)). apply view_drop.
Qed.

(** The view after the outputs from [s] on have got their variants. *)
Definition v_create (i : nat) (s : nat) (l : created) (a : lstate) : lstate := {|
  ls_nodes := alter (fun n => with_outs n (take s (nd_outs n) ++ new_outs l)) i (ls_nodes a); ls_ents := create_ents i l (ls_ents a); ls_reord := ls_reord a;
  ls_filt := ls_filt a; ls_cons := ls_cons a; ls_names := list_to_set (new_outs l) ∪ ls_names a |}.

Lemma v_create_nil i s a n : ls_nodes a !! i = Some n -> length (nd_outs n) = s -> v_create i s [] a = a.
Proof.
  intros Hn Hs. apply lstate_eq; try done; cbn.
  - apply map_eq. intros j. destruct (decide (j = i)) as [->|Hj]; [|by rewrite lookup_alter_ne]. rewrite lookup_alter_eq, Hn. simpl. f_equal.
    unfold with_outs. rewrite app_nil_r, take_ge by lia. by destruct n.
  - set_solver.
Qed.

Lemma v_create_cons i s x o u l a n : ls_nodes a !! i = Some n -> (s < length (nd_outs n))%nat ->
  v_create i (S s) l (v_alter i (fun n => with_outs n (<[s := o]> (nd_outs n))) (v_ents (<[x := make_NhwcArgument i o u]> (ls_ents a)) (v_name o a))) =
  v_create i s ((x, (o, u)) :: l) a.
Proof.
  intros Hn Hs. apply lstate_eq; try done; cbn.
  - apply map_eq. intros j. destruct (decide (j = i)) as [->|Hj]; [|by rewrite !lookup_alter_ne]. rewrite !lookup_alter_eq, Hn. simpl. f_equal.
    unfold with_outs. cbn. f_equal. rewrite (take_S_r _ s o) by (by rewrite list_lookup_insert_eq). rewrite take_insert_ge by lia. by rewrite <- app_assoc.
  - set_solver.
Qed.

Section loop.
Context (g0 : Graph) (pre : bool) (C : list nat) (i i' : nat) (base : string) (X : list nat).
Context (Hi : i ∉ C) (Hi' : i' ∉ C).

(** What the loop over the outputs from [s] on leaves. *)
Definition created_from (s k : nat) (n : Node) (l : created) (t t' : Transformer) : Prop :=
  NoDup (new_outs l) /\ (forall o, o ∈ new_outs l -> o ∉ dom (node_args_ (graph_ t))) /\
  (forall q x o u, l !! q = Some (x, (o, u)) -> u = Z.of_nat (size (slot_edges (s + q) n)) + output_use (graph_outputs_ (graph_ t)) x) /\
  cinv g0 pre C k t' /\ view X t' = v_create i' s l (view X t) /\ removed_nodes_ t' = removed_nodes_ t /\
  exists n2, graph_node (graph_ t') i = Some n2 /\ output_edges n2 = ∅.

Lemma slot_edges_later s p n n1 : output_edges n1 = output_edges n ∖ slot_edges s n -> p <> s -> slot_edges p n1 = slot_edges p n.
Proof. intros E Hp. unfold slot_edges in *. rewrite E. apply set_eq. intros e. rewrite !elem_of_filter, elem_of_difference, elem_of_filter. naive_solver. Qed.

Lemma wp_create_loop m : forall s k t n n' Q, cinv g0 pre C (5 * m + k) t -> i' ∉ X ++ removed_nodes_ t ->
  graph_node (graph_ t) i = Some n -> graph_node (graph_ t) i' = Some n' -> i' = i \/ output_edges n' = ∅ ->
  length (output_defs n') = (s + m)%nat -> (forall p, (s <= p)%nat -> output_defs n !! p = output_defs n' !! p) -> (forall e, e ∈ output_edges n -> (s <= e.1.2)%nat) ->
  (forall l t', old_outs l = skipn s (output_defs n') -> created_from s k n l t t' -> Q tt t') ->
  wp (for_list (create_output i i' base) (seq s m)) Q t.
Proof using Hi Hi'.
  induction m as [|m IH]; intros s k t n n' Q Hc HX Hn Hn' He Hlen Hsame Hlow HQ; simpl.
  - apply wp_ret. apply (HQ [] t); [cbn; by rewrite skipn_all2 by lia|]. split_and!; [by apply NoDup_nil|by intros o ?%not_elem_of_nil|done|done| |done|].
    + symmetry. apply (v_create_nil _ _ _ (ndef_of n')); [|cbn; lia]. apply view_lookup. rewrite elem_of_app in HX. split; [tauto|]. split; [tauto|]. by exists n'.
    + exists n. split; [done|]. apply set_eq. intros [[j p] q]. split; [|set_solver]. intros Hin. exfalso.
      destruct (eo_out _ (ci_edges _ _ _ _ _ Hc) i n j p q Hn Hin) as (_ & x & _ & _ & Hx & _). pose proof (Hlow _ Hin) as Hp. simpl in Hp.
      rewrite Hsame in Hx by done. apply lookup_lt_Some in Hx. lia.
  - destruct (output_defs n' !! s) as [x|] eqn:Hx; [|apply lookup_ge_None in Hx; lia].
    assert (output_defs n !! s = Some x) as Hx' by (by rewrite Hsame). apply wp_bind, (wp_create_output g0 pre C (5 * S m + k) i i' s n n' x); [done..|].
    intros o gen Ho Hgen. set (u := Z.of_nat _ + _). set (t1 := t_create i i' s (slot_edges s n) x o u gen t). set (D := slot_edges s n) in *.
    assert (graph_node (graph_ t1) i = Some (if decide (i = i') then set_out s o (drop i D i n) else drop i D i n)) as Hn1
      by (unfold t1; rewrite t_create_node, Hn; by case_decide).
    assert (graph_node (graph_ t1) i' = Some (set_out s o (drop i D i' n'))) as Hn1' by (unfold t1; rewrite t_create_node, Hn'; by rewrite decide_True).
    assert (output_edges (if decide (i = i') then set_out s o (drop i D i n) else drop i D i n) = output_edges n ∖ D) as Hout.
    { case_decide; cbn; by rewrite decide_True. }
    assert (cinv g0 pre C (5 * m + k) t1) as Hc1.
    { apply (cinv_create g0 pre C (5 * m + k) i i' s n n'); [|done..]. apply (cinv_weaken _ _ _ (5 * S m + k)); [done|lia]. }
    eapply (IH (S s) k t1 _ _ _ Hc1 HX Hn1 Hn1').
    + destruct He as [->|He]; [by left|right]. cbn. rewrite He. destruct (decide (i' = i)); [|done]. clear. set_solver.
    + cbn. rewrite length_insert. lia.
    + intros p Hp. destruct (decide (i = i')); cbn; rewrite ?list_lookup_insert_ne by lia; apply Hsame; lia.
    + intros e Hin. rewrite Hout in Hin. apply elem_of_difference in Hin as [Hin Hni]. pose proof (Hlow e Hin). unfold D, slot_edges in Hni. rewrite elem_of_filter in Hni.
      destruct (decide (e.1.2 = s)); [tauto|lia].
    + intros l t' Hold (Hnd & Hfr & Hus & Hc' & Hv & Hrem & Hn2).
      assert (forall o', o' ∈ new_outs l -> o' <> o /\ (o' ∉ dom (node_args_ (graph_ t)))) as Hfr'.
      { intros o' Ho'. pose proof (Hfr o' Ho') as Hf. change (o' ∉ dom (<[o := None]> (node_args_ (graph_ t)))) in Hf. rewrite dom_insert in Hf. clear -Hf. set_solver. }
      apply (HQ ((x, (o, u)) :: l)).
      { cbn. rewrite (drop_S _ _ _ Hx). f_equal. fold (old_outs l). rewrite Hold. cbn. by rewrite drop_insert_lt by lia. }
      split_and!; [| | | done | | by rewrite Hrem | done].
      * apply NoDup_cons. split; [|done]. intros Ho'. by destruct (Hfr' o Ho').
      * intros o' [->|Ho']%elem_of_cons; [done|]. by apply Hfr'.
      * intros [|q] y o' u' Hq; [injection Hq as <- <- <-; by rewrite Nat.add_0_r|]. rewrite (Hus q y o' u' Hq). rewrite (slot_edges_later s _ n _ Hout) by lia.
        by rewrite Nat.add_succ_r.
      * rewrite Hv. unfold t1. rewrite view_create by done. apply (v_create_cons i' s x o u l (view X t) (ndef_of n')).
        -- apply view_lookup. rewrite elem_of_app in HX. split; [tauto|]. split; [tauto|]. by exists n'.
        -- cbn. lia.
Qed.
End loop.
