(* ===== verification/TransformerCalls.v ===== *)
(** * TransformerCalls: rules for the calls that the transformations share *)

From stdpp Require Import strings pretty.
From S2P Require Import Prelude Effects Tensor Graph GraphSpec NhwcTransformer LayoutGraph FilterSpec LayoutSteps LayoutInvariant LayoutConvert TransformerState TransformerOps TransformerEdges.

(** ** New nodes *)

Definition plain_node (name op : string) (ins outs : list string) (attrs : NodeAttributes) (provider : string) : Node := {|
  node_Name := name; op_type_ := op; input_defs := ins; output_defs := outs; implicit_input_defs := []; attributes_ := attrs;
  execution_provider_type_ := provider; input_edges := ∅; output_edges := ∅ |}.

Lemma wp_existing_args (l : list string) (Q : unit -> Graph -> Prop) g : (forall x, x ∈ l -> x ∈ dom (node_args_ g)) -> Q tt g ->
  wp (for_list (fun a => g ← gets id; GetOrCreateNodeArg a (TypeAsProto g a) ;; mret tt) l) Q g.
Proof.
  intros Hl HQ. induction l as [|x l IH]; simpl; [by apply wp_ret|]. apply wp_bind, wp_bind, wp_gets, wp_bind. unfold GetOrCreateNodeArg. apply wp_bind, wp_gets.
  unfold id. destruct (node_args_ g !! x) eqn:E; [|apply not_elem_of_dom in E; destruct E; apply Hl; by left].
  apply wp_ret, wp_ret, IH. intros y Hy. apply Hl. by right.
Qed.

Lemma wp_AddNode name op ins outs attrs (Q : nat -> Graph -> Prop) g : (forall x, x ∈ ins \/ x ∈ outs -> x ∈ dom (node_args_ g)) -> Z.of_nat (length (nodes_ g)) < 2 ^ 31 - 1 ->
  Q (length (nodes_ g)) ((g <| nodes_ := nodes_ g ++ [Some (plain_node name op ins outs attrs "")] |>) <| num_of_nodes_ := num_of_nodes_ g + 1 |>) ->
  wp (AddNode name op ins outs attrs) Q g.
Proof.
  intros Hargs Hlen HQ. unfold AddNode. apply wp_bind, wp_existing_args; [auto|]. apply wp_bind, wp_existing_args; [auto|]. unfold AllocateNode.
  apply wp_bind, wp_gets, wp_bind, wp_check; [unfold id; lia|]. apply wp_bind, wp_modify, wp_ret. exact HQ.
Qed.

(** A state with one node more, and a name for it. *)
Definition t_new (n : Node) (name : string) (gen : Z) (t : Transformer) : Transformer := t_node n (t_gen_node name gen t).

Section calls.
Context (g0 : Graph) (pre : bool).
Notation cinv := (cinv g0 pre).

Lemma cinv_new C k t n name gen : cinv C (2 + k) t -> in_s 32 gen -> input_edges n = ∅ -> output_edges n = ∅ -> (forall x, x ∈ input_defs n -> not_made C t x) ->
  cinv C k (t_new n name gen t).
Proof. intros Hc Hg Hi Ho Hx. apply cinv_node; [by apply cinv_gen_node|done..]. Qed.

Lemma wp_GenerateNodeName_t C k base (Q : string -> Transformer -> Prop) t : cinv C k t -> (forall name gen, in_s 32 gen -> Q name (t_gen_node name gen t)) ->
  wp (on_graph (GenerateNodeName base)) Q t.
Proof. intros Hc HQ. apply wp_on_graph, wp_GenerateNodeName; [by eapply cinv_bounded|]. exact HQ. Qed.

Lemma t_upd_last n n' f t : f n = n' -> t_upd (length (nodes_ (graph_ t))) f (t_node n t) = t_node n' t.
Proof.
  intros <-. unfold t_upd, t_node, set_field. cbn. do 2 f_equal. rewrite alter_app_r_alt by done. by rewrite Nat.sub_diag.
Qed.

(** The replacement of a node: the same inputs, outputs and attributes. *)
Lemma wp_add_replacement C k node (Q : nat -> Transformer -> Prop) t : cinv C (2 + k) t -> (forall x, x ∈ input_defs node \/ x ∈ output_defs node -> x ∈ dom (node_args_ (graph_ t))) ->
  (forall name gen, in_s 32 gen -> Q (length (nodes_ (graph_ t)))
    (t_new (plain_node name (op_type_ node +:+ "_nhwc") (input_defs node) (output_defs node) (attributes_ node) (execution_provider_type_ node)) name gen t)) ->
  wp (on_graph (add_replacement node)) Q t.
Proof.
  intros Hc Hargs HQ. apply wp_on_graph. unfold add_replacement. apply wp_bind, wp_GenerateNodeName; [by eapply cinv_bounded|]. intros name gen Hg.
  apply wp_bind, wp_AddNode; [done| |].
  { pose proof (ci_size _ _ _ _ _ Hc). unfold graph_size in *. cbn. lia. }
  apply wp_bind, wp_modify, wp_ret. cbn.
  set (n := plain_node name (op_type_ node +:+ "_nhwc") (input_defs node) (output_defs node) (attributes_ node) "").
  assert (t_upd (length (nodes_ (graph_ (t_gen_node name gen t)))) (fun n => n <| execution_provider_type_ := execution_provider_type_ node |>) (t_node n (t_gen_node name gen t)) =
    t_new (plain_node name (op_type_ node +:+ "_nhwc") (input_defs node) (output_defs node) (attributes_ node) (execution_provider_type_ node)) name gen t) as E by (by apply t_upd_last).
  pose proof (HQ name gen Hg) as HQ'. rewrite <- E in HQ'. exact HQ'.
Qed.

(** ** Inputs *)

Definition set_in (p : nat) (v : string) (n : Node) : Node := n <| input_defs := <[p := v]> (input_defs n) |>.

Lemma wp_set_input_def i p v (Q : unit -> Transformer -> Prop) t : Q tt (t_upd i (set_in p v) t) -> wp (on_graph (set_input_def i p v)) Q t.
Proof. intros HQ. apply wp_on_graph, wp_modify. exact HQ. Qed.

Definition transpose_node (name x b : string) : Node := plain_node name "Transpose" [x] [b] {[ "perm" := perm_attr [0; 2; 3; 1] ]} kCpuExecutionProvider.

(** The state after a transposition has been added. *)
Definition t_transpose (name x b : string) (gen gen' : Z) (t : Transformer) : Transformer :=
  t_new (transpose_node name x b) name gen' (t_arg b None (t_gen_arg b gen (t <| reorder_inputs_ := <[x := b]> (reorder_inputs_ t) |>))).

Lemma wp_InsertReorderInput C k i n x (Q : unit -> Transformer -> Prop) t : cinv C (4 + k) t -> graph_node (graph_ t) i = Some n -> input_defs n !! 0%nat = Some x ->
  x ∈ dom (node_args_ (graph_ t)) ->
  (forall b, reorder_inputs_ t !! x = Some b -> Q tt (t_upd i (set_in 0 b) t)) ->
  (forall name b gen gen', reorder_inputs_ t !! x = None -> b ∉ dom (node_args_ (graph_ t)) -> in_s 32 gen -> in_s 32 gen' ->
    Q tt (t_upd i (set_in 0 b) (t_transpose name x b gen gen' t))) ->
  wp (InsertReorderInput i) Q t.
Proof.
  intros Hc Hn Hx Hdom HQ1 HQ2. unfold InsertReorderInput. apply wp_bind, wp_on_graph, (wp_GetNode i n); [done|]. apply wp_bind. rewrite Hx. apply wp_ret, wp_bind, wp_gets.
  change (reorder_inputs_ (id _) !! x) with (reorder_inputs_ t !! x). destruct (reorder_inputs_ t !! x) as [b|] eqn:Eb; [by apply wp_set_input_def, HQ1|].
  apply wp_bind, wp_on_graph, wp_GenerateNodeArgName; [by eapply (cinv_bounded _ _ _ _ _ Hc)|]. intros b gen Hb _ Hgen. change (b ∉ dom (node_args_ (graph_ t))) in Hb.
  apply wp_bind, wp_on_graph. unfold GetOrCreateNodeArg. apply wp_bind, wp_gets. cbn. rewrite (proj1 (not_elem_of_dom _ _) Hb). apply wp_bind, wp_modify, wp_ret, wp_bind, wp_modify.
  set (t1 := t_arg b None (t_gen_arg b gen (t <| reorder_inputs_ := <[x := b]> (reorder_inputs_ t) |>))).
  assert (cinv C (2 + k) t1) as Hc1.
  { apply cinv_arg; [|done]. apply cinv_gen_arg; [|done]. destruct Hc. by split. }
  apply wp_bind. change (wp (on_graph (GenerateNodeName "ReorderToNHWC")) (fun a => wp (reorder ← on_graph (AddNode a "Transpose" [x] [b] ∅);
    on_graph (AddAttribute reorder "perm" (perm_attr [0; 2; 3; 1])) ;; on_graph (SetExecutionProviderType reorder kCpuExecutionProvider) ;; on_graph (set_input_def i 0 b)) Q) t1).
  apply (wp_GenerateNodeName_t C (2 + k)); [done|]. intros name gen' Hgen'. apply wp_bind, wp_on_graph, wp_AddNode.
  { intros y [->%list_elem_of_singleton| ->%list_elem_of_singleton]; change (dom (node_args_ (graph_ (t_gen_node name gen' t1)))) with (dom (<[b := None]> (node_args_ (graph_ t)))); rewrite dom_insert; set_solver. }
  { pose proof (ci_size _ _ _ _ _ Hc1). unfold graph_size in *. cbn in *. lia. }
  set (t2 := t_gen_node name gen' t1). apply wp_bind, wp_on_graph, wp_modify, wp_bind, wp_on_graph, wp_modify, wp_set_input_def.
  pose proof (HQ2 name b gen gen' eq_refl Hb Hgen Hgen') as HQ'. unfold t_transpose, t_new in HQ'. fold t1 t2 in HQ'.
  rewrite <- (t_upd_last (plain_node name "Transpose" [x] [b] {[ "perm" := perm_attr [0; 2; 3; 1] ]} "") _ (fun n => n <| execution_provider_type_ := kCpuExecutionProvider |>) t2) in HQ' by done.
  rewrite <- (t_upd_last (plain_node name "Transpose" [x] [b] ∅ "") _ (fun n => n <| attributes_ := <["perm" := perm_attr [0; 2; 3; 1]]> (attributes_ n) |>) t2) in HQ' by done.
  exact HQ'.
Qed.
End calls.
