(* ===== verification/TransformerStep.v ===== *)
(** * TransformerStep: what one step of the layout transformation starts from and leaves

    Well-formed graphs, the invariant of the loop over the nodes, and the end that all
    conversions share, [CreateNhwcArgument]. *)

From stdpp Require Import strings pretty.
From S2P Require Import Prelude Effects Tensor Graph GraphSpec NhwcTransformer LayoutGraph FilterSpec LayoutSteps LayoutInvariant LayoutConvert TransformerState TransformerOps TransformerEdges TransformerCalls.

(** ** Well-formed graphs *)

(** Nodes that an operator makes read nothing that a later node of the order makes. *)
Fixpoint topo (g : Graph) (order : list nat) : Prop :=
  match order with
  | [] => True
  | i :: later => (forall n j m x, graph_node g i = Some n -> j ∈ i :: later -> graph_node g j = Some m -> x ∈ input_defs n -> x ∉ output_defs m) /\ topo g later
  end.

(** The numbers of operands of the operators, and convolutions that do not pool yet. *)
Definition op_wf (n : ndef) : Prop :=
  (forall op wi, conv_kind op wi -> nd_op n = op -> (wi < length (nd_ins n))%nat /\ length (nd_outs n) = 1%nat /\ nd_attrs n !! "maxpool" = None) /\
  (relu_kind (nd_op n) -> (0 < length (nd_ins n))%nat /\ (0 < length (nd_outs n))%nat) /\
  (nd_op n = "QLinearAdd" -> (3 < length (nd_ins n))%nat /\ (0 < length (nd_outs n))%nat) /\
  (nd_op n = "MaxPool" -> length (nd_ins n) = 1%nat /\ length (nd_outs n) = 1%nat).

(** Outputs of pooling nodes. *)
Definition pool_output (g : Graph) (x : string) : Prop := exists i n, graph_node g i = Some n /\ op_type_ n = "MaxPool" /\ x ∈ output_defs n.

(** How much the graph can grow. *)
Fixpoint budget (g : Graph) (order : list nat) : nat :=
  match order with
  | [] => 0
  | i :: later => 8 + 5 * match graph_node g i with Some n => length (output_defs n) | None => 0 end + budget g later
  end.

Record graph_wf (g : Graph) (pre : bool) (order : list nat) : Prop := {
  wf_edges : edges_ok g;
  wf_complete i n j m p q x : graph_node g i = Some n -> graph_node g j = Some m -> output_defs n !! p = Some x -> input_defs m !! q = Some x -> (j, p, q) ∈ output_edges n;
  wf_few i n : graph_node g i = Some n -> Z.of_nat (size (output_edges n)) < 2 ^ 63;
  wf_args i n x : graph_node g i = Some n -> x ∈ input_defs n \/ x ∈ output_defs n -> x ∈ dom (node_args_ g);
  wf_interface x : x ∈ graph_inputs_including_initializers_ g \/ x ∈ graph_outputs_ g \/ x ∈ dom (name_to_initial_tensor_ g) -> x ∈ dom (node_args_ g);
  wf_ssa i n p j m q x : graph_node g i = Some n -> graph_node g j = Some m -> output_defs n !! p = Some x -> output_defs m !! q = Some x -> i = j /\ p = q;
  wf_ext i n x : x ∈ graph_inputs_including_initializers_ g \/ x ∈ dom (name_to_initial_tensor_ g) -> graph_node g i = Some n -> x ∉ output_defs n;
  wf_topo : topo g order;
  wf_nodup : NoDup order;
  wf_live i : i ∈ order -> is_Some (graph_node g i);
  wf_gen : in_s 32 (name_generator_ g);
  wf_size : Z.of_nat (graph_size (make_Transformer g pre) + budget g order) < 2 ^ 31 - 1;
  wf_shapes x s (t : Transformer) : arg_Shape g x = Some s -> wp (Size (GetTensorShapeFromTensorShapeProto s)) (fun _ t' => t' = t) t;
  wf_weights w T : constants g !! w = Some T -> length (tp_dims T) = 4%nat -> weights_ok T;
  wf_ops i n : graph_node g i = Some n -> op_wf (ndef_of n);
  wf_pools i n : pre = false -> graph_node g i = Some n -> op_type_ n = "MaxPool" -> plain_pool (attributes_ n) /\ forall x, x ∈ input_defs n -> ~ pool_output g x }.

Section step.
Context {V : Type} `{TensorLaws V} (g0 : Graph) (pre : bool).
Notation names0 := (dom (node_args_ g0)).
Notation O := (graph_outputs_ g0).
Notation I := (graph_inputs_including_initializers_ g0).
Notation pooled := (pool_output g0).
Notation linv := (linv names0 O I pooled).
Notation t0 := (make_Transformer g0 pre).

(** The invariant of the loop: [C] are the nodes to come. *)
Record inv (C : list nat) (t : Transformer) : Prop := {
  iv_cinv : cinv g0 pre C (budget g0 C) t;
  iv_linv : linv (view [] t);
  iv_ref : refines O I (view [] t0) (view [] t);
  iv_orig i : i ∈ C -> ls_nodes (view [] t) !! i = ndef_of <$> graph_node g0 i;
  iv_cons w : w ∈ names0 -> constants (graph_ t) !! w = constants g0 !! w }.

Context (order0 : list nat) (Hwf : graph_wf g0 pre order0).

Lemma inputs_old x : x ∈ I -> x ∈ names0.
Proof using Hwf. intros Hx. apply (wf_interface _ _ _ Hwf). auto. Qed.

Lemma inv_tail i U t : inv (i :: U) t -> inv U t.
Proof.
  intros []. split; try done.
  - eapply cinv_weaken; [by eapply cinv_tail|]. simpl. lia.
  - intros j Hj. apply iv_orig0. by right.
Qed.

(** The node that is about to be transformed. *)
Lemma inv_head i U t : inv (i :: U) t -> exists n n0, graph_node (graph_ t) i = Some n /\ graph_node g0 i = Some n0 /\ ndef_of n = ndef_of n0 /\
  (i ∉ removed_nodes_ t) /\ ls_nodes (view [] t) !! i = Some (ndef_of n).
Proof.
  intros Hv. destruct (ci_live _ _ _ _ _ (iv_cinv _ _ Hv) i) as [n Hn]; [by left|]. assert (i ∉ removed_nodes_ t) as Hr.
  { intros Hr. destruct (ci_removed _ _ _ _ _ (iv_cinv _ _ Hv) i Hr) as [HC _]. apply HC. by left. }
  assert (ls_nodes (view [] t) !! i = Some (ndef_of n)) as Hl by (apply view_lookup; split; [apply not_elem_of_nil|]; split; [done|]; by exists n).
  pose proof (iv_orig _ _ Hv i ltac:(by left)) as E. rewrite Hl in E. destruct (graph_node g0 i) as [n0|] eqn:E0; [|done]. apply (inj Some) in E. by exists n, n0.
Qed.

(** Outputs of the nodes to come are old names. *)
Lemma orig_outputs C t c m x : inv C t -> c ∈ C -> graph_node (graph_ t) c = Some m -> x ∈ output_defs m -> exists m0, graph_node g0 c = Some m0 /\ output_defs m0 = output_defs m.
Proof.
  intros Hv Hc Hm Hx. assert (ls_nodes (view [] t) !! c = Some (ndef_of m)) as Hl.
  { apply view_lookup. split; [apply not_elem_of_nil|]. split; [|by exists m]. intros Hr. by destruct (ci_removed _ _ _ _ _ (iv_cinv _ _ Hv) c Hr) as [HC _]. }
  rewrite (iv_orig _ _ Hv c Hc) in Hl. destruct (graph_node g0 c) as [m0|]; [|done]. apply (inj Some) in Hl. exists m0. split; [done|]. exact (f_equal nd_outs Hl).
Qed.

Lemma new_not_made C t x : inv C t -> x ∉ names0 -> not_made C t x.
Proof using Hwf.
  intros Hv Hx c m Hc Hm Hin. destruct (orig_outputs C t c m x Hv Hc Hm Hin) as (m0 & Hm0 & E). apply Hx, (wf_args _ _ _ Hwf c m0 x Hm0). right. by rewrite E.
Qed.

Lemma head_not_made i U t n x : topo g0 (i :: U) -> inv (i :: U) t -> graph_node (graph_ t) i = Some n -> x ∈ input_defs n -> not_made (i :: U) t x.
Proof.
  intros [Ht _] Hv Hn Hx c m Hc Hm Hin. destruct (orig_outputs _ t c m x Hv Hc Hm Hin) as (m0 & Hm0 & E).
  destruct (inv_head i U t Hv) as (n' & n0 & Hn' & Hn0 & En & _). rewrite Hn in Hn'. injection Hn' as <-.
  apply (Ht n0 c m0 x Hn0 Hc Hm0); [|by rewrite E]. injection En as _ E2 _ _. by rewrite <- E2.
Qed.

Lemma head_names i U t n x : inv (i :: U) t -> graph_node (graph_ t) i = Some n -> x ∈ input_defs n \/ x ∈ output_defs n -> x ∈ names0.
Proof using Hwf.
  intros Hv Hn Hx. destruct (inv_head i U t Hv) as (n' & n0 & Hn' & Hn0 & En & _). rewrite Hn in Hn'. injection Hn' as <-. injection En as _ E2 E3 _.
  apply (wf_args _ _ _ Hwf i n0 x Hn0). by rewrite <- E2, <- E3.
Qed.

(** ** The end of a conversion *)

Lemma uses_from_edges X t i n q x a : cinv g0 pre (i :: []) 0 t -> graph_node (graph_ t) i = Some n -> output_defs n !! q = Some x -> view X t = a ->
  uses_bound O a x (Z.of_nat (size (slot_edges q n)) + output_use O x) /\ 0 <= Z.of_nat (size (slot_edges q n)) + output_use O x < 2 ^ 64.
Proof.
  intros Hc Hn Hq <-. split.
  - exists ((fun e : EdgeEnd => (e.1.1, e.2)) <$> elements (slot_edges q n)). rewrite length_fmap. split; [done|].
    intros j p (m & (_ & Hr & m' & Hm & ->)%view_lookup & Hp). apply list_elem_of_fmap. exists (j, q, p). split; [done|]. apply elem_of_elements. unfold slot_edges.
    apply elem_of_filter. split; [done|]. eapply (ci_complete _ _ _ _ _ Hc i); eauto. by left.
  - pose proof (ci_few _ _ _ _ _ Hc i n Hn). pose proof (subseteq_size (slot_edges q n) (output_edges n) ltac:(unfold slot_edges; intros e; rewrite elem_of_filter; tauto)).
    unfold output_use. case_bool_decide; lia.
Qed.

Lemma cinv_head i U k t : cinv g0 pre (i :: U) k t -> cinv g0 pre (i :: []) 0 t.
Proof.
  intros Hc. apply (cinv_weaken _ _ _ k); [|lia]. destruct Hc. split; try done.
  - intros j ->%list_elem_of_singleton. apply ci_live. by left.
  - intros j ->%list_elem_of_singleton. apply ci_complete. by left.
  - intros j Hj. destruct (ci_removed j Hj) as [HC ?]. split; [|done]. intros ->%list_elem_of_singleton. apply HC. by left.
Qed.

Lemma wp_CreateNhwcArgument X i i' U k n n' base (Q : unit -> Transformer -> Prop) t : i ∉ U -> i' ∉ U -> cinv g0 pre U (5 * length (output_defs n) + k) t ->
  i' ∉ X ++ removed_nodes_ t -> graph_node (graph_ t) i = Some n -> graph_node (graph_ t) i' = Some n' -> i' = i \/ output_edges n' = ∅ -> output_defs n' = output_defs n ->
  (forall l t', old_outs l = output_defs n -> created_from g0 pre U i i' X 0 k n l t t' -> Q tt t') -> wp (CreateNhwcArgument i i' base) Q t.
Proof.
  intros Hi Hi' Hc HX Hn Hn' He Eo HQ. unfold CreateNhwcArgument. apply wp_bind, wp_on_graph, (wp_GetNode i' n'); [done|].
  change (t <| graph_ := graph_ t |>) with (t_ents (nhwc_args_ t) t) at 1. rewrite Eo.
  apply (wp_create_loop g0 pre U i i' base X Hi Hi' (length (output_defs n)) 0 k _ n n'); try done.
  - by destruct Hc.
  - by rewrite Eo.
  - intros p _. by rewrite Eo.
  - intros e _. lia.
  - intros l t' Hold Hcr. apply (HQ l t'); [by rewrite Hold, Eo|done].
Qed.

(** What is left to do when the outputs have their variants. *)
Record finished (X : list nat) (i : nat) (U : list nat) (t t' : Transformer) : Prop := {
  fi_cinv : cinv g0 pre U (budget g0 U) t';
  fi_linv : linv (view X t');
  fi_ref : refines O I (view [] t0) (view X t');
  fi_orig j : j ∈ U -> ls_nodes (view X t') !! j = ndef_of <$> graph_node g0 j;
  fi_cons w : w ∈ names0 -> constants (graph_ t') !! w = constants g0 !! w;
  fi_removed : removed_nodes_ t' = removed_nodes_ t;
  fi_node : exists n2, graph_node (graph_ t') i = Some n2 /\ output_edges n2 = ∅ }.

(** What is known before: the view is [a] with node [i] rewired. *)
Record rewired (X : list nat) (i i' : nat) (U : list nat) (t : Transformer) (a : lstate) (n n' : Node) (nd : ndef) (E' : gmap string NhwcArgument) : Prop := {
  rw_cinv : cinv g0 pre (i :: U) (5 * length (output_defs n) + budget g0 U) t;
  rw_out : (i ∉ U) /\ (i' ∉ U) /\ (i' ∉ X ++ removed_nodes_ t);
  rw_node : graph_node (graph_ t) i = Some n;
  rw_node' : graph_node (graph_ t) i' = Some n';
  rw_edges : i' = i \/ output_edges n' = ∅;
  rw_outs : output_defs n' = output_defs n;
  rw_linv : linv a;
  rw_ref : refines O I (view [] t0) a;
  rw_view : view X t = reshape i i' (ndef_of n') E' a;
  rw_shape : reshaped names0 a i i' nd (ndef_of n') E';
  rw_ents x e : ls_ents a !! x = Some e -> exists e', E' !! x = Some e' /\ nhwc_arg_ e' = nhwc_arg_ e;
  rw_op : nhwc_node names0 (ls_nodes a) (ndef_of n');
  rw_conv : op_type_ n' = "QLinearConv_nhwc" -> length (output_defs n) = 1%nat /\ attributes_ n' !! "maxpool" = None;
  rw_orig j : j ∈ U -> ls_nodes a !! j = ndef_of <$> graph_node g0 j;
  rw_cons w : w ∈ names0 -> constants (graph_ t) !! w = constants g0 !! w }.

Lemma rewired_conversion X i i' U t a n n' nd E' l t' k : rewired X i i' U t a n n' nd E' -> old_outs l = output_defs n ->
  created_from g0 pre U i i' X 0 k n l t t' -> conversion names0 O a i i' nd (ndef_of n') E' l.
Proof.
  intros Hr Hold (Hnd & Hfr & Hus & _). assert (nd_outs nd = output_defs n) as En.
  { rewrite <- (rs_outs _ _ _ _ _ _ _ (rw_shape _ _ _ _ _ _ _ _ _ _ Hr)). apply (rw_outs _ _ _ _ _ _ _ _ _ _ Hr). }
  split.
  - exact (rw_shape _ _ _ _ _ _ _ _ _ _ Hr).
  - exact (rw_ents _ _ _ _ _ _ _ _ _ _ Hr).
  - by rewrite En.
  - done.
  - intros o Ho. pose proof (Hfr o Ho) as Hf. pose proof (f_equal ls_names (rw_view _ _ _ _ _ _ _ _ _ _ Hr)) as E. cbn in E. by rewrite <- E.
  - intros x o u [q Hq]%list_elem_of_lookup. rewrite (Hus q x o u Hq). simpl. rewrite (ci_outputs _ _ _ _ _ (rw_cinv _ _ _ _ _ _ _ _ _ _ Hr)).
    apply (uses_from_edges X t i n q x); [by eapply cinv_head, (rw_cinv _ _ _ _ _ _ _ _ _ _ Hr)|exact (rw_node _ _ _ _ _ _ _ _ _ _ Hr)| |exact (rw_view _ _ _ _ _ _ _ _ _ _ Hr)].
    rewrite <- Hold. unfold old_outs. by rewrite list_lookup_fmap, Hq.
  - exact (rw_op _ _ _ _ _ _ _ _ _ _ Hr).
  - intros Hop. destruct (rw_conv _ _ _ _ _ _ _ _ _ _ Hr Hop) as [Hl Hm]. split; [|done]. rewrite <- Hold in Hl. unfold old_outs in Hl. by rewrite length_fmap in Hl.
Qed.

Lemma wp_finish X i i' U t a n n' nd E' base (Q : unit -> Transformer -> Prop) : rewired X i i' U t a n n' nd E' ->
  (forall l, conversion names0 O a i i' nd (ndef_of n') E' l -> linv (convert i i' (ndef_of n') E' l a) /\ refines O I a (convert i i' (ndef_of n') E' l a)) ->
  (forall t', finished X i U t t' -> Q tt t') -> wp (CreateNhwcArgument i i' base) Q t.
Proof.
  intros Hr Hstep HQ. destruct (rw_out _ _ _ _ _ _ _ _ _ _ Hr) as (Hi & Hi' & HX).
  eapply (wp_CreateNhwcArgument X i i' U (budget g0 U) n n'); [done|done|by eapply cinv_tail, (rw_cinv _ _ _ _ _ _ _ _ _ _ Hr)|done|exact (rw_node _ _ _ _ _ _ _ _ _ _ Hr)|
    exact (rw_node' _ _ _ _ _ _ _ _ _ _ Hr)|exact (rw_edges _ _ _ _ _ _ _ _ _ _ Hr)|exact (rw_outs _ _ _ _ _ _ _ _ _ _ Hr)|].
  intros l t' Hold Hcr. apply HQ. pose proof (rewired_conversion X i i' U t a n n' nd E' l t' _ Hr Hold Hcr) as Hconv. destruct (Hstep l Hconv) as [Hl Href].
  destruct Hcr as (_ & _ & _ & Hc & Hv & Hrem & Hnode). assert (view X t' = convert i i' (ndef_of n') E' l a) as Hv'.
  { rewrite Hv, (rw_view _ _ _ _ _ _ _ _ _ _ Hr). done. }
  split; try done.
  - by rewrite Hv'.
  - rewrite Hv'. eapply refines_trans; [exact (rw_ref _ _ _ _ _ _ _ _ _ _ Hr)|done].
  - intros j Hj. rewrite Hv'. unfold convert. rewrite cr_other by (intros ->; done). cbn. rewrite lookup_insert_ne, lookup_delete_ne by (intros ->; done).
    by apply (rw_orig _ _ _ _ _ _ _ _ _ _ Hr).
  - intros w Hw. rewrite <- (rw_cons _ _ _ _ _ _ _ _ _ _ Hr w Hw). pose proof (f_equal ls_cons Hv') as E1. pose proof (f_equal ls_cons (rw_view _ _ _ _ _ _ _ _ _ _ Hr)) as E2.
    cbn in E1, E2. by rewrite E1, E2.
Qed.

(** In place, the invariant is back; otherwise the old node is put on the list. *)
Lemma finished_in_place i U t t' : finished [] i U t t' -> inv U t'.
Proof. intros []. by split. Qed.

Lemma finished_removed i U t t' : finished [i] i U t t' -> i ∉ U -> inv U (t' <| removed_nodes_ := i :: removed_nodes_ t' |>).
Proof.
  intros [Hc Hl Hr Ho Hcs Hrem (n2 & Hn2 & He)] Hi. split; try done. by eapply cinv_remove.
Qed.
End step.
