(* ===== verification/TransformerNodes.v ===== *)
(** * TransformerNodes: nodes that are rewired

    What a node gives up when it reads an NHWC argument; [TransformPassThrough] and
    [TransformQLinearAdd], which rewire a node in place, keep the invariant; what holds of
    a node that is replaced. *)

From stdpp Require Import strings pretty.
From S2P Require Import Prelude Effects Tensor Graph GraphSpec NhwcTransformer LayoutGraph FilterSpec LayoutSteps LayoutInvariant LayoutConvert TransformerState TransformerOps TransformerEdges TransformerCalls TransformerStep.

(** ** Uses that a node gives up *)

Definition reading (n : ndef) (z : string) (slots : list nat) : list nat := filter (fun p => nd_ins n !! p = Some z) slots.

(** The entries after node [n] has given up the uses in [slots]. *)
Definition consumed (a : lstate) (n : ndef) (slots : list nat) (E' : gmap string NhwcArgument) : Prop := forall z,
  match ls_ents a !! z, E' !! z with
  | Some e, Some e' => output_node_ e' = output_node_ e /\ nhwc_arg_ e' = nhwc_arg_ e /\ starting_original_uses_ e' = starting_original_uses_ e /\
      remaining_original_uses_ e' = remaining_original_uses_ e - Z.of_nat (length (reading n z slots))
  | None, None => True
  | _, _ => False
  end.

Section consumption.
Context (names0 : gset string) (O I : list string) (pooled : string -> Prop).
Notation linv := (linv names0 O I pooled).
Context (a : lstate) (i : nat) (n : ndef) (Ha : linv a) (Hn : ls_nodes a !! i = Some n).

Lemma reading_bound slots x e : NoDup slots -> ls_ents a !! x = Some e -> Z.of_nat (length (reading n x slots)) <= remaining_original_uses_ e.
Proof using Ha Hn.
  intros Hs He. destruct (inv_uses _ _ _ _ a Ha x e He) as (R & HR & Hin). assert (length (reading n x slots) <= length R)%nat; [|unfold output_use in HR; case_bool_decide; lia].
  transitivity (length ((fun p => (i, p)) <$> reading n x slots)); [by rewrite length_fmap|]. apply NoDup_incl_length.
  - apply base.NoDup_ListNoDup, NoDup_fmap_2; [by intros ?? [= ?]|]. by apply NoDup_filter.
  - intros s Hs'%list_elem_of_In. apply list_elem_of_fmap in Hs' as (p & -> & [Hp _]%list_elem_of_filter). apply list_elem_of_In, Hin. by exists n.
Qed.

Lemma consumed_nil : consumed a n [] (ls_ents a).
Proof using. intros z. destruct (ls_ents a !! z) as [e|]; [|done]. cbn. split_and!; [done..|lia]. Qed.

Lemma consumed_cons slots p x E' : consumed a n slots E' -> NoDup (p :: slots) -> nd_ins n !! p = Some x -> is_Some (ls_ents a !! x) ->
  consumed a n (p :: slots) (alter used_once x E').
Proof using Ha Hn.
  intros Hc Hs Hp [e He] z. specialize (Hc z). destruct (decide (z = x)) as [->|Hz].
  - rewrite lookup_alter_eq. rewrite He in *. destruct (E' !! x) as [e'|]; [|done]. destruct Hc as (E1 & E2 & E3 & E4). cbn [fmap option_fmap option_map].
    pose proof (reading_bound (p :: slots) x e Hs He) as Hb. assert (reading n x (p :: slots) = p :: reading n x slots) as Er by (unfold reading; by rewrite filter_cons_True).
    rewrite Er in *. cbn [length] in *. split_and!; [done..|]. cbn. rewrite E4.
    pose proof (inv_key _ _ _ _ a Ha x e He) as (_ & ? & ?). rewrite wrap_u_id; [lia|]. unfold in_u. lia.
  - rewrite lookup_alter_ne by done. unfold reading in *. rewrite filter_cons_False; [done|]. congruence.
Qed.

Lemma consumed_ents slots E' n' : consumed a n slots E' -> NoDup slots -> (forall p x, p ∈ slots -> nd_ins n !! p = Some x -> nd_ins n' !! p <> Some x) ->
  forall x e', E' !! x = Some e' -> exists e P, ls_ents a !! x = Some e /\ output_node_ e' = output_node_ e /\ nhwc_arg_ e' = nhwc_arg_ e /\
    starting_original_uses_ e' = starting_original_uses_ e /\ NoDup P /\ remaining_original_uses_ e' = remaining_original_uses_ e - Z.of_nat (length P) /\
    forall p, p ∈ P -> nd_ins n !! p = Some x /\ nd_ins n' !! p <> Some x.
Proof using.
  intros Hc Hs Hne x e' He'. specialize (Hc x). rewrite He' in Hc. destruct (ls_ents a !! x) as [e|]; [|done]. destruct Hc as (E1 & E2 & E3 & E4).
  exists e, (reading n x slots). split_and!; try done; [by apply NoDup_filter|]. intros p [Hp Hin]%list_elem_of_filter. split; [done|]. by apply Hne.
Qed.

Lemma consumed_lookup slots E' x e : consumed a n slots E' -> ls_ents a !! x = Some e -> exists e', E' !! x = Some e' /\ nhwc_arg_ e' = nhwc_arg_ e.
Proof using. intros Hc He. specialize (Hc x). rewrite He in Hc. destruct (E' !! x) as [e'|]; [|done]. exists e'. tauto. Qed.

Lemma entry_live p x e : nd_ins n !! p = Some x -> ls_ents a !! x = Some e -> 0 < remaining_original_uses_ e.
Proof using Ha Hn. intros Hp He. eapply uses_zero; [done..|]. exists n. eauto. Qed.

(** The NHWC variant of a consumed use: it is new, and its entry has lost a use. *)
Lemma consumed_arg slots E' p x e : consumed a n slots E' -> p ∈ slots -> nd_ins n !! p = Some x -> ls_ents a !! x = Some e ->
  (nhwc_arg_ e ∉ names0) /\ nhwc_arg_ e ∈ ls_names a /\
  forall z e', E' !! z = Some e' -> 0 < remaining_original_uses_ e' -> nhwc_arg_ e' = nhwc_arg_ e -> remaining_original_uses_ e' < starting_original_uses_ e'.
Proof using Ha Hn.
  intros Hc Hp Hx He. pose proof (entry_live p x e Hx He) as Hl. split; [apply (eo_new _ _ _ _ _ (inv_ent _ _ _ _ a Ha x e He Hl))|]. split; [by eapply (inv_arg _ _ _ _ a Ha)|].
  intros z e' He' Hr Ea. specialize (Hc z). rewrite He' in Hc. destruct (ls_ents a !! z) as [f|] eqn:Hf; [|done]. destruct Hc as (_ & E2 & E3 & E4).
  assert (z = x) as -> by (apply (inv_inj _ _ _ _ a Ha z f x e Hf He); [lia|done|congruence]). rewrite He in Hf. injection Hf as <-.
  assert (0 < length (reading n x slots))%nat; [|pose proof (inv_key _ _ _ _ a Ha x e He); lia].
  destruct (reading n x slots) eqn:Er; [|simpl; lia]. assert (p ∈ reading n x slots) as Hin by (by apply list_elem_of_filter). rewrite Er in Hin. by apply not_elem_of_nil in Hin.
Qed.

(** An argument that is no NHWC variant. *)
Lemma not_variant slots E' y : consumed a n slots E' -> (forall z e, ls_ents a !! z = Some e -> 0 < remaining_original_uses_ e -> nhwc_arg_ e <> y) ->
  forall z e', E' !! z = Some e' -> 0 < remaining_original_uses_ e' -> nhwc_arg_ e' = y -> remaining_original_uses_ e' < starting_original_uses_ e'.
Proof using.
  intros Hc Hy z e' He' Hr Ea. exfalso. specialize (Hc z). rewrite He' in Hc. destruct (ls_ents a !! z) as [f|] eqn:Hf; [|done]. destruct Hc as (_ & E2 & _ & E4).
  apply (Hy z f Hf); [lia|congruence].
Qed.

Lemma const_not_variant w T z e : ls_cons a !! w = Some T -> ls_ents a !! z = Some e -> 0 < remaining_original_uses_ e -> nhwc_arg_ e <> w.
Proof using Ha.
  intros Hw He Hr E. destruct (eo_node _ _ _ _ _ (inv_ent _ _ _ _ a Ha z e He Hr)) as (m & Hm & [p Hp]%list_elem_of_lookup & _).
  apply (inv_ext _ _ _ _ a Ha (output_node_ e) p w); [right; by apply elem_of_dom_2 in Hw|]. exists m. by rewrite <- E.
Qed.

Lemma reorder_not_variant x b z e : ls_reord a !! x = Some b -> ls_ents a !! z = Some e -> 0 < remaining_original_uses_ e -> nhwc_arg_ e <> b.
Proof using Ha.
  intros Hb He Hr E. destruct (inv_reord _ _ _ _ a Ha x b Hb) as (_ & k & Hk). pose proof (eo_value _ _ _ _ _ (inv_ent _ _ _ _ a Ha z e He Hr)) as Hv. rewrite E in Hv.
  assert (forall j m, ls_nodes a !! j = Some m -> b ∈ nd_outs m -> nd_op m = "Transpose") as Honly.
  { intros j m Hm [p Hp]%list_elem_of_lookup. destruct (inv_ssa _ _ _ _ a Ha j p k 0%nat b) as [-> _]; [by exists m|by eexists|]. rewrite Hk in Hm. by injection Hm as <-. }
  destruct Hv as [j m y Hj Hop Hy _|j m y y' Hj Hop _ _ Hy _|j m y y' y'' Hj Hop _ _ _ _ Hy _]; pose proof (Honly j m Hj Hy) as Et; rewrite Et in Hop.
  - destruct Hop as [(op & wi & [[-> _]|[-> _]] & E')|E']; done.
  - by destruct Hop.
  - done.
Qed.
End consumption.

(** ** Steps on the state *)

Lemma wp_GetNode_t i n (Q : Node -> Transformer -> Prop) t : graph_node (graph_ t) i = Some n -> Q n t -> wp (on_graph (GetNode i)) Q t.
Proof. intros Hn HQ. apply wp_on_graph, (wp_GetNode i n); [done|]. by destruct t. Qed.

Lemma wp_consume_use x (Q : unit -> Transformer -> Prop) t : Q tt (t_ents (alter used_once x (nhwc_args_ t)) t) -> wp (consume_use x) Q t.
Proof. intros HQ. apply wp_modify. exact HQ. Qed.

Definition ins_set (p : nat) (v : string) (n : ndef) : ndef := {| nd_op := nd_op n; nd_ins := <[p := v]> (nd_ins n); nd_outs := nd_outs n; nd_attrs := nd_attrs n |}.

Lemma view_set_in X i p v t : i ∉ X ++ removed_nodes_ t -> view X (t_upd i (set_in p v) t) = v_alter i (ins_set p v) (view X t).
Proof. intros Hi. by apply view_upd. Qed.

Lemma alter_reshape (N : gmap nat ndef) i n f : N !! i = Some n -> alter f i N = <[i := f n]> (delete i N).
Proof.
  intros Hn. apply map_eq. intros j. destruct (decide (j = i)) as [->|Hj]; [by rewrite lookup_alter_eq, lookup_insert_eq, Hn|].
  by rewrite lookup_alter_ne, lookup_insert_ne, lookup_delete_ne.
Qed.

Lemma alter_twice (N : gmap nat ndef) i f f' : alter f i (alter f' i N) = alter (fun n => f (f' n)) i N.
Proof.
  apply map_eq. intros j. destruct (decide (j = i)) as [->|Hj]; [|by rewrite !lookup_alter_ne]. rewrite !lookup_alter_eq. by destruct (N !! i).
Qed.

Lemma size_alter_le {A} f (x : string) (E : gmap string A) : size (alter f x E) = size E.
Proof. by rewrite <- !(size_dom (D := gset string)), dom_alter_L. Qed.

Lemma removed_nil i t : i ∉ removed_nodes_ t -> i ∉ [] ++ removed_nodes_ t.
Proof. done. Qed.

Section nodes.
Context {V : Type} `{TensorLaws V} (g0 : Graph) (pre : bool) (order0 : list nat) (Hwf : graph_wf g0 pre order0).
Notation names0 := (dom (node_args_ g0)).
Notation O := (graph_outputs_ g0).
Notation I := (graph_inputs_including_initializers_ g0).
Notation pooled := (pool_output g0).
Notation linv := (linv names0 O I pooled).
Notation inv := (inv g0 pre).

(** Facts about the head of the list, used by every transformation. *)
Record head_node (i : nat) (U : list nat) (t : Transformer) (n : Node) : Prop := {
  hn_inv : inv (i :: U) t;
  hn_topo : topo g0 (i :: U);
  hn_out : i ∉ U;
  hn_node : graph_node (graph_ t) i = Some n;
  hn_live : i ∉ removed_nodes_ t;
  hn_view : ls_nodes (view [] t) !! i = Some (ndef_of n);
  hn_ops : op_wf (ndef_of n);
  hn_budget : budget g0 (i :: U) = (8 + 5 * length (output_defs n) + budget g0 U)%nat }.

Lemma head_intro i U t : inv (i :: U) t -> topo g0 (i :: U) -> i ∉ U -> exists n, head_node i U t n.
Proof using Hwf.
  intros Hv Ht Hi. destruct (inv_head g0 pre i U t Hv) as (n & n0 & Hn & Hn0 & En & Hr & Hl). exists n. split; try done.
  - rewrite En. by apply (wf_ops _ _ _ Hwf i).
  - simpl. rewrite Hn0. pose proof (f_equal nd_outs En) as Eo. cbn in Eo. by rewrite Eo.
Qed.

Lemma head_tail i U t n : head_node i U t n -> inv U t.
Proof. intros Hh. eapply inv_tail, (hn_inv _ _ _ _ Hh). Qed.

Lemma head_in_names0 i U t n x : head_node i U t n -> x ∈ input_defs n \/ x ∈ output_defs n -> x ∈ names0.
Proof using Hwf. intros Hh. eapply head_names; [done|apply (hn_inv _ _ _ _ Hh)|apply (hn_node _ _ _ _ Hh)]. Qed.

Lemma head_cinv i U t n : head_node i U t n -> cinv g0 pre (i :: U) (8 + 5 * length (output_defs n) + budget g0 U) t.
Proof. intros Hh. rewrite <- (hn_budget _ _ _ _ Hh). apply (iv_cinv _ _ _ _ (hn_inv _ _ _ _ Hh)). Qed.

(** A node rewired in place, ready for its outputs. *)
Lemma in_place_rewired i U t n n' t1 slots E' : head_node i U t n -> NoDup slots -> consumed (view [] t) (ndef_of n) slots E' ->
  cinv g0 pre (i :: U) (5 * length (output_defs n) + budget g0 U) t1 -> graph_node (graph_ t1) i = Some n' -> output_defs n' = output_defs n ->
  removed_nodes_ t1 = removed_nodes_ t -> constants (graph_ t1) = constants (graph_ t) ->
  view [] t1 = reshape i i (ndef_of n') E' (view [] t) ->
  (forall p, p ∉ slots -> input_defs n' !! p = input_defs n !! p) ->
  (forall p, p ∈ slots -> exists x e, input_defs n !! p = Some x /\ nhwc_args_ t !! x = Some e /\ input_defs n' !! p = Some (nhwc_arg_ e)) ->
  nhwc_node names0 (ls_nodes (view [] t)) (ndef_of n') -> op_type_ n' <> "QLinearConv_nhwc" ->
  rewired g0 pre [] i i U t1 (view [] t) n' n' (ndef_of n) E'.
Proof using Hwf.
  intros Hh Hs Hc Hc1 Hn1 Eo Er Ecs Hv Hk Hsl Hop Hnc. pose proof (hn_inv _ _ _ _ Hh) as Hi. pose proof (iv_linv _ _ _ _ Hi) as Hl. split; try done.
  - by rewrite Eo.
  - split; [apply (hn_out _ _ _ _ Hh)|]. split; [apply (hn_out _ _ _ _ Hh)|]. rewrite Er. apply (hn_live _ _ _ _ Hh).
  - by left.
  - apply (iv_ref _ _ _ _ Hi).
  - split.
    + apply (hn_view _ _ _ _ Hh).
    + by left.
    + done.
    + intros o Ho. eapply head_in_names0; eauto.
    + intros p y Hp. cbn in Hp. destruct (decide (p ∈ slots)) as [Hin|Hin]; [right|left; cbn; by rewrite <- Hk].
      destruct (Hsl p Hin) as (x & e & Hx & He & Hy). rewrite Hy in Hp. injection Hp as <-.
      exact (consumed_arg names0 O I pooled (view [] t) i (ndef_of n) Hl (hn_view _ _ _ _ Hh) slots E' p x e Hc Hin Hx He).
    + apply (consumed_ents _ _ slots _ (ndef_of n') Hc Hs). intros p x Hin Hx Hx'. destruct (Hsl p Hin) as (x' & e & Hx1 & He & Hy). cbn in Hx, Hx'.
      rewrite Hy in Hx'. injection Hx' as Ea. destruct (consumed_arg names0 O I pooled (view [] t) i (ndef_of n) Hl (hn_view _ _ _ _ Hh) slots E' p x' e Hc Hin Hx1 He) as [Hnew _].
      apply Hnew. rewrite Ea. eapply head_in_names0; [done|]. left. by apply list_elem_of_lookup_2 in Hx.
  - intros x e He. by eapply consumed_lookup.
  - intros j Hj. apply (iv_orig _ _ _ _ Hi). by right.
  - intros w Hw. rewrite Ecs. by apply (iv_cons _ _ _ _ Hi).
Qed.

(** ** Operators that do not see the order *)

Lemma entry_value i U t n p x e : head_node i U t n -> input_defs n !! p = Some x -> nhwc_args_ t !! x = Some e ->
  nhwc_value names0 (ls_nodes (view [] t)) (nhwc_arg_ e) /\ (nhwc_arg_ e ∉ names0).
Proof.
  intros Hh Hx He. pose proof (iv_linv _ _ _ _ (hn_inv _ _ _ _ Hh)) as Hl.
  pose proof (entry_live _ _ _ _ (view [] t) i (ndef_of n) Hl (hn_view _ _ _ _ Hh) p x e Hx He) as Hr. pose proof (inv_ent _ _ _ _ _ Hl x e He Hr) as Hok.
  split; [exact (eo_value _ _ _ _ _ Hok)|exact (eo_new _ _ _ _ _ Hok)].
Qed.

Lemma wp_TransformPassThrough i U t n : head_node i U t n -> relu_kind (op_type_ n) -> input_edges n = ∅ -> wp (TransformPassThrough i) (fun _ t' => inv U t') t.
Proof using All.
  intros Hh Hop Hie. pose proof (hn_node _ _ _ _ Hh) as Hn. unfold TransformPassThrough. apply wp_bind, (wp_GetNode_t i n); [done|]. apply wp_bind, wp_gets.
  destruct (ShouldTransform (id t) n); cbn [negb]; [|by apply wp_ret, (head_tail i U t n)].
  destruct (hn_ops _ _ _ _ Hh) as (_ & Hrelu & _). destruct (Hrelu Hop) as [Hins Houts]. cbn in Hins, Houts.
  destruct (input_defs n) as [|x rest] eqn:Ein; [simpl in Hins; lia|]. apply wp_bind, wp_ret. change (nhwc_args_ (id t)) with (nhwc_args_ t).
  destruct (nhwc_args_ t !! x) as [e|] eqn:He; [|by apply wp_ret, (head_tail i U t n)].
  assert (input_defs n !! 0%nat = Some x) as Hx by (by rewrite Ein). destruct (entry_value i U t n 0 x e Hh Hx He) as [Hval Hnew].
  apply wp_bind, wp_set_input_def, wp_bind, wp_consume_use. set (t1 := t_ents _ _). set (n' := set_in 0 (nhwc_arg_ e) n).
  destruct (output_defs n) as [|out outs] eqn:Eout; [simpl in Houts; lia|]. apply wp_bind, wp_ret.
  assert (graph_node (graph_ t1) i = Some n') as Hn1 by (unfold t1; cbn; rewrite graph_node_alter, decide_True, Hn; done).
  eapply (wp_finish g0 pre [] i i U t1 (view [] t) n' n' (ndef_of n) (alter used_once x (nhwc_args_ t))).
  - pose proof (iv_linv _ _ _ _ (hn_inv _ _ _ _ Hh)) as Hl. eapply (in_place_rewired i U t n n' t1 [0%nat]); try done.
    + apply NoDup_singleton.
    + eapply (consumed_cons names0 O I pooled _ i); [done|apply (hn_view _ _ _ _ Hh)|apply consumed_nil|apply NoDup_singleton|done|by exists e].
    + unfold t1. eapply cinv_ents; [eapply cinv_set_in; [apply (cinv_weaken _ _ _ _ _ _ (head_cinv i U t n Hh)); shelve|done|done|]|].
      * eapply new_not_made; [done|apply (hn_inv _ _ _ _ Hh)|done].
      * change (nhwc_args_ (t_upd _ _ _)) with (nhwc_args_ t). rewrite size_alter_le. apply Nat.le_refl.
      Unshelve. lia.
    + apply lstate_eq; try done. cbn [reshape ls_nodes]. rewrite <- (alter_reshape _ i (ndef_of n) (ins_set 0 (nhwc_arg_ e))) by apply (hn_view _ _ _ _ Hh).
      apply (f_equal ls_nodes (view_set_in [] i 0 (nhwc_arg_ e) t (hn_live _ _ _ _ Hh))).
    + intros p Hp. cbn. rewrite list_lookup_insert_ne; [done|]. intros <-. apply Hp. by left.
    + intros p ->%list_elem_of_singleton. exists x, e. split; [done|]. split; [done|]. cbn. by rewrite Ein.
    + right. left. split; [done|]. exists (nhwc_arg_ e). split; [cbn; by rewrite Ein|done].
    + cbn. destruct Hop as [-> | ->]; done.
  - intros l Hl. eapply (relu_step names0 O I pooled (inputs_old g0 pre order0 Hwf) (view [] t) i i _ _ _ l (iv_linv _ _ _ _ (hn_inv _ _ _ _ Hh)) Hl x e rest); try done.
    cbn. by rewrite Ein.
  - intros t' Hf. by apply finished_in_place in Hf.
Qed.

(** [QLinearAdd]: two inputs are rewired. *)
Definition add_ins (v1 v2 : string) (n : Node) : Node := set_in 3 v2 (set_in 0 v1 n).

Definition t_add (i : nat) (x1 x2 : string) (e1 e2 : NhwcArgument) (t : Transformer) : Transformer :=
  t_ents (alter used_once x2 (alter used_once x1 (nhwc_args_ t))) (t_upd i (set_in 3 (nhwc_arg_ e2)) (t_upd i (set_in 0 (nhwc_arg_ e1)) t)).

Lemma add_rewired i U t n x1 x2 e1 e2 : head_node i U t n -> op_type_ n = "QLinearAdd" -> input_edges n = ∅ ->
  input_defs n !! 0%nat = Some x1 -> input_defs n !! 3%nat = Some x2 -> nhwc_args_ t !! x1 = Some e1 -> nhwc_args_ t !! x2 = Some e2 ->
  let n' := add_ins (nhwc_arg_ e1) (nhwc_arg_ e2) n in
  rewired g0 pre [] i i U (t_add i x1 x2 e1 e2 t) (view [] t) n' n' (ndef_of n) (alter used_once x2 (alter used_once x1 (nhwc_args_ t))).
Proof using All.
  intros Hh Hop Hie Hx1 Hx2 He1 He2 n'. pose proof (hn_node _ _ _ _ Hh) as Hn. pose proof (iv_linv _ _ _ _ (hn_inv _ _ _ _ Hh)) as Hl.
  destruct (entry_value i U t n 0 x1 e1 Hh Hx1 He1) as [Hval1 Hnew1]. destruct (entry_value i U t n 3 x2 e2 Hh Hx2 He2) as [Hval2 Hnew2].
  set (t1 := t_upd i (set_in 0 (nhwc_arg_ e1)) t). assert (graph_node (graph_ t1) i = Some (set_in 0 (nhwc_arg_ e1) n)) as Hn1 by (unfold t1; rewrite t_upd_node, decide_True, Hn; done).
  assert (cinv g0 pre (i :: U) (8 + 5 * length (output_defs n) + budget g0 U) t1) as Hc1.
  { eapply cinv_set_in; [apply (head_cinv i U t n Hh)|done|done|]. eapply new_not_made; [done|apply (hn_inv _ _ _ _ Hh)|done]. }
  assert (consumed (view [] t) (ndef_of n) [3%nat; 0%nat] (alter used_once x2 (alter used_once x1 (nhwc_args_ t)))) as Hcons.
  { eapply (consumed_cons names0 O I pooled _ i); [done|apply (hn_view _ _ _ _ Hh)| | |done|by exists e2].
    - eapply (consumed_cons names0 O I pooled _ i); [done|apply (hn_view _ _ _ _ Hh)|apply consumed_nil|apply NoDup_singleton|done|by exists e1].
    - apply NoDup_cons. split; [|apply NoDup_singleton]. by intros ?%list_elem_of_singleton. }
  eapply (in_place_rewired i U t n n' _ [3%nat; 0%nat]); try done.
  - apply NoDup_cons. split; [|apply NoDup_singleton]. by intros ?%list_elem_of_singleton.
  - eapply (cinv_ents _ _ _ (8 + 5 * length (output_defs n) + budget g0 U)).
    + eapply (cinv_set_in _ _ _ _ t1); [done|exact Hn1|done|]. intros c m Hc Hm. unfold t1 in Hm. rewrite t_upd_node in Hm.
      assert (exists m0, graph_node (graph_ t) c = Some m0 /\ output_defs m = output_defs m0) as (m0 & Hm0 & ->).
      { case_decide; [|by exists m]. destruct (graph_node (graph_ t) c) as [m0|]; [|done]. injection Hm as <-. by exists m0. }
      eapply (new_not_made g0 pre order0 Hwf (i :: U) t); [apply (hn_inv _ _ _ _ Hh)|done|done|done].
    + change (nhwc_args_ (t_upd _ _ _)) with (nhwc_args_ t). rewrite !size_alter_le. lia.
  - change (graph_node (graph_ (t_upd i (set_in 3 (nhwc_arg_ e2)) t1)) i = Some n'). by rewrite t_upd_node, decide_True, Hn1.
  - apply lstate_eq; try done. cbn [reshape ls_nodes]. rewrite <- (alter_reshape _ i (ndef_of n) (fun n => ins_set 3 (nhwc_arg_ e2) (ins_set 0 (nhwc_arg_ e1) n))) by apply (hn_view _ _ _ _ Hh).
    change (ls_nodes (view [] (t_add i x1 x2 e1 e2 t))) with (ls_nodes (view [] (t_upd i (set_in 3 (nhwc_arg_ e2)) t1))).
    rewrite view_set_in by apply (hn_live _ _ _ _ Hh). unfold t1. rewrite view_set_in by apply (hn_live _ _ _ _ Hh). cbn. by rewrite alter_twice.
  - intros p Hp. cbn. rewrite !list_lookup_insert_ne; [done|..]; intros <-; apply Hp; [by right; left|by left].
  - intros p [->| ->%list_elem_of_singleton]%elem_of_cons.
    + exists x2, e2. split_and!; [done..|]. cbn. apply list_lookup_insert_eq. rewrite length_insert. by apply lookup_lt_Some in Hx2.
    + exists x1, e1. split_and!; [done..|]. cbn. rewrite list_lookup_insert_ne by done. apply list_lookup_insert_eq. by apply lookup_lt_Some in Hx1.
  - right. right. split; [done|]. exists (nhwc_arg_ e1), (nhwc_arg_ e2). split_and!; try done; cbn.
    + rewrite list_lookup_insert_ne by done. apply list_lookup_insert_eq. by apply lookup_lt_Some in Hx1.
    + apply list_lookup_insert_eq. rewrite length_insert. by apply lookup_lt_Some in Hx2.
  - cbn. by rewrite Hop.
Qed.

Lemma wp_TransformQLinearAdd i U t n : head_node i U t n -> op_type_ n = "QLinearAdd" -> input_edges n = ∅ -> wp (TransformQLinearAdd i) (fun _ t' => inv U t') t.
Proof using All.
  intros Hh Hop Hie. pose proof (hn_node _ _ _ _ Hh) as Hn. pose proof (iv_linv _ _ _ _ (hn_inv _ _ _ _ Hh)) as Hl. unfold TransformQLinearAdd.
  apply wp_bind, (wp_GetNode_t i n); [done|]. apply wp_bind, wp_gets. destruct (ShouldTransform (id t) n); cbn [negb]; [|by apply wp_ret, (head_tail i U t n)].
  destruct (hn_ops _ _ _ _ Hh) as (_ & _ & Hadd & _). destruct (Hadd Hop) as [Hins Houts]. cbn in Hins, Houts.
  destruct (lookup_lt_is_Some_2 (input_defs n) 0) as [x1 Hx1]; [lia|]. destruct (lookup_lt_is_Some_2 (input_defs n) 3) as [x2 Hx2]; [lia|].
  apply wp_bind. rewrite Hx1. apply wp_ret, wp_bind. rewrite Hx2. apply wp_ret. change (nhwc_args_ (id t)) with (nhwc_args_ t). change (graph_ (id t)) with (graph_ t).
  destruct (nhwc_args_ t !! x1) as [e1|] eqn:He1; [|by apply wp_ret, (head_tail i U t n)]. destruct (nhwc_args_ t !! x2) as [e2|] eqn:He2; [|by apply wp_ret, (head_tail i U t n)].
  destruct (arg_Shape (graph_ t) x1) as [s1|] eqn:Es; [|by apply wp_ret, (head_tail i U t n)]. destruct (arg_Shape (graph_ t) x2); [|by apply wp_ret, (head_tail i U t n)].
  assert (arg_Shape g0 x1 = Some s1) as Es0.
  { eapply ci_shapes; [apply (head_cinv i U t n Hh)| |done]. eapply head_in_names0; [done|]. left. by apply list_elem_of_lookup_2 in Hx1. }
  apply wp_bind. eapply wp_mono; [apply (wf_shapes _ _ _ Hwf x1 s1 t Es0)|]. intros _ ? ->. apply wp_bind, wp_set_input_def, wp_bind, wp_set_input_def, wp_bind, wp_consume_use, wp_bind, wp_consume_use.
  destruct (output_defs n) as [|out outs] eqn:Eout; [simpl in Houts; lia|]. apply wp_bind, wp_ret. change (t_ents _ _) with (t_add i x1 x2 e1 e2 t).
  pose proof (add_rewired i U t n x1 x2 e1 e2 Hh Hop Hie Hx1 Hx2 He1 He2) as Hr. eapply (wp_finish g0 pre [] i i U _ _ _ _ _ _ _ _ Hr).
  - intros lst Hc. destruct (entry_value i U t n 0 x1 e1 Hh Hx1 He1) as [Hv1 _]. destruct (entry_value i U t n 3 x2 e2 Hh Hx2 He2) as [Hv2 _].
    by apply (add_step names0 O I pooled (inputs_old g0 pre order0 Hwf) (view [] t) i i _ _ _ lst Hl Hc x1 x2 e1 e2).
  - intros t' Hf. by apply finished_in_place in Hf.
Qed.
End nodes.

(** ** Nodes that are replaced *)

Lemma view_hide i t : ls_nodes (view [i] t) = delete i (ls_nodes (view [] t)).
Proof.
  apply map_eq. intros j. cbn [view ls_nodes]. rewrite view_nodes_lookup. destruct (decide (j = i)) as [->|Hj].
  - rewrite lookup_delete_eq, decide_True; [done|]. by left.
  - rewrite lookup_delete_ne, view_nodes_lookup by done. destruct (decide (j ∈ removed_nodes_ t)) as [Hr|Hr].
    + rewrite decide_True; [by rewrite decide_True|]. by right.
    + rewrite !decide_False; [done|done|]. intros [->|]%elem_of_cons; done.
Qed.

Lemma t_upd_id i f t n : graph_node (graph_ t) i = Some n -> f n = n -> t_upd i f t = t.
Proof.
  intros Hn Hf. destruct t as [[] ? ? ? ? ?]. unfold t_upd, set_field, graph_node in *. cbn in *. do 2 f_equal. apply list_eq. intros j.
  destruct (decide (j = i)) as [->|Hj]; [rewrite list_lookup_alter_eq|by rewrite list_lookup_alter_ne].
  destruct (nodes_ !! i) as [[m|]|]; [|done..]. simpl in *. injection Hn as ->. by rewrite Hf.
Qed.

Section replace.
Context {V : Type} `{TensorLaws V} (g0 : Graph) (pre : bool) (order0 : list nat) (Hwf : graph_wf g0 pre order0).
Notation names0 := (dom (node_args_ g0)).
Notation O := (graph_outputs_ g0).
Notation I := (graph_inputs_including_initializers_ g0).
Notation pooled := (pool_output g0).
Notation linv := (linv names0 O I pooled).
Notation inv := (inv g0 pre).
Notation head_node := (head_node g0 pre).
Notation t0 := (make_Transformer g0 pre).

(** Node [i'] stands for node [i], rewired, in a state that only has more nodes and
    initializers than the one of the view [a]. *)
Record replacement (i i' : nat) (U : list nat) (t1 : Transformer) (a : lstate) (n n' : Node) (slots : list nat) (E' : gmap string NhwcArgument) : Prop := {
  rp_cinv : cinv g0 pre (i :: U) (5 * length (output_defs n) + budget g0 U) t1;
  rp_out : (i ∉ U) /\ (i' ∉ U) /\ i' <> i /\ (i' ∉ removed_nodes_ t1);
  rp_node : graph_node (graph_ t1) i = Some n;
  rp_node' : graph_node (graph_ t1) i' = Some n';
  rp_new : output_edges n' = ∅ /\ output_defs n' = output_defs n;
  rp_old o : o ∈ output_defs n -> o ∈ names0;
  rp_ins_old x : x ∈ input_defs n -> x ∈ names0;
  rp_linv : linv a;
  rp_ref : refines O I (view [] t0) a;
  rp_here : ls_nodes a !! i = Some (ndef_of n) /\ ls_nodes a !! i' = None;
  rp_view : view [i] t1 = reshape i i' (ndef_of n') E' a;
  rp_slots : NoDup slots;
  rp_uses : consumed a (ndef_of n) slots E';
  rp_ins p y : input_defs n' !! p = Some y -> input_defs n !! p = Some y \/
    (exists x e, p ∈ slots /\ input_defs n !! p = Some x /\ ls_ents a !! x = Some e /\ y = nhwc_arg_ e) \/
    ((y ∉ names0) /\ y ∈ ls_names a /\ forall z e, ls_ents a !! z = Some e -> 0 < remaining_original_uses_ e -> nhwc_arg_ e <> y);
  rp_rewired p x : p ∈ slots -> input_defs n !! p = Some x -> exists y, input_defs n' !! p = Some y /\ (y ∉ names0);
  rp_orig j : j ∈ U -> ls_nodes a !! j = ndef_of <$> graph_node g0 j;
  rp_cons w : w ∈ names0 -> constants (graph_ t1) !! w = constants g0 !! w }.

Lemma replacement_rewired i i' U t1 a n n' slots E' : replacement i i' U t1 a n n' slots E' ->
  (exists op wi, conv_kind op wi /\ op_type_ n' = op +:+ "_nhwc") \/ op_type_ n' = "MaxPool_nhwc" ->
  (op_type_ n' = "QLinearConv_nhwc" -> length (output_defs n) = 1%nat /\ attributes_ n' !! "maxpool" = None) ->
  rewired g0 pre [i] i i' U t1 a n n' (ndef_of n) E'.
Proof.
  intros [] Hop Hconv. destruct rp_out0 as (? & ? & ? & ?), rp_new0, rp_here0. split; try done.
  - split_and!; try done. intros [->|]%elem_of_cons; done.
  - by right.
  - split; try done.
    + by right.
    + intros p y Hp. destruct (rp_ins0 p y Hp) as [|[(x & e & Hin & Hx & He & ->)|(Hnew & Hnm & Hv)]]; [by left|right|right].
      * by eapply (consumed_arg names0 O I pooled a i (ndef_of n)).
      * split_and!; [done..|]. by eapply not_variant.
    + apply (consumed_ents a (ndef_of n) slots E' (ndef_of n') rp_uses0 rp_slots0). intros p x Hin Hx Hx'.
      destruct (rp_rewired0 p x Hin Hx) as (y & Hy & Hnew). cbn in Hx, Hx'. rewrite Hy in Hx'. injection Hx' as ->. apply Hnew, rp_ins_old0. by apply list_elem_of_lookup_2 in Hx.
  - intros x e He. by eapply consumed_lookup.
  - by left.
Qed.

(** The new node is not one of the old ones. *)
Lemma fresh_index i U k t n : cinv g0 pre (i :: U) k t -> graph_node (graph_ t) i = Some n ->
  (length (nodes_ (graph_ t)) ∉ U) /\ length (nodes_ (graph_ t)) <> i /\ (length (nodes_ (graph_ t)) ∉ removed_nodes_ t) /\
  ls_nodes (view [] t) !! length (nodes_ (graph_ t)) = None.
Proof.
  intros Hc Hn. pose proof (graph_node_new (graph_ t)) as Hnew. split_and!.
  - intros HU. destruct (ci_live _ _ _ _ _ Hc (length (nodes_ (graph_ t)))) as [m Hm]; [by right|]. by rewrite Hnew in Hm.
  - intros E. by rewrite <- E, Hnew in Hn.
  - intros Hr. destruct (ci_removed _ _ _ _ _ Hc _ Hr) as (_ & m & Hm & _). by rewrite Hnew in Hm.
  - destruct (ls_nodes (view [] t) !! _) as [m|] eqn:E; [|done]. apply view_lookup in E as (_ & _ & m' & Hm & _). by rewrite Hnew in Hm.
Qed.

(** ** Pooling of floats *)

(** The replacement before it is rewired. *)
Definition nhwc_copy (name : string) (n : Node) : Node := plain_node name (op_type_ n +:+ "_nhwc") (input_defs n) (output_defs n) (attributes_ n) (execution_provider_type_ n).

Definition t_pool (i' : nat) (x : string) (e : NhwcArgument) (name : string) (gen : Z) (n : Node) (t : Transformer) : Transformer :=
  t_ents (alter used_once x (nhwc_args_ t)) (t_upd i' (set_in 0 (nhwc_arg_ e)) (t_new (nhwc_copy name n) name gen t)).

Lemma t_new_node m name gen t j : graph_node (graph_ (t_new m name gen t)) j = if decide (j = length (nodes_ (graph_ t))) then Some m else graph_node (graph_ t) j.
Proof. exact (t_node_node m (t_gen_node name gen t) j). Qed.

Lemma view_new X m name gen t : length (nodes_ (graph_ t)) ∉ X ++ removed_nodes_ t -> view X (t_new m name gen t) = v_node (length (nodes_ (graph_ t))) (ndef_of m) (view X t).
Proof. intros Hi. exact (view_node X m (t_gen_node name gen t) Hi). Qed.

Lemma new_cinv i U t n name gen m : head_node i U t n -> in_s 32 gen -> input_edges m = ∅ -> output_edges m = ∅ -> input_defs m = input_defs n ->
  cinv g0 pre (i :: U) (6 + 5 * length (output_defs n) + budget g0 U) (t_new m name gen t).
Proof.
  intros Hh Hg Hi Ho Em. apply cinv_new; try done; [apply (head_cinv _ _ _ _ _ _ Hh)|]. intros x Hx. rewrite Em in Hx.
  eapply head_not_made; [apply (hn_topo _ _ _ _ _ _ Hh)|apply (hn_inv _ _ _ _ _ _ Hh)|apply (hn_node _ _ _ _ _ _ Hh)|done].
Qed.

(** What [C] makes does not change when a node is added or rewired. *)
Lemma not_made_upd C t i f x : (forall n, output_defs (f n) = output_defs n) -> not_made C t x -> not_made C (t_upd i f t) x.
Proof.
  intros Hf Hx c m Hc Hm. rewrite t_upd_node in Hm. case_decide; [|by eapply Hx]. destruct (graph_node (graph_ t) c) as [m0|] eqn:E; [|done]. injection Hm as <-.
  rewrite Hf. by eapply Hx.
Qed.

Lemma not_made_new C k t m name gen x : cinv g0 pre C k t -> not_made C t x -> not_made C (t_new m name gen t) x.
Proof.
  intros Hc Hx c m' HC Hm. rewrite t_new_node in Hm. case_decide as E; [|by eapply Hx]. destruct (ci_live _ _ _ _ _ Hc c HC) as [m0 Hm0]. subst c. by rewrite graph_node_new in Hm0.
Qed.

Lemma pool_replacement i U t n x e name gen : head_node i U t n -> input_defs n = [x] -> nhwc_args_ t !! x = Some e -> in_s 32 gen ->
  let i' := length (nodes_ (graph_ t)) in
  replacement i i' U (t_pool i' x e name gen n t) (view [] t) n (set_in 0 (nhwc_arg_ e) (nhwc_copy name n)) [0%nat] (alter used_once x (nhwc_args_ t)).
Proof using All.
  intros Hh Ein He Hg i'. pose proof (hn_inv _ _ _ _ _ _ Hh) as Hi. pose proof (iv_linv _ _ _ _ Hi) as Hl. pose proof (hn_node _ _ _ _ _ _ Hh) as Hn.
  destruct (fresh_index i U _ t n (head_cinv _ _ _ _ _ _ Hh) Hn) as (HU & Hne & Hr & Hv). fold i' in HU, Hne, Hr, Hv.
  assert (input_defs n !! 0%nat = Some x) as Hx by (by rewrite Ein). destruct (entry_value g0 pre i U t n 0 x e Hh Hx He) as [Hval Hnew].
  assert (graph_node (graph_ (t_new (nhwc_copy name n) name gen t)) i' = Some (nhwc_copy name n)) as Hn1 by (rewrite t_new_node, decide_True; done).
  split; try done.
  - unfold t_pool. eapply (cinv_ents _ _ _ (6 + 5 * length (output_defs n) + budget g0 U)).
    + eapply cinv_set_in; [by eapply new_cinv|exact Hn1|done|]. eapply not_made_new; [apply (head_cinv _ _ _ _ _ _ Hh)|]. by eapply new_not_made.
    + change (nhwc_args_ (t_upd _ _ _)) with (nhwc_args_ t). rewrite size_alter_le. lia.
  - split; [apply (hn_out _ _ _ _ _ _ Hh)|done].
  - change (graph_node (graph_ (t_upd i' (set_in 0 (nhwc_arg_ e)) (t_new (nhwc_copy name n) name gen t))) i = Some n).
    rewrite t_upd_node, decide_False, t_new_node, decide_False; done.
  - change (graph_node (graph_ (t_upd i' (set_in 0 (nhwc_arg_ e)) (t_new (nhwc_copy name n) name gen t))) i' = Some (set_in 0 (nhwc_arg_ e) (nhwc_copy name n))).
    by rewrite t_upd_node, decide_True, Hn1.
  - intros o Ho. eapply head_in_names0; eauto.
  - intros y Hy. eapply head_in_names0; eauto.
  - apply (iv_ref _ _ _ _ Hi).
  - split; [apply (hn_view _ _ _ _ _ _ Hh)|done].
  - apply lstate_eq; try done. change (ls_nodes (view [i] (t_pool i' x e name gen n t))) with (ls_nodes (view [i] (t_upd i' (set_in 0 (nhwc_arg_ e)) (t_new (nhwc_copy name n) name gen t)))).
    assert (i' ∉ [i] ++ removed_nodes_ t) by (intros [->|]%elem_of_cons; done).
    rewrite view_set_in by done. rewrite view_new by done. cbn [v_alter v_node ls_nodes reshape]. by rewrite view_hide, alter_insert_eq.
  - apply NoDup_singleton.
  - eapply (consumed_cons names0 O I pooled _ i); [done|apply (hn_view _ _ _ _ _ _ Hh)|apply consumed_nil|apply NoDup_singleton|done|by exists e].
  - intros p y Hp. cbn in Hp. rewrite Ein in Hp. destruct p as [|p]; [|by left; rewrite Ein]. injection Hp as <-. right. left. exists x, e. split; [by left|]. done.
  - intros p y ->%list_elem_of_singleton _. exists (nhwc_arg_ e). cbn. rewrite Ein. done.
  - intros j Hj. apply (iv_orig _ _ _ _ Hi). by right.
  - intros w Hw. by apply (iv_cons _ _ _ _ Hi).
Qed.
End replace.
