(* ===== verification/TransformerReplace.v ===== *)
(** * TransformerReplace: pooling and convolutions

    [TransformMaxPool] and [TransformConv] keep the invariant.  A pooling of floats is
    replaced by its NHWC variant, one after a quantized convolution goes into the
    convolution.  The weights of a convolution are reordered once, the convolution is
    replaced by its NHWC variant, and its input is the variant of the argument or the
    output of a transposition. *)

From stdpp Require Import strings pretty.
From S2P Require Import Prelude Effects Tensor Graph GraphSpec NhwcTransformer LayoutGraph FilterSpec LayoutSteps LayoutInvariant LayoutConvert TransformerState TransformerOps TransformerEdges TransformerCalls TransformerStep TransformerNodes.

(** ** Attributes and shapes *)

Definition add_attr (name : string) (v : AttributeProto) (n : Node) : Node := n <| attributes_ := <[name := v]> (attributes_ n) |>.

Lemma wp_AddAttribute i name v (Q : unit -> Transformer -> Prop) t : Q tt (t_upd i (add_attr name v) t) -> wp (on_graph (AddAttribute i name v)) Q t.
Proof. intros HQ. apply wp_on_graph, wp_modify. exact HQ. Qed.

Lemma t_upd_twice i f f' t : t_upd i f (t_upd i f' t) = t_upd i (fun n => f (f' n)) t.
Proof.
  unfold t_upd, set_field. cbn. do 2 f_equal. apply list_eq. intros j. destruct (decide (j = i)) as [->|Hj]; [|by rewrite !list_lookup_alter_ne].
  rewrite !list_lookup_alter_eq. by destruct (nodes_ (graph_ t) !! i) as [[m|]|].
Qed.

Definition t_clear (z : string) (t : Transformer) : Transformer :=
  t <| graph_ := (graph_ t) <| node_args_ := alter (option_map (fun ty => match ty with TensorType e _ => TensorType e None | SparseTensorType e _ => SparseTensorType e None | OtherType => OtherType end)) z (node_args_ (graph_ t)) |> |>.

Lemma wp_ClearShape z (Q : unit -> Transformer -> Prop) t : Q tt (t_clear z t) -> wp (on_graph (ClearShape z)) Q t.
Proof. intros HQ. apply wp_on_graph, wp_modify. exact HQ. Qed.

Lemma view_clear X z t : view X (t_clear z t) = view X t.
Proof. apply lstate_eq; try done. cbn. by rewrite dom_alter_L. Qed.

Lemma cinv_clear g0 pre C k z t : cinv g0 pre C k t -> cinv g0 pre C k (t_clear z t).
Proof.
  intros []. split; try done.
  - by apply (edges_ok_nodes (graph_ t)).
  - intros w Hw. cbn in *. rewrite dom_alter_L. by apply ci_init.
  - cbn. by rewrite dom_alter_L.
  - intros x s Hx Hs. apply ci_shapes; [done|]. unfold arg_Shape, TypeAsProto in *. cbn in Hs. destruct (decide (x = z)) as [->|Hz]; [|by rewrite lookup_alter_ne in Hs].
    rewrite lookup_alter_eq in Hs. by destruct (node_args_ (graph_ t) !! z) as [[[]|]|].
  - unfold graph_size in *. cbn. by rewrite size_alter_le.
Qed.

Lemma repeated_ints n name d : default d (GetRepeatedNodeAttributeValues n name) = ints_or (attributes_ n) name d.
Proof. unfold GetRepeatedNodeAttributeValues, GetNodeAttribute, ints_or. by repeat case_match. Qed.

(** The convolution with the attributes of the pooling. *)
Definition fuse_attrs (n m : Node) : Node := m <| attributes_ := fused_attrs (attributes_ m) (attributes_ n) |>.

(** The attributes of a plain pooling pass the test. *)
Lemma plain_pool_ok n : plain_pool (attributes_ n) -> pool_attributes_ok n = true.
Proof.
  intros ((k & Hk & Hlen) & Hpad & Hceil & Hord & Hdil). unfold pool_attributes_ok, GetRepeatedNodeAttributeValues, attribute_unset_or_s, attribute_unset_or_i, GetNodeAttribute.
  rewrite Hk, Hlen. destruct Hpad as [-> | ->], Hceil as [-> | ->], Hord as [-> | ->], Hdil as [-> | ->]; done.
Qed.

Section pool.
Context {V : Type} `{TensorLaws V} (g0 : Graph) (pre : bool) (order0 : list nat) (Hwf : graph_wf g0 pre order0).
Notation names0 := (dom (node_args_ g0)).
Notation O := (graph_outputs_ g0).
Notation I := (graph_inputs_including_initializers_ g0).
Notation pooled := (pool_output g0).
Notation linv := (linv names0 O I pooled).
Notation inv := (inv g0 pre).
Notation head_node := (head_node g0 pre).
Notation t0 := (make_Transformer g0 pre).

(** A pooling has one input and one output. *)
Lemma head_pool i U t n : head_node i U t n -> op_type_ n = "MaxPool" -> exists x z, input_defs n = [x] /\ output_defs n = [z].
Proof.
  intros Hh Hop. destruct (hn_ops _ _ _ _ _ _ Hh) as (_ & _ & _ & Hpool). destruct (Hpool Hop) as [Hi Ho]. cbn in Hi, Ho.
  destruct (input_defs n) as [|x [|]], (output_defs n) as [|z [|]]; try done. by exists x, z.
Qed.

Lemma wp_remove_later i (Q : unit -> Transformer -> Prop) t : Q tt (t <| removed_nodes_ := i :: removed_nodes_ t |>) -> wp (remove_later i) Q t.
Proof. intros HQ. by apply wp_modify. Qed.

(** ** The NHWC variant *)

Definition pool_variant (node_index : nat) : M Transformer unit :=
  node ← on_graph (GetNode node_index);
  input ← of_option Undefined (input_defs node !! 0%nat);
  t ← gets id;
  match nhwc_args_ t !! input with
  | None => mret tt
  | Some nhwc_input =>
    match TypeAsProto (graph_ t) input with
    | Some (TensorType elem_type _) =>
      if negb (elem_type =? TensorProto_DataType_FLOAT) then mret tt
      else if negb (attribute_unset_or_i node "storage_order" 0) then mret tt
      else if negb (attribute_unset_or_i node "ceil_mode" 0) then mret tt
      else
        nhwc_index ← on_graph (add_replacement node);
        on_graph (set_input_def nhwc_index 0 (nhwc_arg_ nhwc_input)) ;;
        consume_use input ;;
        out ← of_option Undefined (output_defs node !! 0%nat);
        CreateNhwcArgument node_index nhwc_index out ;;
        remove_later node_index
    | _ => mret tt
    end
  end.

Lemma wp_pool_variant i U t n : head_node i U t n -> op_type_ n = "MaxPool" -> wp (pool_variant i) (fun _ t' => inv U t') t.
Proof using All.
  intros Hh Hop. pose proof (hn_node _ _ _ _ _ _ Hh) as Hn. destruct (head_pool i U t n Hh Hop) as (x & z & Ein & Eout). unfold pool_variant.
  pose proof (head_tail _ _ _ _ _ _ Hh) as Hstay.
  apply wp_bind, (wp_GetNode_t i n); [done|]. apply wp_bind. rewrite (f_equal (fun l => l !! 0%nat) Ein : input_defs n !! 0%nat = Some x). apply wp_ret, wp_bind, wp_gets. change (nhwc_args_ (id t)) with (nhwc_args_ t). change (graph_ (id t)) with (graph_ t).
  destruct (nhwc_args_ t !! x) as [e|] eqn:He; [|by apply wp_ret]. destruct (TypeAsProto (graph_ t) x) as [[ty s|ty s|]|]; [|by apply wp_ret..].
  destruct (negb _); [by apply wp_ret|]. destruct (negb _); [by apply wp_ret|]. destruct (negb _); [by apply wp_ret|].
  apply wp_bind, (wp_add_replacement g0 pre (i :: U) (6 + 5 * length (output_defs n) + budget g0 U)); [exact (head_cinv _ _ _ _ _ _ Hh)| |].
  { intros y Hy. apply (ci_names0 _ _ _ _ _ (head_cinv _ _ _ _ _ _ Hh)). by eapply head_in_names0. }
  intros name gen Hg. apply wp_bind, wp_set_input_def, wp_bind, wp_consume_use, wp_bind. rewrite (f_equal (fun l => l !! 0%nat) Eout : output_defs n !! 0%nat = Some z). apply wp_ret, wp_bind.
  pose proof (pool_replacement g0 pre order0 Hwf i U t n x e name gen Hh Ein He Hg) as Hrp.
  assert (rewired g0 pre [i] i (length (nodes_ (graph_ t))) U (t_pool (length (nodes_ (graph_ t))) x e name gen n t) (view [] t) n (set_in 0 (nhwc_arg_ e) (nhwc_copy name n)) (ndef_of n)
    (alter used_once x (nhwc_args_ t))) as Hrw.
  { eapply replacement_rewired; [exact Hrp|right; cbn; by rewrite Hop|]. intros Hq. cbn in Hq. by rewrite Hop in Hq. }
  eapply (wp_finish g0 pre [i] i (length (nodes_ (graph_ t))) U _ _ _ _ _ _ _ _ Hrw).
  - intros l Hl. pose proof (cn_outs _ _ _ _ _ _ _ _ _ Hl) as El. cbn in El. rewrite Eout in El.
    eapply (pool_step names0 O I pooled (inputs_old g0 pre order0 Hwf) (view [] t) i _ _ _ _ l (iv_linv _ _ _ _ (hn_inv _ _ _ _ _ _ Hh)) Hl x e []); try done; cbn.
    + by rewrite Hop.
    + rewrite <- (length_fmap fst l). fold (old_outs l). by rewrite <- El.
    + by rewrite Ein.
  - intros t' Hf. apply wp_remove_later. apply finished_removed in Hf; [done|]. apply (hn_out _ _ _ _ _ _ Hh).
Qed.

(** ** Fusion *)

(** The state after a fusion. *)
Definition t_fuse (i : nat) (n : Node) (x z : string) (e : NhwcArgument) (uses : Z) (t : Transformer) : Transformer :=
  let t1 := t_clear z (t_upd (output_node_ e) (fuse_attrs n) (t_ents (alter used_once x (nhwc_args_ t)) (t_upd i (set_in 0 (nhwc_arg_ e)) t))) in
  t_ents (<[z := make_NhwcArgument (output_node_ e) (nhwc_arg_ e) uses]> (nhwc_args_ t1)) (t_drop i (slot_edges 0 n) t1).

(** What is known when the fusion goes ahead. *)
Record fusible (i : nat) (U : list nat) (t : Transformer) (n nc : Node) (x z : string) (e : NhwcArgument) : Prop := {
  fb_head : head_node i U t n;
  fb_op : op_type_ n = "MaxPool";
  fb_ins : input_defs n = [x];
  fb_outs : output_defs n = [z];
  fb_edges : input_edges n = ∅;
  fb_pre : pre = false;
  fb_ent : nhwc_args_ t !! x = Some e;
  fb_conv : graph_node (graph_ t) (output_node_ e) = Some nc;
  fb_kind : op_type_ nc = "QLinearConv_nhwc";
  fb_once : starting_original_uses_ e <= 1 }.

Section fusible.
Context (i : nat) (U : list nat) (t : Transformer) (n nc : Node) (x z : string) (e : NhwcArgument) (Hf : fusible i U t n nc x z e).
Notation c := (output_node_ e).
Notation uses := (Z.of_nat (size (slot_edges 0 n)) + output_use O z).

Lemma fb_linv : linv (view [] t).
Proof using Hf. apply (iv_linv _ _ _ _ (hn_inv _ _ _ _ _ _ (fb_head _ _ _ _ _ _ _ _ Hf))). Qed.

Lemma fb_index : c <> i.
Proof using Hf.
  destruct Hf as [Hh Hop _ _ _ _ _ Hc Hk _]. intros E. rewrite E, (hn_node _ _ _ _ _ _ Hh) in Hc. injection Hc as <-. by rewrite Hop in Hk.
Qed.

Lemma fb_orig : exists n0, graph_node g0 i = Some n0 /\ ndef_of n = ndef_of n0.
Proof using Hf.
  destruct Hf as [Hh _ _ _ _ _ _ _ _ _]. destruct (inv_head g0 pre i U t (hn_inv _ _ _ _ _ _ Hh)) as (n' & n0 & Hn & Hn0 & En & _).
  rewrite (hn_node _ _ _ _ _ _ Hh) in Hn. injection Hn as <-. by exists n0.
Qed.

(** The pooling is plain and its input comes from no pooling. *)
Lemma fb_plain : plain_pool (attributes_ n) /\ ~ pooled x /\ pooled z.
Proof using Hf Hwf.
  destruct fb_orig as (n0 & Hn0 & En). injection En as E1 E2 E3 E4. destruct Hf as [_ Hop Ein Eout _ Hp _ _ _ _].
  destruct (wf_pools _ _ _ Hwf i n0 Hp Hn0) as [Hpl Hx]; [congruence|]. split; [by rewrite E4|]. split.
  - apply Hx. rewrite <- E2, Ein. by left.
  - exists i, n0. split_and!; [done|congruence|]. rewrite <- E3, Eout. by left.
Qed.

Lemma fb_entry : ent_ok names0 pooled (view [] t) x e.
Proof using Hf.
  destruct Hf as [Hh _ Ein _ _ _ He _ _ _]. eapply inv_ent; [exact fb_linv|done|]. eapply (entry_live _ _ _ _ (view [] t) i (ndef_of n) fb_linv (hn_view _ _ _ _ _ _ Hh) 0); [|done].
  cbn. by rewrite Ein.
Qed.

Lemma fb_conv_view : ls_nodes (view [] t) !! c = Some (ndef_of nc) /\ output_defs nc = [nhwc_arg_ e] /\ attributes_ nc !! "maxpool" = None.
Proof using Hf Hwf.
  destruct (eo_node _ _ _ _ _ fb_entry) as (m & Hm & _ & Hconv). pose proof Hm as (_ & _ & m' & Hm' & ->)%view_lookup.
  rewrite (fb_conv _ _ _ _ _ _ _ _ Hf) in Hm'. injection Hm' as <-. destruct (Hconv (fb_kind _ _ _ _ _ _ _ _ Hf)) as [Eo Hmax]. split_and!; [done..|].
  destruct Hmax as [|Hx]; [done|]. by destruct fb_plain as (_ & ? & _).
Qed.

Lemma fb_names v : v = x \/ v = z -> v ∈ names0.
Proof using Hf Hwf.
  destruct Hf as [Hh _ Ein Eout _ _ _ _ _ _]. intros Hv. eapply head_in_names0; [done|exact Hh|]. rewrite Ein, Eout. destruct Hv as [-> | ->]; [left|right]; by left.
Qed.

Lemma fb_fused : fused (view [] t) (fuse i (ndef_of nc) (ndef_of n) x z e uses (view [] t)) i (ndef_of nc) (ndef_of n) x z e uses.
Proof using Hf Hwf.
  destruct fb_conv_view as (Hc & Eo & Em). destruct fb_plain as (Hp & _). destruct Hf as [Hh Hop Ein Eout _ _ He _ Hk Hs]. split; try done. apply (hn_view _ _ _ _ _ _ Hh).
Qed.

Lemma fb_uses : uses_bound O (view [] t) z uses /\ 0 <= uses < 2 ^ 64.
Proof using Hf.
  destruct Hf as [Hh _ _ Eout _ _ _ _ _ _]. eapply (uses_from_edges g0 pre [] t i n 0 z); [eapply cinv_head, (head_cinv _ _ _ _ _ _ Hh)|apply (hn_node _ _ _ _ _ _ Hh)|by rewrite Eout|done].
Qed.

Lemma fb_view : view [i] (t_fuse i n x z e uses t) = fuse i (ndef_of nc) (ndef_of n) x z e uses (view [] t).
Proof using Hf Hwf.
  destruct fb_conv_view as (Hc & _). pose proof Hc as (_ & Hr & _)%view_lookup. assert (c ∉ [i] ++ removed_nodes_ t) as HX.
  { intros [E|]%elem_of_cons; [by apply fb_index|done]. }
  apply lstate_eq; try done.
  - change (ls_nodes (view [i] (t_fuse i n x z e uses t))) with (ls_nodes (view [i] (t_drop i (slot_edges 0 n) (t_clear z (t_upd c (fuse_attrs n) (t_ents (alter used_once x (nhwc_args_ t)) (t_upd i (set_in 0 (nhwc_arg_ e)) t))))))).
    rewrite view_drop, view_clear, (view_upd [i] c _ (fun m => with_attrs m (fused_attrs (nd_attrs m) (attributes_ n)))) by done. cbn [v_alter ls_nodes].
    rewrite view_ents. cbn [v_ents ls_nodes]. rewrite view_upd_same by (right; by left). rewrite view_hide. cbn [fuse ls_nodes].
    rewrite (alter_reshape _ c (ndef_of nc)) by (rewrite lookup_delete_ne; [done|apply not_eq_sym, fb_index]).
    rewrite insert_delete_eq. symmetry. apply delete_insert_ne. apply not_eq_sym, fb_index.
  - cbn. f_equal. rewrite (alter_alt_Some _ _ _ e); [done|]. apply (fb_ent _ _ _ _ _ _ _ _ Hf).
  - cbn. by rewrite dom_alter_L.
Qed.
(** The state in which the edges of the pooling are taken off. *)
Notation t_ready := (t_clear z (t_upd c (fuse_attrs n) (t_ents (alter used_once x (nhwc_args_ t)) (t_upd i (set_in 0 (nhwc_arg_ e)) t)))).

Lemma fb_ready_node j : graph_node (graph_ t_ready) j = if decide (j = c) then fuse_attrs n <$> graph_node (graph_ t) j
  else if decide (j = i) then set_in 0 (nhwc_arg_ e) <$> graph_node (graph_ t) j else graph_node (graph_ t) j.
Proof using All.
  change (graph_node (graph_ t_ready) j) with (graph_node (graph_ (t_upd c (fuse_attrs n) (t_upd i (set_in 0 (nhwc_arg_ e)) t))) j). rewrite !t_upd_node.
  destruct (decide (j = c)) as [->|]; [|done]. by rewrite decide_False by exact fb_index.
Qed.

Lemma fb_ready : cinv g0 pre (i :: U) (8 + 5 * length (output_defs n) + budget g0 U) t_ready.
Proof using All.
  destruct Hf as [Hh _ _ _ Hie _ _ _ _ _]. apply cinv_clear, cinv_upd; [|done]. apply (cinv_ents _ _ _ (8 + 5 * length (output_defs n) + budget g0 U)).
  - eapply cinv_set_in; [exact (head_cinv _ _ _ _ _ _ Hh)|apply (hn_node _ _ _ _ _ _ Hh)|done|]. eapply new_not_made; [done|apply (hn_inv _ _ _ _ _ _ Hh)|]. apply (eo_new _ _ _ _ _ fb_entry).
  - change (nhwc_args_ (t_upd _ _ _)) with (nhwc_args_ t). rewrite size_alter_le. lia.
Qed.

Lemma fb_cinv : cinv g0 pre U (budget g0 U) ((t_fuse i n x z e uses t) <| removed_nodes_ := i :: removed_nodes_ t |>).
Proof using All.
  pose proof fb_ready as Hc. apply (cinv_remove g0 pre U (budget g0 U) (t_fuse i n x z e uses t) i (drop i (slot_edges 0 n) i (set_in 0 (nhwc_arg_ e) n))).
  - apply (cinv_ents _ _ _ (8 + 5 * length (output_defs n) + budget g0 U)).
    + apply cinv_drop; [by eapply cinv_tail|]. apply (hn_out _ _ _ _ _ _ (fb_head _ _ _ _ _ _ _ _ Hf)).
    + change (nhwc_args_ (t_drop _ _ _)) with (nhwc_args_ t_ready). pose proof (size_insert_le z (make_NhwcArgument c (nhwc_arg_ e) uses) (nhwc_args_ t_ready)). lia.
  - apply (hn_out _ _ _ _ _ _ (fb_head _ _ _ _ _ _ _ _ Hf)).
  - change (graph_node (graph_ (t_fuse i n x z e uses t)) i) with (graph_node (drop_edges i (slot_edges 0 n) (graph_ t_ready)) i).
    rewrite drop_edges_node, fb_ready_node, decide_False, decide_True, (hn_node _ _ _ _ _ _ (fb_head _ _ _ _ _ _ _ _ Hf)); [done..|]. apply not_eq_sym, fb_index.
  - cbn. rewrite decide_True by done. apply set_eq. intros [[j p] q]. split; [|set_solver]. intros [Hin Hni]%elem_of_difference. exfalso. apply Hni.
    pose proof (fb_head _ _ _ _ _ _ _ _ Hf) as Hh.
    destruct (eo_out _ (ci_edges _ _ _ _ _ (head_cinv _ _ _ _ _ _ Hh)) i n j p q (hn_node _ _ _ _ _ _ Hh) Hin) as (_ & y & _ & _ & Hy & _).
    rewrite (fb_outs _ _ _ _ _ _ _ _ Hf) in Hy. apply list_lookup_singleton_Some in Hy as [-> _]. by apply elem_of_filter.
Qed.

Lemma fb_inv : inv U ((t_fuse i n x z e uses t) <| removed_nodes_ := i :: removed_nodes_ t |>).
Proof using All.
  pose proof (hn_inv _ _ _ _ _ _ (fb_head _ _ _ _ _ _ _ _ Hf)) as Hi. assert (view [] ((t_fuse i n x z e uses t) <| removed_nodes_ := i :: removed_nodes_ t |>) = fuse i (ndef_of nc) (ndef_of n) x z e uses (view [] t)) as Ev
    by exact fb_view.
  assert (linv (fuse i (ndef_of nc) (ndef_of n) x z e uses (view [] t))) as Hl.
  { destruct fb_plain as (_ & _ & Hz). apply linv_fuse; [exact (inputs_old g0 pre order0 Hwf)|exact fb_linv|exact fb_fused|done|apply fb_names; by right|apply fb_uses..]. }
  split.
  - exact fb_cinv.
  - by rewrite Ev.
  - rewrite Ev. eapply refines_trans; [apply (iv_ref _ _ _ _ Hi)|]. eapply (fused_refines names0 O I pooled); [|exact fb_linv|exact Hl|exact fb_fused].
    intros w Hw. apply (wf_interface _ _ _ Hwf). auto.
  - intros j Hj. rewrite Ev. rewrite <- (iv_orig _ _ _ _ Hi j) by (by right). cbn [fuse ls_nodes].
    assert (j <> i) as Hji by (intros ->; by apply (hn_out _ _ _ _ _ _ (fb_head _ _ _ _ _ _ _ _ Hf))). rewrite lookup_delete_ne by done. destruct (decide (j = c)) as [->|Hjc]; [|by rewrite lookup_insert_ne].
    exfalso. destruct fb_conv_view as (Hcv & Eo & _). destruct (orig_outputs g0 pre (i :: U) t c nc (nhwc_arg_ e) Hi) as (m0 & Hm0 & E0); [by right|exact (fb_conv _ _ _ _ _ _ _ _ Hf)|rewrite Eo; by left|].
    apply (eo_new _ _ _ _ _ fb_entry), (wf_args _ _ _ Hwf c m0 _ Hm0). right. rewrite E0, Eo. by left.
  - intros w Hw. by apply (iv_cons _ _ _ _ Hi).
Qed.

Lemma wp_FuseNhwcArgument (Q : unit -> Transformer -> Prop) : Q tt (t_fuse i n x z e uses t) -> wp (FuseNhwcArgument i e) Q t_ready.
Proof using All.
  intros HQ. pose proof (fb_head _ _ _ _ _ _ _ _ Hf) as Hh. pose proof (hn_node _ _ _ _ _ _ Hh) as Hn. destruct fb_conv_view as (_ & Eo & _).
  assert (graph_node (graph_ t_ready) i = Some (set_in 0 (nhwc_arg_ e) n)) as Hi1.
  { rewrite fb_ready_node, decide_False, decide_True, Hn; [done..|]. apply not_eq_sym, fb_index. }
  assert (graph_node (graph_ t_ready) c = Some (fuse_attrs n nc)) as Hc1 by (rewrite fb_ready_node, decide_True, (fb_conv _ _ _ _ _ _ _ _ Hf); done).
  unfold FuseNhwcArgument. apply wp_bind, (wp_RemoveOutputEdges i 0 (set_in 0 (nhwc_arg_ e) n) z); [apply (ci_edges _ _ _ _ _ fb_ready)|done|cbn; by rewrite (fb_outs _ _ _ _ _ _ _ _ Hf)|].
  apply wp_bind, (wp_GetNode_t i (drop i (slot_edges 0 n) i (set_in 0 (nhwc_arg_ e) n))); [cbn [t_drop graph_]; change (graph_ (t_drop i ?D ?s)) with (drop_edges i D (graph_ s)); by rewrite drop_edges_node, Hi1|].
  apply wp_bind. change (output_defs (drop _ _ _ _)) with (output_defs n). rewrite (f_equal (fun l => l !! 0%nat) (fb_outs _ _ _ _ _ _ _ _ Hf) : output_defs n !! 0%nat = Some z). apply wp_ret.
  apply wp_bind, (wp_GetNode_t c (drop i (slot_edges 0 n) c (fuse_attrs n nc))); [change (graph_ (t_drop i ?D ?s)) with (drop_edges i D (graph_ s)); by rewrite drop_edges_node, Hc1|].
  apply wp_bind. change (output_defs (drop _ _ _ _)) with (output_defs nc). rewrite (f_equal (fun l => l !! 0%nat) Eo : output_defs nc !! 0%nat = Some (nhwc_arg_ e)). apply wp_ret, wp_modify.
  change (graph_outputs_ (graph_ t_ready)) with (graph_outputs_ (graph_ t)). rewrite (ci_outputs _ _ _ _ _ (head_cinv _ _ _ _ _ _ Hh)). exact HQ.
Qed.
End fusible.

Lemma wp_FuseMaxPoolWithConv i U t n : head_node i U t n -> op_type_ n = "MaxPool" -> input_edges n = ∅ -> pre = false ->
  wp (FuseMaxPoolWithConv i) (fun fused t' => if fused : bool then inv U t' else t' = t) t.
Proof using All.
  intros Hh Hop Hie Hpre. pose proof (hn_node _ _ _ _ _ _ Hh) as Hn. destruct (head_pool i U t n Hh Hop) as (x & z & Ein & Eout). unfold FuseMaxPoolWithConv.
  apply wp_bind, (wp_GetNode_t i n); [done|]. rewrite (f_equal length Eout : length (output_defs n) = 1%nat). change (negb (1 =? 1)%nat) with false. cbv iota.
  apply wp_bind. rewrite (f_equal (fun l => l !! 0%nat) Ein : input_defs n !! 0%nat = Some x). apply wp_ret, wp_bind, wp_gets. change (nhwc_args_ (id t)) with (nhwc_args_ t).
  destruct (nhwc_args_ t !! x) as [e|] eqn:He; [|by apply wp_ret].
  assert (0 < remaining_original_uses_ e) as Hlive by (apply (entry_live names0 O I pooled (view [] t) i (ndef_of n) (iv_linv _ _ _ _ (hn_inv _ _ _ _ _ _ Hh)) (hn_view _ _ _ _ _ _ Hh) 0 x e); [cbn; by rewrite Ein|done]).
  destruct (eo_node _ _ _ _ _ (inv_ent _ _ _ _ _ (iv_linv _ _ _ _ (hn_inv _ _ _ _ _ _ Hh)) x e He Hlive)) as (m & (_ & _ & nc & Hc & ->)%view_lookup & _).
  apply wp_bind, (wp_GetNode_t (output_node_ e) nc); [done|]. destruct (bool_decide_reflect (op_type_ nc = "QLinearConv_nhwc")) as [Hk|]; [|by apply wp_ret]. cbn [negb orb].
  destruct (Z.ltb_spec 1 (starting_original_uses_ e)) as [|Hs]; [by apply wp_ret|].
  assert (fusible i U t n nc x z e) as Hf by (by split). destruct (fb_plain i U t n nc x z e Hf) as (Hplain & _). rewrite (plain_pool_ok n Hplain). cbn [negb].
  apply wp_bind, wp_set_input_def, wp_bind, wp_consume_use, wp_bind, wp_AddAttribute, wp_bind, wp_AddAttribute, wp_bind, wp_AddAttribute, wp_bind, wp_AddAttribute.
  rewrite !repeated_ints, !t_upd_twice. apply wp_bind. rewrite (f_equal (fun l => l !! 0%nat) Eout : output_defs n !! 0%nat = Some z). apply wp_ret, wp_bind, wp_ClearShape, wp_bind.
  apply (wp_FuseNhwcArgument i U t n nc x z e Hf). apply wp_bind, wp_remove_later, wp_ret. by apply (fb_inv i U t n nc x z e).
Qed.

Lemma wp_TransformMaxPool i U t n : head_node i U t n -> op_type_ n = "MaxPool" -> input_edges n = ∅ -> wp (TransformMaxPool i) (fun _ t' => inv U t') t.
Proof using All.
  intros Hh Hop Hie. unfold TransformMaxPool. apply wp_bind, wp_gets. change (pretraining_pass_ (id t)) with (pretraining_pass_ t).
  pose proof (ci_pre _ _ _ _ _ (head_cinv _ _ _ _ _ _ Hh)) as Ep. apply wp_bind. destruct (pretraining_pass_ t); [apply wp_ret|eapply wp_mono; [by apply (wp_FuseMaxPoolWithConv i U t n)|]].
  - by apply (wp_pool_variant i U t n).
  - intros [] t' Ht'; [by apply wp_ret|]. subst t'. by apply (wp_pool_variant i U t n).
Qed.
End pool.

(** ** Weights *)

Definition t_filter (w w' : string) (T' : TensorProto) (ty : option TypeProto) (gen : Z) (t : Transformer) : Transformer :=
  (t <| graph_ := with_filter w' T' ty gen (graph_ t) |>) <| filters_transposed := <[w := w']> (filters_transposed t) |>.

Lemma constants_with_filter w' T' ty gen g : w' ∉ graph_inputs_including_initializers_ g -> constants (with_filter w' T' ty gen g) = <[w' := T']> (constants g).
Proof.
  intros Hw. unfold constants. cbn. change (CanOverrideInitializer (with_filter w' T' ty gen g)) with (CanOverrideInitializer g). apply map_filter_insert_True. simpl. tauto.
Qed.

Lemma cinv_filter g0 pre C k w w' T' ty gen t : cinv g0 pre C (2 + k) t -> w' ∉ dom (node_args_ (graph_ t)) -> in_s 32 gen -> cinv g0 pre C k (t_filter w w' T' ty gen t).
Proof.
  intros Hc Hw Hg. assert (cinv g0 pre C k (t_arg w' ty (t_gen_arg w' gen t))) as [] by (apply cinv_arg; [by apply cinv_gen_arg|done]). split; try done.
  - by apply (edges_ok_nodes (graph_ (t_arg w' ty (t_gen_arg w' gen t)))).
  - intros v Hv. cbn in Hv. rewrite dom_insert in Hv. apply elem_of_union in Hv as [->%elem_of_singleton|Hv]; [cbn; rewrite dom_insert; set_solver|]. by apply ci_init.
Qed.

(** A transposition of [x]. *)
Lemma cinv_transpose g0 pre C k name x b gen gen' t : cinv g0 pre C (4 + k) t -> b ∉ dom (node_args_ (graph_ t)) -> in_s 32 gen -> in_s 32 gen' -> not_made C t x ->
  cinv g0 pre C k (t_transpose name x b gen gen' t).
Proof.
  intros Hc Hb Hg Hg' Hx. apply cinv_new; try done; [|by intros y ->%list_elem_of_singleton]. apply cinv_arg; [|done]. apply cinv_gen_arg; [|done]. destruct Hc. by split.
Qed.

Lemma view_transpose X name x b gen gen' t : length (nodes_ (graph_ t)) ∉ X ++ removed_nodes_ t ->
  view X (t_transpose name x b gen gen' t) = add_transpose (length (nodes_ (graph_ t))) x b (view X t).
Proof.
  intros HX. unfold t_transpose. rewrite view_new by done. rewrite view_arg. done.
Qed.

Section conv.
Context {V : Type} `{TensorLaws V} (g0 : Graph) (pre : bool) (order0 : list nat) (Hwf : graph_wf g0 pre order0).
Notation names0 := (dom (node_args_ g0)).
Notation O := (graph_outputs_ g0).
Notation I := (graph_inputs_including_initializers_ g0).
Notation pooled := (pool_output g0).
Notation linv := (linv names0 O I pooled).
Notation inv := (inv g0 pre).
Notation head_node := (head_node g0 pre).
Notation t0 := (make_Transformer g0 pre).

(** The state when the reordered weights are there. *)
Record filtered (i : nat) (U : list nat) (t : Transformer) (n : Node) (w w' : string) (W W' : TensorProto) (tf : Transformer) : Prop := {
  fl_cinv : cinv g0 pre (i :: U) (6 + 5 * length (output_defs n) + budget g0 U) tf;
  fl_linv : linv (view [] tf);
  fl_ref : refines O I (view [] t0) (view [] tf);
  fl_nodes : nodes_ (graph_ tf) = nodes_ (graph_ t);
  fl_removed : removed_nodes_ tf = removed_nodes_ t;
  fl_w : constants (graph_ tf) !! w = Some W;
  fl_w' : constants (graph_ tf) !! w' = Some W';
  fl_reord : reordered_weights W W';
  fl_new : w' ∉ names0;
  fl_cons v : v ∈ names0 -> constants (graph_ tf) !! v = constants g0 !! v }.

Lemma conv_weights_constant g ty w W : conv_weights g ty w = Some W -> constants g !! w = Some W /\ length (tp_dims W) = 4%nat.
Proof.
  unfold conv_weights, NodeArgIsConstant, GetInitializedTensor. rewrite GetConstantInitializer_constants. destruct (bool_decide_reflect (is_Some (constants g !! w))) as [[T HT]|]; [|done].
  pose proof HT as [-> _]%constants_lookup. destruct (_ && _) eqn:E; [|done]. intros [= <-]. apply andb_true_iff in E as [_ E%Z.eqb_eq]. split; [done|lia].
Qed.

(** The part of [TransformConv] that finds or makes the reordered weights. *)
Definition nhwc_filter (t : Transformer) (w_arg : string) (conv_W : TensorProto) : M Transformer string :=
  match filters_transposed t !! w_arg with
  | Some a => mret a
  | None =>
    a ← on_graph (reorder_filter w_arg conv_W);
    modify (fun t => t <| filters_transposed := <[w_arg := a]> (filters_transposed t) |>) ;;
    mret a
  end.

Lemma wp_nhwc_filter i U t n w W : head_node i U t n -> w ∈ input_defs n -> constants (graph_ t) !! w = Some W -> length (tp_dims W) = 4%nat ->
  wp (nhwc_filter t w W) (fun w' tf => exists W', filtered i U t n w w' W W' tf) t.
Proof using All.
  intros Hh Hw HW Hdim. pose proof (hn_inv _ _ _ _ _ _ Hh) as Hi. pose proof (iv_linv _ _ _ _ Hi) as Hl. pose proof (head_cinv _ _ _ _ _ _ Hh) as Hc.
  assert (w ∈ names0) as Hw0 by (eapply head_in_names0; [done|exact Hh|by left]). unfold nhwc_filter. destruct (filters_transposed t !! w) as [w'|] eqn:Ef.
  - apply wp_ret. destruct (inv_filt _ _ _ _ _ Hl w w' Ef) as (Hnew & T & W' & HT & HW' & HR). cbn in HT, HW'. rewrite HW in HT. injection HT as <-. exists W'. split; try done.
    + eapply cinv_weaken; [exact Hc|lia].
    + apply (iv_ref _ _ _ _ Hi).
    + apply (iv_cons _ _ _ _ Hi).
  - apply wp_bind, wp_on_graph, wp_reorder_filter; [by eapply cinv_bounded|apply (ci_init _ _ _ _ _ Hc)| |].
    { apply (wf_weights _ _ _ Hwf w W); [|done]. by rewrite <- (iv_cons _ _ _ _ Hi w Hw0). }
    intros w' W' ty gen Hnew Hgen HR. apply wp_bind, wp_modify, wp_ret. exists W'. change (filtered i U t n w w' W W' (t_filter w w' W' ty gen t)).
    assert (w' ∉ names0) as Hnew0 by (intros Hw'; by apply Hnew, (ci_names0 _ _ _ _ _ Hc)).
    assert (w' ∉ graph_inputs_including_initializers_ (graph_ t)) as Hin by (rewrite (ci_inputs _ _ _ _ _ Hc); intros Hw'; by apply Hnew0, (inputs_old g0 pre order0 Hwf)).
    assert (constants (graph_ (t_filter w w' W' ty gen t)) = <[w' := W']> (constants (graph_ t))) as Ecs by (by apply constants_with_filter).
    assert (view [] (t_filter w w' W' ty gen t) = add_filter w w' W' (view [] t)) as Ev.
    { apply lstate_eq; try done. cbn. by rewrite dom_insert_L. }
    assert (w <> w') as Hne by (intros ->; done). split; try done.
    + by apply cinv_filter.
    + rewrite Ev. by eapply (linv_add_filter names0 O I pooled (inputs_old g0 pre order0 Hwf)).
    + rewrite Ev. eapply refines_trans; [apply (iv_ref _ _ _ _ Hi)|]. apply extended_refines; try done. intros v T Hv. cbn. rewrite lookup_insert_ne; [done|]. intros <-.
      apply Hnew. apply (inv_cons _ _ _ _ _ Hl). by eapply elem_of_dom_2.
    + by rewrite Ecs, lookup_insert_ne.
    + by rewrite Ecs, lookup_insert_eq.
    + intros v Hv. rewrite Ecs, lookup_insert_ne by (intros ->; done). by apply (iv_cons _ _ _ _ Hi).
Qed.

(** ** The replacement *)

Section replaced.
Context (i : nat) (U : list nat) (t : Transformer) (n : Node) (Hh : head_node i U t n).
Context (op : string) (wi : nat) (Hk : conv_kind op wi) (Hop : op_type_ n = op).
Context (x w w' : string) (W W' : TensorProto) (Hx : input_defs n !! 0%nat = Some x) (Hw : input_defs n !! wi = Some w).
Context (tf : Transformer) (Hf : filtered i U t n w w' W W' tf) (name : string) (gen : Z) (Hgen : in_s 32 gen).
Notation i' := (length (nodes_ (graph_ tf))).
Notation nw := (set_in wi w' (nhwc_copy name n)).
Notation tc := (t_upd i' (set_in wi w') (t_new (nhwc_copy name n) name gen tf)).
Notation rest := (5 * length (output_defs n) + budget g0 U)%nat.

Lemma fl_node j : graph_node (graph_ tf) j = graph_node (graph_ t) j.
Proof using Hf. unfold graph_node. by rewrite (fl_nodes _ _ _ _ _ _ _ _ _ Hf). Qed.

Lemma fl_not_made v : not_made (i :: U) t v -> not_made (i :: U) tf v.
Proof using Hf. intros Hv c m Hc Hm. rewrite fl_node in Hm. by eapply Hv. Qed.

Lemma fl_view : ls_nodes (view [] tf) = ls_nodes (view [] t).
Proof using Hf. cbn. rewrite (fl_removed _ _ _ _ _ _ _ _ _ Hf). apply view_nodes_ext. intros j _. by rewrite fl_node. Qed.

Lemma fl_head : graph_node (graph_ tf) i = Some n.
Proof using Hf Hh. rewrite fl_node. apply (hn_node _ _ _ _ _ _ Hh). Qed.

Lemma fl_fresh : (i' ∉ U) /\ i' <> i /\ (i' ∉ removed_nodes_ tf) /\ ls_nodes (view [] tf) !! i' = None.
Proof using All. exact (fresh_index g0 pre i U _ tf n (fl_cinv _ _ _ _ _ _ _ _ _ Hf) fl_head). Qed.

Lemma fl_wi : wi <> 0%nat.
Proof using All. clear -Hk. destruct Hk as [[_ ->]|[_ ->]]; done. Qed.

Lemma new_not_made_tf v : v ∉ names0 -> not_made (i :: U) tf v.
Proof using All. intros Hv. apply fl_not_made. eapply new_not_made; [exact Hwf|apply (hn_inv _ _ _ _ _ _ Hh)|done]. Qed.

Lemma input_not_made_tf v : v ∈ input_defs n -> not_made (i :: U) tf v.
Proof using All. intros Hv. apply fl_not_made. eapply head_not_made; [apply (hn_topo _ _ _ _ _ _ Hh)|apply (hn_inv _ _ _ _ _ _ Hh)|apply (hn_node _ _ _ _ _ _ Hh)|done]. Qed.

Lemma tc_new_node : graph_node (graph_ (t_new (nhwc_copy name n) name gen tf)) i' = Some (nhwc_copy name n).
Proof using. by rewrite t_new_node, decide_True. Qed.

Lemma tc_node : graph_node (graph_ tc) i' = Some nw /\ graph_node (graph_ tc) i = Some n.
Proof using All.
  destruct fl_fresh as (_ & Hne & _). split; [by rewrite t_upd_node, decide_True, tc_new_node|]. rewrite t_upd_node, decide_False, t_new_node, decide_False by done. exact fl_head.
Qed.

Lemma tc_not_made v : not_made (i :: U) tf v -> not_made (i :: U) tc v.
Proof using All.
  intros Hv. apply not_made_upd; [done|]. eapply not_made_new; [exact (fl_cinv _ _ _ _ _ _ _ _ _ Hf)|done].
Qed.

Lemma tc_cinv : cinv g0 pre (i :: U) (4 + rest) tc.
Proof using All.
  eapply (cinv_set_in g0 pre (i :: U) (4 + rest)); [|exact tc_new_node|done|].
  - apply cinv_new; try done; [exact (fl_cinv _ _ _ _ _ _ _ _ _ Hf)|]. intros v Hv. by apply input_not_made_tf.
  - eapply not_made_new; [exact (fl_cinv _ _ _ _ _ _ _ _ _ Hf)|]. apply new_not_made_tf, (fl_new _ _ _ _ _ _ _ _ _ Hf).
Qed.

Lemma tc_hidden : i' ∉ [i] ++ removed_nodes_ tf.
Proof using All. destruct fl_fresh as (_ & Hne & Hr & _). intros [E|]%elem_of_cons; done. Qed.

Lemma tc_view : ls_nodes (view [i] tc) = <[i' := ndef_of nw]> (delete i (ls_nodes (view [] tf))).
Proof using All.
  rewrite view_set_in by exact tc_hidden. rewrite view_new by exact tc_hidden. cbn [v_alter v_node ls_nodes]. by rewrite view_hide, alter_insert_eq.
Qed.

(** The uses that the first input gives up, and what [y] is. *)
Lemma conv_uses (a : lstate) (y : string) (E' : gmap string NhwcArgument) : linv a -> ls_nodes a !! i = Some (ndef_of n) ->
  (exists e, ls_ents a !! x = Some e /\ y = nhwc_arg_ e /\ E' = alter used_once x (ls_ents a)) \/ (ls_reord a !! x = Some y /\ E' = ls_ents a) ->
  exists slots, NoDup slots /\ consumed a (ndef_of n) slots E' /\ (forall p, p ∈ slots -> p = 0%nat) /\ (y ∉ names0) /\
    ((exists e, 0%nat ∈ slots /\ ls_ents a !! x = Some e /\ y = nhwc_arg_ e) \/
     (y ∈ ls_names a /\ forall z e, ls_ents a !! z = Some e -> 0 < remaining_original_uses_ e -> nhwc_arg_ e <> y)).
Proof using Hx.
  intros Ha Hia [(e & He & Ey & ->)|[Hreo ->]].
  - exists [0%nat]. split; [apply NoDup_singleton|]. split; [eapply (consumed_cons names0 O I pooled a i); [done..|apply consumed_nil|apply NoDup_singleton|done|by exists e]|].
    split; [by intros p ?%list_elem_of_singleton|]. split; [|left; exists e; split; [by left|done]]. rewrite Ey.
    apply (eo_new _ _ _ _ _ (inv_ent _ _ _ _ a Ha x e He (entry_live _ _ _ _ a i (ndef_of n) Ha Hia 0 x e Hx He))).
  - exists []. split; [by apply NoDup_nil|]. split; [apply consumed_nil|]. split; [by intros p ?%not_elem_of_nil|]. destruct (inv_reord _ _ _ _ a Ha x y Hreo) as (Hnew & k & Hkn). split; [done|].
    right. split; [apply (inv_produces _ _ _ _ a Ha k 0 y); by eexists|]. intros z e He Hz. by eapply reorder_not_variant.
Qed.

(** The end of the transformation: [y] is the new first input. *)
Lemma wp_conv_finish (t1 : Transformer) (a : lstate) (y : string) (E' : gmap string NhwcArgument) base :
  cinv g0 pre (i :: U) rest t1 -> removed_nodes_ t1 = removed_nodes_ tf -> constants (graph_ t1) = constants (graph_ tf) ->
  graph_node (graph_ t1) i = Some n -> graph_node (graph_ t1) i' = Some (set_in 0 y nw) ->
  linv a -> refines O I (view [] tf) a -> (forall j m, ls_nodes (view [] tf) !! j = Some m -> ls_nodes a !! j = Some m) -> ls_nodes a !! i' = None ->
  ls_cons a = constants (graph_ tf) -> view [i] t1 = reshape i i' (ndef_of (set_in 0 y nw)) E' a ->
  (exists e, ls_ents a !! x = Some e /\ y = nhwc_arg_ e /\ E' = alter used_once x (ls_ents a)) \/ (ls_reord a !! x = Some y /\ E' = ls_ents a) ->
  wp (CreateNhwcArgument i i' base ;; remove_later i) (fun _ t' => inv U t') t1.
Proof using All.
  intros Hc Hr1 Hcs1 Hn1 Hn1' Ha Href Hext Hnone Hcs Hv Hin. destruct fl_fresh as (HU & Hne & Hr & _). pose proof (hn_inv _ _ _ _ _ _ Hh) as Hi. pose proof fl_wi as Hwi.
  assert (ls_nodes a !! i = Some (ndef_of n)) as Hia by (apply Hext; rewrite fl_view; apply (hn_view _ _ _ _ _ _ Hh)).
  destruct (hn_ops _ _ _ _ _ _ Hh) as (Hops & _). destruct (Hops op wi Hk Hop) as (_ & Hout1 & Hmax). cbn in Hout1, Hmax.
  assert (forall k, ls_nodes a !! k = Some (transpose_def x y) -> k <> i) as Htr.
  { intros k Hkn ->. rewrite Hia in Hkn. injection Hkn as E _. rewrite Hop in E. destruct Hk as [[-> _]|[-> _]]; done. }
  destruct (conv_uses a y E' Ha Hia Hin) as (slots & Hnd & Hcons & Hsl & Hnew & Hcase).
  assert (replacement g0 pre i i' U t1 a n (set_in 0 y nw) slots E') as Hrp.
  { split; try done.
    - split; [apply (hn_out _ _ _ _ _ _ Hh)|]. by rewrite Hr1.
    - intros o Ho. eapply head_in_names0; eauto.
    - intros v Hv'. eapply head_in_names0; eauto.
    - eapply refines_trans; [apply (fl_ref _ _ _ _ _ _ _ _ _ Hf)|done].
    - intros p v Hp. cbn in Hp. apply list_lookup_insert_Some in Hp as [(<- & <- & _)|[Hp0 Hp]].
      + right. destruct Hcase as [(e & Hs & He & Ey)|[Hnm Hnv]]; [left; exists x, e; done|right; done].
      + apply list_lookup_insert_Some in Hp as [(<- & <- & _)|[_ Hp]]; [right; right|by left]. split; [apply (fl_new _ _ _ _ _ _ _ _ _ Hf)|].
        assert (ls_cons a !! w' = Some W') as Hw' by (rewrite Hcs; apply (fl_w' _ _ _ _ _ _ _ _ _ Hf)).
        split; [apply (inv_cons _ _ _ _ a Ha); by eapply elem_of_dom_2|]. intros z e. by eapply const_not_variant.
    - intros p v ->%Hsl _. exists y. split; [|done]. cbn. apply list_lookup_insert_eq. rewrite length_insert. by apply lookup_lt_Some in Hx.
    - intros j Hj. rewrite <- (iv_orig _ _ _ _ Hi j) by (by right). destruct (ls_nodes (view [] t) !! j) as [m|] eqn:Ej; [apply Hext; by rewrite fl_view|].
      exfalso. destruct (ci_live _ _ _ _ _ (iv_cinv _ _ _ _ Hi) j) as [m Hm]; [by right|]. assert (ls_nodes (view [] t) !! j = Some (ndef_of m)); [|congruence].
      apply view_lookup. split; [apply not_elem_of_nil|]. split; [|by exists m]. intros Hrm. destruct (ci_removed _ _ _ _ _ (iv_cinv _ _ _ _ Hi) j Hrm) as [HC _]. apply HC. by right.
    - intros v Hv'. rewrite Hcs1. by apply (fl_cons _ _ _ _ _ _ _ _ _ Hf). }
  assert (rewired g0 pre [i] i i' U t1 a n (set_in 0 y nw) (ndef_of n) E') as Hrw.
  { eapply replacement_rewired; [exact Hrp|left; exists op, wi; split; [done|cbn; by rewrite Hop]|]. done. }
  apply wp_bind. eapply (wp_finish g0 pre [i] i i' U _ _ _ _ _ _ _ _ Hrw).
  - intros l Hl. eapply (conv_step names0 O I pooled (inputs_old g0 pre order0 Hwf) a i i' (ndef_of n) _ E' l Ha Hl op wi x y w w' W W'); try done.
    + cbn. by rewrite Hop.
    + rewrite Hcs. apply (fl_w _ _ _ _ _ _ _ _ _ Hf).
    + rewrite Hcs. apply (fl_w' _ _ _ _ _ _ _ _ _ Hf).
    + apply (fl_reord _ _ _ _ _ _ _ _ _ Hf).
    + destruct Hin as [(e & He & Ey & _)|[Hreo _]]; [left; by exists e|right]. destruct (inv_reord _ _ _ _ a Ha x y Hreo) as (_ & k & Hkn). exists k. split; [by apply Htr|done].
  - intros t' Hfin. apply wp_remove_later. apply finished_removed in Hfin; [done|]. apply (hn_out _ _ _ _ _ _ Hh).
Qed.
(** The three ways to get the first input. *)
Lemma wp_conv_entry e base : nhwc_args_ tf !! x = Some e ->
  wp (CreateNhwcArgument i i' base ;; remove_later i) (fun _ t' => inv U t') (t_ents (alter used_once x (nhwc_args_ tf)) (t_upd i' (set_in 0 (nhwc_arg_ e)) tc)).
Proof using All.
  intros He. destruct fl_fresh as (HU & Hne & Hr & Hnone). pose proof (fl_linv _ _ _ _ _ _ _ _ _ Hf) as Hl. destruct tc_node as [Htc Htci].
  assert (ls_nodes (view [] tf) !! i = Some (ndef_of n)) as Hia by (rewrite fl_view; apply (hn_view _ _ _ _ _ _ Hh)).
  pose proof (inv_ent _ _ _ _ _ Hl x e He (entry_live _ _ _ _ (view [] tf) i (ndef_of n) Hl Hia 0 x e Hx He)) as Hok.
  eapply (wp_conv_finish _ (view [] tf) (nhwc_arg_ e) (alter used_once x (nhwc_args_ tf))); try done.
  - eapply (cinv_ents _ _ _ (4 + rest)).
    + eapply cinv_set_in; [exact tc_cinv|exact Htc|done|]. apply tc_not_made, new_not_made_tf, (eo_new _ _ _ _ _ Hok).
    + change (nhwc_args_ (t_upd _ _ _)) with (nhwc_args_ tf). rewrite size_alter_le. lia.
  - change (graph_node (graph_ (t_upd i' (set_in 0 (nhwc_arg_ e)) tc)) i = Some n). rewrite t_upd_node, decide_False; done.
  - change (graph_node (graph_ (t_upd i' (set_in 0 (nhwc_arg_ e)) tc)) i' = Some (set_in 0 (nhwc_arg_ e) nw)). by rewrite t_upd_node, decide_True, Htc.
  - apply refines_refl.
  - apply lstate_eq; try done. change (ls_nodes (view [i] (t_ents _ (t_upd i' (set_in 0 (nhwc_arg_ e)) tc)))) with (ls_nodes (view [i] (t_upd i' (set_in 0 (nhwc_arg_ e)) tc))).
    rewrite view_set_in by exact tc_hidden. cbn [v_alter ls_nodes]. rewrite tc_view. cbn [reshape ls_nodes]. by rewrite alter_insert_eq.
  - left. exists e. done.
Qed.

Lemma wp_conv_reordered b base : reorder_inputs_ tf !! x = Some b ->
  wp (CreateNhwcArgument i i' base ;; remove_later i) (fun _ t' => inv U t') (t_upd i' (set_in 0 b) tc).
Proof using All.
  intros Hb. destruct fl_fresh as (HU & Hne & Hr & Hnone). pose proof (fl_linv _ _ _ _ _ _ _ _ _ Hf) as Hl. destruct tc_node as [Htc Htci].
  destruct (inv_reord _ _ _ _ _ Hl x b Hb) as (Hnew & _).
  eapply (wp_conv_finish _ (view [] tf) b (nhwc_args_ tf)); try done.
  - eapply cinv_weaken; [eapply cinv_set_in; [exact tc_cinv|exact Htc|done|]|lia]. by apply tc_not_made, new_not_made_tf.
  - by rewrite t_upd_node, decide_False.
  - by rewrite t_upd_node, decide_True, Htc.
  - apply refines_refl.
  - apply lstate_eq; try done. rewrite view_set_in by exact tc_hidden. cbn [v_alter ls_nodes]. rewrite tc_view. cbn [reshape ls_nodes]. by rewrite alter_insert_eq.
  - by right.
Qed.

Lemma wp_conv_transposed nm b g1 g2 base : nhwc_args_ tf !! x = None -> b ∉ dom (node_args_ (graph_ tf)) -> in_s 32 g1 -> in_s 32 g2 ->
  wp (CreateNhwcArgument i i' base ;; remove_later i) (fun _ t' => inv U t') (t_upd i' (set_in 0 b) (t_transpose nm x b g1 g2 tc)).
Proof using All.
  intros He Hb Hg1 Hg2. destruct fl_fresh as (HU & Hne & Hr & Hnone). pose proof (fl_linv _ _ _ _ _ _ _ _ _ Hf) as Hl. destruct tc_node as [Htc Htci].
  assert (b ∉ names0) as Hnew by (intros ?; by apply Hb, (ci_names0 _ _ _ _ _ (fl_cinv _ _ _ _ _ _ _ _ _ Hf))).
  destruct (fresh_index g0 pre i U _ tc n tc_cinv Htci) as (HjU & Hji & Hjr & _). set (j := length (nodes_ (graph_ tc))) in *.
  assert (forall k, graph_node (graph_ (t_transpose nm x b g1 g2 tc)) k = if decide (k = j) then Some (transpose_node nm x b) else graph_node (graph_ tc) k) as Htr by (intros k; exact (t_new_node (transpose_node nm x b) nm g2 (t_arg b None (t_gen_arg b g1 (tc <| reorder_inputs_ := <[x := b]> (reorder_inputs_ tc) |>))) k)).
  assert (i' <> j) as Hij by (unfold j; cbn; rewrite length_alter, length_app; simpl; lia).
  assert (cinv g0 pre (i :: U) rest (t_transpose nm x b g1 g2 tc)) as Hct.
  { apply cinv_transpose; try done; [exact tc_cinv|]. apply tc_not_made, input_not_made_tf. by apply list_elem_of_lookup_2 in Hx. }
  assert (ls_nodes (view [] tf) !! j = None) as Hjn.
  { destruct (ls_nodes (view [] tf) !! j) as [m|] eqn:E; [|done]. apply view_lookup in E as (_ & _ & m' & Hm & _). exfalso. assert (is_Some (graph_node (graph_ tc) j)) as [? E']; [|by unfold j in E'; rewrite graph_node_new in E'].
    rewrite t_upd_node, decide_False, t_new_node, decide_False by done. by exists m'. }
  eapply (wp_conv_finish _ (add_transpose j x b (view [] tf)) b (nhwc_args_ tf)); try done.
  - eapply cinv_set_in; [exact Hct|rewrite Htr, decide_False by done; exact Htc|done|]. intros c m HC Hm. rewrite Htr, decide_False in Hm by (intros ->; by apply elem_of_cons in HC as [|]).
    by apply (tc_not_made b (new_not_made_tf b Hnew) c m).
  - rewrite t_upd_node, decide_False, Htr, decide_False; done.
  - by rewrite t_upd_node, decide_True, Htr, decide_False, Htc.
  - apply (linv_add_transpose names0 O I pooled (inputs_old g0 pre order0 Hwf)); try done. eapply head_in_names0; [done|exact Hh|]. left. by apply list_elem_of_lookup_2 in Hx.
  - apply extended_refines; try done. intros k m Hm. cbn [add_transpose ls_nodes]. rewrite lookup_insert_ne; [done|]. intros E. by rewrite <- E, Hjn in Hm.
  - intros k m Hm. cbn [add_transpose ls_nodes]. rewrite lookup_insert_ne; [done|]. intros E. by rewrite <- E, Hjn in Hm.
  - cbn [add_transpose ls_nodes]. by rewrite lookup_insert_ne.
  - rewrite view_set_in by exact tc_hidden. rewrite view_transpose by (intros [E|]%elem_of_cons; done). apply lstate_eq; try done.
    cbn [v_alter add_transpose ls_nodes reshape]. fold j. rewrite alter_insert_ne by done. rewrite tc_view, alter_insert_eq, delete_insert_ne by done. by apply insert_insert_ne.
  - right. split; [|done]. cbn. by rewrite lookup_insert_eq.
Qed.
End replaced.

Lemma wp_TransformConv op ty wi bi i U t n : conv_kind op wi -> bi <> wi -> head_node i U t n -> op_type_ n = op -> wp (TransformConv ty i wi bi) (fun _ t' => inv U t') t.
Proof using All.
  intros Hk Hbi Hh Hop. pose proof (hn_node _ _ _ _ _ _ Hh) as Hn. unfold TransformConv. apply wp_bind, (wp_GetNode_t i n); [done|]. apply wp_bind, wp_gets.
  destruct (ShouldTransform (id t) n); cbn [negb]; [|by apply wp_ret, (head_tail _ _ i U t n)]. change (graph_ (id t)) with (graph_ t). change (filters_transposed (id t)) with (filters_transposed t).
  destruct (hn_ops _ _ _ _ _ _ Hh) as (Hops & _). destruct (Hops op wi Hk Hop) as (Hins & Houts & _). cbn in Hins, Houts.
  destruct (lookup_lt_is_Some_2 (input_defs n) wi Hins) as [w Hw]. destruct (lookup_lt_is_Some_2 (input_defs n) 0) as [x Hx]; [lia|]. destruct (lookup_lt_is_Some_2 (output_defs n) 0) as [z Hz]; [lia|].
  apply wp_bind. rewrite Hw. apply wp_ret. destruct (conv_weights (graph_ t) ty w) as [W|] eqn:EW; [|by apply wp_ret, (head_tail _ _ i U t n)]. apply conv_weights_constant in EW as [HW Hdim].
  apply wp_bind. eapply wp_mono; [apply (wp_nhwc_filter i U t n w W Hh); [by apply list_elem_of_lookup_2 in Hw|done..]|]. intros w' tf (W' & Hf).
  apply wp_bind, (wp_add_replacement g0 pre (i :: U) (4 + 5 * length (output_defs n) + budget g0 U)); [exact (fl_cinv _ _ _ _ _ _ _ _ _ Hf)| |].
  { intros y Hy. apply (ci_names0 _ _ _ _ _ (fl_cinv _ _ _ _ _ _ _ _ _ Hf)). by eapply head_in_names0. }
  intros name gen Hgen. apply wp_bind, wp_set_input_def. set (i' := length (nodes_ (graph_ tf))). fold (nhwc_copy name n). set (tc := t_upd i' (set_in wi w') _).
  destruct (tc_node i U t n Hh op wi Hk Hop x w w' W W' Hx Hw tf Hf name gen Hgen) as [Htc Htci]. fold i' tc in Htc, Htci.
  apply wp_bind. assert (forall Q : unit -> Transformer -> Prop, Q tt tc -> wp (when (bool_decide (length (input_defs n) = bi + 1)%nat)
    (b ← of_option Undefined (input_defs n !! bi); on_graph (set_input_def i' bi b))) Q tc) as Hbias.
  { intros Q HQ. destruct (bool_decide_reflect (length (input_defs n) = bi + 1)%nat) as [Hlen|]; cbn [when]; [|by apply wp_ret].
    destruct (lookup_lt_is_Some_2 (input_defs n) bi) as [b Hb]; [lia|]. apply wp_bind. rewrite Hb. apply wp_ret, wp_set_input_def. rewrite (t_upd_id _ _ _ _ Htc); [done|].
    unfold set_in, set_field. cbn. f_equal. apply list_insert_id. rewrite list_lookup_insert_ne; done. }
  apply Hbias, wp_bind. rewrite Hx. apply wp_ret, wp_bind, wp_gets. change (nhwc_args_ (id tc)) with (nhwc_args_ tf). apply wp_bind. destruct (nhwc_args_ tf !! x) as [e|] eqn:He.
  - apply wp_bind, wp_set_input_def, wp_consume_use, wp_bind. rewrite Hz. apply wp_ret. by apply (wp_conv_entry i U t n Hh op wi Hk Hop x w w' W W' Hx Hw tf Hf name gen Hgen e).
  - eapply (wp_InsertReorderInput g0 pre (i :: U) _ i' _ x); [exact (tc_cinv i U t n Hh op wi Hk Hop x w w' W W' Hx Hw tf Hf name gen Hgen)|exact Htc| | |..].
    + cbn. rewrite list_lookup_insert_ne; [done|]. by destruct Hk as [[_ ->]|[_ ->]].
    + change (node_args_ (graph_ tc)) with (node_args_ (graph_ tf)). apply (ci_names0 _ _ _ _ _ (fl_cinv _ _ _ _ _ _ _ _ _ Hf)). eapply head_in_names0; [done|exact Hh|]. left. by apply list_elem_of_lookup_2 in Hx.
    + intros b Hb. apply wp_bind. rewrite Hz. apply wp_ret. by apply (wp_conv_reordered i U t n Hh op wi Hk Hop x w w' W W' Hx Hw tf Hf name gen Hgen b).
    + intros nm b g1 g2 _ Hb Hg1 Hg2. apply wp_bind. rewrite Hz. apply wp_ret. by apply (wp_conv_transposed i U t n Hh op wi Hk Hop x w w' W W' Hx Hw tf Hf name gen Hgen nm b g1 g2).
Qed.
End conv.
