(* ===== verification/TransformerPass.v ===== *)
(** * TransformerPass: the pass over the nodes and its end

    [Transform] keeps the invariant for every kind of node, and the invariant holds at the
    start, so it holds when all nodes have been visited.  [Finalize] then adds the
    transpositions that are still missing and removes the nodes that have been replaced;
    neither throws. *)

From stdpp Require Import strings pretty.
From S2P Require Import Prelude Effects Tensor Graph GraphSpec NhwcTransformer LayoutGraph FilterSpec LayoutSteps LayoutInvariant LayoutConvert TransformerState TransformerOps TransformerEdges TransformerCalls TransformerStep TransformerNodes TransformerReplace.

Section loop.
Context {V : Type} `{TensorLaws V} (g0 : Graph) (pre : bool) (order0 : list nat) (Hwf : graph_wf g0 pre order0).
Notation inv := (inv g0 pre).
Notation t0 := (make_Transformer g0 pre).

Lemma wp_Transform i U t : inv (i :: U) t -> topo g0 (i :: U) -> i ∉ U -> wp (Transform i) (fun _ t' => inv U t') t.
Proof using All.
  intros Hv Ht Hi. destruct (head_intro g0 pre order0 Hwf i U t Hv Ht Hi) as [n Hh]. pose proof (head_tail _ _ _ _ _ _ Hh) as Hstay. unfold Transform.
  apply wp_bind, (wp_GetNode_t i n); [apply (hn_node _ _ _ _ _ _ Hh)|].
  case_bool_decide as Eq; [eapply (wp_TransformConv g0 pre order0 Hwf "QLinearConv"); [by left|done..]|].
  case_bool_decide as Ec; [eapply (wp_TransformConv g0 pre order0 Hwf "Conv"); [by right|done..]|].
  case_bool_decide as He; cbn [andb]; [|by apply wp_ret]. apply size_empty_inv, leibniz_equiv in He. destruct (negb _); [|by apply wp_ret].
  case_bool_decide as Er; [by apply (wp_TransformPassThrough g0 pre order0 Hwf i U t n)|].
  case_bool_decide as Ea; [by apply (wp_TransformQLinearAdd g0 pre order0 Hwf i U t n)|].
  case_bool_decide as Em; [by apply (wp_TransformMaxPool g0 pre order0 Hwf i U t n)|by apply wp_ret].
Qed.

Lemma wp_Transform_all U t : inv U t -> topo g0 U -> NoDup U -> wp (for_list Transform U) (fun _ t' => inv [] t') t.
Proof using All.
  revert t. induction U as [|i U IH]; intros t Hv Ht Hnd; simpl; [by apply wp_ret|]. apply NoDup_cons in Hnd as [Hi Hnd].
  apply wp_bind. eapply wp_mono; [by apply wp_Transform|]. intros [] t' Ht'. apply IH; [done|apply Ht|done].
Qed.

(** ** The start *)

Lemma cinv_start : cinv g0 pre order0 (budget g0 order0) t0.
Proof using Hwf.
  destruct Hwf. split; try done.
  - intros i _ n j m p q x Hn Hp Hm _ Hq. by eapply wf_complete.
  - intros i Hi. by apply not_elem_of_nil in Hi.
  - intros w Hw. apply wf_interface. auto.
Qed.

Lemma view_start i m : ls_nodes (view [] t0) !! i = Some m <-> exists n, graph_node g0 i = Some n /\ m = ndef_of n.
Proof using. rewrite view_lookup. split; [tauto|]. intros Hn. split; [apply not_elem_of_nil|]. split; [apply not_elem_of_nil|done]. Qed.

Lemma linv_start : linv (dom (node_args_ g0)) (graph_outputs_ g0) (graph_inputs_including_initializers_ g0) (pool_output g0) (view [] t0).
Proof using Hwf.
  assert (forall x : string, x ∈ dom (constants g0) -> x ∈ dom (name_to_initial_tensor_ g0)) as Hcons.
  { intros x [T HT]%elem_of_dom. apply constants_lookup in HT as [HT _]. by eapply elem_of_dom_2. }
  split; try done.
  - intros i p x (m & (n & Hn & ->)%view_start & Hx). apply (wf_args _ _ _ Hwf i n x Hn). left. by eapply list_elem_of_lookup_2.
  - intros i p x (m & (n & Hn & ->)%view_start & Hx). apply (wf_args _ _ _ Hwf i n x Hn). right. by eapply list_elem_of_lookup_2.
  - intros i p j q x (m & (n & Hn & ->)%view_start & Hx) (m' & (n' & Hn' & ->)%view_start & Hx'). by eapply (wf_ssa _ _ _ Hwf).
  - intros i p x Hx (m & (n & Hn & ->)%view_start & Hp). apply (wf_ext _ _ _ Hwf i n x); [|done|by eapply list_elem_of_lookup_2]. destruct Hx as [|Hx]; [by left|right; by apply Hcons].
  - intros x Hx. apply (wf_interface _ _ _ Hwf). right; right. by apply Hcons.
Qed.

Lemma inv_start : inv order0 t0.
Proof using Hwf.
  split.
  - exact cinv_start.
  - exact linv_start.
  - apply refines_refl.
  - intros i _. destruct (ls_nodes (view [] t0) !! i) as [m|] eqn:E.
    + apply view_start in E as (n & -> & ->). done.
    + destruct (graph_node g0 i) as [n|] eqn:En; [|done]. rewrite (proj2 (view_start i (ndef_of n))) in E; [done|by exists n].
  - done.
Qed.
End loop.

(** ** Transpositions back to NCHW *)

Definition back_def (y x : string) : ndef := {| nd_op := "Transpose"; nd_ins := [y]; nd_outs := [x]; nd_attrs := {[ "perm" := perm_attr [0; 3; 1; 2] ]} |}.

Definition still_used (p : string * NhwcArgument) : Prop := 0 < remaining_original_uses_ (snd p).
#[export] Instance still_used_dec p : Decision (still_used p).
Proof. unfold still_used. apply _. Defined.

Definition back_of (p : string * NhwcArgument) : ndef := back_def (nhwc_arg_ (snd p)) (fst p).

(** A node without edges. *)
Definition loose (n : Node) : Prop := input_edges n = ∅ /\ output_edges n = ∅.

(** The graph with nodes [bl] more. *)
Record extended (g : Graph) (bl : list Node) (g' : Graph) : Prop := {
  ex_nodes : nodes_ g' = nodes_ g ++ (Some <$> bl);
  ex_loose n : n ∈ bl -> loose n;
  ex_args : node_args_ g' = node_args_ g;
  ex_init : name_to_initial_tensor_ g' = name_to_initial_tensor_ g;
  ex_inputs : graph_inputs_including_initializers_ g' = graph_inputs_including_initializers_ g;
  ex_outputs : graph_outputs_ g' = graph_outputs_ g;
  ex_ir : ir_version_ g' = ir_version_ g;
  ex_gen : in_s 32 (name_generator_ g');
  ex_gen_args : generated_node_arg_names_ g' = generated_node_arg_names_ g;
  ex_names : (size (generated_node_names_ g') <= length bl + size (generated_node_names_ g))%nat }.

(** There is room for [k] more nodes. *)
Definition room (k : nat) (g : Graph) : Prop :=
  Z.of_nat (length (nodes_ g) + size (generated_node_names_ g) + size (node_args_ g) + size (generated_node_arg_names_ g) + 2 * k) < 2 ^ 31 - 1.

Lemma extended_room g bl g' k : extended g bl g' -> room (length bl + S k) g -> names_bounded g' /\ Z.of_nat (length (nodes_ g')) < 2 ^ 31 - 1.
Proof.
  intros [En _ Ea _ _ _ _ Hg Eg Hs] Hr. unfold room, names_bounded in *. rewrite En, Ea, Eg, length_app, length_fmap. split_and!; [done|lia..].
Qed.

Lemma wp_reorder_output p g bl g' (Q : unit -> Graph -> Prop) : extended g bl g' -> room (S (length bl)) g ->
  nhwc_arg_ (snd p) ∈ dom (node_args_ g) -> fst p ∈ dom (node_args_ g) ->
  (forall bl' g'', extended g bl' g'' -> ndef_of <$> bl' = (ndef_of <$> bl) ++ (back_of <$> filter still_used [p]) -> Q tt g'') ->
  wp (reorder_output p) Q g'.
Proof.
  intros He Hr Ha Hx HQ. destruct (extended_room g bl g' 0 He) as [Hb Hl]; [by rewrite Nat.add_1_r|]. unfold reorder_output. destruct (Z.ltb_spec 0 (remaining_original_uses_ (snd p))) as [Hu|Hu].
  - apply wp_bind, wp_GenerateNodeName; [done|]. intros name gen Hgen. apply wp_bind, wp_AddNode; [|done|].
    { cbn. rewrite (ex_args _ _ _ He). by intros x [->%list_elem_of_singleton| ->%list_elem_of_singleton]. }
    apply wp_bind, wp_modify, wp_modify.
    set (n := plain_node name "Transpose" [nhwc_arg_ (snd p)] [fst p] {[ "perm" := perm_attr [0; 3; 1; 2] ]} kCpuExecutionProvider). apply (HQ (bl ++ [n])).
    + destruct He as [En Hl' Ea Ei Ein Eo Eir Hg Eg Hs]. split; try done.
      * cbn. rewrite !alter_app_r_alt by (rewrite ?length_app; lia). rewrite Nat.sub_diag. cbn. by rewrite fmap_app, app_assoc, En.
      * intros m [Hm| ->%list_elem_of_singleton]%elem_of_app; [by apply Hl'|done].
      * cbn. pose proof (size_add_le name (generated_node_names_ g')). rewrite length_app. simpl. lia.
    + rewrite fmap_app. f_equal. rewrite filter_cons_True by done. done.
  - apply wp_ret, (HQ bl); [done|]. rewrite filter_cons_False by (unfold still_used; lia). by rewrite app_nil_r.
Qed.

Lemma wp_reorder_outputs L : forall g bl g' (Q : unit -> Graph -> Prop), extended g bl g' -> room (length bl + length L) g ->
  (forall p, p ∈ L -> nhwc_arg_ (snd p) ∈ dom (node_args_ g) /\ fst p ∈ dom (node_args_ g)) ->
  (forall bl' g'', extended g bl' g'' -> ndef_of <$> bl' = (ndef_of <$> bl) ++ (back_of <$> filter still_used L) -> Q tt g'') ->
  wp (for_list reorder_output L) Q g'.
Proof.
  induction L as [|p L IH]; intros g bl g' Q He Hr Hargs HQ; simpl.
  - apply wp_ret, (HQ bl); [done|]. by rewrite app_nil_r.
  - destruct (Hargs p) as [Ha Hx]; [by left|]. apply wp_bind, (wp_reorder_output p g bl); [done| |done..|].
    { unfold room in *. simpl in Hr. lia. }
    intros bl' g'' He' Eb. apply (IH g bl'); [done| |intros q Hq; apply Hargs; by right|].
    + assert (length bl' <= S (length bl))%nat; [|unfold room in *; simpl in Hr; lia]. apply (f_equal length) in Eb. rewrite length_app, !length_fmap in Eb.
      pose proof (length_filter still_used [p]). simpl in *. lia.
    + intros bl'' g3 He3 Eb3. apply (HQ bl''); [done|]. rewrite Eb3, Eb, <- app_assoc, <- fmap_app, <- filter_app. done.
Qed.

Lemma wp_on_graph_list {X} (f : X -> M Graph unit) L (Q : unit -> Transformer -> Prop) t :
  wp (for_list f L) (fun a g => Q a (t <| graph_ := g |>)) (graph_ t) -> wp (for_list (fun p => on_graph (f p)) L) Q t.
Proof.
  revert t. induction L as [|p L IH]; intros t Hw; simpl in *; [by destruct t|]. apply wp_bind, wp_on_graph. apply wp_bind_inv in Hw. eapply wp_mono; [exact Hw|].
  intros [] g Hg. by apply IH.
Qed.

(** ** Removing nodes *)

(** [g'] is [g] with fewer edges, without the nodes [R]. *)
Record thinner (R : list nat) (g g' : Graph) : Prop := {
  th_edges : edges_ok g';
  th_len : length (nodes_ g') = length (nodes_ g);
  th_gone i : i ∈ R -> graph_node g' i = None;
  th_kept i n : i ∉ R -> graph_node g i = Some n -> exists n', graph_node g' i = Some n' /\ ndef_of n' = ndef_of n /\ output_edges n' ⊆ output_edges n;
  th_from i n' : graph_node g' i = Some n' -> (i ∉ R) /\ exists n, graph_node g i = Some n /\ ndef_of n' = ndef_of n;
  th_args : node_args_ g' = node_args_ g;
  th_init : name_to_initial_tensor_ g' = name_to_initial_tensor_ g;
  th_inputs : graph_inputs_including_initializers_ g' = graph_inputs_including_initializers_ g;
  th_outputs : graph_outputs_ g' = graph_outputs_ g;
  th_ir : ir_version_ g' = ir_version_ g }.

Lemma thinner_refl g : edges_ok g -> thinner [] g g.
Proof. intros He. split; try done; [by intros i ?%not_elem_of_nil|by intros i n _ Hn; exists n|]. intros i n Hn. split; [apply not_elem_of_nil|by exists n]. Qed.

Lemma thinner_trans R R' g g' g'' : thinner R g g' -> thinner R' g' g'' -> thinner (R' ++ R) g g''.
Proof.
  intros H1 H2. split.
  - apply (th_edges _ _ _ H2).
  - rewrite (th_len _ _ _ H2). apply (th_len _ _ _ H1).
  - intros i [Hi|Hi]%elem_of_app; [by apply (th_gone _ _ _ H2)|]. destruct (graph_node g'' i) as [n|] eqn:E; [|done]. destruct (th_from _ _ _ H2 i n E) as (_ & m & Hm & _).
    by rewrite (th_gone _ _ _ H1 i Hi) in Hm.
  - intros i n Hi Hn. rewrite elem_of_app in Hi. destruct (th_kept _ _ _ H1 i n) as (n' & Hn' & E' & Hs'); [tauto|done|].
    destruct (th_kept _ _ _ H2 i n') as (n'' & Hn'' & E'' & Hs''); [tauto|done|]. exists n''. split_and!; [done|congruence|set_solver].
  - intros i n Hn. destruct (th_from _ _ _ H2 i n Hn) as (Hi & m & Hm & E). destruct (th_from _ _ _ H1 i m Hm) as (Hi' & m' & Hm' & E'). rewrite elem_of_app.
    split; [tauto|]. exists m'. split; [done|congruence].
  - rewrite (th_args _ _ _ H2). apply (th_args _ _ _ H1).
  - rewrite (th_init _ _ _ H2). apply (th_init _ _ _ H1).
  - rewrite (th_inputs _ _ _ H2). apply (th_inputs _ _ _ H1).
  - rewrite (th_outputs _ _ _ H2). apply (th_outputs _ _ _ H1).
  - rewrite (th_ir _ _ _ H2). apply (th_ir _ _ _ H1).
Qed.

Lemma thinner_drop a D g : edges_ok g -> thinner [] g (drop_edges a D g).
Proof.
  intros He. split; try done.
  - by apply edges_ok_drop.
  - cbn. apply length_imap.
  - by intros i ?%not_elem_of_nil.
  - intros i n _ Hn. exists (drop a D i n). rewrite drop_edges_node, Hn. split_and!; [done..|]. cbn. case_decide; set_solver.
  - intros i n' Hn. split; [apply not_elem_of_nil|]. rewrite drop_edges_node in Hn. destruct (graph_node g i) as [n|]; [|done]. injection Hn as <-. by exists n.
Qed.

(** Taking the edges [L] into node [i] off. *)
Lemma wp_remove_inputs i L : forall g n (Q : unit -> Graph -> Prop), edges_ok g -> graph_node g i = Some n -> NoDup L -> (forall e, e ∈ L -> e ∈ input_edges n) ->
  (forall g' n', thinner [] g g' -> graph_node g' i = Some n' -> (forall e, e ∈ input_edges n' <-> e ∈ input_edges n /\ e ∉ L) -> Q tt g') ->
  wp (for_list (fun e : EdgeEnd => RemoveEdge e.1.1 i e.1.2 e.2) L) Q g.
Proof.
  induction L as [|[[a p] q] L IH]; intros g n Q He Hn Hnd HL HQ; simpl.
  - apply wp_ret, (HQ g n); [by apply thinner_refl|done|]. intros e. split; [|tauto]. intros Hin. split; [done|apply not_elem_of_nil].
  - apply NoDup_cons in Hnd as [Hni Hnd]. destruct (eo_in g He i n a p q Hn) as (m & Hm & Hout); [apply HL; by left|].
    destruct (eo_out g He a m i p q Hm Hout) as (n1 & x & Hn1 & _ & Hx & Hq). rewrite Hn in Hn1. injection Hn1 as <-.
    apply wp_bind, (wp_RemoveEdge a i p q m n x); [done..|]. set (D := {[ (i, p, q) ]} : gset EdgeEnd).
    assert (forall e, e ∈ input_edges (drop a D i n) <-> e ∈ input_edges n /\ e <> (a, p, q)) as Hd.
    { intros [[b r] s]. cbn. rewrite elem_of_filter. unfold D. rewrite elem_of_singleton. simpl. naive_solver. }
    apply (IH _ (drop a D i n)); [by apply edges_ok_drop|by rewrite drop_edges_node, Hn|done| |].
    { intros e Hin. apply Hd. split; [apply HL; by right|]. intros ->. done. }
    intros g' n' Hth Hn' Hin. apply (HQ g' n'); [|done|].
    + pose proof (thinner_trans _ _ _ _ _ (thinner_drop a D g He) Hth) as Ht. by rewrite app_nil_r in Ht.
    + intros e. rewrite Hin, Hd, not_elem_of_cons. tauto.
Qed.

Lemma thinner_delete g i n : edges_ok g -> graph_node g i = Some n -> loose n ->
  thinner [i] g ((g <| nodes_ := <[i := None]> (nodes_ g) |>) <| num_of_nodes_ := num_of_nodes_ g - 1 |>).
Proof.
  intros He Hn [Hi Ho]. assert (forall j, graph_node ((g <| nodes_ := <[i := None]> (nodes_ g) |>) <| num_of_nodes_ := num_of_nodes_ g - 1 |>) j =
    if decide (j = i) then None else graph_node g j) as Hnode.
  { intros j. unfold graph_node. cbn. case_decide as E; [|by rewrite list_lookup_insert_ne by done]. subst j. unfold graph_node in Hn. destruct (nodes_ g !! i) as [o|] eqn:Eo; [|done].
    by rewrite list_lookup_insert_eq by (by apply lookup_lt_Some in Eo). }
  split; try done.
  - split.
    + intros a m j p q Hm Hj. rewrite Hnode in Hm. case_decide; [done|]. destruct (eo_out g He a m j p q Hm Hj) as (m2 & x & Hm2 & H1 & H2 & H3). exists m2, x.
      split_and!; try done. rewrite Hnode. case_decide as E; [|done]. subst j. rewrite Hn in Hm2. injection Hm2 as <-. rewrite Hi in H1. set_solver.
    + intros j m a p q Hm Hj. rewrite Hnode in Hm. case_decide; [done|]. destruct (eo_in g He j m a p q Hm Hj) as (m2 & Hm2 & H1). exists m2. split; [|done].
      rewrite Hnode. case_decide as E; [|done]. subst a. rewrite Hn in Hm2. injection Hm2 as <-. rewrite Ho in H1. set_solver.
  - cbn. apply length_insert.
  - intros j ->%list_elem_of_singleton. by rewrite Hnode, decide_True.
  - intros j m Hj Hm. exists m. rewrite Hnode, decide_False; [done|]. intros ->. apply Hj. by left.
  - intros j m Hm. rewrite Hnode in Hm. case_decide; [done|]. split; [|by exists m]. by intros ?%list_elem_of_singleton.
Qed.

(** A node without readers can be removed. *)
Lemma wp_RemoveNode i g n (Q : unit -> Graph -> Prop) : edges_ok g -> graph_node g i = Some n -> output_edges n = ∅ ->
  (forall g', thinner [i] g g' -> Q tt g') -> wp (RemoveNode i ;; mret tt) Q g.
Proof.
  intros He Hn Ho HQ. unfold RemoveNode. apply wp_bind, wp_bind, wp_gets, wp_bind, wp_check.
  { apply bool_decide_true. unfold graph_node in Hn. destruct (nodes_ g !! i) eqn:E; [by apply lookup_lt_Some in E|done]. }
  unfold id. rewrite Hn. apply wp_bind, wp_check; [apply bool_decide_true; by rewrite Ho, size_empty|]. apply wp_bind.
  apply (wp_remove_inputs i _ g n); [done|done|apply NoDup_elements|intros e; apply elem_of_elements|]. intros g' n' Hth Hn' Hin.
  apply wp_bind, wp_modify, wp_ret, wp_ret, HQ. destruct (th_kept _ _ _ Hth i n) as (n2 & Hn2 & _ & Hs); [apply not_elem_of_nil|done|]. rewrite Hn' in Hn2. injection Hn2 as <-.
  assert (loose n') as Hl.
  { split; [|set_solver]. apply set_eq. intros e. rewrite Hin, elem_of_elements. set_solver. }
  exact (thinner_trans _ _ _ _ _ Hth (thinner_delete g' i n' (th_edges _ _ _ Hth) Hn' Hl)).
Qed.

Lemma wp_RemoveNodes R : forall g (Q : unit -> Graph -> Prop), edges_ok g -> (forall i, i ∈ R -> (i < length (nodes_ g))%nat) ->
  (forall i n, i ∈ R -> graph_node g i = Some n -> output_edges n = ∅) ->
  (forall g' R', (forall i, i ∈ R' <-> i ∈ R /\ is_Some (graph_node g i)) -> thinner R' g g' -> Q tt g') -> wp (for_list (fun i => RemoveNode i ;; mret tt) R) Q g.
Proof.
  induction R as [|i R IH]; intros g Q He Hlt Hout HQ; simpl.
  - apply wp_ret, (HQ g []); [|by apply thinner_refl]. intros i. split; [by intros ?%not_elem_of_nil|by intros [?%not_elem_of_nil _]].
  - apply wp_bind. destruct (graph_node g i) as [n|] eqn:Hn.
    + apply (wp_RemoveNode i g n); [done..|by apply (Hout i n); [left|]|]. intros g1 Hth. apply IH.
      * apply (th_edges _ _ _ Hth).
      * intros j Hj. rewrite (th_len _ _ _ Hth). apply Hlt. by right.
      * intros j m Hj Hm. destruct (th_from _ _ _ Hth j m Hm) as (Hji & m0 & Hm0 & _). destruct (th_kept _ _ _ Hth j m0 Hji Hm0) as (m1 & Hm1 & _ & Hs).
        rewrite Hm in Hm1. injection Hm1 as <-. pose proof (Hout j m0 ltac:(by right) Hm0) as E. rewrite E in Hs. set_solver.
      * intros g' R' HR' Hth'. apply (HQ g' (R' ++ [i])); [|by eapply thinner_trans]. intros j. rewrite elem_of_app, HR', list_elem_of_singleton, elem_of_cons. split.
        -- intros [[Hj [m Hm]]| ->]; [|split; [by left|by exists n]]. destruct (th_from _ _ _ Hth j m Hm) as (_ & m0 & Hm0 & _). split; [by right|by exists m0].
        -- intros [[->|Hj] [m Hm]]; [by right|]. destruct (decide (j = i)) as [->|Hji]; [by right|left]. split; [done|].
           destruct (th_kept _ _ _ Hth j m) as (m' & Hm' & _); [by intros ?%list_elem_of_singleton|done|by exists m'].
    + unfold RemoveNode. apply wp_bind, wp_bind, wp_gets, wp_bind, wp_check; [apply bool_decide_true, Hlt; by left|]. unfold id. rewrite Hn. apply wp_ret, wp_ret, IH; [done|..].
      * intros j Hj. apply Hlt. by right.
      * intros j m Hj. apply Hout. by right.
      * intros g' R' HR' Hth'. apply (HQ g' R'); [|done]. intros j. rewrite HR', elem_of_cons. split; [tauto|]. intros [[->|Hj] Hs]; [|done]. rewrite Hn in Hs. by destruct Hs.
Qed.
