(* ===== verification/TaggedModel.v ===== *)
(** * TaggedModel: an interpretation of the operators, and sample graphs

    A tensor is a number with its layout: images in NHWC order and in NCHW order are
    different values, and the operators that care about the order hold only on operands
    that have it.  The interpretation has the laws the transformation relies on. *)

From stdpp Require Import strings pretty.
From S2P Require Import Prelude Effects Tensor Graph NhwcTransformer LayoutGraph FilterSpec TransformerState TransformerStep.

(** ** The interpretation *)

(** The number, and whether the order is NHWC. *)
Abbreviation tagged := (Z * bool)%type.

(** The first element of weights of four dimensions that have one. *)
Definition tagged_weights (T : TensorProto) : tagged :=
  match tp_dims T with
  | [a; b; c; d] => if bool_decide (0 < a /\ 0 < b /\ 0 < c /\ 0 < d) then (default 0 (head (tp_elems T)), false) else (0, false)
  | _ => (0, false)
  end.

Definition pooling (attrs : NodeAttributes) : Z := match attrs !! "maxpool" with Some _ => 1 | None => 0 end.

(** A convolution multiplies; a pooling adds one. *)
Definition conv_rel (nhwc : bool) (wi : nat) (attrs : NodeAttributes) (ins outs : list tagged) : Prop :=
  exists v k, ins !! 0%nat = Some (v, nhwc) /\ ins !! wi = Some (k, false) /\ outs = [(v * k + pooling attrs, nhwc)].

Definition pool_rel (nhwc : bool) (ins outs : list tagged) : Prop := exists v, head ins = Some (v, nhwc) /\ outs = [(v + 1, nhwc)].

Definition tagged_rel (op : string) (attrs : NodeAttributes) (ins outs : list tagged) : Prop :=
  if String.eqb op "Transpose" then
    exists v, (attrs !! "perm" = Some (perm_attr [0; 2; 3; 1]) /\ ins = [(v, false)] /\ outs = [(v, true)]) \/
      (attrs !! "perm" = Some (perm_attr [0; 3; 1; 2]) /\ ins = [(v, true)] /\ outs = [(v, false)])
  else if String.eqb op "QLinearConv" then conv_rel false 3 attrs ins outs
  else if String.eqb op "Conv" then conv_rel false 1 attrs ins outs
  else if String.eqb op "QLinearConv_nhwc" then conv_rel true 3 attrs ins outs
  else if String.eqb op "Conv_nhwc" then conv_rel true 1 attrs ins outs
  else if String.eqb op "MaxPool" then pool_rel false ins outs
  else if String.eqb op "MaxPool_nhwc" then pool_rel true ins outs
  else if String.eqb op "Relu" || String.eqb op "QLinearRelu" then exists v b, head ins = Some (v, b) /\ outs = [(Z.max 0 v, b)]
  else if String.eqb op "QLinearAdd" then exists v v' b, ins !! 0%nat = Some (v, b) /\ ins !! 3%nat = Some (v', b) /\ outs = [(v + v', b)]
  else True.

#[export] Instance tagged_sem : TensorSem tagged := {
  tensor_val := tagged_weights; nchw v := (fst v, false); image v := snd v = true; op_rel := tagged_rel }.

Lemma tagged_reordered T T' : reordered_weights T T' -> tagged_weights T = tagged_weights T'.
Proof.
  intros (OC & IC & H & W & E & E' & _ & Hl & Hel). unfold tagged_weights. rewrite E, E'.
  destruct (decide (0 < OC /\ 0 < IC /\ 0 < H /\ 0 < W)) as [Hp|Hp]; [|rewrite !bool_decide_false; [done|tauto..]].
  rewrite !bool_decide_true by tauto. do 2 f_equal. rewrite !head_lookup. symmetry. apply (Hel 0 0 0 0); lia.
Qed.

Lemma tagged_tag T : snd (tagged_weights T) = false.
Proof. unfold tagged_weights. by repeat case_match. Qed.

Lemma conv_rel_layout wi attrs ins outs y W W' : wi <> 0%nat -> attrs !! "maxpool" = None -> reordered_weights W W' -> ins !! 0%nat = Some y ->
  ins !! wi = Some (tagged_weights W') -> conv_rel true wi attrs ins outs ->
  conv_rel false wi attrs (<[wi := tagged_weights W]> (<[0%nat := nchw y]> ins)) (nchw <$> outs).
Proof.
  intros Hwi _ HR Hy HW (v & k & Hv & Hk & ->). rewrite HW in Hk. injection Hk as Hk. rewrite Hy in Hv. injection Hv as ->. exists v, k. split_and!; [| |done].
  - rewrite list_lookup_insert_ne by done. rewrite list_lookup_insert_eq; [done|]. by apply lookup_lt_Some in Hy.
  - rewrite list_lookup_insert_eq by (rewrite length_insert; by apply lookup_lt_Some in HW). by rewrite (tagged_reordered W W'), Hk.
Qed.

#[export] Instance tagged_laws : TensorLaws tagged.
Proof.
  split.
  - intros x y (v & [(_ & [= ->] & [= ->])|(E & _)]); [done|]. by rewrite lookup_singleton_eq in E.
  - intros x y (v & [(E & _)|(_ & [= ->] & [= ->])]); [|done]. by rewrite lookup_singleton_eq in E.
  - intros op wi attrs ins outs y W W' [[-> ->]|[-> ->]]; by apply conv_rel_layout.
  - intros op wi attrs ins outs [[-> ->]|[-> ->]] (v & k & _ & _ & ->); by constructor.
  - intros attrs y ins out (v & [= ->] & [= ->]). by exists v.
  - intros attrs ins outs (v & _ & ->). by constructor.
  - intros op attrs y ins outs [-> | ->] (v & b & [= ->] & ->); by exists v, false.
  - intros op attrs y ins outs [-> | ->] (v & b & [= ->] & ->) Hi; by constructor.
  - intros attrs ins outs y1 y2 H1 H2 _ _ (v & v' & b & Hv & Hv' & ->). rewrite H1 in Hv. rewrite H2 in Hv'. injection Hv as ->. injection Hv' as ->. exists v, v', false. split_and!; [| |done].
    + rewrite list_lookup_insert_ne by done. rewrite list_lookup_insert_eq; [done|]. by apply lookup_lt_Some in H1.
    + rewrite list_lookup_insert_eq; [done|]. rewrite length_insert. by apply lookup_lt_Some in H2.
  - intros attrs ins outs y1 y2 H1 H2 I1 _ (v & v' & b & Hv & Hv' & ->). rewrite H1 in Hv. injection Hv as ->. by constructor.
  - intros attrs pool ins z Hm _ (v & k & Hv & Hk & E). injection E as ->. exists (v * k, true). split.
    + exists v, k. unfold pooling. by rewrite Hm, Z.add_0_r.
    + exists (v * k). split; [done|]. unfold fused_attrs, pooling. rewrite !lookup_insert_ne, lookup_insert_eq by done. done.
Qed.

(** The hash map traversed in the order of its keys. *)
#[export] Instance key_order : HashOrder := map_to_list.
#[export] Instance key_order_law : HashOrderLaw.
Proof. by intros m. Qed.

(** ** Sample graphs *)

(** A quantized convolution, a pooling and a rectifier. *)
Definition sample_conv : Node := {| node_Name := "conv"; op_type_ := "QLinearConv"; input_defs := ["x"; "xs"; "xz"; "w"; "ws"; "wz"; "ys"; "yz"]; output_defs := ["c"];
  implicit_input_defs := []; attributes_ := ∅; execution_provider_type_ := kSystolicExecutionProvider; input_edges := ∅; output_edges := {[ (1, 0, 0)%nat ]} |}.
Definition sample_pool (attrs : NodeAttributes) : Node := {| node_Name := "pool"; op_type_ := "MaxPool"; input_defs := ["c"]; output_defs := ["p"];
  implicit_input_defs := []; attributes_ := attrs; execution_provider_type_ := kSystolicExecutionProvider; input_edges := {[ (0, 0, 0)%nat ]}; output_edges := {[ (2, 0, 0)%nat ]} |}.
Definition sample_relu : Node := {| node_Name := "relu"; op_type_ := "QLinearRelu"; input_defs := ["p"]; output_defs := ["y"];
  implicit_input_defs := []; attributes_ := ∅; execution_provider_type_ := kSystolicExecutionProvider; input_edges := {[ (1, 0, 0)%nat ]}; output_edges := ∅ |}.

Definition sample_weights : TensorProto := sample_filter.

Definition sample_shape : option TypeProto := Some (TensorType TensorProto_DataType_INT8 (Some [Some 1; Some 2; Some 4; Some 4])).

Definition sample_graph (pool : NodeAttributes) : Graph := {|
  nodes_ := [Some sample_conv; Some (sample_pool pool); Some sample_relu]; num_of_nodes_ := 3;
  node_args_ := list_to_map [("x", None); ("xs", None); ("xz", None); ("w", None); ("ws", None); ("wz", None); ("ys", None); ("yz", None); ("c", sample_shape); ("p", None); ("y", None)];
  name_generator_ := 0; generated_node_names_ := ∅; generated_node_arg_names_ := ∅; name_to_initial_tensor_ := {[ "w" := sample_weights ]};
  graph_inputs_including_initializers_ := ["x"; "xs"; "xz"; "ws"; "wz"; "ys"; "yz"]; graph_outputs_ := ["y"]; ir_version_ := 4; is_loaded_from_model_file_ := false |}.

Definition plain_attrs : NodeAttributes := {[ "kernel_shape" := attr_ints [2; 2]; "strides" := attr_ints [2; 2] ]}.

Ltac sample_nodes := repeat match goal with
  | Hn : graph_node (sample_graph _) ?i = Some ?n |- _ => destruct i as [|[|[|?]]]; cbn in Hn; [injection Hn as <-..|done]
  end.

Ltac in_list := repeat match goal with
  | Hx : _ ∈ (_ :: _) |- _ => apply elem_of_cons in Hx as [->|Hx]
  | Hx : _ ∈ [] |- _ => by apply not_elem_of_nil in Hx
  end.

Ltac at_slot := repeat match goal with
  | Hp : (_ :: _) !! ?p = Some _ |- _ => destruct p; cbn in Hp; simplify_eq
  | Hp : [] !! _ = Some _ |- _ => by rewrite lookup_nil in Hp
  end.

Lemma sample_edges : edges_ok (sample_graph plain_attrs).
Proof.
  split.
  - intros i n j p q Hn Hj. sample_nodes; cbn in Hj; [| |set_solver]; apply elem_of_singleton in Hj as [= -> -> ->].
    + exists (sample_pool plain_attrs), "c". split_and!; try done; cbn; set_solver.
    + exists sample_relu, "p". split_and!; try done; cbn; set_solver.
  - intros j m i p q Hm Hi. sample_nodes; cbn in Hi; [set_solver|..]; apply elem_of_singleton in Hi as [= -> -> ->].
    + exists sample_conv. split; [done|]. cbn. set_solver.
    + exists (sample_pool plain_attrs). split; [done|]. cbn. set_solver.
Qed.

Lemma sample_args x : x ∈ ["x"; "xs"; "xz"; "w"; "ws"; "wz"; "ys"; "yz"; "c"; "p"; "y"] -> x ∈ dom (node_args_ (sample_graph plain_attrs)).
Proof. intros Hx. apply elem_of_dom. in_list; eexists; vm_compute; reflexivity. Qed.

Lemma sample_shapes x s : arg_Shape (sample_graph plain_attrs) x = Some s -> s = [Some 1; Some 2; Some 4; Some 4].
Proof.
  unfold arg_Shape, TypeAsProto. destruct (node_args_ _ !! x) as [ty|] eqn:E; [|done]. apply elem_of_list_to_map_2 in E. cbn.
  repeat (apply elem_of_cons in E as [[= -> ->]|E]; [by first [done|intros [= <-]]|]). by apply not_elem_of_nil in E.
Qed.

Lemma sample_wf : graph_wf (sample_graph plain_attrs) false [0%nat; 1%nat; 2%nat].
Proof.
  split.
  - exact sample_edges.
  - intros i n j m p q x Hn Hm Hp Hq. sample_nodes; cbn in Hp, Hq |- *; at_slot; set_solver.
  - intros i n Hn. sample_nodes; vm_compute; reflexivity.
  - intros i n x Hn Hx. apply sample_args. sample_nodes; cbn in Hx; set_solver.
  - intros x Hx. apply sample_args. cbn in Hx. rewrite dom_singleton in Hx. set_solver.
  - intros i n p j m q x Hn Hm Hp Hq. sample_nodes; cbn in Hp, Hq; at_slot; done.
  - intros i n x Hx Hn. cbn in Hx. rewrite dom_singleton in Hx. sample_nodes; cbn; set_solver.
  - cbn. split_and!; try done; intros n j m x Hn Hj Hm Hx; sample_nodes; cbn in *; set_solver.
  - by apply (bool_decide_unpack _).
  - intros i Hi. in_list; eexists; reflexivity.
  - unfold in_s. cbn. lia.
  - vm_compute. reflexivity.
  - intros x s t ->%sample_shapes. vm_compute. reflexivity.
  - intros w T HT _. apply constants_lookup in HT as [HT _]. cbn in HT. apply lookup_singleton_Some in HT as [<- <-]. exists 2, 1, 1, 2. cbn. split_and!; (done || lia).
  - intros i n Hn. unfold op_wf. sample_nodes; cbn; split_and!; try done; try (intros [|]; done).
    + intros op wi [[-> ->]|[-> ->]] E; [|done]. split_and!; [lia|done|done].
    + intros op wi [[-> ->]|[-> ->]] E; done.
    + intros op wi [[-> ->]|[-> ->]] E; done.
    + intros _. lia.
  - intros i n _ Hn Hop. sample_nodes; [done| |done]. split.
    + split_and!; [by exists [2; 2]|by left..].
    + intros x ->%list_elem_of_singleton (j & m & Hm & Hmo & Hx). sample_nodes; cbn in Hx; try done. set_solver.
Qed.
