(* ===== verification/TransformerSpec.v ===== *)
(** * TransformerSpec: the layout transformation keeps the meaning of a graph

    The pass over the nodes and the end of the transformation together, for every
    well-formed graph and every interpretation of the operators that has the laws of
    [TensorLaws]. *)

From stdpp Require Import strings pretty.
From S2P Require Import Prelude Effects Tensor Graph GraphSpec NhwcTransformer LayoutGraph FilterSpec LayoutSteps LayoutInvariant LayoutConvert TransformerState TransformerOps TransformerEdges TransformerCalls TransformerStep TransformerNodes TransformerReplace TransformerPass TaggedModel.

(** Values under which every node holds and the constants are what they are. *)
Definition graph_sat {V} `{TensorSem V} (σ : string -> V) (g : Graph) : Prop :=
  (forall i n, graph_node g i = Some n -> node_sat σ (ndef_of n)) /\ (forall w T, constants g !! w = Some T -> σ w = tensor_val T).

(** ** The end *)

Lemma extended_node g bl g' i : extended g bl g' -> graph_node g' i = if decide (i < length (nodes_ g))%nat then graph_node g i else bl !! (i - length (nodes_ g))%nat.
Proof.
  intros He. unfold graph_node. rewrite (ex_nodes _ _ _ He). case_decide; [by rewrite lookup_app_l|]. rewrite lookup_app_r by lia. rewrite list_lookup_fmap.
  by destruct (bl !! _).
Qed.

Lemma extended_old g bl g' i n : extended g bl g' -> graph_node g i = Some n -> graph_node g' i = Some n.
Proof.
  intros He Hn. rewrite (extended_node g bl g' i He), decide_True; [done|]. unfold graph_node in Hn. destruct (nodes_ g !! i) eqn:E; [by apply lookup_lt_Some in E|done].
Qed.

Lemma edges_ok_extended g bl g' : edges_ok g -> extended g bl g' -> edges_ok g'.
Proof.
  intros [Ho Hi] He. assert (forall i n, graph_node g' i = Some n -> graph_node g i = Some n \/ loose n) as Hb.
  { intros i n. rewrite (extended_node g bl g' i He). case_decide; [by left|]. intros Hn. right. apply (ex_loose _ _ _ He). by apply list_elem_of_lookup_2 in Hn. }
  split.
  - intros i n j p q [Hn|[_ E]]%Hb Hj; [|rewrite E in Hj; set_solver]. destruct (Ho i n j p q Hn Hj) as (m & x & Hm & ?). exists m, x. split; [by eapply extended_old|done].
  - intros j m i p q [Hm|[E _]]%Hb Hj; [|rewrite E in Hj; set_solver]. destruct (Hi j m i p q Hm Hj) as (n & Hn & ?). exists n. split; [by eapply extended_old|done].
Qed.

(** The final graph: the view, and a transposition for each entry of [L]. *)
Record finalized (t : Transformer) (L : list (string * NhwcArgument)) (g' : Graph) : Prop := {
  fz_kept i m : ls_nodes (view [] t) !! i = Some m -> exists n, graph_node g' i = Some n /\ ndef_of n = m;
  fz_back k p : L !! k = Some p -> exists i n, graph_node g' i = Some n /\ ndef_of n = back_of p;
  fz_from i n : graph_node g' i = Some n -> ls_nodes (view [] t) !! i = Some (ndef_of n) \/
    exists k p, i = (length (nodes_ (graph_ t)) + k)%nat /\ L !! k = Some p /\ ndef_of n = back_of p;
  fz_removed i : i ∈ removed_nodes_ t -> graph_node g' i = None;
  fz_cons : constants g' = constants (graph_ t);
  fz_args : node_args_ g' = node_args_ (graph_ t);
  fz_inputs : graph_inputs_including_initializers_ g' = graph_inputs_including_initializers_ (graph_ t);
  fz_outputs : graph_outputs_ g' = graph_outputs_ (graph_ t) }.

Lemma finalized_intro t L bl g1 R g' : extended (graph_ t) bl g1 -> ndef_of <$> bl = back_of <$> L -> (forall i, i ∈ R <-> i ∈ removed_nodes_ t) ->
  (forall i, i ∈ removed_nodes_ t -> is_Some (graph_node (graph_ t) i)) -> thinner R g1 g' -> finalized t L g'.
Proof.
  intros He Eb HR Hlive Hth. assert (forall i n, graph_node g1 i = Some n -> (i < length (nodes_ (graph_ t)))%nat \/ exists k, i = (length (nodes_ (graph_ t)) + k)%nat /\ bl !! k = Some n) as Hcase.
  { intros i n. rewrite (extended_node _ _ _ i He). case_decide; [by left|]. intros Hn. right. exists (i - length (nodes_ (graph_ t)))%nat. split; [lia|done]. }
  split.
  - intros i m (_ & Hr & n & Hn & ->)%view_lookup. destruct (th_kept _ _ _ Hth i n) as (n' & Hn' & E & _); [by rewrite HR|by eapply extended_old|]. by exists n'.
  - intros k q Hq. assert ((ndef_of <$> bl) !! k = Some (back_of q)) as Hk by (by rewrite Eb, list_lookup_fmap, Hq). rewrite list_lookup_fmap in Hk. destruct (bl !! k) as [n|] eqn:En; [|done].
    apply (inj Some) in Hk. assert (graph_node g1 (length (nodes_ (graph_ t)) + k) = Some n) as Hn.
    { rewrite (extended_node _ _ _ _ He), decide_False by lia. by replace (_ + k - _)%nat with k by lia. }
    destruct (th_kept _ _ _ Hth (length (nodes_ (graph_ t)) + k)%nat n) as (n' & Hn' & E & _); [|exact Hn|exists (length (nodes_ (graph_ t)) + k)%nat, n'; split; [done|congruence]].
    rewrite HR. intros [m Hm]%Hlive. unfold graph_node in Hm. destruct (nodes_ (graph_ t) !! _) eqn:Ei; [apply lookup_lt_Some in Ei; lia|done].
  - intros i n Hn. destruct (th_from _ _ _ Hth i n Hn) as (Hi & n1 & Hn1 & E). rewrite HR in Hi. destruct (Hcase i n1 Hn1) as [Hlt|(k & -> & Hk)].
    + left. apply view_lookup. split; [apply not_elem_of_nil|]. split; [done|]. rewrite (extended_node _ _ _ i He), decide_True in Hn1 by done. by exists n1.
    + right. exists k. assert ((ndef_of <$> bl) !! k = Some (ndef_of n1)) as Hb by (by rewrite list_lookup_fmap, Hk). rewrite Eb, list_lookup_fmap in Hb.
      destruct (L !! k) as [q|]; [|done]. exists q. apply (inj Some) in Hb. split_and!; [done..|congruence].
  - intros i Hi. by apply (th_gone _ _ _ Hth), HR.
  - unfold constants, CanOverrideInitializer. by rewrite (th_init _ _ _ Hth), (th_ir _ _ _ Hth), (th_inputs _ _ _ Hth), (ex_init _ _ _ He), (ex_ir _ _ _ He), (ex_inputs _ _ _ He).
  - by rewrite (th_args _ _ _ Hth), (ex_args _ _ _ He).
  - by rewrite (th_inputs _ _ _ Hth), (ex_inputs _ _ _ He).
  - by rewrite (th_outputs _ _ _ Hth), (ex_outputs _ _ _ He).
Qed.

Section final.
Context `{HashOrderLaw} {V : Type} `{TensorLaws V} (g0 : Graph) (pre : bool) (order0 : list nat) (Hwf : graph_wf g0 pre order0).
Notation names0 := (dom (node_args_ g0)).
Notation O := (graph_outputs_ g0).
Notation I := (graph_inputs_including_initializers_ g0).
Notation t0 := (make_Transformer g0 pre).

(** The entries that get a transposition, in the order of the hash map. *)
Definition wanted (t : Transformer) : list (string * NhwcArgument) := filter still_used (hash_order (nhwc_args_ t)).

Lemma wanted_spec t x e : (x, e) ∈ wanted t <-> nhwc_args_ t !! x = Some e /\ 0 < remaining_original_uses_ e.
Proof. unfold wanted. rewrite list_elem_of_filter, hash_order_perm, elem_of_map_to_list. unfold still_used. tauto. Qed.

Lemma wanted_nodup t k k' p p' : wanted t !! k = Some p -> wanted t !! k' = Some p' -> fst p = fst p' -> k = k'.
Proof.
  intros Hk Hk' E. assert (NoDup (fst <$> hash_order (nhwc_args_ t))) as Hnd by (rewrite hash_order_perm; apply NoDup_fst_map_to_list).
  assert (NoDup (wanted t)) as Hw by (apply NoDup_filter; by eapply NoDup_fmap_1). apply (NoDup_lookup (wanted t) k k' p); [done..|]. rewrite Hk'. f_equal.
  pose proof (list_elem_of_lookup_2 _ _ _ Hk) as Hin. pose proof (list_elem_of_lookup_2 _ _ _ Hk') as Hin'. destruct p as [x e], p' as [x' e']. simpl in E. subst x'.
  apply wanted_spec in Hin as [E1 _], Hin' as [E2 _]. congruence.
Qed.

Lemma wp_Finalize t modified : inv g0 pre [] t ->
  wp (Finalize modified) (fun b t' => b = (match removed_nodes_ t with [] => modified | _ => true end) /\ removed_nodes_ t' = removed_nodes_ t /\ finalized t (wanted t) (graph_ t')) t.
Proof using All.
  intros Hv. pose proof (iv_cinv _ _ _ _ Hv) as Hc. pose proof (iv_linv _ _ _ _ Hv) as Hl. unfold Finalize. apply wp_bind, wp_gets. change (id t) with t.
  assert (forall p, p ∈ hash_order (nhwc_args_ t) -> nhwc_args_ t !! fst p = Some (snd p)) as HL.
  { intros [x e] Hp. rewrite hash_order_perm in Hp. by apply elem_of_map_to_list in Hp. }
  apply wp_bind, wp_on_graph_list, (wp_reorder_outputs _ (graph_ t) []).
  - split; try done; [by rewrite app_nil_r|by intros n ?%not_elem_of_nil|apply (ci_gen _ _ _ _ _ Hc)].
  - pose proof (ci_size _ _ _ _ _ Hc) as Hs. unfold room, graph_size in *. assert (length (hash_order (nhwc_args_ t)) = size (nhwc_args_ t)) as -> by (by rewrite hash_order_perm, length_map_to_list). simpl in *. lia.
  - intros p Hp%HL. split; [by apply (inv_arg _ _ _ _ _ Hl (fst p))|]. apply (ci_names0 _ _ _ _ _ Hc). by destruct (inv_key _ _ _ _ _ Hl (fst p) (snd p) Hp).
  - intros bl g1 He Eb. simpl in Eb. fold (wanted t) in Eb. apply wp_bind, wp_on_graph_list.
    pose proof (edges_ok_extended _ _ _ (ci_edges _ _ _ _ _ Hc) He) as He1.
    assert (forall i, i ∈ removed_nodes_ t -> exists n, graph_node g1 i = Some n /\ output_edges n = ∅) as Hrem.
    { intros i Hi. destruct (ci_removed _ _ _ _ _ Hc i Hi) as (_ & n & Hn & E). exists n. split; [by eapply extended_old|done]. }
    apply wp_RemoveNodes; [done| | |].
    { intros i Hi. destruct (Hrem i Hi) as (n & Hn & _). unfold graph_node in Hn. change (graph_ (set_field _ _)) with g1. cbn. destruct (nodes_ g1 !! i) eqn:E; [by apply lookup_lt_Some in E|done]. }
    { intros i n Hi Hn. destruct (Hrem i Hi) as (n' & Hn' & E). cbn in Hn. rewrite Hn' in Hn. by injection Hn as <-. }
    intros g' R' HR' Hth. apply wp_ret. split; [done|]. split; [done|]. change (finalized t (wanted t) g').
    assert (forall i, i ∈ R' <-> i ∈ removed_nodes_ t) as HR.
    { intros i. rewrite HR'. split; [tauto|]. intros Hi. split; [done|]. destruct (Hrem i Hi) as (n & Hn & _). by exists n. }
    eapply finalized_intro; [exact He|exact Eb|exact HR| |exact Hth]. intros i Hi. destruct (ci_removed _ _ _ _ _ Hc i Hi) as (_ & n & Hn & _). by exists n.
Qed.

(** A solution of the final graph satisfies the view. *)
Lemma finalized_sat t g' (σ : string -> V) : finalized t (wanted t) g' -> graph_sat σ g' -> lsat (view [] t) σ.
Proof.
  intros Hf [Hn Hcs]. split.
  - intros i m Hm. destruct (fz_kept _ _ _ Hf i m Hm) as (n & Hg & <-). by apply (Hn i).
  - intros x e He Hr. pose proof (proj2 (wanted_spec t x e) (conj He Hr)) as Hin. apply list_elem_of_lookup in Hin as [k Hk]. destruct (fz_back _ _ _ Hf k _ Hk) as (i & n & Hg & En).
    pose proof (Hn i n Hg) as Hs. rewrite En in Hs. by apply transpose_to_nchw in Hs.
  - intros w T HT. apply Hcs. by rewrite (fz_cons _ _ _ Hf).
Qed.

Lemma start_sat (σ : string -> V) : lsat (view [] t0) σ -> graph_sat σ g0.
Proof using.
  intros [Hn _ Hc]. split; [|exact Hc]. intros i n Hi. apply (Hn i). apply view_start. by exists n.
Qed.

Lemma wp_ApplyImpl modified (Q : bool -> Transformer -> Prop) :
  (forall t b t', inv g0 pre [] t -> b = (match removed_nodes_ t with [] => modified | _ => true end) -> removed_nodes_ t' = removed_nodes_ t -> finalized t (wanted t) (graph_ t') -> Q b t') ->
  wp (ApplyImpl order0 modified) Q t0.
Proof using All.
  intros HQ. unfold ApplyImpl. apply wp_bind. eapply wp_mono; [apply (wp_Transform_all g0 pre order0 Hwf order0 t0); [by apply inv_start|apply (wf_topo _ _ _ Hwf)|apply (wf_nodup _ _ _ Hwf)]|].
  intros [] t Hv. eapply wp_mono; [by apply wp_Finalize|]. intros b t' (Hb & Hr & Hf). by eapply HQ.
Qed.
End final.

(** C2: the layout transformation loses no behaviour.  For every well-formed graph in
    topological order, whatever the order in which the hash map is traversed and for every
    interpretation of the operators in which a transposition reorders an image and the
    NHWC variants compute the reordered results, the transformation returns, and every
    assignment of values to the arguments under which all nodes of the final graph hold
    comes from one under which all nodes of the original graph hold, with the same values
    for the inputs and outputs of the graph. *)
Theorem transformer_refines `{HashOrderLaw} {V : Type} `{TensorLaws V} g pre order modified : graph_wf g pre order ->
  wp (ApplyImpl order modified) (fun _ t' => forall σ' : string -> V, graph_sat σ' (graph_ t') -> exists σ : string -> V, graph_sat σ g /\
    forall x, x ∈ graph_outputs_ g \/ x ∈ graph_inputs_including_initializers_ g -> σ x = σ' x) (make_Transformer g pre).
Proof.
  intros Hwf. apply (wp_ApplyImpl (V := V) g pre order Hwf). intros t b t' Hv _ _ Hf σ' Hs. apply (finalized_sat t (graph_ t') σ') in Hs; [|done].
  destruct (iv_ref _ _ _ _ Hv σ' Hs) as (σ & Hσ & Heq). exists σ. split; [by eapply start_sat|done].
Qed.

Lemma transformer_refines_witness :
  wp (ApplyImpl [0%nat; 1%nat; 2%nat] false) (fun _ t' => forall σ' : string -> tagged, graph_sat σ' (graph_ t') -> exists σ : string -> tagged, graph_sat σ (sample_graph plain_attrs) /\
    forall x, x ∈ ["y"] \/ x ∈ ["x"; "xs"; "xz"; "ws"; "wz"; "ys"; "yz"] -> σ x = σ' x) (make_Transformer (sample_graph plain_attrs) false).
Proof. exact (transformer_refines (sample_graph plain_attrs) false [0%nat; 1%nat; 2%nat] false sample_wf). Defined.

(** What [Graph::Resolve] expects of a graph: an argument is made by one output of one
    node at most, by none when it is an input or a constant, and every argument that is
    used exists. *)
Record single_assignment (g : Graph) : Prop := {
  sa_once i n p j m q x : graph_node g i = Some n -> graph_node g j = Some m -> output_defs n !! p = Some x -> output_defs m !! q = Some x -> i = j /\ p = q;
  sa_ext i n x : x ∈ graph_inputs_including_initializers_ g \/ x ∈ dom (constants g) -> graph_node g i = Some n -> x ∉ output_defs n;
  sa_args i n x : graph_node g i = Some n -> x ∈ input_defs n \/ x ∈ output_defs n -> x ∈ dom (node_args_ g) }.

(** The simplest interpretation, for what does not depend on values. *)
#[local] Instance unit_sem : TensorSem unit := { tensor_val _ := tt; nchw _ := tt; image _ := True; op_rel _ _ _ _ := True }.
#[local] Instance unit_laws : TensorLaws unit.
Proof.
  assert (forall l : list unit, Forall (fun _ => True) l) as Hall by (intros l; by apply Forall_forall). split; try done; try (by intros; apply Hall); [by intros [] []..|].
  intros. by exists tt.
Qed.

Lemma linv_single `{HashOrderLaw} g0 pre t g' : inv (V := unit) g0 pre [] t -> finalized t (wanted t) g' -> single_assignment g'.
Proof.
  intros Hv Hf. pose proof (iv_linv _ _ _ _ Hv) as Hl. pose proof (iv_cinv _ _ _ _ Hv) as Hc.
  assert (forall k x e, wanted t !! k = Some (x, e) -> nhwc_args_ t !! x = Some e) as Hw by (intros k x e Hk; apply list_elem_of_lookup_2, wanted_spec in Hk; tauto).
  assert (forall i n p x, graph_node g' i = Some n -> output_defs n !! p = Some x -> produces (view [] t) i p x \/
    exists k e, i = (length (nodes_ (graph_ t)) + k)%nat /\ p = 0%nat /\ wanted t !! k = Some (x, e)) as Hout.
  { intros i n p x Hn Hp. destruct (fz_from _ _ _ Hf i n Hn) as [Hi|(k & [y e] & -> & Hk & E)]; [left; by exists (ndef_of n)|right]. apply (f_equal nd_outs) in E. cbn in E.
    rewrite E in Hp. apply list_lookup_singleton_Some in Hp as [-> <-]. by exists k, e. }
  split.
  - intros i n p j m q x Hn Hm Hp Hq. destruct (Hout i n p x Hn Hp) as [Hi|(k & e & -> & -> & Hk)], (Hout j m q x Hm Hq) as [Hj|(k' & e' & -> & -> & Hk')].
    + by eapply (inv_ssa _ _ _ _ _ Hl).
    + exfalso. by eapply (inv_key_dead _ _ _ _ _ Hl x e'); [by eapply Hw|].
    + exfalso. by eapply (inv_key_dead _ _ _ _ _ Hl x e); [by eapply Hw|].
    + by rewrite (wanted_nodup t k k' (x, e) (x, e') Hk Hk' eq_refl).
  - intros i n x Hx Hn [p Hp]%list_elem_of_lookup. rewrite (fz_inputs _ _ _ Hf), (ci_inputs _ _ _ _ _ Hc), (fz_cons _ _ _ Hf) in Hx.
    destruct (Hout i n p x Hn Hp) as [Hi|(k & e & _ & _ & Hk)]; [by eapply (inv_ext _ _ _ _ _ Hl)|].
    pose proof (inv_ext_key _ _ _ _ _ Hl x Hx) as E. apply Hw in Hk. cbn in E. congruence.
  - intros i n x Hn Hx. rewrite (fz_args _ _ _ Hf). destruct (fz_from _ _ _ Hf i n Hn) as [Hi|(k & [y e] & -> & Hk & E)].
    + destruct Hx as [[p Hp]%list_elem_of_lookup|[p Hp]%list_elem_of_lookup]; [apply (inv_reads _ _ _ _ _ Hl i p)|apply (inv_produces _ _ _ _ _ Hl i p)]; by exists (ndef_of n).
    + apply Hw in Hk. pose proof (f_equal nd_ins E) as Ei. pose proof (f_equal nd_outs E) as Eo. cbn in Ei, Eo. rewrite Ei, Eo in Hx.
      destruct Hx as [->%list_elem_of_singleton| ->%list_elem_of_singleton]; [by apply (inv_arg _ _ _ _ _ Hl y)|]. apply (inv_names0 _ _ _ _ _ Hl). by destruct (inv_key _ _ _ _ _ Hl y e Hk).
Qed.

(** C8: the layout transformation gives a graph that can be resolved.  For a well-formed
    graph, no argument of the final graph is made twice or is an input or a constant and
    made as well, every argument that a node names exists, and the inputs and outputs of
    the graph are what they were. *)
Theorem transformer_single_assignment `{HashOrderLaw} g pre order modified : graph_wf g pre order ->
  wp (ApplyImpl order modified) (fun _ t' => single_assignment (graph_ t') /\ graph_outputs_ (graph_ t') = graph_outputs_ g /\
    graph_inputs_including_initializers_ (graph_ t') = graph_inputs_including_initializers_ g) (make_Transformer g pre).
Proof.
  intros Hwf. apply (wp_ApplyImpl (V := unit) g pre order Hwf). intros t b t' Hv _ _ Hf. split; [by eapply linv_single|]. pose proof (iv_cinv _ _ _ _ Hv) as Hc.
  rewrite (fz_outputs _ _ _ Hf), (fz_inputs _ _ _ Hf). split; [apply (ci_outputs _ _ _ _ _ Hc)|apply (ci_inputs _ _ _ _ _ Hc)].
Qed.

Lemma transformer_single_assignment_witness :
  wp (ApplyImpl [0%nat; 1%nat; 2%nat] false) (fun _ t' => single_assignment (graph_ t') /\ graph_outputs_ (graph_ t') = ["y"] /\
    graph_inputs_including_initializers_ (graph_ t') = ["x"; "xs"; "xz"; "ws"; "wz"; "ys"; "yz"]) (make_Transformer (sample_graph plain_attrs) false).
Proof. exact (transformer_single_assignment (sample_graph plain_attrs) false [0%nat; 1%nat; 2%nat] false sample_wf). Defined.

(** The transformation has returned, the nodes on its list are gone, and it reports
    [modified] or that there were any. *)
Definition completed (modified : bool) (r : outcome bool * Transformer) : Prop :=
  exists t', r = (Ok (modified || negb (bool_decide (removed_nodes_ t' = []))), t') /\ forall i, i ∈ removed_nodes_ t' -> graph_node (graph_ t') i = None.

(** C9: the layout transformation never throws and never leaves its data structures: on a
    well-formed graph it returns, whatever nodes it finds, reports a change exactly when
    there was one before or it has put a node on its list, and the nodes on its list are
    gone. *)
Theorem transformer_safe `{HashOrderLaw} g pre order modified : graph_wf g pre order ->
  completed modified (ApplyImpl order modified (make_Transformer g pre)).
Proof.
  intros Hwf. assert (wp (ApplyImpl order modified) (fun b t' => b = (modified || negb (bool_decide (removed_nodes_ t' = []))) /\
    forall i, i ∈ removed_nodes_ t' -> graph_node (graph_ t') i = None) (make_Transformer g pre)) as Hw.
  { apply (wp_ApplyImpl (V := unit) g pre order Hwf). intros t b t' Hv -> Hr Hf. rewrite Hr. split; [|exact (fz_removed _ _ _ Hf)].
    destruct (removed_nodes_ t); [by rewrite orb_false_r|]. by rewrite orb_true_r. }
  unfold wp in Hw. destruct (ApplyImpl order modified (make_Transformer g pre)) as [[b|f] t']; [|done]. destruct Hw as [-> Hg]. by exists t'.
Qed.

Lemma transformer_safe_witness :
  completed false (ApplyImpl [0%nat; 1%nat; 2%nat] false (make_Transformer (sample_graph plain_attrs) false)).
Proof. exact (transformer_safe (sample_graph plain_attrs) false [0%nat; 1%nat; 2%nat] false sample_wf). Defined.

(** ** Poolings after a quantized convolution *)

(** Node [i] is a pooling without edges from its input, which is the only use of the
    output [x] of the quantized NHWC convolution [nc]. *)
Record fusion_site (t : Transformer) (i : nat) (n nc : Node) (x z : string) (e : NhwcArgument) : Prop := {
  fs_pre : pretraining_pass_ t = false;
  fs_edges : edges_ok (graph_ t);
  fs_node : graph_node (graph_ t) i = Some n;
  fs_op : op_type_ n = "MaxPool" /\ input_defs n = [x] /\ output_defs n = [z] /\ input_edges n = ∅;
  fs_entry : nhwc_args_ t !! x = Some e /\ nhwc_args_ t !! nhwc_arg_ e = None /\ starting_original_uses_ e <= 1;
  fs_conv : graph_node (graph_ t) (output_node_ e) = Some nc;
  fs_kind : op_type_ nc = "QLinearConv_nhwc" /\ output_defs nc = [nhwc_arg_ e] }.

(** The pooling reads the NHWC argument, which has one use less. *)
Definition t_rewired (i : nat) (x : string) (e : NhwcArgument) (t : Transformer) : Transformer :=
  t_ents (alter used_once x (nhwc_args_ t)) (t_upd i (set_in 0 (nhwc_arg_ e)) t).

(** Attributes may change anywhere, and inputs where no edge ends. *)
Lemma edges_ok_upd i f t : edges_ok (graph_ t) -> (forall n, output_defs (f n) = output_defs n /\ input_edges (f n) = input_edges n /\ output_edges (f n) = output_edges n) ->
  (forall n, graph_node (graph_ t) i = Some n -> input_defs (f n) = input_defs n \/ input_edges n = ∅) -> edges_ok (graph_ (t_upd i f t)).
Proof.
  intros [Ho Hi] Hf Hin. assert (forall j m', graph_node (graph_ (t_upd i f t)) j = Some m' -> exists m, graph_node (graph_ t) j = Some m /\ output_defs m' = output_defs m /\
    input_edges m' = input_edges m /\ output_edges m' = output_edges m) as Hb.
  { intros j m'. rewrite t_upd_node. case_decide; [|by exists m']. destruct (graph_node (graph_ t) j) as [m|]; [|done]. intros [= <-]. exists m. split; [done|apply Hf]. }
  assert (forall j m, graph_node (graph_ t) j = Some m -> exists m', graph_node (graph_ (t_upd i f t)) j = Some m' /\ input_edges m' = input_edges m /\
    output_edges m' = output_edges m /\ (input_edges m <> ∅ -> input_defs m' = input_defs m)) as Hfw.
  { intros j m Hm. rewrite t_upd_node, Hm. case_decide as E; [subst j|by exists m]. destruct (Hf m) as (_ & E2 & E3). exists (f m). split_and!; [done..|].
    intros Hne. by destruct (Hin m Hm). }
  split.
  - intros a m' j p q (m & Hm & E1 & _ & E3)%Hb Hj. rewrite E3 in Hj. destruct (Ho a m j p q Hm Hj) as (m2 & y & Hm2 & H1 & H2 & H3).
    destruct (Hfw j m2 Hm2) as (m2' & Hm2' & F1 & _ & F). exists m2', y. rewrite F1, E1. split_and!; try done. rewrite F; [done|set_solver].
  - intros j m' a p q (m & Hm & _ & E2 & _)%Hb Hj. rewrite E2 in Hj. destruct (Hi j m a p q Hm Hj) as (n & Hn & H1).
    destruct (Hfw a n Hn) as (n' & Hn' & _ & F & _). exists n'. by rewrite F.
Qed.

Section site.
Context (t : Transformer) (i : nat) (n nc : Node) (x z : string) (e : NhwcArgument) (Hs : fusion_site t i n nc x z e).
Notation c := (output_node_ e).

Lemma fs_apart : c <> i.
Proof using Hs. intros E. pose proof (fs_conv _ _ _ _ _ _ _ Hs) as Hc. rewrite E, (fs_node _ _ _ _ _ _ _ Hs) in Hc. injection Hc as <-. destruct (fs_op _ _ _ _ _ _ _ Hs) as [Eo _], (fs_kind _ _ _ _ _ _ _ Hs) as [Ek _]. by rewrite Eo in Ek. Qed.

(** The test before the attributes are looked at. *)
Lemma wp_fusion_tries (Q : bool -> Transformer -> Prop) :
  wp (if negb (pool_attributes_ok n) then mret false
      else
        let kernel_shape := default [] (GetRepeatedNodeAttributeValues n "kernel_shape") in
        let pads := default [0; 0; 0; 0] (GetRepeatedNodeAttributeValues n "pads") in
        let strides := default [1; 1] (GetRepeatedNodeAttributeValues n "strides") in
        on_graph (AddAttribute c "maxpool" (attr_i 1)) ;;
        on_graph (AddAttribute c "pool_kernel_shape" (attr_ints kernel_shape)) ;;
        on_graph (AddAttribute c "pool_pads" (attr_ints pads)) ;;
        on_graph (AddAttribute c "pool_strides" (attr_ints strides)) ;;
        out ← of_option Undefined (output_defs n !! 0%nat);
        on_graph (ClearShape out) ;;
        FuseNhwcArgument i e ;;
        remove_later i ;;
        mret true) Q (t_rewired i x e t) ->
  wp (FuseMaxPoolWithConv i) Q t.
Proof using Hs.
  intros HQ. destruct Hs as [_ _ Hn (_ & Ein & Eout & _) (He & _ & Hst) Hc [Hk _]]. unfold FuseMaxPoolWithConv.
  apply wp_bind, (wp_GetNode_t i n); [done|]. rewrite (f_equal length Eout : length (output_defs n) = 1%nat). change (negb (1 =? 1)%nat) with false. cbv iota.
  apply wp_bind. rewrite (f_equal (fun l => l !! 0%nat) Ein : input_defs n !! 0%nat = Some x). apply wp_ret, wp_bind, wp_gets. change (nhwc_args_ (id t)) with (nhwc_args_ t). rewrite He.
  apply wp_bind, (wp_GetNode_t c nc); [done|]. rewrite Hk, bool_decide_true by done. cbn [negb orb]. rewrite (proj2 (Z.ltb_ge 1 _) Hst).
  apply wp_bind, wp_set_input_def, wp_bind, wp_consume_use. exact HQ.
Qed.

Lemma rewired_node j : graph_node (graph_ (t_rewired i x e t)) j = if decide (j = i) then set_in 0 (nhwc_arg_ e) <$> graph_node (graph_ t) j else graph_node (graph_ t) j.
Proof using. apply t_upd_node. Qed.

(** A pooling that is refused. *)
Lemma wp_pool_refused : pool_attributes_ok n = false -> wp (TransformMaxPool i) (fun _ t' => t' = t_rewired i x e t) t.
Proof using Hs.
  intros Hno. pose proof Hs as [Hpre _ Hn (_ & Ein & _) (He & Hnk & _) _ _]. unfold TransformMaxPool. apply wp_bind, wp_gets. change (pretraining_pass_ (id t)) with (pretraining_pass_ t). rewrite Hpre.
  apply wp_bind, wp_fusion_tries. rewrite Hno. apply wp_ret. apply wp_bind, (wp_GetNode_t i (set_in 0 (nhwc_arg_ e) n)); [by rewrite rewired_node, decide_True, Hn|].
  apply wp_bind. assert (input_defs (set_in 0 (nhwc_arg_ e) n) !! 0%nat = Some (nhwc_arg_ e)) as -> by (cbn; by rewrite Ein). apply wp_ret, wp_bind, wp_gets.
  change (nhwc_args_ (id (t_rewired i x e t))) with (alter used_once x (nhwc_args_ t)). rewrite lookup_alter_ne by (intros E; rewrite <- E, He in Hnk; done). rewrite Hnk. by apply wp_ret.
Qed.

Lemma dropped_node s j D m : graph_node (graph_ s) j = Some m -> graph_node (graph_ (t_drop i D (t_clear z s))) j = Some (drop i D j m).
Proof using. intros Hm. change (graph_ (t_drop i D (t_clear z s))) with (drop_edges i D (graph_ (t_clear z s))). rewrite drop_edges_node. change (graph_node (graph_ (t_clear z s)) j) with (graph_node (graph_ s) j). by rewrite Hm. Qed.

(** A pooling that is fused. *)
Lemma wp_pool_fused : pool_attributes_ok n = true -> wp (TransformMaxPool i) (fun _ t' => removed_nodes_ t' = i :: removed_nodes_ t /\
  exists nc', graph_node (graph_ t') c = Some nc' /\ op_type_ nc' = "QLinearConv_nhwc" /\ attributes_ nc' = fused_attrs (attributes_ nc) (attributes_ n)) t.
Proof using Hs.
  intros Hok. pose proof fs_apart as Hci. pose proof Hs as [Hpre Hed Hn (_ & Ein & Eout & Hie) (He & Hnk & _) Hc [Hk Eo]]. unfold TransformMaxPool. apply wp_bind, wp_gets.
  change (pretraining_pass_ (id t)) with (pretraining_pass_ t). rewrite Hpre. apply wp_bind, wp_fusion_tries. rewrite Hok. cbn [negb]. cbv zeta.
  apply wp_bind, wp_AddAttribute, wp_bind, wp_AddAttribute, wp_bind, wp_AddAttribute, wp_bind, wp_AddAttribute. rewrite !repeated_ints, !t_upd_twice.
  apply wp_bind. rewrite (f_equal (fun l => l !! 0%nat) Eout : output_defs n !! 0%nat = Some z). apply wp_ret, wp_bind, wp_ClearShape, wp_bind.
  set (t1 := t_upd c (fuse_attrs n) (t_rewired i x e t)). change (t_clear z (t_upd c ?f (t_rewired i x e t))) with (t_clear z t1).
  assert (edges_ok (graph_ t1)) as Hed1.
  { apply edges_ok_upd; [|done|by left]. apply (edges_ok_nodes (graph_ (t_upd i (set_in 0 (nhwc_arg_ e)) t))); [done|]. apply edges_ok_upd; [done..|].
    intros n' Hn'. right. rewrite Hn in Hn'. by injection Hn' as <-. }
  assert (forall j, graph_node (graph_ t1) j = if decide (j = c) then fuse_attrs n <$> graph_node (graph_ t) j
    else if decide (j = i) then set_in 0 (nhwc_arg_ e) <$> graph_node (graph_ t) j else graph_node (graph_ t) j) as Ht1.
  { intros j. unfold t1. rewrite t_upd_node, rewired_node. destruct (decide (j = c)) as [->|]; [|done]. by rewrite decide_False by exact Hci. }
  assert (graph_node (graph_ t1) i = Some (set_in 0 (nhwc_arg_ e) n)) as Hi1 by (rewrite Ht1, decide_False, decide_True, Hn by (done || by apply not_eq_sym); done).
  assert (graph_node (graph_ t1) c = Some (fuse_attrs n nc)) as Hc1 by (rewrite Ht1, decide_True, Hc; done).
  unfold FuseNhwcArgument. apply wp_bind, (wp_RemoveOutputEdges i 0 (set_in 0 (nhwc_arg_ e) n) z); [by apply (edges_ok_nodes (graph_ t1))|exact Hi1|cbn; by rewrite Eout|].
  apply wp_bind, (wp_GetNode_t i (drop i (slot_edges 0 n) i (set_in 0 (nhwc_arg_ e) n))); [by apply dropped_node|].
  apply wp_bind. change (output_defs (drop _ _ _ _)) with (output_defs n). rewrite (f_equal (fun l => l !! 0%nat) Eout : output_defs n !! 0%nat = Some z). apply wp_ret.
  apply wp_bind, (wp_GetNode_t c (drop i (slot_edges 0 n) c (fuse_attrs n nc))); [by apply dropped_node|].
  apply wp_bind. change (output_defs (drop _ _ _ _)) with (output_defs nc). rewrite (f_equal (fun l => l !! 0%nat) Eo : output_defs nc !! 0%nat = Some (nhwc_arg_ e)). apply wp_ret, wp_modify.
  apply wp_bind, wp_remove_later, wp_ret, wp_ret. split; [done|]. exists (drop i (slot_edges 0 n) c (fuse_attrs n nc)). split; [|done].
  change (graph_node (drop_edges i (slot_edges 0 n) (graph_ t1)) c = Some (drop i (slot_edges 0 n) c (fuse_attrs n nc))). by rewrite drop_edges_node, Hc1.
Qed.
End site.

(** The dilations of a pooling do not matter to the test nor to the fused attributes. *)
Lemma dilations_ignored n l : let n' := n <| attributes_ := <["dilations" := attr_ints l]> (attributes_ n) |> in
  attributes_ n !! "dilations" = None -> pool_attributes_ok n' = pool_attributes_ok n /\ forall a, fused_attrs a (attributes_ n') = fused_attrs a (attributes_ n).
Proof.
  intros n' Hd. unfold pool_attributes_ok, fused_attrs, ints_or, GetRepeatedNodeAttributeValues, attribute_unset_or_s, attribute_unset_or_i, GetNodeAttribute, n'. cbn [attributes_ set_field].
  change (attributes_ (n <| attributes_ := ?a |>)) with a. rewrite lookup_insert_eq, !lookup_insert_ne by done. by rewrite Hd.
Qed.

Lemma fused_attrs_twice a p q : fused_attrs (fused_attrs a p) q = fused_attrs a q.
Proof.
  unfold fused_attrs. apply map_eq. intros k.
  destruct (decide (k = "pool_strides")), (decide (k = "pool_pads")), (decide (k = "pool_kernel_shape")), (decide (k = "maxpool")); by simplify_map_eq.
Qed.

Lemma run_of_wp {S A} (m : M S A) Q s : wp m Q s -> exists a s', m s = (Ok a, s') /\ Q a s'.
Proof. unfold wp. destruct (m s) as [[a|f] s']; [|done]. by exists a, s'. Qed.

(** C40: what [TransformMaxPool] does with a pooling that is the only use of a quantized
    NHWC convolution, in any state with consistent edges.  If its attributes pass
    the test, the convolution gets the attributes of the pooling and the pooling is put
    on the list of nodes to remove.  If not, the pooling stays as it is but for its input:
    it now reads the NHWC argument, which has one use less, as if it were in NCHW
    order, and nothing else changes.  A [ceil_mode] other than 0, an [auto_pad] other than
    [NOTSET] and a [storage_order] other than 0 fail the test.  Dilations pass it and
    are lost: the test and the attributes of the convolution are what they are without.
    A convolution that had a pooling fused before keeps nothing of the first one. *)
Theorem pool_fusion_cases t i n nc x z e : fusion_site t i n nc x z e ->
  (if pool_attributes_ok n then exists t' nc', TransformMaxPool i t = (Ok tt, t') /\ removed_nodes_ t' = i :: removed_nodes_ t /\
     graph_node (graph_ t') (output_node_ e) = Some nc' /\ op_type_ nc' = "QLinearConv_nhwc" /\ attributes_ nc' = fused_attrs (attributes_ nc) (attributes_ n)
   else TransformMaxPool i t = (Ok tt, t_rewired i x e t)) /\
  (forall v, attributes_ n !! "ceil_mode" = Some (attr_i v) -> v <> 0 -> pool_attributes_ok n = false) /\
  (forall s, attributes_ n !! "auto_pad" = Some (attr_s s) -> s <> "NOTSET" -> pool_attributes_ok n = false) /\
  (forall v, attributes_ n !! "storage_order" = Some (attr_i v) -> v <> 0 -> pool_attributes_ok n = false) /\
  (forall l, let n' := n <| attributes_ := <["dilations" := attr_ints l]> (attributes_ n) |> in attributes_ n !! "dilations" = None ->
     pool_attributes_ok n' = pool_attributes_ok n /\ forall a, fused_attrs a (attributes_ n') = fused_attrs a (attributes_ n)) /\
  (forall a first, attributes_ nc = fused_attrs a first -> fused_attrs (attributes_ nc) (attributes_ n) = fused_attrs a (attributes_ n)).
Proof.
  intros Hs. split_and!.
  - destruct (pool_attributes_ok n) eqn:Hok.
    + destruct (run_of_wp _ _ _ (wp_pool_fused t i n nc x z e Hs Hok)) as ([] & t' & E & Hr & nc' & Hc & Hk & Ha). by exists t', nc'.
    + by destruct (run_of_wp _ _ _ (wp_pool_refused t i n nc x z e Hs Hok)) as ([] & t' & -> & ->).
  - intros v Hv Hne. unfold pool_attributes_ok, attribute_unset_or_i, GetNodeAttribute. rewrite Hv, (proj2 (Z.eqb_neq v 0)) by done. by rewrite !andb_false_r.
  - intros s Hv Hne. unfold pool_attributes_ok, attribute_unset_or_s, GetNodeAttribute. rewrite Hv, bool_decide_false by done. by rewrite !andb_false_r.
  - intros v Hv Hne. unfold pool_attributes_ok, attribute_unset_or_i, GetNodeAttribute. rewrite Hv, (proj2 (Z.eqb_neq v 0)) by done. by rewrite !andb_false_r.
  - intros l n' Hd. by apply dilations_ignored.
  - intros a first ->. apply fused_attrs_twice.
Qed.

(** A transformed convolution and a pooling whose output is the output of the graph. *)
Definition site_conv : Node := {| node_Name := "conv_nhwc"; op_type_ := "QLinearConv_nhwc"; input_defs := ["NHWCreorder"; "xs"; "xz"; "w_nhwc"; "ws"; "wz"; "ys"; "yz"]; output_defs := ["c_nhwc_0"];
  implicit_input_defs := []; attributes_ := ∅; execution_provider_type_ := kSystolicExecutionProvider; input_edges := ∅; output_edges := ∅ |}.
Definition site_pool (attrs : NodeAttributes) : Node := {| node_Name := "pool"; op_type_ := "MaxPool"; input_defs := ["c"]; output_defs := ["p"];
  implicit_input_defs := []; attributes_ := attrs; execution_provider_type_ := kSystolicExecutionProvider; input_edges := ∅; output_edges := ∅ |}.
Definition site_state (attrs : NodeAttributes) : Transformer :=
  (make_Transformer ((sample_graph attrs) <| nodes_ := [Some site_conv; Some (site_pool attrs)] |>) false)
    <| nhwc_args_ := {[ "c" := make_NhwcArgument 0 "c_nhwc_0" 1 ]} |>.

Lemma site_state_ok attrs : fusion_site (site_state attrs) 1 (site_pool attrs) site_conv "c" "p" (make_NhwcArgument 0 "c_nhwc_0" 1).
Proof.
  split; try done. split; intros [|[|k]] n j p q Hn; cbn in Hn; try done; injection Hn as <-; cbn; set_solver.
Qed.

(** With [ceil_mode] the pooling is rewired; with dilations it is fused. *)
Lemma pool_fusion_cases_witness :
  TransformMaxPool 1 (site_state (<["ceil_mode" := attr_i 1]> plain_attrs)) =
    (Ok tt, t_rewired 1 "c" (make_NhwcArgument 0 "c_nhwc_0" 1) (site_state (<["ceil_mode" := attr_i 1]> plain_attrs))) /\
  exists t' nc', TransformMaxPool 1 (site_state (<["dilations" := attr_ints [2; 2]]> plain_attrs)) = (Ok tt, t') /\
    graph_node (graph_ t') 0 = Some nc' /\ attributes_ nc' = fused_attrs ∅ plain_attrs.
Proof.
  split.
  - exact (proj1 (pool_fusion_cases _ _ _ _ _ _ _ (site_state_ok (<["ceil_mode" := attr_i 1]> plain_attrs)))).
  - destruct (proj1 (pool_fusion_cases _ _ _ _ _ _ _ (site_state_ok (<["dilations" := attr_ints [2; 2]]> plain_attrs)))) as (t' & nc' & E & _ & Hc & _ & Ha).
    exists t', nc'. split; [exact E|]. split; [exact Hc|]. etransitivity; [exact Ha|]. vm_compute. reflexivity.
Defined.
